(* ===== verification/_CoqProject ===== *)
-Q . S2P
Prelude.v
Storage.v
StorageMemory.v
StorageSqlite.v
StorageAof.v
StorageAofSpec.v
F64.v
Json.v
Platform.v
Geo.v
GeoSpec.v
Strings.v
StringsSpec.v
Index.v
IndexSpec.v
Geofence.v
GeofenceSpec.v
Collection.v
FieldIndexSpec.v
CollectionSpec.v
Engine.v
Queries.v
QueriesSpec.v
EngineSpec.v
EngineLogic.v
EngineOps.v
Durability.v
Recovery.v
WebhookQueue.v
WebhookQueueSpec.v
Outbox.v
OutboxSpec.v
Replication.v
ReplicationSpec.v
F64Ints.v
Auth.v
AuthSpec.v
Config.v
ConfigSpec.v
RateLimit.v
RateLimitSpec.v
Metrics.v
Http.v
HttpFrame.v
HttpSpec.v
HttpView.v
HttpNotify.v
HttpConfig.v
HttpWitness.v
Concurrency.v
ConcurrencySpec.v
Linearize.v
Interleavings.v
Solo.v
InterleavingsWitness.v
CapnpCodec.v
CapnpCodecSpec.v
Capnp.v
CapnpSpec.v
CapnpAuth.v
CapnpWitness.v
Ws.v
WsSpec.v
StreamWait.v
Executor.v
Endpoints.v
OutboxLoop.v
ServerStorage.v
Server.v
