(* ===== verification/Prelude.v ===== *)
(** * latlng: a verification library for the geospatial object engine

    latlng is a geospatial database.  Clients store objects (points, boxes,
    geohashes, GeoJSON or strings, with fields and a deadline) in named
    collections, search them by area, distance or field, and define geofences
    whose events go to channels (subscribers) and hooks (webhooks).  Every
    write is appended to a command log before it is applied; a restart or a
    replica replays the log.

    ** Parts, and the files that model them

    Paths are relative to [crates/].

    - [Prelude]: results and the [?] operator, machine integers, hash maps and
      B-tree maps with their iteration orders, list lemmas, tactics.
    - [Storage]: [latlng-storage], the backend trait as the class
      [StorageBackend] and its documented contract as the class
      [StorageLaws].  [StorageMemory] ([latlng-storage-memory]) and
      [StorageAof] ([latlng-storage-aof]) implement the trait; [StorageMemory]
      and [StorageAofSpec] prove the contract for them.
    - [StorageSqlite]: [latlng-storage-sqlite], the table and what its
      statements do to it, with statements that fail.
    - [StorageAof]: the file as bytes on a disk with bounded free space, the
      frame format, the loader and its torn-tail rule, the writer thread with
      its buffer, group commit, rollback, compaction, backup and restore.
      [StorageAofSpec] has its theorems.
    - [F64], [Strings], [StringsSpec]: the parts of Rust's [f64] and [str] the
      code uses; how trimming and splitting commute.
    - [Json], [Geo], [GeoSpec]: [latlng-geo]: JSON paths, validation, boxes,
      areas, geohashes, quadkeys, clipping.
    - [Platform]: the mailbox of [latlng-platform].
    - [Index], [IndexSpec]: [latlng-index]: options, expression filters, the
      spatial index, sorting and paging.
    - [Geofence], [GeofenceSpec]: [latlng-geofence]: the registry, static and
      roaming fences, delivery of events.
    - [Collection], [FieldIndexSpec], [CollectionSpec]:
      [latlng-core/src/lib.rs], collections with their four derived structures.
    - [Engine]: the rest of [latlng-core]: [commands.rs] (SET, DEL, PDEL, FSET,
      EXPIRE, PERSIST, JSET, JDEL, collections, reads), [geofences.rs],
      [restore.rs], [internals.rs], [persistence.rs], [admin.rs], [util.rs],
      [log_codec.rs], [webhook_ids.rs] and the builder.  An operation is a
      function in a state-and-error monad: an error returns early and keeps
      what was changed before it.
    - [EngineSpec]: the abstract view of a database and the meaning of every
      logged command on views; replay and garbage collection refine it.
    - [EngineLogic], [EngineOps]: a weakest-precondition logic for the monad
      and the effect of every operation on view and log.
    - [Durability], [Recovery]: the invariant that the log tells the state,
      runs, restarts, compaction, replicas.
    - [Concurrency]: the writers of [commands.rs] as threads: the [control]
      gate ([engine.rs]), the locks and versions of the cells, and the
      optimistic loops of [try_set_local], [try_del_local], [try_fset_local],
      [try_expire_local], [try_persist_local] and [edit_geojson_local] as
      moves between lock operations; the other requests hold the write gate.
      [ConcurrencySpec] (writes in one go, histories, the invariant),
      [Linearize] (every move keeps it), [Interleavings] and [Solo] (the
      theorems) and [InterleavingsWitness] (concrete schedules) are about it.
    - [Queries], [QueriesSpec]: [latlng-core/src/queries.rs]: NEARBY, WITHIN,
      INTERSECTS, SCAN, SEARCH and TEST, with the shortcuts through the spatial
      and field indexes, in both builds.
    - [WebhookQueue], [WebhookQueueSpec]: [latlng-webhook-queue]: the table of
      jobs and what each SQL statement does to it.
    - [Outbox], [OutboxSpec]: the webhook outbox of [latlng-server/src/main.rs]
      and the parts of [latlng-http/src/handlers.rs] that touch the queue: the
      queue is rebuilt from the log, follows its tail, and writes the outcome
      of every delivery back to the log.
    - [Replication], [ReplicationSpec]: [latlng-replication],
      [latlng-server/src/replication.rs] and the stream of
      [latlng-capnp/src/streams.rs]: a follower checks its leader, compares
      checksums, starts over when they differ and applies the leader's log
      batch by batch; the commands FOLLOW, UNFOLLOW and READONLY run in the
      steps that the code awaits (settings and status, the executor's job that
      sets the engine's flag, the worker), with requests between them.
    - [Auth], [AuthSpec]: [latlng-auth] and [latlng-http/src/authz.rs]:
      permissions, claims, key sets and their cache, authentication, tokens.
    - [Config], [ConfigSpec]: [latlng-config]: settings, defaults, the checks at
      start-up, configuration files.
    - [F64Ints], [RateLimit], [RateLimitSpec]: integers in [f64] and the rate
      limiters of [latlng-http/src/middleware.rs].
    - [Metrics]: [latlng-http/src/metrics.rs]: counters, histograms, their text.
    - [Http]: [latlng-http/src/handlers.rs], [state.rs], [routes.rs] and
      [error.rs]: every handler as a function in a state-and-error monad over
      the state the handlers share, and the router.  [HttpFrame] (what an
      operation can touch), [HttpSpec] (permissions, followers), [HttpView]
      (what answers reveal), [HttpNotify] (wake-ups), [HttpConfig] (settings)
      and [HttpWitness] (concrete servers) have its theorems.
    - [CapnpCodec], [CapnpCodecSpec]: [latlng-capnp/src/codec.rs], the reading
      and writing of the messages of [latlng-schema].  [Capnp]: [handlers.rs],
      [rpc_state.rs], [runtime.rs] and [error.rs] of [latlng-capnp]: every
      method in a state-and-error monad over the state shared with [Http] and
      the principal of the session.  [CapnpSpec] (agreement with [Http]),
      [CapnpAuth] (permissions) and [CapnpWitness] have its theorems.
    - [Ws], [WsSpec]: [latlng-ws], a websocket connection as steps of the
      client, the bridge from the mailbox and the server, and the event streams
      of [latlng-capnp/src/streams.rs].  [StreamWait]: how a replication stream
      of that file waits for writers.
    - [Executor]: [latlng-native-executor], calls, permits, queue and workers
      as steps.
    - [Endpoints]: [latlng-endpoints], the delivery of an event, and the task
      of [latlng-server/src/main.rs] that makes it.
    - [OutboxLoop]: [run_webhook_outbox] of that file, the loop that takes the
      steps of [Outbox], with its waits, the deliveries beside it and the
      settings it reads anew in every turn.
    - [ServerStorage]: [latlng-server/src/storage.rs], the backend of the
      server, and what its file holds when the process dies.
    - [Server]: flags, environment and files of [latlng-server/src/main.rs] and
      [cli.rs], and the sweep of expired objects.

    ** What the theorems show

    The conditions of every theorem are in its comment; the ones that matter
    are repeated here.

    - Storage: a group commit whose write and [fsync] succeed is durable and
      equals committing its requests one by one; a failed [fsync] is rolled
      back on disk; the loader returns exactly the complete frames of a file,
      torn tail or not; compaction and backup/restore keep the log; a batch is
      appended whole or not at all. The SQLite backend holds the log of the
      in-memory one whatever statements fail.  A server that is killed finds
      its state in the bytes of its file, as long as no I/O error was reported
      (and as for restarts below).
    - Data: JSET then JGET, failed edits, JDEL's answer; geohash and quadkey
      round trips; unions of boxes.
    - Search: the R-tree and the id map stay in step; parallel filtering
      equals serial filtering; a page is a slice of the fully sorted matches;
      following cursors comes to the end and visits every match once; a field
      index never hides a matching object whose fields have the types that the
      filters compare.
    - Collections: all derived structures agree with the objects after every
      operation that succeeds; the expiry queue is exact and in order.
    - Geofences: exactly the concerned fences are evaluated; a static fence
      reports at every mutation the transition that its area and the moves of
      the object determine, crossings included; after a mutation of its source
      the pairs of a roaming fence are exactly the objects within reach, with
      one event for each that is due; one failing fence does not disturb the
      others; delivery is in order and never shows events from before a flush.
    - Engine: replay computes the meaning of the log; every request but
      FLUSHDB changes the view exactly by what it logs, unless the spatial
      index refuses what was already logged; a restart after a run without
      such a refusal, in which compactions found nothing expired, recovers
      exactly the live objects, channels and hooks; compaction keeps them; an
      empty replica converges; SET's answer and effect; read-only mode.
    - Concurrent writers, in the runs described under Choices: they are
      linearizable in the order of the log, and a request is refused only when
      its own move met the refusal; a crash keeps every answered write; the
      optimistic loops end after a number of moves bounded by the number of
      requests and never deadlock; a writer alone is the uninterrupted
      operation of [Engine].
    - Queries: a valid query answers as a scan of all live objects would
      (SCAN and SEARCH where the field indexes serve it), and
      options that pass validation never make a filter fail.
    - Webhooks: a leased job is not handed out again; the queue's snapshot
      restores it; however requests that extend the log, deliveries, reads
      of the log and restarts interleave, the queue is the one a restart would
      build; the backoff.
    - Replication: one attempt to follow brings a follower to the log and live
      state of a quiet leader whose log has no gaps and moves no deadline of an
      expired object, in a bounded number of turns; a follower refuses writes
      once the job of its FOLLOW has run, when commands come one at a time.
    - Authentication: nobody becomes a principal without cause, and a token
      counts only under the configured algorithm, issuer and audience; a minted
      token grants what it was minted with; a valid configuration never answers
      500; production mode lets nobody in without a verified token.
    - Configuration: what passes the checks at start-up is what the rest of the
      server takes for granted; CONFIG SET reads back; CONFIG REWRITE loads.
    - Rate limits: every principal gets exactly its burst, as long as the table
      need not evict one; the table is bounded.
    - HTTP: nothing changes without the permissions that the request asks for;
      an answer tells a principal only what it may see; a follower that is
      behind answers no query; an acknowledged write wakes the background
      tasks.
    - RPC: a call does to the server what its HTTP counterpart does, and the
      answers say the same, flag by flag and value by value; nothing changes
      without the permissions that the call asks for; objects survive the
      messages.
    - Subscribers: every event is sent under the principal of the last accepted
      authentication, which may read it; a client gets exactly the events it
      may read, in order.
    - Executor: every call is answered, also while the executor shuts down.
    - Deliveries: a job is acknowledged exactly when its endpoint has answered
      its one request with a status of success.  The loop of the outbox keeps
      within the limit it has read, also when the settings change, and goes on
      as soon as a pending job is due.
    - Start: numbers from the environment keep the bounds positive; flags
      decide over everything else; the check in front of a sweep is only a
      shortcut.
    - What goes wrong is stated as theorems too, next to the model they are
      about: a refused SET blocks restarts, a torn tail swallows later
      appends, a failed rewrite of a geometry desynchronises the indexes, text
      filters miss numbers, compaction loses unread webhook jobs and revived
      objects, a follower cannot start on a compacted log, loses objects
      whose deadline a later batch extends, and stops at a sequence gap; a
      channel can be taken over and a collection renamed over without the
      permission to delete it, a search area looks into unseen collections, a
      deletion of nothing is logged unnoticed, an accepted setting blocks the
      next start, a key server that is down locks everybody out; two writers
      can reach the log in the wrong order, and a fence can miss a deletion;
      over RPC an anonymous deletion is logged, compaction drops queued jobs,
      a follower that is behind denies that objects exist, an altitude of zero
      is lost, and a stream can miss a write until the next one, as can the
      outbox, which also forgets jobs whose lease has run out; a roaming
      fence reveals objects of other collections; READONLY off racing a FOLLOW
      leaves a writable follower, and PDELHOOK on a server that is behind and
      writable checks no permission; the SQLite backend takes
      entries out of order; a misspelt variable switches off the requirement
      of authentication.

    ** Choices

    - A [u64] or [u32] is a [Z] with wrap-around or saturation written out; an
      [f64] is a binary64 number of [SpecFloat], with one NaN.
    - A [HashMap] is a [gmap] whose iteration order is a parameter
      ([HashOrder]); a [BTreeMap] iterates in key order.
    - Third-party crates are parameters with the documented behaviour the code
      relies on: [FrameCodec] (bincode frames), [LogCodec] (serde_json and
      bincode log records), [Md5], [Base64], [GeoCrate] (geo, geojson),
      [RTreeCrate] (rstar), [Patterns] (glob_match, regex), [SelectNth]
      (slice selection), [JsonText] (serde_json text), [EventCodec] (events in
      the queue), [JwtCrate] (jsonwebtoken, sha2, base64), [ConfigText]
      (serde_json and toml configurations), [CapnpTexts] and [SqlTexts] (texts
      of the errors of capnp and rusqlite), [HttpClient] (reqwest), [Libm].
      Each has a concrete instance in the files that use it for examples.
    - The engine theorems take from the codec only that the payloads in the
      log at hand decode to the records they encode ([log_healthy], which also
      says that no sequence number has wrapped around).
    - Error messages are shortened to what is wrong.  The operations of
      [Engine] run one at a time and read the clock once, so the version an
      optimistic write compares is the one it read and its loop runs once; in
      [Concurrency] every move has a clock of its own and loops start again.
    - A run of threads is taken to be one in which no cell has been written
      2^64 - 1 times, where its version saturates, and no write stores a
      geometry that the spatial index refuses ([calm]); FLUSHDB, which cuts the
      log, is not among the requests.
    - Fuel appears in the AOF loader ([Datatypes.S] of the file's length, each
      turn reads at least eight bytes), in the writer loop (one turn per
      command), and in [try_recv] (one turn per queued event); the theorems
      there show that it is enough.

    ** Not modelled

    The preview helpers and [wasm.rs] of latlng-core, which converts between
    JavaScript values and calls of the engine; interleavings of HTTP handlers
    above the engine's writes (a handler of [Http] or [Capnp] is one step, also
    where it makes two calls of the executor, as DELCHAN and DELHOOK do to
    check and to delete), and of queries over several cells with writers;
    connections, their acceptance, scheduling and timeouts (the service of
    latlng-capnp, the middleware that cuts a request off); the parsing of
    requests and the printing of answers by axum, serde and clap; the OpenAPI
    document and the reference of the configuration, which are tables; logging;
    the command line client and the benchmarks, which only send requests. *)

From Stdlib Require Import ZArith Lia.
From stdpp Require Import base gmap strings list sorting.

(** ** Results: Rust's [Result<T, E>] and the [?] operator *)

Inductive result (A E : Type) : Type :=
  | Ok (a : A)
  | Err (e : E).
Arguments Ok {A E} a.
Arguments Err {A E} e.

Declare Scope latlng_scope.
Delimit Scope latlng_scope with latlng.

Definition rbind {A B E} (r : result A E) (k : A → result B E) : result B E :=
  match r with
  | Ok a => k a
  | Err e => Err e
  end.

Definition map_err {A E F} (f : E → F) (r : result A E) : result A F :=
  match r with
  | Ok a => Ok a
  | Err e => Err (f e)
  end.

Definition rmap {A B E} (f : A → B) (r : result A E) : result B E :=
  match r with
  | Ok a => Ok (f a)
  | Err e => Err e
  end.

Definition ok_or {A E} (o : option A) (e : E) : result A E :=
  match o with
  | Some a => Ok a
  | None => Err e
  end.

(** [.ok()]: the value, dropping the error. *)
Definition rok {A E} (r : result A E) : option A :=
  match r with
  | Ok a => Some a
  | Err _ => None
  end.

Definition is_ok {A E} (r : result A E) : bool :=
  match r with
  | Ok _ => true
  | Err _ => false
  end.

Notation "'let?' x ':=' c 'in' k" := (rbind c (λ x, k))
  (at level 10, x binder, k at level 200) : latlng_scope.
Open Scope latlng_scope.

(** A [for] loop over a slice whose body may return early with an error. *)
Fixpoint try_fold {A B E} (f : B → A → result B E) (acc : B) (l : list A) : result B E :=
  match l with
  | [] => Ok acc
  | x :: l' => let? acc' := f acc x in try_fold f acc' l'
  end.

(** [iter.try_for_each(f)]. *)
Definition try_for_each {A E} (f : A → result unit E) : list A → result unit E :=
  fix go l :=
    match l with
    | [] => Ok tt
    | x :: l' => let? _ := f x in go l'
    end.

#[export] Instance Ok_inj {A E} : Inj (=) (=) (@Ok A E).
Proof. by intros x y [= ->]. Qed.

Lemma rbind_Ok_inv {A B E} (r : result A E) (k : A → result B E) (b : B) :
  rbind r k = Ok b → ∃ a, r = Ok a ∧ k a = Ok b.
Proof. destruct r; simpl; [eauto | discriminate]. Qed.

Lemma try_fold_app {A B E} (f : B → A → result B E) acc (l1 l2 : list A) :
  try_fold f acc (l1 ++ l2) = (let? acc' := try_fold f acc l1 in try_fold f acc' l2).
Proof.
  revert acc. induction l1 as [|x l1 IH]; intros acc; simpl; [done|].
  destruct (f acc x); simpl; auto.
Qed.

(** ** Machine integers: unsigned 64- and 32-bit values kept as [Z] *)

Definition U64_MAX : Z := 2 ^ 64 - 1.
Definition U32_MAX : Z := 2 ^ 32 - 1.

(** [u64::saturating_add] and [u64::saturating_sub]. *)
Definition saturating_add (a b : Z) : Z := Z.min (a + b) U64_MAX.
Definition saturating_sub (a b : Z) : Z := Z.max (a - b) 0.

(** [a + b] on [u64] as the release profile compiles it. *)
Definition wrapping_add (a b : Z) : Z := (a + b) mod 2 ^ 64.

Definition is_u64 (z : Z) : Prop := (0 ≤ z ≤ U64_MAX)%Z.

Lemma U64_MAX_eq : U64_MAX = (2 ^ 64 - 1)%Z.
Proof. reflexivity. Qed.
#[global] Opaque U64_MAX.

Lemma saturating_add_le a b : (saturating_add a b ≤ U64_MAX)%Z.
Proof. unfold saturating_add. lia. Qed.

Lemma saturating_add_ge a b : (a ≤ U64_MAX → 0 ≤ b → a ≤ saturating_add a b)%Z.
Proof. unfold saturating_add. lia. Qed.

Lemma saturating_add_exact a b : (a + b ≤ U64_MAX)%Z → saturating_add a b = (a + b)%Z.
Proof. unfold saturating_add. lia. Qed.

Lemma wrapping_add_exact a b :
  (0 ≤ a)%Z → (0 ≤ b)%Z → (a + b ≤ U64_MAX)%Z → wrapping_add a b = (a + b)%Z.
Proof.
  rewrite U64_MAX_eq. intros. unfold wrapping_add. apply Z.mod_small. lia.
Qed.

Create HintDb latlng.
#[export] Hint Resolve saturating_add_le saturating_add_ge : latlng.

(** ** Maps with an iteration order

    A Rust [HashMap] iterates in an unspecified order: the order is an
    operation of this class, and its law only says that every binding comes
    exactly once. *)
Class HashOrder := {
  hash_iter : ∀ {K V} `{Countable K}, gmap K V → list (K * V);
  hash_iter_perm : ∀ {K V} `{Countable K} (m : gmap K V), hash_iter m ≡ₚ map_to_list m
}.

#[export] Instance hash_order_map_to_list : HashOrder | 100 := {
  hash_iter K V _ _ m := map_to_list m;
  hash_iter_perm K V _ _ m := reflexivity _
}.

(** A Rust [BTreeMap<String, V>] iterates in ascending key order. *)
Definition key_le {V} (p q : string * V) : Prop := String.le p.1 q.1.

#[export] Instance key_le_dec {V} (p q : string * V) : Decision (key_le p q) :=
  String.le_dec p.1 q.1.

#[export] Instance key_le_total {V} : Total (@key_le V).
Proof. intros p q. apply (total String.le). Qed.

#[export] Instance key_le_trans {V} : Transitive (@key_le V).
Proof. intros p q r. apply (transitivity (R := String.le)). Qed.

Definition btree_iter {V} (m : gmap string V) : list (string * V) :=
  merge_sort key_le (map_to_list m).

Lemma btree_iter_perm {V} (m : gmap string V) : btree_iter m ≡ₚ map_to_list m.
Proof. apply merge_sort_Permutation. Qed.

Lemma elem_of_btree_iter {V} (m : gmap string V) k v :
  (k, v) ∈ btree_iter m ↔ m !! k = Some v.
Proof. by rewrite btree_iter_perm, elem_of_map_to_list. Qed.

Lemma NoDup_btree_iter {V} (m : gmap string V) : NoDup (btree_iter m).*1.
Proof. rewrite btree_iter_perm. apply NoDup_fst_map_to_list. Qed.

Lemma list_to_map_btree_iter {V} (m : gmap string V) :
  list_to_map (btree_iter m) = m.
Proof.
  rewrite <-(list_to_map_to_list m) at 2.
  apply list_to_map_proper; [apply NoDup_btree_iter | apply btree_iter_perm].
Qed.

Lemma pair_with_snd {A B} (p : A * B) (b : B) : p.2 = b → p = (p.1, b).
Proof. destruct p. simpl. congruence. Qed.

Lemma hash_iter_NoDup {K V} `{Countable K} `{HashOrder} (m : gmap K V) :
  NoDup (hash_iter m).*1.
Proof. rewrite hash_iter_perm. apply NoDup_fst_map_to_list. Qed.

Lemma elem_of_hash_iter {K V} `{Countable K} `{HashOrder} (m : gmap K V) k v :
  (k, v) ∈ hash_iter m ↔ m !! k = Some v.
Proof. by rewrite hash_iter_perm, elem_of_map_to_list. Qed.

Lemma alter_Some {K V} `{Countable K} (f : V → V) (m : gmap K V) i x :
  m !! i = Some x → alter f i m = <[i := f x]> m.
Proof.
  intros Hi. apply map_eq. intros j. destruct (decide (i = j)) as [<-|].
  - by rewrite lookup_alter_eq, Hi, lookup_insert_eq.
  - by rewrite lookup_alter_ne, lookup_insert_ne.
Qed.

Lemma alter_None {K V} `{Countable K} (f : V → V) (m : gmap K V) i :
  m !! i = None → alter f i m = m.
Proof.
  intros Hi. apply map_eq. intros j. destruct (decide (i = j)) as [<-|].
  - by rewrite lookup_alter_eq, Hi.
  - by rewrite lookup_alter_ne.
Qed.

(** ** Lists *)

(** [slice.last()]. *)
Lemma last_app_cons {A} (l : list A) x l' : last (l ++ x :: l') = last (x :: l').
Proof.
  induction l as [|y l IH]; [done|]. simpl app.
  destruct (l ++ x :: l') eqn:E; [by destruct l|]. rewrite <-IH. done.
Qed.

Lemma Forall_filter_id {A} (P : A → Prop) `{∀ x, Decision (P x)} (l : list A) :
  Forall P l → filter P l = l.
Proof.
  induction 1 as [|x l Hx Hl IH]; [done|].
  by rewrite filter_cons_True, IH by done.
Qed.

Lemma Forall_filter_nil {A} (P : A → Prop) `{∀ x, Decision (P x)} (l : list A) :
  Forall (λ x, ¬ P x) l → filter P l = [].
Proof.
  induction 1 as [|x l Hx Hl IH]; [done|].
  by rewrite filter_cons_False, IH by done.
Qed.

Lemma filter_ext_elem {A} (P Q : A → Prop) `{∀ x, Decision (P x)} `{∀ x, Decision (Q x)}
    (l : list A) : (∀ x, x ∈ l → P x ↔ Q x) → filter P l = filter Q l.
Proof.
  induction l as [|x l IH]; intros Hpq; [done|].
  assert (filter P l = filter Q l) as Hl by (apply IH; intros y Hy; apply Hpq; by right).
  specialize (Hpq x ltac:(by left)). destruct (decide (P x)).
  - rewrite !filter_cons_True by tauto. by rewrite Hl.
  - rewrite !filter_cons_False by tauto. by rewrite Hl.
Qed.

Lemma StronglySorted_filter {A} (R : relation A) (P : A → Prop) `{∀ x, Decision (P x)}
    (l : list A) : StronglySorted R l → StronglySorted R (filter P l).
Proof.
  induction 1 as [|x l Hs IH Hall]; [constructor|]. destruct (decide (P x)).
  - rewrite filter_cons_True by done. constructor; [done|].
    rewrite Forall_forall in Hall |- *. intros y [_ Hy]%list_elem_of_filter. auto.
  - by rewrite filter_cons_False.
Qed.

(** ** Tactics *)

(** Case analysis on every [match] or [if] of a hypothesis or of the goal. *)
Ltac split_match :=
  match goal with
  | H : context [match ?x with _ => _ end] |- _ => destruct x eqn:?
  | |- context [match ?x with _ => _ end] => destruct x eqn:?
  end.

(** Inverts a chain of [let?] bindings known to succeed. *)
Ltac ok_inv H :=
  repeat match type of H with
  | rbind _ _ = Ok _ =>
      let a := fresh "a" in let Ha := fresh "Hok" in
      apply rbind_Ok_inv in H as (a & Ha & H)
  end.
