(* ===== verification/Storage.v ===== *)
(** * The storage contract ([crates/latlng-storage/src/lib.rs])

    The entry type, the error type, the two shared routines
    [assert_strictly_increasing] and [replay_entries], and the backend trait
    as a class of operations ([StorageBackend]) with the contract its doc
    comments state ([StorageLaws]).  The engine is verified against the class;
    the memory and append-only-file backends discharge it. *)

From Stdlib Require Import ZArith Lia.
From stdpp Require Import base gmap strings list sorting.
From coqutil Require Word.LittleEndianList.
From S2P Require Import Prelude.

Abbreviation byte := Corelib.Init.Byte.byte.

(** ** Data *)

Inductive StorageError : Type :=
  | Io (message : string)
  | Codec (message : string)
  | SequenceRegression (expected actual : Z)
  | Closed
  | Unsupported (what : string)
  | Message (message : string).

Record CompactionResult := {
  before_entries : Z;
  after_entries : Z;
  before_bytes : Z;
  after_bytes : Z
}.

Record StorageEntry := mkEntry {
  sequence : Z;
  timestamp_ns : Z;
  command : list byte
}.

#[export] Instance byte_eq_decision : EqDecision byte := Byte.byte_eq_dec.

#[export] Instance StorageEntry_eq_dec : EqDecision StorageEntry.
Proof. solve_decision. Defined.

(** [u64::to_le_bytes]. *)
Definition u64_to_le_bytes (z : Z) : list byte := LittleEndianList.le_split 8 z.

(** The digest of the [md5] crate, a function of the bytes consumed. *)
Class Md5 := md5_digest : list byte → list byte.

Definition entry_checksum_bytes (entry : StorageEntry) : list byte :=
  u64_to_le_bytes (sequence entry) ++ u64_to_le_bytes (timestamp_ns entry) ++ command entry.

Definition checksum_entries `{Md5} (entries : list StorageEntry) : list byte :=
  md5_digest (entries ≫= entry_checksum_bytes).

(** ** Shared routines *)

Fixpoint assert_increasing_from (last : option Z) (entries : list StorageEntry)
    : result unit StorageError :=
  match entries with
  | [] => Ok tt
  | entry :: rest =>
      match last with
      | Some previous =>
          if (sequence entry <=? previous)%Z
          then Err (SequenceRegression (wrapping_add previous 1) (sequence entry))
          else assert_increasing_from (Some (sequence entry)) rest
      | None => assert_increasing_from (Some (sequence entry)) rest
      end
  end.

Definition assert_strictly_increasing (entries : list StorageEntry)
    : result unit StorageError :=
  assert_increasing_from None entries.

(** A [FnMut] callback: it updates what it captures and may fail. *)
Definition callback (St : Type) : Type := St → StorageEntry → St * result unit StorageError.

Fixpoint replay_loop {St} (cb : callback St) (last : Z) (st : St)
    (entries : list StorageEntry) : St * result Z StorageError :=
  match entries with
  | [] => (st, Ok last)
  | entry :: rest =>
      match cb st entry with
      | (st', Ok tt) => replay_loop cb (sequence entry) st' rest
      | (st', Err e) => (st', Err e)
      end
  end.

Definition replay_entries {St} (entries : list StorageEntry) (after_seq : Z)
    (cb : callback St) (st : St) : St * result Z StorageError :=
  replay_loop cb after_seq st (filter (λ entry, (after_seq < sequence entry)%Z) entries).

(** ** The backend trait *)

Class StorageBackend (S : Type) := {
  stores_command_log : S → bool;
  append : S → StorageEntry → S * result unit StorageError;
  append_batch : S → list StorageEntry → S * result unit StorageError;
  replay : ∀ {St}, S → Z → callback St → St → St * result Z StorageError;
  snapshot : S → list StorageEntry → S * result unit StorageError;
  last_sequence : S → result Z StorageError;
  checksum : S → Z → Z → result (list byte) StorageError;
  close : S → S * result unit StorageError
}.

Definition seq_lt (e1 e2 : StorageEntry) : Prop := (sequence e1 < sequence e2)%Z.

Definition strictly_increasing (entries : list StorageEntry) : Prop :=
  StronglySorted seq_lt entries.

Definition last_seq_of (entries : list StorageEntry) : Z :=
  from_option sequence 0%Z (last entries).

(** What the trait's doc comments promise, over the log a backend has
    committed: a batch is appended whole or not at all, an empty batch is no
    change, a snapshot replaces the log, and replay walks the committed
    entries after a sequence.  [storage_inv] is the backend's own state
    invariant. *)
Class StorageLaws (S : Type) `{StorageBackend S} := {
  committed : S → list StorageEntry;
  storage_inv : S → Prop;
  inv_increasing s : storage_inv s → strictly_increasing (committed s);
  append_batch_Ok s es s' : storage_inv s →
    append_batch s es = (s', Ok tt) →
    storage_inv s' ∧ committed s' = committed s ++ es ∧
    stores_command_log s' = stores_command_log s;
  append_batch_Err s es s' e : storage_inv s →
    append_batch s es = (s', Err e) →
    storage_inv s' ∧ committed s' = committed s ∧
    stores_command_log s' = stores_command_log s;
  append_batch_empty s : storage_inv s → committed (append_batch s []).1 = committed s;
  snapshot_Ok s es s' : storage_inv s →
    snapshot s es = (s', Ok tt) →
    storage_inv s' ∧ committed s' = es ∧ stores_command_log s' = stores_command_log s;
  snapshot_Err s es s' e : storage_inv s →
    snapshot s es = (s', Err e) →
    storage_inv s' ∧ committed s' = committed s ∧
    stores_command_log s' = stores_command_log s;
  replay_committed {St} s after (cb : callback St) st :
    replay s after cb st = replay_entries (committed s) after cb st;
  last_sequence_committed s : last_sequence s = Ok (last_seq_of (committed s))
}.

(** ** Facts about the shared routines *)

#[export] Instance seq_lt_trans : Transitive seq_lt.
Proof. unfold seq_lt. intros ???. lia. Qed.

Lemma assert_increasing_from_spec last entries :
  assert_increasing_from last entries = Ok tt ↔
  strictly_increasing entries ∧
  match last, entries with
  | Some p, e :: _ => (p < sequence e)%Z
  | _, _ => True
  end.
Proof.
  revert last. induction entries as [|e es IH]; intros last; simpl.
  { split; [|done]. intros _. split; [constructor | by destruct last]. }
  assert (Hstep : assert_increasing_from (Some (sequence e)) es = Ok tt ↔
                  strictly_increasing (e :: es)).
  { rewrite IH. unfold strictly_increasing. split.
    - intros [Hs Hh]. constructor; [done|]. destruct es as [|e' es]; [constructor|].
      apply StronglySorted_inv in Hs as Hs'. destruct Hs' as [_ Hall].
      constructor; [done|]. eapply Forall_impl; [done|].
      intros x Hx. unfold seq_lt in *. lia.
    - intros [Hs Hall]%StronglySorted_inv. split; [done|].
      destruct es; [done|]. by apply Forall_cons_1 in Hall as [? _]. }
  destruct last as [p|]; [|rewrite Hstep; tauto].
  destruct (Z.leb_spec (sequence e) p); [|rewrite Hstep; intuition lia].
  split; [discriminate|]. lia.
Qed.

Lemma assert_strictly_increasing_spec entries :
  assert_strictly_increasing entries = Ok tt ↔ strictly_increasing entries.
Proof. unfold assert_strictly_increasing. rewrite assert_increasing_from_spec. tauto. Qed.

Lemma strictly_increasing_app l1 l2 :
  strictly_increasing (l1 ++ l2) ↔
  strictly_increasing l1 ∧ strictly_increasing l2 ∧
  (∀ e1 e2, last l1 = Some e1 → head l2 = Some e2 → (sequence e1 < sequence e2)%Z).
Proof.
  unfold strictly_increasing. rewrite StronglySorted_app. split.
  - intros (Hx & H1 & H2). split_and!; [done..|].
    intros e1 e2 Hl Hh. apply Hx; [by apply last_Some_elem_of | by apply head_Some_elem_of].
  - intros (H1 & H2 & Hx). split_and!; [|done..].
    intros x1 x2 Hx1 Hx2.
    destruct l2 as [|y l2]; [by apply not_elem_of_nil in Hx2|].
    assert (∃ z, last l1 = Some z) as [z Hz].
    { destruct l1; [by apply not_elem_of_nil in Hx1|]. apply last_is_Some. done. }
    specialize (Hx z y Hz eq_refl).
    assert (sequence x1 ≤ sequence z)%Z.
    { apply last_Some in Hz as [l' ->].
      rewrite StronglySorted_app in H1. destruct H1 as (H1 & _ & _).
      apply elem_of_app in Hx1 as [Hx1|Hx1%list_elem_of_singleton]; [|by subst].
      assert (seq_lt x1 z) as H1' by (apply H1; [done | by apply list_elem_of_singleton]).
      unfold seq_lt in H1'. lia. }
    assert (sequence y ≤ sequence x2)%Z.
    { apply StronglySorted_inv in H2 as [_ Hall].
      apply elem_of_cons in Hx2 as [->|Hx2]; [lia|].
      rewrite Forall_forall in Hall. specialize (Hall x2 Hx2). unfold seq_lt in Hall. lia. }
    unfold seq_lt. lia.
Qed.

(** Replaying a concatenation is replaying the first part, then the second. *)
Lemma replay_loop_app {St} (cb : callback St) last st l1 l2 :
  replay_loop cb last st (l1 ++ l2) =
  match replay_loop cb last st l1 with
  | (st', Ok last') => replay_loop cb last' st' l2
  | (st', Err e) => (st', Err e)
  end.
Proof.
  revert last st. induction l1 as [|e l1 IH]; intros; simpl; [done|].
  destruct (cb st e) as [st' [[]|]]; auto.
Qed.

Lemma replay_entries_all {St} entries after (cb : callback St) st :
  Forall (λ e, (after < sequence e)%Z) entries →
  replay_entries entries after cb st = replay_loop cb after st entries.
Proof. intros H. unfold replay_entries. by rewrite Forall_filter_id. Qed.

Lemma replay_loop_last {St} (cb : callback St) last0 st entries st' n :
  replay_loop cb last0 st entries = (st', Ok n) →
  n = from_option sequence last0 (last entries).
Proof.
  revert last0 st. induction entries as [|e es IH]; intros last0 st; simpl; [congruence|].
  destruct (cb st e) as [st1 [[]|]]; [|discriminate].
  intros ->%IH. rewrite last_cons. by destruct (last es).
Qed.
