(* ===== verification/StorageMemory.v ===== *)
(** * The in-memory backend ([crates/latlng-storage-memory/src/lib.rs])

    The state under the [RwLock], every operation of the trait, and the proof
    that the backend meets the storage contract. *)

From Stdlib Require Import ZArith Lia.
From stdpp Require Import base gmap strings list sorting.
From S2P Require Import Prelude Storage.

Module Memory.

(** ** State and operations *)

Record MemoryBackend := mkMemory {
  entries : list StorageEntry;
  closed : bool;
  record_log : bool
}.

Definition new : MemoryBackend := mkMemory [] false false.

Definition recording : MemoryBackend := mkMemory [] false true.

Definition set_entries (m : MemoryBackend) (es : list StorageEntry) : MemoryBackend :=
  mkMemory es (closed m) (record_log m).

Definition ensure_open (m : MemoryBackend) : result unit StorageError :=
  if closed m then Err Closed else Ok tt.

Definition mem_append (m : MemoryBackend) (entry : StorageEntry)
    : MemoryBackend * result unit StorageError :=
  match ensure_open m with
  | Err e => (m, Err e)
  | Ok _ =>
      match last (entries m) with
      | Some l =>
          if (sequence entry <=? sequence l)%Z
          then (m, Err (SequenceRegression (wrapping_add (sequence l) 1) (sequence entry)))
          else (set_entries m (entries m ++ [entry]), Ok tt)
      | None => (set_entries m (entries m ++ [entry]), Ok tt)
      end
  end.

Definition mem_append_batch (m : MemoryBackend) (es : list StorageEntry)
    : MemoryBackend * result unit StorageError :=
  match ensure_open m with
  | Err e => (m, Err e)
  | Ok _ =>
      match assert_strictly_increasing es with
      | Err e => (m, Err e)
      | Ok _ =>
          match last (entries m), head es with
          | Some l, Some first =>
              if (sequence first <=? sequence l)%Z
              then (m, Err (SequenceRegression (wrapping_add (sequence l) 1) (sequence first)))
              else (set_entries m (entries m ++ es), Ok tt)
          | _, _ => (set_entries m (entries m ++ es), Ok tt)
          end
      end
  end.

Definition mem_replay {St} (m : MemoryBackend) (after_seq : Z) (cb : callback St) (st : St)
    : St * result Z StorageError :=
  replay_entries (entries m) after_seq cb st.

Definition mem_snapshot (m : MemoryBackend) (es : list StorageEntry)
    : MemoryBackend * result unit StorageError :=
  match ensure_open m with
  | Err e => (m, Err e)
  | Ok _ =>
      match assert_strictly_increasing es with
      | Err e => (m, Err e)
      | Ok _ => (set_entries m es, Ok tt)
      end
  end.

Definition mem_compact (m : MemoryBackend) : result CompactionResult StorageError :=
  let bytes := foldr (λ e acc, (Z.of_nat (length (command e)) + acc)%Z) 0%Z (entries m) in
  let n := Z.of_nat (length (entries m)) in
  Ok {| before_entries := n; after_entries := n; before_bytes := bytes; after_bytes := bytes |}.

Definition mem_last_sequence (m : MemoryBackend) : result Z StorageError :=
  Ok (from_option sequence 0%Z (last (entries m))).

Definition mem_checksum `{Md5} (m : MemoryBackend) (from to : Z)
    : result (list byte) StorageError :=
  Ok (checksum_entries
        (filter (λ e, (from ≤ sequence e)%Z ∧ (sequence e ≤ to)%Z) (entries m))).

Definition mem_close (m : MemoryBackend) : MemoryBackend * result unit StorageError :=
  (mkMemory (entries m) true (record_log m), Ok tt).

#[export] Instance memory_backend `{Md5} : StorageBackend MemoryBackend := {
  stores_command_log := record_log;
  append := mem_append;
  append_batch := mem_append_batch;
  replay St := @mem_replay St;
  snapshot := mem_snapshot;
  last_sequence := mem_last_sequence;
  checksum := mem_checksum;
  close := mem_close
}.

(** ** The contract *)

Lemma mem_append_batch_cases m es :
  (∃ e, mem_append_batch m es = (m, Err e)) ∨
  (mem_append_batch m es = (set_entries m (entries m ++ es), Ok tt) ∧
   strictly_increasing es ∧
   (∀ e1 e2, last (entries m) = Some e1 → head es = Some e2 →
             (sequence e1 < sequence e2)%Z)).
Proof.
  unfold mem_append_batch. destruct (ensure_open m) as [[]|e]; [|eauto].
  destruct (assert_strictly_increasing es) as [[]|e] eqn:Hes; [|eauto].
  apply assert_strictly_increasing_spec in Hes.
  destruct (last (entries m)) as [l|]; [|right; naive_solver].
  destruct (head es) as [f|]; [|right; naive_solver].
  destruct (Z.leb_spec (sequence f) (sequence l)); [eauto|].
  right. split_and!; [done..|]. intros ?? [= <-] [= <-]. lia.
Qed.

Lemma mem_snapshot_cases m es :
  (∃ e, mem_snapshot m es = (m, Err e)) ∨
  (mem_snapshot m es = (set_entries m es, Ok tt) ∧ strictly_increasing es).
Proof.
  unfold mem_snapshot. destruct (ensure_open m) as [[]|e]; [|eauto].
  destruct (assert_strictly_increasing es) as [[]|e] eqn:Hes; [|eauto].
  apply assert_strictly_increasing_spec in Hes. eauto.
Qed.

Lemma mem_append_batch_Ok_inv m es m' :
  strictly_increasing (entries m) →
  mem_append_batch m es = (m', Ok tt) →
  m' = set_entries m (entries m ++ es) ∧ strictly_increasing (entries m').
Proof.
  intros Hm Ha. destruct (mem_append_batch_cases m es) as [[e He]|(Heq & Hes & Hx)];
    [congruence|].
  rewrite Heq in Ha. simplify_eq. split; [done|]. by apply strictly_increasing_app.
Qed.

#[export] Instance memory_laws `{Md5} : StorageLaws MemoryBackend.
Proof.
  refine {| committed := entries; storage_inv m := strictly_increasing (entries m) |}.
  - done.
  - intros m es m' Hm Ha. by destruct (mem_append_batch_Ok_inv m es m' Hm Ha) as [-> ?].
  - intros m es m' e Hm Ha. simpl in Ha.
    destruct (mem_append_batch_cases m es) as [[e' He]|[He _]]; rewrite He in Ha;
      by simplify_eq.
  - intros m Hm. simpl. destruct (mem_append_batch_cases m []) as [[e' ->]|[-> _]]; [done|].
    simpl. apply app_nil_r.
  - intros m es m' Hm Ha. simpl in Ha.
    destruct (mem_snapshot_cases m es) as [[e' He]|[He ?]]; rewrite He in Ha; by simplify_eq.
  - intros m es m' e Hm Ha. simpl in Ha.
    destruct (mem_snapshot_cases m es) as [[e' He]|[He _]]; rewrite He in Ha;
      by simplify_eq.
  - done.
  - done.
Defined.

(** ** Properties *)

(** On an open backend whose log is strictly increasing, [append_batch]
    succeeds exactly when the batch is itself strictly increasing and starts
    above the last stored sequence (or the log is empty); on success the log
    is the old log followed by the batch, and on failure it is unchanged. *)
Theorem memory_append_batch_iff (m : MemoryBackend) (es : list StorageEntry)
    (Hopen : closed m = false) (Hinc : strictly_increasing (entries m)) :
  ((mem_append_batch m es).2 = Ok tt ↔ strictly_increasing (entries m ++ es)) ∧
  entries (mem_append_batch m es).1 =
    match (mem_append_batch m es).2 with Ok _ => entries m ++ es | Err _ => entries m end.
Proof.
  destruct (mem_append_batch_cases m es) as [[e He]|(Heq & Hes & Hx)].
  - rewrite He. simpl. split; [|done]. split; [discriminate|].
    rewrite strictly_increasing_app. intros (_ & Hes & Hx). exfalso.
    unfold mem_append_batch, ensure_open in He. rewrite Hopen in He.
    rewrite (proj2 (assert_strictly_increasing_spec es) Hes) in He.
    destruct (last (entries m)) as [l|]; [|congruence].
    destruct (head es) as [f|]; [|congruence].
    specialize (Hx l f eq_refl eq_refl).
    destruct (Z.leb_spec (sequence f) (sequence l)); [lia|congruence].
  - rewrite Heq. simpl. split; [|done]. split; [|done].
    intros _. by apply strictly_increasing_app.
Qed.

Definition example_entry (n : Z) : StorageEntry := mkEntry n 0 [].

Lemma memory_append_batch_iff_witness :
  (mem_append_batch (mkMemory [example_entry 1] false true)
     [example_entry 2; example_entry 3]).2 = Ok tt ↔
  strictly_increasing ([example_entry 1] ++ [example_entry 2; example_entry 3]).
Proof.
  apply (memory_append_batch_iff (mkMemory [example_entry 1] false true)
           [example_entry 2; example_entry 3] eq_refl).
  repeat constructor.
Defined.

End Memory.
