(* ===== verification/StorageSqlite.v ===== *)
(** * The SQLite backend ([crates/latlng-storage-sqlite/src/lib.rs])

    One table, keyed by the sequence.  A column holds a signed 64-bit integer,
    so [rusqlite] refuses larger ones.  A statement may fail for reasons of the
    database (a full or broken device, a lock); an open transaction that is not
    committed leaves no trace.  Reading an open database is taken to succeed.

    Under batches and snapshots and any faults the table is the log that the
    in-memory backend holds. *)

From Stdlib Require Import ZArith Lia.
From stdpp Require Import base gmap strings list sorting.
From S2P Require Import Prelude Storage StorageMemory.

Module Sqlite.

(** ** State and operations *)

(** The texts of [rusqlite]'s errors. *)
Class SqlTexts := {
  out_of_range_text : string;
  unique_text : string
}.

(** The table, and the faults that the next statements meet. *)
Record SqliteBackend := mkSqlite {
  sq_rows : gmap Z (Z * list byte);
  sq_faults : list (option string)
}.

Definition set_rows (s : SqliteBackend) (rows : gmap Z (Z * list byte)) : SqliteBackend :=
  mkSqlite rows (sq_faults s).

(** [open] on a database with these rows; the table is created when missing. *)
Definition sqlite_open (rows : gmap Z (Z * list byte)) : SqliteBackend := mkSqlite rows [].

Definition sql_error (message : string) : StorageError := Message message.

(** A statement is executed, or meets a fault. *)
Definition statement (s : SqliteBackend) : SqliteBackend * result unit StorageError :=
  match sq_faults s with
  | [] => (s, Ok tt)
  | None :: rest => (mkSqlite (sq_rows s) rest, Ok tt)
  | Some message :: rest => (mkSqlite (sq_rows s) rest, Err (sql_error message))
  end.

Definition COLUMN_MAX : Z := 2 ^ 63 - 1.

(** [ORDER BY sequence ASC]. *)
Definition entry_le (e1 e2 : StorageEntry) : Prop := (sequence e1 ≤ sequence e2)%Z.
#[export] Instance entry_le_dec : RelDecision entry_le.
Proof. intros e1 e2. unfold entry_le. apply _. Defined.

Definition row_entry (kv : Z * (Z * list byte)) : StorageEntry := mkEntry kv.1 kv.2.1 kv.2.2.

Definition rows_asc (rows : gmap Z (Z * list byte)) : list StorageEntry :=
  merge_sort entry_le (row_entry <$> map_to_list rows).

(** [SELECT COALESCE(MAX(sequence), 0)]. *)
Definition max_sequence (rows : gmap Z (Z * list byte)) : Z :=
  match (map_to_list rows).*1 with
  | [] => 0
  | k :: ks => foldr Z.max k ks
  end.

Section Operations.
Context `{ST : SqlTexts} `{MD : Md5}.

(** The insertion of one row: parameters are converted, the key is unique. *)
Definition insert_row (rows : gmap Z (Z * list byte)) (e : StorageEntry)
    : result (gmap Z (Z * list byte)) StorageError :=
  if (COLUMN_MAX <? sequence e)%Z || (COLUMN_MAX <? timestamp_ns e)%Z
  then Err (sql_error out_of_range_text)
  else match rows !! sequence e with
       | Some _ => Err (sql_error unique_text)
       | None => Ok (<[sequence e := (timestamp_ns e, command e)]> rows)
       end.

Definition sqlite_append (s : SqliteBackend) (e : StorageEntry)
    : SqliteBackend * result unit StorageError :=
  match statement s with
  | (s, Err err) => (s, Err err)
  | (s, Ok _) =>
      match insert_row (sq_rows s) e with
      | Err err => (s, Err err)
      | Ok rows => (set_rows s rows, Ok tt)
      end
  end.

(** The loop of insertions inside a transaction, over its own rows. *)
Fixpoint insert_all (s : SqliteBackend) (rows : gmap Z (Z * list byte)) (es : list StorageEntry)
    : SqliteBackend * result (gmap Z (Z * list byte)) StorageError :=
  match es with
  | [] => (s, Ok rows)
  | e :: es' =>
      match statement s with
      | (s, Err err) => (s, Err err)
      | (s, Ok _) =>
          match insert_row rows e with
          | Err err => (s, Err err)
          | Ok rows => insert_all s rows es'
          end
      end
  end.

(** [prepare], the insertions and [commit], on the rows of the transaction. *)
Definition insert_and_commit (s : SqliteBackend) (rows : gmap Z (Z * list byte))
    (es : list StorageEntry) : SqliteBackend * result unit StorageError :=
  match statement s with
  | (s, Err err) => (s, Err err)
  | (s, Ok _) =>
      match insert_all s rows es with
      | (s, Err err) => (s, Err err)
      | (s, Ok rows) =>
          match statement s with
          | (s, Err err) => (s, Err err)
          | (s, Ok _) => (set_rows s rows, Ok tt)
          end
      end
  end.

Definition sqlite_append_batch (s : SqliteBackend) (es : list StorageEntry)
    : SqliteBackend * result unit StorageError :=
  match es with
  | [] => (s, Ok tt)
  | first :: _ =>
      match assert_strictly_increasing es with
      | Err err => (s, Err err)
      | Ok _ =>
          match statement s with
          | (s, Err err) => (s, Err err)
          | (s, Ok _) =>
              match statement s with
              | (s, Err err) => (s, Err err)
              | (s, Ok _) =>
                  let last := max_sequence (sq_rows s) in
                  if (0 <? last)%Z && (sequence first <=? last)%Z
                  then (s, Err (SequenceRegression (last + 1) (sequence first)))
                  else insert_and_commit s (sq_rows s) es
              end
          end
      end
  end.

Definition sqlite_replay {St} (s : SqliteBackend) (after_seq : Z) (cb : callback St) (st : St)
    : St * result Z StorageError :=
  if (COLUMN_MAX <? after_seq)%Z then (st, Err (sql_error out_of_range_text))
  else replay_entries (filter (λ e, (after_seq < sequence e)%Z) (rows_asc (sq_rows s))) after_seq cb st.

Definition sqlite_snapshot (s : SqliteBackend) (es : list StorageEntry)
    : SqliteBackend * result unit StorageError :=
  match statement s with
  | (s, Err err) => (s, Err err)
  | (s, Ok _) =>
      match statement s with
      | (s, Err err) => (s, Err err)
      | (s, Ok _) => insert_and_commit s ∅ es
      end
  end.

Definition sqlite_last_sequence (s : SqliteBackend) : result Z StorageError :=
  Ok (max_sequence (sq_rows s)).

Definition sqlite_compact (s : SqliteBackend)
    : SqliteBackend * result CompactionResult StorageError :=
  let n := max_sequence (sq_rows s) in
  let bytes := foldr (λ e acc, (Z.of_nat (length (command e)) + acc)%Z) 0%Z (rows_asc (sq_rows s)) in
  match statement s with
  | (s, Err err) => (s, Err err)
  | (s, Ok _) =>
      (s, Ok {| before_entries := n; after_entries := n; before_bytes := bytes; after_bytes := bytes |})
  end.

Definition sqlite_checksum (s : SqliteBackend) (from to : Z) : result (list byte) StorageError :=
  if (COLUMN_MAX <? from)%Z || (COLUMN_MAX <? to)%Z then Err (sql_error out_of_range_text)
  else Ok (checksum_entries
             (filter (λ e, (from ≤ sequence e)%Z ∧ (sequence e ≤ to)%Z) (rows_asc (sq_rows s)))).

Definition sqlite_close (s : SqliteBackend) : SqliteBackend * result unit StorageError :=
  statement s.

#[export] Instance sqlite_backend : StorageBackend SqliteBackend := {
  stores_command_log _ := true;
  append := sqlite_append;
  append_batch := sqlite_append_batch;
  replay St := @sqlite_replay St;
  snapshot := sqlite_snapshot;
  last_sequence := sqlite_last_sequence;
  checksum := sqlite_checksum;
  close := sqlite_close
}.

End Operations.

(** ** The table as a log *)

#[export] Instance entry_le_total : Total entry_le.
Proof. intros e1 e2. unfold entry_le. lia. Qed.
#[export] Instance entry_le_trans : Transitive entry_le.
Proof. intros ???. unfold entry_le. lia. Qed.

Lemma rows_asc_perm rows : rows_asc rows ≡ₚ row_entry <$> map_to_list rows.
Proof. apply merge_sort_Permutation. Qed.

Lemma elem_of_rows_asc rows e :
  e ∈ rows_asc rows ↔ rows !! sequence e = Some (timestamp_ns e, command e).
Proof.
  rewrite rows_asc_perm, list_elem_of_fmap. split.
  - intros ([k [t c]] & -> & Hin). by apply elem_of_map_to_list in Hin.
  - intros He. exists (sequence e, (timestamp_ns e, command e)). split; [by destruct e|].
    by apply elem_of_map_to_list.
Qed.

Lemma rows_asc_sequences rows : NoDup (sequence <$> rows_asc rows).
Proof.
  rewrite rows_asc_perm, <-list_fmap_compose. apply (NoDup_fst_map_to_list rows).
Qed.

Lemma sorted_increasing es :
  StronglySorted entry_le es → NoDup (sequence <$> es) → strictly_increasing es.
Proof.
  unfold strictly_increasing. induction 1 as [|e es Hs IH Hall]; intros Hnd; [constructor|].
  cbn in Hnd. apply NoDup_cons in Hnd as [Hne Hnd]. constructor; [by apply IH|].
  rewrite Forall_forall in Hall |- *. intros x Hx. specialize (Hall x Hx).
  unfold entry_le, seq_lt in *. assert (sequence x ≠ sequence e); [|lia].
  intros Heq. apply Hne. rewrite <-Heq. by apply list_elem_of_fmap_2.
Qed.

Lemma rows_asc_increasing rows : strictly_increasing (rows_asc rows).
Proof.
  apply sorted_increasing; [|apply rows_asc_sequences]. apply (StronglySorted_merge_sort _).
Qed.

(** A strictly increasing list with the rows' entries is the rows' list. *)
Lemma rows_asc_unique rows es :
  strictly_increasing es → es ≡ₚ row_entry <$> map_to_list rows → rows_asc rows = es.
Proof.
  intros Hes Hperm. eapply (StronglySorted_unique_strong seq_lt).
  - intros x y _ _ Hxy Hyx. unfold seq_lt in *. lia.
  - apply rows_asc_increasing.
  - done.
  - by rewrite rows_asc_perm, Hperm.
Qed.

Lemma rows_asc_empty : rows_asc ∅ = [].
Proof. reflexivity. Qed.

Lemma rows_asc_insert rows e :
  strictly_increasing (rows_asc rows ++ [e]) →
  rows_asc (<[sequence e := (timestamp_ns e, command e)]> rows) = rows_asc rows ++ [e].
Proof.
  intros Hinc. apply rows_asc_unique; [done|].
  assert (rows !! sequence e = None) as Hfresh.
  { destruct (rows !! sequence e) as [[t c]|] eqn:Hr; [|done]. exfalso.
    assert (mkEntry (sequence e) t c ∈ rows_asc rows) as Hin by by apply elem_of_rows_asc.
    unfold strictly_increasing in Hinc. rewrite StronglySorted_app in Hinc.
    destruct Hinc as (Hlt & _ & _).
    specialize (Hlt _ e Hin ltac:(by apply list_elem_of_singleton)). unfold seq_lt in Hlt.
    cbn in Hlt. lia. }
  rewrite map_to_list_insert by done. etrans; [apply Permutation_app_comm|].
  destruct e. apply perm_skip, rows_asc_perm.
Qed.

Lemma last_is_max (es : list StorageEntry) l :
  strictly_increasing es → last es = Some l → ∀ e, e ∈ es → (sequence e ≤ sequence l)%Z.
Proof.
  intros Hs Hl e He. apply last_Some in Hl as [es' ->]. unfold strictly_increasing in Hs.
  rewrite StronglySorted_app in Hs. destruct Hs as (Hlt & _ & _).
  apply elem_of_app in He as [He|He%list_elem_of_singleton]; [|by subst].
  specialize (Hlt e l He ltac:(by apply list_elem_of_singleton)). unfold seq_lt in Hlt. lia.
Qed.

Lemma foldr_max_spec k ks : foldr Z.max k ks ∈ k :: ks ∧ ∀ x, x ∈ k :: ks → (x ≤ foldr Z.max k ks)%Z.
Proof.
  induction ks as [|y ks [Hin Hle]]; cbn.
  - split; [by left|]. intros x Hx%list_elem_of_singleton. lia.
  - split.
    + destruct (Z.max_spec y (foldr Z.max k ks)) as [[_ ->]|[_ ->]]; set_solver.
    + intros x Hx. destruct (decide (x = y)) as [->|]; [lia|].
      assert (x ≤ foldr Z.max k ks)%Z by (apply Hle; set_solver). lia.
Qed.

Lemma max_sequence_last rows : max_sequence rows = last_seq_of (rows_asc rows).
Proof.
  unfold last_seq_of. assert ((map_to_list rows).*1 ≡ₚ sequence <$> rows_asc rows) as Hperm.
  { by rewrite rows_asc_perm, <-list_fmap_compose. }
  unfold max_sequence. destruct ((map_to_list rows).*1) as [|k ks].
  - apply Permutation_nil_l in Hperm. destruct (rows_asc rows); [done|discriminate Hperm].
  - destruct (foldr_max_spec k ks) as [Hin Hle].
    destruct (last (rows_asc rows)) as [l|] eqn:Hl.
    + apply Z.le_antisymm; cbn [from_option].
      * rewrite Hperm in Hin. apply list_elem_of_fmap in Hin as (e & -> & He).
        by apply (last_is_max _ _ (rows_asc_increasing rows) Hl).
      * apply Hle. rewrite Hperm. apply list_elem_of_fmap_2. by apply last_Some_elem_of.
    + apply last_None in Hl. rewrite Hl in Hperm. by apply Permutation_nil_r in Hperm.
Qed.

(** ** Refinement of the in-memory backend *)

#[local] Existing Instance Memory.memory_backend.

Section Refinement.
Context `{ST : SqlTexts} `{MD : Md5}.

(** What the columns can hold; the engine numbers entries from one. *)
Definition storable (e : StorageEntry) : Prop :=
  (0 < sequence e ≤ COLUMN_MAX)%Z ∧ (timestamp_ns e ≤ COLUMN_MAX)%Z.

Record refines (s : SqliteBackend) (m : Memory.MemoryBackend) : Prop := {
  refines_log : rows_asc (sq_rows s) = Memory.entries m;
  refines_open : Memory.closed m = false;
  refines_storable : Forall storable (Memory.entries m)
}.

(** A fault is met: the operation fails with a text of the database. *)
Definition faulted (s : SqliteBackend) (r : result unit StorageError) : Prop :=
  ∃ message, r = Err (Message message) ∧ sq_faults s ≠ [].

(** A statement leaves the rows and only consumes faults. *)
Lemma statement_cases s :
  (∃ s1, statement s = (s1, Ok tt) ∧ sq_rows s1 = sq_rows s ∧
         (sq_faults s1 ≠ [] → sq_faults s ≠ [])) ∨
  (∃ s1 message, statement s = (s1, Err (Message message)) ∧ sq_rows s1 = sq_rows s ∧
                 sq_faults s ≠ []).
Proof. unfold statement. destruct (sq_faults s) as [|[]] eqn:Hf; naive_solver. Qed.

Lemma insert_row_ok rows e :
  storable e → strictly_increasing (rows_asc rows ++ [e]) →
  ∃ rows', insert_row rows e = Ok rows' ∧ rows_asc rows' = rows_asc rows ++ [e].
Proof.
  intros [[Hpos Hmax] Hts] Hinc. unfold insert_row.
  assert (COLUMN_MAX <? sequence e = false)%Z as -> by (apply Z.ltb_ge; lia).
  assert (COLUMN_MAX <? timestamp_ns e = false)%Z as -> by (apply Z.ltb_ge; lia). cbn [orb].
  destruct (rows !! sequence e) as [[t c]|] eqn:Hr.
  - exfalso. assert (mkEntry (sequence e) t c ∈ rows_asc rows) as Hin by by apply elem_of_rows_asc.
    unfold strictly_increasing in Hinc. rewrite StronglySorted_app in Hinc.
    destruct Hinc as (Hlt & _ & _).
    specialize (Hlt _ e Hin ltac:(by apply list_elem_of_singleton)). unfold seq_lt in Hlt.
    cbn in Hlt. lia.
  - eexists. split; [done|]. by apply rows_asc_insert.
Qed.

Lemma insert_all_cases es : ∀ s rows,
  Forall storable es → strictly_increasing (rows_asc rows ++ es) →
  ∃ s1 r, insert_all s rows es = (s1, r) ∧ sq_rows s1 = sq_rows s ∧
    (sq_faults s1 ≠ [] → sq_faults s ≠ []) ∧
    match r with
    | Ok rows' => rows_asc rows' = rows_asc rows ++ es
    | Err e => ∃ message, e = Message message ∧ sq_faults s ≠ []
    end.
Proof.
  induction es as [|e es IH]; intros s rows Hfits Hinc; cbn [insert_all].
  { exists s, (Ok rows). by rewrite app_nil_r. }
  apply Forall_cons in Hfits as [He Hfits].
  destruct (statement_cases s) as [(s1 & -> & Hr1 & Hf1)|(s1 & msg & -> & Hr1 & Hf1)].
  - destruct (insert_row_ok rows e He) as (rows' & -> & Hrows').
    { replace (rows_asc rows ++ e :: es) with ((rows_asc rows ++ [e]) ++ es) in Hinc
        by by rewrite <-app_assoc. by apply strictly_increasing_app in Hinc as [? _]. }
    destruct (IH s1 rows') as (s2 & r & -> & Hr2 & Hf2 & Hres); [done| |].
    { by rewrite Hrows', <-app_assoc. }
    exists s2, r. split; [done|]. split; [congruence|]. split; [naive_solver|].
    destruct r; [by rewrite Hres, Hrows', <-app_assoc|naive_solver].
  - eexists s1, _. split; [done|]. naive_solver.
Qed.

Lemma commit_cases s rows es :
  Forall storable es → strictly_increasing (rows_asc rows ++ es) →
  ∃ s1 r, insert_and_commit s rows es = (s1, r) ∧
    ((r = Ok tt ∧ rows_asc (sq_rows s1) = rows_asc rows ++ es) ∨
     (faulted s r ∧ sq_rows s1 = sq_rows s)).
Proof.
  intros Hfits Hinc. unfold insert_and_commit, faulted.
  destruct (statement_cases s) as [(s1 & -> & Hr1 & Hf1)|(s1 & msg & -> & Hr1 & Hf1)];
    [|eexists s1, _; split; [done|right; naive_solver]].
  destruct (insert_all_cases es s1 rows Hfits Hinc) as (s2 & [rows'|err] & -> & Hr2 & Hf2 & Hres);
    [|destruct Hres as (msg & -> & Hf); eexists s2, _; split; [done|right; split;
      [exists msg; auto|congruence]]].
  destruct (statement_cases s2) as [(s3 & -> & Hr3 & Hf3)|(s3 & msg & -> & Hr3 & Hf3)];
    [|eexists s3, _; split; [done|right; split; [naive_solver|congruence]]].
  eexists _, _. split; [done|]. by left.
Qed.

(** *** Writes *)

Inductive LogOp : Type :=
  | OpBatch (es : list StorageEntry)
  | OpSnapshot (es : list StorageEntry).

(** The engine writes snapshots in order. *)
Definition op_storable (op : LogOp) : Prop :=
  match op with
  | OpBatch es => Forall storable es
  | OpSnapshot es => Forall storable es ∧ strictly_increasing es
  end.

Definition write {B} `{StorageBackend B} (op : LogOp) (b : B) : B * result unit StorageError :=
  match op with OpBatch es => append_batch b es | OpSnapshot es => snapshot b es end.

Lemma refines_set s rows m es :
  refines s m → rows_asc rows = es → Forall storable es →
  ∀ s', sq_rows s' = rows → refines s' (Memory.set_entries m es).
Proof. intros [Hlog Hopen Hfits] Hrows Hes s' Hs'. split; [by rewrite Hs'|done|done]. Qed.

Lemma snapshot_simulates s m es :
  refines s m → Forall storable es → strictly_increasing es →
  let '(s', r) := sqlite_snapshot s es in
  (r = (Memory.mem_snapshot m es).2 ∧ refines s' (Memory.mem_snapshot m es).1) ∨
  (faulted s r ∧ refines s' m).
Proof.
  intros Href Hes Hinc. unfold sqlite_snapshot.
  assert (∀ s', sq_rows s' = sq_rows s → refines s' m) as Hkeep.
  { intros s' Hs'. destruct Href. split; [by rewrite Hs'|done..]. }
  unfold Memory.mem_snapshot, Memory.ensure_open. rewrite (refines_open _ _ Href).
  rewrite (proj2 (assert_strictly_increasing_spec es) Hinc). unfold faulted.
  destruct (statement_cases s) as [(s1 & -> & Hr1 & Hf1)|(s1 & msg & -> & Hr1 & Hf1)];
    [|right; split; [by exists msg|by apply Hkeep]].
  destruct (statement_cases s1) as [(s2 & -> & Hr2 & Hf2)|(s2 & msg & -> & Hr2 & Hf2)];
    [|right; split; [exists msg; auto|apply Hkeep; congruence]].
  destruct (commit_cases s2 ∅ es Hes) as (s3 & r & -> & [[-> Hrows]|[(msg & -> & Hf) Hrows]]).
  - by rewrite rows_asc_empty.
  - left. split; [done|]. rewrite rows_asc_empty in Hrows. by eapply refines_set.
  - right. split; [exists msg; auto|]. apply Hkeep. congruence.
Qed.

Lemma last_positive m l : Forall storable (Memory.entries m) → last (Memory.entries m) = Some l →
  (0 < sequence l ≤ COLUMN_MAX)%Z.
Proof.
  intros Hf Hl. rewrite Forall_forall in Hf. by apply Hf, last_Some_elem_of.
Qed.

Lemma batch_simulates s m es :
  refines s m → Forall storable es →
  let '(s', r) := sqlite_append_batch s es in
  (r = (Memory.mem_append_batch m es).2 ∧ refines s' (Memory.mem_append_batch m es).1) ∨
  (faulted s r ∧ refines s' m).
Proof.
  intros Href Hes. destruct es as [|first es].
  { left. unfold sqlite_append_batch, Memory.mem_append_batch, Memory.ensure_open. cbn.
    rewrite (refines_open _ _ Href).
    destruct (last (Memory.entries m)); cbn; (split; [done|]); destruct Href as [Hlog Hopen Hf];
      (split; cbn; [by rewrite app_nil_r|done|by rewrite app_nil_r]). }
  assert (∀ s', sq_rows s' = sq_rows s → refines s' m) as Hkeep.
  { intros s' Hs'. destruct Href. split; [by rewrite Hs'|done..]. }
  unfold sqlite_append_batch, Memory.mem_append_batch, Memory.ensure_open.
  rewrite (refines_open _ _ Href). cbn [head].
  destruct (assert_strictly_increasing (first :: es)) as [[]|err] eqn:Hinc; [|by left].
  apply assert_strictly_increasing_spec in Hinc. unfold faulted.
  destruct (statement_cases s) as [(s1 & -> & Hr1 & Hf1)|(s1 & msg & -> & Hr1 & Hf1)];
    [|right; split; [by exists msg|by apply Hkeep]].
  destruct (statement_cases s1) as [(s2 & -> & Hr2 & Hf2)|(s2 & msg & -> & Hr2 & Hf2)];
    [|right; split; [exists msg; auto|apply Hkeep; congruence]].
  assert (max_sequence (sq_rows s2) = last_seq_of (Memory.entries m)) as Hmax.
  { by rewrite Hr2, Hr1, max_sequence_last, (refines_log _ _ Href). }
  cbv zeta. rewrite Hmax. unfold last_seq_of.
  assert (strictly_increasing (Memory.entries m ++ first :: es) →
    (∃ s3 r, insert_and_commit s2 (sq_rows s2) (first :: es) = (s3, r) ∧
       ((r = Ok tt ∧ refines s3 (Memory.set_entries m (Memory.entries m ++ first :: es))) ∨
        ((∃ message, r = Err (Message message) ∧ sq_faults s ≠ []) ∧ refines s3 m)))) as Hcommit.
  { intros Happ. rewrite Hr2, Hr1, <-(refines_log _ _ Href) in *.
    destruct (commit_cases s2 (sq_rows s) (first :: es) Hes Happ)
      as (s3 & r & Heq & [[-> Hrows]|[(msg & -> & Hf) Hrows]]); exists s3; eexists;
      (split; [exact Heq|]).
    - left. split; [done|]. rewrite (refines_log _ _ Href) in Hrows |- *.
      eapply refines_set; [done|exact Hrows| |done]. apply Forall_app. split; [apply Href|done].
    - right. split; [exists msg; auto|]. apply Hkeep. congruence. }
  destruct (last (Memory.entries m)) as [l|] eqn:Hl; cbn [from_option].
  - destruct (last_positive m l (refines_storable _ _ Href) Hl) as [Hl0 Hl1].
    assert (0 <? sequence l = true)%Z as -> by (apply Z.ltb_lt; lia). cbn [andb].
    destruct (Z.leb_spec (sequence first) (sequence l)).
    + left. split; [|apply Hkeep; congruence]. cbn. f_equal. f_equal. symmetry.
      apply wrapping_add_exact; unfold COLUMN_MAX in Hl1; rewrite ?U64_MAX_eq; lia.
    + destruct Hcommit as (s3 & r & -> & Hc).
      { rewrite strictly_increasing_app. split_and!; [|done|].
        - rewrite <-(refines_log _ _ Href). apply rows_asc_increasing.
        - intros e1 e2 He1 [= <-]. rewrite Hl in He1. injection He1 as <-. lia. }
      exact Hc.
  - apply last_None in Hl. cbn [andb Z.ltb]. rewrite Hl in *.
    destruct Hcommit as (s3 & r & -> & Hc); [done|]. exact Hc.
Qed.

(** One write on both backends. *)
Lemma write_simulates op s m :
  refines s m → op_storable op →
  let '(s', r) := write op s in
  (r = (write op m).2 ∧ refines s' (write op m).1) ∨ (faulted s r ∧ refines s' m).
Proof.
  intros Href Hop. destruct op as [es|es]; cbn.
  - by apply batch_simulates.
  - by apply snapshot_simulates; destruct Hop.
Qed.

(** Both backends side by side: a write that meets a fault is not done on the
    other one. *)
Definition is_fault (r : result unit StorageError) : bool :=
  match r with Err (Message _) => true | _ => false end.

Fixpoint mirror (ops : list LogOp) (s : SqliteBackend) (m : Memory.MemoryBackend)
    : SqliteBackend * Memory.MemoryBackend :=
  match ops with
  | [] => (s, m)
  | op :: ops' =>
      let '(s', r) := write op s in
      mirror ops' s' (if is_fault r then m else (write op m).1)
  end.

Lemma memory_never_faults op (m : Memory.MemoryBackend) : is_fault (write op m).2 = false.
Proof.
  destruct op as [es|es]; cbn; unfold Memory.mem_append_batch, Memory.mem_snapshot,
    Memory.ensure_open, assert_strictly_increasing; destruct (Memory.closed m); [done| |done|];
    assert (∀ l, is_fault (assert_increasing_from l es) = false) as Hes
      by (induction es as [|e es IH]; intros []; cbn; try case_match; done);
    specialize (Hes None); destruct (assert_increasing_from None es) as [[]|e]; try done;
    repeat case_match; done.
Qed.

Lemma mirror_refines ops : ∀ s m,
  refines s m → Forall op_storable ops → refines (mirror ops s m).1 (mirror ops s m).2.
Proof.
  induction ops as [|op ops IH]; intros s m Href Hops; [done|]. cbn [mirror].
  apply Forall_cons in Hops as [Hop Hops]. pose proof (write_simulates op s m Href Hop) as Hw.
  destruct (write op s) as [s' r]. destruct Hw as [[-> Hs']|[(msg & -> & _) Hs']].
  - rewrite memory_never_faults. by apply IH.
  - by apply IH.
Qed.

(** Reading a table that refines a log. *)
Lemma reads_agree s m : refines s m →
  (∀ St after (cb : callback St) st, (after ≤ COLUMN_MAX)%Z → replay s after cb st = replay m after cb st) ∧
  last_sequence s = last_sequence m ∧
  (∀ from to, (from ≤ COLUMN_MAX)%Z → (to ≤ COLUMN_MAX)%Z → checksum s from to = checksum m from to).
Proof.
  intros [Hlog _ _]. split_and!.
  - intros St after cb st Ha. cbn. unfold sqlite_replay, Memory.mem_replay, replay_entries.
    assert (COLUMN_MAX <? after = false)%Z as -> by (apply Z.ltb_ge; lia). rewrite <-Hlog.
    f_equal. rewrite list_filter_filter. apply list_filter_iff. naive_solver.
  - cbn. unfold sqlite_last_sequence, Memory.mem_last_sequence.
    by rewrite max_sequence_last, Hlog.
  - intros from to Hfrom Hto. cbn. unfold sqlite_checksum, Memory.mem_checksum.
    assert (COLUMN_MAX <? from = false)%Z as -> by (apply Z.ltb_ge; lia).
    assert (COLUMN_MAX <? to = false)%Z as -> by (apply Z.ltb_ge; lia). by rewrite Hlog.
Qed.

(** C19: the SQLite backend implements the log of the in-memory backend.  Start
    from an empty database, meet any faults, and write any batches, and any
    snapshots that are in order, of entries that the columns can hold.  Each
    write is answered as the in-memory backend answers it, or fails with a text
    of the database; afterwards the two backends replay the same entries, know
    the same last sequence and compute the same checksums, when the failed
    writes are left out of the in-memory one.  So a batch is stored whole or
    not at all. *)
Theorem sqlite_refines_memory ops faults :
  Forall op_storable ops →
  let '(s, m) := mirror ops (mkSqlite ∅ faults) Memory.recording in
  (∀ St after (cb : callback St) st, (after ≤ COLUMN_MAX)%Z →
     replay s after cb st = replay m after cb st) ∧
  last_sequence s = last_sequence m ∧
  (∀ from to, (from ≤ COLUMN_MAX)%Z → (to ≤ COLUMN_MAX)%Z → checksum s from to = checksum m from to) ∧
  ∀ op, op_storable op →
    (write op s).2 = (write op m).2 ∨ (is_fault (write op s).2 = true ∧ sq_faults s ≠ []).
Proof.
  intros Hops. pose proof (mirror_refines ops (mkSqlite ∅ faults) Memory.recording) as Href.
  destruct (mirror ops _ _) as [s m]. cbn [fst snd] in Href.
  assert (refines s m) as Hsm by (apply Href; [by constructor|done]).
  destruct (reads_agree s m Hsm) as (H1 & H2 & H3). split_and!; [exact H1|exact H2|exact H3|].
  intros op Hop. pose proof (write_simulates op s m Hsm Hop) as Hw.
  destruct (write op s) as [s' r]. destruct Hw as [[-> _]|[(msg & -> & Hf) _]]; auto.
Qed.

End Refinement.

(** ** A database *)

Module SqliteWitness.
#[local] Instance texts : SqlTexts := {| out_of_range_text := "range"; unique_text := "unique" |}.
#[local] Instance md5 : Md5 := λ _, [].

Definition entry (n : Z) : StorageEntry := mkEntry n 0 [].

(** The second batch meets a full device while it commits. *)
Definition plan : list (option string) :=
  replicate 6 None ++ replicate 4 None ++ [Some "disk full"].
Definition writes : list LogOp :=
  [OpBatch [entry 1; entry 2]; OpBatch [entry 3]; OpSnapshot [entry 1; entry 5]].

Lemma sqlite_refines_memory_witness :
  let '(s, m) := mirror writes (mkSqlite ∅ plan) Memory.recording in
  last_sequence s = last_sequence m.
Proof.
  assert (Forall op_storable writes) as Hfits.
  { repeat constructor; cbn; unfold COLUMN_MAX; lia. }
  pose proof (sqlite_refines_memory writes plan Hfits) as H.
  destruct (mirror writes (mkSqlite ∅ plan) Memory.recording) as [s m]. apply H.
Defined.

(** [append] does not look at the order: an older entry is accepted, and the
    in-memory backend refuses it. *)
Theorem sqlite_append_takes_older :
  let s := (sqlite_append (sqlite_open ∅) (entry 5)).1 in
  (sqlite_append s (entry 1)).2 = Ok tt ∧
  is_ok (Memory.mem_append (Memory.mem_append Memory.recording (entry 5)).1 (entry 1)).2 = false.
Proof. split; vm_compute; reflexivity. Qed.

(** A snapshot out of order is accepted and comes back in order. *)
Theorem sqlite_snapshot_reorders :
  let r := sqlite_snapshot (sqlite_open ∅) [entry 2; entry 1] in
  r.2 = Ok tt ∧ rows_asc (sq_rows r.1) = [entry 1; entry 2] ∧
  is_ok (Memory.mem_snapshot Memory.recording [entry 2; entry 1]).2 = false.
Proof. split_and!; vm_compute; reflexivity. Qed.

(** [compact] reports the last sequence as the number of entries. *)
Theorem sqlite_compact_miscounts :
  let s := (sqlite_append_batch (sqlite_open ∅) [entry 10]).1 in
  length (rows_asc (sq_rows s)) = 1 ∧
  rmap before_entries (sqlite_compact s).2 = Ok 10%Z.
Proof. split; vm_compute; reflexivity. Qed.

End SqliteWitness.
End Sqlite.
