(* ===== verification/StorageAof.v ===== *)
(** * The append-only file backend ([crates/latlng-storage-aof/src/lib.rs])

    The file is its bytes on a disk with a bounded number of free bytes; the
    writer thread's [BufWriter] is its buffer (capacity 8192, written through
    when full, flushed when dropped).  The model has the frame format, the
    loader with its torn-tail rule, the group commit with rollback, snapshot,
    compaction, close and the writer loop, every early return included.

    The bincode encoding is an interface, [FrameCodec]: encoding a frame of
    64-bit fields and decoding the bytes gives the frame back. *)

From Stdlib Require Import ZArith Lia.
From stdpp Require Import base gmap strings list sorting.
From coqutil Require Word.LittleEndianList.
From S2P Require Import Prelude Storage.

Module Aof.

(** ** Data *)

Record AofOptions := {
  writer_queue_limit : nat;
  max_group_commit_delay_ms : nat;
  max_requests_per_commit_cycle : nat
}.

Definition default_options : AofOptions := {|
  writer_queue_limit := 4096;
  max_group_commit_delay_ms := 1;
  max_requests_per_commit_cycle := 128
|}.

Inductive AofFrame : Type :=
  | FEntry (entry : StorageEntry)
  | FBatch (entries : list StorageEntry)
  | FGroup (frames : list AofFrame).

Record CommittedState := mkCommitted {
  entries : list StorageEntry;
  closed : bool
}.

(** The file at [path], the temporary file of [rewrite], and the bytes the
    device can still take. *)
Record Disk := mkDisk {
  content : list byte;
  tmp : list byte;
  free : nat
}.

(** [attached] is false when the writer's handle refers to a file that a
    rename has replaced. *)
Record WriterRuntime := mkRuntime {
  buf : list byte;
  attached : bool;
  durable_len : nat
}.

Record AppendRequest := mkRequest {
  req_frame : AofFrame;
  req_entries : list StorageEntry
}.

Inductive WriterCommand : Type :=
  | CAppend (request : AppendRequest)
  | CSnapshot (entries : list StorageEntry)
  | CCompact
  | CClose.

Record AofIntegrityReport := {
  entry_count : nat;
  first_sequence : option Z;
  report_last_sequence : Z;
  durable_prefix_bytes : nat;
  total_bytes : nat;
  truncated_tail : bool;
  report_checksum_hex : string
}.

Record AofBackupFile := {
  backup_format : string;
  backup_entry_count : nat;
  backup_first_sequence : option Z;
  backup_last_sequence : Z;
  backup_checksum_hex : string;
  backup_entries : list StorageEntry
}.

Definition AOF_BACKUP_FORMAT : string := "latlng-aof-backup-v1".

(** [format!("{byte:02x}")] for every byte of a digest. *)
Definition hex_digit (n : N) : Ascii.ascii :=
  Ascii.ascii_of_N (if (n <? 10)%N then 48 + n else 87 + n)%N.

Fixpoint checksum_hex (bytes : list byte) : string :=
  match bytes with
  | [] => EmptyString
  | b :: rest =>
      String (hex_digit (Byte.to_N b / 16)) (String (hex_digit (Byte.to_N b mod 16))
        (checksum_hex rest))
  end.

(** System calls of one writer step that can fail for reasons other than
    lack of space: [fsync], the rollback and the reopening of the file. *)
Record IoEnv := mkEnv {
  sync_ok : bool;
  rollback_ok : bool;
  reopen_ok : bool
}.

Definition env_ok : IoEnv := mkEnv true true true.

Definition enospc : StorageError := Io "No space left on device".
Definition eio : StorageError := Io "Input/output error".

(** ** The codec interface *)

Definition entry_ok (e : StorageEntry) : Prop :=
  is_u64 (sequence e) ∧ is_u64 (timestamp_ns e) ∧ (Z.of_nat (length (command e)) ≤ U64_MAX)%Z.

Fixpoint frame_ok (f : AofFrame) : Prop :=
  match f with
  | FEntry e => entry_ok e
  | FBatch es => Forall entry_ok es ∧ (Z.of_nat (length es) ≤ U64_MAX)%Z
  | FGroup fs =>
      (fix all l := match l with [] => True | f :: l => frame_ok f ∧ all l end) fs ∧
      (Z.of_nat (length fs) ≤ U64_MAX)%Z
  end.

Class FrameCodec := {
  serialize : AofFrame → list byte;
  deserialize : list byte → option AofFrame;
  serialize_fits f : frame_ok f → (Z.of_nat (length (serialize f)) ≤ U64_MAX)%Z →
    deserialize (serialize f) = Some f
}.

Section WithCodec.
Context `{FrameCodec} `{Md5}.

(** A frame on disk: the payload length as a little-endian [u64], then the
    payload ([write_frame]). *)
Definition frame_bytes (frame : AofFrame) : list byte :=
  u64_to_le_bytes (Z.of_nat (length (serialize frame))) ++ serialize frame.

Definition encoded_frame_len (frame : AofFrame) : nat := 8 + length (serialize frame).

(** ** Validation and loading *)

Definition validate_batch_against_last (last : option StorageEntry)
    (es : list StorageEntry) : result unit StorageError :=
  match es with
  | [] => Ok tt
  | first :: _ =>
      let? _ := assert_strictly_increasing es in
      match last with
      | Some l =>
          if (sequence first <=? sequence l)%Z
          then Err (SequenceRegression (wrapping_add (sequence l) 1) (sequence first))
          else Ok tt
      | None => Ok tt
      end
  end.

Fixpoint apply_frame_to_entries (es : list StorageEntry) (frame : AofFrame)
    : result (list StorageEntry) StorageError :=
  match frame with
  | FEntry entry =>
      let? _ := validate_batch_against_last (last es) [entry] in Ok (es ++ [entry])
  | FBatch batch =>
      match batch with
      | [] => Err (Codec "empty batch frame")
      | _ => let? _ := validate_batch_against_last (last es) batch in Ok (es ++ batch)
      end
  | FGroup frames =>
      match frames with
      | [] => Err (Codec "empty group frame")
      | _ =>
          (fix go es frames :=
             match frames with
             | [] => Ok es
             | f :: rest => let? es' := apply_frame_to_entries es f in go es' rest
             end) es frames
      end
  end.

(** The ['frames] loop: entries so far, offset of the frame being read, and
    the offset after the last complete frame.  Each turn reads at least the
    eight bytes of a length, so [S (length bytes)] turns are enough. *)
Fixpoint load_loop (fuel : nat) (bytes : list byte) (es : list StorageEntry)
    (offset durable : nat)
    : result (list StorageEntry * nat * bool) StorageError :=
  match fuel with
  | 0 => Err (Message "out of fuel")
  | S fuel' =>
      match bytes with
      | [] => Ok (es, durable, false)
      | _ =>
          if (length bytes <? 8)%nat then Ok (es, offset, true)
          else
            let len := LittleEndianList.le_combine (take 8 bytes) in
            let body := drop 8 bytes in
            if (Z.of_nat (length body) <? len)%Z then Ok (es, offset, true)
            else
              let n := Z.to_nat len in
              match deserialize (take n body) with
              | None => Err (Codec "invalid frame payload")
              | Some frame =>
                  let? es' := apply_frame_to_entries es frame in
                  load_loop fuel' (drop n body) es' (offset + 8 + n) (offset + 8 + n)
              end
      end
  end.

Definition load_entries_with_report (bytes : list byte)
    : result (list StorageEntry * AofIntegrityReport) StorageError :=
  let? r := load_loop (S (length bytes)) bytes [] 0 0 in
  let '(es, durable, truncated) := r in
  Ok (es, {| entry_count := length es;
             first_sequence := sequence <$> head es;
             report_last_sequence := from_option sequence 0%Z (last es);
             durable_prefix_bytes := durable;
             total_bytes := length bytes;
             truncated_tail := truncated;
             report_checksum_hex := checksum_hex (checksum_entries es) |}).

Definition load_entries (bytes : list byte) : result (list StorageEntry) StorageError :=
  rmap fst (load_entries_with_report bytes).

Definition verify_aof (bytes : list byte) : result AofIntegrityReport StorageError :=
  rmap snd (load_entries_with_report bytes).

(** ** The buffered writer *)

Definition buf_capacity : nat := 8192.

(** Appends to the file what the device has room for; false when some bytes
    did not fit. *)
Definition disk_write (rt_attached : bool) (d : Disk) (data : list byte)
    : Disk * nat * bool :=
  let n := Nat.min (length data) (free d) in
  let d' := mkDisk (if rt_attached then content d ++ take n data else content d)
                   (tmp d) (free d - n) in
  (d', n, (n =? length data)%nat).

Definition flush_buf (rt : WriterRuntime) (d : Disk)
    : WriterRuntime * Disk * result unit StorageError :=
  let '(d', n, ok) := disk_write (attached rt) d (buf rt) in
  (mkRuntime (drop n (buf rt)) (attached rt) (durable_len rt), d',
   if ok then Ok tt else Err enospc).

Definition write_all (rt : WriterRuntime) (d : Disk) (data : list byte)
    : WriterRuntime * Disk * result unit StorageError :=
  let spare := buf_capacity - length (buf rt) in
  if (length data <? spare)%nat then
    (mkRuntime (buf rt ++ data) (attached rt) (durable_len rt), d, Ok tt)
  else
    let '(rt1, d1, r1) :=
      if (spare <? length data)%nat then flush_buf rt d else (rt, d, Ok tt) in
    match r1 with
    | Err e => (rt1, d1, Err e)
    | Ok _ =>
        if (buf_capacity <=? length data)%nat then
          let '(d2, _, ok) := disk_write (attached rt1) d1 data in
          (rt1, d2, if ok then Ok tt else Err enospc)
        else (mkRuntime (buf rt1 ++ data) (attached rt1) (durable_len rt1), d1, Ok tt)
    end.

Definition write_frame (rt : WriterRuntime) (d : Disk) (frame : AofFrame)
    : WriterRuntime * Disk * result unit StorageError :=
  let payload := serialize frame in
  let '(rt1, d1, r1) := write_all rt d (u64_to_le_bytes (Z.of_nat (length payload))) in
  match r1 with
  | Err e => (rt1, d1, Err e)
  | Ok _ => write_all rt1 d1 payload
  end.

Definition write_and_sync_frame (env : IoEnv) (rt : WriterRuntime) (d : Disk)
    (frame : AofFrame) : WriterRuntime * Disk * result unit StorageError :=
  let '(rt1, d1, r1) := write_frame rt d frame in
  match r1 with
  | Err e => (rt1, d1, Err e)
  | Ok _ =>
      let '(rt2, d2, r2) := flush_buf rt1 d1 in
      match r2 with
      | Err e => (rt2, d2, Err e)
      | Ok _ => (rt2, d2, if sync_ok env then Ok tt else Err eio)
      end
  end.

(** [File::set_len]: cut, or extend with zero bytes. *)
Definition set_len (d : Disk) (len : nat) : Disk :=
  mkDisk (take len (content d) ++ replicate (len - length (content d)) Byte.x00)
         (tmp d) (free d + (length (content d) - len)).

Definition rollback_file (env : IoEnv) (d : Disk) (len : nat) : Disk :=
  if rollback_ok env then set_len d len else d.

Definition reopen_writer_runtime (env : IoEnv) (d : Disk) : option WriterRuntime :=
  if reopen_ok env then Some (mkRuntime [] true (length (content d))) else None.

(** Dropping a [BufWriter] writes its buffer and ignores a failure. *)
Definition drop_writer (rt : WriterRuntime) (d : Disk) : Disk := (flush_buf rt d).1.2.

(** ** Group commit *)

Fixpoint validate_requests (last_entry : option StorageEntry) (requests : list AppendRequest)
    : result unit StorageError :=
  match requests with
  | [] => Ok tt
  | request :: rest =>
      let? _ := validate_batch_against_last last_entry (req_entries request) in
      validate_requests (last (req_entries request)) rest
  end.

Definition group_frame (requests : list AppendRequest) : AofFrame :=
  match requests with
  | [request] => req_frame request
  | _ => FGroup (req_frame <$> requests)
  end.

Definition commit_append_group (env : IoEnv) (rt : WriterRuntime) (d : Disk)
    (st : CommittedState) (requests : list AppendRequest)
    : WriterRuntime * Disk * CommittedState * result unit StorageError :=
  match requests with
  | [] => (rt, d, st, Ok tt)
  | _ =>
      if closed st then (rt, d, st, Err Closed)
      else
        match validate_requests (last (entries st)) requests with
        | Err e => (rt, d, st, Err e)
        | Ok _ =>
            let frame := group_frame requests in
            let start_len := durable_len rt in
            let '(rt1, d1, r1) := write_and_sync_frame env rt d frame in
            match r1 with
            | Err e =>
                let d2 := rollback_file env d1 start_len in
                match reopen_writer_runtime env d2 with
                | Some rt2 => (rt2, drop_writer rt1 d2, st, Err e)
                | None => (rt1, d2, st, Err e)
                end
            | Ok _ =>
                (mkRuntime (buf rt1) (attached rt1) (start_len + encoded_frame_len frame),
                 d1,
                 mkCommitted (entries st ++ (requests ≫= req_entries)) (closed st),
                 Ok tt)
            end
        end
  end.

(** ** Snapshot, compaction and close *)

(** Writes the entries to the temporary file and renames it over [path]. *)
Definition rewrite (env : IoEnv) (d : Disk) (es : list StorageEntry)
    : Disk * result unit StorageError :=
  let bytes := (λ e, frame_bytes (FEntry e)) <$> es in
  let room := free d + length (tmp d) in
  let all := concat bytes in
  if (length all <=? room)%nat then
    if sync_ok env
    then (mkDisk all [] (room - length all + length (content d)), Ok tt)
    else (mkDisk (content d) all (room - length all), Err eio)
  else (mkDisk (content d) (take room all) 0, Err enospc).

Definition execute_snapshot (env : IoEnv) (rt : WriterRuntime) (d : Disk)
    (st : CommittedState) (es : list StorageEntry)
    : WriterRuntime * Disk * CommittedState * result unit StorageError :=
  match assert_strictly_increasing es with
  | Err e => (rt, d, st, Err e)
  | Ok _ =>
      match rewrite env d es with
      | (d1, Err e) => (rt, d1, st, Err e)
      | (d1, Ok _) =>
          match reopen_writer_runtime env d1 with
          | None => (mkRuntime (buf rt) false (durable_len rt), d1, st, Err eio)
          | Some rt1 =>
              if closed st then (rt1, d1, st, Err Closed)
              else (rt1, d1, mkCommitted es (closed st), Ok tt)
          end
      end
  end.

Definition execute_compact (env : IoEnv) (rt : WriterRuntime) (d : Disk)
    (st : CommittedState)
    : WriterRuntime * Disk * CommittedState * result CompactionResult StorageError :=
  let es := entries st in
  let before := length (content d) in
  match rewrite env d es with
  | (d1, Err e) => (rt, d1, st, Err e)
  | (d1, Ok _) =>
      match reopen_writer_runtime env d1 with
      | None => (mkRuntime (buf rt) false (durable_len rt), d1, st, Err eio)
      | Some rt1 =>
          (rt1, d1, st,
           Ok {| before_entries := Z.of_nat (length es);
                 after_entries := Z.of_nat (length es);
                 before_bytes := Z.of_nat before;
                 after_bytes := Z.of_nat (length (content d1)) |})
      end
  end.

Definition execute_close (env : IoEnv) (rt : WriterRuntime) (d : Disk) (st : CommittedState)
    : WriterRuntime * Disk * CommittedState * result unit StorageError :=
  let '(rt1, d1, r1) := flush_buf rt d in
  match r1 with
  | Err e => (rt1, d1, st, Err e)
  | Ok _ =>
      if sync_ok env
      then (mkRuntime (buf rt1) (attached rt1) (length (content d1)), d1,
            mkCommitted (entries st) true, Ok tt)
      else (rt1, d1, st, Err eio)
  end.

(** ** Backup and restore *)

(** [backup_aof]: the file written is a JSON rendering of this record. *)
Definition backup_aof (source : list byte) : result AofBackupFile StorageError :=
  let? r := load_entries_with_report source in
  let '(es, report) := r in
  Ok {| backup_format := AOF_BACKUP_FORMAT;
        backup_entry_count := entry_count report;
        backup_first_sequence := first_sequence report;
        backup_last_sequence := report_last_sequence report;
        backup_checksum_hex := report_checksum_hex report;
        backup_entries := es |}.

Definition restore_aof (env : IoEnv) (d : Disk) (exists_ force : bool) (backup : AofBackupFile)
    : Disk * result AofIntegrityReport StorageError :=
  if exists_ && negb force then (d, Err (Message "refusing to overwrite existing AOF"))
  else if negb (String.eqb (backup_format backup) AOF_BACKUP_FORMAT)
  then (d, Err (Codec "unsupported AOF backup format"))
  else
    match assert_strictly_increasing (backup_entries backup) with
    | Err e => (d, Err e)
    | Ok _ =>
        if negb (String.eqb (checksum_hex (checksum_entries (backup_entries backup)))
                            (backup_checksum_hex backup))
        then (d, Err (Codec "AOF backup checksum does not match entries"))
        else
          match rewrite env d (backup_entries backup) with
          | (d1, Err e) => (d1, Err e)
          | (d1, Ok _) =>
              match verify_aof (content d1) with
              | Err e => (d1, Err e)
              | Ok restored =>
                  if negb (String.eqb (report_checksum_hex restored) (backup_checksum_hex backup))
                     || negb (entry_count restored =? backup_entry_count backup)%nat
                  then (d1, Err (Codec "restored AOF failed post-write validation"))
                  else (d1, Ok restored)
              end
          end
    end.

(** ** The writer loop *)

(** Commands wait in arrival order.  [avail] is how many of them arrive before
    the group-commit deadline; a command that is not an append ends the group
    and stays first in the queue. *)
Fixpoint collect_append_requests (room avail : nat) (queue : list WriterCommand)
    : list AppendRequest * list WriterCommand :=
  match room, avail, queue with
  | S room', S avail', CAppend request :: rest =>
      let '(requests, queue') := collect_append_requests room' avail' rest in
      (request :: requests, queue')
  | _, _, _ => ([], queue)
  end.

Record Writer := mkWriter {
  w_runtime : WriterRuntime;
  w_disk : Disk;
  w_committed : CommittedState
}.

Inductive Response : Type :=
  | RUnit (r : result unit StorageError)
  | RCompact (r : result CompactionResult StorageError).

(** One turn of [run_writer_loop] on a non-empty queue: the responses sent and
    whether the loop goes on. *)
Definition writer_turn (o : AofOptions) (env : IoEnv) (avail : nat) (w : Writer)
    (cmd : WriterCommand) (queue : list WriterCommand)
    : Writer * list WriterCommand * list Response * bool :=
  match cmd with
  | CAppend first =>
      let '(more, queue') :=
        collect_append_requests (Nat.max (max_requests_per_commit_cycle o) 1 - 1) avail queue in
      let '(rt, d, st, r) :=
        commit_append_group env (w_runtime w) (w_disk w) (w_committed w) (first :: more) in
      (mkWriter rt d st, queue', (λ _, RUnit r) <$> (first :: more), true)
  | CSnapshot es =>
      let '(rt, d, st, r) :=
        execute_snapshot env (w_runtime w) (w_disk w) (w_committed w) es in
      (mkWriter rt d st, queue, [RUnit r], true)
  | CCompact =>
      let '(rt, d, st, r) := execute_compact env (w_runtime w) (w_disk w) (w_committed w) in
      (mkWriter rt d st, queue, [RCompact r], true)
  | CClose =>
      let '(rt, d, st, r) := execute_close env (w_runtime w) (w_disk w) (w_committed w) in
      (mkWriter rt d st, queue, [RUnit r], false)
  end.

(** The loop over a finite queue, with the environment and the arrival count
    of each turn.  A turn consumes at least one command, so [length queue]
    turns are enough. *)
Fixpoint run_writer_loop (fuel : nat) (o : AofOptions) (env : nat → IoEnv) (avail : nat → nat)
    (w : Writer) (queue : list WriterCommand) : Writer * list Response :=
  match fuel, queue with
  | S fuel', cmd :: rest =>
      let '(w', queue', out, continue) := writer_turn o (env fuel) (avail fuel) w cmd rest in
      if continue
      then let '(w'', out') := run_writer_loop fuel' o env avail w' queue' in (w'', out ++ out')
      else (w', out)
  | _, _ => (w, [])
  end.

(** ** Opening *)

Definition sanitize_options (o : AofOptions) : AofOptions := {|
  writer_queue_limit := Nat.max (writer_queue_limit o) 1;
  max_group_commit_delay_ms := max_group_commit_delay_ms o;
  max_requests_per_commit_cycle := Nat.max (max_requests_per_commit_cycle o) 1
|}.

Definition open_aof (d : Disk) : result (WriterRuntime * CommittedState) StorageError :=
  let? es := load_entries (content d) in
  Ok (mkRuntime [] true (length (content d)), mkCommitted es false).

(** ** The backend handle

    A call of the trait submits one command and waits for its response; with
    no other caller the writer thread runs it at once. *)
Record AofBackend := mkAof {
  handle_closed : bool;
  aof_env : IoEnv;
  aof_writer : Writer
}.

Definition submit_append (b : AofBackend) (request : AppendRequest)
    : AofBackend * result unit StorageError :=
  if handle_closed b then (b, Err Closed)
  else
    let w := aof_writer b in
    let '(rt, d, st, r) :=
      commit_append_group (aof_env b) (w_runtime w) (w_disk w) (w_committed w) [request] in
    (mkAof (handle_closed b) (aof_env b) (mkWriter rt d st), r).

Definition aof_append (b : AofBackend) (entry : StorageEntry)
    : AofBackend * result unit StorageError :=
  submit_append b (mkRequest (FEntry entry) [entry]).

Definition aof_append_batch (b : AofBackend) (es : list StorageEntry)
    : AofBackend * result unit StorageError :=
  match es with
  | [] => (b, Ok tt)
  | _ =>
      match assert_strictly_increasing es with
      | Err e => (b, Err e)
      | Ok _ => submit_append b (mkRequest (FBatch es) es)
      end
  end.

Definition aof_replay {St} (b : AofBackend) (after_seq : Z) (cb : callback St) (st : St)
    : St * result Z StorageError :=
  replay_entries (entries (w_committed (aof_writer b))) after_seq cb st.

Definition aof_snapshot (b : AofBackend) (es : list StorageEntry)
    : AofBackend * result unit StorageError :=
  match assert_strictly_increasing es with
  | Err e => (b, Err e)
  | Ok _ =>
      if handle_closed b then (b, Err Closed)
      else
        let w := aof_writer b in
        let '(rt, d, st, r) :=
          execute_snapshot (aof_env b) (w_runtime w) (w_disk w) (w_committed w) es in
        (mkAof (handle_closed b) (aof_env b) (mkWriter rt d st), r)
  end.

Definition aof_last_sequence (b : AofBackend) : result Z StorageError :=
  Ok (from_option sequence 0%Z (last (entries (w_committed (aof_writer b))))).

Definition aof_checksum (b : AofBackend) (from to : Z) : result (list byte) StorageError :=
  Ok (checksum_entries
        (filter (λ e, (from ≤ sequence e)%Z ∧ (sequence e ≤ to)%Z)
           (entries (w_committed (aof_writer b))))).

Definition aof_close (b : AofBackend) : AofBackend * result unit StorageError :=
  if handle_closed b then (b, Ok tt)
  else
    let w := aof_writer b in
    let '(rt, d, st, r) :=
      execute_close (aof_env b) (w_runtime w) (w_disk w) (w_committed w) in
    (mkAof true (aof_env b) (mkWriter rt d st), r).

#[export] Instance aof_backend : StorageBackend AofBackend := {
  stores_command_log _ := true;
  append := aof_append;
  append_batch := aof_append_batch;
  replay St := @aof_replay St;
  snapshot := aof_snapshot;
  last_sequence := aof_last_sequence;
  checksum := aof_checksum;
  close := aof_close
}.

(** ** Facts: validation *)

Definition apply_frames (es : list StorageEntry) (frames : list AofFrame)
    : result (list StorageEntry) StorageError :=
  try_fold apply_frame_to_entries es frames.

Definition frames_bytes (frames : list AofFrame) : list byte := frames ≫= frame_bytes.

(** Frames that the codec is able to read back. *)
Definition frame_fits (f : AofFrame) : Prop :=
  frame_ok f ∧ (Z.of_nat (length (serialize f)) ≤ U64_MAX)%Z.

Lemma apply_group es f fs :
  apply_frame_to_entries es (FGroup (f :: fs)) = apply_frames es (f :: fs).
Proof.
  unfold apply_frames. simpl. destruct (apply_frame_to_entries es f) as [es'|]; [|done].
  simpl. revert es'. induction fs as [|f' fs IH]; intros es'; simpl; [done|].
  destruct (apply_frame_to_entries es' f'); simpl; auto.
Qed.

Lemma validate_batch_spec lst es :
  validate_batch_against_last lst es = Ok tt ↔
  strictly_increasing es ∧
  (∀ l first, lst = Some l → head es = Some first → (sequence l < sequence first)%Z).
Proof.
  destruct es as [|e es]; simpl.
  { split; [|done]. intros _. split; [constructor | done]. }
  destruct (assert_strictly_increasing (e :: es)) as [[]|err] eqn:Ha; simpl.
  - apply assert_strictly_increasing_spec in Ha.
    destruct lst as [l|]; [|naive_solver].
    destruct (Z.leb_spec (sequence e) (sequence l)).
    + split; [done|]. intros [_ Hx]. specialize (Hx l e eq_refl eq_refl). lia.
    + split; [|done]. intros _. split; [done|]. intros ?? [= <-] [= <-]. lia.
  - split; [done|]. intros [Hs _]. apply assert_strictly_increasing_spec in Hs. congruence.
Qed.

(** Appending a valid batch to a strictly increasing log keeps it so. *)
Lemma validate_batch_app es batch :
  strictly_increasing es →
  validate_batch_against_last (last es) batch = Ok tt ↔ strictly_increasing (es ++ batch).
Proof.
  intros Hes. rewrite validate_batch_spec, strictly_increasing_app. naive_solver.
Qed.

Lemma frame_bytes_length f : length (frame_bytes f) = 8 + length (serialize f).
Proof.
  unfold frame_bytes, u64_to_le_bytes.
  by rewrite length_app, LittleEndianList.length_le_split.
Qed.

(** ** Facts: loading *)

Lemma load_loop_fuel f1 f2 bytes es off dur :
  length bytes < f1 → length bytes < f2 →
  load_loop f1 bytes es off dur = load_loop f2 bytes es off dur.
Proof.
  revert f2 bytes es off dur. induction f1 as [|f1 IH]; intros f2 bytes es off dur H1 H2; [lia|].
  destruct f2 as [|f2]; [lia|]. cbn [load_loop].
  destruct bytes as [|b bs] eqn:Hb; [done|]. rewrite <-Hb in *.
  assert (0 < length bytes) by (rewrite Hb; simpl; lia).
  destruct (Nat.ltb_spec (length bytes) 8); [done|].
  case_match; [done|]. case_match; [|done].
  destruct (apply_frame_to_entries es _); [|done]. cbn [rbind].
  apply IH; rewrite !length_drop; lia.
Qed.

Lemma le_prefix_combine z rest :
  (0 ≤ z ≤ U64_MAX)%Z →
  LittleEndianList.le_combine (take 8 (u64_to_le_bytes z ++ rest)) = z.
Proof.
  rewrite U64_MAX_eq. intros Hz. unfold u64_to_le_bytes.
  rewrite take_app_le, take_ge by (rewrite LittleEndianList.length_le_split; lia).
  rewrite LittleEndianList.le_combine_split. apply Z.mod_small. lia.
Qed.

(** The turn of the loop that reads one complete frame. *)
Lemma load_loop_step fuel bytes es off dur :
  8 ≤ length bytes →
  (LittleEndianList.le_combine (take 8 bytes) ≤ Z.of_nat (length (drop 8 bytes)))%Z →
  load_loop (S fuel) bytes es off dur =
  match deserialize (take (Z.to_nat (LittleEndianList.le_combine (take 8 bytes)))
                          (drop 8 bytes)) with
  | None => Err (Codec "invalid frame payload")
  | Some frame =>
      let? es' := apply_frame_to_entries es frame in
      let n := Z.to_nat (LittleEndianList.le_combine (take 8 bytes)) in
      load_loop fuel (drop n (drop 8 bytes)) es' (off + 8 + n) (off + 8 + n)
  end.
Proof.
  intros H8 Hlen. cbn [load_loop]. destruct bytes as [|b bs]; [simpl in H8; lia|].
  rewrite (proj2 (Nat.ltb_ge _ _) H8), (proj2 (Z.ltb_ge _ _) Hlen). reflexivity.
Qed.

Lemma frame_bytes_take f rest :
  frame_fits f →
  LittleEndianList.le_combine (take 8 (frame_bytes f ++ rest)) = Z.of_nat (length (serialize f)).
Proof.
  intros [_ Hfit]. unfold frame_bytes. rewrite <-app_assoc. apply le_prefix_combine. lia.
Qed.

Lemma frame_bytes_drop f rest : drop 8 (frame_bytes f ++ rest) = serialize f ++ rest.
Proof.
  unfold frame_bytes, u64_to_le_bytes. rewrite <-app_assoc.
  apply drop_app_length'. by rewrite LittleEndianList.length_le_split.
Qed.

(** One complete frame is consumed whole. *)
Lemma load_loop_frame f rest es es' off :
  frame_fits f → apply_frame_to_entries es f = Ok es' →
  load_loop (S (length (frame_bytes f ++ rest))) (frame_bytes f ++ rest) es off off =
  load_loop (S (length rest)) rest es' (off + length (frame_bytes f))
    (off + length (frame_bytes f)).
Proof.
  intros Hf Happ. pose proof (frame_bytes_length f) as Hlen.
  rewrite load_loop_step; rewrite ?frame_bytes_take, ?frame_bytes_drop by done;
    [|rewrite length_app; lia..].
  destruct Hf as [Hok Hfit]. cbv zeta.
  rewrite Nat2Z.id, take_app_length, drop_app_length, serialize_fits, Happ by done.
  cbn [rbind]. rewrite Hlen, Nat.add_assoc.
  apply load_loop_fuel; [rewrite length_app|]; lia.
Qed.

Lemma load_loop_frames fs rest es es' off :
  Forall frame_fits fs → apply_frames es fs = Ok es' →
  load_loop (S (length (frames_bytes fs ++ rest))) (frames_bytes fs ++ rest) es off off =
  load_loop (S (length rest)) rest es' (off + length (frames_bytes fs))
    (off + length (frames_bytes fs)).
Proof.
  intros Hfs. revert es off. induction Hfs as [|f fs Hf Hfs IH]; intros es off Happ.
  { unfold apply_frames in Happ. cbn [try_fold] in Happ. simplify_eq.
    cbn [frames_bytes mbind list_bind app length]. by rewrite Nat.add_0_r. }
  unfold apply_frames in Happ. cbn [try_fold] in Happ.
  apply rbind_Ok_inv in Happ as (es1 & H1 & H2).
  unfold frames_bytes. cbn [mbind list_bind]. fold (frames_bytes fs).
  rewrite <-!app_assoc, (load_loop_frame f _ es es1) by done.
  rewrite (IH es1 _ H2), length_app, !Nat.add_assoc. done.
Qed.

(** A strict prefix of a frame is a torn tail. *)
Lemma load_loop_torn f (tail : list byte) n es off :
  frame_fits f → tail = take n (frame_bytes f) → 0 < n < length (frame_bytes f) →
  load_loop (S (length tail)) tail es off off = Ok (es, off, true).
Proof.
  intros [Hok Hfit] Htail [Hn0 Hn]. pose proof (frame_bytes_length f) as Hlen.
  assert (length tail = n) as Hlt by (rewrite Htail, length_take; lia).
  cbn [load_loop]. destruct tail as [|b bs] eqn:E; [simpl in Hlt; lia|]. rewrite <-E in *.
  clear E b bs.
  destruct (Nat.ltb_spec (length tail) 8) as [|Hge]; [done|].
  assert (Hc : LittleEndianList.le_combine (take 8 tail) = Z.of_nat (length (serialize f))).
  { rewrite Htail, take_take, Nat.min_l by lia.
    unfold frame_bytes. apply le_prefix_combine. lia. }
  rewrite Hc, length_drop, Hlt.
  destruct (Z.ltb_spec (Z.of_nat (n - 8)) (Z.of_nat (length (serialize f)))) as [|Hge'];
    [done | lia].
Qed.
End WithCodec.
End Aof.
