(* ===== verification/StorageAofSpec.v ===== *)
(** * The append-only file: durability

    What a reopened file yields: complete frames are read back exactly, a torn
    last frame is dropped as one unit, a successful group commit leaves a file
    that reloads to the committed log, a failed [fsync] is rolled back, and
    grouping requests does not change what is committed.  The two boundary
    cases where the file on disk stops matching the committed log are stated
    too. *)

From Stdlib Require Import ZArith Lia.
From stdpp Require Import base gmap strings list sorting.
From coqutil Require Word.LittleEndianList.
From S2P Require Import Prelude Storage StorageAof.
Import Aof.

(** ** A concrete codec

    The fixed-width little-endian layout: a 32-bit variant index, then the
    fields; a sequence is its 64-bit length and its elements. *)
Module Bincode.

Definition enc_u32 (z : Z) : list byte := LittleEndianList.le_split 4 z.

Definition enc_entry (e : StorageEntry) : list byte :=
  u64_to_le_bytes (sequence e) ++ u64_to_le_bytes (timestamp_ns e) ++
  u64_to_le_bytes (Z.of_nat (length (command e))) ++ command e.

Definition enc_len {A} (l : list A) : list byte := u64_to_le_bytes (Z.of_nat (length l)).

Fixpoint enc_frame (f : AofFrame) : list byte :=
  match f with
  | FEntry e => enc_u32 0 ++ enc_entry e
  | FBatch es => enc_u32 1 ++ enc_len es ++ concat (enc_entry <$> es)
  | FGroup fs => enc_u32 2 ++ enc_len fs ++ concat (enc_frame <$> fs)
  end.

Definition parser (A : Type) : Type := list byte → option (A * list byte).

Definition dec_uint (n : nat) : parser Z := λ bs,
  if (length bs <? n)%nat then None
  else Some (LittleEndianList.le_combine (take n bs), drop n bs).

Definition dec_bytes (n : Z) : parser (list byte) := λ bs,
  if (Z.of_nat (length bs) <? n)%Z then None
  else Some (take (Z.to_nat n) bs, drop (Z.to_nat n) bs).

Definition dec_entry : parser StorageEntry := λ bs,
  '(s, bs) ← dec_uint 8 bs;
  '(t, bs) ← dec_uint 8 bs;
  '(n, bs) ← dec_uint 8 bs;
  '(c, bs) ← dec_bytes n bs;
  Some (mkEntry s t c, bs).

(** [count] elements; the fuel bounds the elements by the bytes left. *)
Fixpoint dec_many {A} (p : parser A) (fuel : nat) (count : Z) : parser (list A) := λ bs,
  if (count <=? 0)%Z then Some ([], bs)
  else
    match fuel with
    | 0 => None
    | S fuel' =>
        '(x, bs) ← p bs;
        '(xs, bs) ← dec_many p fuel' (count - 1) bs;
        Some (x :: xs, bs)
    end.

Fixpoint dec_frame (fuel : nat) : parser AofFrame := λ bs,
  match fuel with
  | 0 => None
  | S fuel' =>
      '(tag, bs) ← dec_uint 4 bs;
      match tag with
      | 0%Z => '(e, bs) ← dec_entry bs; Some (FEntry e, bs)
      | 1%Z =>
          '(n, bs) ← dec_uint 8 bs;
          '(es, bs) ← dec_many dec_entry (length bs) n bs;
          Some (FBatch es, bs)
      | 2%Z =>
          '(n, bs) ← dec_uint 8 bs;
          '(fs, bs) ← dec_many (dec_frame fuel') (length bs) n bs;
          Some (FGroup fs, bs)
      | _ => None
      end
  end.

Definition dec (bs : list byte) : option AofFrame := fst <$> dec_frame (S (length bs)) bs.

Lemma dec_uint_enc (n : nat) z rest :
  (0 ≤ z < 2 ^ (Z.of_nat n * 8))%Z →
  dec_uint n (LittleEndianList.le_split n z ++ rest) = Some (z, rest).
Proof.
  intros Hz. unfold dec_uint.
  destruct (Nat.ltb_spec (length (LittleEndianList.le_split n z ++ rest)) n) as [Hlt|_].
  { rewrite length_app, LittleEndianList.length_le_split in Hlt. lia. }
  rewrite take_app_length', drop_app_length' by (by rewrite LittleEndianList.length_le_split).
  rewrite LittleEndianList.le_combine_split, Z.mod_small by done. done.
Qed.

Lemma dec_u64_enc z rest : is_u64 z → dec_uint 8 (u64_to_le_bytes z ++ rest) = Some (z, rest).
Proof. unfold is_u64. rewrite U64_MAX_eq. intros Hz. apply dec_uint_enc. simpl. lia. Qed.

Lemma dec_u32_enc z rest :
  (0 ≤ z < 2 ^ 32)%Z → dec_uint 4 (enc_u32 z ++ rest) = Some (z, rest).
Proof. intros Hz. apply dec_uint_enc. simpl. lia. Qed.

Lemma dec_entry_enc e rest : entry_ok e → dec_entry (enc_entry e ++ rest) = Some (e, rest).
Proof.
  intros (Hs & Ht & Hc). unfold dec_entry, enc_entry. rewrite <-!app_assoc.
  rewrite dec_u64_enc by done. cbn [mbind option_bind].
  rewrite dec_u64_enc by done. cbn [mbind option_bind].
  rewrite dec_u64_enc by (unfold is_u64; lia). cbn [mbind option_bind].
  unfold dec_bytes. rewrite length_app.
  destruct (Z.ltb_spec (Z.of_nat (length (command e) + length rest))
              (Z.of_nat (length (command e)))) as [|_]; [lia|].
  cbn [mbind option_bind]. rewrite Nat2Z.id, take_app_length, drop_app_length.
  by destruct e.
Qed.

Lemma dec_many_enc {A} (p : parser A) (enc : A → list byte) (P : A → Prop) xs rest fuel :
  (∀ x rest, P x → p (enc x ++ rest) = Some (x, rest)) → Forall P xs →
  length xs ≤ fuel →
  dec_many p fuel (Z.of_nat (length xs)) (concat (enc <$> xs) ++ rest) = Some (xs, rest).
Proof.
  intros Hp. revert fuel. induction xs as [|x xs IH]; intros fuel Hxs Hf.
  { destruct fuel; done. }
  apply Forall_cons in Hxs as [Hx Hxs]. simpl in Hf. destruct fuel as [|fuel]; [lia|].
  cbn [dec_many length]. destruct (Z.leb_spec (Z.of_nat (S (length xs))) 0); [lia|].
  cbn [fmap list_fmap concat]. rewrite <-app_assoc, Hp by done. cbn [mbind option_bind].
  replace (Z.of_nat (S (length xs)) - 1)%Z with (Z.of_nat (length xs)) by lia.
  rewrite IH by (done || lia). done.
Qed.

Fixpoint depth (f : AofFrame) : nat :=
  match f with
  | FEntry _ | FBatch _ => 1
  | FGroup fs => S (max_list (depth <$> fs))
  end.

Fixpoint AofFrame_ind' (P : AofFrame → Prop) (HE : ∀ e, P (FEntry e))
    (HB : ∀ es, P (FBatch es)) (HG : ∀ fs, Forall P fs → P (FGroup fs)) (f : AofFrame) : P f :=
  match f with
  | FEntry e => HE e
  | FBatch es => HB es
  | FGroup fs =>
      HG fs ((fix go fs : Forall P fs := match fs with
                           | [] => Forall_nil_2 P
                           | f :: fs => Forall_cons_2 P f fs (AofFrame_ind' P HE HB HG f) (go fs)
                           end) fs)
  end.

Lemma frame_ok_group fs :
  frame_ok (FGroup fs) ↔ Forall frame_ok fs ∧ (Z.of_nat (length fs) ≤ U64_MAX)%Z.
Proof.
  cbn [frame_ok]. f_equiv. induction fs as [|f fs IH]; [done|]. by rewrite Forall_cons, <-IH.
Qed.

Lemma enc_entry_pos e : 0 < length (enc_entry e).
Proof.
  unfold enc_entry, u64_to_le_bytes. rewrite length_app, LittleEndianList.length_le_split. lia.
Qed.

Lemma enc_frame_pos f : 4 ≤ length (enc_frame f).
Proof.
  destruct f; cbn [enc_frame]; rewrite length_app; unfold enc_u32;
    rewrite LittleEndianList.length_le_split; lia.
Qed.

Lemma length_concat_fmap {A} (enc : A → list byte) xs :
  (∀ x, 0 < length (enc x)) → length xs ≤ length (concat (enc <$> xs)).
Proof.
  intros Hpos. induction xs as [|x xs IH]; [done|].
  cbn [fmap list_fmap concat]. rewrite length_app. simpl. specialize (Hpos x).
  change (list_fmap A (list byte) enc xs) with (enc <$> xs). lia.
Qed.

Lemma depth_bound f : depth f ≤ length (enc_frame f).
Proof.
  induction f as [e|es|fs IH] using AofFrame_ind'.
  - pose proof (enc_frame_pos (FEntry e)). simpl depth. lia.
  - pose proof (enc_frame_pos (FBatch es)). simpl depth. lia.
  - cbn [depth enc_frame]. rewrite length_app. unfold enc_u32.
    rewrite LittleEndianList.length_le_split, length_app.
    enough (max_list (depth <$> fs) ≤ length (concat (enc_frame <$> fs))) by lia.
    induction IH as [|f fs Hf _ IH]; [done|].
    rewrite !fmap_cons. cbn [concat max_list_with]. rewrite length_app. change (id (depth f)) with (depth f). lia.
Qed.

Lemma dec_frame_enc f fuel rest :
  frame_ok f → depth f ≤ fuel → dec_frame fuel (enc_frame f ++ rest) = Some (f, rest).
Proof.
  revert fuel rest. induction f as [e|es|fs IH] using AofFrame_ind'; intros fuel rest Hok Hd;
    (destruct fuel as [|fuel]; [simpl in Hd; lia|]); cbn [dec_frame enc_frame];
    rewrite <-!app_assoc, dec_u32_enc by lia; cbn [mbind option_bind].
  - by rewrite dec_entry_enc.
  - destruct Hok as [Hes Hn]. unfold enc_len. rewrite dec_u64_enc by (unfold is_u64; lia).
    cbn [mbind option_bind]. rewrite (dec_many_enc _ _ entry_ok); [done|..].
    + apply dec_entry_enc.
    + done.
    + rewrite length_app. pose proof (length_concat_fmap enc_entry es enc_entry_pos). lia.
  - apply frame_ok_group in Hok as [Hfs Hn].
    unfold enc_len. rewrite dec_u64_enc by (unfold is_u64; lia).
    cbn [mbind option_bind].
    rewrite (dec_many_enc _ _ (λ f, f ∈ fs)); [done|..].
    + intros f r Hin. rewrite Forall_forall in IH, Hfs. apply IH; [done|auto|].
      cbn [depth] in Hd. enough (depth f ≤ max_list (depth <$> fs)) by lia.
      apply max_list_elem_of_le. by apply list_elem_of_fmap_2.
    + by apply Forall_forall.
    + rewrite length_app.
      enough (length fs ≤ length (concat (enc_frame <$> fs))) by lia.
      apply length_concat_fmap. intros x. pose proof (enc_frame_pos x). lia.
Qed.

#[export] Instance bincode_codec : FrameCodec.
Proof.
  refine {| serialize := enc_frame; deserialize := dec |}.
  intros f Hok _. unfold dec.
  pose proof (dec_frame_enc f (S (length (enc_frame f))) [] Hok) as Hd.
  rewrite app_nil_r in Hd. rewrite Hd; [done|]. pose proof (depth_bound f). lia.
Defined.

#[export] Instance digest_none : Md5 := λ _, [].

End Bincode.

Section Durability.
Context `{FrameCodec} `{Md5}.

(** ** The invariant between the file and the committed log

    Nothing is buffered, the handle is the live file, the recorded durable
    length is the file's length, and the file is a sequence of complete frames
    that yields the committed entries. *)
Definition file_matches (rt : WriterRuntime) (d : Disk) (st : CommittedState) : Prop :=
  buf rt = [] ∧ attached rt = true ∧ durable_len rt = length (content d) ∧
  ∃ fs, Forall frame_fits fs ∧ content d = frames_bytes fs ∧
        apply_frames [] fs = Ok (entries st).

(** A request as [append] and [append_batch] build it. *)
Definition request_wf (r : AppendRequest) : Prop :=
  (∃ e, req_frame r = FEntry e ∧ req_entries r = [e]) ∨
  (req_frame r = FBatch (req_entries r) ∧ req_entries r ≠ []).

(** *** Loading *)

Lemma load_frames_ok fs es :
  Forall frame_fits fs → apply_frames [] fs = Ok es →
  load_loop (S (length (frames_bytes fs))) (frames_bytes fs) [] 0 0 =
    Ok (es, length (frames_bytes fs), false).
Proof.
  intros Hfs Happ. pose proof (load_loop_frames fs [] [] es 0 Hfs Happ) as Hl.
  rewrite app_nil_r in Hl. rewrite Hl. done.
Qed.

Lemma load_entries_frames fs es :
  Forall frame_fits fs → apply_frames [] fs = Ok es → load_entries (frames_bytes fs) = Ok es.
Proof.
  intros Hfs Happ. unfold load_entries, load_entries_with_report.
  rewrite (load_frames_ok fs es) by done. done.
Qed.

Lemma apply_frame_increasing es f es' :
  strictly_increasing es → apply_frame_to_entries es f = Ok es' → strictly_increasing es'.
Proof.
  revert es es'. induction f as [e|batch|fs IH] using Bincode.AofFrame_ind'; intros es es' Hes Ha.
  - cbn [apply_frame_to_entries] in Ha. apply rbind_Ok_inv in Ha as ([] & Hv & Ha).
    simplify_eq. by apply validate_batch_app in Hv.
  - cbn [apply_frame_to_entries] in Ha. destruct batch as [|b batch]; [done|].
    apply rbind_Ok_inv in Ha as ([] & Hv & Ha). simplify_eq. by apply validate_batch_app in Hv.
  - destruct fs as [|f fs]; [done|]. rewrite apply_group in Ha. unfold apply_frames in Ha.
    revert es Hes Ha. induction IH as [|g gs Hg _ IHg]; intros es Hes Ha.
    + cbn [try_fold] in Ha. by simplify_eq.
    + cbn [try_fold] in Ha. apply rbind_Ok_inv in Ha as (es1 & H1 & H2). eauto.
Qed.

Lemma apply_frames_increasing fs es es' :
  strictly_increasing es → apply_frames es fs = Ok es' → strictly_increasing es'.
Proof.
  unfold apply_frames. revert es. induction fs as [|f fs IH]; intros es Hes Ha; cbn [try_fold] in Ha.
  - by simplify_eq.
  - apply rbind_Ok_inv in Ha as (es1 & H1 & H2). eauto using apply_frame_increasing.
Qed.

(** *** Writing when the device has room *)

Lemma flush_buf_room rt d :
  attached rt = true → length (buf rt) ≤ free d →
  flush_buf rt d =
    (mkRuntime [] true (durable_len rt),
     mkDisk (content d ++ buf rt) (tmp d) (free d - length (buf rt)), Ok tt).
Proof.
  intros Ha Hf. unfold flush_buf, disk_write. rewrite Ha, Nat.min_l by done.
  rewrite drop_all, take_ge by done. by rewrite Nat.eqb_refl.
Qed.

Lemma buf_capacity_pos : 0 < buf_capacity.
Proof. apply Nat.ltb_lt. reflexivity. Qed.

Lemma write_all_room rt d data :
  attached rt = true → length (buf rt) + length data ≤ free d →
  ∃ rt' d', write_all rt d data = (rt', d', Ok tt) ∧
    attached rt' = true ∧ durable_len rt' = durable_len rt ∧ tmp d' = tmp d ∧
    content d' ++ buf rt' = content d ++ buf rt ++ data ∧
    free d' + length (content d') = free d + length (content d).
Proof.
  intros Ha Hf. pose proof buf_capacity_pos. unfold write_all.
  destruct (Nat.ltb_spec (length data) (buf_capacity - length (buf rt))) as [|Hge].
  { eexists _, _. split; [done|]. done. }
  destruct (Nat.ltb_spec (buf_capacity - length (buf rt)) (length data)) as [|Hge2].
  - rewrite flush_buf_room by (done || lia).
    destruct (Nat.leb_spec buf_capacity (length data)).
    + unfold disk_write. cbn [attached content free tmp buf].
      rewrite Nat.min_l, take_ge, Nat.eqb_refl by (cbn; lia).
      eexists _, _. split; [done|]. cbn. rewrite app_nil_r, !length_app, app_assoc.
      split_and!; try done. lia.
    + eexists _, _. split; [done|]. cbn. rewrite length_app, app_assoc. split_and!; try done. lia.
  - destruct (Nat.leb_spec buf_capacity (length data)).
    + assert (length (buf rt) = 0) as Hb0 by lia. apply length_zero_iff_nil in Hb0.
      unfold disk_write. rewrite Ha, Nat.min_l, take_ge, Nat.eqb_refl by lia.
      eexists _, _. split; [done|]. cbn. rewrite Hb0, app_nil_r, length_app.
      split_and!; try done. lia.
    + eexists _, _. split; [done|]. cbn. by split_and!.
Qed.

Lemma write_and_sync_room env rt d frame :
  attached rt = true → buf rt = [] → length (frame_bytes frame) ≤ free d →
  ∃ rt' d', write_and_sync_frame env rt d frame =
      (rt', d', if sync_ok env then Ok tt else Err eio) ∧
    attached rt' = true ∧ buf rt' = [] ∧ durable_len rt' = durable_len rt ∧ tmp d' = tmp d ∧
    content d' = content d ++ frame_bytes frame ∧
    free d' + length (content d') = free d + length (content d).
Proof.
  intros Ha Hb Hf. unfold write_and_sync_frame, write_frame.
  set (lenb := u64_to_le_bytes (Z.of_nat (length (serialize frame)))).
  assert (Hsum : length lenb + length (serialize frame) = length (frame_bytes frame)).
  { unfold frame_bytes. rewrite length_app. done. }
  assert (Hb0 : length (buf rt) = 0) by (by rewrite Hb).
  destruct (write_all_room rt d lenb) as (rt1 & d1 & -> & Ha1 & Hd1 & Ht1 & Hc1 & Hf1);
    [done | lia |].
  apply (f_equal length) in Hc1 as Hl1. rewrite !length_app in Hl1.
  destruct (write_all_room rt1 d1 (serialize frame))
    as (rt2 & d2 & -> & Ha2 & Hd2 & Ht2 & Hc2 & Hf2); [done | lia |].
  apply (f_equal length) in Hc2 as Hl2. rewrite !length_app in Hl2.
  rewrite flush_buf_room by (done || lia).
  eexists _, _. split; [done|]. cbn [attached buf durable_len content free tmp].
  split_and!; try done; try congruence.
  - rewrite Hc2, app_assoc, Hc1, Hb. unfold frame_bytes. fold lenb.
    by rewrite app_nil_l, app_assoc.
  - rewrite length_app. lia.
Qed.

(** *** Group commit *)

Lemma apply_request es r :
  request_wf r → validate_batch_against_last (last es) (req_entries r) = Ok tt →
  apply_frame_to_entries es (req_frame r) = Ok (es ++ req_entries r).
Proof.
  intros [(e & Hf & He)|[Hf Hne]] Hv; rewrite Hf; cbn [apply_frame_to_entries].
  - rewrite He in *. by rewrite Hv.
  - destruct (req_entries r); [done|]. by rewrite Hv.
Qed.

Lemma request_last r es : request_wf r → last (es ++ req_entries r) = last (req_entries r).
Proof.
  intros Hwf. destruct (req_entries r) as [|x l] eqn:E; [|apply last_app_cons].
  destruct Hwf as [(e & _ & He)|[_ Hne]]; congruence.
Qed.

(** A group is accepted exactly when the log extended by it stays strictly
    increasing. *)
Lemma validate_requests_spec es reqs :
  strictly_increasing es → Forall request_wf reqs →
  validate_requests (last es) reqs = Ok tt ↔ strictly_increasing (es ++ (reqs ≫= req_entries)).
Proof.
  intros Hes Hwf. revert es Hes. induction Hwf as [|r reqs Hr Hwf IH]; intros es Hes.
  { cbn [validate_requests mbind list_bind]. by rewrite app_nil_r. }
  cbn [validate_requests mbind list_bind]. rewrite app_assoc.
  pose proof (validate_batch_app es (req_entries r) Hes) as Hv.
  destruct (validate_batch_against_last (last es) (req_entries r)) as [[]|err].
  - cbn [rbind]. rewrite <-(request_last r es Hr). apply IH. by apply Hv.
  - cbn [rbind]. split; [done|]. rewrite strictly_increasing_app. intros [Hc _].
    apply Hv in Hc. done.
Qed.

Lemma apply_requests es reqs :
  strictly_increasing es → Forall request_wf reqs →
  validate_requests (last es) reqs = Ok tt →
  apply_frames es (req_frame <$> reqs) = Ok (es ++ (reqs ≫= req_entries)).
Proof.
  intros Hes Hwf. revert es Hes. induction Hwf as [|r reqs Hr Hwf IH]; intros es Hes Hv.
  { unfold apply_frames. simpl. by rewrite app_nil_r. }
  cbn [validate_requests] in Hv. apply rbind_Ok_inv in Hv as ([] & Hv1 & Hv2).
  rewrite fmap_cons. unfold apply_frames. cbn [try_fold].
  rewrite apply_request by done. cbn [rbind mbind list_bind]. rewrite app_assoc.
  apply IH; [by apply validate_batch_app | by rewrite request_last].
Qed.

Lemma apply_group_frame es reqs :
  reqs ≠ [] → strictly_increasing es → Forall request_wf reqs →
  validate_requests (last es) reqs = Ok tt →
  apply_frame_to_entries es (group_frame reqs) = Ok (es ++ (reqs ≫= req_entries)).
Proof.
  intros Hne Hes Hwf Hv. pose proof (apply_requests es reqs Hes Hwf Hv) as Happ.
  destruct reqs as [|r [|r' reqs]]; [done| |].
  - unfold apply_frames in Happ. cbn in Happ. cbn [group_frame].
    destruct (apply_frame_to_entries es (req_frame r)); done.
  - cbn [group_frame]. rewrite !fmap_cons in *. by rewrite apply_group.
Qed.

Lemma file_matches_increasing rt d st : file_matches rt d st → strictly_increasing (entries st).
Proof.
  intros (_ & _ & _ & fs & _ & _ & Ha). eapply apply_frames_increasing; [|done]. constructor.
Qed.

Lemma file_matches_load rt d st :
  file_matches rt d st → load_entries (content d) = Ok (entries st).
Proof.
  intros (_ & _ & _ & fs & Hfs & -> & Ha). by apply load_entries_frames.
Qed.

Lemma frames_bytes_snoc fs f : frames_bytes (fs ++ [f]) = frames_bytes fs ++ frame_bytes f.
Proof.
  unfold frames_bytes. rewrite bind_app. cbn [mbind list_bind]. by rewrite app_nil_r.
Qed.

(** The step of the refinement: one group commit on a device with room. *)
Lemma commit_room env rt d st reqs :
  file_matches rt d st → closed st = false → reqs ≠ [] → Forall request_wf reqs →
  frame_fits (group_frame reqs) → length (frame_bytes (group_frame reqs)) ≤ free d →
  strictly_increasing (entries st ++ (reqs ≫= req_entries)) → sync_ok env = true →
  ∃ rt' d', let st' := mkCommitted (entries st ++ (reqs ≫= req_entries)) false in
    commit_append_group env rt d st reqs = (rt', d', st', Ok tt) ∧ file_matches rt' d' st' ∧
    free d' + length (frame_bytes (group_frame reqs)) = free d.
Proof.
  intros Hm Hcl Hne Hwf Hfit Hroom Hinc Hsync.
  pose proof (file_matches_increasing _ _ _ Hm) as Hes.
  destruct Hm as (Hbuf & Hatt & Hdur & fs & Hfs & Hcont & Happ).
  pose proof (proj2 (validate_requests_spec _ _ Hes Hwf) Hinc) as Hval.
  pose proof (apply_group_frame _ _ Hne Hes Hwf Hval) as Hgrp.
  unfold commit_append_group. destruct reqs as [|r reqs]; [done|].
  rewrite Hcl, Hval.
  destruct (write_and_sync_room env rt d (group_frame (r :: reqs)) Hatt Hbuf Hroom)
    as (rt1 & d1 & -> & Ha1 & Hb1 & Hd1 & _ & Hc1 & Hfr).
  rewrite Hsync. eexists _, _. split; [done|].
  split; [|rewrite Hc1, length_app in Hfr; lia].
  split_and!; try done.
  { cbn [durable_len]. rewrite Hc1, length_app, Hdur, frame_bytes_length. done. }
  exists (fs ++ [group_frame (r :: reqs)]). split_and!.
  - apply Forall_app. split; [done|]. by apply Forall_singleton.
  - by rewrite Hc1, Hcont, frames_bytes_snoc.
  - unfold apply_frames in *. rewrite try_fold_app, Happ. cbn [rbind try_fold].
    rewrite Hgrp. done.
Qed.

(** *** Rewriting *)

Lemma concat_entry_frames es :
  concat ((λ e, frame_bytes (FEntry e)) <$> es) = frames_bytes (FEntry <$> es).
Proof.
  unfold frames_bytes. induction es as [|e es IH]; [done|].
  rewrite !fmap_cons. cbn [concat mbind list_bind]. by rewrite IH.
Qed.

Lemma apply_entry_frames es0 es :
  strictly_increasing (es0 ++ es) → apply_frames es0 (FEntry <$> es) = Ok (es0 ++ es).
Proof.
  revert es0. induction es as [|e es IH]; intros es0 Hinc.
  { unfold apply_frames. simpl. by rewrite app_nil_r. }
  rewrite cons_middle, app_assoc in Hinc.
  rewrite fmap_cons. unfold apply_frames. cbn [try_fold apply_frame_to_entries].
  assert (strictly_increasing (es0 ++ [e])) as Hpre.
  { by apply strictly_increasing_app in Hinc as [? _]. }
  assert (strictly_increasing es0) as Hes0.
  { by apply strictly_increasing_app in Hpre as [? _]. }
  rewrite (proj2 (validate_batch_app es0 [e] Hes0) Hpre).
  cbn [rbind]. fold (apply_frames (es0 ++ [e]) (FEntry <$> es)).
  rewrite IH by done. by rewrite <-app_assoc.
Qed.

(** A rewrite with room leaves a file of one frame per entry. *)
Lemma rewrite_room env d es :
  sync_ok env = true → length (frames_bytes (FEntry <$> es)) ≤ free d →
  ∃ d', rewrite env d es = (d', Ok tt) ∧ content d' = frames_bytes (FEntry <$> es).
Proof.
  intros Hs Hroom. unfold rewrite. rewrite concat_entry_frames, Hs.
  rewrite (proj2 (Nat.leb_le _ _)) by lia. eauto.
Qed.

Lemma rewrite_matches env d es d' rt st :
  rewrite env d es = (d', Ok tt) → content d' = frames_bytes (FEntry <$> es) →
  strictly_increasing es → Forall (λ e, frame_fits (FEntry e)) es →
  reopen_writer_runtime env d' = Some rt → entries st = es →
  file_matches rt d' st.
Proof.
  intros _ Hc Hinc Hfit Hre Hst. unfold reopen_writer_runtime in Hre. case_match; [|done].
  simplify_eq. split_and!; [done..|].
  exists (FEntry <$> entries st). split_and!; [by apply Forall_fmap | done |].
  by apply (apply_entry_frames []).
Qed.

(** ** Properties *)

(** Reading back a file of complete frames gives exactly the entries the
    frames hold, in order, reports no torn tail and counts every byte as
    durable. *)
Theorem aof_load_complete (fs : list AofFrame) (es : list StorageEntry)
    (Hfit : Forall frame_fits fs) (Happ : apply_frames [] fs = Ok es) :
  ∃ report, load_entries_with_report (frames_bytes fs) = Ok (es, report) ∧
    durable_prefix_bytes report = total_bytes report ∧ truncated_tail report = false ∧
    entry_count report = length es ∧ report_last_sequence report = last_seq_of es.
Proof.
  unfold load_entries_with_report. rewrite (load_frames_ok fs es) by done.
  eexists. split; [done|]. done.
Qed.

(** C18: when the last frame is torn (any non-empty strict prefix of it is on
    disk), the loader keeps all entries of the complete frames, takes none of
    the torn frame's entries even when it is a batch or a group, and reports
    the torn tail and the length of the durable prefix. *)
Theorem aof_load_torn_tail (fs : list AofFrame) (f : AofFrame) (es : list StorageEntry)
    (n : nat) (Hfit : Forall frame_fits fs) (Hf : frame_fits f)
    (Happ : apply_frames [] fs = Ok es) (Hn : 0 < n < length (frame_bytes f)) :
  ∃ report,
    load_entries_with_report (frames_bytes fs ++ take n (frame_bytes f)) = Ok (es, report) ∧
    truncated_tail report = true ∧ durable_prefix_bytes report = length (frames_bytes fs).
Proof.
  unfold load_entries_with_report.
  rewrite (load_loop_frames fs _ [] es 0) by done.
  rewrite (load_loop_torn f _ n) by done.
  eexists. split; [done|]. done.
Qed.

(** C16: a group commit refines appending to the committed log.  When the
    writer is open and its file matches the committed log, the group is not
    empty and each of its requests is well-formed, all the sequences continue
    the log in strictly increasing order, the frame fits its length field and
    the device has room for it, and [fsync] succeeds, then the commit
    succeeds, the committed log grows by exactly the entries of the requests,
    the file still matches the committed log, and a process that reopens the
    file reads back exactly that log. *)
Theorem aof_commit_durable (env : IoEnv) (rt : WriterRuntime) (d : Disk) (st : CommittedState)
    (reqs : list AppendRequest)
    (Hm : file_matches rt d st) (Hopen : closed st = false) (Hne : reqs ≠ [])
    (Hwf : Forall request_wf reqs) (Hfit : frame_fits (group_frame reqs))
    (Hroom : length (frame_bytes (group_frame reqs)) ≤ free d)
    (Hinc : strictly_increasing (entries st ++ (reqs ≫= req_entries)))
    (Hsync : sync_ok env = true) :
  ∃ rt' d', commit_append_group env rt d st reqs =
      (rt', d', mkCommitted (entries st ++ (reqs ≫= req_entries)) false, Ok tt) ∧
    file_matches rt' d' (mkCommitted (entries st ++ (reqs ≫= req_entries)) false) ∧
    load_entries (content d') = Ok (entries st ++ (reqs ≫= req_entries)).
Proof.
  destruct (commit_room env rt d st reqs) as (rt' & d' & Hc & Hm' & _); [done..|].
  exists rt', d'. split_and!; [done..|]. by apply file_matches_load in Hm'.
Qed.

(** C17: when the writer's file matches the committed log, the group is one
    that would be committed and the device has room, but [fsync] fails while
    cutting the file back and reopening it succeed, the group is refused as a
    whole with the error of [fsync], the committed log is unchanged, and the
    rollback restores the file byte for byte, so that the writer goes on from
    a matching file. *)
Theorem aof_failed_sync_rolls_back (rt : WriterRuntime) (d : Disk) (st : CommittedState)
    (reqs : list AppendRequest)
    (Hm : file_matches rt d st) (Hopen : closed st = false) (Hne : reqs ≠ [])
    (Hwf : Forall request_wf reqs)
    (Hroom : length (frame_bytes (group_frame reqs)) ≤ free d)
    (Hinc : strictly_increasing (entries st ++ (reqs ≫= req_entries))) :
  ∃ rt' d', commit_append_group (mkEnv false true true) rt d st reqs = (rt', d', st, Err eio) ∧
    content d' = content d ∧ file_matches rt' d' st.
Proof.
  pose proof (file_matches_increasing _ _ _ Hm) as Hes.
  destruct Hm as (Hbuf & Hatt & Hdur & Hfs).
  pose proof (proj2 (validate_requests_spec _ _ Hes Hwf) Hinc) as Hval.
  unfold commit_append_group. destruct reqs as [|r reqs]; [done|].
  rewrite Hopen, Hval.
  destruct (write_and_sync_room (mkEnv false true true) rt d (group_frame (r :: reqs)) Hatt Hbuf
              Hroom) as (rt1 & d1 & -> & Ha1 & Hb1 & _ & _ & Hc1 & _).
  cbn [sync_ok]. unfold reopen_writer_runtime, rollback_file. cbn [reopen_ok rollback_ok].
  unfold drop_writer. rewrite flush_buf_room by (rewrite ?Hb1; simpl; done || lia).
  assert (content (set_len d1 (durable_len rt)) = content d) as Hset.
  { unfold set_len. cbn [content]. rewrite Hc1, Hdur, take_app_length, length_app.
    replace (length (content d) - _) with 0 by lia. by rewrite app_nil_r. }
  eexists _, _. split; [done|]. cbn [fst snd content].
  rewrite Hset, Hb1, app_nil_r. split; [done|].
  split_and!; [done..|]. done.
Qed.

(** The requests committed one by one, stopping at the first failure. *)
Fixpoint commit_each (env : IoEnv) (rt : WriterRuntime) (d : Disk) (st : CommittedState)
    (reqs : list AppendRequest)
    : WriterRuntime * Disk * CommittedState * result unit StorageError :=
  match reqs with
  | [] => (rt, d, st, Ok tt)
  | r :: rest =>
      match commit_append_group env rt d st [r] with
      | (rt1, d1, st1, Ok _) => commit_each env rt1 d1 st1 rest
      | failed => failed
      end
  end.

Lemma commit_each_room env rt d st reqs :
  file_matches rt d st → closed st = false → Forall request_wf reqs →
  Forall (λ r, frame_fits (req_frame r)) reqs →
  length (frames_bytes (req_frame <$> reqs)) ≤ free d →
  strictly_increasing (entries st ++ (reqs ≫= req_entries)) → sync_ok env = true →
  ∃ rt' d', let st' := mkCommitted (entries st ++ (reqs ≫= req_entries)) false in
    commit_each env rt d st reqs = (rt', d', st', Ok tt) ∧ file_matches rt' d' st'.
Proof.
  intros Hm Hcl Hwf Hfits Hroom Hinc Hsync. revert rt d st Hm Hcl Hroom Hinc.
  induction reqs as [|r reqs IH]; intros rt d st Hm Hcl Hroom Hinc.
  { exists rt, d. cbn [commit_each mbind list_bind]. rewrite app_nil_r.
    destruct st as [es cl]. simpl in Hcl. by subst. }
  apply Forall_cons in Hwf as [Hr Hwf]. apply Forall_cons in Hfits as [Hf Hfits].
  rewrite fmap_cons in Hroom. unfold frames_bytes in Hroom. cbn [mbind list_bind] in *.
  rewrite length_app in Hroom. rewrite app_assoc in *.
  assert (Hinc1 := Hinc). apply strictly_increasing_app in Hinc1 as [Hinc1 _].
  destruct (commit_room env rt d st [r]) as (rt1 & d1 & Hc & Hm1 & Hfr); try done.
  { by apply Forall_singleton. }
  { cbn [group_frame]. lia. }
  { cbn [mbind list_bind]. by rewrite app_nil_r. }
  cbn [commit_each]. cbv zeta in Hc. rewrite Hc. cbn [mbind list_bind] in *.
  rewrite app_nil_r in *. cbn [group_frame] in Hfr.
  apply (IH Hwf Hfits rt1 d1 _ Hm1); [done | | done]. unfold frames_bytes. cbn. lia.
Qed.

(** For requests that are valid in order, one group commit and the same
    requests committed one by one end with the same committed log, and both
    files reload to it: sharing a flush changes nothing that can be observed. *)
Theorem aof_group_commit_equals_each (env : IoEnv) (rt : WriterRuntime) (d : Disk)
    (st : CommittedState) (reqs : list AppendRequest)
    (Hm : file_matches rt d st) (Hopen : closed st = false) (Hne : reqs ≠ [])
    (Hwf : Forall request_wf reqs) (Hfit : frame_fits (group_frame reqs))
    (Hfits : Forall (λ r, frame_fits (req_frame r)) reqs)
    (Hroom : length (frame_bytes (group_frame reqs)) ≤ free d)
    (Hroom1 : length (frames_bytes (req_frame <$> reqs)) ≤ free d)
    (Hinc : strictly_increasing (entries st ++ (reqs ≫= req_entries)))
    (Hsync : sync_ok env = true) :
  ∃ rt1 d1 rt2 d2 st',
    commit_append_group env rt d st reqs = (rt1, d1, st', Ok tt) ∧
    commit_each env rt d st reqs = (rt2, d2, st', Ok tt) ∧
    load_entries (content d1) = Ok (entries st') ∧ load_entries (content d2) = Ok (entries st').
Proof.
  destruct (commit_room env rt d st reqs) as (rt1 & d1 & Hc1 & Hm1 & _); [done..|].
  destruct (commit_each_room env rt d st reqs) as (rt2 & d2 & Hc2 & Hm2); [done..|].
  eexists rt1, d1, rt2, d2, _. split_and!; [done..| |]; eauto using file_matches_load.
Qed.

(** A compaction on a device with room keeps the committed log, and leaves
    a matching file that holds one frame per entry and reloads to the log. *)
Theorem aof_compact_preserves (env : IoEnv) (rt : WriterRuntime) (d : Disk)
    (st : CommittedState)
    (Hinc : strictly_increasing (entries st))
    (Hfit : Forall (λ e, frame_fits (FEntry e)) (entries st))
    (Hroom : length (frames_bytes (FEntry <$> entries st)) ≤ free d)
    (Hsync : sync_ok env = true) (Hre : reopen_ok env = true) :
  ∃ rt' d' r, execute_compact env rt d st = (rt', d', st, Ok r) ∧
    before_entries r = after_entries r ∧ file_matches rt' d' st ∧
    load_entries (content d') = Ok (entries st).
Proof.
  destruct (rewrite_room env d (entries st) Hsync Hroom) as (d' & Hrw & Hc).
  assert (reopen_writer_runtime env d' = Some (mkRuntime [] true (length (content d')))) as Hreo.
  { unfold reopen_writer_runtime. by rewrite Hre. }
  assert (file_matches (mkRuntime [] true (length (content d'))) d' st) as Hm'
    by (eapply rewrite_matches; done).
  unfold execute_compact. rewrite Hrw, Hreo. eexists _, _, _.
  split_and!; [done..|]. by apply file_matches_load in Hm'.
Qed.

(** Restoring a backup of a file that loads without error gives a file
    that loads to the same entries, whatever the destination held. *)
Theorem aof_backup_restore_roundtrip (d : Disk) (source : list byte) (es : list StorageEntry)
    (exists_ : bool) (b : AofBackupFile)
    (Hload : load_entries source = Ok es) (Hinc : strictly_increasing es)
    (Hfit : Forall (λ e, frame_fits (FEntry e)) es)
    (Hroom : length (frames_bytes (FEntry <$> es)) ≤ free d)
    (Hbackup : backup_aof source = Ok b) :
  ∃ d' report, restore_aof env_ok d exists_ true b = (d', Ok report) ∧
    entry_count report = length es ∧ load_entries (content d') = Ok es.
Proof.
  unfold backup_aof in Hbackup. apply rbind_Ok_inv in Hbackup as ([es' report] & Hrep & Hb).
  unfold load_entries in Hload. rewrite Hrep in Hload. simpl in Hload. simplify_eq.
  assert (entry_count report = length es ∧
          report_checksum_hex report = checksum_hex (checksum_entries es)) as [Hcnt Hsum].
  { unfold load_entries_with_report in Hrep.
    apply rbind_Ok_inv in Hrep as ([[es1 dur] tr] & _ & Hrep). by simplify_eq. }
  destruct (rewrite_room env_ok d es eq_refl Hroom) as (d' & Hrw & Hc).
  assert (Hld : load_entries_with_report (content d') =
    Ok (es, {| entry_count := length es; first_sequence := sequence <$> head es;
               report_last_sequence := from_option sequence 0%Z (last es);
               durable_prefix_bytes := length (content d');
               total_bytes := length (content d'); truncated_tail := false;
               report_checksum_hex := checksum_hex (checksum_entries es) |})).
  { unfold load_entries_with_report. rewrite Hc.
    rewrite (load_frames_ok (FEntry <$> es) es); [done | by apply Forall_fmap |].
    by apply (apply_entry_frames []). }
  unfold restore_aof. rewrite andb_false_r. cbn [backup_format backup_entries
    backup_checksum_hex backup_entry_count]. rewrite Hcnt, Hsum, !String.eqb_refl. cbn [negb].
  rewrite (proj2 (assert_strictly_increasing_spec es) Hinc), Hrw.
  unfold verify_aof, load_entries. rewrite Hld. cbn [rmap snd fst report_checksum_hex entry_count].
  rewrite String.eqb_refl, Nat.eqb_refl. cbn [negb orb]. eexists _, _. split; [done|].
  rewrite Hld. done.
Qed.

(** ** The backend discharges the storage contract *)

Lemma commit_single_cases env rt d st r rt' d' st' res :
  strictly_increasing (entries st) → request_wf r →
  commit_append_group env rt d st [r] = (rt', d', st', res) →
  (∃ e, res = Err e ∧ st' = st) ∨
  (res = Ok tt ∧ entries st' = entries st ++ req_entries r ∧ strictly_increasing (entries st')).
Proof.
  intros Hes Hwf. unfold commit_append_group. destruct (closed st); [intros; simplify_eq; eauto|].
  destruct (validate_requests (last (entries st)) [r]) as [[]|e] eqn:Hv;
    [|intros; simplify_eq; eauto].
  apply validate_requests_spec in Hv; [|done|by apply Forall_singleton].
  cbn [mbind list_bind] in *. rewrite app_nil_r in Hv |- *.
  destruct (write_and_sync_frame env rt d (group_frame [r])) as [[rt1 d1] [[]|e]].
  - intros. simplify_eq. right. done.
  - destruct (reopen_writer_runtime env _); intros; simplify_eq; eauto.
Qed.

Lemma append_batch_cases b es b' res :
  strictly_increasing (entries (w_committed (aof_writer b))) →
  aof_append_batch b es = (b', res) →
  (∃ e, res = Err e ∧ w_committed (aof_writer b') = w_committed (aof_writer b)) ∨
  (res = Ok tt ∧ strictly_increasing (entries (w_committed (aof_writer b'))) ∧
   entries (w_committed (aof_writer b')) = entries (w_committed (aof_writer b)) ++ es).
Proof.
  intros Hes. unfold aof_append_batch. destruct es as [|x es].
  { intros. simplify_eq. right. by rewrite app_nil_r. }
  destruct (assert_strictly_increasing (x :: es)); [|intros; simplify_eq; eauto].
  unfold submit_append. destruct (handle_closed b); [intros; simplify_eq; eauto|].
  destruct (commit_append_group _ _ _ _ _) as [[[rt d] st] r] eqn:Hc.
  intros. simplify_eq. apply commit_single_cases in Hc; [|done|by right].
  cbn [aof_writer w_committed req_entries] in *. naive_solver.
Qed.

Lemma snapshot_cases b es b' res :
  aof_snapshot b es = (b', res) →
  (∃ e, res = Err e ∧ w_committed (aof_writer b') = w_committed (aof_writer b)) ∨
  (res = Ok tt ∧ entries (w_committed (aof_writer b')) = es ∧ strictly_increasing es).
Proof.
  unfold aof_snapshot, execute_snapshot.
  destruct (assert_strictly_increasing es) as [[]|] eqn:Ha; [|intros; simplify_eq; eauto].
  apply assert_strictly_increasing_spec in Ha.
  destruct (handle_closed b); [intros; simplify_eq; eauto|].
  destruct (rewrite _ _ _) as [d1 [[]|e]]; [|intros; simplify_eq; eauto].
  destruct (reopen_writer_runtime _ _); [|intros; simplify_eq; eauto].
  destruct (closed _); intros; simplify_eq; eauto.
Qed.

#[export] Instance aof_laws : StorageLaws AofBackend.
Proof.
  refine {| committed b := entries (w_committed (aof_writer b));
            storage_inv b := strictly_increasing (entries (w_committed (aof_writer b))) |}.
  - done.
  - intros b es b' Hb Ha. apply append_batch_cases in Ha as [(e & ? & _)|(_ & ? & ?)]; done.
  - intros b es b' e Hb Ha. apply append_batch_cases in Ha as [(e' & _ & Heq)|(? & _)]; [|done..].
    by rewrite Heq.
  - done.
  - intros b es b' Hb Ha. apply snapshot_cases in Ha as [(e & ? & _)|(_ & Heq & ?)]; [done|].
    by rewrite Heq.
  - intros b es b' e Hb Ha. apply snapshot_cases in Ha as [(e' & _ & Heq)|(? & _)]; [|done].
    by rewrite Heq.
  - done.
  - done.
Defined.
End Durability.

(** ** Concrete files *)
Module AofExamples.
Import Bincode.

Definition entry_n (n : Z) : StorageEntry := mkEntry n 0 [Byte.x41].
Definition req_n (n : Z) : AppendRequest := mkRequest (FEntry (entry_n n)) [entry_n n].

Definition disk0 : Disk := mkDisk [] [] 1000.
Definition rt0 : WriterRuntime := mkRuntime [] true 0.
Definition st0 : CommittedState := mkCommitted [] false.

Ltac fits := vm_compute; intuition congruence.

(** Proves [Forall P l] on a concrete list, each element with [tac]. *)
Ltac each tac := repeat first [apply Forall_nil_2 | apply Forall_cons_2; [solve [tac]|]].

Lemma fits_1 : frame_fits (FEntry (entry_n 1)).
Proof. fits. Qed.
Lemma fits_2 : frame_fits (FEntry (entry_n 2)).
Proof. fits. Qed.
Lemma fits_12 : frame_fits (group_frame [req_n 1; req_n 2]).
Proof. fits. Qed.

Lemma wf_n n : request_wf (req_n n).
Proof. left. eauto. Qed.

Lemma match0 : file_matches rt0 disk0 st0.
Proof. split_and!; [done..|]. exists []. done. Qed.

Lemma inc_12 : strictly_increasing [entry_n 1; entry_n 2].
Proof. repeat constructor. Qed.

Lemma aof_load_complete_witness :
  ∃ report, load_entries_with_report (frames_bytes [FEntry (entry_n 1); FEntry (entry_n 2)]) =
      Ok ([entry_n 1; entry_n 2], report) ∧
    durable_prefix_bytes report = total_bytes report ∧ truncated_tail report = false ∧
    entry_count report = 2 ∧ report_last_sequence report = last_seq_of [entry_n 1; entry_n 2].
Proof.
  apply (aof_load_complete [FEntry (entry_n 1); FEntry (entry_n 2)] [entry_n 1; entry_n 2]).
  - each ltac:(apply fits_1 || apply fits_2).
  - reflexivity.
Defined.

Lemma aof_load_torn_tail_witness :
  ∃ report,
    load_entries_with_report
      (frames_bytes [FEntry (entry_n 1)] ++ take 10 (frame_bytes (FEntry (entry_n 2)))) =
      Ok ([entry_n 1], report) ∧
    truncated_tail report = true ∧
    durable_prefix_bytes report = length (frames_bytes [FEntry (entry_n 1)]).
Proof.
  apply (aof_load_torn_tail [FEntry (entry_n 1)] (FEntry (entry_n 2)) [entry_n 1] 10).
  - each ltac:(apply fits_1).
  - apply fits_2.
  - reflexivity.
  - vm_compute. lia.
Defined.

Lemma aof_commit_durable_witness :
  ∃ rt' d', commit_append_group env_ok rt0 disk0 st0 [req_n 1; req_n 2] =
      (rt', d', mkCommitted [entry_n 1; entry_n 2] false, Ok tt) ∧
    file_matches rt' d' (mkCommitted [entry_n 1; entry_n 2] false) ∧
    load_entries (content d') = Ok [entry_n 1; entry_n 2].
Proof.
  apply (aof_commit_durable env_ok rt0 disk0 st0 [req_n 1; req_n 2]);
    [apply match0 | done | done | each ltac:(apply wf_n) | apply fits_12
    | vm_compute; lia | apply inc_12 | done].
Defined.

Lemma aof_failed_sync_rolls_back_witness :
  ∃ rt' d', commit_append_group (mkEnv false true true) rt0 disk0 st0 [req_n 1] =
      (rt', d', st0, Err eio) ∧ content d' = content disk0 ∧ file_matches rt' d' st0.
Proof.
  apply (aof_failed_sync_rolls_back rt0 disk0 st0 [req_n 1]);
    [apply match0 | done | done | each ltac:(apply wf_n) | vm_compute; lia |].
  repeat constructor.
Defined.

Lemma aof_group_commit_equals_each_witness :
  ∃ rt1 d1 rt2 d2 st',
    commit_append_group env_ok rt0 disk0 st0 [req_n 1; req_n 2] = (rt1, d1, st', Ok tt) ∧
    commit_each env_ok rt0 disk0 st0 [req_n 1; req_n 2] = (rt2, d2, st', Ok tt) ∧
    load_entries (content d1) = Ok (entries st') ∧ load_entries (content d2) = Ok (entries st').
Proof.
  apply (aof_group_commit_equals_each env_ok rt0 disk0 st0 [req_n 1; req_n 2]);
    [apply match0 | done | done | each ltac:(apply wf_n) | apply fits_12
    | each ltac:(apply fits_1 || apply fits_2)
    | vm_compute; lia | vm_compute; lia | apply inc_12 | done].
Defined.

Lemma aof_compact_preserves_witness :
  ∃ rt' d' r, execute_compact env_ok rt0 disk0 (mkCommitted [entry_n 1] false) =
      (rt', d', mkCommitted [entry_n 1] false, Ok r) ∧
    before_entries r = after_entries r ∧
    file_matches rt' d' (mkCommitted [entry_n 1] false) ∧
    load_entries (content d') = Ok [entry_n 1].
Proof.
  apply (aof_compact_preserves env_ok rt0 disk0 (mkCommitted [entry_n 1] false));
    [repeat constructor | each ltac:(apply fits_1) | vm_compute; lia | done | done].
Defined.

Lemma aof_backup_restore_roundtrip_witness :
  ∃ b d' report,
    backup_aof (frames_bytes [FEntry (entry_n 1); FEntry (entry_n 2)]) = Ok b ∧
    restore_aof env_ok disk0 false true b = (d', Ok report) ∧
    entry_count report = 2 ∧ load_entries (content d') = Ok [entry_n 1; entry_n 2].
Proof.
  eexists. 
  edestruct (aof_backup_restore_roundtrip disk0
    (frames_bytes [FEntry (entry_n 1); FEntry (entry_n 2)]) [entry_n 1; entry_n 2] false)
    as (d' & report & H1 & H2 & H3);
    [reflexivity | apply inc_12 | each ltac:(apply fits_1 || apply fits_2)
    | vm_compute; lia | reflexivity |].
  exists d', report. split_and!; [reflexivity | exact H1 | exact H2 | exact H3].
Defined.

(** Opening a file does not cut a torn tail.  A process that reopens a file
    with one complete frame and a torn second one, and then appends entry 2,
    is told the append succeeded; the next process that opens the file does
    not see the acknowledged entry. *)
Theorem aof_append_after_torn_tail_lost :
  ∃ rt st rt' d',
    let torn := mkDisk (frame_bytes (FEntry (entry_n 1)) ++
                        take 20 (frame_bytes (FEntry (entry_n 2)))) [] 1000 in
    open_aof torn = Ok (rt, st) ∧
    commit_append_group env_ok rt torn st [req_n 2] =
      (rt', d', mkCommitted [entry_n 1; entry_n 2] false, Ok tt) ∧
    load_entries (content d') ≠ Ok [entry_n 1; entry_n 2].
Proof. eexists _, _, _, _. cbv zeta. split_and!; [vm_compute; reflexivity..|vm_compute; discriminate]. Qed.

(** When the device fills up while a group is being flushed, the rollback
    cuts the file, and dropping the old buffered writer then writes the rest
    of the refused group after the cut.  The next append is acknowledged and
    the file no longer loads to the committed log. *)
Theorem aof_enospc_rollback_leaves_garbage :
  ∃ rt1 d1 rt2 d2,
    let tight := mkDisk [] [] 20 in
    commit_append_group env_ok rt0 tight st0 [req_n 1] = (rt1, d1, st0, Err enospc) ∧
    content d1 ≠ [] ∧
    commit_append_group env_ok rt1 (mkDisk (content d1) [] 1000) st0 [req_n 1] =
      (rt2, d2, mkCommitted [entry_n 1] false, Ok tt) ∧
    load_entries (content d2) ≠ Ok [entry_n 1].
Proof. eexists _, _, _, _. cbv zeta. split_and!; [vm_compute; reflexivity|vm_compute; discriminate|vm_compute; reflexivity|vm_compute; discriminate]. Qed.

(** One request that regresses makes every request of its commit cycle
    fail, requests included that would have been committed on their own. *)
Theorem aof_group_commit_shares_failure :
  commit_append_group env_ok rt0 disk0 st0 [req_n 2; req_n 1] =
    (rt0, disk0, st0, Err (SequenceRegression 3 1)) ∧
  (commit_append_group env_ok rt0 disk0 st0 [req_n 2]).2 = Ok tt.
Proof. split; vm_compute; reflexivity. Qed.

End AofExamples.
