(* ===== verification/F64.v ===== *)
(** * Double-precision numbers

    Rust's [f64] as the IEEE binary64 numbers of the Standard Library's
    [SpecFloat] (all NaNs are one value): arithmetic with round-to-nearest,
    the partial comparisons of [<] and [<=], [min] and [max], the total order
    of [total_cmp], [str::parse::<f64>] and [f64::to_string].  The functions of
    the platform's mathematical library are a parameter, [Libm]. *)

From Stdlib Require Import ZArith Lia SpecFloat Ascii.
From stdpp Require Import base gmap strings list pretty.
From S2P Require Import Prelude.

Abbreviation f64 := spec_float.
Definition prec : Z := 53.
Definition emax : Z := 1024.

Declare Scope f64_scope.
Delimit Scope f64_scope with F.

Definition fadd : f64 → f64 → f64 := SFadd prec emax.
Definition fsub : f64 → f64 → f64 := SFsub prec emax.
Definition fmul : f64 → f64 → f64 := SFmul prec emax.
Definition fdiv : f64 → f64 → f64 := SFdiv prec emax.
Definition fsqrt : f64 → f64 := SFsqrt prec emax.

Notation "a + b" := (fadd a b) : f64_scope.
Notation "a - b" := (fsub a b) : f64_scope.
Notation "a * b" := (fmul a b) : f64_scope.
Notation "a / b" := (fdiv a b) : f64_scope.
Notation "a <=? b" := (SFleb a b) : f64_scope.
Notation "a <? b" := (SFltb a b) : f64_scope.
Notation "a =? b" := (SFeqb a b) : f64_scope.

(** An integer as a float ([as f64]) and a decimal [m * 10^e] rounded to
    nearest, as a literal or [parse] gives it. *)
Definition f64_of_Z (z : Z) : f64 := binary_normalize prec emax z 0 false.

Definition f64_of_ratio (n d : positive) : f64 :=
  let '(q, e, loc) := SFdiv_core_binary prec emax (Zpos n) 0 (Zpos d) 0 in
  binary_round_aux prec emax false q e loc.

Definition f64_of_decimal (m : Z) (e : Z) : f64 :=
  match m with
  | Z0 => S754_zero false
  | Zpos p =>
      if (0 <=? e)%Z then f64_of_Z (m * 10 ^ e)
      else f64_of_ratio p (Z.to_pos (10 ^ (- e)))
  | Zneg p =>
      SFopp (if (0 <=? e)%Z then f64_of_Z (Zpos p * 10 ^ e)
             else f64_of_ratio p (Z.to_pos (10 ^ (- e))))
  end.

Definition fzero : f64 := S754_zero false.
Definition PI : f64 := S754_finite false 7074237752028440 (-51).

Definition is_nan (x : f64) : bool := match x with S754_nan => true | _ => false end.
Definition is_finite (x : f64) : bool :=
  match x with S754_nan | S754_infinity _ => false | _ => true end.

(** [f64::min] and [f64::max]: a NaN operand gives the other one. *)
Definition fmin (a b : f64) : f64 :=
  if is_nan a then b else if is_nan b then a else if SFltb b a then b else a.
Definition fmax (a b : f64) : f64 :=
  if is_nan a then b else if is_nan b then a else if SFltb a b then b else a.
Definition fabs : f64 → f64 := SFabs.

(** [(lo..=hi).contains(&x)]. *)
Definition in_range (lo hi x : f64) : bool := SFleb lo x && SFleb x hi.

(** [f64::to_radians] and [f64::to_degrees]. *)
Definition to_radians (x : f64) : f64 := fmul x (fdiv PI (f64_of_Z 180)).
Definition to_degrees (x : f64) : f64 := fmul x (fdiv (f64_of_Z 180) PI).

(** The mathematical library: [sin], [cos], [asin], [atan], [atan2], [sinh]
    and the remainder [%], whose precision Rust leaves to the platform. *)
Class Libm := {
  fsin : f64 → f64;
  fcos : f64 → f64;
  fasin : f64 → f64;
  fatan : f64 → f64;
  fatan2 : f64 → f64 → f64;
  fsinh : f64 → f64;
  frem : f64 → f64 → f64;
  frem_euclid : f64 → f64 → f64
}.

(** [f64::total_cmp] on keys: [-0.0] before [0.0], the NaN last. *)
Definition total_cmp (a b : f64) : comparison :=
  match a, b with
  | S754_nan, S754_nan => Eq
  | S754_nan, _ => Gt
  | _, S754_nan => Lt
  | S754_zero true, S754_zero false => Lt
  | S754_zero false, S754_zero true => Gt
  | _, _ => default Eq (SFcompare a b)
  end.

Definition total_le (a b : f64) : bool :=
  match total_cmp a b with Gt => false | _ => true end.

#[export] Instance f64_eq_dec : EqDecision f64.
Proof. intros x y. unfold Decision. decide equality; solve_decision. Defined.

#[export] Instance f64_countable : Countable f64.
Proof.
  apply (inj_countable'
    (λ x, match x with
          | S754_zero s => inl s
          | S754_infinity s => inr (inl s)
          | S754_nan => inr (inr None)
          | S754_finite s m e => inr (inr (Some (s, m, e)))
          end)
    (λ y : bool + (bool + option (bool * positive * Z)), match y with
          | inl s => S754_zero s
          | inr (inl s) => S754_infinity s
          | inr (inr None) => S754_nan
          | inr (inr (Some (s, m, e))) => S754_finite s m e
          end)).
  by intros [].
Defined.

(** ** Text *)

Definition is_digit (c : Ascii.ascii) : bool :=
  let n := Ascii.N_of_ascii c in (48 <=? n)%N && (n <=? 57)%N.
Definition digit_value (c : Ascii.ascii) : Z := Z.of_N (Ascii.N_of_ascii c) - 48.

(** The leading digits of a string: their value, how many, and the rest. *)
Fixpoint take_digits (acc : Z) (count : nat) (s : string) : Z * nat * string :=
  match s with
  | String c rest =>
      if is_digit c then take_digits (acc * 10 + digit_value c) (S count) rest
      else (acc, count, s)
  | EmptyString => (acc, count, EmptyString)
  end.

Definition to_ascii_lower (c : Ascii.ascii) : Ascii.ascii :=
  let n := Ascii.N_of_ascii c in
  if (65 <=? n)%N && (n <=? 90)%N then Ascii.ascii_of_N (n + 32) else c.

Fixpoint to_ascii_lowercase (s : string) : string :=
  match s with
  | EmptyString => EmptyString
  | String c rest => String (to_ascii_lower c) (to_ascii_lowercase rest)
  end.

Definition strip_sign (s : string) : bool * string :=
  match s with
  | String "-"%char rest => (true, rest)
  | String "+"%char rest => (false, rest)
  | _ => (false, s)
  end.

(** The optional exponent that ends a number. *)
Definition parse_exponent (s : string) : option Z :=
  match s with
  | EmptyString => Some 0%Z
  | String c rest =>
      if Ascii.eqb (to_ascii_lower c) "e" then
        let '(neg, rest) := strip_sign rest in
        match take_digits 0 0 rest with
        | (_, 0, _) => None
        | (n, _, EmptyString) => Some (if neg then - n else n)%Z
        | _ => None
        end
      else None
  end.

(** [m * 10^e] where the exponent may be far out of range; [digits] is the
    number of digits read for [m]. *)
Definition decimal_value (m : Z) (digits : nat) (e : Z) : f64 :=
  if (m =? 0)%Z then fzero
  else if (400 <? e + Z.of_nat digits)%Z then S754_infinity false
  else if (e + Z.of_nat digits <? -400)%Z then fzero
  else f64_of_decimal m e.

Definition parse_unsigned (s : string) : option f64 :=
  let '(int, n1, rest) := take_digits 0 0 s in
  let '(m, n2, rest) :=
    match rest with
    | String "."%char frac => take_digits int 0 frac
    | _ => (int, 0, rest)
    end in
  if (n1 + n2 =? 0)%nat then None
  else e ← parse_exponent rest; Some (decimal_value m (n1 + n2) (e - Z.of_nat n2)).

Definition signed (neg : bool) (x : f64) : f64 := if neg then SFopp x else x.

(** [str::parse::<f64>().ok()]. *)
Definition parse_f64 (s : string) : option f64 :=
  let '(neg, rest) := strip_sign s in
  let low := to_ascii_lowercase rest in
  if String.eqb low "inf" || String.eqb low "infinity"
  then Some (S754_infinity neg)
  else if String.eqb low "nan" then Some S754_nan
  else signed neg <$> parse_unsigned rest.

(** [str::parse::<usize>().ok()]: an optional [+], digits, no overflow. *)
Definition parse_usize (s : string) : option nat :=
  let s := match s with String "+"%char rest => rest | _ => s end in
  match take_digits 0 0 s with
  | (_, 0, _) => None
  | (n, _, EmptyString) => if (n <=? U64_MAX)%Z then Some (Z.to_nat n) else None
  | _ => None
  end.

(** The shortest decimal that reads back as the number, written without an
    exponent ([f64::to_string]). *)
Definition digits_string (z : Z) : string := pretty.pretty z.

Fixpoint zeros (n : nat) : string :=
  match n with 0 => EmptyString | S n' => String "0" (zeros n') end.

(** [d * 10^e] for a positive [d]. *)
Definition plain_decimal (d e : Z) : string :=
  let ds := digits_string d in
  let n := Z.of_nat (String.length ds) in
  if (0 <=? e)%Z then ds +:+ zeros (Z.to_nat e)
  else if (- e <? n)%Z then
    String.substring 0 (Z.to_nat (n + e)) ds +:+ "." +:+
    String.substring (Z.to_nat (n + e)) (Z.to_nat (- e)) ds
  else "0." +:+ zeros (Z.to_nat (- e - n)) +:+ ds.

(** [floor (m * 2^e / 10^k)]. *)
Definition scaled_floor (m e k : Z) : Z :=
  let num := (m * 2 ^ Z.max e 0 * 10 ^ Z.max (- k) 0)%Z in
  let den := (2 ^ Z.max (- e) 0 * 10 ^ Z.max k 0)%Z in
  (num / den)%Z.

Definition decimal_log (m e : Z) : Z :=
  (((Z.log2 m + e) * 30103) / 100000)%Z.

(** Tries the candidates of [n] digits: the decimals just below and above. *)
Definition shortest_step (x : f64) (m e k : Z) : option (Z * Z) :=
  let lo := scaled_floor m e k in
  let twice := scaled_floor (2 * m) e k in
  let near := if Z.odd twice then (lo + 1)%Z else lo in
  let far := if Z.odd twice then lo else (lo + 1)%Z in
  if bool_decide (f64_of_decimal near k = x) then Some (near, k)
  else if bool_decide (f64_of_decimal far k = x) then Some (far, k)
  else None.

Fixpoint shortest_from (fuel : nat) (x : f64) (m e k : Z) : Z * Z :=
  match fuel with
  | 0 => (scaled_floor m e k, k)
  | S fuel' =>
      match shortest_step x m e k with
      | Some r => r
      | None => shortest_from fuel' x m e (k - 1)
      end
  end.

(** Drops trailing zeros of the digits. *)
Fixpoint strip_zeros (fuel : nat) (d e : Z) : Z * Z :=
  match fuel with
  | 0 => (d, e)
  | S fuel' => if (d mod 10 =? 0)%Z then strip_zeros fuel' (d / 10) (e + 1) else (d, e)
  end.

Definition f64_to_string (x : f64) : string :=
  match x with
  | S754_nan => "NaN"
  | S754_infinity s => if s then "-inf" else "inf"
  | S754_zero s => if s then "-0" else "0"
  | S754_finite s m e =>
      let k := (decimal_log (Zpos m) e + 1)%Z in
      let '(d, k) := shortest_from 20 (S754_finite false m e) (Zpos m) e k in
      let '(d, k) := strip_zeros 20 d k in
      (if s then "-" else "") +:+ plain_decimal d k
  end.

Example f64_text_1 : f64_to_string <$> parse_f64 "0.1" = Some "0.1".
Proof. vm_compute. reflexivity. Qed.
Example f64_text_2 : f64_to_string <$> parse_f64 "-1.5e3" = Some "-1500".
Proof. vm_compute. reflexivity. Qed.
Example f64_text_3 : f64_to_string <$> parse_f64 "123456.789E-5" = Some "1.23456789".
Proof. vm_compute. reflexivity. Qed.
Example f64_text_4 : f64_to_string <$> parse_f64 "5." = Some "5" ∧ parse_f64 "." = None ∧
  parse_f64 "1e" = None ∧ parse_f64 " 1" = None ∧ parse_f64 "+INF" = Some (S754_infinity false).
Proof. vm_compute. split_and!; reflexivity. Qed.

(** ** The order *)

Lemma fcompare_swap a b : SFcompare b a = CompOpp <$> SFcompare a b.
Proof.
  destruct a as [[]|[]| |[] m1 e1], b as [[]|[]| |[] m2 e2]; simpl; try done;
    rewrite (Z.compare_antisym e1 e2); destruct (e1 ?= e2)%Z; simpl; try done;
    change (Pos.compare_cont Eq m1 m2) with (m1 ?= m2)%positive;
    change (Pos.compare_cont Eq m2 m1) with (m2 ?= m1)%positive;
    rewrite (Pos.compare_antisym m1 m2); by destruct (m1 ?= m2)%positive.
Qed.

Lemma fcompare_nan a b : SFcompare a b = None ↔ is_nan a = true ∨ is_nan b = true.
Proof.
  destruct a as [[]|[]| |[] m1 e1], b as [[]|[]| |[] m2 e2]; simpl;
    (split; [by auto | by intros [|]]).
Qed.

(** Finite values in the order of a triple of integers. *)
Definition fkey (x : f64) : Z * Z :=
  match x with
  | S754_zero _ | S754_nan => (0, 0)
  | S754_infinity s => (if s then -2 else 2, 0)
  | S754_finite s _ e => (if s then -1 else 1, if s then - e else e)
  end%Z.
Definition fmant (x : f64) : Z :=
  match x with
  | S754_finite s m _ => if s then Zneg m else Zpos m
  | _ => 0
  end%Z.

Definition fle (x y : f64) : Prop :=
  ((fkey x).1 < (fkey y).1 ∨ (fkey x).1 = (fkey y).1 ∧
   ((fkey x).2 < (fkey y).2 ∨ (fkey x).2 = (fkey y).2 ∧ fmant x ≤ fmant y))%Z.

Lemma SFleb_spec x y :
  SFleb x y = true ↔ is_nan x = false ∧ is_nan y = false ∧ fle x y.
Proof.
  unfold SFleb, fle.
  destruct x as [[]|[]| |[] m1 e1], y as [[]|[]| |[] m2 e2]; simpl;
    try (split; [discriminate | lia]); try (split; [lia | done]); try lia;
    change (Pos.compare_cont Eq m1 m2) with (m1 ?= m2)%positive;
    destruct (Z.compare_spec e1 e2); simpl; try (split; [lia || done | lia || done]);
    destruct (Pos.compare_spec m1 m2); simpl; split; (lia || done).
Qed.

Lemma SFltb_leb x y :
  is_nan x = false → is_nan y = false → SFltb x y = negb (SFleb y x).
Proof.
  intros Hx Hy. unfold SFltb, SFleb. rewrite (fcompare_swap x y).
  destruct (SFcompare x y) as [[]|] eqn:E; simpl; try done.
  apply fcompare_nan in E. destruct E; congruence.
Qed.

Lemma fleb_trans x y z : SFleb x y = true → SFleb y z = true → SFleb x z = true.
Proof. rewrite !SFleb_spec. unfold fle. intuition lia. Qed.

Lemma fleb_total x y :
  is_nan x = false → is_nan y = false → SFleb x y = true ∨ SFleb y x = true.
Proof.
  intros Hx Hy. rewrite !SFleb_spec.
  assert (fle x y ∨ fle y x) by (unfold fle; lia). tauto.
Qed.

Lemma fleb_refl x : is_nan x = false → SFleb x x = true.
Proof. rewrite SFleb_spec. unfold fle. intuition lia. Qed.

Lemma fleb_not_nan x y : SFleb x y = true → is_nan x = false ∧ is_nan y = false.
Proof. rewrite SFleb_spec. tauto. Qed.

Lemma fmin_nan a b : is_nan a = false → is_nan b = false → is_nan (fmin a b) = false.
Proof. unfold fmin. intros Ha Hb. rewrite Ha, Hb. by destruct (SFltb b a). Qed.
Lemma fmax_nan a b : is_nan a = false → is_nan b = false → is_nan (fmax a b) = false.
Proof. unfold fmax. intros Ha Hb. rewrite Ha, Hb. by destruct (SFltb a b). Qed.

Lemma fmin_le a b : is_nan a = false → is_nan b = false →
  SFleb (fmin a b) a = true ∧ SFleb (fmin a b) b = true.
Proof.
  intros Ha Hb. unfold fmin. rewrite Ha, Hb, SFltb_leb by done.
  destruct (fleb_total a b Ha Hb) as [Hle|Hle].
  - rewrite Hle. simpl. auto using fleb_refl.
  - destruct (SFleb a b) eqn:E; simpl; auto using fleb_refl.
Qed.

Lemma fmax_ge a b : is_nan a = false → is_nan b = false →
  SFleb a (fmax a b) = true ∧ SFleb b (fmax a b) = true.
Proof.
  intros Ha Hb. unfold fmax. rewrite Ha, Hb, SFltb_leb by done.
  destruct (fleb_total b a Hb Ha) as [Hle|Hle].
  - rewrite Hle. simpl. auto using fleb_refl.
  - destruct (SFleb b a) eqn:E; simpl; auto using fleb_refl.
Qed.

Lemma is_finite_nan x : is_finite x = true → is_nan x = false.
Proof. by destruct x. Qed.

#[export] Hint Resolve fleb_refl is_finite_nan fmin_nan fmax_nan : latlng.

(** ** Rounding never produces a NaN *)

Lemma iter_shr_1_nonneg p mrs : (0 ≤ shr_m mrs)%Z → (0 ≤ shr_m (SpecFloat.iter_pos shr_1 p mrs))%Z.
Proof.
  assert (∀ r, (0 ≤ shr_m r → 0 ≤ shr_m (shr_1 r))%Z) as Hstep.
  { intros [m r s]. simpl. destruct m as [|[]|[]]; simpl; lia. }
  revert mrs. induction p as [p IH|p IH|]; intros mrs Hm; simpl; auto.
Qed.

Lemma shr_nonneg mrs e n : (0 ≤ shr_m mrs)%Z → (0 ≤ shr_m (shr mrs e n).1)%Z.
Proof. intros Hm. destruct n; simpl; try done. by apply iter_shr_1_nonneg. Qed.

Lemma shr_record_of_loc_m m l : shr_m (shr_record_of_loc m l) = m.
Proof. by destruct l as [|[]]. Qed.

Lemma binary_round_aux_not_nan s m e l :
  (0 ≤ m)%Z → is_nan (binary_round_aux prec emax s m e l) = false.
Proof.
  intros Hm. unfold binary_round_aux, shr_fexp.
  pose proof (shr_nonneg (shr_record_of_loc m l) e (fexp prec emax (Zdigits2 m + e) - e)) as H1.
  destruct (shr (shr_record_of_loc m l) e _) as [mrs' e']. simpl in H1.
  rewrite shr_record_of_loc_m in H1. specialize (H1 Hm).
  set (m2 := round_nearest_even (shr_m mrs') (loc_of_shr_record mrs')).
  assert (0 ≤ m2)%Z as Hm2.
  { unfold m2, round_nearest_even. destruct (loc_of_shr_record mrs') as [|[]]; try lia.
    destruct (Z.even _); lia. }
  pose proof (shr_nonneg (shr_record_of_loc m2 loc_Exact) e'
                (fexp prec emax (Zdigits2 m2 + e') - e')) as H2.
  destruct (shr (shr_record_of_loc m2 loc_Exact) e' _) as [mrs'' e'']. simpl in H2.
  specialize (H2 Hm2). destruct (shr_m mrs''); [done| |lia]. by destruct (_ <=? _)%Z.
Qed.

Lemma binary_normalize_not_nan m e s : is_nan (binary_normalize prec emax m e s) = false.
Proof.
  destruct m; simpl; [done| |]; unfold binary_round;
    destruct (shl_align _ _ _); by apply binary_round_aux_not_nan.
Qed.

Lemma fadd_not_nan x y : is_finite x = true → is_finite y = true → is_nan (fadd x y) = false.
Proof.
  unfold fadd, SFadd. destruct x as [[]|[]| |sx mx ex], y as [[]|[]| |sy my ey]; try done.
  intros _ _. apply binary_normalize_not_nan.
Qed.

Lemma fdiv_two_not_nan x : is_nan x = false → is_nan (fdiv x (f64_of_Z 2)) = false.
Proof.
  change (f64_of_Z 2) with (S754_finite false 4503599627370496 (-51)).
  unfold fdiv, SFdiv. destruct x as [[]|[]| |sx mx ex]; try done. intros _.
  unfold SFdiv_core_binary.
  match goal with |- context [Z.div_eucl ?a ?b] =>
    assert (0 ≤ a)%Z as Ha by
      (destruct (ex - -51 - _)%Z; [lia | apply Z.shiftl_nonneg; lia | lia]);
    pose proof (Z.div_pos a b Ha ltac:(lia)) as Hq; unfold Z.div in Hq;
    destruct (Z.div_eucl a b) as [q r] end.
  by apply binary_round_aux_not_nan.
Qed.

Lemma feqb_refl x : is_nan x = false → SFeqb x x = true.
Proof.
  unfold SFeqb. destruct x as [[]|[]| |[] m e]; simpl; try done; intros _;
    rewrite Z.compare_refl; change (Pos.compare_cont Eq m m) with (m ?= m)%positive;
    by rewrite Pos.compare_refl.
Qed.
