(* ===== verification/Json.v ===== *)
(** * JSON values and paths ([crates/latlng-geo/src/lib.rs], JSON part)

    [serde_json::Value] with its three number forms and its [BTreeMap] objects,
    and the path operations behind JGET, JSET and JDEL.  [set_json_path] and
    [delete_json_path] edit through a mutable reference, so the model returns
    the edited value together with the result: what an early error leaves
    behind is part of the behaviour. *)

From Stdlib Require Import ZArith Lia Ascii.
From stdpp Require Import base gmap strings list.
From S2P Require Import Prelude F64.

Inductive GeoError : Type :=
  | UnsupportedGeoJson
  | InvalidGeohash
  | InvalidQuadkey
  | InvalidJsonPath
  | UnresolvedReference
  | InvalidGeometry (message : string)
  | InvalidCoordinates (message : string).

(** [serde_json::Number]: [PosInt(u64)], [NegInt(i64)] or [Float(f64)]. *)
Inductive Number : Type :=
  | PosInt (n : Z)
  | NegInt (n : Z)
  | Float (x : f64).

Inductive Value : Type :=
  | VNull
  | VBool (b : bool)
  | VNumber (n : Number)
  | VString (s : string)
  | VArray (items : list Value)
  | VObject (map : gmap string Value).

Definition Number_as_f64 (n : Number) : f64 :=
  match n with
  | PosInt z | NegInt z => f64_of_Z z
  | Float x => x
  end.

(** [Value::as_f64]. *)
Definition as_f64 (v : Value) : option f64 :=
  match v with
  | VNumber n => Some (Number_as_f64 n)
  | _ => None
  end.

(** [json!(x)] for an [f64]: a number that is not finite becomes [null]. *)
Definition json_f64 (x : f64) : Value :=
  if is_finite x then VNumber (Float x) else VNull.

(** Reading and writing JSON text, by [serde_json]. *)
Class JsonText := {
  json_from_str : string → option Value;
  json_to_string : Value → string
}.

(** ** Paths *)

Fixpoint trim_start_matches (c : ascii) (s : string) : string :=
  match s with
  | String d rest => if Ascii.eqb c d then trim_start_matches c rest else s
  | EmptyString => EmptyString
  end.

(** [str::split(c)]: always at least one part. *)
Fixpoint split_char (c : ascii) (s : string) : list string :=
  match s with
  | EmptyString => [EmptyString]
  | String d rest =>
      if Ascii.eqb c d then EmptyString :: split_char c rest
      else match split_char c rest with
           | [] => [String d EmptyString]
           | part :: parts => String d part :: parts
           end
  end.

Definition path_segments (path : string) : list string :=
  filter (λ segment, segment ≠ "")
    (split_char "." (trim_start_matches "." (trim_start_matches "$" path))).

Definition get_segment (cursor : Value) (segment : string) : option Value :=
  match cursor with
  | VObject map => map !! segment
  | VArray items => index ← parse_usize segment; items !! index
  | _ => None
  end.

Fixpoint get_segments (cursor : Value) (segments : list string) : option Value :=
  match segments with
  | [] => Some cursor
  | segment :: rest => cursor' ← get_segment cursor segment; get_segments cursor' rest
  end.

Definition get_json_path (value : Value) (path : string) : option Value :=
  if String.eqb path "" || String.eqb path "." then Some value
  else get_segments value (path_segments path).

Definition empty_object : Value := VObject ∅.

(** The cursor loop of [set_json_path] on a non-empty list of segments. *)
Fixpoint set_segments (cursor : Value) (segments : list string) (new_value : Value)
    : Value * result unit GeoError :=
  match segments with
  | [] => (new_value, Ok tt)
  | [segment] =>
      match cursor with
      | VObject map => (VObject (<[segment := new_value]> map), Ok tt)
      | VArray items =>
          match parse_usize segment with
          | None => (cursor, Err InvalidJsonPath)
          | Some index =>
              if (length items <=? index)%nat then (cursor, Err InvalidJsonPath)
              else (VArray (<[index := new_value]> items), Ok tt)
          end
      | _ => (cursor, Err InvalidJsonPath)
      end
  | segment :: rest =>
      match cursor with
      | VObject map =>
          let child := default empty_object (map !! segment) in
          let '(child', r) := set_segments child rest new_value in
          (VObject (<[segment := child']> map), r)
      | VArray items =>
          match parse_usize segment with
          | None => (cursor, Err InvalidJsonPath)
          | Some index =>
              match items !! index with
              | None => (cursor, Err InvalidJsonPath)
              | Some child =>
                  let '(child', r) := set_segments child rest new_value in
                  (VArray (<[index := child']> items), r)
              end
          end
      | _ => (cursor, Err InvalidJsonPath)
      end
  end.

Definition set_json_path (target : Value) (path : string) (new_value : Value)
    : Value * result unit GeoError :=
  set_segments target (path_segments path) new_value.

(** [Vec::remove]. *)
Definition vec_remove {A} (l : list A) (i : nat) : list A := take i l ++ drop (S i) l.

Fixpoint delete_segments (cursor : Value) (segments : list string)
    : Value * result bool GeoError :=
  match segments with
  | [] => (cursor, Ok false)
  | [segment] =>
      match cursor with
      | VObject map =>
          (VObject (delete segment map), Ok (bool_decide (is_Some (map !! segment))))
      | VArray items =>
          match parse_usize segment with
          | None => (cursor, Err InvalidJsonPath)
          | Some index =>
              if (length items <=? index)%nat then (cursor, Ok false)
              else (VArray (vec_remove items index), Ok true)
          end
      | _ => (cursor, Err InvalidJsonPath)
      end
  | segment :: rest =>
      match cursor with
      | VObject map =>
          match map !! segment with
          | None => (cursor, Err InvalidJsonPath)
          | Some child =>
              let '(child', r) := delete_segments child rest in
              (VObject (<[segment := child']> map), r)
          end
      | VArray items =>
          match parse_usize segment with
          | None => (cursor, Err InvalidJsonPath)
          | Some index =>
              match items !! index with
              | None => (cursor, Err InvalidJsonPath)
              | Some child =>
                  let '(child', r) := delete_segments child rest in
                  (VArray (<[index := child']> items), r)
              end
          end
      | _ => (cursor, Err InvalidJsonPath)
      end
  end.

Definition delete_json_path (target : Value) (path : string) : Value * result bool GeoError :=
  delete_segments target (path_segments path).

(** ** Facts *)

Lemma set_segments_cons cursor segment s rest v :
  set_segments cursor (segment :: s :: rest) v =
  match cursor with
  | VObject map =>
      let '(child', r) :=
        set_segments (default empty_object (map !! segment)) (s :: rest) v in
      (VObject (<[segment := child']> map), r)
  | VArray items =>
      match parse_usize segment with
      | None => (cursor, Err InvalidJsonPath)
      | Some index =>
          match items !! index with
          | None => (cursor, Err InvalidJsonPath)
          | Some child =>
              let '(child', r) := set_segments child (s :: rest) v in
              (VArray (<[index := child']> items), r)
          end
      end
  | _ => (cursor, Err InvalidJsonPath)
  end.
Proof. reflexivity. Qed.

Lemma get_segments_cons cursor segment rest :
  get_segments cursor (segment :: rest) =
  (cursor' ← get_segment cursor segment; get_segments cursor' rest).
Proof. reflexivity. Qed.

Lemma set_segments_get segments : ∀ cursor v cursor',
  set_segments cursor segments v = (cursor', Ok tt) →
  get_segments cursor' segments = Some v.
Proof.
  induction segments as [|segment [|s rest] IH]; intros cursor v cursor' Hset.
  - simpl in Hset. by simplify_eq.
  - simpl in Hset. destruct cursor; try discriminate.
    + destruct (parse_usize segment) as [i|] eqn:Hp; [|discriminate].
      destruct (Nat.leb_spec (length items) i); [discriminate|]. simplify_eq. simpl.
      rewrite Hp. simpl. by rewrite list_lookup_insert_eq.
    + simplify_eq. simpl. by rewrite lookup_insert_eq.
  - rewrite set_segments_cons in Hset. destruct cursor; try discriminate.
    + destruct (parse_usize segment) as [i|] eqn:Hp; [|discriminate].
      destruct (items !! i) as [child|] eqn:Hi; [|discriminate].
      destruct (set_segments child (s :: rest) v) as [child' r] eqn:Hc.
      simplify_eq. cbn [get_segments get_segment]. rewrite Hp. cbn [mbind option_bind].
      rewrite list_lookup_insert_eq by (by eapply lookup_lt_Some). by eapply IH.
    + destruct (set_segments _ (s :: rest) v) as [child' r] eqn:Hc.
      simplify_eq. cbn [get_segments get_segment]. rewrite lookup_insert_eq.
      cbn [mbind option_bind]. by eapply IH.
Qed.

Lemma set_segments_empty segments v :
  segments ≠ [] → (set_segments empty_object segments v).2 = Ok tt.
Proof.
  induction segments as [|segment [|s rest] IH]; intros Hne; [done|done|].
  specialize (IH ltac:(done)). rewrite set_segments_cons.
  cbn [empty_object]. rewrite lookup_empty. cbn [default from_option id].
  change (VObject ∅) with empty_object.
  destruct (set_segments empty_object (s :: rest) v) as [c r]. exact IH.
Qed.

Lemma set_segments_err segments : ∀ cursor v cursor' e,
  set_segments cursor segments v = (cursor', Err e) → cursor' = cursor ∧ e = InvalidJsonPath.
Proof.
  induction segments as [|segment [|s rest] IH]; intros cursor v cursor' e Hset.
  - done.
  - simpl in Hset. destruct cursor; simplify_eq; try done.
    destruct (parse_usize segment); [|by simplify_eq].
    destruct (length items <=? n)%nat; by simplify_eq.
  - rewrite set_segments_cons in Hset. destruct cursor; simplify_eq; try done.
    + destruct (parse_usize segment) as [i|]; [|by simplify_eq].
      destruct (items !! i) as [child|] eqn:Hi; [|by simplify_eq].
      destruct (set_segments child (s :: rest) v) as [child' r] eqn:Hc.
      simplify_eq. apply IH in Hc as [-> ->]. by rewrite list_insert_id.
    + destruct (set_segments _ (s :: rest) v) as [child' r] eqn:Hc. simplify_eq.
      destruct (map !! segment) as [child|] eqn:Hm.
      * cbn [default from_option id] in Hc. apply IH in Hc as [-> ->]. by rewrite insert_id.
      * pose proof (set_segments_empty (s :: rest) v ltac:(done)) as He.
        cbn [default from_option id] in Hc. by rewrite Hc in He.
Qed.

Lemma delete_segments_cons cursor segment s rest :
  delete_segments cursor (segment :: s :: rest) =
  match cursor with
  | VObject map =>
      match map !! segment with
      | None => (cursor, Err InvalidJsonPath)
      | Some child =>
          let '(child', r) := delete_segments child (s :: rest) in
          (VObject (<[segment := child']> map), r)
      end
  | VArray items =>
      match parse_usize segment with
      | None => (cursor, Err InvalidJsonPath)
      | Some index =>
          match items !! index with
          | None => (cursor, Err InvalidJsonPath)
          | Some child =>
              let '(child', r) := delete_segments child (s :: rest) in
              (VArray (<[index := child']> items), r)
          end
      end
  | _ => (cursor, Err InvalidJsonPath)
  end.
Proof. reflexivity. Qed.

(** What a delete reports: [true] exactly when the path resolved before. *)
Lemma delete_segments_found segments : ∀ cursor cursor' b,
  delete_segments cursor segments = (cursor', Ok b) → segments ≠ [] →
  b = bool_decide (is_Some (get_segments cursor segments)) ∧
  (b = false → cursor' = cursor).
Proof.
  induction segments as [|segment [|s rest] IH]; intros cursor cursor' b Hdel Hne; [done|..].
  - simpl in Hdel. destruct cursor; simplify_eq; try done.
    + destruct (parse_usize segment) as [i|] eqn:Hp; [|done]. simpl. rewrite Hp. simpl.
      destruct (Nat.leb_spec (length items) i) as [Hle|Hlt]; simplify_eq.
      * rewrite lookup_ge_None_2 by done. done.
      * destruct (lookup_lt_is_Some_2 items i Hlt) as [x ->]. done.
    + simpl. destruct (map !! segment) eqn:Hm; simpl; [done|].
      split; [done|]. intros _. f_equal. by apply delete_id.
  - rewrite delete_segments_cons in Hdel. rewrite get_segments_cons.
    destruct cursor; simplify_eq; try done; cbn [get_segment].
    + destruct (parse_usize segment) as [i|]; [|done]. cbn [mbind option_bind].
      destruct (items !! i) as [child|] eqn:Hi; [|done].
      destruct (delete_segments child (s :: rest)) as [child' r] eqn:Hc. simplify_eq.
      apply IH in Hc as [-> Hid]; [|done]. split; [done|].
      intros Hb. rewrite Hid by done. by rewrite list_insert_id.
    + destruct (map !! segment) as [child|] eqn:Hm; [|done]. cbn [mbind option_bind].
      destruct (delete_segments child (s :: rest)) as [child' r] eqn:Hc. simplify_eq.
      apply IH in Hc as [-> Hid]; [|done]. split; [done|].
      intros Hb. rewrite Hid by done. by rewrite insert_id.
Qed.

Lemma delete_segments_err segments : ∀ cursor cursor' e,
  delete_segments cursor segments = (cursor', Err e) → cursor' = cursor.
Proof.
  induction segments as [|segment [|s rest] IH]; intros cursor cursor' e Hdel; [done|..].
  - simpl in Hdel. destruct cursor; simplify_eq; try done.
    destruct (parse_usize segment); [|by simplify_eq].
    destruct (length items <=? n)%nat; by simplify_eq.
  - rewrite delete_segments_cons in Hdel. destruct cursor; simplify_eq; try done.
    + destruct (parse_usize segment) as [i|]; [|by simplify_eq].
      destruct (items !! i) as [child|] eqn:Hi; [|by simplify_eq].
      destruct (delete_segments child (s :: rest)) as [child' r] eqn:Hc.
      simplify_eq. apply IH in Hc as ->. by rewrite list_insert_id.
    + destruct (map !! segment) as [child|] eqn:Hm; [|by simplify_eq].
      destruct (delete_segments child (s :: rest)) as [child' r] eqn:Hc.
      simplify_eq. apply IH in Hc as ->. by rewrite insert_id.
Qed.

(** A segment of a non-empty path is never empty, and the two special paths of
    [get_json_path] have no segments. *)
Lemma get_json_path_segments value path :
  get_json_path value path = get_segments value (path_segments path).
Proof.
  unfold get_json_path.
  destruct (String.eqb_spec path "") as [->|]; [done|].
  destruct (String.eqb_spec path ".") as [->|]; [|done]. done.
Qed.

(** ** Properties *)

(** A successful [set_json_path] makes the path read back as the value
    written, for every path syntax ([$], leading dots, array indexes, the
    empty path), intermediate objects being created on the way. *)
Theorem json_get_after_set (target : Value) (path : string) (v target' : Value)
    (Hset : set_json_path target path v = (target', Ok tt)) :
  get_json_path target' path = Some v.
Proof. rewrite get_json_path_segments. by eapply set_segments_get. Qed.

Lemma json_get_after_set_witness :
  get_json_path (set_json_path (VObject {[ "a" := VArray [VNull; VNull] ]}) "$.a.1" (VBool true)).1
    "a.1" = Some (VBool true).
Proof.
  apply (json_get_after_set (VObject {[ "a" := VArray [VNull; VNull] ]}) "$.a.1" (VBool true)).
  reflexivity.
Defined.

(** An edit that fails leaves the value exactly as it was, although both
    edits work in place: JSET creates missing parents only on paths that then
    succeed, and the only error of either is an invalid path. *)
Theorem json_failed_edit_changes_nothing (target : Value) (path : string) (v : Value) :
  (∀ target' e, set_json_path target path v = (target', Err e) →
     target' = target ∧ e = InvalidJsonPath) ∧
  (∀ target' e, delete_json_path target path = (target', Err e) → target' = target).
Proof.
  split; intros target' e; [apply set_segments_err | apply delete_segments_err].
Qed.

(** A JDEL that does not fail answers [true] exactly when the path resolved
    before it, and when it answers [false] the value is unchanged. *)
Theorem json_delete_reports_presence (target : Value) (path : string) (target' : Value) (b : bool)
    (Hdel : delete_json_path target path = (target', Ok b)) (Hpath : path_segments path ≠ []) :
  b = bool_decide (is_Some (get_json_path target path)) ∧ (b = false → target' = target).
Proof. rewrite get_json_path_segments. by eapply delete_segments_found. Qed.

Lemma json_delete_reports_presence_witness :
  true = bool_decide (is_Some (get_json_path (VObject {[ "a" := VNull ]}) "a")) ∧
  (true = false → (delete_json_path (VObject {[ "a" := VNull ]}) "a").1 =
                  VObject {[ "a" := VNull ]}).
Proof.
  apply (json_delete_reports_presence (VObject {[ "a" := VNull ]}) "a" _ true); done.
Defined.
