(* ===== verification/Platform.v ===== *)
(** * Bounded mailboxes ([crates/latlng-platform/src/lib.rs])

    The channel that carries geofence events to a subscriber: a sender never
    blocks and never fails, a full mailbox drops its oldest item, and a
    receiver keeps its own position and skips what was dropped.  Native and
    WASM platforms share [MailboxState::push] and [receive_from_state].

    The mailbox is shown to implement a bounded queue that drops its oldest
    element, for every interleaving of sends and receives. *)

From Stdlib Require Import ZArith Lia.
From stdpp Require Import base list.
From S2P Require Import Prelude.

Record MailboxState (T : Type) := mkMailbox {
  capacity : nat;
  start_sequence : Z;
  next_sequence : Z;
  items : list (Z * T)
}.
Arguments mkMailbox {T}.
Arguments capacity {T}.
Arguments start_sequence {T}.
Arguments next_sequence {T}.
Arguments items {T}.

Definition mailbox_new {T} (cap : nat) : MailboxState T := mkMailbox (Nat.max cap 1) 0 0 [].

(** [while items.len() > capacity { pop_front; start_sequence += 1 }]. *)
Fixpoint drop_oldest {T} (cap : nat) (start : Z) (its : list (Z * T)) : Z * list (Z * T) :=
  match its with
  | [] => (start, [])
  | _ :: rest =>
      if (cap <? length its)%nat then drop_oldest cap (saturating_add start 1) rest
      else (start, its)
  end.

Definition push {T} (m : MailboxState T) (value : T) : MailboxState T :=
  let '(start, its) :=
    drop_oldest (capacity m) (start_sequence m) (items m ++ [(next_sequence m, value)]) in
  mkMailbox (capacity m) start (saturating_add (next_sequence m) 1) its.

(** The receiver's position after the call, and the value. *)
Definition receive_from_state {T} (m : MailboxState T) (position : Z) : Z * option T :=
  let position :=
    if (position <? start_sequence m)%Z then start_sequence m else position in
  let index := Z.to_nat (position - start_sequence m) in
  match items m !! index with
  | None => (position, None)
  | Some (_, value) => (saturating_add position 1, Some value)
  end.

(** [recv_blocking_with_cancel]: each turn of the loop observes the cancel
    flag and the mailbox as they are when the receiver wakes. *)
Fixpoint recv_blocking_with_cancel {T} (position : Z)
    (wakes : list (bool * MailboxState T)) : Z * option T :=
  match wakes with
  | [] => (position, None)
  | (cancel, m) :: rest =>
      if (cancel : bool) then (position, None)
      else
        match receive_from_state m position with
        | (position', Some v) => (position', Some v)
        | (position', None) => recv_blocking_with_cancel position' rest
        end
  end.

(** ** The abstract queue *)

Inductive channel_op (T : Type) : Type :=
  | OpSend (v : T)
  | OpRecv.
Arguments OpSend {T}.
Arguments OpRecv {T}.

(** A bounded queue of what the receiver has not seen yet. *)
Definition queue_step {T} (cap : nat) (q : list T) (op : channel_op T) : list T * list (option T) :=
  match op with
  | OpSend v => (drop (length q + 1 - cap) (q ++ [v]), [])
  | OpRecv =>
      match q with
      | [] => ([], [None])
      | v :: q' => (q', [Some v])
      end
  end.

Fixpoint queue_run {T} (cap : nat) (q : list T) (ops : list (channel_op T)) : list (option T) :=
  match ops with
  | [] => []
  | op :: rest => let '(q', out) := queue_step cap q op in out ++ queue_run cap q' rest
  end.

Definition mailbox_step {T} (m : MailboxState T) (position : Z) (op : channel_op T)
    : MailboxState T * Z * list (option T) :=
  match op with
  | OpSend v => (push m v, position, [])
  | OpRecv => let '(position', r) := receive_from_state m position in (m, position', [r])
  end.

Fixpoint mailbox_run {T} (m : MailboxState T) (position : Z) (ops : list (channel_op T))
    : list (option T) :=
  match ops with
  | [] => []
  | op :: rest =>
      let '(m', position', out) := mailbox_step m position op in
      out ++ mailbox_run m' position' rest
  end.

(** ** The simulation *)

(** The mailbox holds the last [capacity] values ever sent, numbered. *)
Definition mailbox_holds {T} (m : MailboxState T) (sent : list T) : Prop :=
  next_sequence m = Z.of_nat (length sent) ∧
  start_sequence m = Z.of_nat (length sent - capacity m) ∧
  (items m).*2 = drop (length sent - capacity m) sent.

Lemma drop_oldest_spec {T} cap start (its : list (Z * T)) :
  (start + Z.of_nat (length its) ≤ U64_MAX)%Z →
  drop_oldest cap start its =
    ((start + Z.of_nat (length its - cap))%Z, drop (length its - cap) its).
Proof.
  revert start. induction its as [|x its IH]; intros start Hmax; simpl.
  { f_equal. lia. }
  destruct (Nat.ltb_spec cap (S (length its))) as [Hlt|Hge].
  - simpl in Hmax. rewrite saturating_add_exact by lia. rewrite IH by lia.
    replace (S (length its) - cap) with (S (length its - cap)) by lia. f_equal. lia.
  - replace (S (length its) - cap) with 0 by lia. rewrite Z.add_0_r. done.
Qed.

Lemma mailbox_holds_push {T} (m : MailboxState T) sent v :
  (Z.of_nat (length sent) < U64_MAX)%Z →
  mailbox_holds m sent → mailbox_holds (push m v) (sent ++ [v]) ∧ capacity (push m v) = capacity m.
Proof.
  intros Hmax (Hn & Hs & Hi). unfold push.
  assert (length (items m) = length sent - (length sent - capacity m)) as Hlen.
  { rewrite <-(length_fmap snd), Hi, length_drop. done. }
  rewrite drop_oldest_spec by (rewrite length_app, Hs, Hlen; simpl; lia).
  rewrite length_app. simpl. split; [|done].
  unfold mailbox_holds. cbn [next_sequence start_sequence items capacity].
  rewrite length_app. simpl. rewrite saturating_add_exact by lia.
  split_and!; [lia | lia |].
  rewrite fmap_drop, fmap_app, Hi. simpl.
  rewrite <-(drop_app_le _ [v]) by lia. rewrite drop_drop. f_equal. lia.
Qed.

Lemma receive_holds {T} (m : MailboxState T) sent n :
  mailbox_holds m sent → n ≤ length sent →
  (Z.of_nat (length sent) ≤ U64_MAX)%Z →
  let k := Nat.max n (length sent - capacity m) in
  receive_from_state m (Z.of_nat n) =
    match sent !! k with
    | Some v => (Z.of_nat (S k), Some v)
    | None => (Z.of_nat k, None)
    end.
Proof.
  intros (Hnx & Hs & Hi) Hn Hmax k. unfold receive_from_state.
  assert ((if (Z.of_nat n <? start_sequence m)%Z then start_sequence m else Z.of_nat n)
          = Z.of_nat k) as ->.
  { rewrite Hs. destruct (Z.ltb_spec (Z.of_nat n) (Z.of_nat (length sent - capacity m))); lia. }
  replace (Z.to_nat (Z.of_nat k - start_sequence m)) with (k - (length sent - capacity m)) by lia.
  assert (snd <$> items m !! (k - (length sent - capacity m)) = sent !! k) as Hlk.
  { rewrite <-list_lookup_fmap, Hi, lookup_drop. f_equal. lia. }
  destruct (items m !! _) as [[i v]|]; simpl in Hlk; rewrite <-Hlk; [|done].
  symmetry in Hlk. apply lookup_lt_Some in Hlk.
  rewrite saturating_add_exact by lia. f_equal. lia.
Qed.

Lemma simulates_run {T} (ops : list (channel_op T)) : ∀ (m : MailboxState T) sent n,
  0 < capacity m → mailbox_holds m sent → n ≤ length sent →
  (Z.of_nat (length sent + length ops) ≤ U64_MAX)%Z →
  mailbox_run m (Z.of_nat n) ops =
  queue_run (capacity m) (drop (Nat.max n (length sent - capacity m)) sent) ops.
Proof.
  induction ops as [|op ops IH]; intros m sent n Hcap Hh Hn Hmax; [done|].
  simpl in Hmax. cbn [mailbox_run queue_run]. destruct op as [v|].
  - cbn [mailbox_step queue_step]. simpl.
    destruct (mailbox_holds_push m sent v) as [Hh' Hc]; [lia|done|].
    rewrite (IH (push m v) (sent ++ [v]) n); rewrite ?Hc, ?length_app; simpl; try lia; [|done].
    f_equal. rewrite length_drop, <-(drop_app_le _ [v]) by lia. rewrite drop_drop. f_equal. lia.
  - cbn [mailbox_step queue_step]. rewrite (receive_holds m sent n) by (done || lia).
    set (k := Nat.max n (length sent - capacity m)).
    destruct (sent !! k) as [v|] eqn:Hk.
    + rewrite (drop_S sent v k Hk). cbn [app]. f_equal.
      apply lookup_lt_Some in Hk.
      rewrite (IH m sent (S k)) by (done || lia). do 2 f_equal. lia.
    + apply lookup_ge_None in Hk. rewrite drop_ge by done. cbn [app]. f_equal.
      rewrite (IH m sent k) by (done || lia). rewrite drop_ge; [done|]. lia.
Qed.

(** ** Properties *)

(** A mailbox refines a queue of at most [capacity] elements that drops its
    oldest one: for every interleaving of sends and receives (fewer than
    [2^64]) the values the receiver gets, and the calls on which it gets
    none, are the queue's. *)
Theorem mailbox_refines_bounded_queue {T} (cap : nat) (ops : list (channel_op T))
    (Hlen : (Z.of_nat (length ops) ≤ U64_MAX)%Z) :
  mailbox_run (mailbox_new cap) 0 ops = queue_run (Nat.max cap 1) [] ops.
Proof.
  apply (simulates_run ops (mailbox_new cap) [] 0); simpl; [lia | done | lia | done].
Qed.

Lemma mailbox_refines_bounded_queue_witness :
  mailbox_run (mailbox_new 2) 0 [OpSend 1; OpSend 2; OpSend 3; OpRecv; OpRecv; OpRecv] =
  [Some 2; Some 3; None].
Proof.
  rewrite (mailbox_refines_bounded_queue 2); [reflexivity | apply Z.leb_le; reflexivity].
Defined.
