(* ===== verification/Geo.v ===== *)
(** * Geometry ([crates/latlng-geo/src/lib.rs])

    Coordinates and their validation, bounding boxes, field values, stored
    geometries, query areas, geohashes, quadkeys and clipping.  The [geo] and
    [geojson] crates are the interface [GeoCrate]: the data they exchange with
    this code is the inductive type [Geometry], their algorithms are its
    operations.  The texts of error messages are shortened to what is wrong. *)

From Stdlib Require Import ZArith Lia Ascii SpecFloat.
From stdpp Require Import base gmap strings list.
From S2P Require Import Prelude F64 Json.

Definition EARTH_RADIUS_METERS : f64 := f64_of_decimal 63710088 (-1).
Definition GEOHASH_ALPHABET : list ascii :=
  String.list_ascii_of_string "0123456789bcdefghjkmnpqrstuvwxyz".

(** ** Validation *)

Definition validate_lat_lon (lat lon : f64) : result unit GeoError :=
  if negb (is_finite lat) || negb (in_range (f64_of_Z (-90)) (f64_of_Z 90) lat)
  then Err (InvalidCoordinates "latitude is outside [-90, 90]")
  else if negb (is_finite lon) || negb (in_range (f64_of_Z (-180)) (f64_of_Z 180) lon)
  then Err (InvalidCoordinates "longitude is outside [-180, 180]")
  else Ok tt.

Definition validate_meters (meters : f64) : result unit GeoError :=
  if is_finite meters && SFltb fzero meters then Ok tt
  else Err (InvalidCoordinates "radius must be a positive number of meters").

Definition validate_bearing (bearing : f64) : result unit GeoError :=
  if is_finite bearing && in_range fzero (f64_of_Z 360) bearing then Ok tt
  else Err (InvalidCoordinates "bearing is outside [0, 360]").

Fixpoint validate_position_tree (value : Value) : result unit GeoError :=
  match value with
  | VArray items =>
      match items with
      | VNumber lon :: VNumber lat :: _ =>
          validate_lat_lon (Number_as_f64 lat) (Number_as_f64 lon)
      | _ => try_for_each validate_position_tree items
      end
  | _ => Ok tt
  end.

Fixpoint validate_geojson_positions (value : Value) : result unit GeoError :=
  match value with
  | VObject object =>
      let? _ := default (Ok tt) (validate_position_tree <$> object !! "coordinates") in
      let? _ := default (Ok tt) ((validate_geojson_positions <$> object) !! "geometry") in
      let each key :=
        default (Ok tt)
          (((λ v, match v with
                  | VArray items => try_for_each validate_geojson_positions items
                  | _ => Ok tt
                  end) <$> object) !! key) in
      let? _ := each "features" in
      each "geometries"
  | _ => Ok tt
  end.

(** ** Bounding boxes *)

Record BoundingBox := mkBox {
  min_lat : f64;
  min_lon : f64;
  max_lat : f64;
  max_lon : f64
}.

#[export] Instance BoundingBox_eq_dec : EqDecision BoundingBox.
Proof. solve_decision. Defined.

Definition validate_box (b : BoundingBox) : result unit GeoError :=
  let? _ := validate_lat_lon (min_lat b) (min_lon b) in
  let? _ := validate_lat_lon (max_lat b) (max_lon b) in
  if SFltb (max_lat b) (min_lat b)
  then Err (InvalidCoordinates "min_lat is greater than max_lat")
  else if SFltb (max_lon b) (min_lon b)
  then Err (InvalidCoordinates "min_lon is greater than max_lon")
  else Ok tt.

Definition box_new (lat0 lon0 lat1 lon1 : f64) : BoundingBox :=
  mkBox (fmin lat0 lat1) (fmin lon0 lon1) (fmax lat1 lat0) (fmax lon1 lon0).

Definition from_point (lat lon : f64) : BoundingBox := box_new lat lon lat lon.

Definition center (b : BoundingBox) : f64 * f64 :=
  (fdiv (fadd (min_lat b) (max_lat b)) (f64_of_Z 2),
   fdiv (fadd (min_lon b) (max_lon b)) (f64_of_Z 2)).

Definition contains_point (b : BoundingBox) (lat lon : f64) : bool :=
  in_range (min_lat b) (max_lat b) lat && in_range (min_lon b) (max_lon b) lon.

Definition box_contains (b other : BoundingBox) : bool :=
  SFleb (min_lat b) (min_lat other) && SFleb (min_lon b) (min_lon other) &&
  SFleb (max_lat other) (max_lat b) && SFleb (max_lon other) (max_lon b).

Definition box_intersects (b other : BoundingBox) : bool :=
  SFleb (min_lat b) (max_lat other) && SFleb (min_lat other) (max_lat b) &&
  SFleb (min_lon b) (max_lon other) && SFleb (min_lon other) (max_lon b).

Definition union (b other : BoundingBox) : BoundingBox :=
  box_new (fmin (min_lat b) (min_lat other)) (fmin (min_lon b) (min_lon other))
          (fmax (max_lat b) (max_lat other)) (fmax (max_lon b) (max_lon other)).

Definition box_to_geojson_value (b : BoundingBox) : Value :=
  let pos lon lat := VArray [json_f64 lon; json_f64 lat] in
  VObject (<["type" := VString "Polygon"]> {[ "coordinates" :=
    VArray [VArray [pos (min_lon b) (min_lat b); pos (max_lon b) (min_lat b);
                    pos (max_lon b) (max_lat b); pos (min_lon b) (max_lat b);
                    pos (min_lon b) (min_lat b)]] ]}).

(** ** Fields *)

Inductive FieldValue : Type :=
  | FNumber (x : f64)
  | FText (s : string)
  | FJson (s : string).

#[export] Instance FieldValue_eq_dec : EqDecision FieldValue.
Proof. solve_decision. Defined.

Definition FieldMap : Type := gmap string FieldValue.

Section Fields.
Context `{JsonText}.

Definition as_number (v : FieldValue) : option f64 :=
  match v with
  | FNumber x => Some x
  | FText s => parse_f64 s
  | FJson s => json ← json_from_str s; as_f64 json
  end.

Definition as_text (v : FieldValue) : option string :=
  match v with
  | FNumber _ => None
  | FText s | FJson s => Some s
  end.

Definition get_number_or_zero (fields : FieldMap) (key : string) : f64 :=
  default fzero (v ← fields !! key; as_number v).

Definition fields_get_json_path (fields : FieldMap) (key path : string) : option Value :=
  v ← fields !! key;
  value ← match v with
          | FJson raw => json_from_str raw
          | FText text => Some (VString text)
          | FNumber x => Some (json_f64 x)
          end;
  get_json_path value path.

End Fields.

(** ** The geometry crates *)

Record Coord := mkCoord { coord_x : f64; coord_y : f64 }.

Class GeoTypes := {
  LineString : Type;
  Polygon : Type;
  Rect : Type;
  Triangle : Type
}.

Inductive Geometry `{GeoTypes} : Type :=
  | GPoint (p : Coord)
  | GLine (start stop : Coord)
  | GLineString (l : LineString)
  | GPolygon (p : Polygon)
  | GMultiPoint (ps : list Coord)
  | GMultiLineString (ls : list LineString)
  | GMultiPolygon (ps : list Polygon)
  | GGeometryCollection (gs : list Geometry)
  | GRect (r : Rect)
  | GTriangle (t : Triangle).

(** [geojson::GeoJson], each geometry with the outcome of its conversion. *)
Inductive GeoJson `{GeoTypes} : Type :=
  | GjGeometry (g : result Geometry string)
  | GjFeature (g : option (result Geometry string))
  | GjFeatureCollection.

Class GeoCrate := {
  geo_types :: GeoTypes;
  linestring_from : list Coord → LineString;
  polygon_new : LineString → Polygon;
  rect_new : Coord → Coord → Rect;
  rect_min : Rect → Coord;
  rect_max : Rect → Coord;
  rect_to_polygon : Rect → Polygon;
  triangle_to_polygon : Triangle → Polygon;
  coord_eqb : Coord → Coord → bool;
  geo_contains : Geometry → Geometry → bool;
  geo_intersects : Geometry → Geometry → bool;
  intersection : list Polygon → list Polygon → list Polygon;
  clip_lines : list Polygon → list LineString → list LineString;
  bounding_rect : Geometry → option Rect;
  parse_geojson : Value → result GeoJson string;
  geometry_to_geojson_value : Geometry → Value
}.

Inductive GeoType : Type :=
  | GtPoint (lat lon : f64) (z : option f64)
  | GtBounds (bounds : BoundingBox)
  | GtHash (hash : string)
  | GtGeoJson (value : Value)
  | GtString (s : string).

(** A stored object; [expires_at] is a deadline in milliseconds. *)
Record Object := mkObject {
  id : string;
  geo : GeoType;
  fields : FieldMap;
  expires_at : option Z
}.

Definition validate_geo (g : GeoType) : result unit GeoError :=
  match g with
  | GtPoint lat lon _ => validate_lat_lon lat lon
  | GtBounds bounds => validate_box bounds
  | GtGeoJson value => validate_geojson_positions value
  | GtHash _ | GtString _ => Ok tt
  end.

Definition is_spatial (g : GeoType) : bool :=
  match g with GtString _ => false | _ => true end.

(** [matches!(geo, GeoType::Point { .. })] and [matches!(geo, GeoType::String(_))]. *)
Definition is_point_geo (g : GeoType) : bool :=
  match g with GtPoint _ _ _ => true | _ => false end.
Definition is_string_geo (g : GeoType) : bool :=
  match g with GtString _ => true | _ => false end.

Definition point_coordinates (g : GeoType) : option (f64 * f64) :=
  match g with GtPoint lat lon _ => Some (lat, lon) | _ => None end.

Definition json_value (g : GeoType) : option Value :=
  match g with GtGeoJson value => Some value | _ => None end.

(** ** Geohashes *)

(** The cell under refinement; [even] says that the longitude is halved next. *)
Record Cell := mkCell {
  c_lat_min : f64;
  c_lat_max : f64;
  c_lon_min : f64;
  c_lon_max : f64;
  c_even : bool
}.

Definition world : Cell :=
  mkCell (f64_of_Z (-90)) (f64_of_Z 90) (f64_of_Z (-180)) (f64_of_Z 180) true.

Definition cell_mid (c : Cell) : f64 :=
  if c_even c then fdiv (fadd (c_lon_min c) (c_lon_max c)) (f64_of_Z 2)
  else fdiv (fadd (c_lat_min c) (c_lat_max c)) (f64_of_Z 2).

(** Keeps the upper half for a set bit and the lower half otherwise. *)
Definition cell_half (c : Cell) (bit : bool) : Cell :=
  let mid := cell_mid c in
  if c_even c then
    if bit then mkCell (c_lat_min c) (c_lat_max c) mid (c_lon_max c) false
    else mkCell (c_lat_min c) (c_lat_max c) (c_lon_min c) mid false
  else
    if bit then mkCell mid (c_lat_max c) (c_lon_min c) (c_lon_max c) true
    else mkCell (c_lat_min c) mid (c_lon_min c) (c_lon_max c) true.

Definition cell_bit (lat lon : f64) (c : Cell) : bool :=
  SFleb (cell_mid c) (if c_even c then lon else lat).

(** State of the encoder's loop: the characters pushed so far, the five-bit
    accumulator with its length, and the cell. *)
Record Encoder := mkEncoder {
  e_hash : list ascii;
  e_ch : nat;
  e_bits : nat;
  e_cell : Cell
}.

Definition encode_step (lat lon : f64) (s : Encoder) : Encoder :=
  let bit := cell_bit lat lon (e_cell s) in
  let ch := 2 * e_ch s + (if bit then 1 else 0) in
  let bits := S (e_bits s) in
  let cell := cell_half (e_cell s) bit in
  if (bits =? 5)%nat
  then mkEncoder (e_hash s ++ [default "0"%char (GEOHASH_ALPHABET !! ch)]) 0 0 cell
  else mkEncoder (e_hash s) ch bits cell.

(** [while hash.len() < precision]; five turns push one character. *)
Fixpoint encode_loop (fuel : nat) (precision : nat) (lat lon : f64) (s : Encoder) : Encoder :=
  match fuel with
  | 0 => s
  | S fuel' =>
      if (length (e_hash s) <? precision)%nat
      then encode_loop fuel' precision lat lon (encode_step lat lon s)
      else s
  end.

Definition encode_geohash (lat lon : f64) (precision : nat) : string :=
  String.string_of_list_ascii
    (e_hash (encode_loop (5 * precision) precision lat lon (mkEncoder [] 0 0 world))).

Definition position_of (c : ascii) (l : list ascii) : option nat :=
  fst <$> list_find (λ d, d = c) l.

(** The bits of an index, most significant first ([for shift in (0..5).rev()]). *)
Definition index_bits (index : nat) : list bool :=
  (λ shift, Nat.testbit index shift) <$> [4; 3; 2; 1; 0].

Fixpoint decode_loop (c : Cell) (bytes : list ascii) : result Cell GeoError :=
  match bytes with
  | [] => Ok c
  | byte :: rest =>
      let? index := ok_or (position_of byte GEOHASH_ALPHABET) InvalidGeohash in
      decode_loop (foldl cell_half c (index_bits index)) rest
  end.

Definition cell_box (c : Cell) : BoundingBox :=
  box_new (c_lat_min c) (c_lon_min c) (c_lat_max c) (c_lon_max c).

Definition decode_geohash_bbox (value : string) : result BoundingBox GeoError :=
  rmap cell_box (decode_loop world (String.list_ascii_of_string value)).

(** ** Areas *)

Inductive Area : Type :=
  | ACircle (lat lon meters : f64)
  | ABounds (bounds : BoundingBox)
  | AHash (hash : string)
  | AGeoJson (value : Value)
  | ATile (x y z : Z)
  | AQuadkey (key : string)
  | ASector (lat lon meters bearing1 bearing2 : f64)
  | AReference (collection id : string).

Definition validate_area (a : Area) : result unit GeoError :=
  match a with
  | ACircle lat lon meters =>
      let? _ := validate_lat_lon lat lon in validate_meters meters
  | ABounds bounds => validate_box bounds
  | AGeoJson value => validate_geojson_positions value
  | ASector lat lon meters bearing1 bearing2 =>
      let? _ := validate_lat_lon lat lon in
      let? _ := validate_meters meters in
      let? _ := validate_bearing bearing1 in
      validate_bearing bearing2
  | AHash _ | ATile _ _ _ | AQuadkey _ | AReference _ _ => Ok tt
  end.

(** [1_u32 << n] in a release build: the shift count is taken modulo 32. *)
Definition shl1_u32 (n : Z) : Z := Z.shiftl 1 (n mod 32).

(** The loop over the digits, from position [position] of [z] digits. *)
Fixpoint quadkey_loop (z position : Z) (x y : Z) (digits : list ascii) : result (Z * Z) GeoError :=
  match digits with
  | [] => Ok (x, y)
  | digit :: rest =>
      let bit := shl1_u32 (z - position - 1) in
      match digit with
      | "0"%char => quadkey_loop z (position + 1) x y rest
      | "1"%char => quadkey_loop z (position + 1) (Z.lor x bit) y rest
      | "2"%char => quadkey_loop z (position + 1) x (Z.lor y bit) rest
      | "3"%char => quadkey_loop z (position + 1) (Z.lor x bit) (Z.lor y bit) rest
      | _ => Err InvalidQuadkey
      end
  end.

Definition quadkey_tile (value : string) : result (Z * Z * Z) GeoError :=
  let z := Z.of_nat (String.length value) in
  rmap (λ '(x, y), (x, y, z)) (quadkey_loop z 0 0 0 (String.list_ascii_of_string value)).

Section Geometry.
Context `{Libm} `{GeoCrate}.

Definition haversine_distance_meters (a_lat a_lon b_lat b_lon : f64) : f64 :=
  let lat1 := to_radians a_lat in
  let lat2 := to_radians b_lat in
  let delta_lat := to_radians (fsub b_lat a_lat) in
  let delta_lon := to_radians (fsub b_lon a_lon) in
  let two := f64_of_Z 2 in
  let sin_lat := fsin (fdiv delta_lat two) in
  let sin_lon := fsin (fdiv delta_lon two) in
  let h := fadd (fmul sin_lat sin_lat)
             (fmul (fmul (fmul (fcos lat1) (fcos lat2)) sin_lon) sin_lon) in
  fmul (fmul two EARTH_RADIUS_METERS)
       (fatan2 (fsqrt h) (fsqrt (fsub (f64_of_Z 1) h))).

Definition destination_point (lat lon meters bearing_degrees : f64) : f64 * f64 :=
  let angular_distance := fdiv meters EARTH_RADIUS_METERS in
  let bearing := to_radians bearing_degrees in
  let lat1 := to_radians lat in
  let lon1 := to_radians lon in
  let sin_lat1 := fsin lat1 in
  let cos_lat1 := fcos lat1 in
  let sin_ad := fsin angular_distance in
  let cos_ad := fcos angular_distance in
  let lat2 := fasin (fadd (fmul sin_lat1 cos_ad)
                          (fmul (fmul cos_lat1 sin_ad) (fcos bearing))) in
  let lon2 := fadd lon1 (fatan2 (fmul (fmul (fsin bearing) sin_ad) cos_lat1)
                                (fsub cos_ad (fmul sin_lat1 (fsin lat2)))) in
  (to_degrees lat2,
   fsub (frem (fadd (to_degrees lon2) (f64_of_Z 540)) (f64_of_Z 360)) (f64_of_Z 180)).

Definition circle_envelope (lat lon meters : f64) : BoundingBox :=
  let per_degree := fdiv (f64_of_Z 180) PI in
  let lat_delta := fmul (fdiv meters EARTH_RADIUS_METERS) per_degree in
  let lon_scale := fmax (fabs (fcos (to_radians lat))) (f64_of_decimal 1 (-9)) in
  let lon_delta := fdiv (fmul (fdiv meters EARTH_RADIUS_METERS) per_degree) lon_scale in
  box_new (fsub lat lat_delta) (fsub lon lon_delta) (fadd lat lat_delta) (fadd lon lon_delta).

Definition circle_polygon (lat lon meters : f64) (segments : nat) : Polygon :=
  let coords :=
    (λ index,
       let bearing := fdiv (fmul (f64_of_Z 360) (f64_of_Z (Z.of_nat index)))
                           (f64_of_Z (Z.of_nat segments)) in
       let '(point_lat, point_lon) := destination_point lat lon meters bearing in
       mkCoord point_lon point_lat) <$> seq 0 (S segments) in
  polygon_new (linestring_from coords).

Definition normalize_bearing (value : f64) : f64 := frem_euclid value (f64_of_Z 360).

Definition sector_polygon (lat lon meters bearing1 bearing2 : f64) (segments : nat) : Polygon :=
  let start := normalize_bearing bearing1 in
  let end0 := normalize_bearing bearing2 in
  let stop := if SFleb end0 start then fadd end0 (f64_of_Z 360) else end0 in
  let arc :=
    (λ index,
       let bearing := fadd start (fdiv (fmul (fsub stop start) (f64_of_Z (Z.of_nat index)))
                                       (f64_of_Z (Z.of_nat segments))) in
       let '(point_lat, point_lon) := destination_point lat lon meters bearing in
       mkCoord point_lon point_lat) <$> seq 0 (S segments) in
  polygon_new (linestring_from ([mkCoord lon lat] ++ arc ++ [mkCoord lon lat])).

Definition tile_lat (y n : f64) : f64 :=
  to_degrees (fatan (fsinh (fmul PI
    (fsub (f64_of_Z 1) (fdiv (fmul (f64_of_Z 2) y) n))))).

(** [2_f64.powi(z)] is exact: [2^z] when it is finite. *)
Definition powi2 (z : Z) : f64 :=
  if (z <? 1024)%Z then f64_of_Z (2 ^ z) else S754_infinity false.

Definition tile_bounds (x y z : Z) : result BoundingBox GeoError :=
  if (2 ^ 31 - 1 <? z)%Z then Err InvalidQuadkey
  else
    let n := powi2 z in
    let lon v := fsub (fmul (fdiv v n) (f64_of_Z 360)) (f64_of_Z 180) in
    let min_lon := lon (f64_of_Z x) in
    let max_lon := lon (fadd (f64_of_Z x) (f64_of_Z 1)) in
    let max_lat := tile_lat (f64_of_Z y) n in
    let min_lat := tile_lat (fadd (f64_of_Z y) (f64_of_Z 1)) n in
    Ok (box_new min_lat min_lon max_lat max_lon).

Definition tile_bounds_from_quadkey (value : string) : result BoundingBox GeoError :=
  let? t := quadkey_tile value in
  let '(x, y, z) := t in
  tile_bounds x y z.

Definition to_rect (b : BoundingBox) : Rect :=
  rect_new (mkCoord (min_lon b) (min_lat b)) (mkCoord (max_lon b) (max_lat b)).

(** *** GeoJSON *)

Definition geojson_value_to_geometry (value : Value) : result Geometry GeoError :=
  match parse_geojson value with
  | Err error => Err (InvalidGeometry error)
  | Ok (GjGeometry geometry) => map_err InvalidGeometry geometry
  | Ok (GjFeature None) => Err UnsupportedGeoJson
  | Ok (GjFeature (Some geometry)) => map_err InvalidGeometry geometry
  | Ok GjFeatureCollection => Err UnsupportedGeoJson
  end.

Definition bounding_box_from_geojson (value : Value) : result BoundingBox GeoError :=
  let? geometry := geojson_value_to_geometry value in
  let? rect := ok_or (bounding_rect geometry) (InvalidGeometry "missing bounding rect") in
  Ok (box_new (coord_y (rect_min rect)) (coord_x (rect_min rect))
              (coord_y (rect_max rect)) (coord_x (rect_max rect))).

(** *** Stored geometries *)

Definition geo_envelope (g : GeoType) : result (option BoundingBox) GeoError :=
  match g with
  | GtPoint lat lon _ => Ok (Some (from_point lat lon))
  | GtBounds bounds => Ok (Some bounds)
  | GtHash value => rmap Some (decode_geohash_bbox value)
  | GtGeoJson value => rmap Some (bounding_box_from_geojson value)
  | GtString _ => Ok None
  end.

Definition geo_to_geometry (g : GeoType) : result (option Geometry) GeoError :=
  match g with
  | GtPoint lat lon _ => Ok (Some (GPoint (mkCoord lon lat)))
  | GtBounds bounds => Ok (Some (GRect (to_rect bounds)))
  | GtHash value => rmap (λ b, Some (GRect (to_rect b))) (decode_geohash_bbox value)
  | GtGeoJson value => rmap Some (geojson_value_to_geometry value)
  | GtString _ => Ok None
  end.

Definition geo_to_geojson_value (g : GeoType) : result Value GeoError :=
  match g with
  | GtPoint lat lon z =>
      let coords := [json_f64 lon; json_f64 lat] ++ from_option (λ v, [json_f64 v]) [] z in
      Ok (VObject (<["type" := VString "Point"]> {[ "coordinates" := VArray coords ]}))
  | GtBounds bounds => Ok (box_to_geojson_value bounds)
  | GtHash value => rmap box_to_geojson_value (decode_geohash_bbox value)
  | GtGeoJson value => Ok value
  | GtString text => Ok (VString text)
  end.

(** *** Query areas *)

Definition area_envelope (a : Area) : result BoundingBox GeoError :=
  match a with
  | ACircle lat lon meters => Ok (circle_envelope lat lon meters)
  | ABounds bounds => Ok bounds
  | AHash value => decode_geohash_bbox value
  | AGeoJson value => bounding_box_from_geojson value
  | ATile x y z => tile_bounds x y z
  | AQuadkey value => tile_bounds_from_quadkey value
  | ASector lat lon meters _ _ => Ok (circle_envelope lat lon meters)
  | AReference _ _ => Err UnresolvedReference
  end.

Definition area_to_geometry (a : Area) : result Geometry GeoError :=
  match a with
  | ACircle lat lon meters => Ok (GPolygon (circle_polygon lat lon meters 64))
  | ABounds bounds => Ok (GRect (to_rect bounds))
  | AHash value => rmap (GRect ∘ to_rect) (decode_geohash_bbox value)
  | AGeoJson value => geojson_value_to_geometry value
  | ATile x y z => rmap (GRect ∘ to_rect) (tile_bounds x y z)
  | AQuadkey value => rmap (GRect ∘ to_rect) (tile_bounds_from_quadkey value)
  | ASector lat lon meters bearing1 bearing2 =>
      Ok (GPolygon (sector_polygon lat lon meters bearing1 bearing2 64))
  | AReference _ _ => Err UnresolvedReference
  end.

Definition area_contains_geometry (area target : Geometry) : bool :=
  match area with
  | GRect rect =>
      match target with
      | GPoint _ => geo_contains area target
      | GRect other =>
          geo_contains (GPolygon (rect_to_polygon rect)) (GPolygon (rect_to_polygon other))
      | _ => geo_contains (GPolygon (rect_to_polygon rect)) target
      end
  | GPolygon _ => geo_contains area target
  | GMultiPolygon _ =>
      match target with
      | GPoint _ | GLine _ _ | GLineString _ | GPolygon _ | GRect _ => geo_contains area target
      | _ => geo_intersects area target
      end
  | GPoint point => match target with GPoint other => coord_eqb point other | _ => false end
  | _ => geo_contains area target
  end.

Definition contains_geo (a : Area) (g : GeoType) : result bool GeoError :=
  let? area_geometry := area_to_geometry a in
  let? target := geo_to_geometry g in
  Ok (from_option (area_contains_geometry area_geometry) false target).

Definition intersects_geo (a : Area) (g : GeoType) : result bool GeoError :=
  let? area_geometry := area_to_geometry a in
  let? target := geo_to_geometry g in
  Ok (from_option (geo_intersects area_geometry) false target).

(** *** Clipping *)

Definition no_intersection : GeoError := InvalidGeometry "geometry does not intersect clip area".

Definition area_surface (a : Area) : result (list Polygon) GeoError :=
  let? g := area_to_geometry a in
  match g with
  | GRect rect => Ok [rect_to_polygon rect]
  | GPolygon polygon => Ok [polygon]
  | GMultiPolygon polygons => Ok polygons
  | _ => Err (InvalidGeometry "clip area must be a polygonal geometry")
  end.

(** One element stays itself, several become the collection. *)
Definition geometry_from {A} (one : A → Geometry) (many : list A → Geometry) (l : list A)
    : result Geometry GeoError :=
  match l with
  | [] => Err no_intersection
  | [a] => Ok (one a)
  | _ => Ok (many l)
  end.

Definition geometry_from_points := geometry_from GPoint GMultiPoint.
Definition geometry_from_multiline := geometry_from GLineString GMultiLineString.
Definition geometry_from_multipolygon := geometry_from GPolygon GMultiPolygon.
Definition geometry_from_collection := geometry_from (λ g, g) GGeometryCollection.

Definition clip_multiline (surface : list Polygon) (lines : list LineString) :=
  geometry_from_multiline (clip_lines surface lines).
Definition clip_polygonish (surface : list Polygon) (polygon : Polygon) :=
  geometry_from_multipolygon (intersection surface [polygon]).

Definition point_in_area (a : Area) (p : Coord) : result bool GeoError :=
  intersects_geo a (GtPoint (coord_y p) (coord_x p) None).

Fixpoint clip_geometry_with_surface (g : Geometry) (surface : list Polygon) (a : Area)
    : result Geometry GeoError :=
  match g with
  | GPoint point =>
      let? inside := point_in_area a point in
      if inside then Ok (GPoint point) else Err no_intersection
  | GMultiPoint points =>
      geometry_from_points (filter (λ p, default false (rok (point_in_area a p))) points)
  | GLine start stop => clip_multiline surface [linestring_from [start; stop]]
  | GLineString line => clip_multiline surface [line]
  | GMultiLineString lines => clip_multiline surface lines
  | GRect rect => clip_polygonish surface (rect_to_polygon rect)
  | GTriangle triangle => clip_polygonish surface (triangle_to_polygon triangle)
  | GPolygon polygon => clip_polygonish surface polygon
  | GMultiPolygon polygons => geometry_from_multipolygon (intersection surface polygons)
  | GGeometryCollection gs =>
      let? clipped :=
        (fix go acc gs :=
           match gs with
           | [] => Ok acc
           | item :: rest =>
               match clip_geometry_with_surface item surface a with
               | Ok (GGeometryCollection inner) => go (acc ++ inner) rest
               | Ok geometry => go (acc ++ [geometry]) rest
               | Err (InvalidGeometry _) => go acc rest
               | Err error => Err error
               end
           end) [] gs in
      geometry_from_collection clipped
  end.

Definition clip_geometry_to_area (g : Geometry) (a : Area) : result Geometry GeoError :=
  let? surface := area_surface a in
  clip_geometry_with_surface g surface a.

End Geometry.
