(* ===== verification/GeoSpec.v ===== *)
(** * Geometry: properties

    Geohash encoding and decoding agree on the cell, shorter hashes are
    prefixes of longer ones, the box operations keep boxes valid, and quadkeys
    of at most 32 digits name the tile with those digits. *)

From Stdlib Require Import ZArith Lia Ascii SpecFloat.
From stdpp Require Import base gmap strings list.
From S2P Require Import Prelude F64 Json Geo.

(** ** Geohashes *)

(** The cell reached after [n] halvings towards a point. *)
Fixpoint locate (lat lon : f64) (n : nat) (c : Cell) : Cell :=
  match n with
  | 0 => c
  | S n' => locate lat lon n' (cell_half c (cell_bit lat lon c))
  end.

Definition bits_value (bits : list bool) : nat :=
  foldl (λ ch bit, 2 * ch + if (bit : bool) then 1 else 0) 0 bits.

Definition hash_char (index : nat) : ascii := default "0"%char (GEOHASH_ALPHABET !! index).

Lemma hash_char_bits b4 b3 b2 b1 b0 :
  index_bits <$> position_of (hash_char (bits_value [b4; b3; b2; b1; b0])) GEOHASH_ALPHABET =
  Some [b4; b3; b2; b1; b0].
Proof. destruct b4, b3, b2, b1, b0; vm_compute; reflexivity. Qed.

Fixpoint bits_towards (lat lon : f64) (n : nat) (c : Cell) : list bool :=
  match n with
  | 0 => []
  | S n' => let b := cell_bit lat lon c in b :: bits_towards lat lon n' (cell_half c b)
  end.

Definition next_char (lat lon : f64) (c : Cell) : ascii :=
  hash_char (bits_value (bits_towards lat lon 5 c)).

Definition bit_value (bit : bool) : nat := if bit then 1 else 0.

Lemma encode_step_hold lat lon h ch bits c : S bits ≠ 5 →
  encode_step lat lon (mkEncoder h ch bits c) =
  mkEncoder h (2 * ch + bit_value (cell_bit lat lon c)) (S bits)
    (cell_half c (cell_bit lat lon c)).
Proof.
  intros Hne. unfold encode_step. cbn [e_bits e_ch e_cell e_hash].
  by rewrite (proj2 (Nat.eqb_neq _ _) Hne).
Qed.

Lemma encode_step_push lat lon h ch c :
  encode_step lat lon (mkEncoder h ch 4 c) =
  mkEncoder (h ++ [hash_char (2 * ch + bit_value (cell_bit lat lon c))]) 0 0
    (cell_half c (cell_bit lat lon c)).
Proof. reflexivity. Qed.

Lemma encode_loop_S fuel precision lat lon s : length (e_hash s) < precision →
  encode_loop (S fuel) precision lat lon s =
  encode_loop fuel precision lat lon (encode_step lat lon s).
Proof. intros Hlt. cbn [encode_loop]. by rewrite (proj2 (Nat.ltb_lt _ _) Hlt). Qed.

Lemma encode_loop_char fuel precision lat lon h c :
  length h < precision →
  encode_loop (5 + fuel) precision lat lon (mkEncoder h 0 0 c) =
  encode_loop fuel precision lat lon
    (mkEncoder (h ++ [next_char lat lon c]) 0 0 (locate lat lon 5 c)).
Proof.
  intros Hlt. change (5 + fuel) with (S (S (S (S (S fuel))))).
  do 4 (rewrite encode_loop_S by done; rewrite encode_step_hold by done).
  rewrite encode_loop_S by done. by rewrite encode_step_push.
Qed.

Lemma decode_next_char lat lon c rest :
  decode_loop c (next_char lat lon c :: rest) = decode_loop (locate lat lon 5 c) rest.
Proof.
  cbn [decode_loop]. unfold next_char.
  pose proof (hash_char_bits (cell_bit lat lon c)) as Hb.
  cbn [bits_towards]. cbv zeta. cbn [bits_towards].
  match goal with |- context [hash_char (bits_value [?b4; ?b3; ?b2; ?b1; ?b0])] =>
    pose proof (hash_char_bits b4 b3 b2 b1 b0) as Hb' end.
  destruct (position_of _ _) as [i|]; simpl in Hb'; [|discriminate].
  cbn [ok_or rbind]. apply (inj Some) in Hb'. rewrite Hb'. reflexivity.
Qed.

Fixpoint chars_towards (lat lon : f64) (n : nat) (c : Cell) : list ascii :=
  match n with
  | 0 => []
  | S n' => next_char lat lon c :: chars_towards lat lon n' (locate lat lon 5 c)
  end.

Lemma length_chars_towards lat lon n c : length (chars_towards lat lon n c) = n.
Proof. revert c. induction n; intros; simpl; auto. Qed.

Lemma locate_add lat lon m n c :
  locate lat lon (m + n) c = locate lat lon n (locate lat lon m c).
Proof. revert c. induction m as [|m IH]; intros c; simpl; auto. Qed.

Lemma chars_towards_add lat lon m n c :
  chars_towards lat lon (m + n) c =
  chars_towards lat lon m c ++ chars_towards lat lon n (locate lat lon (5 * m) c).
Proof.
  revert c. induction m as [|m IH]; intros c; [done|].
  cbn [Nat.add chars_towards app]. rewrite IH.
  replace (5 * S m) with (5 + 5 * m) by lia. by rewrite locate_add.
Qed.

Lemma encode_loop_chars k : ∀ precision lat lon h c, length h + k = precision →
  encode_loop (5 * k) precision lat lon (mkEncoder h 0 0 c) =
  mkEncoder (h ++ chars_towards lat lon k c) 0 0 (locate lat lon (5 * k) c).
Proof.
  induction k as [|k IH]; intros precision lat lon h c Hlen.
  { simpl. by rewrite app_nil_r. }
  replace (5 * S k) with (5 + 5 * k) by lia.
  rewrite encode_loop_char by lia. rewrite IH by (rewrite length_app; simpl; lia).
  rewrite locate_add. cbn [chars_towards]. by rewrite <-app_assoc.
Qed.

Lemma decode_chars k : ∀ lat lon c,
  decode_loop c (chars_towards lat lon k c) = Ok (locate lat lon (5 * k) c).
Proof.
  induction k as [|k IH]; intros lat lon c; [done|].
  cbn [chars_towards]. rewrite decode_next_char, IH.
  replace (5 * S k) with (5 + 5 * k) by lia. by rewrite locate_add.
Qed.

Lemma encode_geohash_chars lat lon p :
  String.list_ascii_of_string (encode_geohash lat lon p) = chars_towards lat lon p world.
Proof.
  unfold encode_geohash. rewrite encode_loop_chars by done.
  by rewrite String.list_ascii_of_string_of_list_ascii.
Qed.

(** Decoding an encoded geohash never fails and gives the box of exactly
    the cell the encoder narrowed the point down to, for every pair of
    floats and every precision. *)
Theorem geohash_decode_encode (lat lon : f64) (precision : nat) :
  decode_geohash_bbox (encode_geohash lat lon precision) =
  Ok (cell_box (locate lat lon (5 * precision) world)).
Proof.
  unfold decode_geohash_bbox. by rewrite encode_geohash_chars, decode_chars.
Qed.

(** An encoded geohash has [precision] characters, and a longer geohash of
    the same point starts with the shorter one. *)
Theorem geohash_prefix (lat lon : f64) (p q : nat) :
  ∃ rest, String.list_ascii_of_string (encode_geohash lat lon (p + q)) =
          String.list_ascii_of_string (encode_geohash lat lon p) ++ rest ∧
          length rest = q ∧
          length (String.list_ascii_of_string (encode_geohash lat lon p)) = p.
Proof.
  rewrite !encode_geohash_chars, chars_towards_add. eexists. split; [done|].
  by rewrite !length_chars_towards.
Qed.

(** ** Boxes *)

Definition box_ordered (b : BoundingBox) : Prop :=
  SFleb (min_lat b) (max_lat b) = true ∧ SFleb (min_lon b) (max_lon b) = true.

Lemma validate_lat_lon_spec lat lon :
  validate_lat_lon lat lon = Ok tt ↔
  is_finite lat = true ∧ in_range (f64_of_Z (-90)) (f64_of_Z 90) lat = true ∧
  is_finite lon = true ∧ in_range (f64_of_Z (-180)) (f64_of_Z 180) lon = true.
Proof.
  unfold validate_lat_lon.
  destruct (is_finite lat), (in_range _ (f64_of_Z 90) lat), (is_finite lon),
    (in_range _ (f64_of_Z 180) lon); simpl; intuition discriminate.
Qed.

Lemma validate_box_spec b :
  validate_box b = Ok tt ↔
  validate_lat_lon (min_lat b) (min_lon b) = Ok tt ∧
  validate_lat_lon (max_lat b) (max_lon b) = Ok tt ∧ box_ordered b.
Proof.
  unfold validate_box, box_ordered.
  destruct (validate_lat_lon (min_lat b) (min_lon b)) as [[]|] eqn:H1; simpl; [|intuition discriminate].
  destruct (validate_lat_lon (max_lat b) (max_lon b)) as [[]|] eqn:H2; simpl; [|intuition discriminate].
  apply validate_lat_lon_spec in H1 as (F1 & _ & F2 & _), H2 as (F3 & _ & F4 & _).
  rewrite !SFltb_leb by auto with latlng.
  destruct (SFleb (min_lat b) (max_lat b)), (SFleb (min_lon b) (max_lon b));
    simpl; intuition discriminate.
Qed.

(** [min] and [max] of two in-range numbers are in range. *)
Lemma fmin_cases a b : is_nan a = false → is_nan b = false → fmin a b = a ∨ fmin a b = b.
Proof. intros Ha Hb. unfold fmin. rewrite Ha, Hb. destruct (SFltb b a); auto. Qed.
Lemma fmax_cases a b : is_nan a = false → is_nan b = false → fmax a b = a ∨ fmax a b = b.
Proof. intros Ha Hb. unfold fmax. rewrite Ha, Hb. destruct (SFltb a b); auto. Qed.

Lemma fmin_id a b : SFleb a b = true → fmin a b = a.
Proof.
  intros Hle. destruct (fleb_not_nan _ _ Hle) as [Ha Hb]. unfold fmin.
  by rewrite Ha, Hb, SFltb_leb, Hle by done.
Qed.
Lemma fmax_id a b : SFleb a b = true → fmax b a = b.
Proof.
  intros Hle. destruct (fleb_not_nan _ _ Hle) as [Ha Hb]. unfold fmax.
  by rewrite Ha, Hb, SFltb_leb, Hle by done.
Qed.

Lemma box_new_id b : box_ordered b →
  box_new (min_lat b) (min_lon b) (max_lat b) (max_lon b) = b.
Proof. intros [H1 H2]. unfold box_new. rewrite !fmin_id, !fmax_id by done. by destruct b. Qed.

Lemma valid_min lat0 lon0 lat1 lon1 :
  validate_lat_lon lat0 lon0 = Ok tt → validate_lat_lon lat1 lon1 = Ok tt →
  validate_lat_lon (fmin lat0 lat1) (fmin lon0 lon1) = Ok tt ∧
  validate_lat_lon (fmax lat0 lat1) (fmax lon0 lon1) = Ok tt.
Proof.
  rewrite !validate_lat_lon_spec. intros (A1 & A2 & A3 & A4) (B1 & B2 & B3 & B4).
  apply is_finite_nan in A1 as N1, A3 as N2, B1 as N3, B3 as N4.
  destruct (fmin_cases lat0 lat1 N1 N3) as [-> | ->], (fmin_cases lon0 lon1 N2 N4) as [-> | ->],
    (fmax_cases lat0 lat1 N1 N3) as [-> | ->], (fmax_cases lon0 lon1 N2 N4) as [-> | ->];
    auto 10.
Qed.

Lemma union_eq b c : validate_box b = Ok tt → validate_box c = Ok tt →
  union b c = mkBox (fmin (min_lat b) (min_lat c)) (fmin (min_lon b) (min_lon c))
                    (fmax (max_lat b) (max_lat c)) (fmax (max_lon b) (max_lon c)).
Proof.
  intros Hb Hc. apply validate_box_spec in Hb as (_ & _ & O1 & O2), Hc as (_ & _ & O3 & O4).
  destruct (fleb_not_nan _ _ O1), (fleb_not_nan _ _ O2), (fleb_not_nan _ _ O3),
    (fleb_not_nan _ _ O4).
  apply (box_new_id (mkBox (fmin (min_lat b) (min_lat c)) (fmin (min_lon b) (min_lon c))
                    (fmax (max_lat b) (max_lat c)) (fmax (max_lon b) (max_lon c)))).
  split; simpl.
  - eapply fleb_trans; [by apply fmin_le|]. eapply fleb_trans; [done|]. by apply fmax_ge.
  - eapply fleb_trans; [by apply fmin_le|]. eapply fleb_trans; [done|]. by apply fmax_ge.
Qed.

(** The union of two valid boxes is a valid box that contains both. *)
Theorem box_union_valid (b c : BoundingBox)
    (Hb : validate_box b = Ok tt) (Hc : validate_box c = Ok tt) :
  validate_box (union b c) = Ok tt ∧
  box_contains (union b c) b = true ∧ box_contains (union b c) c = true.
Proof.
  rewrite (union_eq b c Hb Hc). unfold box_contains. cbn [min_lat min_lon max_lat max_lon].
  apply validate_box_spec in Hb as (V1 & V2 & O1 & O2), Hc as (V3 & V4 & O3 & O4).
  destruct (fleb_not_nan _ _ O1), (fleb_not_nan _ _ O2), (fleb_not_nan _ _ O3),
    (fleb_not_nan _ _ O4).
  destruct (fmin_le (min_lat b) (min_lat c)) as [L1 L2]; [done..|].
  destruct (fmin_le (min_lon b) (min_lon c)) as [L3 L4]; [done..|].
  destruct (fmax_ge (max_lat b) (max_lat c)) as [G1 G2]; [done..|].
  destruct (fmax_ge (max_lon b) (max_lon c)) as [G3 G4]; [done..|].
  rewrite L1, L2, L3, L4, G1, G2, G3, G4. split_and!; [|done..].
  apply validate_box_spec. cbn [min_lat min_lon max_lat max_lon].
  destruct (valid_min _ _ _ _ V1 V3) as [W1 _], (valid_min _ _ _ _ V2 V4) as [_ W2].
  split_and!; [done..|]. split; simpl; eauto using fleb_trans.
Qed.

Lemma box_union_valid_witness :
  let b := from_point (f64_of_Z 1) (f64_of_Z 2) in
  let c := from_point (f64_of_Z 3) (f64_of_Z (-4)) in
  validate_box (union b c) = Ok tt ∧
  box_contains (union b c) b = true ∧ box_contains (union b c) c = true.
Proof. apply box_union_valid; vm_compute; reflexivity. Defined.

(** ** Quadkeys *)

(** The digits of a tile, most significant first. *)
Definition quadkey_digit (x y : Z) (i : nat) : ascii :=
  match Z.testbit x (Z.of_nat i), Z.testbit y (Z.of_nat i) with
  | false, false => "0" | true, false => "1" | false, true => "2" | true, true => "3"
  end%char.

Fixpoint tile_digits (x y : Z) (z : nat) : list ascii :=
  match z with
  | 0 => []
  | S z' => quadkey_digit x y z' :: tile_digits x y z'
  end.

Lemma lor_testbit_low x i k :
  (0 ≤ i)%Z → (0 ≤ k)%Z → Z.testbit (Z.lor x (Z.shiftl 1 i)) k = Z.testbit x k || (k =? i)%Z.
Proof.
  intros Hi Hk. rewrite Z.lor_spec. f_equal. rewrite Z.shiftl_spec by done.
  destruct (Z.eqb_spec k i) as [->|Hne].
  - by rewrite Z.sub_diag.
  - destruct (Z.ltb_spec k i).
    + apply Z.testbit_neg_r. lia.
    + replace 1%Z with (2 ^ 0)%Z by done. apply Z.pow2_bits_false. lia.
Qed.

(** Bits at and above [n] of [acc] are those of [x], the others are clear. *)
Definition high_bits (n : nat) (acc x : Z) : Prop :=
  ∀ k, (0 ≤ k)%Z → Z.testbit acc k = Z.testbit x k && (Z.of_nat n <=? k)%Z.

Lemma high_bits_step n acc x :
  high_bits (S n) acc x →
  high_bits n (if Z.testbit x (Z.of_nat n) then Z.lor acc (Z.shiftl 1 (Z.of_nat n)) else acc) x.
Proof.
  intros Hacc k Hk. destruct (Z.testbit x (Z.of_nat n)) eqn:Hb.
  - rewrite lor_testbit_low, (Hacc k Hk) by lia.
    destruct (Z.eqb_spec k (Z.of_nat n)) as [->|].
    + rewrite Hb. rewrite orb_true_r. symmetry. apply andb_true_iff.
      split; [done | apply Z.leb_le; lia].
    + rewrite orb_false_r. f_equal. apply eq_true_iff_eq. rewrite !Z.leb_le. lia.
  - rewrite (Hacc k Hk). destruct (Z.eqb_spec k (Z.of_nat n)) as [->|].
    + by rewrite Hb.
    + f_equal. apply eq_true_iff_eq. rewrite !Z.leb_le. lia.
Qed.

Lemma quadkey_loop_digits n : ∀ z x y ax ay,
  (n ≤ z)%nat → (z ≤ 32)%nat → high_bits n ax x → high_bits n ay y →
  ∃ rx ry, quadkey_loop (Z.of_nat z) (Z.of_nat (z - n)) ax ay (tile_digits x y n) = Ok (rx, ry) ∧
    high_bits 0 rx x ∧ high_bits 0 ry y.
Proof.
  induction n as [|n IH]; intros z x y ax ay Hn Hz Hx Hy; [by eexists _, _|].
  cbn [tile_digits quadkey_loop].
  replace (Z.of_nat z - Z.of_nat (z - S n) - 1)%Z with (Z.of_nat n) by lia.
  unfold shl1_u32. rewrite Z.mod_small by lia.
  replace (Z.of_nat (z - S n) + 1)%Z with (Z.of_nat (z - n)) by lia.
  apply high_bits_step in Hx, Hy. unfold quadkey_digit.
  destruct (Z.testbit x (Z.of_nat n)), (Z.testbit y (Z.of_nat n)); apply IH; (done || lia).
Qed.

Lemma high_bits_zero_eq acc x : high_bits 0 acc x → (0 ≤ x)%Z → acc = x.
Proof.
  intros Hb Hx. apply Z.bits_inj'. intros k Hk. rewrite (Hb k Hk).
  rewrite (proj2 (Z.leb_le _ _)) by (simpl; lia). apply andb_true_r.
Qed.

Lemma high_bits_init n x : (0 ≤ x < 2 ^ Z.of_nat n)%Z → high_bits n 0 x.
Proof.
  intros Hx k Hk. rewrite Z.bits_0. destruct (Z.leb_spec (Z.of_nat n) k); [|by rewrite andb_false_r].
  rewrite andb_true_r. symmetry. destruct (Z.eq_dec x 0%Z) as [->|]; [apply Z.bits_0|].
  apply Z.bits_above_log2; [lia|].
  apply Z.log2_lt_pow2; [lia|]. eapply Z.lt_le_trans; [apply Hx|].
  apply Z.pow_le_mono_r; lia.
Qed.

Lemma length_tile_digits x y z : length (tile_digits x y z) = z.
Proof. induction z; simpl; auto. Qed.

Lemma string_length_list l : String.length (String.string_of_list_ascii l) = length l.
Proof. induction l; simpl; auto. Qed.

(** For zoom levels up to 32 a tile's quadkey is parsed back to the tile. *)
Theorem quadkey_roundtrip (x y : Z) (z : nat) (Hz : (z ≤ 32)%nat)
    (Hx : (0 ≤ x < 2 ^ Z.of_nat z)%Z) (Hy : (0 ≤ y < 2 ^ Z.of_nat z)%Z) :
  quadkey_tile (String.string_of_list_ascii (tile_digits x y z)) = Ok (x, y, Z.of_nat z).
Proof.
  unfold quadkey_tile. rewrite string_length_list, length_tile_digits.
  rewrite String.list_ascii_of_string_of_list_ascii.
  destruct (quadkey_loop_digits z z x y 0 0) as (rx & ry & Hl & Hrx & Hry);
    [done | done | by apply high_bits_init.. |].
  rewrite Nat.sub_diag in Hl. change (Z.of_nat 0) with 0%Z in Hl. rewrite Hl. simpl.
  by rewrite (high_bits_zero_eq rx x), (high_bits_zero_eq ry y) by (done || lia).
Qed.

Lemma quadkey_roundtrip_witness :
  quadkey_tile (String.string_of_list_ascii (tile_digits 5 3 3)) = Ok (5, 3, 3)%Z.
Proof. apply (quadkey_roundtrip 5 3 3); simpl; lia. Defined.

(** With 33 digits the shift of the first digit leaves the 32-bit word: the
    key [1] followed by 32 zeros, tile [x = 2^32] of zoom 33, is read as the
    tile [x = 1] instead of being refused. *)
Theorem quadkey_33_digits_misread :
  quadkey_tile ("1" +:+ zeros 32) = Ok (1, 0, 33)%Z ∧
  String.string_of_list_ascii (tile_digits (2 ^ 32) 0 33) = "1" +:+ zeros 32.
Proof. split; vm_compute; reflexivity. Qed.
