(* ===== verification/Strings.v ===== *)
(** * String operations of the Rust standard library

    [trim], [trim_matches], [split], [split_once] and [contains] on UTF-8
    strings kept as bytes.  White space is Unicode's [White_Space] property,
    as byte sequences. *)

From Stdlib Require Import ZArith Lia Ascii.
From stdpp Require Import base strings list.
From S2P Require Import Prelude.

Definition bytes_of (s : string) : list ascii := String.list_ascii_of_string s.
Definition of_bytes (l : list ascii) : string := String.string_of_list_ascii l.

Definition utf8 (l : list N) : list ascii := ascii_of_N <$> l.

Definition whitespace : list (list ascii) :=
  utf8 <$>
  [[9]; [10]; [11]; [12]; [13]; [32]; [194; 133]; [194; 160]; [225; 154; 128];
   [226; 128; 128]; [226; 128; 129]; [226; 128; 130]; [226; 128; 131]; [226; 128; 132];
   [226; 128; 133]; [226; 128; 134]; [226; 128; 135]; [226; 128; 136]; [226; 128; 137];
   [226; 128; 138]; [226; 128; 168]; [226; 128; 169]; [226; 128; 175]; [226; 129; 159];
   [227; 128; 128]]%N.

(** The rest of a list after a prefix. *)
Fixpoint strip_prefix (p l : list ascii) : option (list ascii) :=
  match p, l with
  | [], _ => Some l
  | a :: p', b :: l' => if Ascii.eqb a b then strip_prefix p' l' else None
  | _, [] => None
  end.

Fixpoint strip_any (ps : list (list ascii)) (l : list ascii) : option (list ascii) :=
  match ps with
  | [] => None
  | p :: ps' =>
      match strip_prefix p l with
      | Some rest => Some rest
      | None => strip_any ps' l
      end
  end.

(** Strips patterns from the start; every turn removes at least a byte. *)
Fixpoint strip_start (fuel : nat) (ps : list (list ascii)) (l : list ascii) : list ascii :=
  match fuel with
  | 0 => l
  | S fuel' =>
      match strip_any ps l with
      | Some rest => strip_start fuel' ps rest
      | None => l
      end
  end.

Definition strip_both (ps : list (list ascii)) (l : list ascii) : list ascii :=
  let l := strip_start (length l) ps l in
  reverse (strip_start (length l) (reverse <$> ps) (reverse l)).

Definition trim (s : string) : string := of_bytes (strip_both whitespace (bytes_of s)).
Definition trim_matches (c : ascii) (s : string) : string :=
  of_bytes (strip_both [[c]] (bytes_of s)).

(** [split_once(p)]: around the first occurrence. *)
Fixpoint split_once_bytes (p l : list ascii) : option (list ascii * list ascii) :=
  match strip_prefix p l with
  | Some rest => Some ([], rest)
  | None =>
      match l with
      | [] => None
      | b :: l' => '(lhs, rhs) ← split_once_bytes p l'; Some (b :: lhs, rhs)
      end
  end.

Definition split_once (p s : string) : option (string * string) :=
  '(lhs, rhs) ← split_once_bytes (bytes_of p) (bytes_of s);
  Some (of_bytes lhs, of_bytes rhs).

Definition str_contains (p s : string) : bool :=
  match split_once_bytes (bytes_of p) (bytes_of s) with Some _ => true | None => false end.

(** [split(p)] for a non-empty pattern: non-overlapping, left to right. *)
Fixpoint split_bytes (fuel : nat) (p l : list ascii) : list (list ascii) :=
  match fuel with
  | 0 => [l]
  | S fuel' =>
      match split_once_bytes p l with
      | None => [l]
      | Some (lhs, rhs) => lhs :: split_bytes fuel' p rhs
      end
  end.

Definition split_str (p s : string) : list string :=
  of_bytes <$> split_bytes (length (bytes_of s)) (bytes_of p) (bytes_of s).

Example trim_ex : trim "  a b	" = "a b".
Proof. reflexivity. Qed.
Example split_ex : split_str "||" "a||b|||c" = ["a"; "b"; "|c"].
Proof. reflexivity. Qed.
Example split_once_ex : split_once ">=" "x >= 3" = Some ("x ", " 3").
Proof. reflexivity. Qed.
