(* ===== verification/StringsSpec.v ===== *)
(** * String operations: properties

    [trim] and [split] commute up to white space at the ends: cutting a
    trimmed string and trimming the pieces finds the pieces of the string
    itself.  The filter language is parsed in one order when it is validated
    and in the other when it is evaluated. *)

From Stdlib Require Import ZArith Lia Ascii.
From stdpp Require Import base strings list.
From S2P Require Import Prelude Strings.

(** ** Prefixes *)

Lemma strip_prefix_Some p l r : strip_prefix p l = Some r ↔ l = p ++ r.
Proof.
  revert l. induction p as [|a p IH]; intros l; simpl.
  - split; [by intros [= ->] | by intros ->].
  - destruct l as [|b l]; [done|]. destruct (Ascii.eqb_spec a b) as [<-|Hne].
    + rewrite IH. split; [by intros -> | by intros [= ->]].
    + split; [done | by intros [= ? _]].
Qed.

(** Bytes that do not occur in the pattern end the match. *)
Lemma strip_prefix_app p l a t : a ∉ p →
  strip_prefix p (l ++ a :: t) = (λ r, r ++ a :: t) <$> strip_prefix p l.
Proof.
  revert l. induction p as [|b p IH]; intros l Ha; [done|].
  apply not_elem_of_cons in Ha as [Hab Ha]. destruct l as [|c l]; simpl.
  - by destruct (Ascii.eqb_spec b a) as [->|].
  - destruct (Ascii.eqb b c); [by apply IH | done].
Qed.

Lemma strip_any_None ps l : strip_any ps l = None ↔ Forall (λ p, strip_prefix p l = None) ps.
Proof.
  induction ps as [|p ps IH]; simpl; [done|]. rewrite Forall_cons, <-IH.
  destruct (strip_prefix p l); naive_solver.
Qed.

Lemma strip_any_Some ps l r : strip_any ps l = Some r → ∃ p, p ∈ ps ∧ l = p ++ r.
Proof.
  induction ps as [|p ps IH]; simpl; [done|]. destruct (strip_prefix p l) as [r'|] eqn:E.
  - intros [= <-]. exists p. split; [by left|]. by apply strip_prefix_Some.
  - intros (q & Hq & ->)%IH. exists q. split; [by right | done].
Qed.

(** ** Stripping *)

Section Strip.
Context (ps : list (list ascii)) (Hne : Forall (λ p, p ≠ []) ps)
  (Hcode : ∀ p x, p ∈ ps → strip_any ps (p ++ x) = Some x).

Lemma strip_start_concat us r fuel :
  Forall (λ u, u ∈ ps) us → strip_any ps r = None → length (concat us) ≤ fuel →
  strip_start fuel ps (concat us ++ r) = r.
Proof.
  intros Hus Hr. revert fuel. induction Hus as [|u us Hu _ IH]; intros fuel Hf; cbn [concat] in *.
  - destruct fuel; simpl; [done|]. by rewrite Hr.
  - rewrite length_app in Hf. rewrite Forall_forall in Hne. specialize (Hne u Hu).
    destruct u as [|b u]; [done|]. destruct fuel as [|fuel]; [simpl in Hf; lia|].
    cbn [strip_start]. rewrite <-app_assoc, Hcode by done. apply IH. simpl in Hf. lia.
Qed.

Lemma strip_start_inv fuel l : length l ≤ fuel →
  ∃ us, Forall (λ u, u ∈ ps) us ∧ l = concat us ++ strip_start fuel ps l ∧
        strip_any ps (strip_start fuel ps l) = None.
Proof.
  revert l. induction fuel as [|fuel IH]; intros l Hf.
  - destruct l; [|simpl in Hf; lia]. exists []. split_and!; [done | done|].
    apply strip_any_None. eapply Forall_impl; [exact Hne|]. by intros [|b p].
  - cbn [strip_start]. destruct (strip_any ps l) as [r|] eqn:E.
    + apply strip_any_Some in E as (p & Hp & ->). rewrite Forall_forall in Hne.
      specialize (Hne p Hp). rewrite length_app in Hf. destruct p as [|b p]; [done|]. simpl in Hf.
      destruct (IH r) as (us & Hus & Hr & Hn); [lia|].
      exists ((b :: p) :: us). split_and!; [by constructor | | done].
      cbn [concat]. rewrite <-app_assoc. by f_equal.
    + exists []. done.
Qed.

End Strip.

(** ** White space *)

Lemma whitespace_nonempty : Forall (λ p, p ≠ []) whitespace.
Proof. by repeat constructor. Qed.

Lemma whitespace_rev_nonempty : Forall (λ p, p ≠ []) (reverse <$> whitespace).
Proof. by repeat constructor. Qed.

(** No encoding is a prefix of another one, in either direction. *)
Lemma whitespace_code p x : p ∈ whitespace → strip_any whitespace (p ++ x) = Some x.
Proof.
  intros Hp. repeat (apply elem_of_cons in Hp as [->|Hp]; [reflexivity|]).
  by apply elem_of_nil in Hp.
Qed.

Lemma whitespace_rev_code p x : p ∈ reverse <$> whitespace →
  strip_any (reverse <$> whitespace) (p ++ x) = Some x.
Proof.
  intros Hp. repeat (apply elem_of_cons in Hp as [->|Hp]; [reflexivity|]).
  by apply elem_of_nil in Hp.
Qed.

(** The first byte of an encoding is not a later byte of any. *)
Lemma whitespace_heads u p : u ∈ whitespace → p ∈ whitespace →
  ∃ a u', u = a :: u' ∧ a ∉ tail p.
Proof.
  assert (forallb (λ u, forallb (λ p, match u with
            | a :: _ => negb (existsb (Ascii.eqb a) (tail p)) | [] => false end) whitespace)
          whitespace = true) as H by (vm_compute; reflexivity).
  intros Hu Hp. apply list_elem_of_In in Hu, Hp.
  rewrite forallb_forall in H. specialize (H u Hu). rewrite forallb_forall in H.
  specialize (H p Hp). destruct u as [|a u]; [done|]. exists a, u. split; [done|].
  intros Ha%list_elem_of_In. apply negb_true_iff, not_true_iff_false in H. apply H.
  apply existsb_exists. exists a. split; [done | apply Ascii.eqb_refl].
Qed.

#[local] Opaque whitespace.

Definition spaces (us : list (list ascii)) : Prop := Forall (λ u, u ∈ whitespace) us.

(** [t] is [l] without the white space at its ends. *)
Definition trimmed (l t : list ascii) : Prop :=
  ∃ us vs m, spaces us ∧ spaces vs ∧ l = concat us ++ m ∧ strip_any whitespace m = None ∧
    m = t ++ concat vs ∧ strip_any (reverse <$> whitespace) (reverse t) = None.

Lemma reverse_concat (us : list (list ascii)) :
  reverse (concat us) = concat (reverse (reverse <$> us)).
Proof.
  induction us as [|u us IH]; [done|]. cbn [concat fmap list_fmap].
  by rewrite reverse_app, reverse_cons, concat_app, IH; cbn [concat]; rewrite app_nil_r.
Qed.

Lemma spaces_reverse us : spaces us → Forall (λ u, u ∈ reverse <$> whitespace) (reverse (reverse <$> us)).
Proof.
  intros Hus. apply Forall_reverse, Forall_fmap. eapply Forall_impl; [exact Hus|].
  intros u Hu. by apply list_elem_of_fmap_2.
Qed.

Lemma trimmed_strip l t : trimmed l t → strip_both whitespace l = t.
Proof.
  intros (us & vs & m & Hus & Hvs & -> & Hm & -> & Ht). unfold strip_both.
  rewrite (strip_start_concat whitespace whitespace_nonempty whitespace_code us _ _ Hus Hm)
    by (rewrite length_app; lia).
  rewrite reverse_app, reverse_concat, length_app.
  rewrite (strip_start_concat _ whitespace_rev_nonempty whitespace_rev_code).
  - apply reverse_involutive.
  - by apply spaces_reverse.
  - done.
  - rewrite <-reverse_concat, length_reverse. lia.
Qed.

Lemma concat_rev_spaces us : Forall (λ u, u ∈ reverse <$> whitespace) us →
  ∃ vs, spaces vs ∧ reverse (concat us) = concat vs.
Proof.
  intros Hus. exists (reverse (reverse <$> us)). rewrite reverse_concat. split; [|done].
  apply Forall_reverse, Forall_fmap. eapply Forall_impl; [exact Hus|].
  intros u (v & -> & Hv)%list_elem_of_fmap. cbn; by rewrite reverse_involutive.
Qed.

Lemma strip_trimmed l : trimmed l (strip_both whitespace l).
Proof.
  unfold strip_both. set (m := strip_start (length l) whitespace l).
  destruct (strip_start_inv whitespace whitespace_nonempty (length l) l) as (us & Hus & Hl & Hm);
    [lia|]. fold m in Hl, Hm.
  destruct (strip_start_inv _ whitespace_rev_nonempty (length m) (reverse m)) as (vs & Hvs & Hr & Ht);
    [rewrite length_reverse; lia|].
  destruct (concat_rev_spaces vs Hvs) as (ws & Hws & Hc).
  exists us, ws, m. split_and!; try done.
  - rewrite <-Hc, <-reverse_app, <-Hr. by rewrite reverse_involutive.
  - by rewrite reverse_involutive.
Qed.

(** White space around a string does not change what trimming leaves. *)
Lemma trim_spaces_front us x : spaces us →
  strip_both whitespace (concat us ++ x) = strip_both whitespace x.
Proof.
  intros Hus. apply trimmed_strip. destruct (strip_trimmed x) as (us' & vs & m & H1 & H2 & H3 & H4 & H5 & H6).
  exists (us ++ us'), vs, m. split_and!; try done.
  - by apply Forall_app.
  - rewrite concat_app, <-app_assoc. by f_equal.
Qed.

Lemma spaces_no_start m us : spaces us → m ≠ [] → strip_any whitespace m = None →
  strip_any whitespace (m ++ concat us) = None.
Proof.
  intros Hus Hm. rewrite !strip_any_None, !Forall_forall. intros Hn p Hp. specialize (Hn p Hp).
  destruct Hus as [|u us Hu Hus]; [by rewrite app_nil_r|]. cbn [concat].
  destruct (whitespace_heads u p Hu Hp) as (a & u' & -> & Ha).
  destruct p as [|b p]; [by rewrite Forall_forall in *; destruct m|].
  destruct m as [|c m]; [done|]. simpl in Hn, Ha |- *. destruct (Ascii.eqb b c); [|done].
  rewrite strip_prefix_app by done. by rewrite Hn.
Qed.

Lemma trim_spaces_back us x : spaces us →
  strip_both whitespace (x ++ concat us) = strip_both whitespace x.
Proof.
  intros Hus. apply trimmed_strip.
  destruct (strip_trimmed x) as (us' & vs & m & H1 & H2 & H3 & H4 & H5 & H6).
  set (t := strip_both whitespace x) in *. clearbody t. destruct (decide (m = [])) as [->|Hm].
  - symmetry in H5. apply app_nil in H5 as [-> Hvs]. exists (us' ++ us), [], []. split_and!; try done.
    + by apply Forall_app.
    + constructor.
    + by rewrite H3, concat_app, !app_nil_r.
  - exists us', (vs ++ us), (m ++ concat us). split_and!; try done.
    + by apply Forall_app.
    + by rewrite H3, app_assoc.
    + by apply spaces_no_start.
    + by rewrite concat_app, app_assoc, H5.
Qed.

(** ** Splitting *)

Section Split.
Context (a : ascii) (p : list ascii).
Let sep := a :: p.

Lemma split_once_front w l : a ∉ w →
  split_once_bytes sep (w ++ l) = (λ '(x, y), (w ++ x, y)) <$> split_once_bytes sep l.
Proof.
  induction w as [|b w IH]; intros Hw;
    [cbn [app]; by destruct (split_once_bytes sep l) as [[]|]|].
  apply not_elem_of_cons in Hw as [Hab Hw]. unfold sep in *.
  cbn [app split_once_bytes strip_prefix]. destruct (Ascii.eqb_spec a b) as [->|_]; [done|].
  rewrite IH by done. by destruct (split_once_bytes (a :: p) l) as [[]|].
Qed.

Lemma split_once_none w : a ∉ w → split_once_bytes sep w = None.
Proof. intros Hw. rewrite <-(app_nil_r w), split_once_front by done. done. Qed.

Lemma split_once_back w l : Forall (λ b, b ∉ sep) w →
  split_once_bytes sep (l ++ w) = (λ '(x, y), (x, y ++ w)) <$> split_once_bytes sep l.
Proof.
  intros Hw. assert (a ∉ w) as Haw.
  { rewrite Forall_forall in Hw. intros Ha. apply (Hw a Ha). by left. }
  induction l as [|b l IH]; [rewrite split_once_none by done; done|].
  change ((b :: l) ++ w) with (b :: (l ++ w)). cbn [split_once_bytes].
  assert (strip_prefix sep (b :: l ++ w) = (λ r, r ++ w) <$> strip_prefix sep (b :: l)) as ->.
  { destruct Hw as [|c w Hc _]; [rewrite app_nil_r; by destruct (strip_prefix sep (b :: l)) as [r|];
      cbn; rewrite ?app_nil_r|].
    by apply (strip_prefix_app sep (b :: l)). }
  destruct (strip_prefix sep (b :: l)); [done|]. cbn [fmap option_fmap option_map]. rewrite IH.
  by destruct (split_once_bytes sep l) as [[]|].
Qed.

Lemma split_once_shorter l x y : split_once_bytes sep l = Some (x, y) → length y < length l.
Proof.
  revert x. induction l as [|b l IH]; intros x; [done|]. cbn [split_once_bytes].
  destruct (strip_prefix sep (b :: l)) as [r|] eqn:E.
  - intros [= _ <-]. apply strip_prefix_Some in E. rewrite E. unfold sep. simpl.
    rewrite length_app. lia.
  - destruct (split_once_bytes sep l) as [[x' y']|] eqn:E'; [|done].
    intros [= _ <-]. specialize (IH x' eq_refl). simpl. lia.
Qed.

(** Splitting as a relation, without fuel. *)
Inductive splits : list ascii → list (list ascii) → Prop :=
  | splits_last l : split_once_bytes sep l = None → splits l [l]
  | splits_cons l x y qs : split_once_bytes sep l = Some (x, y) → splits y qs → splits l (x :: qs).

Lemma split_bytes_splits fuel l : length l ≤ fuel → splits l (split_bytes fuel sep l).
Proof.
  revert l. induction fuel as [|fuel IH]; intros l Hf; cbn [split_bytes].
  - destruct l; [by constructor | simpl in Hf; lia].
  - destruct (split_once_bytes sep l) as [[x y]|] eqn:E; [|by constructor].
    econstructor; [done|]. apply IH. apply split_once_shorter in E. lia.
Qed.

Lemma splits_unique l qs qs' : splits l qs → splits l qs' → qs = qs'.
Proof.
  intros H. revert qs'. induction H as [l Hl|l x y qs Hl _ IH]; intros qs'; inversion 1; simplify_eq;
    [done|]. f_equal. auto.
Qed.

Lemma splits_front w l q qs : a ∉ w → splits l (q :: qs) → splits (w ++ l) ((w ++ q) :: qs).
Proof.
  intros Hw. inversion 1 as [? Hl|? x y ? Hl Hs]; subst.
  - constructor. by rewrite split_once_front, Hl.
  - econstructor; [|done]. by rewrite split_once_front, Hl.
Qed.

Lemma splits_back w l qs : Forall (λ b, b ∉ sep) w → splits l qs →
  ∃ qs' q, qs = qs' ++ [q] ∧ splits (l ++ w) (qs' ++ [q ++ w]).
Proof.
  intros Hw. induction 1 as [l Hl|l x y qs Hl _ IH].
  - exists [], l. split; [done|]. constructor. by rewrite split_once_back, Hl.
  - destruct IH as (qs' & q & -> & Hs). exists (x :: qs'), q. split; [done|].
    econstructor; [|exact Hs]. by rewrite split_once_back, Hl.
Qed.

(** Every piece of the trimmed string is, up to white space, a piece. *)
Lemma split_trimmed us vs m q :
  spaces us → spaces vs → a ∉ concat us → Forall (λ b, b ∉ sep) (concat vs) →
  q ∈ split_bytes (length m) sep m →
  ∃ q', q' ∈ split_bytes (length (concat us ++ m ++ concat vs)) sep (concat us ++ m ++ concat vs) ∧
        strip_both whitespace q' = strip_both whitespace q.
Proof.
  intros Hus Hvs Hu Hv Hq.
  pose proof (split_bytes_splits (length m) m ltac:(lia)) as Hs.
  destruct (split_bytes (length m) sep m) as [|q0 qs]; [inversion Hs|].
  destruct (splits_back (concat vs) m _ Hv Hs) as (qs1 & ql & Heq & Hs1).
  assert (∃ r rs, qs1 ++ [ql ++ concat vs] = r :: rs) as (r & rs & Hr) by (destruct qs1; eauto).
  rewrite Hr in Hs1. pose proof (splits_front (concat us) _ _ _ Hu Hs1) as Hs2.
  rewrite (splits_unique _ _ _ (split_bytes_splits _ _ (Nat.le_refl _)) Hs2).
  assert (∀ q1, q1 ∈ qs1 ++ [ql ++ concat vs] →
    ∃ q', q' ∈ (concat us ++ r) :: rs ∧ strip_both whitespace q' = strip_both whitespace q1) as Hfront.
  { intros q1. rewrite Hr. intros [->|Hin]%elem_of_cons.
    - exists (concat us ++ r). split; [by left | by apply trim_spaces_front].
    - exists q1. split; [by right | done]. }
  rewrite Heq in Hq. apply elem_of_app in Hq as [Hq|Hq].
  - apply Hfront, elem_of_app. by left.
  - apply list_elem_of_singleton in Hq as ->. destruct (Hfront (ql ++ concat vs)) as (q' & Hin & Ht);
      [apply elem_of_app; right; by left|].
    exists q'. split; [done|]. rewrite Ht. by apply trim_spaces_back.
Qed.

End Split.

Lemma spaces_lack us b : spaces us → forallb (λ u, negb (existsb (Ascii.eqb b) u)) whitespace = true →
  b ∉ concat us.
Proof.
  intros Hus Hb. rewrite forallb_forall in Hb. induction Hus as [|u us Hu _ IH]; [by apply not_elem_of_nil|].
  cbn [concat]. rewrite not_elem_of_app. split; [|done]. intros Hin.
  apply list_elem_of_In in Hu. specialize (Hb u Hu). apply negb_true_iff, not_true_iff_false in Hb.
  apply Hb, existsb_exists. exists b. split; [by apply list_elem_of_In | apply Ascii.eqb_refl].
Qed.

Lemma of_bytes_of s : of_bytes (bytes_of s) = s.
Proof. apply String.string_of_list_ascii_of_string. Qed.

Lemma bytes_of_of l : bytes_of (of_bytes l) = l.
Proof. apply String.list_ascii_of_string_of_list_ascii. Qed.

(** Cutting a trimmed string at a character that is not white space and
    trimming the pieces finds trimmed pieces of the string itself. *)
Lemma split_trim_piece a p s q :
  Forall (λ b, forallb (λ u, negb (existsb (Ascii.eqb b) u)) whitespace = true) (a :: p) →
  q ∈ split_str (of_bytes (a :: p)) (trim s) →
  ∃ q', q' ∈ split_str (of_bytes (a :: p)) s ∧ trim q' = trim q.
Proof.
  intros Hsep. unfold split_str, trim. rewrite !bytes_of_of.
  intros (b & -> & Hb)%list_elem_of_fmap.
  destruct (strip_trimmed (bytes_of s)) as (us & vs & m & Hus & Hvs & Hl & _ & Hm & _).
  set (t := strip_both whitespace (bytes_of s)) in *. clearbody t. subst m.
  rewrite Forall_cons in Hsep. destruct Hsep as [Ha Hp].
  destruct (split_trimmed a p us vs t b Hus Hvs) as (b' & Hb' & Ht); [| |done|].
  - by apply spaces_lack.
  - apply Forall_forall. intros c Hc Hcs. revert Hc. apply spaces_lack; [done|].
    apply elem_of_cons in Hcs as [->|Hcs]; [done|]. rewrite Forall_forall in Hp. by apply Hp.
  - rewrite <-Hl in Hb'. exists (of_bytes b'). split; [by apply list_elem_of_fmap_2|].
    by rewrite !bytes_of_of, Ht.
Qed.

Lemma trim_idemp s : trim (trim s) = trim s.
Proof.
  unfold trim. rewrite bytes_of_of. f_equal.
  destruct (strip_trimmed (bytes_of s)) as (us & vs & m & Hus & Hvs & Hl & _ & Hm & _).
  set (t := strip_both whitespace (bytes_of s)) in *. symmetry. unfold t at 1.
  rewrite Hl, Hm. by rewrite trim_spaces_front, trim_spaces_back.
Qed.

(** A blank string has no separator in it. *)
Lemma split_blank a p s : trim s = "" →
  forallb (λ u, negb (existsb (Ascii.eqb a) u)) whitespace = true →
  split_str (of_bytes (a :: p)) s = [s].
Proof.
  intros Ht Ha. unfold split_str, trim in *. rewrite bytes_of_of.
  destruct (strip_trimmed (bytes_of s)) as (us & vs & m & Hus & Hvs & Hl & _ & Hm & _).
  assert (strip_both whitespace (bytes_of s) = []) as Hnil.
  { apply (f_equal bytes_of) in Ht. by rewrite bytes_of_of in Ht. }
  rewrite Hnil in Hm. simpl in Hm. subst m. rewrite <-concat_app in Hl.
  assert (a ∉ bytes_of s) as Hno by (rewrite Hl; apply spaces_lack; [by apply Forall_app | done]).
  destruct (length (bytes_of s)); cbn [split_bytes]; [|rewrite split_once_none by done];
    cbn [fmap list_fmap]; by rewrite of_bytes_of.
Qed.
