(* ===== verification/Index.v ===== *)
(** * Search and the spatial index ([crates/latlng-index/src/lib.rs])

    Search options and their validation, the spatial index (an R*-tree beside
    a map from ids to entries), filter evaluation with its expression
    language, and the paging pipeline [apply_search_options].

    The [glob_match] and [regex] crates are [Patterns], the [rstar] tree is
    [RTreeCrate] with the documented behaviour of a multiset of entries, and
    the slice selection of the standard library is [SelectNth]. *)

From Stdlib Require Import ZArith Lia Ascii SpecFloat.
From stdpp Require Import base gmap strings list sorting.
From S2P Require Import Prelude F64 Json Geo Strings.

(** ** Data *)

Inductive IndexError : Type :=
  | IGeo (e : GeoError)
  | IRegex (message : string)
  | UnsupportedClip
  | InvalidExpression (expression : string).

Inductive SortOrder : Type := Asc | Desc.

Inductive OutputFormat : Type :=
  | Objects
  | Points
  | Bounds
  | Hashes (precision : nat)
  | Ids
  | Count.

Inductive WhereComparison : Type :=
  | Range (min max : f64)
  | EqualsText (s : string)
  | Regex (pattern : string).

Record WhereFilter := mkWhere { where_field : string; where_comparison : WhereComparison }.
Record WhereInFilter := mkWhereIn { in_field : string; values : list string }.
Record WhereExprFilter := mkWhereExpr { expression : string }.

Record SearchOptions := mkOptions {
  cursor : Z;
  limit : Z;
  nofields : bool;
  include_count : bool;
  match_pattern : option string;
  sort : SortOrder;
  where_filters : list WhereFilter;
  where_in_filters : list WhereInFilter;
  where_expr_filters : list WhereExprFilter;
  clip : bool;
  output : OutputFormat
}.

Definition default_search_options : SearchOptions :=
  mkOptions 0 100 false true None Asc [] [] [] false Objects.

Definition fast_limited_ids (o : SearchOptions) : bool :=
  negb (include_count o) && (cursor o =? 0)%Z && nofields o &&
  match output o with Ids => true | _ => false end && negb (clip o).

Definition is_nil {A} (l : list A) : bool := match l with [] => true | _ => false end.

Definition has_filters (o : SearchOptions) : bool :=
  match match_pattern o with Some _ => true | None => false end ||
  negb (is_nil (where_filters o)) || negb (is_nil (where_in_filters o)) ||
  negb (is_nil (where_expr_filters o)).

Record SearchItem := mkItem {
  item_id : string;
  item_object : option GeoType;
  item_fields : option FieldMap;
  item_distance : option f64
}.

Record SearchResults := mkResults {
  results : list SearchItem;
  results_cursor : Z;
  results_count : Z
}.

(** [SearchCandidate] and [OwnedSearchCandidate]: what [CandidateLike] reads. *)
Record Candidate := mkCandidate {
  cand_object : Object;
  cand_distance : option f64
}.

Inductive AreaPredicate : Type := Within | Intersects.

(** ** Interfaces *)

Class Patterns := {
  glob_match : string → string → bool;
  regex_new : string → result (string → bool) string
}.

(** A comparison that is a total order on the elements of a list. *)
Definition orders {A} (cmp : A → A → comparison) (l : list A) : Prop :=
  (∀ a b, a ∈ l → b ∈ l → cmp b a = CompOpp (cmp a b)) ∧
  (∀ a b c, a ∈ l → b ∈ l → c ∈ l → cmp a b ≠ Gt → cmp b c ≠ Gt → cmp a c ≠ Gt).

(** [slice::select_nth_unstable_by(n, cmp)]: a reordering in which, when [cmp]
    is a total order on the slice, nothing up to position [n] is greater than
    anything after it. *)
Class SelectNth := {
  select_nth : ∀ {A}, nat → (A → A → comparison) → list A → list A;
  select_nth_perm {A} n (cmp : A → A → comparison) l : select_nth n cmp l ≡ₚ l;
  select_nth_split {A} n (cmp : A → A → comparison) l x y :
    orders cmp l →
    x ∈ take (S n) (select_nth n cmp l) → y ∈ drop (S n) (select_nth n cmp l) →
    cmp y x ≠ Lt
}.

(** An [AABB], its equality test and the two tests of its [Envelope] trait:
    [aabb_contains a b] when [b] lies in [a]. *)
Class RTreeTypes := {
  Aabb : Type;
  from_corners : Coord → Coord → Aabb;
  aabb_eqb : Aabb → Aabb → bool;
  aabb_contains : Aabb → Aabb → bool;
  aabb_intersects : Aabb → Aabb → bool
}.

Record IndexedEntry `{RTreeTypes} := mkIndexed {
  entry_id : string;
  entry_envelope : Aabb;
  entry_center : f64 * f64
}.

Arguments mkIndexed {_}.

(** The derived [PartialEq]: floats compare as [==] does. *)
Definition entry_eqb `{RTreeTypes} (a b : IndexedEntry) : bool :=
  String.eqb (entry_id a) (entry_id b) && aabb_eqb (entry_envelope a) (entry_envelope b) &&
  SFeqb (entry_center a).1 (entry_center b).1 && SFeqb (entry_center a).2 (entry_center b).2.

Class RTreeCrate := {
  rtree_types :: RTreeTypes;
  RTree : Type;
  rtree_new : RTree;
  rtree_insert : IndexedEntry → RTree → RTree;
  rtree_remove : IndexedEntry → RTree → RTree * option IndexedEntry;
  nearest_neighbor_iter : RTree → f64 * f64 → list IndexedEntry;
  locate_in_envelope : RTree → Aabb → list IndexedEntry;
  locate_in_envelope_intersecting : RTree → Aabb → list IndexedEntry;
  rtree_elems : RTree → list IndexedEntry;
  aabb_refl a b :
    is_nan (coord_x a) = false → is_nan (coord_y a) = false →
    is_nan (coord_x b) = false → is_nan (coord_y b) = false →
    aabb_eqb (from_corners a b) (from_corners a b) = true;
  elems_new : rtree_elems rtree_new = [];
  elems_insert e t : rtree_elems (rtree_insert e t) ≡ₚ e :: rtree_elems t;
  elems_remove_Some e t t' e' : rtree_remove e t = (t', Some e') →
    entry_eqb e' e = true ∧ rtree_elems t ≡ₚ e' :: rtree_elems t';
  elems_remove_None e t t' : rtree_remove e t = (t', None) →
    t' = t ∧ Forall (λ e', entry_eqb e' e = false) (rtree_elems t);
  elems_nearest t p : nearest_neighbor_iter t p ≡ₚ rtree_elems t;
  elems_in_envelope t a :
    locate_in_envelope t a ≡ₚ filter (λ e, aabb_contains a (entry_envelope e)) (rtree_elems t);
  elems_intersecting t a :
    locate_in_envelope_intersecting t a ≡ₚ
      filter (λ e, aabb_intersects a (entry_envelope e)) (rtree_elems t)
}.

(** ** The spatial index *)

Section SpatialIndex.
Context `{LM : Libm} `{GC : GeoCrate} `{RC : RTreeCrate}.

Record SpatialIndex := mkSpatial {
  tree : RTree;
  entries_by_id : gmap string IndexedEntry
}.

Definition spatial_new : SpatialIndex := mkSpatial rtree_new ∅.

Definition indexed_entry_new (i : string) (b : BoundingBox) : IndexedEntry :=
  mkIndexed i
    (from_corners (mkCoord (min_lon b) (min_lat b)) (mkCoord (max_lon b) (max_lat b)))
    ((center b).2, (center b).1).

Definition distance_2 (e : IndexedEntry) (p : f64 * f64) : f64 :=
  let dx := fsub (entry_center e).1 p.1 in
  let dy := fsub (entry_center e).2 p.2 in
  fadd (fmul dx dx) (fmul dy dy).

Definition spatial_remove (s : SpatialIndex) (i : string) : SpatialIndex * bool :=
  match entries_by_id s !! i with
  | None => (s, false)
  | Some entry =>
      let '(tree', r) := rtree_remove entry (tree s) in
      (mkSpatial tree' (delete i (entries_by_id s)), bool_decide (is_Some r))
  end.

Definition spatial_insert (s : SpatialIndex) (i : string) (g : GeoType)
    : SpatialIndex * result unit IndexError :=
  match geo_envelope g with
  | Err e => (s, Err (IGeo e))
  | Ok None => (s, Ok tt)
  | Ok (Some bounds) =>
      let s := (spatial_remove s i).1 in
      let entry := indexed_entry_new i bounds in
      (mkSpatial (rtree_insert entry (tree s)) (<[i := entry]> (entries_by_id s)), Ok tt)
  end.

(** A visit in order that stops when the callback answers [false]. *)
Fixpoint visit_ids {St} (visit : St → string → St * bool) (st : St) (ids : list string) : St :=
  match ids with
  | [] => st
  | i :: rest =>
      let '(st', continue) := visit st i in
      if (continue : bool) then visit_ids visit st' rest else st'
  end.

Definition nearby_ids (s : SpatialIndex) (lat lon max_distance_meters : f64) : list string :=
  entry_id <$>
    filter (λ e, SFleb (haversine_distance_meters lat lon (entry_center e).2 (entry_center e).1)
                       max_distance_meters)
      (nearest_neighbor_iter (tree s) (lon, lat)).

Definition query_aabb (b : BoundingBox) : Aabb :=
  from_corners (mkCoord (min_lon b) (min_lat b)) (mkCoord (max_lon b) (max_lat b)).

Definition within_candidate_ids (s : SpatialIndex) (b : BoundingBox) : list string :=
  entry_id <$> locate_in_envelope (tree s) (query_aabb b).

Definition intersecting_candidate_ids (s : SpatialIndex) (b : BoundingBox) : list string :=
  entry_id <$> locate_in_envelope_intersecting (tree s) (query_aabb b).

Definition visit_nearby_ids {St} (s : SpatialIndex) (lat lon max_distance_meters : f64)
    (visit : St → string → St * bool) (st : St) : St :=
  visit_ids visit st (nearby_ids s lat lon max_distance_meters).
Definition visit_within_candidate_ids {St} (s : SpatialIndex) (b : BoundingBox)
    (visit : St → string → St * bool) (st : St) : St :=
  visit_ids visit st (within_candidate_ids s b).
Definition visit_intersecting_candidate_ids {St} (s : SpatialIndex) (b : BoundingBox)
    (visit : St → string → St * bool) (st : St) : St :=
  visit_ids visit st (intersecting_candidate_ids s b).

End SpatialIndex.

(** ** Filters *)

Inductive ResolvedValue : Type :=
  | RNumber (x : f64)
  | RText (s : string)
  | RJson (v : Value).

Definition trim_quotes (s : string) : string :=
  trim_matches (ascii_of_nat 39) (trim_matches (ascii_of_nat 34) (trim s)).

Definition parse_number (s : string) : f64 :=
  let t := trim_quotes s in
  if String.eqb t "+inf" || String.eqb t "inf" then S754_infinity false
  else if String.eqb t "-inf" then S754_infinity true
  else default fzero (parse_f64 t).

Definition json_value_to_resolved (v : Value) : ResolvedValue :=
  match v with
  | VNumber n => RNumber (Number_as_f64 n)
  | VString s => RText s
  | other => RJson other
  end.

Definition operators : list string := ["=~"; ">="; "<="; "=="; "!="; ">"; "<"].

Section Filters.
Context `{JT : JsonText} `{PT : Patterns}.

Definition resolve_value (o : Object) (path : string) : ResolvedValue :=
  let fallback :=
    match json_value (geo o) ≫= (λ v, get_json_path v path) with
    | Some v => json_value_to_resolved v
    | None => RNumber fzero
    end in
  let after_z :=
    match fields o !! path with
    | Some (FNumber x) => RNumber x
    | Some (FText s) => RText s
    | Some (FJson raw) =>
        match json_from_str raw with Some v => RJson v | None => RText raw end
    | None =>
        match '(root, nested) ← split_once "." path; fields_get_json_path (fields o) root nested with
        | Some v => json_value_to_resolved v
        | None => fallback
        end
    end in
  if String.eqb path "z" then
    match geo o with
    | GtPoint _ _ (Some z) => RNumber z
    | _ => after_z
    end
  else after_z.

Definition numeric_value (v : ResolvedValue) : option f64 :=
  match v with
  | RNumber x => Some x
  | RText s => parse_f64 s
  | RJson j => as_f64 j
  end.

Definition string_value (v : ResolvedValue) : string :=
  match v with
  | RNumber x => f64_to_string x
  | RText s => s
  | RJson j => json_to_string j
  end.

Definition compile_regex (pattern : string) : result (string → bool) IndexError :=
  map_err IRegex (regex_new pattern).

Definition matches_where (o : Object) (f : WhereFilter) : result bool IndexError :=
  let value := resolve_value o (where_field f) in
  match where_comparison f with
  | Range min max =>
      Ok (match numeric_value value with
          | Some number => SFleb min number && SFleb number max
          | None => false
          end)
  | EqualsText expected => Ok (String.eqb (string_value value) expected)
  | Regex pattern =>
      let? is_match := compile_regex pattern in Ok (is_match (string_value value))
  end.

Definition matches_where_in (o : Object) (f : WhereInFilter) : bool :=
  existsb (λ candidate, String.eqb candidate (string_value (resolve_value o (in_field f))))
    (values f).

(** [number > x], [<], [>=], [<=] on the numeric reading of the value. *)
Definition compare_number (cmp : f64 → f64 → bool) (v : ResolvedValue) (rhs : string) : bool :=
  match numeric_value v with
  | Some number => cmp number (parse_number rhs)
  | None => false
  end.

Definition apply_operator (operator : string) (v : ResolvedValue) (rhs : string)
    : result bool IndexError :=
  if String.eqb operator "=~" then
    let? is_match := compile_regex (trim_quotes rhs) in Ok (is_match (string_value v))
  else if String.eqb operator "==" then Ok (String.eqb (string_value v) (trim_quotes rhs))
  else if String.eqb operator "!=" then Ok (negb (String.eqb (string_value v) (trim_quotes rhs)))
  else if String.eqb operator ">" then Ok (compare_number (λ a b, SFltb b a) v rhs)
  else if String.eqb operator "<" then Ok (compare_number SFltb v rhs)
  else if String.eqb operator ">=" then Ok (compare_number (λ a b, SFleb b a) v rhs)
  else Ok (compare_number SFleb v rhs).

(** The first operator of the list, in order, that occurs in the clause. *)
Fixpoint find_operator (ops : list string) (clause : string) : option (string * string * string) :=
  match ops with
  | [] => None
  | op :: rest =>
      match split_once op clause with
      | Some (lhs, rhs) => Some (op, lhs, rhs)
      | None => find_operator rest clause
      end
  end.

Definition evaluate_clause (o : Object) (clause : string) : result bool IndexError :=
  match find_operator operators clause with
  | Some (op, lhs, rhs) => apply_operator op (resolve_value o (trim lhs)) (trim rhs)
  | None => Err (InvalidExpression clause)
  end.

(** [split(p).map(trim).filter(non-empty)]. *)
Definition parts (p s : string) : list string :=
  filter (λ item, item ≠ "") (trim <$> split_str p s).

Fixpoint evaluate_clauses (o : Object) (clauses : list string) : result bool IndexError :=
  match clauses with
  | [] => Ok true
  | clause :: rest =>
      let? ok := evaluate_clause o clause in
      if (ok : bool) then evaluate_clauses o rest else Ok false
  end.

Fixpoint evaluate_branches (o : Object) (branches : list string) : result bool IndexError :=
  match branches with
  | [] => Ok false
  | branch :: rest =>
      let? ok := evaluate_clauses o (parts "&&" branch) in
      if (ok : bool) then Ok true else evaluate_branches o rest
  end.

Definition evaluate_expression (o : Object) (e : string) : result bool IndexError :=
  match parts "||" e with
  | [] => Err (InvalidExpression e)
  | branches => evaluate_branches o branches
  end.

Definition validate_clause (clause : string) : result unit IndexError :=
  match find_operator operators clause with
  | None => Err (InvalidExpression clause)
  | Some (op, _, rhs) =>
      if String.eqb op "=~" then rmap (λ _, tt) (compile_regex (trim_quotes rhs)) else Ok tt
  end.

Definition validate_expression (e : string) : result unit IndexError :=
  match filter (λ item, item ≠ "") (trim <$> (split_str "||" e ≫= split_str "&&")) with
  | [] => Err (InvalidExpression e)
  | clauses => try_for_each validate_clause clauses
  end.

Definition validate_options (o : SearchOptions) : result unit IndexError :=
  let? _ := try_for_each
    (λ f, match where_comparison f with
          | Regex pattern => rmap (λ _, tt) (compile_regex pattern)
          | _ => Ok tt
          end) (where_filters o) in
  try_for_each (λ f, validate_expression (expression f)) (where_expr_filters o).

(** [for filter in filters { if !matches(filter)? { return Ok(false) } }]. *)
Fixpoint all_match {A} (m : A → result bool IndexError) (l : list A) : result bool IndexError :=
  match l with
  | [] => Ok true
  | f :: rest => let? ok := m f in if (ok : bool) then all_match m rest else Ok false
  end.

Definition matches_candidate (o : Object) (opts : SearchOptions) : result bool IndexError :=
  if from_option (λ pattern, negb (glob_match pattern (id o))) false (match_pattern opts)
  then Ok false
  else
    let? ok := all_match (matches_where o) (where_filters opts) in
    if negb ok then Ok false
    else
      let? ok := all_match (λ f, Ok (matches_where_in o f)) (where_in_filters opts) in
      if negb ok then Ok false
      else all_match (λ f, evaluate_expression o (expression f)) (where_expr_filters opts).

(** ** Paging *)

Definition compare_ids (a b : Candidate) : comparison :=
  String.compare (id (cand_object a)) (id (cand_object b)).

Definition compare_candidates (descending : bool) (a b : Candidate) : comparison :=
  let ordering :=
    match cand_distance a, cand_distance b with
    | Some da, Some db =>
        match default Eq (SFcompare da db) with
        | Eq => compare_ids a b
        | c => c
        end
    | _, _ => compare_ids a b
    end in
  if descending then CompOpp ordering else ordering.

Definition cand_le (descending : bool) (a b : Candidate) : Prop :=
  compare_candidates descending a b ≠ Gt.

#[export] Instance cand_le_dec descending a b : Decision (cand_le descending a b).
Proof. unfold cand_le. destruct (compare_candidates descending a b); [left|left|right]; congruence. Defined.

(** [slice::sort_by]: stable, comparison-based. *)
Definition sort_candidates (descending : bool) (l : list Candidate) : list Candidate :=
  merge_sort (cand_le descending) l.

Definition PARTIAL_SORT_THRESHOLD : nat := 256.

Definition should_partial_sort (total stop : nat) : bool :=
  (PARTIAL_SORT_THRESHOLD <=? total)%nat && (stop * 2 <? total)%nat.

Definition is_desc (o : SearchOptions) : bool := match sort o with Desc => true | Asc => false end.

Definition sort_candidates_for_page `{SelectNth} (l : list Candidate) (o : SearchOptions)
    (stop : nat) : list Candidate :=
  let descending := is_desc o in
  if (length l <=? 1)%nat then l
  else if (stop =? 0)%nat || (length l <=? stop)%nat || negb (should_partial_sort (length l) stop)
  then sort_candidates descending l
  else
    let l' := select_nth (stop - 1) (compare_candidates descending) l in
    sort_candidates descending (take stop l') ++ drop stop l'.

Fixpoint filter_candidates_serial (cs : list Candidate) (o : SearchOptions)
    : result (list Candidate) IndexError :=
  match cs with
  | [] => Ok []
  | c :: rest =>
      let? ok := matches_candidate (cand_object c) o in
      let? rest' := filter_candidates_serial rest o in
      Ok (if (ok : bool) then c :: rest' else rest')
  end.

(** The parallel filter evaluates every candidate, then collects in order and
    stops at the first error. *)
Fixpoint collect_filtered (l : list (result (option Candidate) IndexError))
    : result (list Candidate) IndexError :=
  match l with
  | [] => Ok []
  | item :: rest =>
      let? c := item in
      let? rest' := collect_filtered rest in
      Ok (from_option (λ c, c :: rest') rest' c)
  end.

Definition PARALLEL_FILTER_THRESHOLD : nat := 128.

Definition filter_candidates (parallel : bool) (cs : list Candidate) (o : SearchOptions)
    : result (list Candidate) IndexError :=
  if parallel && (PARALLEL_FILTER_THRESHOLD <=? length cs)%nat then
    collect_filtered
      ((λ c, rmap (λ ok, if (ok : bool) then Some c else None)
                  (matches_candidate (cand_object c) o)) <$> cs)
  else filter_candidates_serial cs o.

Definition as_u32 (n : nat) : Z := Z.of_nat n mod 2 ^ 32.
Definition page_limit (o : SearchOptions) : nat := Z.to_nat (Z.max (limit o) 1).

Fixpoint fast_ids_loop (room : nat) (cs : list Candidate) (o : SearchOptions)
    : result (list SearchItem) IndexError :=
  match cs with
  | [] => Ok []
  | c :: rest =>
      let? ok := matches_candidate (cand_object c) o in
      if negb ok then fast_ids_loop room rest o
      else
        let item := mkItem (id (cand_object c)) None None (cand_distance c) in
        match room with
        | 0 | 1 => Ok [item]
        | S room' => let? items := fast_ids_loop room' rest o in Ok (item :: items)
        end
  end.

Definition apply_fast_limited_ids (cs : list Candidate) (o : SearchOptions)
    : result SearchResults IndexError :=
  let? items := fast_ids_loop (page_limit o) cs o in
  Ok (mkResults items 0 (as_u32 (length items))).

(** *** Output *)

Context `{LM : Libm} `{GC : GeoCrate}.

Definition point_from_geo (g : GeoType) : result (f64 * f64) IndexError :=
  match point_coordinates g with
  | Some p => Ok p
  | None =>
      let? envelope := map_err IGeo (geo_envelope g) in
      rmap center (ok_or envelope (IGeo (InvalidGeometry "non-spatial object")))
  end.

Definition pointified (g : GeoType) : result GeoType IndexError :=
  rmap (λ '(lat, lon), GtPoint lat lon None) (point_from_geo g).

Definition map_clip_error (e : GeoError) : IndexError :=
  match e with InvalidGeometry _ => UnsupportedClip | other => IGeo other end.

Definition clip_geo (g : GeoType) (area : option Area) : result GeoType IndexError :=
  match area with
  | None => Ok g
  | Some a =>
      match g with
      | GtString _ => Err UnsupportedClip
      | GtPoint _ _ _ =>
          let? inside := map_err IGeo (intersects_geo a g) in
          if (inside : bool) then Ok g else Err UnsupportedClip
      | _ =>
          let? geometry := map_err IGeo (geo_to_geometry g) in
          let? geometry := ok_or geometry UnsupportedClip in
          let? clipped := map_err map_clip_error (clip_geometry_to_area geometry a) in
          Ok (GtGeoJson (geometry_to_geojson_value clipped))
      end
  end.

Definition format_object (o : Object) (format : OutputFormat) (area : option Area) (clipped : bool)
    : result (option GeoType) IndexError :=
  match format with
  | Objects => rmap Some (if clipped then clip_geo (geo o) area else Ok (geo o))
  | Points => rmap Some (pointified (geo o))
  | Bounds => rmap (fmap GtBounds) (map_err IGeo (geo_envelope (geo o)))
  | Hashes precision =>
      let? p := point_from_geo (geo o) in
      Ok (Some (GtHash (encode_geohash p.1 p.2 precision)))
  | Ids | Count => Ok None
  end.

Definition is_objects (f : OutputFormat) : bool := match f with Objects => true | _ => false end.

Fixpoint format_page (cs : list Candidate) (o : SearchOptions) (area : option Area)
    (allow_clip : bool) : result (list SearchItem) IndexError :=
  match cs with
  | [] => Ok []
  | c :: rest =>
      let? object := format_object (cand_object c) (output o) area
                       (allow_clip && clip o && is_objects (output o)) in
      let? items := format_page rest o area allow_clip in
      Ok (mkItem (id (cand_object c)) object
            (if nofields o then None else Some (fields (cand_object c)))
            (cand_distance c) :: items)
  end.

Definition apply_search_options `{SelectNth} (parallel : bool) (cs : list Candidate)
    (o : SearchOptions) (area : option Area) (allow_clip : bool)
    : result SearchResults IndexError :=
  if fast_limited_ids o then apply_fast_limited_ids cs o
  else
    let? filtered := filter_candidates parallel cs o in
    let total := as_u32 (length filtered) in
    let start := Z.to_nat (cursor o) in
    let stop := Nat.min (start + page_limit o) (length filtered) in
    let next_cursor := if (stop <? length filtered)%nat then as_u32 stop else 0%Z in
    match output o with
    | Count => Ok (mkResults [] next_cursor total)
    | _ =>
        let sorted := sort_candidates_for_page filtered o stop in
        let? items := format_page (take (page_limit o) (drop start sorted)) o area allow_clip in
        Ok (mkResults items next_cursor
              (if include_count o then total else as_u32 (stop - start)))
    end.

(** *** Candidates *)

Definition candidate_distance (o : Object) (lat lon : f64) : option f64 :=
  match point_coordinates (geo o) with
  | Some (point_lat, point_lon) => Some (haversine_distance_meters lat lon point_lat point_lon)
  | None =>
      match geo_envelope (geo o) with
      | Ok (Some envelope) =>
          let '(center_lat, center_lon) := center envelope in
          Some (haversine_distance_meters lat lon center_lat center_lon)
      | _ => None
      end
  end.

Definition nearby_candidates (objects : list Object) (lat lon : f64) : list Candidate :=
  sort_candidates false
    (omap (λ o, (λ d, mkCandidate o (Some d)) <$> candidate_distance o lat lon) objects).

Definition area_matches (predicate : AreaPredicate) (a : Area) (o : Object)
    : result bool IndexError :=
  map_err IGeo (match predicate with
                | Within => contains_geo a (geo o)
                | Intersects => intersects_geo a (geo o)
                end).

Fixpoint area_candidates_owned (objects : list Object) (a : Area) (predicate : AreaPredicate)
    : result (list Candidate) IndexError :=
  match objects with
  | [] => Ok []
  | o :: rest =>
      let? matched := area_matches predicate a o in
      let? out := area_candidates_owned rest a predicate in
      Ok (if (matched : bool) then mkCandidate o None :: out else out)
  end.

Definition snapshot_candidates_owned (objects : list Object) : list Candidate :=
  (λ o, mkCandidate o None) <$> objects.

Definition string_snapshot_candidates_owned (objects : list Object) : list Candidate :=
  snapshot_candidates_owned
    (filter (λ o, is_string_geo (geo o)) objects).

End Filters.
