(* ===== verification/IndexSpec.v ===== *)
(** * Search and the spatial index: properties

    The R*-tree always holds exactly the entries of the id map; parallel and
    serial filtering agree; a page is a slice of the fully sorted result even
    when only a prefix was sorted; and following the cursor from page to page
    yields every match exactly once, in order. *)

From Stdlib Require Import ZArith Lia Ascii SpecFloat.
From stdpp Require Import base gmap strings list sorting.
From S2P Require Import Prelude F64 Json Geo GeoSpec Strings StringsSpec Index.

(** ** The spatial index *)

Section SpatialIndexSpec.
Context `{LM : Libm} `{GC : GeoCrate} `{RC : RTreeCrate}.

(** A box whose corners and centre are numbers. *)
Definition regular_box (b : BoundingBox) : Prop :=
  is_nan (min_lat b) = false ∧ is_nan (min_lon b) = false ∧
  is_nan (max_lat b) = false ∧ is_nan (max_lon b) = false ∧
  is_nan (center b).1 = false ∧ is_nan (center b).2 = false.

Definition spatial_inv (s : SpatialIndex) : Prop :=
  (∀ i e, entries_by_id s !! i = Some e → entry_id e = i ∧ entry_eqb e e = true) ∧
  rtree_elems (tree s) ≡ₚ (map_to_list (entries_by_id s)).*2.

Lemma validated_box_regular b : validate_box b = Ok tt → regular_box b.
Proof.
  intros (V1 & V2 & _)%validate_box_spec.
  apply validate_lat_lon_spec in V1 as (F1 & _ & F2 & _), V2 as (F3 & _ & F4 & _).
  unfold regular_box, center. simpl.
  split_and!; auto using fdiv_two_not_nan, fadd_not_nan with latlng.
Qed.

Lemma entry_eqb_refl i b : regular_box b →
  entry_eqb (indexed_entry_new i b) (indexed_entry_new i b) = true.
Proof.
  intros (N1 & N2 & N3 & N4 & N5 & N6). unfold entry_eqb, indexed_entry_new.
  cbn [entry_id entry_envelope entry_center fst snd].
  rewrite String.eqb_refl, aabb_refl, !feqb_refl by done. done.
Qed.

Lemma entry_eqb_id a b : entry_eqb a b = true → entry_id a = entry_id b.
Proof. unfold entry_eqb. rewrite !andb_true_iff. intros [[[Heq _] _] _]. by apply String.eqb_eq. Qed.

Lemma spatial_new_inv : spatial_inv spatial_new.
Proof.
  split; simpl; [by intros i e; rewrite lookup_empty|].
  by rewrite elems_new, map_to_list_empty.
Qed.

Lemma elem_entry s i e :
  spatial_inv s → e ∈ rtree_elems (tree s) → entry_id e = i → entries_by_id s !! i = Some e.
Proof.
  intros [Hid Hp] He Hi. rewrite Hp in He.
  apply list_elem_of_fmap in He as ([j e'] & Heq & Hj%elem_of_map_to_list). simpl in Heq. subst e'.
  destruct (Hid j e Hj) as [Hje _]. congruence.
Qed.

Lemma spatial_remove_inv s i : spatial_inv s →
  spatial_inv (spatial_remove s i).1 ∧
  entries_by_id (spatial_remove s i).1 = delete i (entries_by_id s).
Proof.
  intros Hs. unfold spatial_remove. destruct (entries_by_id s !! i) as [e|] eqn:He.
  2: { simpl. split; [done|]. symmetry. by apply delete_id. }
  destruct (proj1 Hs i e He) as [Hei Hrefl].
  destruct (rtree_remove e (tree s)) as [t' r] eqn:Hr. simpl. split; [|done].
  assert (map_to_list (entries_by_id s) ≡ₚ (i, e) :: map_to_list (delete i (entries_by_id s)))
    as Hlist by (by rewrite map_to_list_delete).
  destruct r as [e'|].
  - apply elems_remove_Some in Hr as [Heq Hperm]. apply entry_eqb_id in Heq.
    assert (e' = e) as ->.
    { assert (e' ∈ rtree_elems (tree s)) as Hin by (rewrite Hperm; apply list_elem_of_here).
      apply (elem_entry s i e' Hs) in Hin; congruence. }
    split; simpl.
    + intros j x Hj. apply lookup_delete_Some in Hj as [_ Hj]. by apply Hs.
    + destruct Hs as [_ Hp]. rewrite Hp, Hlist in Hperm. simpl in Hperm.
      by apply (inj (cons e)) in Hperm.
  - apply elems_remove_None in Hr as [_ Hall]. rewrite Forall_forall in Hall.
    assert (e ∈ rtree_elems (tree s)) as Hin.
    { rewrite (proj2 Hs), Hlist. apply list_elem_of_here. }
    specialize (Hall e Hin). congruence.
Qed.

Lemma spatial_insert_facts (s : SpatialIndex) (i : string) (g : GeoType)
    (Hinv : spatial_inv s) (Hreg : ∀ b, geo_envelope g = Ok (Some b) → regular_box b) :
  spatial_inv (spatial_insert s i g).1 ∧
  match geo_envelope g with
  | Err e => spatial_insert s i g = (s, Err (IGeo e))
  | Ok None => spatial_insert s i g = (s, Ok tt)
  | Ok (Some b) =>
      (spatial_insert s i g).2 = Ok tt ∧
      entries_by_id (spatial_insert s i g).1 =
        <[i := indexed_entry_new i b]> (entries_by_id s)
  end.
Proof.
  unfold spatial_insert. destruct (geo_envelope g) as [[b|]|e]; [|done|done].
  destruct (spatial_remove_inv s i Hinv) as [[Hid Hp] Hdel]. cbn [fst snd].
  set (s' := (spatial_remove s i).1) in *.
  rewrite Hdel, insert_delete_eq. split; [|done]. split; cbn [entries_by_id tree].
  - intros j e. rewrite lookup_insert_Some. intros [[<- <-]|[Hne Hj]].
    + split; [done|]. apply entry_eqb_refl. by apply Hreg.
    + rewrite Hdel in Hid. apply Hid. by rewrite lookup_delete_ne.
  - rewrite elems_insert, Hp, Hdel, <-insert_delete_eq.
    rewrite map_to_list_insert by apply lookup_delete_eq. done.
Qed.

(** An insertion keeps the tree in step with the id map: afterwards the
    tree holds exactly one entry per indexed id, the new geometry's entry
    replaces any previous entry of the id, other ids are untouched, a
    non-spatial geometry changes nothing, and a geometry without an envelope
    is refused before anything is changed. *)
Theorem spatial_insert_spec (s : SpatialIndex) (i : string) (g : GeoType)
    (Hinv : spatial_inv s) (Hreg : ∀ b, geo_envelope g = Ok (Some b) → regular_box b) :
  spatial_inv (spatial_insert s i g).1 ∧
  match geo_envelope g with
  | Err e => spatial_insert s i g = (s, Err (IGeo e))
  | Ok None => spatial_insert s i g = (s, Ok tt)
  | Ok (Some b) =>
      (spatial_insert s i g).2 = Ok tt ∧
      entries_by_id (spatial_insert s i g).1 =
        <[i := indexed_entry_new i b]> (entries_by_id s)
  end.
Proof. by apply spatial_insert_facts. Qed.

End SpatialIndexSpec.

(** A tree that is a list, to run the model on concrete data. *)
Module ListTree.

Fixpoint remove_first `{RTreeTypes} (e : IndexedEntry) (l : list IndexedEntry)
    : list IndexedEntry * option IndexedEntry :=
  match l with
  | [] => ([], None)
  | x :: l' =>
      if entry_eqb x e then (l', Some x)
      else let '(l'', r) := remove_first e l' in (x :: l'', r)
  end.

Lemma remove_first_Some `{RTreeTypes} e l l' e' :
  remove_first e l = (l', Some e') → entry_eqb e' e = true ∧ l ≡ₚ e' :: l'.
Proof.
  revert l'. induction l as [|x l IH]; intros l' Hr; simpl in Hr; [done|].
  destruct (entry_eqb x e) eqn:Hx; [by simplify_eq|].
  destruct (remove_first e l) as [l'' r] eqn:E. simplify_eq.
  destruct (IH l'' eq_refl) as [? Hp]. split; [done|]. rewrite Hp. constructor.
Qed.

Lemma remove_first_None `{RTreeTypes} e l l' :
  remove_first e l = (l', None) → l' = l ∧ Forall (λ e', entry_eqb e' e = false) l.
Proof.
  revert l'. induction l as [|x l IH]; intros l' Hr; simpl in Hr; [by simplify_eq|].
  destruct (entry_eqb x e) eqn:Hx; [done|].
  destruct (remove_first e l) as [l'' r] eqn:E. simplify_eq.
  destruct (IH l'' eq_refl) as [-> ?]. auto.
Qed.

Definition corners_eqb (a b : Coord * Coord) : bool :=
  SFeqb (coord_x a.1) (coord_x b.1) && SFeqb (coord_y a.1) (coord_y b.1) &&
  SFeqb (coord_x a.2) (coord_x b.2) && SFeqb (coord_y a.2) (coord_y b.2).

#[export] Instance list_tree_types : RTreeTypes := {
  Aabb := Coord * Coord;
  from_corners a b := (a, b);
  aabb_eqb := corners_eqb;
  aabb_contains a b :=
    SFleb (coord_x a.1) (coord_x b.1) && SFleb (coord_y a.1) (coord_y b.1) &&
    SFleb (coord_x b.2) (coord_x a.2) && SFleb (coord_y b.2) (coord_y a.2);
  aabb_intersects a b :=
    SFleb (coord_x a.1) (coord_x b.2) && SFleb (coord_y a.1) (coord_y b.2) &&
    SFleb (coord_x b.1) (coord_x a.2) && SFleb (coord_y b.1) (coord_y a.2)
}.

Lemma corners_eqb_refl (a b : Coord) :
  is_nan (coord_x a) = false → is_nan (coord_y a) = false →
  is_nan (coord_x b) = false → is_nan (coord_y b) = false →
  aabb_eqb (from_corners a b) (from_corners a b) = true.
Proof. intros N1 N2 N3 N4. simpl. unfold corners_eqb. simpl. by rewrite !feqb_refl. Qed.

(** The laws of the other operations hold by definition. *)
Lemma list_perm {A} (l : list A) : l ≡ₚ l.
Proof. done. Qed.

Lemma list_eq {A} (l : list A) : l = l.
Proof. done. Qed.

#[export] Instance list_tree : RTreeCrate := {
  RTree := list IndexedEntry;
  rtree_new := [];
  rtree_insert := cons;
  rtree_remove := remove_first;
  nearest_neighbor_iter l _ := l;
  locate_in_envelope l a := filter (λ e, aabb_contains a (entry_envelope e)) l;
  locate_in_envelope_intersecting l a := filter (λ e, aabb_intersects a (entry_envelope e)) l;
  rtree_elems l := l;
  aabb_refl := corners_eqb_refl;
  elems_new := list_eq [];
  elems_insert e l := list_perm (e :: l);
  elems_remove_Some e l l' e' := remove_first_Some e l l' e';
  elems_remove_None e l l' := remove_first_None e l l';
  elems_nearest l _ := list_perm l;
  elems_in_envelope l a := list_perm (filter (λ e, aabb_contains a (entry_envelope e)) l);
  elems_intersecting l a := list_perm (filter (λ e, aabb_intersects a (entry_envelope e)) l)
}.

End ListTree.

(** Geometry crates without any GeoJSON support. *)
Module NoGeoJson.

#[export] Instance types : GeoTypes := {|
  LineString := list Coord; Polygon := list Coord; Rect := Coord * Coord; Triangle := unit
|}.

#[export] Instance crate : GeoCrate := {
  geo_types := types;
  linestring_from l := l;
  polygon_new l := l;
  rect_new a b := (a, b);
  rect_min := fst;
  rect_max := snd;
  rect_to_polygon r := [r.1; r.2];
  triangle_to_polygon _ := [];
  coord_eqb a b := SFeqb (coord_x a) (coord_x b) && SFeqb (coord_y a) (coord_y b);
  geo_contains _ _ := false;
  geo_intersects _ _ := false;
  intersection a _ := a;
  clip_lines _ l := l;
  bounding_rect _ := None;
  parse_geojson _ := Err "not GeoJSON";
  geometry_to_geojson_value _ := VNull
}.

#[export] Instance libm : Libm := {
  fsin x := x; fcos x := x; fasin x := x; fatan x := x; fatan2 x _ := x; fsinh x := x;
  frem x _ := x; frem_euclid x _ := x
}.

End NoGeoJson.

Module SpatialWitness.
Import ListTree NoGeoJson.

Lemma spatial_insert_spec_witness :
  let point := GtPoint (f64_of_Z 1) (f64_of_Z 2) None in
  let s := (spatial_insert spatial_new "a" point).1 in
  spatial_inv s ∧ (spatial_insert s "a" point).2 = Ok tt ∧
  entries_by_id (spatial_insert s "a" point).1 =
    <["a" := indexed_entry_new "a" (from_point (f64_of_Z 1) (f64_of_Z 2))]> (entries_by_id s).
Proof.
  intros point s.
  assert (∀ b, geo_envelope point = Ok (Some b) → regular_box b) as Hreg.
  { intros b [= <-]. split_and!; reflexivity. }
  assert (spatial_inv s) as Hs
    by apply (spatial_insert_spec spatial_new "a" point spatial_new_inv Hreg).
  split; [done|]. apply (spatial_insert_spec s "a" point Hs Hreg).
Defined.

End SpatialWitness.

(** ** Filtering *)

Section FilterSpec.
Context `{JT : JsonText} `{PT : Patterns}.

Lemma collect_filtered_serial cs o :
  collect_filtered
    ((λ c, rmap (λ ok, if (ok : bool) then Some c else None)
                (matches_candidate (cand_object c) o)) <$> cs) = filter_candidates_serial cs o.
Proof.
  induction cs as [|c cs IH]; [done|]. rewrite fmap_cons. cbn [collect_filtered].
  rewrite IH. cbn [filter_candidates_serial].
  destruct (matches_candidate (cand_object c) o) as [[]|e]; cbn [rmap rbind]; [..|done];
    by destruct (filter_candidates_serial cs o).
Qed.

(** Filtering in parallel gives the serial result: the same candidates in
    the same order and, when a filter fails, the same error. *)
Theorem filter_parallel_equals_serial (cs : list Candidate) (o : SearchOptions) :
  filter_candidates true cs o = filter_candidates false cs o.
Proof.
  unfold filter_candidates. destruct (PARALLEL_FILTER_THRESHOLD <=? length cs)%nat; [|done].
  apply collect_filtered_serial.
Qed.

(** *** Validated filters *)

Lemma validated_clause o clause : validate_clause clause = Ok tt →
  ∃ b, evaluate_clause o clause = Ok b.
Proof.
  unfold validate_clause, evaluate_clause, apply_operator, trim_quotes.
  destruct (find_operator operators clause) as [[[op lhs] rhs]|]; [|done]. rewrite trim_idemp.
  destruct (String.eqb op "=~").
  - destruct (compile_regex _) as [m|]; [|done]. by eexists.
  - intros _. repeat case_match; by eexists.
Qed.

Lemma validated_clauses o clauses : Forall (λ q, validate_clause q = Ok tt) clauses →
  ∃ b, evaluate_clauses o clauses = Ok b.
Proof.
  induction 1 as [|q qs Hq _ [b Hb]]; [by eexists|]. cbn [evaluate_clauses].
  destruct (validated_clause o q Hq) as [bq ->]. cbn [rbind]. destruct bq; by eexists.
Qed.

Lemma validated_branches o branches :
  Forall (λ br, Forall (λ q, validate_clause q = Ok tt) (parts "&&" br)) branches →
  ∃ b, evaluate_branches o branches = Ok b.
Proof.
  induction 1 as [|br brs Hbr _ [b Hb]]; [by eexists|]. cbn [evaluate_branches].
  destruct (validated_clauses o _ Hbr) as [bq ->]. cbn [rbind]. destruct bq; by eexists.
Qed.

Lemma try_for_each_Forall {A E} (f : A → result unit E) l :
  try_for_each f l = Ok tt → Forall (λ x, f x = Ok tt) l.
Proof.
  unfold try_for_each. induction l as [|x l IH]; [done|]. simpl.
  destruct (f x) as [[]|] eqn:Hx; [|done]. simpl. constructor; auto.
Qed.

(** The clauses the evaluation reaches are clauses the validation saw. *)
Lemma parts_validated e branch q :
  branch ∈ parts "||" e → q ∈ parts "&&" branch →
  q ∈ filter (λ item, item ≠ "") (trim <$> (split_str "||" e ≫= split_str "&&")).
Proof.
  unfold parts. intros [_ (b0 & -> & Hb0)%list_elem_of_fmap]%list_elem_of_filter.
  intros [Hq (q0 & -> & Hq0)%list_elem_of_fmap]%list_elem_of_filter.
  apply list_elem_of_filter. split; [done|].
  destruct (split_trim_piece "&" ["&"%char] b0 q0) as (q' & Hq' & Ht);
    [by repeat constructor | exact Hq0 |].
  rewrite <-Ht. apply list_elem_of_fmap_2, list_elem_of_bind. by exists b0.
Qed.

Lemma validated_expression o e : validate_expression e = Ok tt →
  ∃ b, evaluate_expression o e = Ok b.
Proof.
  unfold validate_expression, evaluate_expression. intros Hv.
  assert (Forall (λ br, Forall (λ q, validate_clause q = Ok tt) (parts "&&" br)) (parts "||" e)) as Hall.
  { apply Forall_forall. intros br Hbr. apply Forall_forall. intros q Hq.
    pose proof (parts_validated e br q Hbr Hq) as Hin.
    destruct (filter _ _) as [|q0 qs] eqn:E; [by apply elem_of_nil in Hin|].
    apply try_for_each_Forall in Hv. rewrite Forall_forall in Hv. by apply Hv. }
  destruct (parts "||" e) as [|br brs] eqn:E; [|by apply validated_branches].
  exfalso. destruct (filter _ (trim <$> _)) as [|q qs] eqn:Ef; [done|].
  assert (q ∈ q :: qs) as Hq by (by left). rewrite <-Ef in Hq.
  apply list_elem_of_filter in Hq as [Hq0 (q0 & -> & (b & Hq0b & Hb)%list_elem_of_bind)%list_elem_of_fmap].
  destruct (decide (trim b = "")) as [Ht|Ht].
  - pose proof (split_blank "&" ["&"%char] b Ht eq_refl) as Hb1.
    change (of_bytes _) with "&&" in Hb1. rewrite Hb1 in Hq0b.
    apply list_elem_of_singleton in Hq0b as ->. done.
  - assert (trim b ∈ parts "||" e) as Hin; [|rewrite E in Hin; by apply elem_of_nil in Hin].
    unfold parts. apply list_elem_of_filter. split; [done|]. by apply list_elem_of_fmap_2.
Qed.

Lemma all_match_total {A} (m : A → result bool IndexError) l :
  Forall (λ x, ∃ b, m x = Ok b) l → ∃ b, all_match m l = Ok b.
Proof.
  induction 1 as [|x l [b Hb] _ [bl Hl]]; [by eexists|]. cbn [all_match]. rewrite Hb. cbn [rbind].
  destruct b; by eexists.
Qed.

Lemma validated_matches o opts : validate_options opts = Ok tt →
  ∃ b, matches_candidate o opts = Ok b.
Proof.
  unfold validate_options. intros ([] & Hw%try_for_each_Forall & He%try_for_each_Forall)%rbind_Ok_inv.
  unfold matches_candidate. destruct (from_option _ _ (match_pattern opts)); [by eexists|].
  destruct (all_match_total (matches_where o) (where_filters opts)) as [b1 ->].
  { eapply Forall_impl; [exact Hw|]. intros f Hf. unfold matches_where. simpl in Hf.
    destruct (where_comparison f) as [| |pattern]; [by eexists.. |].
    destruct (compile_regex pattern); [by eexists | done]. }
  cbn [rbind]. destruct b1; cbn [negb]; [|by eexists].
  destruct (all_match_total (λ f, Ok (matches_where_in o f)) (where_in_filters opts)) as [b2 ->].
  { apply Forall_true. by eexists. }
  cbn [rbind]. destruct b2; cbn [negb]; [|by eexists].
  apply all_match_total. eapply Forall_impl; [exact He|]. intros f Hf.
  by apply validated_expression.
Qed.

End FilterSpec.

(** ** Paging *)

(** Sortedness on a set of elements where the relation is transitive. *)
Lemma Sorted_StronglySorted_on {A} (P : A → Prop) (R : relation A) (l : list A) :
  (∀ x y z, P x → P y → P z → R x y → R y z → R x z) → Forall P l →
  Sorted R l → StronglySorted R l.
Proof.
  intros Htr HP Hs. induction Hs as [|x l Hs IH Hhd]; [constructor|].
  apply Forall_cons in HP as [Hx HP]. specialize (IH HP). constructor; [done|].
  destruct l as [|y l]; [constructor|]. apply HdRel_inv in Hhd.
  apply Forall_cons in HP as [Hy HP]. constructor; [done|].
  apply StronglySorted_inv in IH as [_ IH].
  rewrite Forall_forall in IH, HP |- *. intros z Hz. eapply (Htr x y z); auto.
Qed.

Section Paging.
Context `{JT : JsonText} `{PT : Patterns} `{LM : Libm} `{GC : GeoCrate} `{SN : SelectNth}.

(** Candidates of one query: all have a distance, or none has. *)
Definition uniform (with_distance : bool) (c : Candidate) : Prop :=
  match cand_distance c with
  | Some d => with_distance = true ∧ is_nan d = false
  | None => with_distance = false
  end.

Definition ids_of (cs : list Candidate) : list string := (λ c, id (cand_object c)) <$> cs.

Lemma compare_candidates_swap d a b :
  compare_candidates d b a = CompOpp (compare_candidates d a b).
Proof.
  assert (compare_ids b a = CompOpp (compare_ids a b)) as Hi by apply String.compare_antisym.
  unfold compare_candidates.
  destruct (cand_distance a) as [da|], (cand_distance b) as [db|]; rewrite ?Hi;
    try (by destruct d, (compare_ids a b)).
  rewrite (fcompare_swap da db).
  destruct (SFcompare da db) as [[]|]; simpl; rewrite ?Hi; by destruct d, (compare_ids a b).
Qed.

#[export] Instance cand_le_total d : Total (cand_le d).
Proof.
  intros a b. unfold cand_le. rewrite (compare_candidates_swap d a b).
  destruct (compare_candidates d a b); simpl; [left|left|right]; congruence.
Qed.

(** The ascending order as a relation on distances and ids. *)
Definition asc_le (a b : Candidate) : Prop :=
  match cand_distance a, cand_distance b with
  | Some da, Some db =>
      SFleb da db = true ∧
      (SFleb db da = true → String.le (id (cand_object a)) (id (cand_object b)))
  | _, _ => String.le (id (cand_object a)) (id (cand_object b))
  end.

Lemma string_le_compare s t : String.le s t ↔ String.compare s t ≠ Gt.
Proof. unfold String.le, String.leb. destruct (String.compare s t); simpl; intuition congruence. Qed.

Lemma cand_le_spec u d a b : uniform u a → uniform u b →
  cand_le d a b ↔ if d then asc_le b a else asc_le a b.
Proof.
  assert (∀ a b, uniform u a → uniform u b → cand_le false a b ↔ asc_le a b) as Hasc.
  { clear a b. intros a b Ha Hb. unfold cand_le, asc_le, uniform, compare_candidates in *.
    destruct (cand_distance a) as [da|], (cand_distance b) as [db|];
      try (rewrite string_le_compare; done).
    rewrite string_le_compare. unfold SFleb. rewrite (fcompare_swap da db).
    destruct (SFcompare da db) as [[]|] eqn:E; simpl.
    - unfold compare_ids. intuition.
    - intuition congruence.
    - intuition congruence.
    - apply fcompare_nan in E. destruct Ha, Hb, E; congruence. }
  intros Ha Hb. destruct d; [|by apply Hasc].
  rewrite <-(Hasc b a Hb Ha). unfold cand_le. change true with (negb false).
  unfold compare_candidates at 1. cbn [negb].
  change (CompOpp (compare_candidates false a b) ≠ Gt ↔ compare_candidates false b a ≠ Gt).
  by rewrite <-(compare_candidates_swap false a b).
Qed.

Lemma asc_le_trans u a b c : uniform u a → uniform u b → uniform u c →
  asc_le a b → asc_le b c → asc_le a c.
Proof.
  unfold asc_le, uniform.
  destruct (cand_distance a), (cand_distance b), (cand_distance c); try (intuition congruence);
    try (intros _ _ _; apply (transitivity (R := String.le))).
  intros _ _ _ [H1 H2] [H3 H4]. split; [eauto using fleb_trans|]. intros H5.
  transitivity (id (cand_object b)); eauto using fleb_trans.
Qed.

Lemma cand_le_trans u d a b c : uniform u a → uniform u b → uniform u c →
  cand_le d a b → cand_le d b c → cand_le d a c.
Proof.
  intros Ha Hb Hc. rewrite !(cand_le_spec u) by done. destruct d; eauto using asc_le_trans.
Qed.

Lemma cand_le_antisymm u d a b : uniform u a → uniform u b →
  cand_le d a b → cand_le d b a → id (cand_object a) = id (cand_object b).
Proof.
  intros Ha Hb. rewrite !(cand_le_spec u) by done. unfold asc_le.
  destruct d; destruct (cand_distance a), (cand_distance b);
    intros H1 H2; apply (anti_symm String.le); naive_solver.
Qed.

Lemma NoDup_ids_inj cs a b : NoDup (ids_of cs) → a ∈ cs → b ∈ cs →
  id (cand_object a) = id (cand_object b) → a = b.
Proof.
  unfold ids_of. induction cs as [|c cs IH]; [intros _ Ha; by apply elem_of_nil in Ha|].
  rewrite fmap_cons, NoDup_cons. intros [Hc Hnd] Ha Hb Heq.
  apply elem_of_cons in Ha as [->|Ha], Hb as [->|Hb]; auto.
  - destruct Hc. rewrite Heq. by apply (list_elem_of_fmap_2 (λ c, id (cand_object c))).
  - destruct Hc. rewrite <-Heq. by apply (list_elem_of_fmap_2 (λ c, id (cand_object c))).
Qed.

(** Sorting is determined by the elements. *)
Lemma sorted_perm_eq u d cs l1 l2 :
  Forall (uniform u) cs → NoDup (ids_of cs) → l1 ≡ₚ cs → l2 ≡ₚ cs →
  Sorted (cand_le d) l1 → Sorted (cand_le d) l2 → l1 = l2.
Proof.
  intros Hu Hnd H1 H2 S1 S2.
  assert (Forall (uniform u) l1) as U1 by (by rewrite H1).
  assert (Forall (uniform u) l2) as U2 by (by rewrite H2).
  apply (StronglySorted_unique_strong (cand_le d)).
  - intros x y Hx Hy Hxy Hyx. rewrite H1 in Hx. rewrite H2 in Hy.
    rewrite Forall_forall in Hu. eapply NoDup_ids_inj; eauto.
    eapply (cand_le_antisymm u); eauto.
  - eapply Sorted_StronglySorted_on; eauto using cand_le_trans.
  - eapply Sorted_StronglySorted_on; eauto using cand_le_trans.
  - by rewrite H1, H2.
Qed.

Lemma Sorted_app_on {A} (R : relation A) l1 l2 :
  Sorted R l1 → Sorted R l2 → (∀ x y, x ∈ l1 → y ∈ l2 → R x y) → Sorted R (l1 ++ l2).
Proof.
  intros S1 S2 Hx. induction S1 as [|x l1 S1 IH Hhd]; [done|]. simpl. constructor.
  - apply IH. intros a b Ha Hb. apply Hx; [by right | done].
  - destruct l1 as [|y l1]; simpl; [|apply HdRel_inv in Hhd; by constructor].
    destruct l2 as [|z l2]; constructor. apply Hx; [by left | by left].
Qed.

Lemma page_sort_prefix u cs o stop :
  Forall (uniform u) cs → NoDup (ids_of cs) → stop ≤ length cs →
  take stop (sort_candidates_for_page cs o stop) = take stop (sort_candidates (is_desc o) cs).
Proof.
  intros Hu Hnd Hstop. unfold sort_candidates_for_page.
  destruct (Nat.leb_spec (length cs) 1) as [Hone|_].
  { destruct cs as [|c [|c' cs]]; [by destruct stop| |simpl in Hone; lia]. done. }
  destruct ((stop =? 0)%nat || _ || _) eqn:E; [done|].
  apply orb_false_iff in E as [[Hs0 Hsl]%orb_false_iff _].
  apply Nat.eqb_neq in Hs0. apply Nat.leb_gt in Hsl.
  set (d := is_desc o). set (l' := select_nth (stop - 1) (compare_candidates d) cs).
  pose proof (select_nth_perm (stop - 1) (compare_candidates d) cs) as Hperm. fold l' in Hperm.
  assert (orders (compare_candidates d) cs) as Hord.
  { rewrite Forall_forall in Hu. split; [intros; apply compare_candidates_swap|].
    intros a b c Ha Hb Hc. apply (cand_le_trans u d); auto. }
  pose proof (λ x y, select_nth_split (stop - 1) (compare_candidates d) cs x y Hord) as Hsplit.
  fold l' in Hsplit. replace (S (stop - 1)) with stop in Hsplit by lia.
  assert (length l' = length cs) as Hlen by (by rewrite Hperm).
  assert (sort_candidates d cs =
          sort_candidates d (take stop l') ++ sort_candidates d (drop stop l')) as ->.
  { unfold sort_candidates. apply (sorted_perm_eq u d cs); [done | done | | | |].
    - apply merge_sort_Permutation.
    - rewrite !merge_sort_Permutation, take_drop. done.
    - apply (Sorted_merge_sort _).
    - apply Sorted_app_on; [apply (Sorted_merge_sort _) | apply (Sorted_merge_sort _) |].
      intros x y Hx Hy. rewrite merge_sort_Permutation in Hx, Hy.
      specialize (Hsplit x y Hx Hy). unfold cand_le.
      rewrite (compare_candidates_swap d y x). destruct (compare_candidates d y x); simpl; congruence. }
  assert (length (sort_candidates d (take stop l')) = stop) as Hl.
  { unfold sort_candidates. rewrite merge_sort_Permutation, length_take. lia. }
  rewrite !take_app_length' by done. done.
Qed.

(** The slice of a page lies inside the sorted prefix. *)
Lemma page_slice u cs o start lim :
  Forall (uniform u) cs → NoDup (ids_of cs) →
  take lim (drop start (sort_candidates_for_page cs o (Nat.min (start + lim) (length cs)))) =
  take lim (drop start (sort_candidates (is_desc o) cs)).
Proof.
  intros Hu Hnd. set (stop := Nat.min (start + lim) (length cs)).
  pose proof (page_sort_prefix u cs o stop Hu Hnd ltac:(lia)) as Hpre.
  assert (length (sort_candidates_for_page cs o stop) = length cs) as L1.
  { unfold sort_candidates_for_page. repeat case_match; [done|..]; unfold sort_candidates.
    - by rewrite merge_sort_Permutation.
    - by rewrite length_app, merge_sort_Permutation, <-length_app, take_drop, select_nth_perm. }
  assert (length (sort_candidates (is_desc o) cs) = length cs) as L2.
  { unfold sort_candidates. by rewrite merge_sort_Permutation. }
  assert (∀ l : list Candidate, length l = length cs →
            take lim (drop start l) = drop start (take stop l)) as Hcut.
  { intros l Hl. rewrite skipn_firstn_comm. unfold stop.
    destruct (Nat.le_gt_cases (start + lim) (length cs)).
    - rewrite Nat.min_l by done. f_equal. lia.
    - rewrite Nat.min_r by lia. rewrite !take_ge; [done|rewrite length_drop; lia..]. }
  rewrite !Hcut by done. by rewrite Hpre.
Qed.

(** ** Properties *)

(** A page is the requested slice of the fully sorted matches, also when
    only a prefix was selected and sorted. *)
Theorem page_is_slice_of_sorted (u : bool) (cs : list Candidate) (o : SearchOptions)
    (start lim : nat) (Huniform : Forall (uniform u) cs) (Hids : NoDup (ids_of cs)) :
  take lim (drop start (sort_candidates_for_page cs o (Nat.min (start + lim) (length cs)))) =
  take lim (drop start (sort_candidates (is_desc o) cs)).
Proof. by apply (page_slice u). Qed.

Definition with_cursor (o : SearchOptions) (c : Z) : SearchOptions :=
  mkOptions c (limit o) (nofields o) (include_count o) (match_pattern o) (sort o)
    (where_filters o) (where_in_filters o) (where_expr_filters o) (clip o) (output o).

(** A client that follows the returned cursor until it is 0: the items it
    received when it reached the cursor 0, the error of the page that failed,
    or [None] when after [fuel] requests the cursor still is not 0. *)
Fixpoint all_pages (fuel : nat) (parallel : bool) (cs : list Candidate) (o : SearchOptions)
    (area : option Area) (allow_clip : bool) : option (result (list SearchItem) IndexError) :=
  match fuel with
  | 0 => None
  | S fuel' =>
      match apply_search_options parallel cs o area allow_clip with
      | Err err => Some (Err err)
      | Ok page =>
          if (results_cursor page =? 0)%Z then Some (Ok (results page))
          else rmap (λ rest, results page ++ rest) <$>
                 all_pages fuel' parallel cs (with_cursor o (results_cursor page)) area allow_clip
      end
  end.

Lemma format_page_app l1 l2 o area ac :
  format_page (l1 ++ l2) o area ac =
  (let? a := format_page l1 o area ac in let? b := format_page l2 o area ac in Ok (a ++ b)).
Proof.
  induction l1 as [|c l1 IH]; simpl; [by destruct (format_page l2 o area ac)|].
  rewrite IH. destruct (format_object _ _ _ _); simpl; [|done].
  destruct (format_page l1 o area ac); simpl; [|done].
  by destruct (format_page l2 o area ac).
Qed.

Lemma filter_serial_sublist cs o fs :
  filter_candidates_serial cs o = Ok fs → sublist fs cs.
Proof.
  revert fs. induction cs as [|c cs IH]; intros fs Hf; simpl in Hf; [simplify_eq; constructor|].
  destruct (matches_candidate _ _) as [b|]; simpl in Hf; [|done].
  destruct (filter_candidates_serial cs o) as [fs'|]; simpl in Hf; [|done].
  simplify_eq. specialize (IH fs' eq_refl). destruct b; by constructor.
Qed.

Lemma filter_with_cursor p cs o c :
  filter_candidates p cs (with_cursor o c) = filter_candidates p cs o.
Proof.
  unfold filter_candidates. destruct (p && _).
  - reflexivity.
  - induction cs as [|x cs IH]; [done|]. simpl. rewrite IH. reflexivity.
Qed.

Lemma format_with_cursor cs o c area ac :
  format_page cs (with_cursor o c) area ac = format_page cs o area ac.
Proof. induction cs as [|x cs IH]; [done|]. simpl. rewrite IH. reflexivity. Qed.

Lemma format_page_ids cs o area ac items :
  format_page cs o area ac = Ok items → item_id <$> items = ids_of cs.
Proof.
  revert items. induction cs as [|c cs IH]; intros items Hf; simpl in Hf; [by simplify_eq|].
  destruct (format_object _ _ _ _) as [g|]; simpl in Hf; [|done].
  destruct (format_page cs o area ac) as [rest|] eqn:E; simpl in Hf; [|done].
  simplify_eq. unfold ids_of in *. simpl. f_equal. by apply IH.
Qed.

Lemma filter_candidates_serial_eq p cs o :
  filter_candidates p cs o = filter_candidates_serial cs o.
Proof.
  unfold filter_candidates. destruct (p && _); [|done]. apply collect_filtered_serial.
Qed.

Lemma Forall_sublist {A} (P : A → Prop) l1 l2 : sublist l1 l2 → Forall P l2 → Forall P l1.
Proof.
  induction 1; rewrite ?Forall_cons; intuition.
Qed.

Lemma as_u32_small n : (Z.of_nat n < 2 ^ 32)%Z → as_u32 n = Z.of_nat n.
Proof. intros. unfold as_u32. apply Z.mod_small. lia. Qed.

Lemma fast_ids_cursor o c : (c ≠ 0)%Z → fast_limited_ids (with_cursor o c) = false.
Proof.
  intros Hc. unfold fast_limited_ids. cbn [cursor with_cursor].
  rewrite (proj2 (Z.eqb_neq c 0) Hc). by rewrite andb_false_r.
Qed.

(** One page, when the full listing can be formatted. *)
Lemma page_step u p cs o area ac fs start :
  Forall (uniform u) fs → NoDup (ids_of fs) →
  filter_candidates p cs o = Ok fs → (Z.of_nat (length fs) < 2 ^ 32)%Z →
  fast_limited_ids (with_cursor o (Z.of_nat start)) = false → output o ≠ Count →
  ∃ count, apply_search_options p cs (with_cursor o (Z.of_nat start)) area ac =
  (let? items := format_page (take (page_limit o)
                   (drop start (sort_candidates (is_desc o) fs))) o area ac in
   Ok (mkResults items
         (if (start + page_limit o <? length fs)%nat then Z.of_nat (start + page_limit o) else 0%Z)
         count)).
Proof.
  intros Hu Hnd Hfs Hlen Hfast Hout. unfold apply_search_options.
  rewrite Hfast, filter_with_cursor, Hfs. cbn [rbind].
  change (output (with_cursor o (Z.of_nat start))) with (output o).
  change (page_limit (with_cursor o (Z.of_nat start))) with (page_limit o).
  change (cursor (with_cursor o (Z.of_nat start))) with (Z.of_nat start).
  rewrite Nat2Z.id. set (stop := Nat.min _ _).
  assert ((if (stop <? length fs)%nat then as_u32 stop else 0%Z) =
          (if (start + page_limit o <? length fs)%nat
           then Z.of_nat (start + page_limit o) else 0%Z)) as Hcur.
  { unfold stop. destruct (Nat.ltb_spec (start + page_limit o) (length fs)).
    - rewrite Nat.min_l by lia. rewrite (proj2 (Nat.ltb_lt _ _)) by done.
      apply as_u32_small. lia.
    - rewrite Nat.min_r by lia. by rewrite Nat.ltb_irrefl. }
  pose proof (page_slice u fs (with_cursor o (Z.of_nat start)) start (page_limit o) Hu Hnd) as Hs.
  fold stop in Hs. change (is_desc (with_cursor o (Z.of_nat start))) with (is_desc o) in Hs.
  exists (if include_count o then as_u32 (length fs) else as_u32 (stop - start)).
  rewrite Hs, format_with_cursor, Hcur. destruct (output o); try done.
Qed.

Lemma all_pages_from u p cs o area ac fs fuel : ∀ start items,
  Forall (uniform u) fs → NoDup (ids_of fs) →
  filter_candidates p cs o = Ok fs → (Z.of_nat (length fs) < 2 ^ 32)%Z →
  fast_limited_ids (with_cursor o (Z.of_nat start)) = false → output o ≠ Count →
  length fs < start + fuel → fuel ≠ 0 →
  format_page (drop start (sort_candidates (is_desc o) fs)) o area ac = Ok items →
  all_pages fuel p cs (with_cursor o (Z.of_nat start)) area ac = Some (Ok items).
Proof.
  induction fuel as [|fuel IH]; intros start items Hu Hnd Hfs Hlen Hfast Hout Hfuel Hf0 Hitems;
    [done|].
  cbn [all_pages].
  destruct (page_step u p cs o area ac fs start Hu Hnd Hfs Hlen Hfast Hout) as [count ->].
  set (lim := page_limit o). assert (1 ≤ lim) by (unfold lim, page_limit; lia).
  set (srt := sort_candidates (is_desc o) fs) in *.
  assert (length srt = length fs) as Hsl.
  { unfold srt, sort_candidates. by rewrite merge_sort_Permutation. }
  rewrite <-(take_drop lim (drop start srt)), format_page_app in Hitems.
  destruct (format_page (take lim (drop start srt)) o area ac) as [page|]; [|done].
  cbn [rbind] in Hitems |- *. cbn [results_cursor results].
  rewrite drop_drop in Hitems.
  destruct (format_page (drop (start + lim) srt) o area ac) as [rest|] eqn:Hrest; [|done].
  cbn [rbind] in Hitems. simplify_eq.
  destruct (Nat.ltb_spec (start + lim) (length fs)) as [Hlt|Hge].
  - rewrite (proj2 (Z.eqb_neq _ _)) by lia.
    change (with_cursor (with_cursor o (Z.of_nat start)) (Z.of_nat (start + lim)))
      with (with_cursor o (Z.of_nat (start + lim))).
    rewrite (IH (start + lim) rest); try done; try lia.
    apply fast_ids_cursor. lia.
  - cbn [Z.eqb]. rewrite drop_ge in Hrest by lia. simpl in Hrest. simplify_eq.
    by rewrite app_nil_r.
Qed.

(** C37: a client that follows the returned cursor from the first page until it
    comes back as 0 reaches the cursor 0 within one request more than there
    are candidates, and has then received every match exactly once, in sort
    order.  The options keep their limit and filters along the walk, the
    output is not a bare count and not the unsorted shortcut for ids, every
    candidate has a distance or none has, their ids are distinct and fewer
    than 2^32, and every match can be filtered and formatted. *)
Theorem cursor_walk_complete (u p : bool) (cs : list Candidate) (o : SearchOptions)
    (area : option Area) (ac : bool) (fs : list Candidate) (items : list SearchItem)
    (Huniform : Forall (uniform u) cs) (Hids : NoDup (ids_of cs))
    (Hlen : (Z.of_nat (length cs) < 2 ^ 32)%Z)
    (Hstart : cursor o = 0%Z) (Hfast : fast_limited_ids o = false) (Hout : output o ≠ Count)
    (Hfilter : filter_candidates p cs o = Ok fs)
    (Hformat : format_page (sort_candidates (is_desc o) fs) o area ac = Ok items) :
  all_pages (S (length cs)) p cs o area ac = Some (Ok items) ∧
  item_id <$> items = ids_of (sort_candidates (is_desc o) fs) ∧
  NoDup (item_id <$> items).
Proof.
  assert (sublist fs cs) as Hsub.
  { rewrite filter_candidates_serial_eq in Hfilter. by eapply filter_serial_sublist. }
  assert (Forall (uniform u) fs) by (by eapply Forall_sublist).
  assert (NoDup (ids_of fs)).
  { eapply sublist_NoDup; [exact Hids|]. unfold ids_of. by apply fmap_sublist. }
  apply sublist_length in Hsub as Hle.
  assert (o = with_cursor o (Z.of_nat 0)) as Ho.
  { destruct o. simpl in Hstart. by subst. }
  assert (item_id <$> items = ids_of (sort_candidates (is_desc o) fs)) as Hi
    by (by eapply format_page_ids).
  split_and!; [|done|].
  - rewrite Ho at 1. apply (all_pages_from u p cs o area ac fs); try done; [lia| |lia].
    by rewrite <-Ho.
  - rewrite Hi. unfold ids_of, sort_candidates. by rewrite merge_sort_Permutation.
Qed.

End Paging.

(** Selection by sorting, to run the model on concrete data. *)
Module SortSelect.

Definition by_cmp {A} (cmp : A → A → comparison) (x y : A) : Prop :=
  cmp x y ≠ Gt ∨ cmp y x = Gt.

#[export] Instance by_cmp_dec {A} (cmp : A → A → comparison) : RelDecision (by_cmp cmp).
Proof. intros x y. unfold by_cmp. destruct (cmp x y), (cmp y x); solve_decision. Defined.

#[export] Instance by_cmp_total {A} (cmp : A → A → comparison) : Total (by_cmp cmp).
Proof. intros x y. unfold by_cmp. destruct (cmp x y); auto; left; left; congruence. Qed.

#[export] Instance sort_select : SelectNth.
Proof.
  refine {| select_nth A n cmp l := merge_sort (by_cmp cmp) l |}.
  - intros. apply merge_sort_Permutation.
  - intros A n cmp l x y [Hsw Htr] Hx Hy.
    set (l' := merge_sort (by_cmp cmp) l) in *.
    assert (∀ z, z ∈ l' → z ∈ l) as Hin by (intros z; unfold l'; by rewrite merge_sort_Permutation).
    assert (∀ a b, a ∈ l → b ∈ l → by_cmp cmp a b → cmp a b ≠ Gt) as Hby.
    { intros a b Ha Hb [?|Hgt]; [done|]. rewrite (Hsw b a Hb Ha), Hgt. done. }
    assert (StronglySorted (by_cmp cmp) l') as Hs.
    { apply (Sorted_StronglySorted_on (λ z, z ∈ l)).
      - intros a b c Ha Hb Hc H1 H2. left. apply (Htr a b c Ha Hb Hc); auto.
      - by apply Forall_forall.
      - apply (Sorted_merge_sort _). }
    rewrite <-(take_drop (S n) l') in Hs. apply StronglySorted_app in Hs as [Hs _].
    specialize (Hs x y Hx Hy).
    assert (x ∈ l') as Hx' by (rewrite <-(take_drop (S n) l'); apply elem_of_app; by left).
    assert (y ∈ l') as Hy' by (rewrite <-(take_drop (S n) l'); apply elem_of_app; by right).
    clear Hx Hy. apply Hin in Hx' as Hx, Hy' as Hy.
    rewrite (Hsw x y Hx Hy). specialize (Hby x y Hx Hy Hs). destruct (cmp x y); simpl; congruence.
Defined.

End SortSelect.

(** Text interfaces that match literally. *)
Module PlainText.

#[export] Instance json_text : JsonText := {
  json_from_str s := Some (VString s);
  json_to_string _ := "json"
}.

#[export] Instance patterns : Patterns := {
  glob_match p s := String.eqb p s || String.eqb p "*";
  regex_new p := Ok (String.eqb p)
}.

End PlainText.

Module PagingWitness.
Import NoGeoJson SortSelect PlainText.

Definition candidate_n (name : string) : Candidate :=
  mkCandidate (mkObject name (GtString "x") ∅ None) None.
Definition three : list Candidate := [candidate_n "b"; candidate_n "c"; candidate_n "a"].
Definition two_per_page : SearchOptions :=
  mkOptions 0 2 false true None Desc [] [] [] false Objects.

Lemma three_uniform : Forall (uniform false) three.
Proof. repeat (apply Forall_cons_2; [reflexivity|]). apply Forall_nil_2. Qed.

Lemma three_ids : NoDup (ids_of three).
Proof. apply (bool_decide_unpack _). vm_compute. exact I. Qed.

Lemma page_is_slice_of_sorted_witness :
  take 2 (drop 1 (sort_candidates_for_page three two_per_page 3)) =
  take 2 (drop 1 (sort_candidates true three)).
Proof.
  apply (page_is_slice_of_sorted false three two_per_page 1 2 three_uniform three_ids).
Defined.

Lemma cursor_walk_complete_witness :
  fmap (M := option) (rmap (fmap (M := list) item_id))
    (all_pages 4 true three two_per_page None false) = Some (Ok ["c"; "b"; "a"]).
Proof.
  destruct (cursor_walk_complete false true three two_per_page None false three
    [mkItem "c" (Some (GtString "x")) (Some ∅) None; mkItem "b" (Some (GtString "x")) (Some ∅) None;
     mkItem "a" (Some (GtString "x")) (Some ∅) None] three_uniform three_ids) as [Hp _];
    [reflexivity..|discriminate|reflexivity|vm_compute; reflexivity|].
  change (S (length three)) with 4 in Hp. rewrite Hp. reflexivity.
Defined.

End PagingWitness.
