(* ===== verification/Geofence.v ===== *)
(** * Geofences ([crates/latlng-geofence/src/lib.rs])

    The registry of channels and hooks with its per-collection indexes, the
    evaluation of a mutation against static and roaming fences, and the
    delivery of events to subscribers.

    A subscriber's sender and receiver share one mailbox: the registry keeps
    the mailboxes, a receiver is an index into them with its own position.
    Likewise the generation counter is the registry's, read by receivers. *)

From Stdlib Require Import ZArith Lia SpecFloat.
From stdpp Require Import base gmap strings list sorting.
From S2P Require Import Prelude F64 Json Platform Geo Strings Index.

Definition DEFAULT_SUBSCRIBER_QUEUE_CAPACITY : nat := 4096.

(** ** Data *)

Inductive GeofenceError : Type :=
  | GfGeo (e : GeoError)
  | GfIndex (e : IndexError).

Inductive MutationCommand : Type := MSet | MDel | MDrop | MFset.
Inductive DetectType : Type := DInside | DOutside | DEnter | DExit | DCross | DRoam.

#[export] Instance MutationCommand_eq_dec : EqDecision MutationCommand.
Proof. solve_decision. Defined.
#[export] Instance DetectType_eq_dec : EqDecision DetectType.
Proof. solve_decision. Defined.

Inductive GeofenceQuery : Type :=
  | QNearby (lat lon meters : f64) (options : SearchOptions)
  | QWithin (area : Area) (options : SearchOptions)
  | QIntersects (area : Area) (options : SearchOptions)
  | QRoam (target_collection target_pattern : string) (meters : f64) (options : SearchOptions)
          (nodwell : bool).

Record GeofenceDef := mkDef {
  def_collection : string;
  def_query : GeofenceQuery;
  def_detect : list DetectType;
  def_commands : list MutationCommand
}.

Record ChannelDef := mkChannelDef { channel_name : string; channel_fence : GeofenceDef }.
Record HookDef := mkHookDef { hook_name : string; hook_url : string; hook_fence : GeofenceDef }.
Record HookInfo := mkHookInfo {
  info_name : string; info_endpoint : string; info_collection : string
}.

Record RoamingInfo := mkRoaming {
  roam_collection : string;
  roam_id : string;
  roam_meters : f64
}.

Record GeofenceEvent := mkEvent {
  ev_command : MutationCommand;
  ev_detect : DetectType;
  ev_collection : string;
  ev_id : string;
  ev_object : GeoType;
  ev_fields : FieldMap;
  ev_timestamp_ns : Z;
  ev_event_id : option string;
  ev_job_id : option string;
  ev_hook : option string;
  ev_group : option string;
  ev_nearby : option RoamingInfo;
  ev_generation : Z
}.

Record MutationEvent := mkMutation {
  mu_command : MutationCommand;
  mu_collection : string;
  mu_id : string;
  mu_before : option Object;
  mu_after : option Object;
  mu_timestamp_ns : Z
}.

Record StoredState := mkStored {
  st_objects : gmap string bool;
  st_pairs : gmap (string * string) bool
}.

Definition empty_state : StoredState := mkStored ∅ ∅.

Inductive StoredStateUpdate : Type :=
  | UNone
  | UObject (i : string) (inside : option bool)
  | UReplace (next : StoredState).

Definition apply_update (u : StoredStateUpdate) (s : StoredState) : StoredState :=
  match u with
  | UNone => s
  | UObject i (Some inside) => mkStored (<[i := inside]> (st_objects s)) (st_pairs s)
  | UObject i None => mkStored (delete i (st_objects s)) (st_pairs s)
  | UReplace next => next
  end.

Record StoredGeofence := mkFence { fence_def : GeofenceDef; fence_state : StoredState }.
Record StoredHook := mkHook { endpoint : string; hook_geofence : StoredGeofence }.

Record Subscriber := mkSubscriber {
  sub_exact : list string;
  sub_patterns : list string;
  sub_mailbox : MailboxState GeofenceEvent
}.

Record GeofenceRegistry := mkRegistry {
  subscriber_queue_capacity : nat;
  channels : gmap string StoredGeofence;
  channels_by_collection : gmap string (list string);
  channels_by_target_collection : gmap string (list string);
  hooks : gmap string StoredHook;
  hooks_by_collection : gmap string (list string);
  hooks_by_target_collection : gmap string (list string);
  cross_collection_roaming_collections : gset string;
  subscribers : list Subscriber;
  generation : Z;
  eval_errors_total : Z
}.

Record GeofenceEventReceiver := mkReceiver { receiver_index : nat; receiver_position : Z }.

Record PreparedMutation := mkPrepared {
  channel_states : list (string * StoredStateUpdate);
  hook_states : list (string * StoredStateUpdate);
  events : list GeofenceEvent;
  eval_errors : Z
}.

Definition registry_new (capacity : nat) : GeofenceRegistry :=
  mkRegistry (Nat.max capacity 1) ∅ ∅ ∅ ∅ ∅ ∅ ∅ [] 0 0.

(** ** Indexes *)

Definition push_index_name (index : gmap string (list string)) (collection name : string)
    : gmap string (list string) :=
  let names := default [] (index !! collection) in
  <[collection := if bool_decide (name ∈ names) then names else names ++ [name]]> index.

Definition remove_index_name (index : gmap string (list string)) (collection name : string)
    : gmap string (list string) :=
  match index !! collection with
  | None => index
  | Some names =>
      match filter (λ candidate, candidate ≠ name) names with
      | [] => delete collection index
      | names' => <[collection := names']> index
      end
  end.

Definition has_indexed_names (index : gmap string (list string)) (collection : string) : bool :=
  match index !! collection with Some (_ :: _) => true | _ => false end.

(** The collection a roaming fence watches besides its own. *)
Definition roam_target (d : GeofenceDef) : option string :=
  match def_query d with QRoam target _ _ _ _ => Some target | _ => None end.

Definition insert_indexes (by_collection by_target : gmap string (list string)) (name : string)
    (d : GeofenceDef) : gmap string (list string) * gmap string (list string) :=
  (push_index_name by_collection (def_collection d) name,
   from_option (λ target, push_index_name by_target target name) by_target (roam_target d)).

Definition remove_indexes (by_collection by_target : gmap string (list string)) (name : string)
    (d : GeofenceDef) : gmap string (list string) * gmap string (list string) :=
  (remove_index_name by_collection (def_collection d) name,
   from_option (λ target, remove_index_name by_target target name) by_target (roam_target d)).

(** [collect_indexed_names] over the two indexes: first occurrences, in order. *)
Fixpoint collect_indexed_names (seen : gset string) (names : list string)
    : list string * gset string :=
  match names with
  | [] => ([], seen)
  | name :: rest =>
      if bool_decide (name ∈ seen) then collect_indexed_names seen rest
      else let '(out, seen') := collect_indexed_names ({[name]} ∪ seen) rest in
           (name :: out, seen')
  end.

Definition relevant_names (by_collection by_target : gmap string (list string))
    (collection : string) : list string :=
  let '(first, seen) := collect_indexed_names ∅ (default [] (by_collection !! collection)) in
  first ++ (collect_indexed_names seen (default [] (by_target !! collection))).1.

Definition relevant_channel_names (r : GeofenceRegistry) (collection : string) : list string :=
  relevant_names (channels_by_collection r) (channels_by_target_collection r) collection.
Definition relevant_hook_names (r : GeofenceRegistry) (collection : string) : list string :=
  relevant_names (hooks_by_collection r) (hooks_by_target_collection r) collection.

Definition cross_collections (d : GeofenceDef) : gset string :=
  match roam_target d with
  | Some target =>
      if String.eqb target (def_collection d) then ∅ else {[ def_collection d; target ]}
  | None => ∅
  end.

Definition hook_def_of (h : StoredHook) : GeofenceDef := fence_def (hook_geofence h).

(** [refresh_cross_collection_roaming_collections]. *)
Definition cross_of (chans : gmap string StoredGeofence) (hks : gmap string StoredHook)
    : gset string :=
  ⋃ (cross_collections <$>
       ((fence_def ∘ snd <$> map_to_list chans) ++ (hook_def_of ∘ snd <$> map_to_list hks))).

(** ** Registry operations *)

Definition set_channels (r : GeofenceRegistry) (chans : gmap string StoredGeofence)
    (indexes : gmap string (list string) * gmap string (list string)) : GeofenceRegistry :=
  mkRegistry (subscriber_queue_capacity r) chans indexes.1 indexes.2
    (hooks r) (hooks_by_collection r) (hooks_by_target_collection r)
    (cross_of chans (hooks r)) (subscribers r) (generation r) (eval_errors_total r).

Definition set_hooks (r : GeofenceRegistry) (hks : gmap string StoredHook)
    (indexes : gmap string (list string) * gmap string (list string)) : GeofenceRegistry :=
  mkRegistry (subscriber_queue_capacity r) (channels r) (channels_by_collection r)
    (channels_by_target_collection r) hks indexes.1 indexes.2
    (cross_of (channels r) hks) (subscribers r) (generation r) (eval_errors_total r).

Definition set_channel (r : GeofenceRegistry) (name : string) (d : GeofenceDef)
    : GeofenceRegistry :=
  let '(bc, bt) :=
    match channels r !! name with
    | Some previous =>
        remove_indexes (channels_by_collection r) (channels_by_target_collection r) name
          (fence_def previous)
    | None => (channels_by_collection r, channels_by_target_collection r)
    end in
  set_channels r (<[name := mkFence d empty_state]> (delete name (channels r)))
    (insert_indexes bc bt name d).

Definition del_channel (r : GeofenceRegistry) (name : string) : GeofenceRegistry * bool :=
  match channels r !! name with
  | None => (r, false)
  | Some stored =>
      (set_channels r (delete name (channels r))
         (remove_indexes (channels_by_collection r) (channels_by_target_collection r) name
            (fence_def stored)), true)
  end.

Definition set_hook (r : GeofenceRegistry) (name url : string) (d : GeofenceDef)
    : GeofenceRegistry :=
  let '(bc, bt) :=
    match hooks r !! name with
    | Some previous =>
        remove_indexes (hooks_by_collection r) (hooks_by_target_collection r) name
          (hook_def_of previous)
    | None => (hooks_by_collection r, hooks_by_target_collection r)
    end in
  set_hooks r (<[name := mkHook url (mkFence d empty_state)]> (delete name (hooks r)))
    (insert_indexes bc bt name d).

Definition del_hook (r : GeofenceRegistry) (name : string) : GeofenceRegistry * bool :=
  match hooks r !! name with
  | None => (r, false)
  | Some stored =>
      (set_hooks r (delete name (hooks r))
         (remove_indexes (hooks_by_collection r) (hooks_by_target_collection r) name
            (hook_def_of stored)), true)
  end.

Definition clear_all (r : GeofenceRegistry) : GeofenceRegistry :=
  mkRegistry (subscriber_queue_capacity r) ∅ ∅ ∅ ∅ ∅ ∅ ∅ (subscribers r)
    (saturating_add (generation r) 1) (eval_errors_total r).

Definition requires_exclusive_roam_path (r : GeofenceRegistry) (collection : string) : bool :=
  bool_decide (collection ∈ cross_collection_roaming_collections r).

Definition has_relevant_side_effects (r : GeofenceRegistry) (collection : string) : bool :=
  has_indexed_names (channels_by_collection r) collection ||
  has_indexed_names (channels_by_target_collection r) collection ||
  has_indexed_names (hooks_by_collection r) collection ||
  has_indexed_names (hooks_by_target_collection r) collection.

(** *** Listings *)

Definition channel_defs (r : GeofenceRegistry) : list ChannelDef :=
  (λ '(name, stored), mkChannelDef name (fence_def stored)) <$> btree_iter (channels r).

Definition channel_def (r : GeofenceRegistry) (name : string) : option ChannelDef :=
  (λ stored, mkChannelDef name (fence_def stored)) <$> channels r !! name.

Definition hook_defs (r : GeofenceRegistry) : list HookDef :=
  (λ '(name, stored), mkHookDef name (endpoint stored) (hook_def_of stored)) <$>
    btree_iter (hooks r).

Definition hook_def (r : GeofenceRegistry) (name : string) : option HookDef :=
  (λ stored, mkHookDef name (endpoint stored) (hook_def_of stored)) <$> hooks r !! name.

Section Evaluation.
Context `{HO : HashOrder} `{JT : JsonText} `{PT : Patterns} `{LM : Libm} `{GC : GeoCrate}.

(** [keys().filter(glob).collect()], in the map's iteration order. *)
Definition glob_names {V} (m : gmap string V) (pattern : string) : list string :=
  filter (λ name, glob_match pattern name) (hash_iter m).*1.

Definition pdel_channel (r : GeofenceRegistry) (pattern : string) : GeofenceRegistry * Z :=
  let names := glob_names (channels r) pattern in
  (foldl (λ r name, (del_channel r name).1) r names, Z.of_nat (length names)).

Definition pdel_hook (r : GeofenceRegistry) (pattern : string) : GeofenceRegistry * Z :=
  let names := glob_names (hooks r) pattern in
  (foldl (λ r name, (del_hook r name).1) r names, Z.of_nat (length names)).

Definition channel_names (r : GeofenceRegistry) (pattern : string) : list string :=
  filter (λ name, glob_match pattern name) (btree_iter (channels r)).*1.

Definition hook_infos (r : GeofenceRegistry) (pattern : string) : list HookInfo :=
  (λ '(name, h), mkHookInfo name (endpoint h) (def_collection (hook_def_of h))) <$>
    filter (λ nh, glob_match pattern nh.1) (btree_iter (hooks r)).

(** *** Subscriptions *)

Definition add_subscriber (r : GeofenceRegistry) (exact patterns : list string)
    : GeofenceRegistry * GeofenceEventReceiver :=
  let s := mkSubscriber exact patterns (mailbox_new (subscriber_queue_capacity r)) in
  (mkRegistry (subscriber_queue_capacity r) (channels r) (channels_by_collection r)
     (channels_by_target_collection r) (hooks r) (hooks_by_collection r)
     (hooks_by_target_collection r) (cross_collection_roaming_collections r)
     (subscribers r ++ [s]) (generation r) (eval_errors_total r),
   mkReceiver (length (subscribers r)) 0).

Definition subscribe (r : GeofenceRegistry) (names : list string) := add_subscriber r names [].
Definition psubscribe (r : GeofenceRegistry) (patterns : list string) :=
  add_subscriber r [] patterns.

Definition subscriber_matches (s : Subscriber) (group : string) : bool :=
  existsb (String.eqb group) (sub_exact s) ||
  existsb (λ pattern, glob_match pattern group) (sub_patterns s).

Definition publish_to (e : GeofenceEvent) (s : Subscriber) : Subscriber :=
  match ev_group e with
  | None => s
  | Some group =>
      if subscriber_matches s group
      then mkSubscriber (sub_exact s) (sub_patterns s) (push (sub_mailbox s) e)
      else s
  end.

Definition with_generation (e : GeofenceEvent) (g : Z) : GeofenceEvent :=
  mkEvent (ev_command e) (ev_detect e) (ev_collection e) (ev_id e) (ev_object e) (ev_fields e)
    (ev_timestamp_ns e) (ev_event_id e) (ev_job_id e) (ev_hook e) (ev_group e) (ev_nearby e) g.

(** [try_recv]: skips events of earlier generations.  Every turn that goes on
    advances the position past an item, so the items bound the turns. *)
Fixpoint try_recv_loop (fuel : nat) (current : Z) (m : MailboxState GeofenceEvent) (position : Z)
    : Z * option GeofenceEvent :=
  match fuel with
  | 0 => (position, None)
  | S fuel' =>
      match receive_from_state m position with
      | (position', None) => (position', None)
      | (position', Some e) =>
          if (current <=? ev_generation e)%Z then (position', Some e)
          else try_recv_loop fuel' current m position'
      end
  end.

Definition try_recv (r : GeofenceRegistry) (rc : GeofenceEventReceiver)
    : GeofenceEventReceiver * option GeofenceEvent :=
  match subscribers r !! receiver_index rc with
  | None => (rc, None)
  | Some s =>
      let m := sub_mailbox s in
      let '(position, e) :=
        try_recv_loop (S (length (items m))) (generation r) m (receiver_position rc) in
      (mkReceiver (receiver_index rc) position, e)
  end.

(** ** Evaluation of one fence *)

Definition object_matches_query (o : Object) (d : GeofenceDef) : result bool GeofenceError :=
  match def_query d with
  | QNearby lat lon meters options =>
      let near p := SFleb (haversine_distance_meters lat lon p.1 p.2) meters in
      let within_distance :=
        match point_coordinates (geo o) with
        | Some p => near p
        | None =>
            match geo_envelope (geo o) with
            | Ok (Some bounds) => near (center bounds)
            | _ => false
            end
        end in
      if negb within_distance then Ok false
      else map_err GfIndex (matches_candidate o options)
  | QWithin area options =>
      let? inside := map_err GfGeo (contains_geo area (geo o)) in
      if negb inside then Ok false else map_err GfIndex (matches_candidate o options)
  | QIntersects area options =>
      let? inside := map_err GfGeo (intersects_geo area (geo o)) in
      if negb inside then Ok false else map_err GfIndex (matches_candidate o options)
  | QRoam _ _ _ options _ => map_err GfIndex (matches_candidate o options)
  end.

Definition crossed_boundary (e : MutationEvent) (d : GeofenceDef) : result bool GeofenceError :=
  match mu_before e ≫= (point_coordinates ∘ geo), mu_after e ≫= (point_coordinates ∘ geo) with
  | Some (before_lat, before_lon), Some (after_lat, after_lon) =>
      let line := GLineString (linestring_from
                    [mkCoord before_lon before_lat; mkCoord after_lon after_lat]) in
      let against a := rmap (λ g, geo_intersects g line) (map_err GfGeo (area_to_geometry a)) in
      match def_query d with
      | QNearby lat lon meters _ => against (ACircle lat lon meters)
      | QWithin area _ | QIntersects area _ => against area
      | QRoam _ _ _ _ _ => Ok false
      end
  | _, _ => Ok false
  end.

Definition command_allowed (d : GeofenceDef) (e : MutationEvent) : bool :=
  is_nil (def_commands d) || bool_decide (mu_command e ∈ def_commands d).
Definition detect_allowed (d : GeofenceDef) (t : DetectType) : bool :=
  is_nil (def_detect d) || bool_decide (t ∈ def_detect d).

(** The current object of a mutation, or the one it removed. *)
Definition event_object (e : MutationEvent) : option Object :=
  match mu_after e with Some o => Some o | None => mu_before e end.

Definition evaluate_static_fence (d : GeofenceDef) (s : StoredState) (e : MutationEvent)
    (group hook : option string)
    : result (StoredStateUpdate * list GeofenceEvent) GeofenceError :=
  if negb (String.eqb (def_collection d) (mu_collection e)) then Ok (UNone, [])
  else
    let previous_inside := default false (st_objects s !! mu_id e) in
    let? current_inside :=
      match mu_after e with Some o => object_matches_query o d | None => Ok false end in
    let? detect :=
      if negb previous_inside && current_inside then Ok DEnter
      else if previous_inside && current_inside then Ok DInside
      else if previous_inside && negb current_inside then Ok DExit
      else let? crossed := crossed_boundary e d in
           Ok (if (crossed : bool) then DCross else DOutside) in
    let update :=
      UObject (mu_id e) (match mu_after e with Some _ => Some current_inside | None => None end) in
    if negb (detect_allowed d detect) then Ok (update, [])
    else if negb (command_allowed d e) then Ok (update, [])
    else
      let o := event_object e in
      Ok (update,
          [mkEvent (mu_command e) detect (mu_collection e) (mu_id e)
             (from_option geo (GtString (mu_id e)) o) (from_option fields ∅ o)
             (mu_timestamp_ns e) None None hook group None 0]).

(** *** Roaming fences *)

Definition roam_distance_meters (source target : Object) (meters : f64) : option f64 :=
  match point_coordinates (geo source), point_coordinates (geo target) with
  | Some (source_lat, source_lon), Some (target_lat, target_lon) =>
      let distance := haversine_distance_meters source_lat source_lon target_lat target_lon in
      if SFleb distance meters then Some distance else None
  | _, _ => None
  end.

Definition roam_event (e : MutationEvent) (source_collection : string) (source : Object)
    (target_collection target_id : string) (meters : f64) (group hook : option string)
    : GeofenceEvent :=
  mkEvent (mu_command e) DRoam source_collection (id source) (geo source) (fields source)
    (mu_timestamp_ns e) None None hook group
    (Some (mkRoaming target_collection target_id meters)) 0.

Definition remove_pairs (pairs : gmap (string * string) bool) (keys : list (string * string))
    : gmap (string * string) bool :=
  foldl (λ m k, delete k m) pairs keys.

Definition clear_source_pairs (s : StoredState) (source_id : string) : StoredState :=
  mkStored (st_objects s)
    (remove_pairs (st_pairs s) (filter (λ k, k.1 = source_id) (hash_iter (st_pairs s)).*1)).

(** The targets near the source, by id. *)
Definition current_matches (source : Object) (targets : list Object) (target_pattern : string)
    (meters : f64) : gmap string f64 :=
  foldl (λ m target,
           if negb (glob_match target_pattern (id target)) || String.eqb (id target) (id source)
           then m
           else match roam_distance_meters source target meters with
                | Some distance => <[id target := distance]> m
                | None => m
                end) ∅ targets.

(** The loop over the current matches: pairs marked, events emitted. *)
Fixpoint mark_pairs (pairs : gmap (string * string) bool) (source_id : string)
    (emit nodwell : bool) (mk : string → f64 → GeofenceEvent) (matches : list (string * f64))
    : gmap (string * string) bool * list GeofenceEvent :=
  match matches with
  | [] => (pairs, [])
  | (target_id, distance) :: rest =>
      let key := (source_id, target_id) in
      let was_near := default false (pairs !! key) in
      let '(pairs', evs) := mark_pairs (<[key := true]> pairs) source_id emit nodwell mk rest in
      (pairs', if negb emit || (was_near && nodwell) then evs else mk target_id distance :: evs)
  end.

Definition reconcile_source_pairs (s : StoredState) (source : Object) (targets : list Object)
    (target_collection target_pattern : string) (meters : f64) (options : SearchOptions)
    (nodwell : bool) (e : MutationEvent) (source_collection : string)
    (group hook : option string) (emit : bool)
    : result (StoredState * list GeofenceEvent) GeofenceError :=
  let? source_allowed := map_err GfIndex (matches_candidate source options) in
  let matches :=
    if (source_allowed : bool) then current_matches source targets target_pattern meters else ∅ in
  let stale :=
    filter (λ k, k.1 = id source ∧ matches !! k.2 = None) (hash_iter (st_pairs s)).*1 in
  let pairs := remove_pairs (st_pairs s) stale in
  let '(pairs', evs) :=
    mark_pairs pairs (id source) emit nodwell
      (λ target_id distance,
         roam_event e source_collection source target_collection target_id distance group hook)
      (hash_iter matches) in
  Ok (mkStored (st_objects s) pairs', evs).

(** The first target near the source, with its distance. *)
Fixpoint find_near (source : Object) (targets : list Object) (meters : f64)
    : option (Object * f64) :=
  match targets with
  | [] => None
  | target :: rest =>
      if String.eqb (id target) (id source) then find_near source rest meters
      else match roam_distance_meters source target meters with
           | Some distance => Some (target, distance)
           | None => find_near source rest meters
           end
  end.

Definition reconcile_target_pair (s : StoredState) (source : Object) (targets : list Object)
    (target_id : option string) (meters : f64) (options : SearchOptions) (nodwell : bool)
    (e : MutationEvent) (source_collection target_collection : string)
    (group hook : option string) (emit : bool)
    : result (StoredState * list GeofenceEvent) GeofenceError :=
  match target_id with
  | None => Ok (s, [])
  | Some tid =>
      let key := (id source, tid) in
      let forget := mkStored (st_objects s) (delete key (st_pairs s)) in
      let? allowed := map_err GfIndex (matches_candidate source options) in
      if negb allowed then Ok (forget, [])
      else
        match find_near source targets meters with
        | None => Ok (forget, [])
        | Some (target, distance) =>
            let was_near := default false (st_pairs s !! key) in
            Ok (mkStored (st_objects s) (<[key := true]> (st_pairs s)),
                if emit && (negb was_near || negb nodwell)
                then [roam_event e source_collection source target_collection (id target)
                        distance group hook]
                else [])
        end
  end.

Fixpoint reconcile_targets (s : StoredState) (sources targets : list Object)
    (target_id : option string) (meters : f64) (options : SearchOptions) (nodwell : bool)
    (e : MutationEvent) (source_collection target_collection : string)
    (group hook : option string) (emit : bool)
    : result (StoredState * list GeofenceEvent) GeofenceError :=
  match sources with
  | [] => Ok (s, [])
  | source :: rest =>
      let? r := reconcile_target_pair s source targets target_id meters options nodwell e
                  source_collection target_collection group hook emit in
      let? r' := reconcile_targets r.1 rest targets target_id meters options nodwell e
                   source_collection target_collection group hook emit in
      Ok (r'.1, r.2 ++ r'.2)
  end.

Definition evaluate_roaming_fence (d : GeofenceDef) (s : StoredState) (e : MutationEvent)
    (group hook : option string) (target_collection target_pattern : string) (meters : f64)
    (options : SearchOptions) (nodwell : bool) (lookup : string → list Object)
    : result (StoredState * list GeofenceEvent) GeofenceError :=
  if negb (String.eqb (mu_collection e) (def_collection d)) &&
     negb (String.eqb (mu_collection e) target_collection)
  then Ok (s, [])
  else
    let emit := command_allowed d e && detect_allowed d DRoam in
    if String.eqb (mu_collection e) (def_collection d) then
      match mu_after e with
      | None => Ok (clear_source_pairs s (mu_id e), [])
      | Some source =>
          reconcile_source_pairs s source (lookup target_collection) target_collection
            target_pattern meters options nodwell e (def_collection d) group hook emit
      end
    else
      let targets :=
        filter (λ o, glob_match target_pattern (id o))
          (match mu_after e with Some o => [o] | None => [] end) in
      let target_id :=
        match mu_before e with Some o => Some (id o) | None => id <$> mu_after e end in
      reconcile_targets s (lookup (def_collection d)) targets target_id meters options nodwell e
        (def_collection d) target_collection group hook emit.

Definition evaluate_stored_fence (f : StoredGeofence) (e : MutationEvent)
    (group hook : option string) (lookup : string → list Object)
    : result (StoredStateUpdate * list GeofenceEvent) GeofenceError :=
  let d := fence_def f in
  match def_query d with
  | QRoam target_collection target_pattern meters options nodwell =>
      let? r := evaluate_roaming_fence d (fence_state f) e group hook target_collection
                  target_pattern meters options nodwell lookup in
      Ok (UReplace r.1, r.2)
  | _ => evaluate_static_fence d (fence_state f) e group hook
  end.

(** ** Evaluation of a mutation *)

(** The loop over the relevant fences of one kind: a fence that fails is
    counted and skipped. *)
Fixpoint prepare_fences (get : string → option StoredGeofence) (is_hook : bool)
    (e : MutationEvent) (lookup : string → list Object) (names : list string)
    : list (string * StoredStateUpdate) * list GeofenceEvent * Z :=
  match names with
  | [] => ([], [], 0%Z)
  | name :: rest =>
      let '(states, evs, errors) := prepare_fences get is_hook e lookup rest in
      match get name with
      | None => (states, evs, errors)
      | Some stored =>
          match evaluate_stored_fence stored e (Some name)
                  (if is_hook then Some name else None) lookup with
          | Ok (update, produced) => ((name, update) :: states, produced ++ evs, errors)
          | Err _ => (states, evs, errors + 1)%Z
          end
      end
  end.

Definition prepare_mutation (r : GeofenceRegistry) (e : MutationEvent)
    (lookup : string → list Object) : PreparedMutation :=
  let '(cs, cevs, cerr) :=
    prepare_fences (λ name, channels r !! name) false e lookup
      (relevant_channel_names r (mu_collection e)) in
  let '(hs, hevs, herr) :=
    prepare_fences (λ name, hook_geofence <$> hooks r !! name) true e lookup
      (relevant_hook_names r (mu_collection e)) in
  mkPrepared cs hs (cevs ++ hevs) (cerr + herr).

Definition update_fence (u : StoredStateUpdate) (f : StoredGeofence) : StoredGeofence :=
  mkFence (fence_def f) (apply_update u (fence_state f)).
Definition update_hook (u : StoredStateUpdate) (h : StoredHook) : StoredHook :=
  mkHook (endpoint h) (update_fence u (hook_geofence h)).

Definition apply_prepared_mutation (r : GeofenceRegistry) (p : PreparedMutation)
    : GeofenceRegistry :=
  mkRegistry (subscriber_queue_capacity r)
    (foldl (λ m nu, alter (update_fence nu.2) nu.1 m) (channels r) (channel_states p))
    (channels_by_collection r) (channels_by_target_collection r)
    (foldl (λ m nu, alter (update_hook nu.2) nu.1 m) (hooks r) (hook_states p))
    (hooks_by_collection r) (hooks_by_target_collection r)
    (cross_collection_roaming_collections r)
    (foldl (λ subs e, publish_to (with_generation e (generation r)) <$> subs)
       (subscribers r) (events p))
    (generation r)
    (saturating_add (eval_errors_total r) (eval_errors p)).

Definition evaluate_mutation (r : GeofenceRegistry) (e : MutationEvent)
    (lookup : string → list Object) : GeofenceRegistry * list GeofenceEvent :=
  let prepared := prepare_mutation r e lookup in
  (apply_prepared_mutation r prepared, events prepared).

End Evaluation.
