(* ===== verification/GeofenceSpec.v ===== *)
(** * Geofences: properties

    The registry's indexes always agree with its definitions, so a mutation
    is evaluated against exactly the fences that watch its collection; static
    fences follow their inside/outside state machine; a fence that fails is
    isolated; roaming pairs are exactly the objects near each other; and after
    a flush no subscriber receives an event of before. *)

From Stdlib Require Import ZArith Lia SpecFloat.
From stdpp Require Import base gmap strings list sorting.
From S2P Require Import Prelude F64 Json Platform Geo Strings Index IndexSpec Geofence.

(** ** Indexes *)

Section IndexInvariant.
Context {A : Type} (key : A → option string).

(** The index lists, under each collection, the names whose value has that
    collection as key: once each, and no list is empty. *)
Definition index_ok (index : gmap string (list string)) (m : gmap string A) : Prop :=
  ∀ c, NoDup (default [] (index !! c)) ∧ index !! c ≠ Some [] ∧
       ∀ name, name ∈ default [] (index !! c) ↔ m !! name ≫= key = Some c.

Lemma index_ok_empty : index_ok ∅ ∅.
Proof.
  intros c. rewrite lookup_empty. simpl. split_and!; [constructor | done |].
  intros name. rewrite lookup_empty. split; [by intros ?%elem_of_nil | done].
Qed.

Lemma index_ok_ext index m m' :
  (∀ name, m !! name ≫= key = m' !! name ≫= key) → index_ok index m → index_ok index m'.
Proof.
  intros Heq Hok c. destruct (Hok c) as (H1 & H2 & H3). split_and!; [done..|].
  intros name. by rewrite H3, Heq.
Qed.

Lemma bind_insert_key (m : gmap string A) name a name' :
  <[name := a]> m !! name' ≫= key = if decide (name = name') then key a else m !! name' ≫= key.
Proof.
  destruct (decide (name = name')) as [<-|]; [by rewrite lookup_insert_eq | by rewrite lookup_insert_ne].
Qed.

Lemma bind_delete_key (m : gmap string A) name name' :
  delete name m !! name' ≫= key = if decide (name = name') then None else m !! name' ≫= key.
Proof.
  destruct (decide (name = name')) as [<-|]; [by rewrite lookup_delete_eq | by rewrite lookup_delete_ne].
Qed.

Lemma index_ok_insert index m name a :
  m !! name = None → index_ok index m →
  index_ok (from_option (λ c, push_index_name index c name) index (key a)) (<[name := a]> m).
Proof.
  intros Hm Hok c. destruct (Hok c) as (Hnd & Hne & Hin).
  destruct (key a) as [c'|] eqn:Ha; simpl.
  2: { split_and!; [done..|]. intros name'. rewrite Hin, bind_insert_key.
       case_decide; subst; [by rewrite Hm, Ha | done]. }
  unfold push_index_name. destruct (decide (c' = c)) as [->|Hc].
  - rewrite lookup_insert_eq. simpl.
    assert (name ∉ default [] (index !! c)) as Hni by (rewrite Hin, Hm; done).
    rewrite bool_decide_false by done. split_and!.
    + apply NoDup_app. split_and!; [done | | apply NoDup_singleton].
      intros x Hx ->%list_elem_of_singleton. done.
    + by destruct (default [] (index !! c)).
    + intros name'. rewrite elem_of_app, list_elem_of_singleton, Hin, bind_insert_key.
      case_decide; subst; [rewrite Hm, Ha; naive_solver | naive_solver].
  - rewrite lookup_insert_ne by done. split_and!; [done..|]. intros name'.
    rewrite Hin, bind_insert_key. case_decide; subst; [rewrite Hm, Ha | done].
    split; [done | intros [= ->]; done].
Qed.

Lemma index_ok_delete index m name a :
  m !! name = Some a → index_ok index m →
  index_ok (from_option (λ c, remove_index_name index c name) index (key a)) (delete name m).
Proof.
  intros Hm Hok c. destruct (Hok c) as (Hnd & Hne & Hin).
  destruct (key a) as [c'|] eqn:Ha; simpl.
  2: { split_and!; [done..|]. intros name'. rewrite Hin, bind_delete_key.
       case_decide; subst; [by rewrite Hm; simpl; rewrite Ha | done]. }
  unfold remove_index_name. destruct (index !! c') as [names|] eqn:Hl'.
  2: { destruct (Hok c') as (_ & _ & Hin'). rewrite Hl' in Hin'. simpl in Hin'.
       exfalso. apply (not_elem_of_nil name). apply Hin'. by rewrite Hm. }
  destruct (decide (c' = c)) as [->|Hc].
  - rewrite Hl' in *. simpl in Hnd, Hin.
    assert (∀ name', name' ∈ filter (λ x, x ≠ name) names ↔
                     delete name m !! name' ≫= key = Some c) as Hf.
    { intros name'. rewrite list_elem_of_filter, Hin, bind_delete_key. case_decide; naive_solver. }
    assert (NoDup (filter (λ x, x ≠ name) names)) as Hnf by (by apply NoDup_filter).
    destruct (filter (λ x, x ≠ name) names) as [|x l].
    + rewrite lookup_delete_eq. simpl. split_and!; done.
    + rewrite lookup_insert_eq. simpl. split_and!; done.
  - assert ((match filter (λ x, x ≠ name) names with
             | [] => delete c' index | names' => <[c' := names']> index end) !! c = index !! c) as ->.
    { destruct (filter _ names); [by rewrite lookup_delete_ne | by rewrite lookup_insert_ne]. }
    split_and!; [done..|]. intros name'. rewrite Hin, bind_delete_key.
    case_decide; subst; [rewrite Hm; simpl; rewrite Ha; naive_solver | done].
Qed.

End IndexInvariant.

Lemma collect_names_spec names : ∀ seen,
  NoDup (collect_indexed_names seen names).1 ∧
  (∀ x, x ∈ (collect_indexed_names seen names).1 ↔ x ∈ names ∧ x ∉ seen) ∧
  (collect_indexed_names seen names).2 = seen ∪ list_to_set names.
Proof.
  induction names as [|n names IH]; intros seen; simpl.
  { split_and!; [constructor | intros x; split; [by intros ?%elem_of_nil | by intros [?%elem_of_nil _]] |].
    by rewrite (right_id_L ∅ (∪)). }
  destruct (bool_decide_reflect (n ∈ seen)) as [Hn|Hn].
  - destruct (IH seen) as (H1 & H2 & H3). split_and!; [done | |].
    + intros x. rewrite H2, elem_of_cons. naive_solver.
    + rewrite H3. apply set_eq. intros x. rewrite !elem_of_union, elem_of_singleton. naive_solver.
  - destruct (IH ({[n]} ∪ seen)) as (H1 & H2 & H3).
    destruct (collect_indexed_names ({[n]} ∪ seen) names) as [out seen']. simpl in *.
    assert (∀ x, x ∉ {[n]} ∪ seen ↔ x ≠ n ∧ x ∉ seen) as Hx
      by (intros x; rewrite not_elem_of_union, not_elem_of_singleton; done).
    split_and!.
    + constructor; [rewrite H2, Hx; naive_solver | done].
    + intros x. rewrite !elem_of_cons, H2, Hx. destruct (decide (x = n)); naive_solver.
    + rewrite H3. apply set_eq. intros x. rewrite !elem_of_union. tauto.
Qed.

Lemma relevant_names_spec bc bt c :
  NoDup (relevant_names bc bt c) ∧
  ∀ x, x ∈ relevant_names bc bt c ↔ x ∈ default [] (bc !! c) ∨ x ∈ default [] (bt !! c).
Proof.
  unfold relevant_names.
  destruct (collect_names_spec (default [] (bc !! c)) ∅) as (H1 & H2 & H3).
  destruct (collect_indexed_names ∅ _) as [first seen]. simpl in *.
  destruct (collect_names_spec (default [] (bt !! c)) seen) as (G1 & G2 & _).
  split.
  - apply NoDup_app. split_and!; [done | | done].
    intros x Hx Hx'. apply G2 in Hx' as [_ Hx']. apply H2 in Hx as [Hx _]. apply Hx'.
    rewrite H3. apply elem_of_union_r. by apply elem_of_list_to_set.
  - intros x. rewrite elem_of_app, H2, G2. subst seen.
    rewrite not_elem_of_union, not_elem_of_list_to_set.
    assert (x ∉ (∅ : gset string)) by apply not_elem_of_empty.
    destruct (decide (x ∈ default [] (bc !! c))); naive_solver.
Qed.

(** ** The registry invariant *)

Definition channel_key (f : StoredGeofence) : option string := Some (def_collection (fence_def f)).
Definition channel_target (f : StoredGeofence) : option string := roam_target (fence_def f).
Definition hook_key (h : StoredHook) : option string := Some (def_collection (hook_def_of h)).
Definition hook_target (h : StoredHook) : option string := roam_target (hook_def_of h).

Definition registry_inv (r : GeofenceRegistry) : Prop :=
  index_ok channel_key (channels_by_collection r) (channels r) ∧
  index_ok channel_target (channels_by_target_collection r) (channels r) ∧
  index_ok hook_key (hooks_by_collection r) (hooks r) ∧
  index_ok hook_target (hooks_by_target_collection r) (hooks r) ∧
  cross_collection_roaming_collections r = cross_of (channels r) (hooks r).

Lemma elem_of_cross x chans hks :
  x ∈ cross_of chans hks ↔
  (∃ n f, chans !! n = Some f ∧ x ∈ cross_collections (fence_def f)) ∨
  (∃ n h, hks !! n = Some h ∧ x ∈ cross_collections (hook_def_of h)).
Proof.
  unfold cross_of. rewrite fmap_app, elem_of_union_list. split.
  - intros (X & [HX|HX]%elem_of_app & Hx); [left|right];
      apply list_elem_of_fmap in HX as (d & -> & Hd);
      apply list_elem_of_fmap in Hd as ([n v] & -> & Hn%elem_of_map_to_list); eauto.
  - intros [(n & f & Hn & Hx)|(n & h & Hn & Hx)]; apply elem_of_map_to_list in Hn;
      eexists; (split; [|exact Hx]); apply elem_of_app; [left|right];
      apply list_elem_of_fmap_2.
    + by apply (list_elem_of_fmap_2 (fence_def ∘ snd) _ (n, f)).
    + by apply (list_elem_of_fmap_2 (hook_def_of ∘ snd) _ (n, h)).
Qed.

Lemma set_channel_inv r name d : registry_inv r → registry_inv (set_channel r name d).
Proof.
  intros (I1 & I2 & I3 & I4 & I5). unfold set_channel.
  destruct (channels r !! name) as [prev|] eqn:Hp; simpl.
  - split_and!; [| |done|done|done]; simpl.
    + apply (index_ok_insert channel_key _ _ name (mkFence d empty_state));
        [apply lookup_delete_eq|]. by apply (index_ok_delete channel_key _ _ name prev).
    + apply (index_ok_insert channel_target _ _ name (mkFence d empty_state));
        [apply lookup_delete_eq|]. by apply (index_ok_delete channel_target _ _ name prev).
  - rewrite delete_id by done. split_and!; [| |done|done|done]; simpl.
    + by apply (index_ok_insert channel_key _ _ name (mkFence d empty_state)).
    + by apply (index_ok_insert channel_target _ _ name (mkFence d empty_state)).
Qed.

Lemma del_channel_inv r name : registry_inv r → registry_inv (del_channel r name).1.
Proof.
  intros (I1 & I2 & I3 & I4 & I5). unfold del_channel.
  destruct (channels r !! name) as [prev|] eqn:Hp; simpl; [|done].
  split_and!; [| |done|done|done]; simpl.
  - by apply (index_ok_delete channel_key _ _ name prev).
  - by apply (index_ok_delete channel_target _ _ name prev).
Qed.

Lemma set_hook_inv r name url d : registry_inv r → registry_inv (set_hook r name url d).
Proof.
  intros (I1 & I2 & I3 & I4 & I5). unfold set_hook.
  destruct (hooks r !! name) as [prev|] eqn:Hp; simpl.
  - split_and!; [done|done| | |done]; simpl.
    + apply (index_ok_insert hook_key _ _ name (mkHook url (mkFence d empty_state)));
        [apply lookup_delete_eq|]. by apply (index_ok_delete hook_key _ _ name prev).
    + apply (index_ok_insert hook_target _ _ name (mkHook url (mkFence d empty_state)));
        [apply lookup_delete_eq|]. by apply (index_ok_delete hook_target _ _ name prev).
  - rewrite delete_id by done. split_and!; [done|done| | |done]; simpl.
    + by apply (index_ok_insert hook_key _ _ name (mkHook url (mkFence d empty_state))).
    + by apply (index_ok_insert hook_target _ _ name (mkHook url (mkFence d empty_state))).
Qed.

Lemma del_hook_inv r name : registry_inv r → registry_inv (del_hook r name).1.
Proof.
  intros (I1 & I2 & I3 & I4 & I5). unfold del_hook.
  destruct (hooks r !! name) as [prev|] eqn:Hp; simpl; [|done].
  split_and!; [done|done| | |done]; simpl.
  - by apply (index_ok_delete hook_key _ _ name prev).
  - by apply (index_ok_delete hook_target _ _ name prev).
Qed.

Lemma foldl_inv {A B} (P : A → Prop) (f : A → B → A) (l : list B) a :
  (∀ a b, P a → P (f a b)) → P a → P (foldl f a l).
Proof. intros Hf. revert a. induction l; simpl; auto. Qed.

(** Folding [alter] over a map changes values, not what is computed from the
    part the update keeps. *)
Lemma foldl_alter_key {A B C} (f : B → A → A) (g : A → C)
    (l : list (string * B)) (m : gmap string A) name :
  (∀ b a, g (f b a) = g a) →
  g <$> foldl (λ m nb, alter (f nb.2) nb.1 m) m l !! name = g <$> m !! name.
Proof.
  intros Hg. revert m. induction l as [|[n b] l IH]; intros m; simpl; [done|].
  rewrite IH. destruct (decide (n = name)) as [->|].
  - rewrite lookup_alter_eq. destruct (m !! name); simpl; [by rewrite Hg | done].
  - by rewrite lookup_alter_ne.
Qed.

Section Registry.
Context `{HO : HashOrder} `{JT : JsonText} `{PT : Patterns} `{LM : Libm} `{GC : GeoCrate}.

Lemma fold_fence_defs cs (m : gmap string StoredGeofence) name :
  fence_def <$> foldl (λ m nu, alter (update_fence nu.2) nu.1 m) m cs !! name =
  fence_def <$> m !! name.
Proof. by apply (foldl_alter_key update_fence fence_def). Qed.

Lemma fold_hook_defs hs (m : gmap string StoredHook) name :
  (λ h, (endpoint h, hook_def_of h)) <$> foldl (λ m nu, alter (update_hook nu.2) nu.1 m) m hs !! name
  = (λ h, (endpoint h, hook_def_of h)) <$> m !! name.
Proof. by apply (foldl_alter_key update_hook (λ h, (endpoint h, hook_def_of h))). Qed.

Lemma bind_key {A D} (g : A → D) (k : D → option string) (o o' : option A) :
  g <$> o = g <$> o' → o ≫= (λ a, k (g a)) = o' ≫= (λ a, k (g a)).
Proof. destruct o, o'; simpl; congruence. Qed.

Lemma apply_prepared_inv r p : registry_inv r → registry_inv (apply_prepared_mutation r p).
Proof.
  intros (I1 & I2 & I3 & I4 & I5).
  pose proof (fold_fence_defs (channel_states p) (channels r)) as Hc.
  pose proof (fold_hook_defs (hook_states p) (hooks r)) as Hh.
  split_and!; cbn [apply_prepared_mutation channels hooks channels_by_collection
    channels_by_target_collection hooks_by_collection hooks_by_target_collection
    cross_collection_roaming_collections].
  - eapply index_ok_ext; [|exact I1]. intros name. symmetry.
    apply (bind_key fence_def (λ d, Some (def_collection d))), Hc.
  - eapply index_ok_ext; [|exact I2]. intros name. symmetry.
    apply (bind_key fence_def roam_target), Hc.
  - eapply index_ok_ext; [|exact I3]. intros name. symmetry.
    apply (bind_key (λ h, (endpoint h, hook_def_of h)) (λ d, Some (def_collection d.2))), Hh.
  - eapply index_ok_ext; [|exact I4]. intros name. symmetry.
    apply (bind_key (λ h, (endpoint h, hook_def_of h)) (λ d, roam_target d.2)), Hh.
  - rewrite I5. apply set_eq. intros x. rewrite !elem_of_cross. f_equiv.
    + split; intros (n & f & Hn & Hx); specialize (Hc n); rewrite Hn in Hc; simpl in Hc.
      * apply fmap_Some in Hc as (f' & Hf' & Heq). exists n, f'. split; [done|congruence].
      * destruct (channels r !! n) as [f'|] eqn:E; [|done]. exists n, f'. simpl in Hc.
        split; [done|]. congruence.
    + split; intros (n & h & Hn & Hx); specialize (Hh n); rewrite Hn in Hh; simpl in Hh.
      * destruct (foldl _ (hooks r) _ !! n) as [h'|] eqn:E; [|done]. simpl in Hh.
        exists n, h'. split; [done|]. simplify_eq. congruence.
      * destruct (hooks r !! n) as [h'|] eqn:E; [|done]. simpl in Hh. exists n, h'.
        split; [done|]. simplify_eq. congruence.
Qed.

(** Every way the registry changes. *)
Inductive registry_step : GeofenceRegistry → GeofenceRegistry → Prop :=
  | step_set_channel r name d : registry_step r (set_channel r name d)
  | step_del_channel r name : registry_step r (del_channel r name).1
  | step_pdel_channel r pattern : registry_step r (pdel_channel r pattern).1
  | step_set_hook r name url d : registry_step r (set_hook r name url d)
  | step_del_hook r name : registry_step r (del_hook r name).1
  | step_pdel_hook r pattern : registry_step r (pdel_hook r pattern).1
  | step_subscribe r names : registry_step r (subscribe r names).1
  | step_psubscribe r patterns : registry_step r (psubscribe r patterns).1
  | step_clear r : registry_step r (clear_all r)
  | step_apply r p : registry_step r (apply_prepared_mutation r p).

Lemma registry_new_inv capacity : registry_inv (registry_new capacity).
Proof. split_and!; try apply index_ok_empty. done. Qed.

Lemma registry_step_inv r r' : registry_step r r' → registry_inv r → registry_inv r'.
Proof.
  destruct 1; intros Hr;
    auto using set_channel_inv, del_channel_inv, set_hook_inv, del_hook_inv, apply_prepared_inv.
  - simpl. apply foldl_inv; auto using del_channel_inv.
  - simpl. apply foldl_inv; auto using del_hook_inv.
  - split_and!; try apply index_ok_empty. done.
Qed.

Lemma registry_reachable_inv capacity r :
  rtc registry_step (registry_new capacity) r → registry_inv r.
Proof.
  intros Hr. remember (registry_new capacity) as r0 eqn:E.
  assert (registry_inv r0) as H0 by (subst; apply registry_new_inv). clear E.
  induction Hr; eauto using registry_step_inv.
Qed.

(** In every reachable registry, a mutation of a collection is evaluated
    against exactly the channels and hooks whose own collection or roaming
    target it is, each of them once; a collection is sent to the exclusive
    path exactly when some roaming fence between two different collections
    involves it. *)
Theorem registry_watches_exactly (capacity : nat) (r : GeofenceRegistry) (c : string)
    (Hreach : rtc registry_step (registry_new capacity) r) :
  NoDup (relevant_channel_names r c) ∧ NoDup (relevant_hook_names r c) ∧
  (∀ name, name ∈ relevant_channel_names r c ↔
     ∃ f, channels r !! name = Some f ∧
          (def_collection (fence_def f) = c ∨ roam_target (fence_def f) = Some c)) ∧
  (∀ name, name ∈ relevant_hook_names r c ↔
     ∃ h, hooks r !! name = Some h ∧
          (def_collection (hook_def_of h) = c ∨ roam_target (hook_def_of h) = Some c)) ∧
  (requires_exclusive_roam_path r c = true ↔
     (∃ n f, channels r !! n = Some f ∧ c ∈ cross_collections (fence_def f)) ∨
     (∃ n h, hooks r !! n = Some h ∧ c ∈ cross_collections (hook_def_of h))).
Proof.
  destruct (registry_reachable_inv capacity r Hreach) as (I1 & I2 & I3 & I4 & I5).
  unfold relevant_channel_names, relevant_hook_names, requires_exclusive_roam_path.
  destruct (relevant_names_spec (channels_by_collection r) (channels_by_target_collection r) c)
    as [N1 E1].
  destruct (relevant_names_spec (hooks_by_collection r) (hooks_by_target_collection r) c)
    as [N2 E2].
  split_and!; [done|done| | |].
  - intros name. rewrite E1, (proj2 (proj2 (I1 c))), (proj2 (proj2 (I2 c))).
    destruct (channels r !! name) as [f|]; simpl; [|split; [by intros [?|?] | by intros (? & ? & _)]].
    split; [intros [[= <-]|?]; eauto | intros (f0 & [= <-] & [<-|?]); auto].
  - intros name. rewrite E2, (proj2 (proj2 (I3 c))), (proj2 (proj2 (I4 c))).
    destruct (hooks r !! name) as [f|]; simpl; [|split; [by intros [?|?] | by intros (? & ? & _)]].
    split; [intros [[= <-]|?]; eauto | intros (f0 & [= <-] & [<-|?]); auto].
  - rewrite bool_decide_eq_true, I5. apply elem_of_cross.
Qed.

End Registry.

(** ** Static fences *)

Section StaticFences.
Context `{HO : HashOrder} `{JT : JsonText} `{PT : Patterns} `{LM : Libm} `{GC : GeoCrate}.

Definition is_roam (d : GeofenceDef) : bool :=
  match def_query d with QRoam _ _ _ _ _ => true | _ => false end.

(** Where an object is: its point, or the middle of the box around it. *)
Definition position (o : Object) : option (f64 * f64) :=
  match point_coordinates (geo o) with
  | Some p => Some p
  | None =>
      match geo_envelope (geo o) with Ok (Some bounds) => Some (center bounds) | _ => None end
  end.

(** The place a fence watches covers an object: within the radius for
    NEARBY, inside the area for WITHIN, touching it for INTERSECTS. *)
Definition covers (d : GeofenceDef) (o : Object) : bool :=
  match def_query d with
  | QNearby lat lon meters _ =>
      match position o with
      | Some p => SFleb (haversine_distance_meters lat lon p.1 p.2) meters
      | None => false
      end
  | QWithin area _ => default false (rok (contains_geo area (geo o)))
  | QIntersects area _ => default false (rok (intersects_geo area (geo o)))
  | QRoam _ _ _ _ _ => true
  end.

Definition query_options (d : GeofenceDef) : SearchOptions :=
  match def_query d with
  | QNearby _ _ _ options | QWithin _ options | QIntersects _ options | QRoam _ _ _ options _ =>
      options
  end.

(** Whether the object a mutation leaves behind is inside the fence: covered
    by its area and accepted by the filters of its query. *)
Definition now_inside (d : GeofenceDef) (e : MutationEvent) : bool :=
  match mu_after e with
  | Some o => covers d o && default false (rok (matches_candidate o (query_options d)))
  | None => false
  end.

Lemma object_matches_query_inside o d b :
  object_matches_query o d = Ok b →
  b = covers d o && default false (rok (matches_candidate o (query_options d))).
Proof.
  unfold object_matches_query, covers, query_options, position.
  destruct (def_query d) as [lat lon meters os|area os|area os|tc tp meters os nd]; intros Hm.
  - assert (∀ near : bool,
      (if negb near then Ok false else map_err GfIndex (matches_candidate o os)) = Ok b →
      b = near && default false (rok (matches_candidate o os))) as Hnear.
    { intros [] Hn; simpl in Hn |- *; [|by simplify_eq].
      by destruct (matches_candidate o os); simplify_eq/=. }
    apply Hnear in Hm. rewrite Hm.
    by destruct (point_coordinates (geo o)), (geo_envelope (geo o)) as [[]|].
  - destruct (contains_geo area (geo o)) as [[]|]; simplify_eq/=; [|done].
    by destruct (matches_candidate o os); simplify_eq/=.
  - destruct (intersects_geo area (geo o)) as [[]|]; simplify_eq/=; [|done].
    by destruct (matches_candidate o os); simplify_eq/=.
  - by destruct (matches_candidate o os); simplify_eq/=.
Qed.

(** The straight line a mutation moves a point along. *)
Definition path_of (e : MutationEvent) : option Geometry :=
  before ← mu_before e; after ← mu_after e;
  p ← point_coordinates (geo before); q ← point_coordinates (geo after);
  Some (GLineString (linestring_from [mkCoord p.2 p.1; mkCoord q.2 q.1])).

(** The area a static fence watches, a circle for NEARBY. *)
Definition fence_area (d : GeofenceDef) : option Area :=
  match def_query d with
  | QNearby lat lon meters _ => Some (ACircle lat lon meters)
  | QWithin area _ | QIntersects area _ => Some area
  | QRoam _ _ _ _ _ => None
  end.

(** The mutation moved a point along a line that meets the fence's area. *)
Definition passes_through (d : GeofenceDef) (e : MutationEvent) : bool :=
  match path_of e, g ← fence_area d; rok (area_to_geometry g) with
  | Some line, Some area => geo_intersects area line
  | _, _ => false
  end.

Lemma crossed_boundary_passes e d b : crossed_boundary e d = Ok b → b = passes_through d e.
Proof.
  unfold crossed_boundary, passes_through, path_of, fence_area. intros Hc.
  destruct (mu_before e) as [bo|], (mu_after e) as [ao|]; simpl in Hc |- *;
    try (destruct (point_coordinates (geo bo)) as [[??]|]); try (by simplify_eq).
  destruct (point_coordinates (geo ao)) as [[??]|]; simpl in Hc |- *; [|by simplify_eq].
  destruct (def_query d) as [lat lon meters os|area os|area os|]; simpl in Hc |- *;
    [destruct (area_to_geometry (ACircle lat lon meters)) | destruct (area_to_geometry area)
    | destruct (area_to_geometry area) |]; by simplify_eq/=.
Qed.

(** Whether an object was inside after a history of mutations: the last
    mutation of the object in the fence's collection decides. *)
Definition was_inside (d : GeofenceDef) (history : list MutationEvent) (i : string) : bool :=
  foldl (λ b e, if String.eqb (def_collection d) (mu_collection e) && String.eqb (mu_id e) i
                then now_inside d e else b) false history.

(** The fence's stored state after a history of mutations, all evaluated. *)
Fixpoint run_static (d : GeofenceDef) (s : StoredState) (g h : option string)
    (history : list MutationEvent) : result StoredState GeofenceError :=
  match history with
  | [] => Ok s
  | e :: rest =>
      let? r := evaluate_static_fence d s e g h in
      run_static d (apply_update r.1 s) g h rest
  end.

Lemma static_fence_update d s e g h u evs :
  evaluate_static_fence d s e g h = Ok (u, evs) →
  ∀ i, default false (st_objects (apply_update u s) !! i) =
       if String.eqb (def_collection d) (mu_collection e) && String.eqb (mu_id e) i
       then now_inside d e else default false (st_objects s !! i).
Proof.
  unfold evaluate_static_fence, now_inside. intros Hev i.
  destruct (String.eqb (def_collection d) (mu_collection e)); simpl in Hev |- *;
    [|by simplify_eq].
  destruct (match mu_after e with
            | Some o => object_matches_query o d | None => Ok false end) as [cur|] eqn:Hcur;
    simpl in Hev; [|done].
  apply rbind_Ok_inv in Hev as (detect & _ & Hev).
  assert (u = UObject (mu_id e) (match mu_after e with Some _ => Some cur | None => None end)) as ->.
  { destruct (detect_allowed d detect), (command_allowed d e); by simplify_eq/=. }
  destruct (mu_after e) as [o|]; simplify_eq; simpl.
  - rewrite <-(object_matches_query_inside o d cur Hcur).
    destruct (String.eqb_spec (mu_id e) i) as [<-|].
    + by rewrite lookup_insert_eq.
    + by rewrite lookup_insert_ne.
  - destruct (String.eqb_spec (mu_id e) i) as [<-|].
    + by rewrite lookup_delete_eq.
    + by rewrite lookup_delete_ne.
Qed.

Lemma run_static_flag d g h history : ∀ s s' i b,
  default false (st_objects s !! i) = b →
  run_static d s g h history = Ok s' →
  default false (st_objects s' !! i) =
  foldl (λ b e, if String.eqb (def_collection d) (mu_collection e) && String.eqb (mu_id e) i
                then now_inside d e else b) b history.
Proof.
  induction history as [|e history IH]; intros s s' i b Hb Hrun; simpl in Hrun.
  { by simplify_eq. }
  apply rbind_Ok_inv in Hrun as ([u evs] & Hev & Hrun). simpl in Hrun |- *.
  eapply IH; [|done]. rewrite (static_fence_update d s e g h u evs Hev). by rewrite Hb.
Qed.

(** The detection a static fence reports. *)
Definition detect_of (was now crossed : bool) : DetectType :=
  match was, now with
  | false, true => DEnter
  | true, true => DInside
  | true, false => DExit
  | false, false => if crossed then DCross else DOutside
  end.

(** C38: a static fence that evaluates the mutations of its collection one
    after the other reports, for each of them, exactly the detection that its
    area and the object's moves determine.  After any history whose mutations
    all evaluated without error, a mutation that evaluates without error is
    [Enter] when the object was outside and is inside, [Inside] when it was
    and is inside, [Exit] when it was inside and is not, [Cross] when it was
    and is outside but the straight line between its two points meets the
    area, and [Outside] otherwise; inside means covered by the area (or within
    the radius) and accepted by the query's filters.  One event with that
    detection is emitted when the definition selects the detection and the
    command, and none otherwise. *)
Theorem static_fence_detects (d : GeofenceDef) (g h : option string)
    (history : list MutationEvent) (s : StoredState) (e : MutationEvent)
    (u : StoredStateUpdate) (evs : list GeofenceEvent)
    (Hhist : run_static d empty_state g h history = Ok s)
    (Hcoll : mu_collection e = def_collection d)
    (Hev : evaluate_static_fence d s e g h = Ok (u, evs)) :
  let detect :=
    detect_of (was_inside d history (mu_id e)) (now_inside d e) (passes_through d e) in
  if detect_allowed d detect && command_allowed d e
  then ∃ ev, evs = [ev] ∧ ev_detect ev = detect ∧ ev_id ev = mu_id e ∧
             ev_command ev = mu_command e ∧ ev_hook ev = h ∧ ev_group ev = g
  else evs = [].
Proof.
  pose proof (run_static_flag d g h history empty_state s (mu_id e) false eq_refl Hhist) as Hwas.
  fold (was_inside d history (mu_id e)) in Hwas.
  unfold evaluate_static_fence in Hev. rewrite Hcoll, String.eqb_refl, Hwas in Hev. simpl in Hev.
  destruct (match mu_after e with
            | Some o => object_matches_query o d | None => Ok false end) as [cur|] eqn:Hcur;
    simpl in Hev; [|done].
  assert (now_inside d e = cur) as ->.
  { unfold now_inside. destruct (mu_after e) as [o|]; [|by simplify_eq].
    symmetry. by apply object_matches_query_inside. }
  apply rbind_Ok_inv in Hev as (detect & Hdet & Hev).
  assert (detect = detect_of (was_inside d history (mu_id e)) cur (passes_through d e)) as ->.
  { destruct (was_inside d history (mu_id e)), cur; simpl in Hdet; simplify_eq; try done.
    apply rbind_Ok_inv in Hdet as (b & Hb & Hdet).
    apply crossed_boundary_passes in Hb as <-. by simplify_eq. }
  cbv zeta. destruct (detect_allowed d _); simpl in Hev |- *; [|by simplify_eq].
  destruct (command_allowed d e); simpl in Hev |- *; simplify_eq; [|done].
  eexists. split; [done|]. split_and!; done.
Qed.

(** ** A failing fence is isolated *)

(** When a fence cannot be evaluated, the other fences of the mutation
    behave as if it were not registered: the same state updates and the same
    events in the same order, and the failure is counted. *)
Theorem failing_fence_isolated (get : string → option StoredGeofence) (is_hook : bool)
    (e : MutationEvent) (lookup : string → list Object) (names : list string) (bad : string)
    (Hnd : NoDup names) (Hin : bad ∈ names)
    (Hbad : ∃ f err, get bad = Some f ∧
       evaluate_stored_fence f e (Some bad) (if is_hook then Some bad else None) lookup = Err err) :
  let all := prepare_fences get is_hook e lookup names in
  let others := prepare_fences get is_hook e lookup (filter (λ n, n ≠ bad) names) in
  all.1.1 = others.1.1 ∧ all.1.2 = others.1.2 ∧ all.2 = (others.2 + 1)%Z.
Proof.
  destruct Hbad as (f & err & Hf & Herr). cbv zeta.
  induction names as [|n names IH]; [by apply elem_of_nil in Hin|].
  apply NoDup_cons in Hnd as [Hn Hnd]. cbn [prepare_fences].
  destruct (decide (n = bad)) as [->|Hne].
  - rewrite filter_cons_False by (intros H'; by apply H').
    rewrite Forall_filter_id.
    2: { apply Forall_forall. intros x Hx ->. done. }
    rewrite Hf, Herr. by destruct (prepare_fences get is_hook e lookup names) as [[??]?].
  - rewrite filter_cons_True by done. cbn [prepare_fences].
    apply elem_of_cons in Hin as [->|Hin]; [done|]. specialize (IH Hnd Hin).
    destruct (prepare_fences get is_hook e lookup names) as [[st1 ev1] er1].
    destruct (prepare_fences get is_hook e lookup (filter _ names)) as [[st2 ev2] er2].
    simpl in IH. destruct IH as (-> & -> & ->).
    destruct (get n) as [fn|]; [|done].
    destruct (evaluate_stored_fence fn e _ _ lookup) as [[u p]|]; simpl; split_and!; (done || lia).
Qed.

(** ** Delivery and flushes *)

(** What a receiver has not seen yet of a mailbox. *)
Definition pending {T} (m : MailboxState T) (position : Z) : list T :=
  drop (Z.to_nat (position - start_sequence m)) (items m).*2.

Definition mailbox_small {T} (m : MailboxState T) (position : Z) : Prop :=
  (0 ≤ start_sequence m)%Z ∧ (position ≤ start_sequence m + Z.of_nat (length (items m)))%Z ∧
  (start_sequence m + Z.of_nat (length (items m)) ≤ U64_MAX)%Z.

Lemma receive_pending {T} (m : MailboxState T) position :
  mailbox_small m position →
  match pending m position with
  | [] => (receive_from_state m position).2 = None
  | v :: rest => ∃ position', receive_from_state m position = (position', Some v) ∧
                   pending m position' = rest ∧ mailbox_small m position'
  end.
Proof.
  intros (H1 & H2 & H3). unfold receive_from_state, pending.
  set (p := if (position <? start_sequence m)%Z then start_sequence m else position).
  set (k := Z.to_nat (p - start_sequence m)).
  assert (Z.to_nat (position - start_sequence m) = k) as ->.
  { unfold k, p. destruct (Z.ltb_spec position (start_sequence m)); lia. }
  assert (start_sequence m ≤ p)%Z.
  { unfold p. destruct (Z.ltb_spec position (start_sequence m)); lia. }
  assert (snd <$> items m !! k = (items m).*2 !! k) as Hl by (by rewrite list_lookup_fmap).
  destruct (items m !! k) as [[i v]|] eqn:Hk; simpl in Hl.
  - erewrite drop_S by (symmetry; exact Hl). apply lookup_lt_Some in Hk as Hlt.
    eexists. split; [done|]. unfold k in Hlt.
    rewrite saturating_add_exact by lia. split; [f_equal; unfold k; lia|].
    split_and!; lia.
  - symmetry in Hl. apply lookup_ge_None in Hl. rewrite drop_ge by done. done.
Qed.

Lemma try_recv_loop_spec fuel : ∀ current m position,
  mailbox_small m position → length (pending m position) < fuel →
  (try_recv_loop fuel current m position).2 =
  head (filter (λ ev, (current ≤ ev_generation ev)%Z) (pending m position)).
Proof.
  induction fuel as [|fuel IH]; intros current m position Hs Hf; [lia|].
  cbn [try_recv_loop]. pose proof (receive_pending m position Hs) as Hr.
  destruct (pending m position) as [|v rest].
  - destruct (receive_from_state m position) as [p' [?|]]; simpl in Hr; [done|]. done.
  - destruct Hr as (p' & -> & Hp & Hs'). destruct (Z.leb_spec current (ev_generation v)).
    + rewrite filter_cons_True by done. done.
    + rewrite filter_cons_False by lia. rewrite IH by (rewrite ?Hp; simpl in Hf; (done || lia)).
      by rewrite Hp.
Qed.

(** A receiver gets the oldest event it has not seen that belongs to the
    current generation, and gets nothing only when there is none. *)
Theorem try_recv_first_fresh (r : GeofenceRegistry) (rc : GeofenceEventReceiver) (s : Subscriber)
    (Hs : subscribers r !! receiver_index rc = Some s)
    (Hsmall : mailbox_small (sub_mailbox s) (receiver_position rc)) :
  (try_recv r rc).2 =
  head (filter (λ ev, (generation r ≤ ev_generation ev)%Z)
          (pending (sub_mailbox s) (receiver_position rc))).
Proof.
  unfold try_recv. rewrite Hs.
  pose proof (try_recv_loop_spec (S (length (items (sub_mailbox s)))) (generation r)
                (sub_mailbox s) (receiver_position rc) Hsmall) as Hl.
  destruct (try_recv_loop _ _ _ _) as [p e]. simpl. apply Hl.
  unfold pending. rewrite length_drop, length_fmap. lia.
Qed.

(** Events wait in mailboxes with a generation that is not in the future. *)
Definition mailboxes_current (r : GeofenceRegistry) : Prop :=
  Forall (λ s, Forall (λ ev, (ev_generation ev ≤ generation r)%Z) (items (sub_mailbox s)).*2)
    (subscribers r).

Lemma drop_oldest_sub {T} (P : T → Prop) cap start (its : list (Z * T)) :
  Forall P its.*2 → Forall P (drop_oldest cap start its).2.*2.
Proof.
  revert start. induction its as [|x its IH]; intros start Hf; simpl; [done|].
  rewrite fmap_cons in Hf. destruct (cap <? _)%nat; [|done].
  apply IH. by apply Forall_cons in Hf as [_ ?].
Qed.

Lemma push_items {T} (P : T → Prop) (m : MailboxState T) v :
  Forall P (items m).*2 → P v → Forall P (items (push m v)).*2.
Proof.
  intros Hm Hv. unfold push.
  pose proof (drop_oldest_sub P (capacity m) (start_sequence m)
                (items m ++ [(next_sequence m, v)])) as Hd.
  destruct (drop_oldest _ _ _). simpl in *. apply Hd.
  rewrite fmap_app. apply Forall_app. split; [done|]. by apply Forall_singleton.
Qed.

Lemma publish_current subs e g : (ev_generation e ≤ g)%Z →
  Forall (λ s, Forall (λ ev, (ev_generation ev ≤ g)%Z) (items (sub_mailbox s)).*2) subs →
  Forall (λ s, Forall (λ ev, (ev_generation ev ≤ g)%Z) (items (sub_mailbox s)).*2)
    (publish_to e <$> subs).
Proof.
  intros He Hs. apply Forall_fmap. eapply Forall_impl; [exact Hs|].
  intros s Hf. unfold compose, publish_to. destruct (ev_group e); [|done].
  destruct (subscriber_matches s _); [|done]. simpl. by apply push_items.
Qed.

Lemma registry_step_current r r' :
  registry_step r r' → (generation r < U64_MAX)%Z → mailboxes_current r → mailboxes_current r'.
Proof.
  destruct 1; intros Hg Hr; unfold mailboxes_current in *.
  - unfold set_channel. destruct (channels r !! name); exact Hr.
  - unfold del_channel. destruct (channels r !! name); exact Hr.
  - simpl. apply foldl_inv; [|done]. intros r' n Hr'. unfold del_channel.
    destruct (channels r' !! n); exact Hr'.
  - unfold set_hook. destruct (hooks r !! name); exact Hr.
  - unfold del_hook. destruct (hooks r !! name); exact Hr.
  - simpl. apply foldl_inv; [|done]. intros r' n Hr'. unfold del_hook. destruct (hooks r' !! n); exact Hr'.
  - simpl. apply Forall_app. split; [done|]. apply Forall_singleton. constructor.
  - simpl. apply Forall_app. split; [done|]. apply Forall_singleton. constructor.
  - simpl. rewrite saturating_add_exact by lia. eapply Forall_impl; [exact Hr|].
    intros s Hs. eapply Forall_impl; [exact Hs|]. simpl. lia.
  - simpl. apply foldl_inv; [|done]. intros subs ev Hsubs. apply publish_current; simpl; [lia|done].
Qed.

(** A flush ([clear_all]) hides every event published before it: whatever
    was waiting for a subscriber, a receive right after the flush returns
    nothing. *)
Theorem flush_hides_old_events (r : GeofenceRegistry) (rc : GeofenceEventReceiver)
    (s : Subscriber) (Hcur : mailboxes_current r) (Hg : (generation r < U64_MAX)%Z)
    (Hs : subscribers r !! receiver_index rc = Some s)
    (Hsmall : mailbox_small (sub_mailbox s) (receiver_position rc)) :
  (try_recv (clear_all r) rc).2 = None.
Proof.
  unfold try_recv. simpl subscribers. rewrite Hs.
  pose proof (try_recv_loop_spec (S (length (items (sub_mailbox s)))) (generation (clear_all r))
                (sub_mailbox s) (receiver_position rc) Hsmall) as Hl.
  destruct (try_recv_loop _ _ _ _) as [p e]. simpl in Hl |- *.
  rewrite Hl by (unfold pending; rewrite length_drop, length_fmap; lia).
  rewrite Forall_filter_nil; [done|]. rewrite saturating_add_exact by lia.
  unfold pending. apply Forall_drop.
  unfold mailboxes_current in Hcur. rewrite Forall_lookup in Hcur. specialize (Hcur _ _ Hs).
  eapply Forall_impl; [exact Hcur|]. simpl. lia.
Qed.

(** ** Roaming fences *)

Lemma remove_pairs_lookup keys : ∀ (m : gmap (string * string) bool) k,
  remove_pairs m keys !! k = if decide (k ∈ keys) then None else m !! k.
Proof.
  unfold remove_pairs. induction keys as [|x keys IH]; intros m k; simpl; [done|].
  rewrite IH. destruct (decide (k ∈ keys)) as [Hk|Hk].
  - rewrite decide_True by (by apply elem_of_cons; right). done.
  - destruct (decide (k = x)) as [->|Hx].
    + by rewrite lookup_delete_eq, decide_True by (by apply elem_of_cons; left).
    + rewrite lookup_delete_ne by done. rewrite decide_False; [done|].
      intros [?|?]%elem_of_cons; done.
Qed.

Lemma mark_pairs_spec src emit nodwell mk l : ∀ m, NoDup l.*1 →
  (∀ k, (mark_pairs m src emit nodwell mk l).1 !! k =
        if decide (k.1 = src ∧ k.2 ∈ l.*1) then Some true else m !! k) ∧
  (mark_pairs m src emit nodwell mk l).2 =
    (λ td, mk td.1 td.2) <$>
      filter (λ td, emit = true ∧ ¬ (m !! (src, td.1) = Some true ∧ nodwell = true)) l.
Proof.
  induction l as [|[t dist] l IH]; intros m Hnd; simpl.
  { split; [|done]. intros k. rewrite decide_False; [done|]. by intros [_ ?%elem_of_nil]. }
  rewrite fmap_cons in Hnd. apply NoDup_cons in Hnd as [Ht Hnd]. simpl in Ht.
  destruct (IH (<[(src, t) := true]> m) Hnd) as [H1 H2].
  destruct (mark_pairs (<[(src, t) := true]> m) src emit nodwell mk l) as [m' evs].
  simpl in H1, H2 |- *. split.
  - intros [a b]. rewrite H1. change (list_fmap (string * f64)%type string fst l) with (l.*1).
    cbn [fst snd]. destruct (decide (a = src ∧ b = t)) as [[-> ->]|Hab].
    + rewrite decide_False by (by intros [_ ?]).
      rewrite lookup_insert_eq, decide_True; [done|]. split; [done | by left].
    + rewrite lookup_insert_ne by (intros [= <- <-]; by apply Hab).
      destruct (decide (a = src ∧ b ∈ l.*1)) as [Hin|Hni], (decide (a = src ∧ b ∈ t :: l.*1))
        as [Hin'|Hni']; try done.
      * destruct Hni'. split; [apply Hin | right; apply Hin].
      * destruct Hin' as [-> [->|?]%elem_of_cons]; [by destruct Hab | by destruct Hni].
  - assert (filter (λ td, emit = true ∧ ¬ (<[(src, t):=true]> m !! (src, td.1) = Some true ∧ nodwell = true)) l
            = filter (λ td, emit = true ∧ ¬ (m !! (src, td.1) = Some true ∧ nodwell = true)) l) as Hfe.
    { apply filter_ext_elem. intros [t' d'] Hin. simpl.
      assert (t' ≠ t) by (intros ->; apply Ht; by apply (list_elem_of_fmap_2 fst _ (t, d'))).
      by rewrite lookup_insert_ne by congruence. }
    rewrite Hfe in H2. subst evs.
    destruct emit; simpl; [|by rewrite filter_cons_False by (intros [? _]; done)].
    destruct (decide (m !! (src, t) = Some true ∧ nodwell = true)) as [[Hm ->]|Hn].
    + rewrite Hm. simpl. rewrite filter_cons_False; [done|]. simpl. intros [_ Hx]. by apply Hx.
    + rewrite filter_cons_True by (simpl; done).
      assert (default false (m !! (src, t)) && nodwell = false) as ->; [|done].
      destruct (m !! (src, t)) as [[]|], nodwell; try done. by destruct Hn.
Qed.

(** A target is within reach of a source: the source passes the fence's
    filters, the target is another object whose id matches the pattern, both
    are points, and they are at most [meters] apart. *)
Definition reaches (source : Object) (options : SearchOptions) (tp : string) (meters : f64)
    (target : Object) (distance : f64) : Prop :=
  matches_candidate source options = Ok true ∧
  glob_match tp (id target) = true ∧ id target ≠ id source ∧
  ∃ p q, point_coordinates (geo source) = Some p ∧ point_coordinates (geo target) = Some q ∧
    distance = haversine_distance_meters p.1 p.2 q.1 q.2 ∧ SFleb distance meters = true.

Lemma roam_distance_Some source target meters distance :
  roam_distance_meters source target meters = Some distance ↔
  ∃ p q, point_coordinates (geo source) = Some p ∧ point_coordinates (geo target) = Some q ∧
    distance = haversine_distance_meters p.1 p.2 q.1 q.2 ∧ SFleb distance meters = true.
Proof.
  unfold roam_distance_meters.
  destruct (point_coordinates (geo source)) as [[a b]|],
    (point_coordinates (geo target)) as [[a' b']|];
    try (split; [done | by intros (?&?&?&?&_)]).
  destruct (SFleb _ meters) eqn:Hm.
  - split; [intros [= <-]; by exists (a, b), (a', b') | by intros (?&?&[= <-]&[= <-]&->&_)].
  - split; [done|]. intros (?&?&[= <-]&[= <-]&->&Ht). simpl in Ht. congruence.
Qed.

(** A target the loop of [current_matches] keeps. *)
Definition near_to (source : Object) (tp : string) (meters : f64) (target : Object) : option f64 :=
  if glob_match tp (id target) && negb (String.eqb (id target) (id source))
  then roam_distance_meters source target meters else None.

Lemma current_matches_step source tp meters (m : gmap string f64) target :
  (if negb (glob_match tp (id target)) || String.eqb (id target) (id source)
   then m
   else match roam_distance_meters source target meters with
        | Some distance => <[id target := distance]> m
        | None => m
        end) =
  match near_to source tp meters target with
  | Some distance => <[id target := distance]> m
  | None => m
  end.
Proof. unfold near_to. by destruct (glob_match tp _), (String.eqb _ _). Qed.

Lemma near_to_Some source tp meters target distance :
  near_to source tp meters target = Some distance ↔
  glob_match tp (id target) = true ∧ id target ≠ id source ∧
  roam_distance_meters source target meters = Some distance.
Proof.
  unfold near_to. destruct (glob_match tp _), (String.eqb_spec (id target) (id source)); simpl;
    naive_solver.
Qed.

(** A map filled from the elements of a list with distinct keys. *)
Lemma foldl_optional_insert {A B} (key : A → string) (f : A → option B) (l : list A) t v :
  ∀ m : gmap string B, NoDup (key <$> l) → (∀ x, x ∈ l → m !! key x = None) →
  foldl (λ m x, match f x with Some y => <[key x := y]> m | None => m end) m l !! t = Some v ↔
  m !! t = Some v ∨ ∃ x, x ∈ l ∧ key x = t ∧ f x = Some v.
Proof.
  induction l as [|x l IH]; intros m Hl Hm; cbn [foldl].
  { split; [by left|]. intros [?|(?&?%elem_of_nil&_)]; done. }
  rewrite fmap_cons in Hl. apply NoDup_cons in Hl as [Hx Hl].
  assert (∀ y, y ∈ l → key y ≠ key x) as Hne.
  { intros y Hy Heq. apply Hx. rewrite <-Heq. by apply list_elem_of_fmap_2. }
  assert (m !! key x = None) as Hmx by (apply Hm; by left).
  rewrite IH; [|done|].
  2: { intros y Hy. pose proof (Hne y Hy).
       destruct (f x); [rewrite lookup_insert_ne by done|]; apply Hm; by right. }
  setoid_rewrite elem_of_cons. destruct (f x) as [d|] eqn:Hf; [|naive_solver].
  destruct (decide (t = key x)) as [->|Ht].
  - rewrite lookup_insert_eq. split; [|intros [?|(y & [->|Hy] & Heq & ?)]; [congruence|left; congruence|]].
    + intros [?|(y & Hy & Heq & _)]; [naive_solver | by destruct (Hne y)].
    + by destruct (Hne y).
  - rewrite lookup_insert_ne by done. naive_solver.
Qed.

Lemma current_matches_lookup source targets tp meters t distance :
  NoDup (id <$> targets) →
  current_matches source targets tp meters !! t = Some distance ↔
  ∃ target, target ∈ targets ∧ id target = t ∧ near_to source tp meters target = Some distance.
Proof.
  intros Hnd.
  assert (current_matches source targets tp meters =
    foldl (λ m x, match near_to source tp meters x with
                  | Some y => <[id x := y]> m | None => m end) ∅ targets) as ->.
  { unfold current_matches. generalize (∅ : gmap string f64). clear Hnd.
    induction targets as [|x l IH]; intros m; [done|]. cbn [foldl].
    rewrite current_matches_step. apply IH. }
  rewrite (foldl_optional_insert id (near_to source tp meters) targets t distance ∅); [|done|done].
  rewrite lookup_empty. naive_solver.
Qed.

(** The targets a source reaches, by id, with their distances. *)
Definition near_targets (source : Object) (targets : list Object) (tp : string) (meters : f64)
    (options : SearchOptions) : gmap string f64 :=
  if default false (rok (matches_candidate source options))
  then current_matches source targets tp meters else ∅.

Lemma near_targets_lookup source targets tp meters options t distance :
  NoDup (id <$> targets) →
  near_targets source targets tp meters options !! t = Some distance ↔
  ∃ target, target ∈ targets ∧ id target = t ∧ reaches source options tp meters target distance.
Proof.
  intros Hnd. unfold near_targets, reaches.
  destruct (matches_candidate source options) as [[]|] eqn:Hm; simpl;
    [|rewrite lookup_empty; naive_solver..].
  rewrite current_matches_lookup by done. setoid_rewrite near_to_Some.
  setoid_rewrite roam_distance_Some. naive_solver.
Qed.

(** The pairs and the events of one pass over a source's neighbours. *)
Lemma reconcile_source_spec s s' source targets tc tp meters options nodwell e sc group hook emit evs :
  reconcile_source_pairs s source targets tc tp meters options nodwell e sc group hook emit =
    Ok (s', evs) →
  let near := near_targets source targets tp meters options in
  (∀ k, st_pairs s' !! k =
        if decide (k.1 = id source) then (λ _, true) <$> near !! k.2 else st_pairs s !! k) ∧
  evs ≡ₚ (λ td, roam_event e sc source tc td.1 td.2 group hook) <$>
    filter (λ td, emit = true ∧ ¬ (st_pairs s !! (id source, td.1) = Some true ∧ nodwell = true))
      (map_to_list near).
Proof.
  unfold reconcile_source_pairs. intros Hev. apply rbind_Ok_inv in Hev as (allowed & Hal & Hev).
  assert ((if allowed then current_matches source targets tp meters else ∅) =
          near_targets source targets tp meters options) as Hnear.
  { unfold near_targets. destruct (matches_candidate source options) as [[]|]; simplify_eq/=; done. }
  rewrite Hnear in Hev. clear Hnear. set (near := near_targets source targets tp meters options) in *.
  set (stale := filter _ _) in Hev.
  pose proof (mark_pairs_spec (id source) emit nodwell
    (λ t dist, roam_event e sc source tc t dist group hook) (hash_iter near)
    (remove_pairs (st_pairs s) stale) (hash_iter_NoDup near)) as [H1 H2].
  destruct (mark_pairs _ _ _ _ _ _) as [pairs' evs']. simpl in H1, H2. simplify_eq.
  assert (∀ t, t ∈ (hash_iter near).*1 ↔ is_Some (near !! t)) as Hdom.
  { intros t. rewrite list_elem_of_fmap. split.
    - intros ([t' d] & -> & Hin). apply elem_of_hash_iter in Hin. eauto.
    - intros [d Hd]. exists (t, d). split; [done|]. by apply elem_of_hash_iter. }
  assert (∀ k, k ∈ stale ↔ is_Some (st_pairs s !! k) ∧ k.1 = id source ∧ near !! k.2 = None) as Hst.
  { intros k. unfold stale. rewrite list_elem_of_filter, list_elem_of_fmap. split.
    - intros [Hk ([k' v] & -> & Hin)]. apply elem_of_hash_iter in Hin. eauto.
    - intros [[v Hv] Hk]. split; [done|]. exists (k, v). split; [done|]. by apply elem_of_hash_iter. }
  cbv zeta. split.
  - intros k. simpl. rewrite H1, remove_pairs_lookup.
    destruct (decide (k.1 = id source)) as [Hk|Hk].
    + destruct (near !! k.2) as [d|] eqn:Hn; simpl.
      * rewrite decide_True by (split; [done | apply Hdom; eauto]). done.
      * rewrite decide_False by (intros [_ [? ?]%Hdom]; congruence).
        case_decide as Hd; [done|]. apply eq_None_not_Some. intros Hs. by apply Hd, Hst.
    + rewrite decide_False by naive_solver.
      rewrite decide_False; [done|]. rewrite Hst. naive_solver.
  - apply fmap_Permutation. rewrite <-hash_iter_perm.
    erewrite filter_ext_elem; [done|]. intros [t dist] Hin. simpl.
    rewrite remove_pairs_lookup, decide_False; [done|]. rewrite Hst. simpl.
    apply elem_of_hash_iter in Hin. naive_solver.
Qed.

(** C39: when an object of a roaming fence's source collection changes, the
    pairs the fence remembers for that object become exactly the pairs with
    the objects of the target collection within its reach: the source passes
    the query's filters, the other object's id matches the pattern, both are
    points and they are at most [meters] apart; a removed object keeps no
    pair, and the pairs of other sources are untouched.  When the definition
    selects the command and the roam detection, exactly one event is emitted
    per object within reach, with its distance, except, under [nodwell], for
    the pairs already remembered; otherwise no event.  The mutation's object
    carries the mutation's id, the target collection's ids are distinct, and
    the fence evaluates without error. *)
Theorem roam_pairs_track_neighbours (f : StoredGeofence) (e : MutationEvent)
    (group hook : option string) (lookup : string → list Object)
    (tc tp : string) (meters : f64) (options : SearchOptions) (nodwell : bool)
    (u : StoredStateUpdate) (evs : list GeofenceEvent)
    (Hquery : def_query (fence_def f) = QRoam tc tp meters options nodwell)
    (Hcoll : mu_collection e = def_collection (fence_def f))
    (Hid : ∀ o, mu_after e = Some o → id o = mu_id e)
    (Hnd : NoDup (id <$> lookup tc))
    (Hev : evaluate_stored_fence f e group hook lookup = Ok (u, evs)) :
  let s := fence_state f in
  let s' := apply_update u s in
  let reached t distance := ∃ source target,
    mu_after e = Some source ∧ target ∈ lookup tc ∧ id target = t ∧
    reaches source options tp meters target distance in
  (∀ t b, st_pairs s' !! (mu_id e, t) = Some b ↔ b = true ∧ ∃ distance, reached t distance) ∧
  (∀ k, k.1 ≠ mu_id e → st_pairs s' !! k = st_pairs s !! k) ∧
  NoDup evs ∧
  (∀ ev, ev ∈ evs ↔
     command_allowed (fence_def f) e = true ∧ detect_allowed (fence_def f) DRoam = true ∧
     ∃ source t distance, mu_after e = Some source ∧ reached t distance ∧
       ¬ (st_pairs s !! (mu_id e, t) = Some true ∧ nodwell = true) ∧
       ev = roam_event e (def_collection (fence_def f)) source tc t distance group hook).
Proof.
  unfold evaluate_stored_fence in Hev. rewrite Hquery in Hev.
  apply rbind_Ok_inv in Hev as ([s' evs'] & Hev & [= <- <-]). cbv zeta. cbn [apply_update fst snd].
  unfold evaluate_roaming_fence in Hev. rewrite Hcoll, String.eqb_refl in Hev. cbn [negb andb] in Hev.
  destruct (mu_after e) as [source|].
  - apply reconcile_source_spec in Hev as [Hp He]. rewrite (Hid source eq_refl) in Hp, He.
    pose proof (near_targets_lookup source (lookup tc) tp meters options) as Hn.
    set (near := near_targets source (lookup tc) tp meters options) in *.
    split_and!.
    + intros t b. rewrite Hp, decide_True by done. cbn [snd]. rewrite fmap_Some.
      setoid_rewrite Hn; [|done]. naive_solver.
    + intros k Hk. by rewrite Hp, decide_False.
    + rewrite He. apply NoDup_fmap_2_strong;
        [|apply NoDup_filter, NoDup_map_to_list].
      intros [t d] [t' d'] _ _. unfold roam_event. simpl. congruence.
    + intros ev. rewrite He, list_elem_of_fmap. setoid_rewrite list_elem_of_filter.
      setoid_rewrite andb_true_iff. split.
      * intros ([t d] & -> & (Hem & Hno) & Hin%elem_of_map_to_list).
        apply Hn in Hin as (x & ? & ? & ?); [|done].
        split_and!; [apply Hem..|]. exists source, t, d. naive_solver.
      * intros (Hc & Hd & source' & t & d & [= <-] & (x & y & [= <-] & Hr) & Hno & ->).
        exists (t, d). split_and!; [done|exact Hc|exact Hd|exact Hno|].
        apply elem_of_map_to_list, Hn; [done|]. by exists y.
  - simplify_eq. unfold clear_source_pairs. cbn [st_pairs].
    assert (∀ k, remove_pairs (st_pairs (fence_state f))
              (filter (λ k, k.1 = mu_id e) (hash_iter (st_pairs (fence_state f))).*1) !! k =
            if decide (k.1 = mu_id e) then None else st_pairs (fence_state f) !! k) as Hr.
    { intros k. rewrite remove_pairs_lookup. destruct (decide (k.1 = mu_id e)) as [Hk|Hk].
      - case_decide as Hd; [done|]. apply eq_None_not_Some. intros [v Hv]. apply Hd.
        apply list_elem_of_filter. split; [done|]. apply list_elem_of_fmap. exists (k, v).
        split; [done|]. by apply elem_of_hash_iter.
      - rewrite decide_False; [done|]. by intros [? _]%list_elem_of_filter. }
    split_and!.
    + intros t b. rewrite Hr, decide_True by done. naive_solver.
    + intros k Hk. by rewrite Hr, decide_False.
    + constructor.
    + intros ev. rewrite elem_of_nil. naive_solver.
Qed.

End StaticFences.

(** ** Concrete fences *)
Module GeofenceWitness.
Import NoGeoJson PlainText.

Definition here : GeoType := GtPoint (f64_of_Z 1) (f64_of_Z 2) None.
Definition object_n (name : string) : Object := mkObject name here ∅ None.
Definition near_def : GeofenceDef :=
  mkDef "fleet" (QNearby (f64_of_Z 1) (f64_of_Z 2) (f64_of_Z 10) default_search_options) [] [].
Definition far_def : GeofenceDef := mkDef "fleet" (QWithin (AHash "!") default_search_options) [] [].
Definition set_event (name : string) : MutationEvent :=
  mkMutation MSet "fleet" name None (Some (object_n name)) 7.

Definition reg0 : GeofenceRegistry := registry_new 4.
Definition reg1 : GeofenceRegistry := set_channel reg0 "chan" near_def.
Definition reg2 : GeofenceRegistry := (subscribe reg1 ["chan"]).1.
Definition reg3 : GeofenceRegistry :=
  (evaluate_mutation reg2 (set_event "truck") (λ _, [])).1.
Definition rc0 : GeofenceEventReceiver := mkReceiver 0 0.

Lemma registry_watches_exactly_witness :
  ∃ f, channels reg1 !! "chan" = Some f ∧
       (def_collection (fence_def f) = "fleet" ∨ roam_target (fence_def f) = Some "fleet").
Proof.
  apply (registry_watches_exactly 4 reg1 "fleet").
  - apply rtc_once. apply step_set_channel.
  - apply (bool_decide_unpack _). vm_compute. exact I.
Defined.

Lemma static_fence_detects_witness :
  ∃ ev, evaluate_static_fence near_def empty_state (set_event "truck") (Some "chan") None =
          Ok (UObject "truck" (Some true), [ev]) ∧ ev_detect ev = DEnter.
Proof.
  assert (detect_of (was_inside near_def [] "truck") (now_inside near_def (set_event "truck"))
            (passes_through near_def (set_event "truck")) = DEnter) as Hd
    by (vm_compute; reflexivity).
  pose proof (static_fence_detects near_def (Some "chan") None [] empty_state (set_event "truck")
    (UObject "truck" (Some true))
    [mkEvent MSet DEnter "fleet" "truck" here ∅ 7 None None None (Some "chan") None 0]
    eq_refl eq_refl) as Hev.
  cbv zeta in Hev. change (mu_id (set_event "truck")) with "truck" in Hev. rewrite Hd in Hev.
  destruct Hev as (ev & Hl & He & _); [vm_compute; reflexivity|].
  exists ev. split; [rewrite <-Hl; vm_compute; reflexivity | exact He].
Defined.

Definition two_fences (name : string) : option StoredGeofence :=
  if String.eqb name "bad" then Some (mkFence far_def empty_state)
  else Some (mkFence near_def empty_state).

Lemma failing_fence_isolated_witness :
  let all := prepare_fences two_fences true (set_event "truck") (λ _, []) ["bad"; "good"] in
  let others := prepare_fences two_fences true (set_event "truck") (λ _, []) ["good"] in
  all.1.1 = others.1.1 ∧ all.1.2 = others.1.2 ∧ all.2 = (others.2 + 1)%Z.
Proof.
  apply (failing_fence_isolated two_fences true (set_event "truck") (λ _, []) ["bad"; "good"] "bad").
  - apply (bool_decide_unpack _). vm_compute. exact I.
  - by left.
  - exists (mkFence far_def empty_state), (GfGeo InvalidGeohash).
    split; [reflexivity | vm_compute; reflexivity].
Defined.

Lemma reg3_sub : ∃ s, subscribers reg3 !! 0 = Some s ∧ mailbox_small (sub_mailbox s) 0 ∧
  length (items (sub_mailbox s)) = 1.
Proof. eexists. split_and!; [reflexivity|..]; vm_compute; intuition congruence. Qed.

Lemma try_recv_first_fresh_witness :
  ∃ s, (try_recv reg3 rc0).2 =
    head (filter (λ ev, (generation reg3 ≤ ev_generation ev)%Z) (pending (sub_mailbox s) 0)).
Proof.
  destruct reg3_sub as (s & Hs & Hsmall & _). exists s.
  apply (try_recv_first_fresh reg3 rc0 s); assumption.
Defined.

Lemma reg3_current : mailboxes_current reg3.
Proof.
  do 2 (eapply registry_step_current; [constructor | apply Z.ltb_lt; reflexivity |]).
  eapply registry_step_current; [constructor | apply Z.ltb_lt; reflexivity |].
  constructor.
Qed.

Lemma flush_hides_old_events_witness :
  is_Some (try_recv reg3 rc0).2 ∧ (try_recv (clear_all reg3) rc0).2 = None.
Proof.
  destruct reg3_sub as (s & Hs & Hsmall & _). split.
  - vm_compute. eexists. reflexivity.
  - apply (flush_hides_old_events reg3 rc0 s reg3_current);
      [apply Z.ltb_lt; reflexivity | assumption | assumption].
Defined.

(** A fence on "fleet" that reports objects coming within 10 m. *)
Definition roam_fence : StoredGeofence :=
  mkFence (mkDef "fleet" (QRoam "fleet" "*" (f64_of_Z 10) default_search_options true) [] [])
    empty_state.

Lemma roam_pairs_track_neighbours_witness :
  ∃ distance target, target ∈ [object_n "b"] ∧
    reaches (object_n "a") default_search_options "*" (f64_of_Z 10) target distance.
Proof.
  assert (st_pairs (mkStored ∅ {[ ("a", "b") := true ]}) !! ("a", "b") = Some true) as Hp
    by (vm_compute; reflexivity).
  destruct (roam_pairs_track_neighbours roam_fence (set_event "a") None None
    (λ _, [object_n "b"]) "fleet" "*" (f64_of_Z 10) default_search_options true
    (UReplace (mkStored ∅ {[ ("a", "b") := true ]}))
    [roam_event (set_event "a") "fleet" (object_n "a") "fleet" "b" fzero None None]
    eq_refl eq_refl) as (H1 & _).
  - intros o [= <-]. reflexivity.
  - apply (bool_decide_unpack _). vm_compute. exact I.
  - vm_compute. reflexivity.
  - apply H1 in Hp as (_ & distance & source & target & [= <-] & Hin & _ & Hr).
    exists distance, target. split; assumption.
Defined.

End GeofenceWitness.
