(* ===== verification/Collection.v ===== *)
(** * Collections ([crates/latlng-core/src/lib.rs], [Collection] and [FieldIndexes])

    A collection keeps its objects in a map and four derived structures beside
    it: the spatial index, the numeric and text field indexes, and the set of
    deadlines.  Every operation updates them in place, in the order of the
    source, also on the error paths. *)

From Stdlib Require Import ZArith Lia SpecFloat.
From stdpp Require Import base gmap strings list sorting.
From S2P Require Import Prelude Storage F64 Json Geo Strings Index.

(** ** Errors *)

Inductive CoreError : Type :=
  | CGeo (e : GeoError)
  | CIndex (e : IndexError)
  | CStorage (e : StorageError)
  | CollectionNotFound (name : string)
  | ObjectNotFound (collection i : string)
  | ReadOnly
  | MissingStorage
  | CCodec (message : string)
  | Invalid (message : string)
  | CMessage (message : string).

Inductive ErrorKind : Type := NotFound | BadRequest | KReadOnly | Internal.

Definition kind (e : CoreError) : ErrorKind :=
  match e with
  | CollectionNotFound _ | ObjectNotFound _ _ => NotFound
  | CGeo _ | CIndex _ | Invalid _ => BadRequest
  | ReadOnly => KReadOnly
  | CStorage _ | MissingStorage | CCodec _ | CMessage _ => Internal
  end.

(** ** Fields ([crates/latlng-core/src/util.rs]) *)

Record FieldEntry := mkFieldEntry { field_name : string; field_value : FieldValue }.

Definition field_entries_to_map (entries : list FieldEntry) : FieldMap :=
  foldl (λ m e, <[field_name e := field_value e]> m) ∅ entries.

Definition is_zero_field_value (v : FieldValue) : bool :=
  match v with FNumber x => SFeqb x fzero | _ => false end.

Definition apply_field_update (m : FieldMap) (e : FieldEntry) : FieldMap :=
  if is_zero_field_value (field_value e) then delete (field_name e) m
  else <[field_name e := field_value e]> m.

Definition apply_field_updates (m : FieldMap) (updates : list FieldEntry) : FieldMap :=
  foldl apply_field_update m updates.

Definition merged_set_fields (existing : option Object) (updates : list FieldEntry) : FieldMap :=
  apply_field_updates (from_option fields ∅ existing) updates.

Definition field_map_to_entries (m : FieldMap) : list FieldEntry :=
  (λ '(name, value), mkFieldEntry name value) <$> btree_iter m.

(** ** Field indexes *)

Record FieldIndexes := mkFieldIndexes {
  numeric : gmap string (gmap f64 (gset string));
  text : gmap string (gmap string (gset string))
}.

Definition empty_indexes : FieldIndexes := mkFieldIndexes ∅ ∅.

(** [entry(field).or_default().entry(value).or_default().insert(id)]. *)
Definition insert_indexed_id {K} `{Countable K} (indexes : gmap string (gmap K (gset string)))
    (field : string) (value : K) (i : string) : gmap string (gmap K (gset string)) :=
  let vals := default ∅ (indexes !! field) in
  let ids := default ∅ (vals !! value) in
  <[field := <[value := {[i]} ∪ ids]> vals]> indexes.

(** The id taken out of one value's set, and the value with its last id. *)
Definition remove_value {K} `{Countable K} (vals : gmap K (gset string)) (value : K) (i : string)
    : gmap K (gset string) :=
  match vals !! value with
  | None => vals
  | Some ids =>
      let ids' := ids ∖ {[i]} in
      if bool_decide (ids' = ∅) then delete value vals else <[value := ids']> vals
  end.

Definition remove_indexed_id {K} `{Countable K} (indexes : gmap string (gmap K (gset string)))
    (field : string) (value : K) (i : string) : gmap string (gmap K (gset string)) :=
  match indexes !! field with
  | None => indexes
  | Some vals =>
      let vals' := remove_value vals value i in
      if bool_decide (vals' = ∅) then delete field indexes else <[field := vals']> indexes
  end.

Definition insert_field (i : string) (ix : FieldIndexes) (fv : string * FieldValue)
    : FieldIndexes :=
  match fv.2 with
  | FNumber x => mkFieldIndexes (insert_indexed_id (numeric ix) fv.1 x i) (text ix)
  | FText s | FJson s => mkFieldIndexes (numeric ix) (insert_indexed_id (text ix) fv.1 s i)
  end.

Definition remove_field (i : string) (ix : FieldIndexes) (fv : string * FieldValue)
    : FieldIndexes :=
  match fv.2 with
  | FNumber x => mkFieldIndexes (remove_indexed_id (numeric ix) fv.1 x i) (text ix)
  | FText s | FJson s => mkFieldIndexes (numeric ix) (remove_indexed_id (text ix) fv.1 s i)
  end.

Definition insert_object (ix : FieldIndexes) (o : Object) : FieldIndexes :=
  foldl (insert_field (id o)) ix (btree_iter (fields o)).

Definition remove_object (ix : FieldIndexes) (o : Object) : FieldIndexes :=
  foldl (remove_field (id o)) ix (btree_iter (fields o)).

(** *** Candidate selection *)

Definition is_top_level_field (field : string) : bool :=
  negb (String.eqb field "z") && negb (str_contains "." field).

Definition parses_to_zero (s : string) : bool :=
  match parse_f64 s with Some n => SFeqb n fzero | None => false end.

Definition where_filter_matches_zero (f : WhereFilter) : bool :=
  match where_comparison f with
  | Range min max => SFleb min fzero && SFleb fzero max
  | EqualsText expected => parses_to_zero expected
  | Regex _ => true
  end.

(** [BTreeMap::range(min..=max)] in key order; [None] stands for its panic
    when the start is greater than the end. *)
Definition numeric_key_le (a b : f64 * gset string) : Prop := total_le a.1 b.1 = true.
#[export] Instance numeric_key_le_dec : RelDecision numeric_key_le.
Proof. intros a b. unfold numeric_key_le. apply _. Defined.

Definition btree_range (vals : gmap f64 (gset string)) (min max : f64)
    : option (list (f64 * gset string)) :=
  if total_le min max then
    Some (filter (λ kv, total_le min kv.1 && total_le kv.1 max)
            (merge_sort numeric_key_le (map_to_list vals)))
  else None.

Definition ids_of_range (kvs : list (f64 * gset string)) : gset string := ⋃ (kvs.*2).

(** The ids an index gives for a filter: the outer option is a panic, the
    inner one says whether an index applies. *)
Definition ids_for_where_filter (ix : FieldIndexes) (f : WhereFilter)
    : option (option (gset string)) :=
  if negb (is_top_level_field (where_field f)) || where_filter_matches_zero f then Some None
  else
    match where_comparison f with
    | Range min max =>
        match numeric ix !! where_field f with
        | None => Some None
        | Some vals => kvs ← btree_range vals min max; Some (Some (ids_of_range kvs))
        end
    | EqualsText expected =>
        Some (Some (default ∅ (vals ← text ix !! where_field f; vals !! expected)))
    | Regex _ => Some None
    end.

Definition ids_for_where_in_filter (ix : FieldIndexes) (f : WhereInFilter)
    : option (gset string) :=
  if negb (is_top_level_field (in_field f)) || existsb parses_to_zero (values f) then None
  else
    let text_ids :=
      (λ v, default ∅ (vals ← text ix !! in_field f; vals !! v)) <$> values f in
    let numeric_ids :=
      (λ v, default ∅ (vals ← numeric ix !! in_field f; n ← parse_f64 v; vals !! n)) <$> values f in
    Some (⋃ text_ids ∪ ⋃ numeric_ids).

Definition intersect_selected (selected : option (gset string)) (ids : gset string)
    : option (gset string) :=
  match selected with
  | Some existing => Some (existing ∩ ids)
  | None => Some ids
  end.

Fixpoint select_where (ix : FieldIndexes) (selected : option (gset string))
    (fs : list WhereFilter) : option (option (gset string)) :=
  match fs with
  | [] => Some selected
  | f :: rest =>
      r ← ids_for_where_filter ix f;
      select_where ix (match r with
                       | Some ids => intersect_selected selected ids
                       | None => selected
                       end) rest
  end.

Definition select_where_in (ix : FieldIndexes) (selected : option (gset string))
    (fs : list WhereInFilter) : option (gset string) :=
  foldl (λ selected f, match ids_for_where_in_filter ix f with
                       | Some ids => intersect_selected selected ids
                       | None => selected
                       end) selected fs.

(** [candidate_ids]: [Some None] when no filter can use an index. *)
Definition candidate_ids (ix : FieldIndexes) (o : SearchOptions) : option (option (gset string)) :=
  selected ← select_where ix None (where_filters o);
  Some (select_where_in ix selected (where_in_filters o)).

(** The order in which [visit_candidate_ids] visits ids: the first filter that
    an index serves decides; [Some None] when none does. *)
Definition string_elements (s : gset string) : list string := merge_sort String.le (elements s).

Definition visit_where_filter_ids (ix : FieldIndexes) (f : WhereFilter)
    : option (option (list string)) :=
  if negb (is_top_level_field (where_field f)) || where_filter_matches_zero f then Some None
  else
    match where_comparison f with
    | Range min max =>
        match numeric ix !! where_field f with
        | None => Some (Some [])
        | Some vals =>
            kvs ← btree_range vals min max;
            Some (Some (kvs ≫= (λ kv, string_elements kv.2)))
        end
    | EqualsText expected =>
        Some (Some (string_elements
                      (default ∅ (vals ← text ix !! where_field f; vals !! expected))))
    | Regex _ => Some None
    end.

Fixpoint visit_where_filters (ix : FieldIndexes) (fs : list WhereFilter)
    : option (option (list string)) :=
  match fs with
  | [] => Some None
  | f :: rest =>
      r ← visit_where_filter_ids ix f;
      match r with
      | Some ids => Some (Some ids)
      | None => visit_where_filters ix rest
      end
  end.

Fixpoint visit_where_in_filters (ix : FieldIndexes) (fs : list WhereInFilter)
    : option (list string) :=
  match fs with
  | [] => None
  | f :: rest =>
      match ids_for_where_in_filter ix f with
      | Some ids => Some (string_elements ids)
      | None => visit_where_in_filters ix rest
      end
  end.

Definition visit_candidate_ids (ix : FieldIndexes) (o : SearchOptions)
    : option (option (list string)) :=
  r ← visit_where_filters ix (where_filters o);
  match r with
  | Some ids => Some (Some ids)
  | None => Some (visit_where_in_filters ix (where_in_filters o))
  end.

(** ** Collections *)

Definition is_expired (now_ms : Z) (o : Object) : bool :=
  match expires_at o with Some deadline => (deadline <=? now_ms)%Z | None => false end.

Section Collection.
Context `{LM : Libm} `{GC : GeoCrate} `{RC : RTreeCrate}.

Record Collection := mkCollection {
  name : string;
  objects : gmap string Object;
  spatial_index : SpatialIndex;
  field_indexes : FieldIndexes;
  expirations : gset (Z * string)
}.

Definition collection_new (n : string) : Collection :=
  mkCollection n ∅ spatial_new empty_indexes ∅.

Definition unexpire (x : gset (Z * string)) (o : Object) (i : string) : gset (Z * string) :=
  match expires_at o with Some deadline => x ∖ {[(deadline, i)]} | None => x end.
Definition add_expiry (x : gset (Z * string)) (deadline : option Z) (i : string)
    : gset (Z * string) :=
  match deadline with Some d => {[(d, i)]} ∪ x | None => x end.

(** The error path returns with the previous object's index entries already
    removed. *)
Definition upsert (c : Collection) (o : Object) : Collection * result unit CoreError :=
  let '(fi, ex) :=
    match objects c !! id o with
    | Some previous =>
        (remove_object (field_indexes c) previous, unexpire (expirations c) previous (id o))
    | None => (field_indexes c, expirations c)
    end in
  let s := (spatial_remove (spatial_index c) (id o)).1 in
  match spatial_insert s (id o) (geo o) with
  | (s', Err e) => (mkCollection (name c) (objects c) s' fi ex, Err (CIndex e))
  | (s', Ok _) =>
      (mkCollection (name c) (<[id o := o]> (objects c)) s' (insert_object fi o)
         (add_expiry ex (expires_at o) (id o)), Ok tt)
  end.

Definition remove (c : Collection) (i : string) : Collection * option Object :=
  let s := (spatial_remove (spatial_index c) i).1 in
  match objects c !! i with
  | None => (mkCollection (name c) (objects c) s (field_indexes c) (expirations c), None)
  | Some o =>
      (mkCollection (name c) (delete i (objects c)) s (remove_object (field_indexes c) o)
         (unexpire (expirations c) o (id o)), Some o)
  end.

Definition reindex_spatial (c : Collection) (i : string) : Collection :=
  let s := (spatial_remove (spatial_index c) i).1 in
  let s' :=
    match objects c !! i with
    | Some o => (spatial_insert s i (geo o)).1
    | None => s
    end in
  mkCollection (name c) (objects c) s' (field_indexes c) (expirations c).

Definition with_geo (o : Object) (g : GeoType) : Object :=
  mkObject (id o) g (fields o) (expires_at o).
Definition with_fields (o : Object) (m : FieldMap) : Object :=
  mkObject (id o) (geo o) m (expires_at o).
Definition with_expiry (o : Object) (deadline : option Z) : Object :=
  mkObject (id o) (geo o) (fields o) deadline.

Definition replace_geo (c : Collection) (i : string) (g : GeoType)
    : Collection * result bool CoreError :=
  match objects c !! i with
  | None => (c, Ok false)
  | Some o =>
      let objs := <[i := with_geo o g]> (objects c) in
      let s := (spatial_remove (spatial_index c) i).1 in
      let '(s', r) := spatial_insert s i g in
      (mkCollection (name c) objs s' (field_indexes c) (expirations c),
       match r with Ok _ => Ok true | Err e => Err (CIndex e) end)
  end.

Definition set_expiry (c : Collection) (i : string) (deadline : option Z) : Collection * bool :=
  match objects c !! i with
  | None => (c, false)
  | Some o =>
      (mkCollection (name c) (<[i := with_expiry o deadline]> (objects c)) (spatial_index c)
         (field_indexes c) (add_expiry (unexpire (expirations c) o i) deadline i), true)
  end.

(** [BTreeSet<(u64, String)>] in order. *)
Definition deadline_le (a b : Z * string) : Prop :=
  (a.1 < b.1)%Z ∨ a.1 = b.1 ∧ String.le a.2 b.2.
#[export] Instance deadline_le_dec : RelDecision deadline_le.
Proof. intros a b. unfold deadline_le. apply _. Defined.

Definition expirations_iter (c : Collection) : list (Z * string) :=
  merge_sort deadline_le (elements (expirations c)).

Fixpoint take_while {A} (p : A → bool) (l : list A) : list A :=
  match l with
  | [] => []
  | x :: l' => if p x then x :: take_while p l' else []
  end.

Definition due_expirations (c : Collection) (now_ms : Z) (max : nat) : list string :=
  (take max (take_while (λ di, (di.1 <=? now_ms)%Z) (expirations_iter c))).*2.

Definition insert_fields (c : Collection) (i : string) (fs : list FieldEntry)
    : Collection * bool :=
  match objects c !! i with
  | None => (c, false)
  | Some o =>
      let o' := with_fields o (apply_field_updates (fields o) fs) in
      (mkCollection (name c) (<[i := o']> (objects c)) (spatial_index c)
         (insert_object (remove_object (field_indexes c) o) o') (expirations c), true)
  end.

Section Queries.
Context `{JT : JsonText} `{PT : Patterns} `{HO : HashOrder}.

(** The visitor of [fast_indexed_results] over the visited ids. *)
Fixpoint fast_indexed_loop (c : Collection) (now_ms : Z) (o : SearchOptions)
    (string_objects_only : bool) (room : nat) (ids : list string)
    : result (list SearchItem) IndexError :=
  match ids with
  | [] => Ok []
  | i :: rest =>
      match objects c !! i with
      | None => fast_indexed_loop c now_ms o string_objects_only room rest
      | Some object =>
          if is_expired now_ms object || (string_objects_only && negb (is_string_geo (geo object)))
          then fast_indexed_loop c now_ms o string_objects_only room rest
          else
            let? matched := matches_candidate object o in
            if negb matched then fast_indexed_loop c now_ms o string_objects_only room rest
            else
              let item := mkItem (id object) None None None in
              match room with
              | 0 | 1 => Ok [item]
              | S room' =>
                  let? items := fast_indexed_loop c now_ms o string_objects_only room' rest in
                  Ok (item :: items)
              end
      end
  end.

(** [None] is the panic of an empty numeric range; [Ok None] says that the
    fast path does not apply. *)
Definition fast_indexed_results (c : Collection) (now_ms : Z) (o : SearchOptions)
    (string_objects_only : bool) : option (result (option SearchResults) CoreError) :=
  if negb (fast_limited_ids o) then Some (Ok None)
  else
    visited ← visit_candidate_ids (field_indexes c) o;
    Some (match visited with
          | None => Ok None
          | Some ids =>
              let? items := map_err CIndex
                (fast_indexed_loop c now_ms o string_objects_only (page_limit o) ids) in
              Ok (Some (mkResults items 0 (as_u32 (length items))))
          end).

Definition collection_bounds (c : Collection) : result (option BoundingBox) CoreError :=
  try_fold (λ acc o,
    let? b := map_err CGeo (geo_envelope (geo o)) in
    Ok (match b, acc with
        | Some b, Some existing => Some (union existing b)
        | Some b, None => Some b
        | None, _ => acc
        end)) None (hash_iter (objects c)).*2.

End Queries.

(** A collection with the version that optimistic writers compare. *)
Record VersionedCollection := mkVersioned {
  version : Z;
  collection : Collection
}.

Definition versioned_new (n : string) : VersionedCollection := mkVersioned 0 (collection_new n).

End Collection.
