(* ===== verification/FieldIndexSpec.v ===== *)
(** * Field indexes: membership

    What inserting and removing an object does to the numeric and text
    indexes, id by id. *)

From Stdlib Require Import ZArith Lia SpecFloat.
From stdpp Require Import base gmap strings list sorting.
From S2P Require Import Prelude Storage F64 Json Geo Collection.

(** ** Field indexes *)

Section IndexedIds.
Context {K : Type} `{Countable K}.

Definition ids_at (ix : gmap string (gmap K (gset string))) (f : string) (v : K) : gset string :=
  default ∅ (vals ← ix !! f; vals !! v).

Lemma ids_at_insert ix f v i f' v' :
  ids_at (insert_indexed_id ix f v i) f' v' =
  if decide (f = f' ∧ v = v') then {[i]} ∪ ids_at ix f v else ids_at ix f' v'.
Proof.
  unfold ids_at, insert_indexed_id. destruct (decide (f = f')) as [<-|Hf].
  - rewrite lookup_insert_eq. simpl. destruct (decide (v = v')) as [<-|Hv].
    + rewrite lookup_insert_eq, decide_True by done. simpl. by destruct (ix !! f).
    + rewrite lookup_insert_ne, decide_False by naive_solver.
      destruct (ix !! f); simpl; [done | by rewrite lookup_empty].
  - rewrite lookup_insert_ne, decide_False by naive_solver. done.
Qed.

Lemma ids_at_remove ix f v i f' v' :
  ids_at (remove_indexed_id ix f v i) f' v' =
  if decide (f = f' ∧ v = v') then ids_at ix f v ∖ {[i]} else ids_at ix f' v'.
Proof.
  unfold ids_at, remove_indexed_id. destruct (ix !! f) as [vals|] eqn:Hf.
  2: { case_decide as Hd; [|done]. destruct Hd as [<- <-]. rewrite Hf. simpl. set_solver. }
  cbv zeta. set (vals' := remove_value vals v i).
  assert (∀ w, default ∅ (vals' !! w) =
    if decide (v = w) then default ∅ (vals !! v) ∖ {[i]} else default ∅ (vals !! w)) as Hv.
  { intros w. unfold vals', remove_value. destruct (vals !! v) as [ids|] eqn:E.
    - case_bool_decide as He; destruct (decide (v = w)) as [<-|];
        rewrite ?lookup_delete_eq, ?lookup_delete_ne, ?lookup_insert_eq, ?lookup_insert_ne by done;
        simpl; done.
    - destruct (decide (v = w)) as [<-|]; [|done]. rewrite E. simpl. set_solver. }
  assert (∀ w, default ∅ (x ← (if bool_decide (vals' = ∅) then delete f ix else <[f:=vals']> ix) !! f;
                          x !! w) = default ∅ (vals' !! w)) as Hw.
  { intros w. case_bool_decide as He.
    - rewrite lookup_delete_eq, He. simpl. by rewrite lookup_empty.
    - by rewrite lookup_insert_eq. }
  destruct (decide (f = f')) as [<-|Hne].
  - rewrite Hw, Hv, Hf. simpl. repeat case_decide; naive_solver.
  - rewrite decide_False by naive_solver.
    case_bool_decide; [by rewrite lookup_delete_ne | by rewrite lookup_insert_ne].
Qed.

End IndexedIds.

Definition text_of (v : FieldValue) : option string :=
  match v with FNumber _ => None | FText s | FJson s => Some s end.

Definition num_ids (ix : FieldIndexes) := ids_at (numeric ix).
Definition text_ids (ix : FieldIndexes) := ids_at (text ix).

Lemma text_cons (f f0 : string) v0 (l : list (string * FieldValue)) s :
  (∃ v, (f, v) ∈ (f0, v0) :: l ∧ text_of v = Some s) ↔
  (f = f0 ∧ text_of v0 = Some s) ∨ ∃ v, (f, v) ∈ l ∧ text_of v = Some s.
Proof.
  setoid_rewrite elem_of_cons. split.
  - intros (v & [[= -> ->]|Hin] & Hv); eauto.
  - intros [[-> Hv]|(v & Hin & Hv)]; eauto.
Qed.

Lemma insert_fields_ids i l : ∀ ix f j,
  (∀ x, j ∈ num_ids (foldl (insert_field i) ix l) f x ↔
        j ∈ num_ids ix f x ∨ j = i ∧ (f, FNumber x) ∈ l) ∧
  (∀ s, j ∈ text_ids (foldl (insert_field i) ix l) f s ↔
        j ∈ text_ids ix f s ∨ j = i ∧ ∃ v, (f, v) ∈ l ∧ text_of v = Some s).
Proof.
  unfold num_ids, text_ids.
  induction l as [|[f0 v0] l IH]; intros ix f j; simpl.
  { split; intros; [rewrite elem_of_nil | setoid_rewrite elem_of_nil]; naive_solver. }
  destruct (IH (insert_field i ix (f0, v0)) f j) as [H1 H2]. split.
  - intros x. rewrite H1, elem_of_cons. destruct v0 as [y|s|s]; simpl.
    + rewrite ids_at_insert. case_decide as Hd.
      * destruct Hd as [<- <-]. rewrite elem_of_union, elem_of_singleton. naive_solver.
      * naive_solver.
    + naive_solver.
    + naive_solver.
  - intros s. rewrite H2, text_cons. set (Q := ∃ v, _). clearbody Q. clear H1 H2 IH.
    destruct v0 as [y|t|t]; simpl.
    + naive_solver.
    + rewrite ids_at_insert. case_decide as Hd.
      * destruct Hd as [<- <-]. rewrite elem_of_union, elem_of_singleton. naive_solver.
      * naive_solver.
    + rewrite ids_at_insert. case_decide as Hd.
      * destruct Hd as [<- <-]. rewrite elem_of_union, elem_of_singleton. naive_solver.
      * naive_solver.
Qed.

Lemma remove_fields_ids i l : ∀ ix f j,
  (∀ x, j ∈ num_ids (foldl (remove_field i) ix l) f x ↔
        j ∈ num_ids ix f x ∧ ¬ (j = i ∧ (f, FNumber x) ∈ l)) ∧
  (∀ s, j ∈ text_ids (foldl (remove_field i) ix l) f s ↔
        j ∈ text_ids ix f s ∧ ¬ (j = i ∧ ∃ v, (f, v) ∈ l ∧ text_of v = Some s)).
Proof.
  unfold num_ids, text_ids.
  induction l as [|[f0 v0] l IH]; intros ix f j; simpl.
  { split; intros; [rewrite elem_of_nil | setoid_rewrite elem_of_nil]; naive_solver. }
  destruct (IH (remove_field i ix (f0, v0)) f j) as [H1 H2]. split.
  - intros x. rewrite H1, elem_of_cons. destruct v0 as [y|s|s]; simpl.
    + rewrite ids_at_remove. case_decide as Hd.
      * destruct Hd as [<- <-]. rewrite elem_of_difference, elem_of_singleton. naive_solver.
      * naive_solver.
    + naive_solver.
    + naive_solver.
  - intros s. rewrite H2, text_cons. set (Q := ∃ v, _). clearbody Q. clear H1 H2 IH.
    destruct v0 as [y|t|t]; simpl.
    + naive_solver.
    + rewrite ids_at_remove. case_decide as Hd.
      * destruct Hd as [<- <-]. rewrite elem_of_difference, elem_of_singleton. naive_solver.
      * naive_solver.
    + rewrite ids_at_remove. case_decide as Hd.
      * destruct Hd as [<- <-]. rewrite elem_of_difference, elem_of_singleton. naive_solver.
      * naive_solver.
Qed.

Lemma insert_object_ids ix o f j :
  (∀ x, j ∈ num_ids (insert_object ix o) f x ↔
        j ∈ num_ids ix f x ∨ j = id o ∧ fields o !! f = Some (FNumber x)) ∧
  (∀ s, j ∈ text_ids (insert_object ix o) f s ↔
        j ∈ text_ids ix f s ∨ j = id o ∧ fields o !! f ≫= text_of = Some s).
Proof.
  destruct (insert_fields_ids (id o) (btree_iter (fields o)) ix f j) as [H1 H2].
  unfold insert_object. split.
  - intros x. by rewrite H1, elem_of_btree_iter.
  - intros s. rewrite H2. setoid_rewrite elem_of_btree_iter.
    by rewrite <-bind_Some.
Qed.

Lemma remove_object_ids ix o f j :
  (∀ x, j ∈ num_ids (remove_object ix o) f x ↔
        j ∈ num_ids ix f x ∧ ¬ (j = id o ∧ fields o !! f = Some (FNumber x))) ∧
  (∀ s, j ∈ text_ids (remove_object ix o) f s ↔
        j ∈ text_ids ix f s ∧ ¬ (j = id o ∧ fields o !! f ≫= text_of = Some s)).
Proof.
  destruct (remove_fields_ids (id o) (btree_iter (fields o)) ix f j) as [H1 H2].
  unfold remove_object. split.
  - intros x. by rewrite H1, elem_of_btree_iter.
  - intros s. rewrite H2. setoid_rewrite elem_of_btree_iter.
    by rewrite <-bind_Some.
Qed.
