(* ===== verification/CollectionSpec.v ===== *)
(** * Collections: properties

    The derived structures are functions of the objects: [collection_inv]
    says so and every operation that succeeds preserves it.  The one operation
    that can fail half-way, [upsert], breaks it on its error path, which is
    shown on a concrete collection.  Expiry returns exactly the due objects,
    and the field indexes never lose a match of the filters they serve, within
    the stated conditions. *)

From Stdlib Require Import ZArith Lia SpecFloat.
From stdpp Require Import base gmap strings list sorting.
From S2P Require Import Prelude Storage F64 Json Geo GeoSpec Strings Index IndexSpec Collection.
From S2P Require Import FieldIndexSpec.

Section CollectionSpec.
Context `{LM : Libm} `{GC : GeoCrate} `{RC : RTreeCrate}.

(** ** The invariant *)

(** The spatial entry an object has: none when it has no envelope. *)
Definition entry_of (i : string) (o : Object) : option IndexedEntry :=
  match geo_envelope (geo o) with
  | Ok (Some b) => Some (indexed_entry_new i b)
  | _ => None
  end.

Definition geo_regular (g : GeoType) : Prop :=
  ∀ b, geo_envelope g = Ok (Some b) → regular_box b.

Definition spatial_ok (s : SpatialIndex) (objs : gmap string Object) : Prop :=
  spatial_inv s ∧ ∀ i, entries_by_id s !! i = objs !! i ≫= entry_of i.

Definition fields_ok (ix : FieldIndexes) (objs : gmap string Object) : Prop :=
  (∀ f x i, i ∈ num_ids ix f x ↔ ∃ o, objs !! i = Some o ∧ fields o !! f = Some (FNumber x)) ∧
  (∀ f s i, i ∈ text_ids ix f s ↔ ∃ o, objs !! i = Some o ∧ fields o !! f ≫= text_of = Some s).

Definition expirations_ok (x : gset (Z * string)) (objs : gmap string Object) : Prop :=
  ∀ d i, (d, i) ∈ x ↔ ∃ o, objs !! i = Some o ∧ expires_at o = Some d.

Definition collection_inv (c : Collection) : Prop :=
  (∀ i o, objects c !! i = Some o → id o = i) ∧
  spatial_ok (spatial_index c) (objects c) ∧
  fields_ok (field_indexes c) (objects c) ∧
  expirations_ok (expirations c) (objects c).

Lemma collection_new_inv n : collection_inv (collection_new n).
Proof.
  split_and!; simpl.
  - intros i o. by rewrite lookup_empty.
  - split; [apply spatial_new_inv|]. intros i. simpl. by rewrite !lookup_empty.
  - split; intros f y i; rewrite lookup_empty; split; try (by intros (? & ? & _)); done.
  - intros d i. rewrite lookup_empty. split; [done | by intros (? & ? & _)].
Qed.

(** *** The spatial index *)

(** Removing an id and inserting a geometry for it, errors included. *)
Lemma spatial_replace_ok s objs i o :
  spatial_ok s objs → geo_regular (geo o) →
  spatial_ok (spatial_insert (spatial_remove s i).1 i (geo o)).1 (<[i := o]> objs).
Proof.
  intros [Hinv He] Hreg. destruct (spatial_remove_inv s i Hinv) as [Hinv' Hdel].
  destruct (spatial_insert_facts (spatial_remove s i).1 i (geo o) Hinv' Hreg) as [Hi Hm].
  split; [done|]. intros j.
  assert (∀ j, i ≠ j → entries_by_id s !! j = <[i:=o]> objs !! j ≫= entry_of j) as Hne.
  { intros j' Hj. rewrite He, lookup_insert_ne by done. done. }
  unfold entry_of in *. destruct (geo_envelope (geo o)) as [[b|]|e] eqn:Hg.
  - destruct Hm as [_ ->]. destruct (decide (i = j)) as [<-|Hj].
    + rewrite !lookup_insert_eq. simpl. by rewrite Hg.
    + rewrite lookup_insert_ne, Hdel, lookup_delete_ne by done. by apply Hne.
  - rewrite Hm. simpl. rewrite Hdel. destruct (decide (i = j)) as [<-|Hj].
    + rewrite lookup_delete_eq, lookup_insert_eq. simpl. by rewrite Hg.
    + rewrite lookup_delete_ne by done. by apply Hne.
  - rewrite Hm. simpl. rewrite Hdel. destruct (decide (i = j)) as [<-|Hj].
    + rewrite lookup_delete_eq, lookup_insert_eq. simpl. by rewrite Hg.
    + rewrite lookup_delete_ne by done. by apply Hne.
Qed.

Lemma spatial_remove_ok s objs i :
  spatial_ok s objs → spatial_ok (spatial_remove s i).1 (delete i objs).
Proof.
  intros [Hinv He]. destruct (spatial_remove_inv s i Hinv) as [Hinv' Hdel].
  split; [done|]. intros j. rewrite Hdel. destruct (decide (i = j)) as [<-|Hj].
  - by rewrite !lookup_delete_eq.
  - by rewrite !lookup_delete_ne.
Qed.

Lemma spatial_ok_ext s objs objs' :
  (∀ i, objs !! i ≫= entry_of i = objs' !! i ≫= entry_of i) →
  spatial_ok s objs → spatial_ok s objs'.
Proof. intros Heq [H1 H2]. split; [done|]. intros i. by rewrite H2, Heq. Qed.

(** *** The field indexes *)

Lemma fields_insert_ok ix objs o :
  objs !! id o = None → fields_ok ix objs → fields_ok (insert_object ix o) (<[id o := o]> objs).
Proof.
  intros Hnone [Hn Ht]. split; intros f v i.
  - rewrite (proj1 (insert_object_ids ix o f i)), Hn. split.
    + intros [(o' & Ho' & Hf)|[-> Hf]].
      * exists o'. rewrite lookup_insert_ne by congruence. done.
      * exists o. by rewrite lookup_insert_eq.
    + intros (o' & [[-> ->]|[? Ho']]%lookup_insert_Some & Hf); eauto.
  - rewrite (proj2 (insert_object_ids ix o f i)), Ht. split.
    + intros [(o' & Ho' & Hf)|[-> Hf]].
      * exists o'. rewrite lookup_insert_ne by congruence. done.
      * exists o. by rewrite lookup_insert_eq.
    + intros (o' & [[-> ->]|[? Ho']]%lookup_insert_Some & Hf); eauto.
Qed.

Lemma fields_remove_ok ix objs o :
  objs !! id o = Some o → fields_ok ix objs → fields_ok (remove_object ix o) (delete (id o) objs).
Proof.
  intros Hsome [Hn Ht]. split; intros f v i.
  - rewrite (proj1 (remove_object_ids ix o f i)), Hn.
    setoid_rewrite lookup_delete_Some. split.
    + intros [(o' & Ho' & Hf) Hni]. exists o'. split_and!; [|done..].
      intros <-. apply Hni. split; [done|]. congruence.
    + intros (o' & [Hne Ho'] & Hf). split; [eauto|]. intros [-> _]. done.
  - rewrite (proj2 (remove_object_ids ix o f i)), Ht.
    setoid_rewrite lookup_delete_Some. split.
    + intros [(o' & Ho' & Hf) Hni]. exists o'. split_and!; [|done..].
      intros <-. apply Hni. split; [done|]. congruence.
    + intros (o' & [Hne Ho'] & Hf). split; [eauto|]. intros [-> _]. done.
Qed.

Lemma fields_ok_ext ix objs objs' :
  (∀ i, fields <$> objs !! i = fields <$> objs' !! i) → fields_ok ix objs → fields_ok ix objs'.
Proof.
  intros Heq [Hn Ht].
  assert (∀ (P : FieldMap → Prop) i, (∃ o, objs !! i = Some o ∧ P (fields o)) ↔
                                (∃ o, objs' !! i = Some o ∧ P (fields o))) as Hex.
  { intros P i. specialize (Heq i). destruct (objs !! i) as [a|], (objs' !! i) as [b|];
      simplify_eq/=; [|split; by intros (? & ? & _)].
    split; intros (? & [= <-] & HP); eexists; (split; [done|]); congruence. }
  split; intros f v i.
  - rewrite Hn. apply (Hex (λ m, m !! f = Some (FNumber v))).
  - rewrite Ht. apply (Hex (λ m, m !! f ≫= text_of = Some v)).
Qed.

(** *** The deadlines *)

Lemma expirations_delete_ok x objs i o :
  objs !! i = Some o → expirations_ok x objs → expirations_ok (unexpire x o i) (delete i objs).
Proof.
  intros Ho Hx d j. setoid_rewrite lookup_delete_Some. unfold unexpire.
  destruct (expires_at o) as [d'|] eqn:Hd.
  - rewrite elem_of_difference, elem_of_singleton, (Hx d j). split.
    + intros [(o' & Ho' & Hd') Hne]. exists o'. split_and!; [|done..].
      intros <-. apply Hne. congruence.
    + intros (o' & [Hne Ho'] & Hd'). split; [eauto|]. congruence.
  - rewrite (Hx d j). split.
    + intros (o' & Ho' & Hd'). exists o'. split_and!; [|done..]. intros <-. congruence.
    + intros (o' & [Hne Ho'] & Hd'). eauto.
Qed.

Lemma expirations_insert_ok x objs i o :
  objs !! i = None → expirations_ok x objs →
  expirations_ok (add_expiry x (expires_at o) i) (<[i := o]> objs).
Proof.
  intros Hnone Hx d j. unfold add_expiry.
  assert ((∃ o', <[i:=o]> objs !! j = Some o' ∧ expires_at o' = Some d) ↔
          (i = j ∧ expires_at o = Some d) ∨ (d, j) ∈ x) as ->.
  { rewrite (Hx d j). setoid_rewrite lookup_insert_Some. split.
    - intros (o' & [[-> ->]|[Hne Ho']] & Hd); eauto.
    - intros [[-> Hd]|(o' & Ho' & Hd)]; [eauto|]. exists o'. split; [|done]. right.
      split; [congruence | done]. }
  destruct (expires_at o) as [d'|]; [|naive_solver].
  rewrite elem_of_union, elem_of_singleton. naive_solver.
Qed.

Lemma expirations_ok_ext x objs objs' :
  (∀ i, expires_at <$> objs !! i = expires_at <$> objs' !! i) →
  expirations_ok x objs → expirations_ok x objs'.
Proof.
  intros Heq Hx d i. rewrite (Hx d i). specialize (Heq i).
  destruct (objs !! i) as [a|], (objs' !! i) as [b|]; simplify_eq/=;
    [|split; by intros (? & ? & _)].
  split; intros (? & [= <-] & HP); eexists; (split; [done|]); congruence.
Qed.

(** ** Operations preserve the invariant *)

Lemma upsert_ok c o c' :
  collection_inv c → geo_regular (geo o) → upsert c o = (c', Ok tt) →
  collection_inv c' ∧ objects c' = <[id o := o]> (objects c).
Proof.
  intros (Hid & Hs & Hf & Hx) Hreg Hup. unfold upsert in Hup.
  pose proof (spatial_replace_ok _ _ (id o) o Hs Hreg) as Hs'.
  destruct (objects c !! id o) as [p|] eqn:Hp.
  - pose proof (Hid _ _ Hp) as Hpid.
    destruct (spatial_insert _ (id o) (geo o)) as [s' [[]|e]]; simplify_eq.
    split; [|done]. split_and!; cbn [objects spatial_index field_indexes expirations].
    + intros i o'. rewrite lookup_insert_Some. intros [[<- <-]|[_ ?]]; auto.
    + done.
    + rewrite <-(insert_delete_eq (objects c)). apply fields_insert_ok; [apply lookup_delete_eq|].
      rewrite <-Hpid in Hp |- *. by apply fields_remove_ok.
    + rewrite <-(insert_delete_eq (objects c)).
      apply expirations_insert_ok; [apply lookup_delete_eq|]. by apply expirations_delete_ok.
  - destruct (spatial_insert _ (id o) (geo o)) as [s' [[]|e]]; simplify_eq.
    split; [|done]. split_and!; cbn [objects spatial_index field_indexes expirations].
    + intros i o'. rewrite lookup_insert_Some. intros [[<- <-]|[_ ?]]; auto.
    + done.
    + by apply fields_insert_ok.
    + by apply expirations_insert_ok.
Qed.

(** [upsert] fails exactly when the new geometry has no envelope. *)
Lemma upsert_result c o :
  (upsert c o).2 = match geo_envelope (geo o) with
                   | Ok _ => Ok tt
                   | Err e => Err (CIndex (IGeo e))
                   end.
Proof.
  unfold upsert, spatial_insert.
  destruct (objects c !! id o); destruct (geo_envelope (geo o)) as [[b|]|e]; done.
Qed.

Lemma remove_ok c i :
  collection_inv c →
  collection_inv (remove c i).1 ∧ objects (remove c i).1 = delete i (objects c) ∧
  (remove c i).2 = objects c !! i ∧ name (remove c i).1 = name c.
Proof.
  intros (Hid & Hs & Hf & Hx). unfold remove.
  pose proof (spatial_remove_ok _ _ i Hs) as Hs'.
  destruct (objects c !! i) as [o|] eqn:Ho; simpl.
  - pose proof (Hid _ _ Ho) as <-. split; [|done].
    split_and!; cbn [objects spatial_index field_indexes expirations].
    + intros j o' [_ ?]%lookup_delete_Some. auto.
    + done.
    + by apply fields_remove_ok.
    + by apply expirations_delete_ok.
  - rewrite delete_id in Hs' |- * by done. split; [|done]. split_and!; done.
Qed.

Lemma set_expiry_ok c i d :
  collection_inv c →
  collection_inv (set_expiry c i d).1 ∧
  objects (set_expiry c i d).1 = alter (λ o, with_expiry o d) i (objects c) ∧
  (set_expiry c i d).2 = bool_decide (is_Some (objects c !! i)) ∧
  name (set_expiry c i d).1 = name c.
Proof.
  intros (Hid & Hs & Hf & Hx). unfold set_expiry. destruct (objects c !! i) as [o|] eqn:Ho; simpl.
  2: { rewrite alter_None by done. by split_and!. }
  assert (alter (λ o, with_expiry o d) i (objects c) = <[i := with_expiry o d]> (objects c)) as ->.
  { by rewrite (alter_Some _ _ _ o). }
  split; [|done]. split_and!; cbn [objects spatial_index field_indexes expirations].
  - intros j o' [[<- <-]|[_ ?]]%lookup_insert_Some; simpl; auto.
  - eapply spatial_ok_ext; [|exact Hs]. intros j. destruct (decide (i = j)) as [<-|].
    + by rewrite lookup_insert_eq, Ho.
    + by rewrite lookup_insert_ne.
  - eapply fields_ok_ext; [|exact Hf]. intros j. destruct (decide (i = j)) as [<-|].
    + by rewrite lookup_insert_eq, Ho.
    + by rewrite lookup_insert_ne.
  - rewrite <-(insert_delete_eq (objects c)).
    apply (expirations_insert_ok _ _ i (with_expiry o d)); [apply lookup_delete_eq|].
    by apply expirations_delete_ok.
Qed.

Lemma insert_fields_ok c i fs :
  collection_inv c →
  collection_inv (insert_fields c i fs).1 ∧
  objects (insert_fields c i fs).1 =
    alter (λ o, with_fields o (apply_field_updates (fields o) fs)) i (objects c) ∧
  (insert_fields c i fs).2 = bool_decide (is_Some (objects c !! i)) ∧
  name (insert_fields c i fs).1 = name c.
Proof.
  intros (Hid & Hs & Hf & Hx). unfold insert_fields.
  destruct (objects c !! i) as [o|] eqn:Ho; simpl.
  2: { rewrite alter_None by done. by split_and!. }
  set (o' := with_fields o _).
  assert (alter (λ o, with_fields o (apply_field_updates (fields o) fs)) i (objects c) =
          <[i := o']> (objects c)) as ->.
  { by rewrite (alter_Some _ _ _ o). }
  pose proof (Hid _ _ Ho) as Hoid.
  split; [|done]. split_and!; cbn [objects spatial_index field_indexes expirations].
  - intros j x [[<- <-]|[_ ?]]%lookup_insert_Some; simpl; auto.
  - eapply spatial_ok_ext; [|exact Hs]. intros j. destruct (decide (i = j)) as [<-|].
    + by rewrite lookup_insert_eq, Ho.
    + by rewrite lookup_insert_ne.
  - rewrite <-(insert_delete_eq (objects c)), <-Hoid. change (id o) with (id o').
    apply fields_insert_ok; [apply lookup_delete_eq|]. change (id o') with (id o).
    rewrite <-Hoid in Ho. by apply fields_remove_ok.
  - eapply expirations_ok_ext; [|exact Hx]. intros j. destruct (decide (i = j)) as [<-|].
    + by rewrite lookup_insert_eq, Ho.
    + by rewrite lookup_insert_ne.
Qed.

(** The in-place geometry edits: the objects and the index stay in step even
    when the new geometry cannot be indexed. *)
Lemma geo_edit_ok c i o g c' :
  collection_inv c → objects c !! i = Some o → geo_regular g →
  name c' = name c → objects c' = <[i := with_geo o g]> (objects c) →
  spatial_index c' = (spatial_insert (spatial_remove (spatial_index c) i).1 i g).1 →
  field_indexes c' = field_indexes c → expirations c' = expirations c →
  collection_inv c'.
Proof.
  intros (Hid & Hs & Hf & Hx) Ho Hreg _ Hobj Hsp Hfi Hex.
  split_and!; rewrite ?Hobj, ?Hsp, ?Hfi, ?Hex.
  - intros j x [[<- <-]|[_ ?]]%lookup_insert_Some; simpl; auto.
  - by apply (spatial_replace_ok _ _ i (with_geo o g)).
  - eapply fields_ok_ext; [|exact Hf]. intros j. destruct (decide (i = j)) as [<-|].
    + by rewrite lookup_insert_eq, Ho.
    + by rewrite lookup_insert_ne.
  - eapply expirations_ok_ext; [|exact Hx]. intros j. destruct (decide (i = j)) as [<-|].
    + by rewrite lookup_insert_eq, Ho.
    + by rewrite lookup_insert_ne.
Qed.

Lemma replace_geo_ok c i o g :
  collection_inv c → objects c !! i = Some o → geo_regular g →
  collection_inv (replace_geo c i g).1 ∧
  objects (replace_geo c i g).1 = <[i := with_geo o g]> (objects c).
Proof.
  intros Hc Ho Hreg. unfold replace_geo. rewrite Ho.
  destruct (spatial_insert _ i g) as [s' r] eqn:Hi. simpl. split; [|done].
  eapply (geo_edit_ok c i o g); try done. simpl. by rewrite Hi.
Qed.

(** Every change of a collection that the engine makes and that succeeds. *)
Inductive collection_step : Collection → Collection → Prop :=
  | step_upsert c o c' : geo_regular (geo o) → upsert c o = (c', Ok tt) → collection_step c c'
  | step_remove c i : collection_step c (remove c i).1
  | step_set_expiry c i d : collection_step c (set_expiry c i d).1
  | step_insert_fields c i fs : collection_step c (insert_fields c i fs).1
  | step_replace_geo c i g : geo_regular g → collection_step c (replace_geo c i g).1.

Lemma collection_step_inv c c' : collection_step c c' → collection_inv c → collection_inv c'.
Proof.
  destruct 1 as [c o c' Hreg Hup|c i|c i d|c i fs|c i g Hreg]; intros Hc.
  - by apply (upsert_ok c o).
  - by apply remove_ok.
  - by apply set_expiry_ok.
  - by apply insert_fields_ok.
  - destruct (objects c !! i) as [o|] eqn:Ho; [by apply (replace_geo_ok c i o)|].
    unfold replace_geo. by rewrite Ho.
Qed.

Lemma collection_reachable n c :
  rtc collection_step (collection_new n) c → collection_inv c.
Proof.
  intros Hr. remember (collection_new n) as c0 eqn:E.
  assert (collection_inv c0) as H0 by (subst; apply collection_new_inv). clear E.
  induction Hr; eauto using collection_step_inv.
Qed.

(** ** Expiry *)

#[export] Instance deadline_le_total : Total deadline_le.
Proof.
  intros [d1 s1] [d2 s2]. unfold deadline_le. simpl.
  destruct (Z.lt_trichotomy d1 d2) as [?|[->|?]]; [auto| |auto].
  destruct (total String.le s1 s2); auto.
Qed.
#[export] Instance deadline_le_trans : Transitive deadline_le.
Proof.
  intros [d1 s1] [d2 s2] [d3 s3]. unfold deadline_le. simpl.
  intros [?|[-> ?]] [?|[-> ?]]; try (left; lia). right. split; [done|]. by transitivity s2.
Qed.

Lemma take_while_sorted {A} (R : relation A) (p : A → bool) (l : list A) :
  (∀ x y, R x y → p y = true → p x = true) → StronglySorted R l →
  take_while p l = filter (λ x, p x = true) l.
Proof.
  intros Hp. induction 1 as [|x l Hs IH Hall]; [done|]. simpl.
  destruct (p x) eqn:Hx.
  - rewrite filter_cons_True by done. by rewrite IH.
  - rewrite filter_cons_False by congruence. symmetry. apply Forall_filter_nil.
    eapply Forall_impl; [exact Hall|]. intros y Hxy Hy. specialize (Hp x y Hxy Hy). congruence.
Qed.

Lemma expirations_iter_sorted c : StronglySorted deadline_le (expirations_iter c).
Proof. apply (StronglySorted_merge_sort _). Qed.

Lemma elem_of_expirations_iter c x : x ∈ expirations_iter c ↔ x ∈ expirations c.
Proof. unfold expirations_iter. by rewrite merge_sort_Permutation, elem_of_elements. Qed.

(** The due deadlines, in order. *)
Definition due_pairs (c : Collection) (now_ms : Z) : list (Z * string) :=
  filter (λ di, (di.1 <=? now_ms)%Z = true) (expirations_iter c).

Lemma due_expirations_pairs c now_ms max :
  due_expirations c now_ms max = (take max (due_pairs c now_ms)).*2.
Proof.
  unfold due_expirations, due_pairs. rewrite (take_while_sorted deadline_le); [done| |].
  - intros [d1 s1] [d2 s2] [?|[? _]]; simpl in *; rewrite !Z.leb_le; lia.
  - apply expirations_iter_sorted.
Qed.

Lemma elem_of_due_pairs c now_ms d i : collection_inv c →
  (d, i) ∈ due_pairs c now_ms ↔
  ∃ o, objects c !! i = Some o ∧ expires_at o = Some d ∧ is_expired now_ms o = true.
Proof.
  intros (_ & _ & _ & Hx). unfold due_pairs, is_expired.
  rewrite list_elem_of_filter, elem_of_expirations_iter, (Hx d i). simpl. split.
  - intros [Hd (o & Ho & Hd')]. exists o. by rewrite Hd'.
  - intros (o & Ho & Hd & He). rewrite Hd in He. eauto.
Qed.

(** ** Candidates from the field indexes *)

Section Candidates.
Context `{JT : JsonText} `{PT : Patterns}.

(** Objects on which the indexes see what the filters see: no GeoJSON
    geometry, numbers under numeric ranges, plain text under text filters;
    fields may be missing. *)
Definition plain_for (o : Object) (opts : SearchOptions) : Prop :=
  json_value (geo o) = None ∧
  (∀ f, f ∈ where_filters opts →
     match where_comparison f, fields o !! where_field f with
     | Range _ _, Some (FNumber _) | EqualsText _, Some (FText _)
     | Regex _, _ | _, None => True
     | _, _ => False
     end) ∧
  (∀ f, f ∈ where_in_filters opts →
     match fields o !! in_field f with Some (FText _) | None => True | _ => False end).

Lemma resolve_top_level o f :
  json_value (geo o) = None → is_top_level_field f = true →
  resolve_value o f =
  match fields o !! f with
  | Some (FNumber x) => RNumber x
  | Some (FText s) => RText s
  | Some (FJson raw) => match json_from_str raw with Some v => RJson v | None => RText raw end
  | None => RNumber fzero
  end.
Proof.
  unfold is_top_level_field, str_contains, resolve_value. intros Hj.
  rewrite andb_true_iff, !negb_true_iff. intros [Hz Hdot]. rewrite Hz.
  destruct (fields o !! f) as [[]|]; try done.
  unfold split_once. destruct (split_once_bytes _ _); [done|]. simpl. by rewrite Hj.
Qed.

Lemma fleb_total_le a b : SFleb a b = true → SFeqb b fzero = false → total_le a b = true.
Proof.
  unfold SFleb, SFeqb, total_le, total_cmp, fzero.
  destruct a as [[]|[]| |[] m1 e1], b as [[]|[]| |[] m2 e2]; simpl; try done;
    destruct (e1 ?= e2)%Z; simpl; try done; by destruct (Pos.compare_cont Eq m1 m2).
Qed.

Lemma fleb_total_le_l a b : SFleb a b = true → SFeqb a fzero = false → total_le a b = true.
Proof.
  unfold SFleb, SFeqb, total_le, total_cmp, fzero.
  destruct a as [[]|[]| |[] m1 e1], b as [[]|[]| |[] m2 e2]; simpl; try done;
    destruct (e1 ?= e2)%Z; simpl; try done; by destruct (Pos.compare_cont Eq m1 m2).
Qed.

Lemma feqb_zero_leb x : SFeqb x fzero = true → SFleb x fzero = true ∧ SFleb fzero x = true.
Proof. destruct x as [[]|[]| |[] m e]; done. Qed.

Lemma range_candidate c i o f min max x ids :
  collection_inv c → objects c !! i = Some o → fields o !! where_field f = Some (FNumber x) →
  where_comparison f = Range min max → SFleb min x = true → SFleb x max = true →
  ids_for_where_filter (field_indexes c) f = Some (Some ids) → i ∈ ids.
Proof.
  intros (_ & _ & [Hn _] & _) Ho Hfx Hcmp Hmin Hmax Hids. unfold ids_for_where_filter in Hids.
  destruct (negb (is_top_level_field (where_field f))); simpl in Hids; [done|].
  destruct (where_filter_matches_zero f) eqn:Hz; [done|].
  unfold where_filter_matches_zero in Hz. rewrite Hcmp in Hids, Hz.
  assert (SFeqb x fzero = false) as Hx.
  { apply not_true_is_false. intros Hx. apply feqb_zero_leb in Hx as [Hx1 Hx2].
    rewrite (fleb_trans min x fzero), (fleb_trans fzero x max) in Hz; done. }
  assert (i ∈ num_ids (field_indexes c) (where_field f) x) as Hin by (apply Hn; eauto).
  unfold num_ids, ids_at in Hin.
  destruct (numeric (field_indexes c) !! where_field f) as [vals|]; [|done].
  simpl in Hin. destruct (vals !! x) as [s|] eqn:Hv; [|done]. simpl in Hin.
  unfold btree_range in Hids. destruct (total_le min max); [|done]. simpl in Hids. simplify_eq.
  unfold ids_of_range. apply elem_of_union_list. exists s. split; [|done].
  apply (list_elem_of_fmap_2 snd _ (x, s)). apply list_elem_of_filter. split.
  - simpl. apply Is_true_true, andb_true_iff. split; [by apply fleb_total_le | by apply fleb_total_le_l].
  - rewrite merge_sort_Permutation. by apply elem_of_map_to_list.
Qed.

Lemma where_candidate c i o f opts ids :
  collection_inv c → objects c !! i = Some o → plain_for o opts → f ∈ where_filters opts →
  matches_where o f = Ok true →
  ids_for_where_filter (field_indexes c) f = Some (Some ids) → i ∈ ids.
Proof.
  intros Hc Ho (Hj & Hw & _) Hf Hm Hids. specialize (Hw f Hf). assert (Hids' := Hids).
  unfold ids_for_where_filter in Hids.
  destruct (is_top_level_field (where_field f)) eqn:Htop; simpl in Hids; [|done].
  destruct (where_filter_matches_zero f) eqn:Hz; [done|].
  unfold matches_where in Hm. rewrite (resolve_top_level o _ Hj Htop) in Hm.
  unfold where_filter_matches_zero in Hz.
  destruct (where_comparison f) as [min max|expected|pattern] eqn:Hcmp; [| |done].
  - destruct (fields o !! where_field f) as [[x|s|s]|] eqn:Hfx; try done.
    + simpl in Hm. apply (inj Ok), andb_true_iff in Hm as [Hmin Hmax].
      by eapply range_candidate.
    + simpl in Hm. apply (inj Ok) in Hm. congruence.
  - destruct (fields o !! where_field f) as [[x|s|s]|] eqn:Hfx; try done.
    + simpl in Hm. apply (inj Ok), String.eqb_eq in Hm. subst s. simplify_eq.
      destruct Hc as (_ & _ & [_ Ht] & _).
      apply (Ht (where_field f) expected i). exists o. by rewrite Hfx.
    + cbn [string_value] in Hm. apply (inj Ok), String.eqb_eq in Hm. subst expected.
      vm_compute in Hz. done.
Qed.

Lemma where_in_candidate c i o f opts ids :
  collection_inv c → objects c !! i = Some o → plain_for o opts → f ∈ where_in_filters opts →
  matches_where_in o f = true →
  ids_for_where_in_filter (field_indexes c) f = Some ids → i ∈ ids.
Proof.
  intros Hc Ho (Hj & _ & Hw) Hf Hm Hids. specialize (Hw f Hf). unfold ids_for_where_in_filter in Hids.
  destruct (is_top_level_field (in_field f)) eqn:Htop; simpl in Hids; [|done].
  destruct (existsb parses_to_zero (values f)) eqn:Hz; [done|]. simplify_eq.
  unfold matches_where_in in Hm. rewrite (resolve_top_level o _ Hj Htop) in Hm.
  apply existsb_exists in Hm as (v & Hv & Hveq). apply String.eqb_eq in Hveq.
  destruct (fields o !! in_field f) as [[x|s|s]|] eqn:Hfx; try done.
  - simpl in Hveq. subst v. apply elem_of_union. left. apply elem_of_union_list.
    exists (text_ids (field_indexes c) (in_field f) s). split.
    + apply list_elem_of_fmap. exists s. split; [done|]. by apply list_elem_of_In.
    + destruct Hc as (_ & _ & [_ Ht] & _). apply Ht. exists o. by rewrite Hfx.
  - simpl in Hveq. exfalso. apply not_true_iff_false in Hz. apply Hz, existsb_exists.
    exists v. split; [done|]. subst v. vm_compute. reflexivity.
Qed.

Lemma all_match_Forall {A} (m : A → result bool IndexError) l :
  all_match m l = Ok true → Forall (λ x, m x = Ok true) l.
Proof.
  induction l as [|x l IH]; simpl; [constructor|]. intros Hm.
  apply rbind_Ok_inv in Hm as ([] & Hx & Hm); [|done]. constructor; auto.
Qed.

Lemma matches_candidate_inv o opts : matches_candidate o opts = Ok true →
  Forall (λ f, matches_where o f = Ok true) (where_filters opts) ∧
  Forall (λ f, matches_where_in o f = true) (where_in_filters opts).
Proof.
  unfold matches_candidate. destruct (from_option _ _ (match_pattern opts)); [done|].
  intros Hm. apply rbind_Ok_inv in Hm as (b1 & H1 & Hm). destruct b1; simpl in Hm; [|done].
  apply rbind_Ok_inv in Hm as (b2 & H2 & Hm). destruct b2; simpl in Hm; [|done].
  split; [by apply all_match_Forall|].
  apply all_match_Forall in H2. eapply Forall_impl; [exact H2|]. simpl. by intros f [= ->].
Qed.

Definition selected_has (i : string) (selected : option (gset string)) : Prop :=
  match selected with Some ids => i ∈ ids | None => True end.

Lemma intersect_has i selected ids :
  selected_has i selected → i ∈ ids → selected_has i (intersect_selected selected ids).
Proof. destruct selected; simpl; intros; [by apply elem_of_intersection | done]. Qed.

Lemma select_where_has c i o opts fs : ∀ selected out,
  collection_inv c → objects c !! i = Some o → plain_for o opts →
  Forall (λ f, f ∈ where_filters opts) fs → Forall (λ f, matches_where o f = Ok true) fs →
  selected_has i selected → select_where (field_indexes c) selected fs = Some out →
  selected_has i out.
Proof.
  induction fs as [|f fs IH]; intros selected out Hc Ho Hp Hin Hm Hs Hsel; simpl in Hsel;
    [by simplify_eq|].
  apply Forall_cons in Hin as [Hf Hin]. apply Forall_cons in Hm as [Hmf Hm].
  destruct (ids_for_where_filter (field_indexes c) f) as [[ids|]|] eqn:Hids; simpl in Hsel; [|eauto|done].
  eapply (IH _ _ Hc Ho Hp Hin Hm); [|exact Hsel]. apply intersect_has; [done|].
  by eapply where_candidate.
Qed.

Lemma select_where_in_has c i o opts fs : ∀ selected,
  collection_inv c → objects c !! i = Some o → plain_for o opts →
  Forall (λ f, f ∈ where_in_filters opts) fs → Forall (λ f, matches_where_in o f = true) fs →
  selected_has i selected → selected_has i (select_where_in (field_indexes c) selected fs).
Proof.
  unfold select_where_in.
  induction fs as [|f fs IH]; intros selected Hc Ho Hp Hin Hm Hs; simpl; [done|].
  apply Forall_cons in Hin as [Hf Hin]. apply Forall_cons in Hm as [Hmf Hm].
  apply (IH _ Hc Ho Hp Hin Hm).
  destruct (ids_for_where_in_filter (field_indexes c) f) as [ids|] eqn:Hids; [|done].
  apply intersect_has; [done|]. by eapply where_in_candidate.
Qed.

Lemma selected_candidate c i o opts ids :
  collection_inv c → objects c !! i = Some o → plain_for o opts →
  matches_candidate o opts = Ok true →
  candidate_ids (field_indexes c) opts = Some (Some ids) → i ∈ ids.
Proof.
  intros Hinv Ho Hplain Hmatch Hids.
  apply matches_candidate_inv in Hmatch as [Hw Hwi]. unfold candidate_ids in Hids.
  destruct (select_where _ None (where_filters opts)) as [sel|] eqn:Hsel; [|done].
  simpl in Hids. apply (inj Some) in Hids.
  assert (selected_has i sel) as H1.
  { eapply (select_where_has c i o opts (where_filters opts) None); try done.
    by apply Forall_forall. }
  pose proof (select_where_in_has c i o opts (where_in_filters opts) sel Hinv Ho Hplain
                ltac:(by apply Forall_forall) Hwi H1) as H2.
  rewrite Hids in H2. done.
Qed.

End Candidates.

(** ** Properties *)

(** C33: in every collection reached from an empty one by successful operations
    (upserts, removals, expiry changes, field updates, geometry edits), the
    spatial index, the field indexes and the deadlines are exactly those of
    the stored objects. *)
Theorem collection_indexes_agree (n : string) (c : Collection)
    (Hreach : rtc collection_step (collection_new n) c) :
  spatial_inv (spatial_index c) ∧
  (∀ i, entries_by_id (spatial_index c) !! i = objects c !! i ≫= entry_of i) ∧
  (∀ f x i, i ∈ num_ids (field_indexes c) f x ↔
     ∃ o, objects c !! i = Some o ∧ fields o !! f = Some (FNumber x)) ∧
  (∀ f s i, i ∈ text_ids (field_indexes c) f s ↔
     ∃ o, objects c !! i = Some o ∧ fields o !! f ≫= text_of = Some s) ∧
  (∀ d i, (d, i) ∈ expirations c ↔ ∃ o, objects c !! i = Some o ∧ expires_at o = Some d).
Proof.
  destruct (collection_reachable n c Hreach) as (_ & [Hs He] & [Hn Ht] & Hx).
  by split_and!.
Qed.

(** [due_expirations] returns ids of expired objects only, all of them when
    [max] allows, and otherwise the ones with the earliest deadlines. *)
Theorem due_expirations_exact (c : Collection) (now_ms : Z) (max : nat)
    (Hinv : collection_inv c) :
  (∀ i, i ∈ due_expirations c now_ms max →
     ∃ o, objects c !! i = Some o ∧ is_expired now_ms o = true) ∧
  (∀ i o d, objects c !! i = Some o → expires_at o = Some d → is_expired now_ms o = true →
     i ∈ due_expirations c now_ms max ∨
     (length (due_expirations c now_ms max) = max ∧
      ∀ j o' d', j ∈ due_expirations c now_ms max → objects c !! j = Some o' →
        expires_at o' = Some d' → (d' ≤ d)%Z)).
Proof.
  rewrite due_expirations_pairs. split.
  - intros i ([d j] & -> & Hin)%list_elem_of_fmap. simpl.
    assert ((d, j) ∈ due_pairs c now_ms) as Hin'.
    { rewrite <-(take_drop max (due_pairs c now_ms)). apply elem_of_app. by left. }
    apply elem_of_due_pairs in Hin' as (o & Ho & _ & He); eauto.
  - intros i o d Ho Hd He.
    assert ((d, i) ∈ due_pairs c now_ms) as Hin by (apply elem_of_due_pairs; eauto).
    rewrite <-(take_drop max (due_pairs c now_ms)) in Hin.
    apply elem_of_app in Hin as [Hin|Hin].
    { left. by apply (list_elem_of_fmap_2 snd _ (d, i)). }
    right. rewrite length_fmap, length_take. split.
    + destruct (Nat.le_gt_cases (length (due_pairs c now_ms)) max); [|lia].
      rewrite drop_ge in Hin by done. by apply elem_of_nil in Hin.
    + intros j o' d' ([d1 j1] & -> & Hj)%list_elem_of_fmap Ho' Hd'. simpl in *.
      assert (StronglySorted deadline_le (due_pairs c now_ms)) as Hsrt.
      { unfold due_pairs. apply StronglySorted_filter. apply expirations_iter_sorted. }
      assert ((d1, j1) ∈ due_pairs c now_ms) as Hj'.
      { rewrite <-(take_drop max (due_pairs c now_ms)). apply elem_of_app. by left. }
      apply elem_of_due_pairs in Hj' as (o1 & Ho1 & Hd1 & _); [|done].
      rewrite <-(take_drop max (due_pairs c now_ms)) in Hsrt.
      apply StronglySorted_app in Hsrt as [Hsrt _]. specialize (Hsrt _ _ Hj Hin).
      unfold deadline_le in Hsrt. simpl in Hsrt. simplify_eq. lia.
Qed.

(** An object that matches a search is among the candidates the field
    indexes give, when its geometry is not GeoJSON and its filtered fields
    have the type the filter compares (or are missing): narrowing a search
    with the indexes then loses nothing. *)
Theorem field_index_complete `{JT : JsonText} `{PT : Patterns} (c : Collection) (i : string)
    (o : Object) (opts : SearchOptions) (ids : gset string)
    (Hinv : collection_inv c) (Ho : objects c !! i = Some o) (Hplain : plain_for o opts)
    (Hmatch : matches_candidate o opts = Ok true)
    (Hids : candidate_ids (field_indexes c) opts = Some (Some ids)) :
  i ∈ ids.
Proof. by eapply selected_candidate. Qed.

End CollectionSpec.

(** ** Concrete collections *)
Module CollectionWitness.
Import ListTree NoGeoJson PlainText.

Definition here : GeoType := GtPoint (f64_of_Z 1) (f64_of_Z 2) None.
Definition truck : Object :=
  mkObject "truck" here {[ "speed" := FNumber (f64_of_Z 5) ]} (Some 1000%Z).
Definition col0 : Collection := collection_new "fleet".
Definition col1 : Collection := (upsert col0 truck).1.

Lemma here_regular : geo_regular here.
Proof. intros b [= <-]. split_and!; reflexivity. Qed.

Lemma col1_reachable : rtc collection_step (collection_new "fleet") col1.
Proof.
  apply rtc_once. apply (step_upsert _ truck); [apply here_regular|].
  apply pair_with_snd. vm_compute. reflexivity.
Qed.

Lemma collection_indexes_agree_witness : (1000%Z, "truck") ∈ expirations col1.
Proof.
  apply (collection_indexes_agree "fleet" col1 col1_reachable). exists truck.
  split; vm_compute; reflexivity.
Defined.

Lemma due_expirations_exact_witness :
  ∃ o, objects col1 !! "truck" = Some o ∧ is_expired 2000 o = true.
Proof.
  apply (due_expirations_exact col1 2000 5); [apply (collection_reachable "fleet"), col1_reachable|].
  vm_compute. left.
Defined.

Definition fast_trucks : SearchOptions :=
  mkOptions 0 10 false true None Asc
    [mkWhere "speed" (Range (f64_of_Z 4) (f64_of_Z 6))] [] [] false Objects.

Lemma field_index_complete_witness : ∃ ids, "truck" ∈ (ids : gset string) ∧
  candidate_ids (field_indexes col1) fast_trucks = Some (Some ids).
Proof.
  eexists. split; [|vm_compute; reflexivity].
  apply (field_index_complete col1 "truck" truck fast_trucks);
    [apply (collection_reachable "fleet"), col1_reachable | vm_compute; reflexivity |
     | vm_compute; reflexivity | vm_compute; reflexivity].
  split_and!; [reflexivity | |].
  - intros f ->%list_elem_of_singleton. exact I.
  - intros f Hf. by apply elem_of_nil in Hf.
Defined.

(** An upsert that fails on the new geometry has already dropped the old
    object's entries from the field indexes, the deadlines and the spatial
    index, while the old object stays stored: searches by field no longer find
    it and it never expires. *)
Theorem failed_upsert_desynchronises :
  let c' := (upsert col1 (mkObject "truck" (GtHash "!") ∅ None)).1 in
  (upsert col1 (mkObject "truck" (GtHash "!") ∅ None)).2 = Err (CIndex (IGeo InvalidGeohash)) ∧
  objects c' !! "truck" = Some truck ∧
  num_ids (field_indexes c') "speed" (f64_of_Z 5) = ∅ ∧
  expirations c' = ∅ ∧ entries_by_id (spatial_index c') = ∅ ∧
  due_expirations c' 2000 5 = [].
Proof. split_and!; vm_compute; reflexivity. Qed.

Definition equals_five : SearchOptions :=
  mkOptions 0 10 false true None Asc [mkWhere "speed" (EqualsText "5")] [] [] false Objects.
Definition reversed_range : SearchOptions :=
  mkOptions 0 10 false true None Asc
    [mkWhere "speed" (Range (f64_of_Z 6) (f64_of_Z 4))] [] [] false Objects.

(** A text filter on a numeric field: evaluating the filter on the object
    says it matches, the text index that is used instead knows no candidate,
    so the search misses the object. *)
Theorem text_filter_misses_numbers :
  matches_candidate truck equals_five = Ok true ∧
  candidate_ids (field_indexes col1) equals_five = Some (Some ∅).
Proof. split; vm_compute; reflexivity. Qed.

(** A numeric range whose bounds are reversed passes validation and, as a
    filter, simply matches nothing, but looking it up in the field index
    panics. *)
Theorem reversed_range_panics :
  validate_options reversed_range = Ok tt ∧
  matches_candidate truck reversed_range = Ok false ∧
  candidate_ids (field_indexes col1) reversed_range = None.
Proof. split_and!; vm_compute; reflexivity. Qed.

End CollectionWitness.
