(* ===== verification/Engine.v ===== *)
(** * The engine ([crates/latlng-core/src]): state, log and commands

    The database is its named collections, the geofence registry, the storage
    backend, the configuration and the sequence counter.  An operation runs
    in a state-and-error monad: an error returns early and keeps the changes
    made before it, as the source does.

    One operation reads the clock once.  Operations run one at a time, so the
    version a write compares is the one it read and its retry loop runs once.
    Collections are named cells: no handle outlives the operation that looked
    it up.

    [serde_json] and [bincode] decoding of log records is the interface
    [LogCodec], the [base64] crate is [Base64]. *)

From Stdlib Require Import ZArith Lia SpecFloat.
From stdpp Require Import base gmap strings list sorting pretty.
From S2P Require Import Prelude Storage F64 Json Platform Geo Strings Index Geofence Collection.

(** ** Data *)

Record Config := mkConfig {
  read_only : bool;
  command_timeouts : gmap string f64;
  config_queue_capacity : nat;
  webhook_retry_count : Z
}.

Definition default_config : Config :=
  mkConfig false ∅ DEFAULT_SUBSCRIBER_QUEUE_CAPACITY 8.

Definition normalize_command_key (command : string) : string := to_ascii_lowercase (trim command).

Definition timeout_for (c : Config) (command : string) : option f64 :=
  command_timeouts c !! normalize_command_key command.
Definition config_set_timeout (c : Config) (command : string) (seconds : f64) : Config :=
  mkConfig (read_only c)
    (<[normalize_command_key command := fmax seconds fzero]> (command_timeouts c))
    (config_queue_capacity c) (webhook_retry_count c).
Definition config_clear_timeout (c : Config) (command : string) : Config :=
  mkConfig (read_only c) (delete (normalize_command_key command) (command_timeouts c))
    (config_queue_capacity c) (webhook_retry_count c).

Inductive SetCondition : Type := Always | Nx | Xx.

Record SetRequest := mkSetRequest {
  sr_collection : string;
  sr_id : string;
  sr_object : GeoType;
  sr_fields : list FieldEntry;
  sr_expire_seconds : option Z;
  sr_condition : SetCondition
}.

Record PersistedSetRecord := mkPersistedSet {
  ps_collection : string;
  ps_id : string;
  ps_object : GeoType;
  ps_fields : list FieldEntry;
  ps_expires_at_ms : option Z
}.

Inductive Command : Type :=
  | CmdSet (r : SetRequest)
  | CmdDel (collection i : string)
  | CmdDropCollection (collection : string)
  | CmdRename (collection new_name : string)
  | CmdFset (collection i : string) (fields : list FieldEntry) (xx : bool)
  | CmdExpire (collection i : string) (seconds : Z)
  | CmdPersist (collection i : string)
  | CmdJset (collection i path value : string) (raw : bool)
  | CmdJdel (collection i path : string)
  | CmdSetHook (name url : string) (def : GeofenceDef)
  | CmdDelHook (name : string)
  | CmdPDelHook (pattern : string)
  | CmdSetChannel (name : string) (def : GeofenceDef)
  | CmdDelChannel (name : string)
  | CmdPDelChannel (pattern : string)
  | CmdFlushDb
  | CmdSetPersisted (r : PersistedSetRecord)
  | CmdExpireAt (collection i : string) (expires_at_ms : Z)
  | CmdCreateCollection (collection : string).

Record WebhookEnqueueRecord := mkEnqueue {
  we_job_id : string;
  we_event : GeofenceEvent;
  we_endpoint : string;
  we_attempts_used : Z;
  we_max_attempts : Z;
  we_next_attempt_at_ms : Z
}.

Inductive LogRecord : Type :=
  | LCommand (c : Command)
  | LWebhookEnqueue (r : WebhookEnqueueRecord)
  | LWebhookAck (job_id : string)
  | LWebhookRetryScheduled (job_id : string) (attempts_used next_attempt_at_ms : Z)
      (last_error : string)
  | LWebhookDeadLetter (job_id : string) (attempts_used : Z) (last_error : string).

(** ** The log codec *)

Class LogCodec := {
  json_to_vec : LogRecord → result (list byte) string;
  json_record : list byte → option LogRecord;
  bincode_record : list byte → option LogRecord;
  json_command : list byte → option Command;
  bincode_command : list byte → result Command string
}.

Definition encode_log_record `{LogCodec} (r : LogRecord) : result (list byte) CoreError :=
  map_err CCodec (json_to_vec r).

Definition decode_log_record `{LogCodec} (payload : list byte) : result LogRecord CoreError :=
  match json_record payload with
  | Some r => Ok r
  | None =>
      match bincode_record payload with
      | Some r => Ok r
      | None =>
          match json_command payload with
          | Some c => Ok (LCommand c)
          | None => rmap LCommand (map_err CCodec (bincode_command payload))
          end
      end
  end.

(** ** Webhook identifiers *)

Class Base64 := base64_url : list byte → string.

Definition str_bytes (s : string) : list byte := String.list_byte_of_string s.

Definition opaque_webhook_id `{Md5} `{Base64} (prefix seed : string) : string :=
  prefix +:+ "_" +:+
  base64_url (md5_digest (str_bytes "latlng-webhook-id-v1" ++ [Byte.x00] ++ str_bytes prefix ++
                          [Byte.x00] ++ str_bytes seed)).

Definition opaque_webhook_job_id `{Md5} `{Base64} (sequence : Z) : string :=
  opaque_webhook_id "job" ("job:" +:+ pretty sequence).

(** [{:?}] of the two enums. *)
Definition debug_command (c : MutationCommand) : string :=
  match c with MSet => "Set" | MDel => "Del" | MDrop => "Drop" | MFset => "Fset" end.
Definition debug_detect (d : DetectType) : string :=
  match d with
  | DInside => "Inside" | DOutside => "Outside" | DEnter => "Enter" | DExit => "Exit"
  | DCross => "Cross" | DRoam => "Roam"
  end.

Definition opaque_webhook_event_id `{Md5} `{Base64} (command_sequence : Z) (event_index : nat)
    (e : GeofenceEvent) : string :=
  opaque_webhook_id "evt"
    ("event:" +:+ pretty command_sequence +:+ ":" +:+ pretty event_index +:+ ":" +:+
     ev_collection e +:+ ":" +:+ ev_id e +:+ ":" +:+ default "" (ev_hook e) +:+ ":" +:+
     debug_command (ev_command e) +:+ ":" +:+ debug_detect (ev_detect e)).

(** ** Validation of geofence definitions *)

Section Validation.
Context `{JT : JsonText} `{PT : Patterns}.

Definition ensure_geofence_evaluable (d : GeofenceDef) : result unit CoreError :=
  match def_query d with
  | QWithin (AReference _ _) _ | QIntersects (AReference _ _) _ =>
      Err (Invalid "reference areas are not supported in hooks or channels")
  | _ => Ok tt
  end.

Definition validate_geofence_def (d : GeofenceDef) : result unit CoreError :=
  let? _ := ensure_geofence_evaluable d in
  match def_query d with
  | QNearby lat lon meters options =>
      let? _ := map_err CGeo (validate_lat_lon lat lon) in
      let? _ := map_err CGeo (validate_meters meters) in
      map_err CIndex (validate_options options)
  | QWithin area options | QIntersects area options =>
      let? _ := map_err CGeo (validate_area area) in
      map_err CIndex (validate_options options)
  | QRoam _ _ meters options _ =>
      let? _ := map_err CGeo (validate_meters meters) in
      map_err CIndex (validate_options options)
  end.

(** [jset_payload]. *)
Definition jset_payload (value : string) (raw : bool) : Value :=
  if raw then default (VString value) (json_from_str value) else VString value.

End Validation.

(** ** The database *)

Record Clock := mkClock { now_millis : Z; now_nanos : Z }.

(** The catalogue: collections by name. *)
Notation Collections := (gmap string VersionedCollection).

Section Engine.
Context `{LM : Libm} `{GC : GeoCrate} `{RC : RTreeCrate} `{JT : JsonText} `{PT : Patterns}
  `{HO : HashOrder} `{LC : LogCodec} `{MD : Md5} `{B64 : Base64}.

Record LatLng (S : Type) := mkDb {
  db_collections : Collections;
  db_geofences : GeofenceRegistry;
  db_storage : S;
  db_config : Config;
  db_next_sequence : Z;
  db_expired_objects_total : Z
}.
Arguments mkDb {S}.
Arguments db_collections {S}.
Arguments db_geofences {S}.
Arguments db_storage {S}.
Arguments db_config {S}.
Arguments db_next_sequence {S}.
Arguments db_expired_objects_total {S}.

Definition bump (v : VersionedCollection) (c : Collection) : VersionedCollection :=
  mkVersioned (saturating_add (version v) 1) c.

(** ** Replaying a command ([restore.rs]) *)

(** [ensure_collection_cell_in_catalog]. *)
Definition ensure_cell (cs : Collections) (n : string) : VersionedCollection :=
  default (versioned_new n) (cs !! n).

Definition upsert_in (cs : Collections) (n : string) (o : Object)
    : Collections * result unit CoreError :=
  let v := ensure_cell cs n in
  match upsert (collection v) o with
  | (c', Ok _) => (<[n := bump v c']> cs, Ok tt)
  | (c', Err e) => (<[n := mkVersioned (version v) c']> cs, Err e)
  end.

(** An in-place edit of a stored GeoJSON value: the outcome of the edit is
    ignored and the spatial entry is refreshed. *)
Definition edit_json_in (cs : Collections) (n i : string) (edit : Value → Value) : Collections :=
  match cs !! n with
  | None => cs
  | Some v =>
      let c := collection v in
      match objects c !! i with
      | Some o =>
          match geo o with
          | GtGeoJson json =>
              let c1 := mkCollection (name c) (<[i := with_geo o (GtGeoJson (edit json))]> (objects c))
                          (spatial_index c) (field_indexes c) (expirations c) in
              <[n := bump v (reindex_spatial c1 i)]> cs
          | _ => cs
          end
      | None => cs
      end
  end.

Definition set_expiry_in (cs : Collections) (n i : string) (deadline : option Z) : Collections :=
  match cs !! n with
  | None => cs
  | Some v =>
      match set_expiry (collection v) i deadline with
      | (c', true) => <[n := bump v c']> cs
      | (c', false) => <[n := mkVersioned (version v) c']> cs
      end
  end.

Definition rename_collection (c : Collection) (n : string) : Collection :=
  mkCollection n (objects c) (spatial_index c) (field_indexes c) (expirations c).

Definition apply_persisted_command (clock : Clock) (cs : Collections) (r : GeofenceRegistry)
    (cmd : Command) : Collections * GeofenceRegistry * result unit CoreError :=
  match cmd with
  | CmdSet q =>
      let expires :=
        (λ s, saturating_add (now_millis clock) (s * 1000)) <$> sr_expire_seconds q in
      let '(cs', res) :=
        upsert_in cs (sr_collection q)
          (mkObject (sr_id q) (sr_object q) (field_entries_to_map (sr_fields q)) expires) in
      (cs', r, res)
  | CmdDel n i =>
      match cs !! n with
      | Some v => (<[n := bump v (remove (collection v) i).1]> cs, r, Ok tt)
      | None => (cs, r, Ok tt)
      end
  | CmdDropCollection n => (delete n cs, r, Ok tt)
  | CmdRename n n' =>
      match cs !! n with
      | Some v =>
          (<[n' := bump v (rename_collection (collection v) n')]> (delete n cs), r, Ok tt)
      | None => (cs, r, Ok tt)
      end
  | CmdFset n i fs _ =>
      match cs !! n with
      | Some v =>
          match insert_fields (collection v) i fs with
          | (c', true) => (<[n := bump v c']> cs, r, Ok tt)
          | (c', false) => (<[n := mkVersioned (version v) c']> cs, r, Ok tt)
          end
      | None => (cs, r, Ok tt)
      end
  | CmdExpire n i seconds =>
      (set_expiry_in cs n i (Some (saturating_add (now_millis clock) (seconds * 1000))), r, Ok tt)
  | CmdSetPersisted q =>
      let '(cs', res) :=
        upsert_in cs (ps_collection q)
          (mkObject (ps_id q) (ps_object q) (field_entries_to_map (ps_fields q))
             (ps_expires_at_ms q)) in
      (cs', r, res)
  | CmdExpireAt n i expires_at_ms => (set_expiry_in cs n i (Some expires_at_ms), r, Ok tt)
  | CmdCreateCollection n => (<[n := ensure_cell cs n]> cs, r, Ok tt)
  | CmdPersist n i => (set_expiry_in cs n i None, r, Ok tt)
  | CmdJset n i path value raw =>
      (edit_json_in cs n i (λ json, (set_json_path json path (jset_payload value raw)).1), r, Ok tt)
  | CmdJdel n i path =>
      (edit_json_in cs n i (λ json, (delete_json_path json path).1), r, Ok tt)
  | CmdSetHook n url d =>
      (cs, if is_ok (ensure_geofence_evaluable d) then set_hook r n url d else r, Ok tt)
  | CmdDelHook n => (cs, (del_hook r n).1, Ok tt)
  | CmdPDelHook pattern => (cs, (pdel_hook r pattern).1, Ok tt)
  | CmdSetChannel n d =>
      (cs, if is_ok (ensure_geofence_evaluable d) then set_channel r n d else r, Ok tt)
  | CmdDelChannel n => (cs, (del_channel r n).1, Ok tt)
  | CmdPDelChannel pattern => (cs, (pdel_channel r pattern).1, Ok tt)
  | CmdFlushDb => (∅, clear_all r, Ok tt)
  end.

Definition apply_persisted_entry (clock : Clock) (cs : Collections) (r : GeofenceRegistry)
    (e : StorageEntry) : Collections * GeofenceRegistry * result unit CoreError :=
  match decode_log_record (command e) with
  | Err err => (cs, r, Err err)
  | Ok (LCommand cmd) => apply_persisted_command clock cs r cmd
  | Ok _ => (cs, r, Ok tt)
  end.

(** [gc_collections_locked]. *)
Definition gc_collection (now_ms : Z) (v : VersionedCollection) : VersionedCollection :=
  match due_expirations (collection v) now_ms (size (expirations (collection v))) with
  | [] => v
  | expired => bump v (foldl (λ c i, (remove c i).1) (collection v) expired)
  end.

Definition gc_collections (now_ms : Z) (cs : Collections) : Collections :=
  gc_collection now_ms <$> cs.

(** ** The engine monad *)

Section Operations.
Context {S : Type} `{SB : StorageBackend S}.

Definition M (A : Type) : Type := LatLng S → LatLng S * result A CoreError.

Definition mret {A} (a : A) : M A := λ db, (db, Ok a).
Definition mfail {A} (e : CoreError) : M A := λ db, (db, Err e).
Definition mbind {A B} (m : M A) (k : A → M B) : M B := λ db,
  match m db with
  | (db', Ok a) => k a db'
  | (db', Err e) => (db', Err e)
  end.
Definition mget : M (LatLng S) := λ db, (db, Ok db).
Definition mlift {A} (r : result A CoreError) : M A := λ db, (db, r).

Notation "x <- m ;; k" := (mbind m (λ x, k)) (at level 100, m at next level, right associativity).
Notation "m ;;; k" := (mbind m (λ _, k)) (at level 100, right associativity).

Definition put_collections (cs : Collections) : M unit := λ db,
  (mkDb cs (db_geofences db) (db_storage db) (db_config db) (db_next_sequence db)
     (db_expired_objects_total db), Ok tt).
Definition put_collection (n : string) (v : VersionedCollection) : M unit := λ db,
  put_collections (<[n := v]> (db_collections db)) db.
Definition put_geofences (r : GeofenceRegistry) : M unit := λ db,
  (mkDb (db_collections db) r (db_storage db) (db_config db) (db_next_sequence db)
     (db_expired_objects_total db), Ok tt).
Definition put_storage (s : S) : M unit := λ db,
  (mkDb (db_collections db) (db_geofences db) s (db_config db) (db_next_sequence db)
     (db_expired_objects_total db), Ok tt).
Definition put_config (c : Config) : M unit := λ db,
  (mkDb (db_collections db) (db_geofences db) (db_storage db) c (db_next_sequence db)
     (db_expired_objects_total db), Ok tt).
Definition put_next_sequence (n : Z) : M unit := λ db,
  (mkDb (db_collections db) (db_geofences db) (db_storage db) (db_config db) n
     (db_expired_objects_total db), Ok tt).
Definition add_expired_total (n : Z) : M unit := λ db,
  (mkDb (db_collections db) (db_geofences db) (db_storage db) (db_config db) (db_next_sequence db)
     (wrapping_add (db_expired_objects_total db) n), Ok tt).

(** ** Sequences and the log ([internals.rs], [persistence.rs]) *)

Definition ensure_writable : M unit := λ db,
  (db, if read_only (db_config db) then Err ReadOnly else Ok tt).

(** The sequences handed out: [next + 1 .. next + count]. *)
Definition reserved (next : Z) (count : nat) : list Z :=
  (λ k, wrapping_add next (Z.of_nat k)) <$> seq 1 count.

Definition reserve_sequences (count : nat) : M (list Z) := λ db,
  (mkDb (db_collections db) (db_geofences db) (db_storage db) (db_config db)
     (wrapping_add (db_next_sequence db) (Z.of_nat count)) (db_expired_objects_total db),
   Ok (reserved (db_next_sequence db) count)).

Fixpoint encode_entries_for_sequences (clock : Clock) (records : list LogRecord)
    (sequences : list Z) : result (list StorageEntry) CoreError :=
  match records, sequences with
  | r :: records', s :: sequences' =>
      let? bytes := encode_log_record r in
      let? rest := encode_entries_for_sequences clock records' sequences' in
      Ok (mkEntry s (now_nanos clock) bytes :: rest)
  | _, _ => Ok []
  end.

Definition append_entries (entries : list StorageEntry) : M unit := λ db,
  let '(s', r) := append_batch (db_storage db) entries in
  (mkDb (db_collections db) (db_geofences db) s' (db_config db) (db_next_sequence db)
     (db_expired_objects_total db), map_err CStorage r).

(** Fills in the identifiers of the webhook jobs of a batch. *)
Fixpoint number_webhooks (command_sequence : Z) (index : nat) (sequences : list Z)
    (webhooks : list WebhookEnqueueRecord) : list LogRecord :=
  match sequences, webhooks with
  | s :: sequences', w :: webhooks' =>
      let e := we_event w in
      let job := opaque_webhook_job_id s in
      let e' := mkEvent (ev_command e) (ev_detect e) (ev_collection e) (ev_id e) (ev_object e)
        (ev_fields e) (ev_timestamp_ns e)
        (Some (opaque_webhook_event_id command_sequence index
           (mkEvent (ev_command e) (ev_detect e) (ev_collection e) (ev_id e) (ev_object e)
              (ev_fields e) (ev_timestamp_ns e) (ev_event_id e) (Some job) (ev_hook e)
              (ev_group e) (ev_nearby e) (ev_generation e))))
        (Some job) (ev_hook e) (ev_group e) (ev_nearby e) (ev_generation e) in
      LWebhookEnqueue (mkEnqueue job e' (we_endpoint w) (we_attempts_used w) (we_max_attempts w)
                         (we_next_attempt_at_ms w))
      :: number_webhooks command_sequence (Datatypes.S index) sequences' webhooks'
  | _, _ => []
  end.

Definition build_command_batch_records (cmd : Command) (sequences : list Z)
    (webhooks : list WebhookEnqueueRecord) : list LogRecord :=
  LCommand cmd ::
  number_webhooks (default 0%Z (head sequences)) 0 (tail sequences) webhooks.

Definition persist_command_batch (clock : Clock) (cmd : Command)
    (webhooks : list WebhookEnqueueRecord) : M (list Z) :=
  sequences <- reserve_sequences (1 + length webhooks) ;;
  db <- mget ;;
  if negb (stores_command_log (db_storage db)) then mret sequences
  else
    entries <- mlift (encode_entries_for_sequences clock
                        (build_command_batch_records cmd sequences webhooks) sequences) ;;
    append_entries entries ;;;
    mret sequences.

Definition append_log_records (clock : Clock) (records : list LogRecord) : M (list Z) :=
  match records with
  | [] => mret []
  | _ =>
      db <- mget ;;
      if negb (stores_command_log (db_storage db)) then reserve_sequences (length records)
      else
        sequences <- reserve_sequences (length records) ;;
        entries <- mlift (encode_entries_for_sequences clock records sequences) ;;
        append_entries entries ;;;
        mret sequences
  end.

Definition append_log_record (clock : Clock) (r : LogRecord) : M Z :=
  sequences <- append_log_records clock [r] ;;
  mret (default 0%Z (head sequences)).

(** ** Planning a mutation *)

(** The live objects of a collection, for roaming fences. *)
Definition lookup_live (clock : Clock) (cs : Collections) (n : string) : list Object :=
  match cs !! n with
  | Some v =>
      filter (λ o, is_expired (now_millis clock) o = false)
        (hash_iter (objects (collection v))).*2
  | None => []
  end.

Definition plan_mutation (clock : Clock) (e : MutationEvent) : M PreparedMutation := λ db,
  (db, Ok (prepare_mutation (db_geofences db) e (lookup_live clock (db_collections db)))).

Fixpoint webhook_records (clock : Clock) (r : GeofenceRegistry) (retry_count : Z)
    (evs : list GeofenceEvent) : result (list WebhookEnqueueRecord) CoreError :=
  match evs with
  | [] => Ok []
  | e :: rest =>
      match ev_hook e with
      | None => webhook_records clock r retry_count rest
      | Some hook =>
          let? def := ok_or (hook_def r hook) (CMessage "hook missing during enqueue") in
          let? records := webhook_records clock r retry_count rest in
          Ok (mkEnqueue "" e (hook_url def) 0 (Z.min (retry_count + 1) U32_MAX)
                (now_millis clock) :: records)
      end
  end.

Definition webhook_records_for_prepared (clock : Clock) (p : PreparedMutation)
    : M (list WebhookEnqueueRecord) := λ db,
  (db, webhook_records clock (db_geofences db) (webhook_retry_count (db_config db)) (events p)).

Definition apply_prepared (p : PreparedMutation) : M unit := λ db,
  put_geofences (apply_prepared_mutation (db_geofences db) p) db.

(** ** SET *)

Definition collection_handle (n : string) : M (option VersionedCollection) := λ db,
  (db, Ok (db_collections db !! n)).

Definition existing_collection_handle (n : string) : M VersionedCollection := λ db,
  (db, ok_or (db_collections db !! n) (CollectionNotFound n)).

Definition expiry_of (clock : Clock) (seconds : option Z) : option Z :=
  (λ s, saturating_add (now_millis clock) (s * 1000)) <$> seconds.

Definition condition_fails (c : SetCondition) (exists_ : bool) : bool :=
  match c with
  | Nx => exists_
  | Xx => negb exists_
  | Always => false
  end.

(** The shared body of [try_set_local] and [set_exclusive]: plan, log, apply.
    [v] is the cell written to. *)
Definition set_body (clock : Clock) (req : SetRequest) (v : VersionedCollection) : M bool :=
  let before := objects (collection v) !! sr_id req in
  if condition_fails (sr_condition req) (bool_decide (is_Some before)) then mret false
  else
    let expires := expiry_of clock (sr_expire_seconds req) in
    let o := mkObject (sr_id req) (sr_object req) (merged_set_fields before (sr_fields req)) expires in
    planned <- plan_mutation clock
      (mkMutation MSet (sr_collection req) (sr_id req) before (Some o) (now_nanos clock)) ;;
    webhooks <- webhook_records_for_prepared clock planned ;;
    persist_command_batch clock
      (CmdSetPersisted (mkPersistedSet (sr_collection req) (sr_id req) (sr_object req)
         (field_map_to_entries (fields o)) expires)) webhooks ;;;
    match upsert (collection v) o with
    | (c', Err e) =>
        put_collection (sr_collection req) (mkVersioned (version v) c') ;;; mfail e
    | (c', Ok _) =>
        put_collection (sr_collection req) (bump v c') ;;;
        apply_prepared planned ;;;
        mret true
    end.

(** The path without log or side effects. *)
Definition set_fast (req : SetRequest) (v : VersionedCollection) : M bool :=
  reserve_sequences 1 ;;;
  let before := objects (collection v) !! sr_id req in
  match upsert (collection v)
          (mkObject (sr_id req) (sr_object req) (merged_set_fields before (sr_fields req)) None) with
  | (c', Err e) => put_collection (sr_collection req) (mkVersioned (version v) c') ;;; mfail e
  | (c', Ok _) => put_collection (sr_collection req) (bump v c') ;;; mret true
  end.

Definition try_set_local (clock : Clock) (req : SetRequest) : M (option bool) :=
  ensure_writable ;;;
  db <- mget ;;
  if requires_exclusive_roam_path (db_geofences db) (sr_collection req) then mret None
  else
    match db_collections db !! sr_collection req with
    | None => mret None
    | Some v =>
        if negb (stores_command_log (db_storage db)) &&
           match sr_condition req with Always => true | _ => false end &&
           match sr_expire_seconds req with None => true | _ => false end &&
           is_point_geo (sr_object req) &&
           negb (has_relevant_side_effects (db_geofences db) (sr_collection req))
        then b <- set_fast req v ;; mret (Some b)
        else b <- set_body clock req v ;; mret (Some b)
    end.

(** [set_exclusive] creates the cell only after logging. *)
Definition set_exclusive (clock : Clock) (req : SetRequest) : M bool :=
  ensure_writable ;;;
  db <- mget ;;
  set_body clock req (ensure_cell (db_collections db) (sr_collection req)).

Definition op_set (clock : Clock) (req : SetRequest) : M bool :=
  mlift (map_err CGeo (validate_geo (sr_object req))) ;;;
  r <- try_set_local clock req ;;
  match r with
  | Some b => mret b
  | None => set_exclusive clock req
  end.

(** ** DEL *)

Definition del_body (clock : Clock) (n i : string) (v : VersionedCollection) (before : Object)
    : M bool :=
  planned <- plan_mutation clock (mkMutation MDel n i (Some before) None (now_nanos clock)) ;;
  webhooks <- webhook_records_for_prepared clock planned ;;
  persist_command_batch clock (CmdDel n i) webhooks ;;;
  let '(c', removed) := remove (collection v) i in
  put_collection n (if bool_decide (is_Some removed) then bump v c' else mkVersioned (version v) c') ;;;
  apply_prepared planned ;;;
  mret (bool_decide (is_Some removed)).

Definition del_exclusive (clock : Clock) (n i : string) : M bool :=
  ensure_writable ;;;
  h <- collection_handle n ;;
  match h with
  | None => mret false
  | Some v =>
      match objects (collection v) !! i with
      | None => mret false
      | Some before => del_body clock n i v before
      end
  end.

Definition op_del (clock : Clock) (n i : string) : M bool :=
  ensure_writable ;;;
  db <- mget ;;
  if requires_exclusive_roam_path (db_geofences db) n then del_exclusive clock n i
  else
    match db_collections db !! n with
    | None => mret false
    | Some v =>
        match objects (collection v) !! i with
        | None => mret false
        | Some before => del_body clock n i v before
        end
    end.

Fixpoint del_all (clock : Clock) (n : string) (ids : list string) (removed : Z) : M Z :=
  match ids with
  | [] => mret removed
  | i :: rest =>
      b <- del_exclusive clock n i ;;
      del_all clock n rest (removed + if (b : bool) then 1 else 0)
  end.

Definition op_pdel (clock : Clock) (n pattern : string) : M Z :=
  ensure_writable ;;;
  h <- collection_handle n ;;
  let ids := from_option (λ v, glob_names (objects (collection v)) pattern) [] h in
  del_all clock n ids 0.

(** ** FSET, EXPIRE, PERSIST *)

Definition op_fset (clock : Clock) (n i : string) (fs : list FieldEntry) (xx : bool) : M bool :=
  ensure_writable ;;;
  v <- existing_collection_handle n ;;
  match objects (collection v) !! i with
  | None => if xx then mret false else mfail (ObjectNotFound n i)
  | Some before =>
      let after := with_fields before (apply_field_updates (fields before) fs) in
      planned <- plan_mutation clock
        (mkMutation MFset n i (Some before) (Some after) (now_nanos clock)) ;;
      webhooks <- webhook_records_for_prepared clock planned ;;
      persist_command_batch clock (CmdFset n i fs xx) webhooks ;;;
      put_collection n (bump v (insert_fields (collection v) i fs).1) ;;;
      apply_prepared planned ;;;
      mret true
  end.

Definition expiry_body (clock : Clock) (n i : string) (cmd : Command) (deadline : option Z)
    : M unit :=
  ensure_writable ;;;
  v <- existing_collection_handle n ;;
  match objects (collection v) !! i with
  | None => mfail (ObjectNotFound n i)
  | Some _ =>
      append_log_record clock (LCommand cmd) ;;;
      put_collection n (bump v (set_expiry (collection v) i deadline).1)
  end.

Definition op_expire (clock : Clock) (n i : string) (seconds : Z) : M unit :=
  let expires_at_ms := saturating_add (now_millis clock) (seconds * 1000) in
  expiry_body clock n i (CmdExpireAt n i expires_at_ms) (Some expires_at_ms).

Definition op_persist (clock : Clock) (n i : string) : M unit :=
  expiry_body clock n i (CmdPersist n i) None.

(** ** JSET, JDEL *)

Definition edit_geojson_local (clock : Clock) (n i command_name : string)
    (edit : Value → Value * result bool GeoError) (cmd : Command) : M bool :=
  ensure_writable ;;;
  v <- existing_collection_handle n ;;
  match objects (collection v) !! i with
  | None => mfail (ObjectNotFound n i)
  | Some o =>
      match geo o with
      | GtGeoJson json =>
          match edit json with
          | (_, Err e) => mfail (CGeo e)
          | (json', Ok changed) =>
              let edited := GtGeoJson json' in
              mlift (map_err CGeo (validate_geo edited)) ;;;
              mlift (rmap (λ _, tt) (map_err CGeo (geo_to_geometry edited))) ;;;
              let had_ttl := bool_decide (is_Some (expires_at o)) in
              append_log_records clock
                (LCommand cmd :: if had_ttl then [LCommand (CmdPersist n i)] else []) ;;;
              match replace_geo (collection v) i edited with
              | (c1, Err e) => put_collection n (mkVersioned (version v) c1) ;;; mfail e
              | (c1, Ok _) =>
                  let c2 := if had_ttl then (set_expiry c1 i None).1 else c1 in
                  put_collection n (bump v c2) ;;;
                  mret changed
              end
          end
      | _ => mfail (Invalid (command_name +:+ " requires a GeoJSON object"))
      end
  end.

Definition op_jset (clock : Clock) (n i path value : string) (raw : bool) : M bool :=
  edit_geojson_local clock n i "JSET"
    (λ json, let '(json', r) := set_json_path json path (jset_payload value raw) in
             (json', rmap (λ _, true) r))
    (CmdJset n i path value raw).

Definition op_jdel (clock : Clock) (n i path : string) : M bool :=
  edit_geojson_local clock n i "JDEL" (λ json, delete_json_path json path) (CmdJdel n i path).

(** ** Collections *)

Definition op_create_collection (clock : Clock) (n : string) : M bool :=
  ensure_writable ;;;
  h <- collection_handle n ;;
  match h with
  | Some _ => mret false
  | None =>
      append_log_record clock (LCommand (CmdCreateCollection n)) ;;;
      put_collection n (versioned_new n) ;;;
      mret true
  end.

Fixpoint plan_drops (clock : Clock) (n : string) (os : list Object)
    : M (list PreparedMutation * list WebhookEnqueueRecord) :=
  match os with
  | [] => mret ([], [])
  | o :: rest =>
      planned <- plan_mutation clock (mkMutation MDrop n (id o) (Some o) None (now_nanos clock)) ;;
      webhooks <- webhook_records_for_prepared clock planned ;;
      r <- plan_drops clock n rest ;;
      mret (planned :: r.1, webhooks ++ r.2)
  end.

Fixpoint apply_all_prepared (ps : list PreparedMutation) : M unit :=
  match ps with
  | [] => mret tt
  | p :: rest => apply_prepared p ;;; apply_all_prepared rest
  end.

Definition op_drop_collection (clock : Clock) (n : string) : M bool :=
  ensure_writable ;;;
  h <- collection_handle n ;;
  match h with
  | None => mret false
  | Some v =>
      r <- plan_drops clock n (hash_iter (objects (collection v))).*2 ;;
      persist_command_batch clock (CmdDropCollection n) r.2 ;;;
      db <- mget ;;
      put_collections (delete n (db_collections db)) ;;;
      apply_all_prepared r.1 ;;;
      mret true
  end.

Definition rename_inner (clock : Clock) (n n' : string) (nx_only : bool) : M bool :=
  ensure_writable ;;;
  db <- mget ;;
  if nx_only && bool_decide (is_Some (db_collections db !! n')) then mret false
  else
    v <- existing_collection_handle n ;;
    append_log_record clock (LCommand (CmdRename n n')) ;;;
    put_collections (<[n' := bump v (rename_collection (collection v) n')]>
                       (delete n (db_collections db))) ;;;
    mret true.

(** ** Channels and hooks ([geofences.rs]) *)

Definition op_setchan (clock : Clock) (n : string) (d : GeofenceDef) : M unit :=
  mlift (validate_geofence_def d) ;;;
  ensure_writable ;;;
  append_log_record clock (LCommand (CmdSetChannel n d)) ;;;
  db <- mget ;;
  put_geofences (set_channel (db_geofences db) n d).

Definition op_delchan (clock : Clock) (n : string) : M bool :=
  ensure_writable ;;;
  append_log_record clock (LCommand (CmdDelChannel n)) ;;;
  db <- mget ;;
  let '(r, b) := del_channel (db_geofences db) n in
  put_geofences r ;;; mret b.

Definition op_pdelchan (clock : Clock) (pattern : string) : M Z :=
  ensure_writable ;;;
  append_log_record clock (LCommand (CmdPDelChannel pattern)) ;;;
  db <- mget ;;
  let '(r, k) := pdel_channel (db_geofences db) pattern in
  put_geofences r ;;; mret k.

Definition op_sethook (clock : Clock) (n url : string) (d : GeofenceDef) : M unit :=
  mlift (validate_geofence_def d) ;;;
  ensure_writable ;;;
  append_log_record clock (LCommand (CmdSetHook n url d)) ;;;
  db <- mget ;;
  put_geofences (set_hook (db_geofences db) n url d).

Definition op_delhook (clock : Clock) (n : string) : M bool :=
  ensure_writable ;;;
  append_log_record clock (LCommand (CmdDelHook n)) ;;;
  db <- mget ;;
  let '(r, b) := del_hook (db_geofences db) n in
  put_geofences r ;;; mret b.

Definition op_pdelhook (clock : Clock) (pattern : string) : M Z :=
  ensure_writable ;;;
  append_log_record clock (LCommand (CmdPDelHook pattern)) ;;;
  db <- mget ;;
  let '(r, k) := pdel_hook (db_geofences db) pattern in
  put_geofences r ;;; mret k.

(** ** Reads *)

Definition get_live_object (clock : Clock) (n i : string) : M (option Object) := λ db,
  (db, Ok (v ← db_collections db !! n;
           o ← objects (collection v) !! i;
           if is_expired (now_millis clock) o then None else Some o)).

Definition projected_point_coordinates (g : GeoType) : result (f64 * f64) CoreError :=
  match point_coordinates g with
  | Some p => Ok p
  | None =>
      let? b := map_err CGeo (geo_envelope g) in
      rmap center (ok_or b (Invalid "object is not spatial"))
  end.

Definition project_geo (i : string) (g : GeoType) (format : OutputFormat)
    : result GeoType CoreError :=
  match format with
  | Objects => Ok g
  | Points => rmap (λ '(lat, lon), GtPoint lat lon None) (projected_point_coordinates g)
  | Bounds =>
      let? b := map_err CGeo (geo_envelope g) in
      rmap GtBounds (ok_or b (Invalid "object is not spatial"))
  | Hashes precision =>
      rmap (λ '(lat, lon), GtHash (encode_geohash lat lon precision))
        (projected_point_coordinates g)
  | Ids | Count => Ok (GtString i)
  end.

Definition project_object (o : Object) (format : OutputFormat) (keep_fields : bool)
    : result Object CoreError :=
  rmap (λ g, mkObject (id o) g (if keep_fields then fields o else ∅) (expires_at o))
    (project_geo (id o) (geo o) format).

Definition op_get (clock : Clock) (n i : string) (format : OutputFormat) (keep_fields : bool)
    : M (option Object) :=
  o <- get_live_object clock n i ;;
  match o with
  | None => mret None
  | Some o => mlift (rmap Some (project_object o format keep_fields))
  end.

Definition op_fget (clock : Clock) (n i field : string) : M (option FieldValue) :=
  o <- get_live_object clock n i ;;
  mret (o ≫= (λ o, fields o !! field)).

Definition op_exists (clock : Clock) (n i : string) : M bool :=
  o <- get_live_object clock n i ;; mret (bool_decide (is_Some o)).

Definition op_fexists (clock : Clock) (n i field : string) : M bool :=
  o <- get_live_object clock n i ;;
  mret (from_option (λ o, bool_decide (is_Some (fields o !! field))) false o).

(** Seconds left, as an [i32] that saturates. *)
Definition op_ttl (clock : Clock) (n i : string) : M (option Z) :=
  o <- get_live_object clock n i ;;
  mret (d ← o ≫= expires_at;
        Some (Z.min (saturating_sub d (now_millis clock) / 1000) (2 ^ 31 - 1)))%Z.

Definition op_jget (clock : Clock) (n i path : string) : M (option string) :=
  o <- get_live_object clock n i ;;
  match o with
  | None => mret None
  | Some o =>
      match json_value (geo o) with
      | None => mfail (Invalid "JGET requires a GeoJSON object")
      | Some json => mret (json_to_string <$> get_json_path json path)
      end
  end.

Definition op_bounds (n : string) : M (option BoundingBox) :=
  h <- collection_handle n ;;
  match h with
  | None => mret None
  | Some v => mlift (collection_bounds (collection v))
  end.

Definition op_collections (pattern : string) : M (list string) := λ db,
  (db, Ok (filter (λ n, glob_match pattern n) (btree_iter (db_collections db)).*1)).

(** The area behind a reference; other areas are themselves. *)
Definition resolve_area (clock : Clock) (a : Area) : M Area :=
  match a with
  | AReference n i =>
      h <- collection_handle n ;;
      match h with
      | None => mfail (ObjectNotFound n i)
      | Some _ =>
          o <- get_live_object clock n i ;;
          match o with
          | None => mfail (ObjectNotFound n i)
          | Some o => mlift (rmap AGeoJson (map_err CGeo (geo_to_geojson_value (geo o))))
          end
      end
  | other => mret other
  end.

Record CollectionStats := mkStats {
  stats_name : string;
  object_count : Z;
  point_count : Z;
  string_count : Z;
  expires_count : Z
}.

Definition count_if (p : Object → bool) (os : list Object) : Z :=
  Z.of_nat (length (filter (λ o, p o = true) os)).

Definition op_stats (clock : Clock) (names : list string) : M (list CollectionStats) := λ db,
  (db, Ok (omap (λ n,
     v ← db_collections db !! n;
     let live := lookup_live clock (db_collections db) n in
     Some (mkStats (name (collection v)) (Z.of_nat (length live))
             (count_if (λ o, is_point_geo (geo o)) live)
             (count_if (λ o, is_string_geo (geo o)) live)
             (count_if (λ o, match expires_at o with Some _ => true | None => false end) live)))
     names)).

(** ** Administration ([admin.rs]) *)

Definition snapshot_storage (entries : list StorageEntry) : M unit := λ db,
  let '(s', r) := snapshot (db_storage db) entries in
  (mkDb (db_collections db) (db_geofences db) s' (db_config db) (db_next_sequence db)
     (db_expired_objects_total db), map_err CStorage r).

Definition op_flushdb (clock : Clock) : M unit :=
  ensure_writable ;;;
  append_log_record clock (LCommand CmdFlushDb) ;;;
  put_collections ∅ ;;;
  db <- mget ;;
  put_geofences (clear_all (db_geofences db)) ;;;
  snapshot_storage [].

Definition op_gc (clock : Clock) : M unit :=
  db <- mget ;;
  put_collections (gc_collections (now_millis clock) (db_collections db)).

(** Deletes the due ids of one collection, counting them. *)
Fixpoint expire_ids (clock : Clock) (n : string) (ids : list string) (expired : nat) : M nat :=
  match ids with
  | [] => mret expired
  | i :: rest =>
      b <- del_exclusive clock n i ;;
      expire_ids clock n rest (if (b : bool) then Datatypes.S expired else expired)
  end.

Fixpoint expire_collections (clock : Clock) (now_ms : Z) (max : nat)
    (handles : list (string * VersionedCollection)) (expired : nat) : M nat :=
  match handles with
  | [] => mret expired
  | (n, _) :: rest =>
      if (max <=? expired)%nat then mret expired
      else
        h <- collection_handle n ;;
        let due := from_option (λ v, due_expirations (collection v) now_ms (max - expired)) [] h in
        expired' <- expire_ids clock n due expired ;;
        expire_collections clock now_ms max rest expired'
  end.

Definition op_expire_due (clock : Clock) (now_ms : Z) (max : nat) : M nat :=
  db <- mget ;;
  if read_only (db_config db) then mret 0
  else
    expired <- expire_collections clock now_ms max (hash_iter (db_collections db)) 0 ;;
    add_expired_total (Z.of_nat expired) ;;;
    mret expired.

Fixpoint due_all (now_ms : Z) (max : nat) (handles : list (string * VersionedCollection))
    (due : list (string * string)) : list (string * string) :=
  match handles with
  | [] => due
  | (n, v) :: rest =>
      if (max <=? length due)%nat then due
      else due_all now_ms max rest
             (due ++ ((λ i, (n, i)) <$> due_expirations (collection v) now_ms (max - length due)))
  end.

Definition op_due_expirations (now_ms : Z) (max : nat) : M (list (string * string)) := λ db,
  (db, Ok (due_all now_ms max (hash_iter (db_collections db)) [])).

Definition op_next_expiry_ms : M (option Z) := λ db,
  (db, Ok (foldr (λ d acc, Some (match acc with Some a => Z.min d a | None => d end)) None
     (omap (λ nv, fst <$> head (expirations_iter (collection nv.2)))
        (map_to_list (db_collections db))))).

Definition op_last_sequence : M Z := λ db, (db, Ok (db_next_sequence db)).

Definition op_checksum_range (from to : Z) : M (list byte) := λ db,
  (db, map_err CStorage (checksum (db_storage db) from to)).

Definition op_storage_entries_after (after_seq : Z) (max_entries : nat) : M (list StorageEntry) :=
  λ db,
  let limit := Nat.max max_entries 1 in
  let '(entries, r) :=
    replay (db_storage db) after_seq
      (λ acc e, (if (length acc <? limit)%nat then acc ++ [e] else acc, Ok tt)) [] in
  (db, match r with Ok _ => Ok entries | Err e => Err (CStorage e) end).

Definition op_reset_replication_state : M unit :=
  put_collections ∅ ;;;
  db <- mget ;;
  put_geofences (clear_all (db_geofences db)) ;;;
  snapshot_storage [] ;;;
  put_next_sequence 0.

Fixpoint apply_entries (clock : Clock) (entries : list StorageEntry) : M unit :=
  match entries with
  | [] => mret tt
  | e :: rest =>
      db <- mget ;;
      let '(cs, r, res) := apply_persisted_entry clock (db_collections db) (db_geofences db) e in
      put_collections cs ;;; put_geofences r ;;; mlift res ;;; apply_entries clock rest
  end.

Definition op_apply_replicated_entries (clock : Clock) (entries : list StorageEntry) : M Z :=
  match entries with
  | [] => op_last_sequence
  | first :: _ =>
      db <- mget ;;
      let expected := wrapping_add (db_next_sequence db) 1 in
      if negb (sequence first =? expected)%Z
      then mfail (CStorage (SequenceRegression expected (sequence first)))
      else
        append_entries entries ;;;
        apply_entries clock entries ;;;
        put_next_sequence (from_option sequence (saturating_sub expected 1) (last entries)) ;;;
        op_gc clock ;;;
        op_last_sequence
  end.

(** *** Log compaction *)

Definition object_record (n : string) (io : string * Object) : LogRecord :=
  LCommand (CmdSetPersisted (mkPersistedSet n io.1 (geo io.2) (field_map_to_entries (fields io.2))
                               (expires_at io.2))).

Definition collection_records (clock : Clock) (nv : string * VersionedCollection)
    : list LogRecord :=
  LCommand (CmdCreateCollection nv.1) ::
  (object_record nv.1 <$>
     filter (λ io, is_expired (now_millis clock) io.2 = false)
       (btree_iter (objects (collection nv.2)))).

Definition snapshot_base_log_records (clock : Clock) (db : LatLng S) : list LogRecord :=
  (btree_iter (db_collections db) ≫= collection_records clock) ++
  ((λ d, LCommand (CmdSetChannel (channel_name d) (channel_fence d))) <$>
     channel_defs (db_geofences db)) ++
  ((λ d, LCommand (CmdSetHook (hook_name d) (hook_url d) (hook_fence d))) <$>
     hook_defs (db_geofences db)).

Definition rewrite_first_sequence (last : Z) (count : nat) : Z :=
  if (count =? 0)%nat then 0
  else if (Z.of_nat count <=? last)%Z then (last - Z.of_nat count + 1)%Z
  else 1.

Definition payload_bytes (entries : list StorageEntry) : Z :=
  foldr (λ e acc, 8 + Z.of_nat (length (command e)) + acc)%Z 0%Z entries.

Definition rewrite_log_snapshot (clock : Clock) (records : list LogRecord) : M CompactionResult :=
  db <- mget ;;
  if negb (stores_command_log (db_storage db))
  then mret (Build_CompactionResult 0 0 0 0)
  else
    current_last <- mlift (map_err CStorage (last_sequence (db_storage db))) ;;
    let '(seen, r) := replay (db_storage db) 0 (λ acc e, (acc ++ [e], Ok tt)) [] in
    mlift (map_err CStorage r) ;;;
    let first := rewrite_first_sequence current_last (length records) in
    entries <- mlift (encode_entries_for_sequences clock records
                        ((λ k, first + Z.of_nat k)%Z <$> seq 0 (length records))) ;;
    snapshot_storage entries ;;;
    put_next_sequence (if (length entries =? 0)%nat then current_last
                       else first + Z.of_nat (length entries) - 1)%Z ;;;
    mret (Build_CompactionResult (Z.of_nat (length seen)) (Z.of_nat (length entries))
            (payload_bytes seen) (payload_bytes entries)).

Definition op_aofshrink (clock : Clock) : M CompactionResult :=
  db <- mget ;;
  rewrite_log_snapshot clock (snapshot_base_log_records clock db).

Definition op_set_timeout (command : string) (seconds : f64) : M unit :=
  db <- mget ;; put_config (config_set_timeout (db_config db) command seconds).

(** ** Starting ([LatLngBuilder::build]) *)

Definition replay_callback (clock : Clock)
    : callback (Collections * GeofenceRegistry * Z) := λ st e,
  let '(cs, r, _) := st in
  let '(cs', r', res) := apply_persisted_entry clock cs r e in
  ((cs', r', sequence e), map_err (λ _, Message "replay failed") res).

Definition build (clock : Clock) (storage : option S) (config : Config)
    : result (LatLng S) CoreError :=
  match storage with
  | None => Err MissingStorage
  | Some s =>
      let '((cs, r, last), res) :=
        replay s 0 (replay_callback clock)
          (∅, registry_new (config_queue_capacity config), 0%Z) in
      match res with
      | Err e => Err (CStorage e)
      | Ok _ => Ok (mkDb (gc_collections (now_millis clock) cs) r s config last 0)
      end
  end.

End Operations.
End Engine.

Arguments mkDb {_ _}.
Arguments db_collections {_ _}.
Arguments db_geofences {_ _}.
Arguments db_storage {_ _}.
Arguments db_config {_ _}.
Arguments db_next_sequence {_ _}.
Arguments db_expired_objects_total {_ _}.
