(* ===== verification/Queries.v ===== *)
(** * Queries ([crates/latlng-core/src/queries.rs])

    NEARBY, WITHIN, INTERSECTS, SCAN, SEARCH and TEST.  A query reads the
    database and changes nothing.  The crate is built with or without its
    [parallel] feature; where the two builds differ the definitions take the
    flag.  SCAN and SEARCH go through the field indexes, whose numeric range
    lookup panics when the bounds are reversed: their outer [option] is that
    panic. *)

From Stdlib Require Import ZArith Lia SpecFloat.
From stdpp Require Import base gmap strings list sorting.
From S2P Require Import Prelude Storage F64 Json Platform Geo Strings Index Geofence Collection.
From S2P Require Import Engine.

Record NearbyQuery := mkNearby {
  nq_lat : f64;
  nq_lon : f64;
  nq_meters : f64;
  nq_options : SearchOptions
}.

Section Queries.
Context `{LM : Libm} `{GC : GeoCrate} `{RC : RTreeCrate} `{JT : JsonText} `{PT : Patterns}
  `{HO : HashOrder} `{SN : SelectNth}.

(** ** Candidates *)

(** [ids.iter().filter_map(get).filter(!is_expired)]. *)
Definition live_objects (c : Collection) (now_ms : Z) (ids : list string) : list Object :=
  filter (λ o, is_expired now_ms o = false) (omap (λ i, objects c !! i) ids).

(** [objects.values().filter(!is_expired)]. *)
Definition all_live_objects (c : Collection) (now_ms : Z) : list Object :=
  filter (λ o, is_expired now_ms o = false) (hash_iter (objects c)).*2.

Definition indexed_candidate_ids (c : Collection) (o : SearchOptions)
    : option (option (list string)) :=
  option_map (option_map string_elements) (candidate_ids (field_indexes c) o).

(** The visitor of [fast_ids_from_spatial_visit]: the predicate is evaluated
    before the expiry check, and an error ends the visit. *)
Definition fast_visit (c : Collection) (now_ms : Z) (limit : nat)
    (matches : Object → result bool CoreError)
    (st : list SearchItem * option CoreError) (i : string)
    : (list SearchItem * option CoreError) * bool :=
  match objects c !! i with
  | None => (st, true)
  | Some object =>
      match matches object with
      | Err e => ((st.1, Some e), false)
      | Ok matched =>
          if is_expired now_ms object || negb matched then (st, true)
          else
            let results := st.1 ++ [mkItem (id object) None None None] in
            ((results, st.2), (length results <? limit)%nat)
      end
  end.

Definition fast_ids_from_spatial_visit (c : Collection) (now_ms limit : Z)
    (visit_ids : (list SearchItem * option CoreError →
                  string → (list SearchItem * option CoreError) * bool) →
                 list SearchItem * option CoreError → list SearchItem * option CoreError)
    (matches : Object → result bool CoreError) : result SearchResults CoreError :=
  let limit := Z.to_nat (Z.max limit 1) in
  let '(results, error) := visit_ids (fast_visit c now_ms limit matches) ([], None) in
  match error with
  | Some e => Err e
  | None => Ok (mkResults results 0 (as_u32 (length results)))
  end.

(** The candidates of an area query.  The parallel build stops at the first
    object whose predicate cannot be evaluated; the other one skips it. *)
Definition area_candidates (parallel : bool) (objects : list Object) (a : Area)
    (predicate : AreaPredicate) : result (list Candidate) CoreError :=
  if parallel then map_err CIndex (area_candidates_owned objects a predicate)
  else Ok (omap (λ o, match area_matches predicate a o with
                      | Ok true => Some (mkCandidate o None)
                      | _ => None
                      end) objects).

(** ** The queries *)

Section OnDatabase.
Context {S : Type}.

Definition find_collection (db : LatLng S) (n : string) : result Collection CoreError :=
  rmap collection (ok_or (db_collections db !! n) (CollectionNotFound n)).

Definition op_nearby (parallel : bool) (clock : Clock) (db : LatLng S) (n : string)
    (q : NearbyQuery) : result SearchResults CoreError :=
  let now_ms := now_millis clock in
  let? _ := map_err CGeo (validate_lat_lon (nq_lat q) (nq_lon q)) in
  let? _ := map_err CGeo (validate_meters (nq_meters q)) in
  let? _ := map_err CIndex (validate_options (nq_options q)) in
  let? c := find_collection db n in
  if fast_limited_ids (nq_options q) && negb (has_filters (nq_options q)) then
    fast_ids_from_spatial_visit c now_ms (limit (nq_options q))
      (visit_nearby_ids (spatial_index c) (nq_lat q) (nq_lon q) (nq_meters q)) (λ _, Ok true)
  else
    let ids := nearby_ids (spatial_index c) (nq_lat q) (nq_lon q) (nq_meters q) in
    map_err CIndex
      (apply_search_options parallel
         (nearby_candidates (live_objects c now_ms ids) (nq_lat q) (nq_lon q))
         (nq_options q) None false).

(** WITHIN and INTERSECTS differ in the index they visit, the predicate and
    whether clipping is allowed. *)
Definition op_within (parallel : bool) (clock : Clock) (db : LatLng S) (n : string) (area : Area)
    (o : SearchOptions) : result SearchResults CoreError :=
  let now_ms := now_millis clock in
  let? _ := map_err CGeo (validate_area area) in
  let? _ := map_err CIndex (validate_options o) in
  let? resolved := (resolve_area clock area db).2 in
  let? c := find_collection db n in
  let? bounds := map_err CGeo (area_envelope resolved) in
  if fast_limited_ids o && negb (has_filters o) then
    fast_ids_from_spatial_visit c now_ms (limit o)
      (visit_within_candidate_ids (spatial_index c) bounds)
      (λ object, map_err CGeo (contains_geo resolved (geo object)))
  else
    let ids := within_candidate_ids (spatial_index c) bounds in
    let? cs := area_candidates parallel (live_objects c now_ms ids) resolved Within in
    map_err CIndex (apply_search_options parallel cs o (Some resolved) false).

Definition op_intersects (parallel : bool) (clock : Clock) (db : LatLng S) (n : string)
    (area : Area) (o : SearchOptions) : result SearchResults CoreError :=
  let now_ms := now_millis clock in
  let? _ := map_err CGeo (validate_area area) in
  let? _ := map_err CIndex (validate_options o) in
  let? resolved := (resolve_area clock area db).2 in
  let? c := find_collection db n in
  let? bounds := map_err CGeo (area_envelope resolved) in
  if fast_limited_ids o && negb (has_filters o) then
    fast_ids_from_spatial_visit c now_ms (limit o)
      (visit_intersecting_candidate_ids (spatial_index c) bounds)
      (λ object, map_err CGeo (intersects_geo resolved (geo object)))
  else
    let ids := intersecting_candidate_ids (spatial_index c) bounds in
    let? cs := area_candidates parallel (live_objects c now_ms ids) resolved Intersects in
    map_err CIndex (apply_search_options parallel cs o (Some resolved) true).

(** The objects SCAN and SEARCH consider: those the indexes select, or all. *)
Definition listed_objects (c : Collection) (now_ms : Z) (o : SearchOptions)
    : option (list Object) :=
  ids ← indexed_candidate_ids c o;
  Some (match ids with
        | Some ids => live_objects c now_ms ids
        | None => all_live_objects c now_ms
        end).

Definition op_scan (parallel : bool) (clock : Clock) (db : LatLng S) (n : string)
    (o : SearchOptions) : option (result SearchResults CoreError) :=
  let now_ms := now_millis clock in
  match (let? _ := map_err CIndex (validate_options o) in find_collection db n) with
  | Err e => Some (Err e)
  | Ok c =>
      fast ← fast_indexed_results c now_ms o false;
      match fast with
      | Err e => Some (Err e)
      | Ok (Some r) => Some (Ok r)
      | Ok None =>
          os ← listed_objects c now_ms o;
          Some (map_err CIndex
                  (apply_search_options parallel (snapshot_candidates_owned os) o None false))
      end
  end.

Definition op_search (parallel : bool) (clock : Clock) (db : LatLng S) (n : string)
    (o : SearchOptions) : option (result SearchResults CoreError) :=
  let now_ms := now_millis clock in
  match (let? _ := map_err CIndex (validate_options o) in find_collection db n) with
  | Err e => Some (Err e)
  | Ok c =>
      fast ← fast_indexed_results c now_ms o true;
      match fast with
      | Err e => Some (Err e)
      | Ok (Some r) => Some (Ok r)
      | Ok None =>
          os ← listed_objects c now_ms o;
          Some (map_err CIndex
                  (apply_search_options parallel (string_snapshot_candidates_owned os) o None false))
      end
  end.

Definition op_test (a : GeoType) (within : bool) (b : GeoType) : result bool CoreError :=
  let? json := map_err CGeo (geo_to_geojson_value b) in
  let area := AGeoJson json in
  if within then map_err CGeo (contains_geo area a) else map_err CGeo (intersects_geo area a).

End OnDatabase.
End Queries.
