(* ===== verification/QueriesSpec.v ===== *)
(** * Queries: properties

    Every query is compared with a reference that looks at all live objects of
    the collection and uses no index.  Options that ask for a sorted page give
    the very same answer; the limited id listing, whose order is that of the
    index, gives as many distinct matches as there are, up to the limit. *)

From Stdlib Require Import ZArith Lia SpecFloat.
From stdpp Require Import base gmap strings list sorting.
From S2P Require Import Prelude Storage F64 Json Platform Geo GeoSpec Strings Index IndexSpec.
From S2P Require Import Geofence Collection FieldIndexSpec CollectionSpec Engine Queries.

Section QueriesSpec.
Context `{LM : Libm} `{GC : GeoCrate} `{RC : RTreeCrate} `{JT : JsonText} `{PT : Patterns}
  `{HO : HashOrder} `{SN : SelectNth}.

(** ** Live objects *)

Definition live_in (c : Collection) (now_ms : Z) (o : Object) : Prop :=
  objects c !! id o = Some o ∧ is_expired now_ms o = false.

Lemma elem_of_live_objects c now_ms ids o : collection_inv c →
  o ∈ live_objects c now_ms ids ↔ live_in c now_ms o ∧ id o ∈ ids.
Proof.
  intros (Hid & _). unfold live_objects, live_in. rewrite list_elem_of_filter, list_elem_of_omap.
  split.
  - intros [He (i & Hi & Ho)]. by rewrite (Hid i o Ho).
  - intros [[Ho He] Hi]. eauto.
Qed.

Lemma elem_of_all_live_objects c now_ms o : collection_inv c →
  o ∈ all_live_objects c now_ms ↔ live_in c now_ms o.
Proof.
  intros (Hid & _). unfold all_live_objects, live_in.
  rewrite list_elem_of_filter, list_elem_of_fmap. split.
  - intros [He ([i o'] & -> & Hi)]. apply elem_of_hash_iter in Hi. simpl. by rewrite (Hid i o' Hi).
  - intros [Ho He]. split; [done|]. exists (id o, o). split; [done|]. by apply elem_of_hash_iter.
Qed.

Lemma NoDup_id_fmap (l : list Object) : NoDup (id <$> l) → NoDup l.
Proof. apply NoDup_fmap_1. Qed.

Lemma omap_lookup_ids c ids : collection_inv c →
  sublist (id <$> omap (λ i, objects c !! i) ids) ids.
Proof.
  intros (Hid & _). induction ids as [|i ids IH]; [constructor|]. cbn [omap list_omap].
  destruct (objects c !! i) as [o|] eqn:Ho.
  - rewrite fmap_cons, (Hid i o Ho). by constructor.
  - by constructor.
Qed.

Lemma live_objects_NoDup c now_ms ids : collection_inv c → NoDup ids →
  NoDup (id <$> live_objects c now_ms ids).
Proof.
  intros Hc Hids. unfold live_objects.
  eapply sublist_NoDup; [exact Hids|]. etrans; [|apply (omap_lookup_ids c ids Hc)].
  apply fmap_sublist, sublist_filter.
Qed.

Lemma hash_values_ids c : collection_inv c →
  id <$> (hash_iter (objects c)).*2 = (hash_iter (objects c)).*1.
Proof.
  intros (Hid & _). rewrite <-list_fmap_compose.
  apply list_fmap_ext. intros j [i o] Hj. simpl. apply (Hid i o).
  apply elem_of_hash_iter. by eapply list_elem_of_lookup_2.
Qed.

Lemma all_live_NoDup c now_ms : collection_inv c → NoDup (id <$> all_live_objects c now_ms).
Proof.
  intros Hc. unfold all_live_objects. eapply sublist_NoDup.
  - apply (hash_iter_NoDup (objects c)).
  - rewrite <-(hash_values_ids c Hc). apply fmap_sublist, sublist_filter.
Qed.
(** ** Filters *)

(** The filters of a query as a predicate on objects. *)
Definition matchesb (o : SearchOptions) (ob : Object) : bool :=
  match matches_candidate ob o with Ok b => b | Err _ => false end.

Definition evaluable (o : SearchOptions) (ob : Object) : Prop :=
  matches_candidate ob o = Ok (matchesb o ob).

Lemma valid_evaluable o ob : validate_options o = Ok tt → evaluable o ob.
Proof.
  intros [b Hb]%(validated_matches ob). unfold evaluable, matchesb. by rewrite Hb.
Qed.

Lemma filter_serial_filter cs o :
  Forall (λ c, evaluable o (cand_object c)) cs →
  filter_candidates_serial cs o = Ok (filter (λ c, matchesb o (cand_object c)) cs).
Proof.
  induction 1 as [|c cs Hc _ IH]; [done|]. cbn [filter_candidates_serial]. rewrite Hc, IH.
  cbn [rbind]. rewrite filter_cons. by destruct (matchesb o (cand_object c)).
Qed.

(** The page depends on the set of matches only. *)
Lemma same_page u p cs1 cs2 fs1 fs2 o area ac :
  fast_limited_ids o = false →
  filter_candidates p cs1 o = Ok fs1 → filter_candidates p cs2 o = Ok fs2 →
  fs1 ≡ₚ fs2 → Forall (uniform u) fs2 → NoDup (ids_of fs2) →
  apply_search_options p cs1 o area ac = apply_search_options p cs2 o area ac.
Proof.
  intros Hfast H1 H2 Hp Hu Hnd. unfold apply_search_options. rewrite Hfast, H1, H2. cbn [rbind].
  assert (length fs1 = length fs2) as Hlen by (by rewrite Hp). rewrite Hlen.
  assert (Forall (uniform u) fs1) by (by rewrite Hp).
  assert (NoDup (ids_of fs1)) by (unfold ids_of in *; by rewrite Hp).
  destruct (output o); [..|]; try done;
    rewrite <-Hlen at 1; rewrite !(page_slice u) by done;
    rewrite (sorted_perm_eq u (is_desc o) fs2 (sort_candidates (is_desc o) fs1)
               (sort_candidates (is_desc o) fs2)); try done;
    unfold sort_candidates; try apply merge_sort_Permutation;
    try apply (Sorted_merge_sort _); by rewrite merge_sort_Permutation.
Qed.

(** *** Limited id listings *)

Definition id_item (ob : Object) : SearchItem := mkItem (id ob) None None None.

Lemma fast_ids_loop_take cs o : ∀ room,
  Forall (λ c, evaluable o (cand_object c)) cs →
  fast_ids_loop room cs o =
  Ok ((λ c, mkItem (id (cand_object c)) None None (cand_distance c)) <$>
        take (Nat.max 1 room) (filter (λ c, matchesb o (cand_object c)) cs)).
Proof.
  induction cs as [|c cs IH]; intros room Hcs; [by destruct room|].
  apply Forall_cons in Hcs as [Hc Hcs]. cbn [fast_ids_loop]. rewrite Hc, filter_cons.
  cbn [rbind]. destruct (matchesb o (cand_object c)); cbn [negb]; [|by rewrite IH].
  rewrite decide_True by done. destruct room as [|[|room]]; [done..|].
  rewrite IH by done. by rewrite !Nat.max_r by lia.
Qed.

Lemma fast_indexed_loop_take c now_ms o strings ids : ∀ room,
  Forall (evaluable o) (live_objects c now_ms ids) →
  fast_indexed_loop c now_ms o strings room ids =
  Ok (id_item <$> take (Nat.max 1 room)
        (filter (λ ob, (negb strings || is_string_geo (geo ob)) && matchesb o ob)
           (live_objects c now_ms ids))).
Proof.
  induction ids as [|i ids IH]; intros room Hev; [by destruct room|].
  unfold live_objects in *. cbn [fast_indexed_loop omap list_omap] in *.
  destruct (objects c !! i) as [ob|]; [|by apply IH].
  rewrite filter_cons in Hev |- *.
  destruct (is_expired now_ms ob); cbn [orb]; [rewrite decide_False by done; by apply IH|].
  rewrite decide_True in Hev |- * by done. apply Forall_cons in Hev as [Hob Hev].
  rewrite filter_cons.
  destruct (strings && negb (is_string_geo (geo ob))) eqn:Hs.
  { rewrite decide_False; [by apply IH|].
    apply andb_true_iff in Hs as [-> ->%negb_true_iff]. by intros []. }
  rewrite Hob. cbn [rbind].
  assert (negb strings || is_string_geo (geo ob) = true) as ->
    by (revert Hs; by destruct strings, (is_string_geo (geo ob))).
  cbn [andb]. destruct (matchesb o ob); cbn [negb]; [|by apply IH].
  rewrite decide_True by done. destruct room as [|[|room]]; [done..|].
  rewrite IH by done. by rewrite !Nat.max_r by lia.
Qed.

Lemma visit_fast_take c now_ms lim (matches : Object → result bool CoreError) (m : Object → bool)
    ids : ∀ acc,
  Forall (λ i, from_option (λ ob, matches ob = Ok (m ob)) True (objects c !! i)) ids →
  length acc < lim →
  visit_ids (fast_visit c now_ms lim matches) (acc, None) ids =
  (acc ++ (id_item <$> take (lim - length acc) (filter (λ ob, m ob) (live_objects c now_ms ids))),
   None).
Proof.
  induction ids as [|i ids IH]; intros acc Hm Hlen;
    [by cbn; rewrite firstn_nil, app_nil_r|].
  apply Forall_cons in Hm as [Hi Hm]. unfold live_objects in *.
  cbn [visit_ids omap list_omap]. unfold fast_visit at 1.
  destruct (objects c !! i) as [ob|]; [|by apply IH]. simpl in Hi. rewrite Hi, filter_cons.
  destruct (is_expired now_ms ob); cbn [orb]; [rewrite decide_False by done; by apply IH|].
  rewrite decide_True, filter_cons by done.
  destruct (m ob); cbn [negb]; [|by apply IH].
  rewrite decide_True by done. cbn [fst snd].
  destruct (lim - length acc) as [|k] eqn:Hk; [lia|]. cbn [take fmap list_fmap].
  fold (id_item ob). rewrite length_app. simpl length.
  destruct (Nat.ltb_spec (length acc + 1) lim).
  - rewrite IH by (done || (rewrite length_app; simpl; lia)).
    rewrite length_app, <-app_assoc. simpl. by replace (lim - (length acc + 1)) with k by lia.
  - assert (k = 0) as -> by lia. done.
Qed.

(** *** Ids from the field indexes *)

Lemma elem_of_string_elements (s : gset string) i : i ∈ string_elements s ↔ i ∈ s.
Proof. unfold string_elements. by rewrite merge_sort_Permutation, elem_of_elements. Qed.

Lemma string_elements_NoDup (s : gset string) : NoDup (string_elements s).
Proof. unfold string_elements. rewrite merge_sort_Permutation. apply NoDup_elements. Qed.

(** The values of one numeric index hold disjoint sets of ids. *)
Lemma range_ids_NoDup c f vals min max kvs :
  collection_inv c → numeric (field_indexes c) !! f = Some vals →
  btree_range vals min max = Some kvs → NoDup (kvs ≫= (λ kv, string_elements kv.2)).
Proof.
  intros (_ & _ & [Hn _] & _) Hv Hk. unfold btree_range in Hk.
  destruct (total_le min max); [|done]. simplify_eq.
  assert (∀ k s i, (k, s) ∈ map_to_list vals → i ∈ s →
            ∃ o, objects c !! i = Some o ∧ fields o !! f = Some (FNumber k)) as Hks.
  { intros k s i Hin Hi. apply Hn. unfold num_ids, ids_at. rewrite Hv. simpl.
    apply elem_of_map_to_list in Hin. by rewrite Hin. }
  apply NoDup_bind.
  - intros [k1 s1] [k2 s2] i H1 H2. rewrite !elem_of_string_elements. simpl. intros Hi1 Hi2.
    apply list_elem_of_filter in H1 as [_ H1], H2 as [_ H2].
    rewrite merge_sort_Permutation in H1, H2.
    destruct (Hks _ _ _ H1 Hi1) as (o & Ho & Hf), (Hks _ _ _ H2 Hi2) as (o' & Ho' & Hf').
    simplify_eq. apply elem_of_map_to_list in H1, H2. congruence.
  - intros kv _. apply string_elements_NoDup.
  - apply NoDup_filter. rewrite merge_sort_Permutation. apply NoDup_map_to_list.
Qed.

Lemma visit_where_filter_spec c f l :
  collection_inv c → visit_where_filter_ids (field_indexes c) f = Some (Some l) →
  NoDup l ∧
  ((∃ ids, ids_for_where_filter (field_indexes c) f = Some (Some ids) ∧ ∀ i, i ∈ l ↔ i ∈ ids) ∨
   (is_top_level_field (where_field f) = true ∧ where_filter_matches_zero f = false ∧
    (∃ min max, where_comparison f = Range min max) ∧
    numeric (field_indexes c) !! where_field f = None)).
Proof.
  intros Hc. unfold visit_where_filter_ids, ids_for_where_filter.
  destruct (is_top_level_field (where_field f)); [|done].
  destruct (where_filter_matches_zero f); [done|]. cbn [negb orb].
  destruct (where_comparison f) as [min max|expected|pattern]; [| |done].
  - destruct (numeric (field_indexes c) !! where_field f) as [vals|] eqn:Hv.
    + destruct (btree_range vals min max) as [kvs|] eqn:Hk; [|done]. cbn [base.mbind option_bind].
      intros [= <-]. split; [by eapply range_ids_NoDup|]. left. eexists. split; [done|].
      intros i. unfold ids_of_range. rewrite list_elem_of_bind, elem_of_union_list. split.
      * intros (kv & Hi & Hkv). exists kv.2. rewrite <-elem_of_string_elements.
        split; [|done]. by apply list_elem_of_fmap_2.
      * intros (s & (kv & -> & Hkv)%list_elem_of_fmap & Hi). exists kv.
        by rewrite elem_of_string_elements.
    + intros [= <-]. split; [constructor|]. right. split_and!; [done|done|by eauto|done].
  - intros [= <-]. split; [apply string_elements_NoDup|]. left. eexists. split; [done|].
    intros i. apply elem_of_string_elements.
Qed.

(** A match of the first filter an index serves is visited. *)
Lemma visit_where_filter_complete c f l i o opts :
  collection_inv c → visit_where_filter_ids (field_indexes c) f = Some (Some l) →
  objects c !! i = Some o → plain_for o opts → f ∈ where_filters opts →
  matches_where o f = Ok true → i ∈ l.
Proof.
  intros Hc Hl Ho Hp Hf Hm.
  destruct (visit_where_filter_spec c f l Hc Hl) as
    [_ [(ids & Hids & Hiff)|(Htop & Hz & (min & max & Hcmp) & Hnone)]].
  - apply Hiff. by eapply where_candidate.
  - exfalso. destruct Hp as (Hj & Hw & _). specialize (Hw f Hf). rewrite Hcmp in Hw.
    unfold matches_where in Hm. rewrite (resolve_top_level o _ Hj Htop), Hcmp in Hm.
    unfold where_filter_matches_zero in Hz. rewrite Hcmp in Hz.
    destruct (fields o !! where_field f) as [[x|s|s]|] eqn:Hfx; try done.
    + destruct Hc as (_ & _ & [Hn _] & _).
      assert (i ∈ num_ids (field_indexes c) (where_field f) x) as Hin by (apply Hn; eauto).
      unfold num_ids, ids_at in Hin. by rewrite Hnone in Hin.
    + simpl in Hm. apply (inj Ok) in Hm. congruence.
Qed.

Definition serves (c : Collection) (o : SearchOptions) (now_ms : Z) (ids : list string) : Prop :=
  NoDup ids ∧ ∀ ob, live_in c now_ms ob → plain_for ob o → matchesb o ob = true → id ob ∈ ids.

Lemma matchesb_inv o ob : matchesb o ob = true → matches_candidate ob o = Ok true.
Proof. unfold matchesb. by destruct (matches_candidate ob o) as [[]|]. Qed.

Lemma visit_where_filters_find c fs l :
  visit_where_filters (field_indexes c) fs = Some (Some l) →
  ∃ f, f ∈ fs ∧ visit_where_filter_ids (field_indexes c) f = Some (Some l).
Proof.
  induction fs as [|f fs IH]; [done|]. cbn [visit_where_filters].
  destruct (visit_where_filter_ids (field_indexes c) f) as [[l'|]|] eqn:E; [| |done].
  - intros [= <-]. exists f. split; [by left | done].
  - intros (f' & Hf & Hl)%IH. exists f'. split; [by right | done].
Qed.

Lemma visit_where_in_filters_find c fs l :
  visit_where_in_filters (field_indexes c) fs = Some l →
  ∃ f ids, f ∈ fs ∧ ids_for_where_in_filter (field_indexes c) f = Some ids ∧
           l = string_elements ids.
Proof.
  induction fs as [|f fs IH]; [done|]. cbn [visit_where_in_filters].
  destruct (ids_for_where_in_filter (field_indexes c) f) as [ids|] eqn:E.
  - intros [= <-]. exists f, ids. split_and!; [by left | done | done].
  - intros (f' & ids & Hf & ? & ?)%IH. exists f', ids. split_and!; [by right | done | done].
Qed.

Lemma visited_serves c o now_ms ids : collection_inv c →
  visit_candidate_ids (field_indexes c) o = Some (Some ids) → serves c o now_ms ids.
Proof.
  intros Hc. unfold visit_candidate_ids.
  destruct (visit_where_filters _ (where_filters o)) as [[l|]|] eqn:Hw; cbn [base.mbind option_bind];
    [intros [= ->] | intros [= Hwi] | done].
  - apply visit_where_filters_find in Hw as (f & Hf & Hl). split.
    + by apply (visit_where_filter_spec c f ids Hc).
    + intros ob [Ho _] Hp [Hmw _]%matchesb_inv%matches_candidate_inv.
      rewrite Forall_forall in Hmw. by eapply visit_where_filter_complete; eauto.
  - apply visit_where_in_filters_find in Hwi as (f & s & Hf & Hl & ->).
    split; [apply string_elements_NoDup|].
    intros ob [Ho _] Hp [_ Hmw]%matchesb_inv%matches_candidate_inv.
    rewrite Forall_forall in Hmw. apply elem_of_string_elements.
    by eapply where_in_candidate; eauto.
Qed.

(** ** Listings *)

Definition wanted (strings : bool) (ob : Object) : bool := negb strings || is_string_geo (geo ob).

(** Every live match, found without an index. *)
Definition reference_matches (c : Collection) (now_ms : Z) (strings : bool) (o : SearchOptions)
    : list Object :=
  filter (λ ob, wanted strings ob && matchesb o ob) (all_live_objects c now_ms).

(** What a listing owes its client when only some ids are asked for. *)
Definition limited_ids_ok (refs : list Object) (lim : nat) (r : SearchResults) : Prop :=
  NoDup (item_id <$> results r) ∧
  (∀ i, i ∈ item_id <$> results r → ∃ ob, ob ∈ refs ∧ id ob = i) ∧
  length (results r) = Nat.min lim (length refs) ∧
  results_cursor r = 0%Z.

Definition ordered_ranges (o : SearchOptions) : Prop :=
  ∀ f min max, f ∈ where_filters o → where_comparison f = Range min max → total_le min max = true.

(** A collection and a query that its field indexes serve faithfully. *)
Record served (c : Collection) (now_ms : Z) (o : SearchOptions) : Prop := {
  sv_inv : collection_inv c;
  sv_valid : validate_options o = Ok tt;
  sv_plain ob : live_in c now_ms ob → plain_for ob o;
  sv_ranges : ordered_ranges o
}.

Lemma ids_for_where_filter_total ix o f : ordered_ranges o → f ∈ where_filters o →
  is_Some (ids_for_where_filter ix f) ∧ is_Some (visit_where_filter_ids ix f).
Proof.
  intros Hr Hf. specialize (Hr f). unfold ids_for_where_filter, visit_where_filter_ids.
  destruct (negb _ || _); [eauto|].
  destruct (where_comparison f) as [min max| |]; [|eauto..].
  destruct (numeric ix !! where_field f); [|eauto]. unfold btree_range.
  rewrite (Hr min max Hf eq_refl). cbn [base.mbind option_bind]. eauto.
Qed.

Lemma select_where_total ix fs : ∀ selected,
  Forall (λ f, is_Some (ids_for_where_filter ix f)) fs → is_Some (select_where ix selected fs).
Proof.
  induction fs as [|f fs IH]; intros selected Hfs; [by eauto|].
  apply Forall_cons in Hfs as [[r Hr] Hfs]. cbn [select_where]. rewrite Hr. by apply IH.
Qed.

Lemma visit_where_total ix fs :
  Forall (λ f, is_Some (visit_where_filter_ids ix f)) fs → is_Some (visit_where_filters ix fs).
Proof.
  induction 1 as [|f fs [r Hr] _ IH]; [by eauto|]. cbn [visit_where_filters]. rewrite Hr.
  destruct r; [by eexists | exact IH].
Qed.

Lemma candidate_ids_total ix o : ordered_ranges o →
  is_Some (candidate_ids ix o) ∧ is_Some (visit_candidate_ids ix o).
Proof.
  intros Hr. unfold candidate_ids, visit_candidate_ids. split.
  - destruct (select_where_total ix (where_filters o) None) as [x ->]; [|by eauto].
    apply Forall_forall. intros f Hf. by eapply ids_for_where_filter_total.
  - destruct (visit_where_total ix (where_filters o)) as [x ->];
      [|destruct x; cbn [base.mbind option_bind]; eauto].
    apply Forall_forall. intros f Hf. by eapply ids_for_where_filter_total.
Qed.

(** A list of live objects that holds every match gives the reference. *)
Lemma matches_perm c now_ms strings o (os : list Object) :
  collection_inv c → NoDup (id <$> os) →
  (∀ ob, ob ∈ os → live_in c now_ms ob) →
  (∀ ob, live_in c now_ms ob → matchesb o ob = true → ob ∈ os) →
  filter (λ ob, wanted strings ob && matchesb o ob) os ≡ₚ reference_matches c now_ms strings o.
Proof.
  intros Hc Hnd Hlive Hall. apply NoDup_Permutation.
  - apply NoDup_filter, (NoDup_fmap_1 id), Hnd.
  - apply NoDup_filter, (NoDup_fmap_1 id), all_live_NoDup, Hc.
  - intros ob. unfold reference_matches.
    rewrite !list_elem_of_filter, elem_of_all_live_objects by done.
    rewrite Is_true_true, andb_true_iff. naive_solver.
Qed.

Lemma live_objects_match c now_ms strings o ids :
  served c now_ms o → serves c o now_ms ids →
  filter (λ ob, wanted strings ob && matchesb o ob) (live_objects c now_ms ids) ≡ₚ
  reference_matches c now_ms strings o.
Proof.
  intros [Hc _ Hp _] [Hnd Hids]. apply matches_perm; [done| |..].
  - by apply live_objects_NoDup.
  - intros ob. rewrite elem_of_live_objects by done. by intros [? _].
  - intros ob Hl Hm. rewrite elem_of_live_objects by done. eauto.
Qed.

Lemma limited_ids_take (refs found : list Object) lim count :
  found ≡ₚ refs → NoDup (id <$> refs) →
  limited_ids_ok refs lim (mkResults (id_item <$> take lim found) 0 count).
Proof.
  intros Hp Hnd. unfold limited_ids_ok. cbn [results results_cursor].
  assert (item_id <$> (id_item <$> take lim found) = id <$> take lim found) as ->
    by (by rewrite <-list_fmap_compose).
  assert (sublist (take lim found) found) as Hsub by apply sublist_take.
  split_and!; [| | |done].
  - eapply sublist_NoDup; [|apply fmap_sublist, Hsub]. by rewrite Hp.
  - intros i (ob & -> & Hob)%list_elem_of_fmap. exists ob. split; [|done].
    rewrite <-Hp. by eapply elem_of_sublist.
  - by rewrite length_fmap, length_take, Hp.
Qed.

(** The candidates of a listing of some objects. *)
Definition listed (strings : bool) (os : list Object) : list Candidate :=
  if strings then string_snapshot_candidates_owned os else snapshot_candidates_owned os.

Lemma listed_filter strings o os :
  filter (λ c, matchesb o (cand_object c)) (listed strings os) =
  (λ ob, mkCandidate ob None) <$> filter (λ ob, wanted strings ob && matchesb o ob) os.
Proof.
  unfold listed, string_snapshot_candidates_owned, snapshot_candidates_owned, wanted.
  destruct strings; induction os as [|ob os IH]; try done; cbn [negb orb] in *;
    rewrite ?filter_cons, ?fmap_cons, ?filter_cons; cbn [cand_object].
  - destruct (is_string_geo (geo ob)); cbn [andb].
    + rewrite decide_True by done. rewrite fmap_cons, filter_cons. cbn [cand_object].
      rewrite IH. by destruct (matchesb o ob).
    + exact IH.
  - rewrite IH. by destruct (matchesb o ob).
Qed.

Lemma listed_evaluable strings o os :
  Forall (evaluable o) os → Forall (λ c, evaluable o (cand_object c)) (listed strings os).
Proof.
  intros Hos. unfold listed, string_snapshot_candidates_owned, snapshot_candidates_owned.
  destruct strings; apply Forall_fmap; [|done].
  eapply Forall_sublist; [apply sublist_filter | done].
Qed.

Lemma all_evaluable o os : validate_options o = Ok tt → Forall (evaluable o) os.
Proof. intros Ho. apply Forall_forall. intros ob _. by apply valid_evaluable. Qed.

Lemma listed_objects_spec c now_ms o : served c now_ms o →
  ∃ os, listed_objects c now_ms o = Some os ∧
    (∀ ob, ob ∈ os → live_in c now_ms ob) ∧
    ∀ strings, filter (λ ob, wanted strings ob && matchesb o ob) os ≡ₚ
               reference_matches c now_ms strings o.
Proof.
  intros Hs. pose proof (sv_inv _ _ _ Hs) as Hc. unfold listed_objects, indexed_candidate_ids.
  destruct (candidate_ids_total (field_indexes c) o (sv_ranges _ _ _ Hs)) as [[r Hr] _].
  rewrite Hr. cbn [option_map base.mbind option_bind]. eexists. split; [done|].
  destruct r as [ids|]; cbn [option_map].
  - split; [intros ob; rewrite elem_of_live_objects by done; by intros [? _]|].
    intros strings. apply live_objects_match; [done|]. split; [apply string_elements_NoDup|].
    intros ob [Ho Hl] Hp Hm. apply elem_of_string_elements.
    by eapply selected_candidate; eauto using matchesb_inv.
  - split; [intros ob; by rewrite elem_of_all_live_objects|]. done.
Qed.

(** SCAN and SEARCH after their guards. *)
Definition listing (strings p : bool) (c : Collection) (now_ms : Z) (o : SearchOptions)
    : option (result SearchResults CoreError) :=
  fast ← fast_indexed_results c now_ms o strings;
  match fast with
  | Err e => Some (Err e)
  | Ok (Some r) => Some (Ok r)
  | Ok None =>
      os ← listed_objects c now_ms o;
      Some (map_err CIndex (apply_search_options p (listed strings os) o None false))
  end.

Lemma reference_NoDup c now_ms strings o : collection_inv c →
  NoDup (id <$> reference_matches c now_ms strings o).
Proof.
  intros Hc. eapply sublist_NoDup; [apply (all_live_NoDup c now_ms Hc)|].
  apply fmap_sublist, sublist_filter.
Qed.

Lemma page_limit_pos o : Nat.max 1 (page_limit o) = page_limit o.
Proof. unfold page_limit. lia. Qed.

Lemma listing_limited strings p c now_ms o :
  served c now_ms o → fast_limited_ids o = true →
  ∃ r, listing strings p c now_ms o = Some (Ok r) ∧
       limited_ids_ok (reference_matches c now_ms strings o) (page_limit o) r.
Proof.
  intros Hs Hfast. pose proof (sv_inv _ _ _ Hs) as Hc.
  unfold listing, fast_indexed_results. rewrite Hfast. cbn [negb].
  destruct (candidate_ids_total (field_indexes c) o (sv_ranges _ _ _ Hs)) as [_ [v Hv]].
  rewrite Hv. cbn [base.mbind option_bind]. destruct v as [ids|].
  - rewrite fast_indexed_loop_take, page_limit_pos.
    + cbn [map_err rbind]. eexists. split; [done|]. apply limited_ids_take.
      * apply live_objects_match; [done|]. by apply visited_serves.
      * by apply reference_NoDup.
    + apply all_evaluable, Hs.
  - destruct (listed_objects_spec c now_ms o Hs) as (os & -> & Hl & Hp).
    cbn [base.mbind option_bind]. unfold apply_search_options, apply_fast_limited_ids. rewrite Hfast.
    rewrite fast_ids_loop_take, page_limit_pos
      by apply listed_evaluable, all_evaluable, Hs.
    cbn [map_err rbind]. eexists. split; [done|].
    rewrite listed_filter, <-fmap_take, <-list_fmap_compose.
    apply limited_ids_take; [apply Hp | by apply reference_NoDup].
Qed.

Lemma listing_paged strings p c now_ms o :
  served c now_ms o → fast_limited_ids o = false →
  listing strings p c now_ms o =
  Some (map_err CIndex
          (apply_search_options p (listed strings (all_live_objects c now_ms)) o None false)).
Proof.
  intros Hs Hfast. pose proof (sv_inv _ _ _ Hs) as Hc.
  unfold listing, fast_indexed_results. rewrite Hfast. cbn [negb base.mbind option_bind].
  destruct (listed_objects_spec c now_ms o Hs) as (os & -> & Hl & Hp).
  cbn [base.mbind option_bind]. do 2 f_equal.
  eapply (same_page false); [done| | | | |].
  - rewrite filter_candidates_serial_eq. by apply filter_serial_filter, listed_evaluable, all_evaluable, Hs.
  - rewrite filter_candidates_serial_eq. by apply filter_serial_filter, listed_evaluable, all_evaluable, Hs.
  - rewrite !listed_filter, Hp. done.
  - rewrite listed_filter. by apply Forall_fmap, Forall_true.
  - rewrite listed_filter. unfold ids_of. rewrite <-list_fmap_compose. by apply reference_NoDup.
Qed.

(** ** Spatial queries *)

(** A test of an object's entry in the spatial index. *)
Definition entry_test (P : IndexedEntry → bool) (ob : Object) : bool :=
  from_option P false (entry_of (id ob) ob).

Lemma entry_of_id i o e : entry_of i o = Some e → entry_id e = i.
Proof. unfold entry_of. destruct (geo_envelope (geo o)) as [[b|]|]; [|done..]. by intros [= <-]. Qed.

Lemma tree_ids_NoDup s : spatial_inv s → NoDup (entry_id <$> rtree_elems (tree s)).
Proof.
  intros [Hid Hp]. rewrite Hp, <-list_fmap_compose.
  replace ((entry_id ∘ snd) <$> map_to_list (entries_by_id s))
    with (map_to_list (entries_by_id s)).*1; [apply NoDup_fst_map_to_list|].
  apply list_fmap_ext. intros j [i e] Hj. symmetry. simpl.
  apply Hid, elem_of_map_to_list. by eapply list_elem_of_lookup_2.
Qed.

Lemma elem_of_tree c o e : collection_inv c → objects c !! id o = Some o →
  entry_of (id o) o = Some e ↔ e ∈ rtree_elems (tree (spatial_index c)) ∧ entry_id e = id o.
Proof.
  intros (_ & [Hs He] & _) Ho. specialize (He (id o)). rewrite Ho in He. simpl in He. split.
  - intros Hen. split; [|by eapply entry_of_id]. destruct Hs as [_ Hp]. rewrite Hp.
    apply (list_elem_of_fmap_2 snd _ (id o, e)), elem_of_map_to_list. congruence.
  - intros [Hin Hid]. rewrite <-He. by apply elem_entry.
Qed.

(** The objects behind the entries that pass a test are the live objects whose
    entry passes it. *)
Lemma spatial_candidates c now_ms (P : IndexedEntry → bool) (es : list IndexedEntry) :
  collection_inv c → es ≡ₚ filter (λ e, P e) (rtree_elems (tree (spatial_index c))) →
  NoDup (entry_id <$> es) ∧
  live_objects c now_ms (entry_id <$> es) ≡ₚ filter (λ ob, entry_test P ob) (all_live_objects c now_ms).
Proof.
  intros Hc Hes. assert (Hs := Hc). destruct Hs as (_ & [Hs _] & _).
  assert (NoDup (entry_id <$> es)) as Hnd.
  { rewrite Hes. eapply sublist_NoDup; [apply (tree_ids_NoDup _ Hs)|].
    apply fmap_sublist, sublist_filter. }
  split; [done|]. apply NoDup_Permutation.
  - by apply (NoDup_fmap_1 id), live_objects_NoDup.
  - apply NoDup_filter, (NoDup_fmap_1 id), all_live_NoDup, Hc.
  - intros ob. rewrite elem_of_live_objects, list_elem_of_filter, elem_of_all_live_objects by done.
    unfold entry_test. split.
    + intros [Hl (e & Heq & Hin)%list_elem_of_fmap]. split; [|done].
      rewrite Hes, list_elem_of_filter in Hin. destruct Hin as [HP Hin].
      by rewrite (proj2 (elem_of_tree c ob e Hc (proj1 Hl))).
    + intros [HP Hl]. split; [done|].
      destruct (entry_of (id ob) ob) as [e|] eqn:He; [|done]. simpl in HP.
      apply (elem_of_tree c ob e Hc (proj1 Hl)) in He as [Hin Heq].
      apply list_elem_of_fmap. exists e. split; [done|].
      by rewrite Hes, list_elem_of_filter.
Qed.

(** *** NEARBY *)

Definition near (lat lon meters : f64) (ob : Object) : bool :=
  entry_test (λ e, SFleb (haversine_distance_meters lat lon (entry_center e).2 (entry_center e).1)
                         meters) ob.

Lemma nearby_objects c now_ms lat lon meters : collection_inv c →
  NoDup (nearby_ids (spatial_index c) lat lon meters) ∧
  live_objects c now_ms (nearby_ids (spatial_index c) lat lon meters) ≡ₚ
    filter (λ ob, near lat lon meters ob) (all_live_objects c now_ms).
Proof. intros Hc. apply spatial_candidates; [done|]. by rewrite elems_nearest. Qed.

(** The distance order leaves no choice. *)
Lemma nearby_candidates_perm lat lon os1 os2 :
  os1 ≡ₚ os2 → NoDup (id <$> os2) →
  (∀ ob d, ob ∈ os2 → candidate_distance ob lat lon = Some d → is_nan d = false) →
  nearby_candidates os1 lat lon = nearby_candidates os2 lat lon.
Proof.
  intros Hp Hnd Hnan. unfold nearby_candidates, sort_candidates.
  set (f := λ o, (λ d, mkCandidate o (Some d)) <$> candidate_distance o lat lon).
  assert (omap f os1 ≡ₚ omap f os2) as Hf by (by rewrite Hp).
  apply (sorted_perm_eq true false (omap f os2)).
  - apply Forall_forall. intros c (ob & Hob & Hc)%list_elem_of_omap.
    unfold f in Hc. destruct (candidate_distance ob lat lon) as [d|] eqn:Hd; [|done].
    simplify_eq/=. unfold uniform. simpl. split; [done|]. eauto.
  - eapply sublist_NoDup; [exact Hnd|]. clear. unfold ids_of.
    induction os2 as [|ob os IH]; [constructor|]. cbn [omap list_omap]. unfold f at 1.
    destruct (candidate_distance ob lat lon); cbn [fmap option_fmap option_map];
      rewrite ?fmap_cons; by constructor.
  - by rewrite merge_sort_Permutation.
  - apply merge_sort_Permutation.
  - apply (Sorted_merge_sort _).
  - apply (Sorted_merge_sort _).
Qed.

Lemma visited_limited c now_ms lim ids (matches : Object → result bool CoreError)
    (m : Object → bool) refs :
  Forall (λ i, from_option (λ ob, matches ob = Ok (m ob)) True (objects c !! i)) ids →
  filter (λ ob, m ob) (live_objects c now_ms ids) ≡ₚ refs → NoDup (id <$> refs) →
  ∃ r, fast_ids_from_spatial_visit c now_ms lim (λ v st, visit_ids v st ids) matches = Ok r ∧
       limited_ids_ok refs (Z.to_nat (Z.max lim 1)) r.
Proof.
  intros Hm Hp Hnd. unfold fast_ids_from_spatial_visit.
  rewrite (visit_fast_take c now_ms _ matches m ids []) by (done || (simpl; lia)).
  rewrite app_nil_l. eexists. split; [done|]. simpl length. rewrite Nat.sub_0_r.
  by apply limited_ids_take.
Qed.

Lemma filter_true {A} (l : list A) : filter (λ _, true) l = l.
Proof. induction l as [|x l IH]; [done|]. rewrite filter_cons, IH. by rewrite decide_True. Qed.

Lemma no_filters_match o ob : has_filters o = false → matchesb o ob = true.
Proof.
  unfold has_filters, matchesb, matches_candidate.
  destruct (match_pattern o); [done|]. destruct (where_filters o); [|done].
  destruct (where_in_filters o); [|done]. by destruct (where_expr_filters o).
Qed.

(** *** WITHIN and INTERSECTS *)

Definition area_test (predicate : AreaPredicate) (a : Area) (ob : Object) : bool :=
  match area_matches predicate a ob with Ok b => b | Err _ => false end.

(** The test the spatial index applies to an entry's envelope. *)
Definition box_test (predicate : AreaPredicate) (bounds : BoundingBox) (e : IndexedEntry) : bool :=
  match predicate with
  | Within => aabb_contains (query_aabb bounds) (entry_envelope e)
  | Intersects => aabb_intersects (query_aabb bounds) (entry_envelope e)
  end.

Definition inside (predicate : AreaPredicate) (a : Area) (bounds : BoundingBox) (ob : Object)
    : bool :=
  entry_test (box_test predicate bounds) ob && area_test predicate a ob.

Definition area_ids (predicate : AreaPredicate) (s : SpatialIndex) (bounds : BoundingBox)
    : list string :=
  match predicate with
  | Within => within_candidate_ids s bounds
  | Intersects => intersecting_candidate_ids s bounds
  end.

(** WITHIN and INTERSECTS after their guards. *)
Definition area_query (predicate : AreaPredicate) (parallel : bool) (c : Collection) (now_ms : Z)
    (a : Area) (bounds : BoundingBox) (o : SearchOptions) : result SearchResults CoreError :=
  let ids := area_ids predicate (spatial_index c) bounds in
  if fast_limited_ids o && negb (has_filters o) then
    fast_ids_from_spatial_visit c now_ms (limit o) (λ v st, visit_ids v st ids)
      (λ ob, map_err CGeo (match predicate with
                           | Within => contains_geo a (geo ob)
                           | Intersects => intersects_geo a (geo ob)
                           end))
  else
    let? cs := area_candidates parallel (live_objects c now_ms ids) a predicate in
    map_err CIndex
      (apply_search_options parallel cs o (Some a)
         (match predicate with Within => false | Intersects => true end)).

Definition area_evaluable (predicate : AreaPredicate) (a : Area) (ob : Object) : Prop :=
  area_matches predicate a ob = Ok (area_test predicate a ob).

Lemma area_candidates_ok parallel predicate a os :
  Forall (area_evaluable predicate a) os →
  area_candidates parallel os a predicate =
  Ok (snapshot_candidates_owned (filter (λ ob, area_test predicate a ob) os)).
Proof.
  intros Hos. unfold area_candidates, snapshot_candidates_owned. destruct parallel.
  - assert (area_candidates_owned os a predicate =
      Ok ((λ ob, mkCandidate ob None) <$> filter (λ ob, area_test predicate a ob) os)) as ->; [|done].
    induction Hos as [|ob os Hob _ IH]; [done|]. cbn [area_candidates_owned].
    rewrite Hob, IH, filter_cons. cbn [rbind]. by destruct (area_test predicate a ob).
  - f_equal. induction Hos as [|ob os Hob _ IH]; [done|]. cbn [omap list_omap].
    rewrite Hob, IH, filter_cons. by destruct (area_test predicate a ob).
Qed.

Lemma envelope_geometry g b : geo_envelope g = Ok (Some b) → ∃ geom, geo_to_geometry g = Ok (Some geom).
Proof.
  destruct g as [lat lon z|b'|h|v|t]; simpl; [by eexists | by eexists | | |done].
  - destruct (decode_geohash_bbox h); [by eexists | done].
  - unfold bounding_box_from_geojson. destruct (geojson_value_to_geometry v); [by eexists | done].
Qed.

Lemma area_envelope_geometry a b : area_envelope a = Ok b → ∃ geom, area_to_geometry a = Ok geom.
Proof.
  destruct a as [lat lon m|b'|h|v|x y z|k|lat lon m b1 b2|n i]; simpl; intros Hb.
  - by eexists.
  - by eexists.
  - rewrite Hb. by eexists.
  - unfold bounding_box_from_geojson in Hb.
    destruct (geojson_value_to_geometry v); [by eexists | done].
  - rewrite Hb. by eexists.
  - rewrite Hb. by eexists.
  - by eexists.
  - done.
Qed.

Lemma area_objects predicate c now_ms a bounds : collection_inv c →
  filter (λ ob, area_test predicate a ob)
    (live_objects c now_ms (area_ids predicate (spatial_index c) bounds)) ≡ₚ
  filter (λ ob, inside predicate a bounds ob) (all_live_objects c now_ms).
Proof.
  intros Hc.
  assert (live_objects c now_ms (area_ids predicate (spatial_index c) bounds) ≡ₚ
    filter (λ ob, entry_test (box_test predicate bounds) ob) (all_live_objects c now_ms)) as ->.
  { destruct predicate; apply spatial_candidates; try done;
      [apply elems_in_envelope | apply elems_intersecting]. }
  rewrite list_filter_filter. apply reflexive_eq, list_filter_iff. intros ob. unfold inside.
  rewrite !Is_true_true, andb_true_iff. tauto.
Qed.

(** The live objects of an area, found without the tree. *)
Definition area_reference (predicate : AreaPredicate) (c : Collection) (now_ms : Z) (a : Area)
    (bounds : BoundingBox) : list Object :=
  filter (λ ob, inside predicate a bounds ob) (all_live_objects c now_ms).

Lemma area_reference_facts predicate c now_ms a bounds : collection_inv c →
  NoDup (id <$> area_reference predicate c now_ms a bounds) ∧
  ∀ ob, ob ∈ area_reference predicate c now_ms a bounds → live_in c now_ms ob.
Proof.
  intros Hc. split.
  - eapply sublist_NoDup; [apply (all_live_NoDup c now_ms Hc)|]. apply fmap_sublist, sublist_filter.
  - intros ob [_ Hob]%list_elem_of_filter. by apply elem_of_all_live_objects.
Qed.

Section AreaQuery.
Context (predicate : AreaPredicate) (p : bool) (c : Collection) (now_ms : Z) (a : Area)
  (bounds : BoundingBox) (o : SearchOptions).
Context (Hc : collection_inv c) (Hbounds : area_envelope a = Ok bounds)
  (Hvalid : validate_options o = Ok tt).

(** An object in the spatial index has a geometry, and so does the area: the
    predicate is always defined. *)
Lemma candidate_area_evaluable i ob :
  i ∈ area_ids predicate (spatial_index c) bounds → objects c !! i = Some ob →
  area_evaluable predicate a ob.
Proof.
  intros Hi Ho. destruct Hc as (_ & [Hs He] & _).
  assert (∃ e, e ∈ rtree_elems (tree (spatial_index c)) ∧ entry_id e = i) as (e & Hin & Hid).
  { unfold area_ids, within_candidate_ids, intersecting_candidate_ids in Hi.
    destruct predicate; apply list_elem_of_fmap in Hi as (e & -> & Hin);
      rewrite ?elems_in_envelope, ?elems_intersecting, list_elem_of_filter in Hin;
      destruct Hin; eauto. }
  pose proof (elem_entry _ _ _ Hs Hin Hid) as Hen. rewrite He, Ho in Hen. simpl in Hen.
  unfold entry_of in Hen. destruct (geo_envelope (geo ob)) as [[b|]|] eqn:Hg; [|done..].
  destruct (envelope_geometry (geo ob) b Hg) as [g Hgeo].
  destruct (area_envelope_geometry a bounds Hbounds) as [ga Hga].
  unfold area_evaluable, area_test, area_matches, contains_geo, intersects_geo.
  rewrite Hga, Hgeo. by destruct predicate.
Qed.

Lemma candidates_area_evaluable : Forall (area_evaluable predicate a)
  (live_objects c now_ms (area_ids predicate (spatial_index c) bounds)).
Proof.
  apply Forall_forall. intros ob [[Ho _] Hi]%elem_of_live_objects; [|done].
  by eapply candidate_area_evaluable.
Qed.

Lemma area_query_limited : fast_limited_ids o = true →
  ∃ r, area_query predicate p c now_ms a bounds o = Ok r ∧
       limited_ids_ok (filter (λ ob, matchesb o ob) (area_reference predicate c now_ms a bounds))
         (page_limit o) r.
Proof.
  intros Hfast. destruct (area_reference_facts predicate c now_ms a bounds Hc) as [Hnd _].
  assert (NoDup (id <$> filter (λ ob, matchesb o ob)
                   (area_reference predicate c now_ms a bounds))) as Hnd'.
  { eapply sublist_NoDup; [exact Hnd|]. apply fmap_sublist, sublist_filter. }
  unfold area_query. rewrite Hfast. cbn [andb]. destruct (has_filters o) eqn:Hf; cbn [negb].
  - rewrite area_candidates_ok.
    2: apply candidates_area_evaluable.
    cbn [rbind]. unfold apply_search_options, apply_fast_limited_ids. rewrite Hfast.
    rewrite fast_ids_loop_take, page_limit_pos.
    2: by apply (listed_evaluable false), all_evaluable.
    cbn [map_err rbind]. eexists. split; [done|].
    rewrite (listed_filter false o), <-fmap_take, <-list_fmap_compose.
    apply limited_ids_take; [|done]. unfold area_reference. by rewrite <-area_objects.
  - apply (visited_limited c now_ms (limit o) _ _ (area_test predicate a)); [| |done].
    + apply Forall_forall. intros i Hi. destruct (objects c !! i) as [ob|] eqn:Ho; [|done].
      cbn [from_option]. pose proof (candidate_area_evaluable i ob Hi Ho) as Hob. unfold area_evaluable, area_matches in Hob.
      revert Hob. generalize (area_test predicate a ob) as b.
      destruct predicate; [destruct (contains_geo _ _) | destruct (intersects_geo _ _)]; simpl;
        intros ? [= <-]; done.
    + rewrite area_objects by done. apply reflexive_eq. unfold area_reference.
      rewrite list_filter_filter. apply list_filter_iff. intros ob.
      rewrite (no_filters_match o ob Hf). by split; [intros ?; split | intros [_ ?]].
Qed.

Lemma area_query_paged : fast_limited_ids o = false →
  area_query predicate p c now_ms a bounds o =
  map_err CIndex
    (apply_search_options p
       (snapshot_candidates_owned (area_reference predicate c now_ms a bounds)) o (Some a)
       (match predicate with Within => false | Intersects => true end)).
Proof.
  intros Hfast. destruct (area_reference_facts predicate c now_ms a bounds Hc) as [Hnd Hl].
  unfold area_query. rewrite Hfast. cbn [andb]. rewrite area_candidates_ok.
  2: apply candidates_area_evaluable.
  cbn [rbind]. f_equal. eapply (same_page false); [done| | | | |].
  - rewrite filter_candidates_serial_eq. by apply filter_serial_filter, (listed_evaluable false), all_evaluable.
  - rewrite filter_candidates_serial_eq. by apply filter_serial_filter, (listed_evaluable false), all_evaluable.
  - rewrite !(listed_filter false o). unfold area_reference. by rewrite area_objects.
  - rewrite (listed_filter false o). by apply Forall_fmap, Forall_true.
  - rewrite (listed_filter false o). unfold ids_of. rewrite <-list_fmap_compose.
    eapply sublist_NoDup; [exact Hnd|]. apply fmap_sublist, sublist_filter.
Qed.

End AreaQuery.

(** ** Properties *)

Section OnDatabase.
Context {S : Type}.

(** WITHIN or INTERSECTS. *)
Definition op_area (predicate : AreaPredicate) (parallel : bool) (clock : Clock) (db : LatLng S)
    (n : string) (area : Area) (o : SearchOptions) : result SearchResults CoreError :=
  match predicate with
  | Within => op_within parallel clock db n area o
  | Intersects => op_intersects parallel clock db n area o
  end.

Lemma find_collection_Some (db : LatLng S) n v :
  db_collections db !! n = Some v → find_collection db n = Ok (collection v).
Proof. intros Hv. unfold find_collection. by rewrite Hv. Qed.

(** Validated filters cannot fail, on any object. *)
Theorem validated_filters_never_fail (o : SearchOptions) (ob : Object)
    (Hvalid : validate_options o = Ok tt) :
  ∃ b, matches_candidate ob o = Ok b.
Proof. by apply validated_matches. Qed.

(** C34: SCAN and SEARCH through the field indexes answer as if every live
    object had been looked at: the same page, or, when only some ids are asked
    for, that many distinct matches, or all of them.  This holds for a
    collection that exists and whose indexes agree with its objects, and for a
    query that passed validation and that the indexes serve ([served]): no
    live object is a GeoJSON one, the filtered fields of the live objects have
    the type that their filter compares (otherwise see
    [text_filter_misses_numbers]), and no range is reversed
    ([reversed_range_panics]). *)
Theorem listings_equal_full_scan (p : bool) (clock : Clock) (db : LatLng S) (n : string)
    (v : VersionedCollection) (o : SearchOptions)
    (Hfound : db_collections db !! n = Some v)
    (Hserved : served (collection v) (now_millis clock) o) :
  let c := collection v in
  let now_ms := now_millis clock in
  if fast_limited_ids o then
    (∃ r, op_scan p clock db n o = Some (Ok r) ∧
          limited_ids_ok (reference_matches c now_ms false o) (page_limit o) r) ∧
    (∃ r, op_search p clock db n o = Some (Ok r) ∧
          limited_ids_ok (reference_matches c now_ms true o) (page_limit o) r)
  else
    op_scan p clock db n o =
      Some (map_err CIndex (apply_search_options p
              (snapshot_candidates_owned (all_live_objects c now_ms)) o None false)) ∧
    op_search p clock db n o =
      Some (map_err CIndex (apply_search_options p
              (string_snapshot_candidates_owned (all_live_objects c now_ms)) o None false)).
Proof.
  intros c now_ms.
  assert (op_scan p clock db n o = listing false p c now_ms o ∧
          op_search p clock db n o = listing true p c now_ms o) as [-> ->].
  { unfold op_scan, op_search. rewrite (sv_valid _ _ _ Hserved), (find_collection_Some db n v Hfound).
    split; reflexivity. }
  destruct (fast_limited_ids o) eqn:Hfast.
  - split; by apply listing_limited.
  - split; by rewrite listing_paged.
Qed.

(** C35: NEARBY finds exactly the live objects whose indexed centre lies within
    the distance: the answer is the one computed from a scan of all of them;
    the unfiltered id listing holds distinct ones, as many as asked for. *)
Theorem nearby_finds_all (p : bool) (clock : Clock) (db : LatLng S) (n : string)
    (v : VersionedCollection) (q : NearbyQuery)
    (Hfound : db_collections db !! n = Some v) (Hinv : collection_inv (collection v))
    (Hpoint : validate_lat_lon (nq_lat q) (nq_lon q) = Ok tt)
    (Hmeters : validate_meters (nq_meters q) = Ok tt)
    (Hvalid : validate_options (nq_options q) = Ok tt)
    (Hdist : ∀ ob d, live_in (collection v) (now_millis clock) ob →
       candidate_distance ob (nq_lat q) (nq_lon q) = Some d → is_nan d = false) :
  let o := nq_options q in
  let refs := filter (λ ob, near (nq_lat q) (nq_lon q) (nq_meters q) ob)
                (all_live_objects (collection v) (now_millis clock)) in
  if fast_limited_ids o && negb (has_filters o) then
    ∃ r, op_nearby p clock db n q = Ok r ∧ limited_ids_ok refs (page_limit o) r
  else
    op_nearby p clock db n q =
    map_err CIndex
      (apply_search_options p (nearby_candidates refs (nq_lat q) (nq_lon q)) o None false).
Proof.
  intros o refs. set (c := collection v) in *. set (now_ms := now_millis clock) in *.
  destruct (nearby_objects c now_ms (nq_lat q) (nq_lon q) (nq_meters q) Hinv) as [Hnd Hp].
  fold refs in Hp.
  assert (NoDup (id <$> refs)) as Hrefs.
  { eapply sublist_NoDup; [apply (all_live_NoDup c now_ms Hinv)|]. apply fmap_sublist, sublist_filter. }
  unfold op_nearby. rewrite Hpoint, Hmeters, Hvalid, (find_collection_Some db n v Hfound).
  cbn [map_err rbind]. fold o c now_ms. destruct (fast_limited_ids o && negb (has_filters o)).
  - apply (visited_limited c now_ms (limit o) _ _ (λ _, true)); [| |done].
    + apply Forall_forall. intros i _. by destruct (objects c !! i).
    + by rewrite filter_true.
  - do 2 f_equal. apply nearby_candidates_perm; [done|done|].
    intros ob d [_ Hob]%list_elem_of_filter. apply Hdist. by apply elem_of_all_live_objects.
Qed.

(** C36: on a collection that exists and whose indexes agree with its objects,
    WITHIN and INTERSECTS, in both builds, with a valid area that resolves and
    has an envelope and with valid options, find exactly the live objects that
    pass the envelope test and the geometric predicate; no object makes the
    predicate fail. *)
Theorem area_queries_find_all (predicate : AreaPredicate) (p : bool) (clock : Clock)
    (db : LatLng S) (n : string) (v : VersionedCollection) (area a : Area) (bounds : BoundingBox)
    (o : SearchOptions)
    (Hfound : db_collections db !! n = Some v) (Hinv : collection_inv (collection v))
    (Harea : validate_area area = Ok tt) (Hvalid : validate_options o = Ok tt)
    (Hresolved : (resolve_area clock area db).2 = Ok a) (Hbounds : area_envelope a = Ok bounds) :
  let refs := area_reference predicate (collection v) (now_millis clock) a bounds in
  if fast_limited_ids o then
    ∃ r, op_area predicate p clock db n area o = Ok r ∧
         limited_ids_ok (filter (λ ob, matchesb o ob) refs) (page_limit o) r
  else
    op_area predicate p clock db n area o =
    map_err CIndex
      (apply_search_options p (snapshot_candidates_owned refs) o (Some a)
         (match predicate with Within => false | Intersects => true end)).
Proof.
  intros refs.
  assert (op_area predicate p clock db n area o =
    area_query predicate p (collection v) (now_millis clock) a bounds o) as ->.
  { unfold op_area, op_within, op_intersects.
    destruct predicate; rewrite Harea, Hvalid, Hresolved, (find_collection_Some db n v Hfound);
      cbn [map_err rbind]; by rewrite Hbounds. }
  destruct (fast_limited_ids o) eqn:Hfast; [by apply area_query_limited | by apply area_query_paged].
Qed.

End OnDatabase.
End QueriesSpec.

(** ** Queries on a concrete fleet *)
Module QueriesWitness.
Import ListTree NoGeoJson SortSelect PlainText.

(** Geometry crates that know rectangles and points. *)
Definition in_rect (r : Coord * Coord) (c : Coord) : bool :=
  SFleb (coord_x r.1) (coord_x c) && SFleb (coord_x c) (coord_x r.2) &&
  SFleb (coord_y r.1) (coord_y c) && SFleb (coord_y c) (coord_y r.2).

Definition rect_test (a b : Geometry) : bool :=
  match a, b with GRect r, GPoint c => in_rect r c | _, _ => false end.

#[local] Instance planar : GeoCrate := {
  geo_types := types;
  linestring_from l := l;
  polygon_new l := l;
  rect_new a b := (a, b);
  rect_min := fst;
  rect_max := snd;
  rect_to_polygon r := [r.1; r.2];
  triangle_to_polygon _ := [];
  coord_eqb a b := SFeqb (coord_x a) (coord_x b) && SFeqb (coord_y a) (coord_y b);
  geo_contains := rect_test;
  geo_intersects := rect_test;
  intersection a _ := a;
  clip_lines _ l := l;
  bounding_rect _ := None;
  parse_geojson _ := Err "not GeoJSON";
  geometry_to_geojson_value _ := VNull
}.

Definition truck : Object :=
  mkObject "truck" (GtPoint (f64_of_Z 1) (f64_of_Z 2) None)
    {[ "speed" := FNumber (f64_of_Z 5) ]} (Some 1000%Z).
Definition fleet : Collection := (upsert (collection_new "fleet") truck).1.
Definition db : LatLng unit :=
  mkDb {[ "fleet" := mkVersioned 1 fleet ]} (registry_new 4) tt default_config 1 0.
Definition noon : Clock := mkClock 500 0.

Lemma fleet_inv : collection_inv fleet.
Proof.
  apply (collection_reachable "fleet"), rtc_once, (step_upsert _ truck).
  - intros b [= <-]. split_and!; reflexivity.
  - apply pair_with_snd. vm_compute. reflexivity.
Qed.

Lemma fleet_objects ob : live_in fleet 500 ob → ob = truck.
Proof.
  intros [Ho _]. assert (objects fleet = {[ "truck" := truck ]}) as Hf by (vm_compute; reflexivity).
  rewrite Hf in Ho. by apply lookup_singleton_Some in Ho as [_ ->].
Qed.

Definition speeding : SearchOptions :=
  mkOptions 0 10 true false None Asc [mkWhere "speed" (Range (f64_of_Z 4) (f64_of_Z 6))] []
    [mkWhereExpr "speed > 3 && speed <= 5 || z == 1"] false Ids.

Lemma validated_filters_never_fail_witness : ∃ b, matches_candidate truck speeding = Ok b.
Proof. apply (validated_filters_never_fail speeding truck). vm_compute. reflexivity. Defined.

Lemma speeding_served : served fleet 500 speeding.
Proof.
  split.
  - apply fleet_inv.
  - vm_compute. reflexivity.
  - intros ob ->%fleet_objects. split_and!; [reflexivity| |].
    + intros f ->%list_elem_of_singleton. exact I.
    + intros f Hf. by apply elem_of_nil in Hf.
  - intros f min max ->%list_elem_of_singleton [= <- <-]. vm_compute. reflexivity.
Qed.

Lemma listings_equal_full_scan_witness :
  ∃ r, op_scan true noon db "fleet" speeding = Some (Ok r) ∧
       limited_ids_ok (reference_matches fleet 500 false speeding) (page_limit speeding) r.
Proof.
  pose proof (listings_equal_full_scan true noon db "fleet" (mkVersioned 1 fleet) speeding
                eq_refl speeding_served) as H.
  cbv zeta in H. cbn [collection now_millis noon] in H.
  change (fast_limited_ids speeding) with true in H. exact (proj1 H).
Defined.

Definition around : NearbyQuery :=
  mkNearby (f64_of_Z 1) (f64_of_Z 2) (f64_of_Z 100) default_search_options.

Lemma nearby_finds_all_witness :
  op_nearby false noon db "fleet" around =
  map_err CIndex
    (apply_search_options false
       (nearby_candidates
          (filter (λ ob, near (f64_of_Z 1) (f64_of_Z 2) (f64_of_Z 100) ob)
             (all_live_objects fleet 500)) (f64_of_Z 1) (f64_of_Z 2))
       default_search_options None false).
Proof.
  assert (∀ ob d, live_in fleet 500 ob →
    candidate_distance ob (f64_of_Z 1) (f64_of_Z 2) = Some d → is_nan d = false) as Hdist.
  { intros ob d ->%fleet_objects Hd. revert Hd. vm_compute. by intros [= <-]. }
  pose proof (nearby_finds_all false noon db "fleet" (mkVersioned 1 fleet) around eq_refl fleet_inv
    ltac:(vm_compute; reflexivity) ltac:(vm_compute; reflexivity) ltac:(vm_compute; reflexivity)
    Hdist) as H.
  cbv zeta in H. cbn [collection now_millis noon around nq_lat nq_lon nq_meters nq_options] in H.
  change (fast_limited_ids default_search_options) with false in H. exact H.
Defined.

Definition square : Area :=
  ABounds (box_new (f64_of_Z 0) (f64_of_Z 0) (f64_of_Z 3) (f64_of_Z 3)).

Lemma area_queries_find_all_witness :
  ∃ r, op_within true noon db "fleet" square speeding = Ok r ∧
       limited_ids_ok
         (filter (λ ob, matchesb speeding ob)
            (area_reference Within fleet 500 square
               (box_new (f64_of_Z 0) (f64_of_Z 0) (f64_of_Z 3) (f64_of_Z 3))))
         (page_limit speeding) r.
Proof.
  pose proof (area_queries_find_all Within true noon db "fleet" (mkVersioned 1 fleet) square square
    (box_new (f64_of_Z 0) (f64_of_Z 0) (f64_of_Z 3) (f64_of_Z 3)) speeding eq_refl fleet_inv
    ltac:(vm_compute; reflexivity) ltac:(vm_compute; reflexivity) ltac:(vm_compute; reflexivity)
    ltac:(vm_compute; reflexivity)) as H.
  cbv zeta in H. cbn [collection now_millis noon op_area] in H.
  change (fast_limited_ids speeding) with true in H. exact H.
Defined.

(** The query finds the truck. *)
Example truck_is_within :
  rmap (fmap item_id ∘ results) (op_within true noon db "fleet" square speeding) = Ok ["truck"].
Proof. vm_compute. reflexivity. Qed.

End QueriesWitness.
