(* ===== verification/EngineSpec.v ===== *)
(** * What the log means

    A [View] is what a client can observe of the database apart from the
    clock: the objects of every collection, the channels and the hooks with
    their definitions.  [spec_apply] gives each logged command its meaning on
    views, with no index, version, fence state or subscriber in sight.

    The theorems show that replaying a log through the engine's
    [apply_persisted_command] computes exactly that meaning, failure
    included, and that garbage collection removes exactly the expired
    objects. *)

From Stdlib Require Import ZArith Lia SpecFloat.
From stdpp Require Import base gmap strings list sorting.
From S2P Require Import Prelude Storage F64 Json Platform Geo Strings Index IndexSpec Geofence.
From S2P Require Import GeofenceSpec Collection CollectionSpec Engine.

(** ** Views *)

Record View := mkView {
  v_objects : gmap string (gmap string Object);
  v_channels : gmap string GeofenceDef;
  v_hooks : gmap string (string * GeofenceDef)
}.

Definition empty_view : View := mkView ∅ ∅ ∅.

Definition edit_objects (v : View)
    (f : gmap string (gmap string Object) → gmap string (gmap string Object)) : View :=
  mkView (f (v_objects v)) (v_channels v) (v_hooks v).

Definition edit_object (v : View) (n i : string) (f : Object → Object) : View :=
  edit_objects v (alter (alter f i) n).

Definition edit_geojson (f : Value → Value) (o : Object) : Object :=
  match geo o with GtGeoJson json => with_geo o (GtGeoJson (f json)) | _ => o end.

Definition evaluable (d : GeofenceDef) : bool := is_ok (ensure_geofence_evaluable d).

Section Spec.
Context `{LM : Libm} `{GC : GeoCrate} `{JT : JsonText} `{PT : Patterns}.

Definition indexable (g : GeoType) : bool := is_ok (geo_envelope g).

(** Storing an object creates its collection; a geometry without an envelope
    is refused. *)
Definition put_object (v : View) (n : string) (o : Object) : option View :=
  if indexable (geo o)
  then Some (edit_objects v (λ m, <[n := <[id o := o]> (default ∅ (m !! n))]> m))
  else None.

Definition drop_matching {A} (pattern : string) (m : gmap string A) : gmap string A :=
  filter (λ kv, ¬ glob_match pattern kv.1) m.

(** The meaning of a command; [None] when replaying it fails. *)
Definition spec_apply (clock : Clock) (v : View) (cmd : Command) : option View :=
  match cmd with
  | CmdSet q =>
      put_object v (sr_collection q)
        (mkObject (sr_id q) (sr_object q) (field_entries_to_map (sr_fields q))
           (expiry_of clock (sr_expire_seconds q)))
  | CmdSetPersisted q =>
      put_object v (ps_collection q)
        (mkObject (ps_id q) (ps_object q) (field_entries_to_map (ps_fields q))
           (ps_expires_at_ms q))
  | CmdDel n i => Some (edit_objects v (alter (delete i) n))
  | CmdDropCollection n => Some (edit_objects v (delete n))
  | CmdRename n n' =>
      Some (edit_objects v (λ m, match m !! n with
                                 | Some os => <[n' := os]> (delete n m)
                                 | None => m
                                 end))
  | CmdFset n i fs _ =>
      Some (edit_object v n i (λ o, with_fields o (apply_field_updates (fields o) fs)))
  | CmdExpire n i seconds =>
      Some (edit_object v n i (λ o, with_expiry o (expiry_of clock (Some seconds))))
  | CmdExpireAt n i d => Some (edit_object v n i (λ o, with_expiry o (Some d)))
  | CmdPersist n i => Some (edit_object v n i (λ o, with_expiry o None))
  | CmdJset n i path value raw =>
      Some (edit_object v n i
              (edit_geojson (λ j, (set_json_path j path (jset_payload value raw)).1)))
  | CmdJdel n i path =>
      Some (edit_object v n i (edit_geojson (λ j, (delete_json_path j path).1)))
  | CmdCreateCollection n => Some (edit_objects v (λ m, <[n := default ∅ (m !! n)]> m))
  | CmdSetHook n url d =>
      Some (if evaluable d then mkView (v_objects v) (v_channels v) (<[n := (url, d)]> (v_hooks v))
            else v)
  | CmdDelHook n => Some (mkView (v_objects v) (v_channels v) (delete n (v_hooks v)))
  | CmdPDelHook pattern =>
      Some (mkView (v_objects v) (v_channels v) (drop_matching pattern (v_hooks v)))
  | CmdSetChannel n d =>
      Some (if evaluable d then mkView (v_objects v) (<[n := d]> (v_channels v)) (v_hooks v) else v)
  | CmdDelChannel n => Some (mkView (v_objects v) (delete n (v_channels v)) (v_hooks v))
  | CmdPDelChannel pattern =>
      Some (mkView (v_objects v) (drop_matching pattern (v_channels v)) (v_hooks v))
  | CmdFlushDb => Some empty_view
  end.

Fixpoint spec_run (clock : Clock) (v : View) (cmds : list Command) : option View :=
  match cmds with
  | [] => Some v
  | c :: rest => v' ← spec_apply clock v c; spec_run clock v' rest
  end.

Lemma spec_run_app clock cmds1 cmds2 : ∀ v,
  spec_run clock v (cmds1 ++ cmds2) = (v' ← spec_run clock v cmds1; spec_run clock v' cmds2).
Proof.
  induction cmds1 as [|c cmds1 IH]; intros v; simpl; [done|].
  destruct (spec_apply clock v c); simpl; auto.
Qed.

Section Replay.
Context `{LC : LogCodec}.

Definition spec_entry (clock : Clock) (v : View) (e : StorageEntry) : option View :=
  match decode_log_record (command e) with
  | Err _ => None
  | Ok (LCommand cmd) => spec_apply clock v cmd
  | Ok _ => Some v
  end.

Fixpoint spec_replay (clock : Clock) (v : View) (es : list StorageEntry) : option View :=
  match es with
  | [] => Some v
  | e :: rest => v' ← spec_entry clock v e; spec_replay clock v' rest
  end.

Lemma spec_replay_app clock es1 es2 : ∀ v,
  spec_replay clock v (es1 ++ es2) =
  (v' ← spec_replay clock v es1; spec_replay clock v' es2).
Proof.
  induction es1 as [|e es1 IH]; intros v; simpl; [done|].
  destruct (spec_entry clock v e); simpl; auto.
Qed.

End Replay.
End Spec.

(** The objects that have not expired at [now_ms]. *)
Definition live_objects (now_ms : Z) (os : gmap string Object) : gmap string Object :=
  filter (λ io, is_expired now_ms io.2 = false) os.

Definition live (now_ms : Z) (v : View) : View := edit_objects v (fmap (live_objects now_ms)).

(** ** The view of an engine state *)

Section View.
Context `{LM : Libm} `{GC : GeoCrate} `{RC : RTreeCrate} `{JT : JsonText} `{PT : Patterns}
  `{HO : HashOrder}.

Definition cell_objects (v : VersionedCollection) : gmap string Object := objects (collection v).

Definition hook_view (h : StoredHook) : string * GeofenceDef := (endpoint h, hook_def_of h).

Definition view_of (cs : Collections) (r : GeofenceRegistry) : View :=
  mkView (cell_objects <$> cs) (fence_def <$> channels r) (hook_view <$> hooks r).

Lemma view_lookup cs r n :
  v_objects (view_of cs r) !! n = cell_objects <$> cs !! n.
Proof. unfold view_of. simpl. by rewrite lookup_fmap. Qed.

(** Writing one cell of the catalogue. *)
Lemma view_put cs r n c :
  view_of (<[n := c]> cs) r = edit_objects (view_of cs r) (<[n := cell_objects c]>).
Proof. unfold view_of, edit_objects. simpl. by rewrite fmap_insert. Qed.

Lemma view_put_edit cs r n c f c' :
  cs !! n = Some c → cell_objects c' = f (cell_objects c) →
  view_of (<[n := c']> cs) r = edit_objects (view_of cs r) (alter f n).
Proof.
  intros Hn Hc. rewrite view_put. unfold edit_objects. f_equal.
  rewrite (alter_Some _ _ _ (cell_objects c)), Hc; [done|]. by rewrite view_lookup, Hn.
Qed.

Lemma view_absent_edit cs r n f :
  cs !! n = None → view_of cs r = edit_objects (view_of cs r) (alter f n).
Proof.
  intros Hn. unfold edit_objects, view_of. simpl. f_equal.
  rewrite alter_None; [done|]. by rewrite lookup_fmap, Hn.
Qed.

(** ** Collection operations on objects

    What replay needs of a collection: objects sit under their own id and the
    deadline set is theirs.  It does not depend on the spatial index. *)

Definition cell_inv (c : Collection) : Prop :=
  (∀ i o, objects c !! i = Some o → id o = i) ∧ expirations_ok (expirations c) (objects c).

Lemma cell_inv_new n : cell_inv (collection_new n).
Proof. destruct (collection_new_inv n) as (? & _ & _ & ?). by split. Qed.

Lemma upsert_cell c o c' : cell_inv c → upsert c o = (c', Ok tt) →
  cell_inv c' ∧ objects c' = <[id o := o]> (objects c).
Proof.
  intros [Hid Hx] Hup. unfold upsert in Hup.
  assert (∀ i o', <[id o := o]> (objects c) !! i = Some o' → id o' = i) as Hid'.
  { intros i o'. rewrite lookup_insert_Some. intros [[<- <-]|[_ ?]]; auto. }
  destruct (objects c !! id o) as [p|] eqn:Hp;
    destruct (spatial_insert _ (id o) (geo o)) as [s' [[]|e]]; simplify_eq;
    (split; [split; [done|]|done]); simpl.
  - rewrite <-(insert_delete_eq (objects c)).
    apply expirations_insert_ok; [apply lookup_delete_eq|]. by apply expirations_delete_ok.
  - by apply expirations_insert_ok.
Qed.

Lemma remove_objects c i : objects (remove c i).1 = delete i (objects c).
Proof.
  unfold remove. destruct (objects c !! i) eqn:Hi; simpl; [done|]. by rewrite delete_id.
Qed.

Lemma remove_removed c i : (remove c i).2 = objects c !! i.
Proof. unfold remove. by destruct (objects c !! i). Qed.

Lemma remove_cell c i : cell_inv c → cell_inv (remove c i).1.
Proof.
  intros [Hid Hx]. split.
  - intros j o. rewrite remove_objects, lookup_delete_Some. intros [_ ?]. auto.
  - rewrite remove_objects. unfold remove. destruct (objects c !! i) as [o|] eqn:Hi; simpl.
    + rewrite (Hid _ _ Hi). by apply expirations_delete_ok.
    + by rewrite delete_id.
Qed.

Lemma set_expiry_objects c i d :
  objects (set_expiry c i d).1 = alter (λ o, with_expiry o d) i (objects c).
Proof.
  unfold set_expiry. destruct (objects c !! i) as [o|] eqn:Hi; simpl.
  - by rewrite (alter_Some _ _ _ o).
  - by rewrite alter_None.
Qed.

Lemma set_expiry_cell c i d : cell_inv c → cell_inv (set_expiry c i d).1.
Proof.
  intros [Hid Hx]. unfold set_expiry. destruct (objects c !! i) as [o|] eqn:Hi; simpl; [|by split].
  split; simpl.
  - intros j o'. rewrite lookup_insert_Some. intros [[<- <-]|[_ ?]]; simpl; auto.
  - rewrite <-(insert_delete_eq (objects c)).
    apply (expirations_insert_ok _ _ i (with_expiry o d)); [apply lookup_delete_eq|].
    by apply expirations_delete_ok.
Qed.

Lemma insert_fields_objects c i fs :
  objects (insert_fields c i fs).1 =
  alter (λ o, with_fields o (apply_field_updates (fields o) fs)) i (objects c).
Proof.
  unfold insert_fields. destruct (objects c !! i) as [o|] eqn:Hi; simpl.
  - by rewrite (alter_Some _ _ _ o).
  - by rewrite alter_None.
Qed.

(** An edit that keeps the id and the deadline of the object it changes. *)
Lemma edit_cell c c' i o o' : cell_inv c → objects c !! i = Some o →
  objects c' = <[i := o']> (objects c) → expirations c' = expirations c →
  id o' = id o → expires_at o' = expires_at o → cell_inv c'.
Proof.
  intros [Hid Hx] Hi Hobj Hex Ho' He. split; rewrite Hobj.
  - intros j x. rewrite lookup_insert_Some. intros [[<- <-]|[_ ?]]; [|auto].
    rewrite Ho'. auto.
  - rewrite Hex. eapply expirations_ok_ext; [|exact Hx]. intros j.
    destruct (decide (i = j)) as [<-|].
    + rewrite lookup_insert_eq, Hi. simpl. by rewrite He.
    + by rewrite lookup_insert_ne.
Qed.

Lemma insert_fields_cell c i fs : cell_inv c → cell_inv (insert_fields c i fs).1.
Proof.
  intros Hc. unfold insert_fields. destruct (objects c !! i) as [o|] eqn:Hi; [|done].
  by eapply edit_cell.
Qed.

Lemma rename_cell c n : cell_inv c → cell_inv (rename_collection c n).
Proof. done. Qed.

(** *** Replaying one command *)

Definition cells_inv (cs : Collections) : Prop := map_Forall (λ _ v, cell_inv (collection v)) cs.

Lemma cells_inv_put cs n v : cells_inv cs → cell_inv (collection v) → cells_inv (<[n := v]> cs).
Proof. intros Hcs Hv. by apply map_Forall_insert_2. Qed.

Lemma ensure_cell_inv cs n : cells_inv cs → cell_inv (collection (ensure_cell cs n)).
Proof.
  intros Hcs. unfold ensure_cell. destruct (cs !! n) as [v|] eqn:Hn; simpl.
  - exact (Hcs n v Hn).
  - apply cell_inv_new.
Qed.

Lemma ensure_cell_objects cs r n :
  cell_objects (ensure_cell cs n) = default ∅ (v_objects (view_of cs r) !! n).
Proof. rewrite view_lookup. unfold ensure_cell. by destruct (cs !! n). Qed.

(** What storing an object in a cell does, in a collection that exists or not. *)
Lemma upsert_in_spec cs r n o : cells_inv cs →
  match put_object (view_of cs r) n o with
  | Some v => (upsert_in cs n o).2 = Ok tt ∧ view_of (upsert_in cs n o).1 r = v ∧
              cells_inv (upsert_in cs n o).1
  | None => ∃ e, (upsert_in cs n o).2 = Err e
  end.
Proof.
  intros Hcs. unfold put_object, indexable, upsert_in.
  pose proof (upsert_result (collection (ensure_cell cs n)) o) as Hres.
  pose proof (ensure_cell_inv cs n Hcs) as Hc.
  destruct (geo_envelope (geo o)) as [b|e]; simpl;
    destruct (upsert (collection (ensure_cell cs n)) o) as [c' [[]|e']] eqn:Hup;
    simpl in Hres; simplify_eq; cbn [fst snd]; [|eauto].
  destruct (upsert_cell _ _ _ Hc Hup) as [Hc' Hobj]. split_and!; [done| |].
  - rewrite view_put. unfold edit_objects. f_equal. rewrite <-ensure_cell_objects.
    unfold cell_objects. simpl. by rewrite Hobj.
  - by apply cells_inv_put.
Qed.

(** ** Registry operations on definitions *)

Lemma set_channel_view cs r n d :
  view_of cs (set_channel r n d) =
  mkView (v_objects (view_of cs r)) (<[n := d]> (v_channels (view_of cs r)))
    (v_hooks (view_of cs r)).
Proof.
  unfold set_channel, view_of. destruct (channels r !! n) as [f|];
    [destruct (remove_indexes _ _ n (fence_def f)) as [bc bt]|]; simpl; by rewrite insert_delete_eq, fmap_insert.
Qed.

Lemma set_hook_view cs r n url d :
  view_of cs (set_hook r n url d) =
  mkView (v_objects (view_of cs r)) (v_channels (view_of cs r))
    (<[n := (url, d)]> (v_hooks (view_of cs r))).
Proof.
  unfold set_hook, view_of. destruct (hooks r !! n) as [f|];
    [destruct (remove_indexes _ _ n (hook_def_of f)) as [bc bt]|]; simpl; by rewrite insert_delete_eq, fmap_insert.
Qed.

Lemma del_channel_defs r n :
  channels (del_channel r n).1 = delete n (channels r) ∧ hooks (del_channel r n).1 = hooks r.
Proof.
  unfold del_channel. destruct (channels r !! n) eqn:Hn; simpl; [done|].
  by rewrite delete_id.
Qed.

Lemma del_hook_defs r n :
  hooks (del_hook r n).1 = delete n (hooks r) ∧ channels (del_hook r n).1 = channels r.
Proof.
  unfold del_hook. destruct (hooks r !! n) eqn:Hn; simpl; [done|].
  by rewrite delete_id.
Qed.

(** Deleting the names a glob selects, one by one. *)
Lemma foldl_delete_lookup {A} (names : list string) : ∀ (m : gmap string A) k,
  foldl (λ m n, delete n m) m names !! k = if bool_decide (k ∈ names) then None else m !! k.
Proof.
  induction names as [|n names IH]; intros m k; [done|]. simpl. rewrite IH.
  destruct (decide (k = n)) as [->|Hne].
  - rewrite lookup_delete_eq. rewrite (bool_decide_eq_true_2 (n ∈ n :: names)) by (by left).
    by destruct (bool_decide _).
  - rewrite lookup_delete_ne by done.
    rewrite (bool_decide_ext (k ∈ n :: names) (k ∈ names)); [done|]. rewrite elem_of_cons. tauto.
Qed.

Lemma foldl_delete_glob {A} (pattern : string) (m : gmap string A) :
  foldl (λ m n, delete n m) m (glob_names m pattern) = drop_matching pattern m.
Proof.
  apply map_eq. intros k. rewrite foldl_delete_lookup. unfold drop_matching.
  case_bool_decide as Hk; unfold glob_names in Hk; rewrite list_elem_of_filter in Hk.
  - symmetry. apply map_lookup_filter_None. right. intros x _ Hx. simpl in Hx. tauto.
  - destruct (m !! k) as [x|] eqn:Hm.
    + symmetry. apply map_lookup_filter_Some. split; [done|]. simpl. intros Hg. apply Hk.
      split; [done|]. apply list_elem_of_fmap. exists (k, x). split; [done|].
      by apply elem_of_hash_iter.
    + symmetry. apply map_lookup_filter_None. by left.
Qed.

Lemma pdel_channel_defs r pattern :
  channels (pdel_channel r pattern).1 = drop_matching pattern (channels r) ∧
  hooks (pdel_channel r pattern).1 = hooks r.
Proof.
  unfold pdel_channel. cbn [fst]. rewrite <-foldl_delete_glob.
  generalize (glob_names (channels r) pattern). intros names. revert r.
  induction names as [|n names IH]; intros r; [done|]. simpl.
  destruct (IH (del_channel r n).1) as [-> ->]. by destruct (del_channel_defs r n) as [-> ->].
Qed.

Lemma pdel_hook_defs r pattern :
  hooks (pdel_hook r pattern).1 = drop_matching pattern (hooks r) ∧
  channels (pdel_hook r pattern).1 = channels r.
Proof.
  unfold pdel_hook. cbn [fst]. rewrite <-foldl_delete_glob.
  generalize (glob_names (hooks r) pattern). intros names. revert r.
  induction names as [|n names IH]; intros r; [done|]. simpl.
  destruct (IH (del_hook r n).1) as [-> ->]. by destruct (del_hook_defs r n) as [-> ->].
Qed.

Lemma drop_matching_fmap {A B} (f : A → B) pattern (m : gmap string A) :
  f <$> drop_matching pattern m = drop_matching pattern (f <$> m).
Proof.
  apply map_eq. intros k. unfold drop_matching. apply option_eq. intros y.
  rewrite lookup_fmap, fmap_Some, map_lookup_filter_Some, lookup_fmap, fmap_Some.
  setoid_rewrite map_lookup_filter_Some. naive_solver.
Qed.

(** Preparing and applying a mutation leaves every definition as it is. *)
Lemma apply_prepared_view cs r p : view_of cs (apply_prepared_mutation r p) = view_of cs r.
Proof.
  unfold view_of, apply_prepared_mutation. simpl. f_equal.
  - apply map_eq. intros n. rewrite !lookup_fmap. apply fold_fence_defs.
  - apply map_eq. intros n. rewrite !lookup_fmap. apply fold_hook_defs.
Qed.

(** ** Replay computes the meaning of the log *)

Lemma set_expiry_in_spec cs r n i d : cells_inv cs →
  view_of (set_expiry_in cs n i d) r = edit_object (view_of cs r) n i (λ o, with_expiry o d) ∧
  cells_inv (set_expiry_in cs n i d).
Proof.
  intros Hcs. unfold set_expiry_in, edit_object. destruct (cs !! n) as [v|] eqn:Hn.
  2: { split; [by apply view_absent_edit | done]. }
  pose proof (set_expiry_objects (collection v) i d) as Hobj.
  pose proof (set_expiry_cell _ i d (Hcs n v Hn)) as Hc.
  destruct (set_expiry (collection v) i d) as [c' []];
    (split; [by eapply view_put_edit | by apply cells_inv_put]).
Qed.

Lemma edit_json_in_spec cs r n i f : cells_inv cs →
  view_of (edit_json_in cs n i f) r = edit_object (view_of cs r) n i (edit_geojson f) ∧
  cells_inv (edit_json_in cs n i f).
Proof.
  intros Hcs. unfold edit_json_in, edit_object. destruct (cs !! n) as [v|] eqn:Hn.
  2: { split; [by apply view_absent_edit | done]. }
  assert (∀ c', objects c' = alter (edit_geojson f) i (objects (collection v)) →
    view_of (<[n := bump v c']> cs) r =
    edit_objects (view_of cs r) (alter (alter (edit_geojson f) i) n)) as Hput.
  { intros c' Hc'. by eapply view_put_edit. }
  assert (alter (edit_geojson f) i (objects (collection v)) = objects (collection v) →
    view_of cs r = edit_objects (view_of cs r) (alter (alter (edit_geojson f) i) n)) as Hsame.
  { intros Ha. rewrite <-(Hput (collection v)) by done. rewrite view_put.
    unfold edit_objects, view_of. simpl. f_equal. symmetry. apply insert_id.
    by rewrite lookup_fmap, Hn. }
  destruct (objects (collection v) !! i) as [o|] eqn:Hi.
  2: { split; [|done]. apply Hsame. by rewrite alter_None. }
  assert (alter (edit_geojson f) i (objects (collection v)) =
          <[i := edit_geojson f o]> (objects (collection v))) as Halt by (by apply alter_Some).
  unfold edit_geojson in Halt at 2. destruct (geo o) as [| | |json|] eqn:Hg;
    try (split; [apply Hsame; rewrite Halt; by rewrite insert_id | done]).
  split; [by apply Hput|]. apply cells_inv_put; [done|]. simpl.
  by eapply (edit_cell (collection v)); [apply (Hcs n v) | ..].
Qed.

(** The two commands that store an object. *)
Lemma put_result cs r n o : cells_inv cs →
  match put_object (view_of cs r) n o with
  | Some v => ∃ cs' r', (let '(cs', res) := upsert_in cs n o in (cs', r, res)) = (cs', r', Ok tt) ∧
                        view_of cs' r' = v ∧ cells_inv cs'
  | None => ∃ cs' r' e, (let '(cs', res) := upsert_in cs n o in (cs', r, res)) = (cs', r', Err e)
  end.
Proof.
  intros Hcs. pose proof (upsert_in_spec cs r n o Hcs) as Hput.
  destruct (put_object _ _ _), (upsert_in cs n o) as [cs' res]; cbn [fst snd] in Hput.
  - destruct Hput as (-> & ? & ?). eauto.
  - destruct Hput as [e ->]. eauto.
Qed.

(** A command replayed on an engine state has the meaning [spec_apply] gives
    it on the view of that state, and fails when that is [None]. *)
Lemma apply_persisted_command_spec clock cs r cmd : cells_inv cs →
  match spec_apply clock (view_of cs r) cmd with
  | Some v => ∃ cs' r', apply_persisted_command clock cs r cmd = (cs', r', Ok tt) ∧
                        view_of cs' r' = v ∧ cells_inv cs'
  | None => ∃ cs' r' e, apply_persisted_command clock cs r cmd = (cs', r', Err e)
  end.
Proof.
  intros Hcs.
  destruct cmd as [q|n i|n|n n'|n i fs xx|n i secs|n i|n i path value raw|n i path|n url d|n|p|
                   n d|n|p| |q|n i d|n]; unfold spec_apply, apply_persisted_command.
  - apply (put_result cs r _ _ Hcs).
  - destruct (cs !! n) as [v|] eqn:Hn; do 2 eexists; (split_and!; [done| |]); try done.
    + eapply view_put_edit; [done|]. apply remove_objects.
    + apply cells_inv_put; [done|]. by apply remove_cell, (Hcs n v).
    + by apply view_absent_edit.
  - do 2 eexists. split_and!; [done| |by apply map_Forall_delete].
    unfold view_of. simpl. by rewrite fmap_delete.
  - destruct (cs !! n) as [v|] eqn:Hn; do 2 eexists; (split_and!; [done| |]); try done.
    + unfold edit_objects. rewrite view_lookup, Hn. unfold view_of. simpl.
      by rewrite fmap_insert, fmap_delete.
    + apply cells_inv_put; [by apply map_Forall_delete|]. by apply (Hcs n v).
    + unfold edit_objects. rewrite view_lookup, Hn. done.
  - destruct (cs !! n) as [v|] eqn:Hn.
    2: { do 2 eexists. split_and!; [done| |done]. by apply view_absent_edit. }
    pose proof (insert_fields_objects (collection v) i fs) as Hobj.
    pose proof (insert_fields_cell _ i fs (Hcs n v Hn)) as Hc.
    destruct (insert_fields (collection v) i fs) as [c' []]; do 2 eexists;
      (split_and!; [done|by eapply view_put_edit|by apply cells_inv_put]).
  - destruct (set_expiry_in_spec cs r n i (expiry_of clock (Some secs)) Hcs). eauto.
  - destruct (set_expiry_in_spec cs r n i None Hcs). eauto.
  - destruct (edit_json_in_spec cs r n i
                (λ json, (set_json_path json path (jset_payload value raw)).1) Hcs). eauto.
  - destruct (edit_json_in_spec cs r n i (λ json, (delete_json_path json path).1) Hcs). eauto.
  - do 2 eexists. split_and!; [done| |done]. unfold evaluable.
    destruct (is_ok _); [apply set_hook_view | done].
  - do 2 eexists. split_and!; [done| |done]. unfold view_of.
    destruct (del_hook_defs r n) as [-> ->]. by rewrite fmap_delete.
  - do 2 eexists. split_and!; [done| |done]. unfold view_of.
    destruct (pdel_hook_defs r p) as [-> ->]. by rewrite drop_matching_fmap.
  - do 2 eexists. split_and!; [done| |done]. unfold evaluable.
    destruct (is_ok _); [apply set_channel_view | done].
  - do 2 eexists. split_and!; [done| |done]. unfold view_of.
    destruct (del_channel_defs r n) as [-> ->]. by rewrite fmap_delete.
  - do 2 eexists. split_and!; [done| |done]. unfold view_of.
    destruct (pdel_channel_defs r p) as [-> ->]. by rewrite drop_matching_fmap.
  - do 2 eexists. split_and!; [done| |apply map_Forall_empty].
    unfold view_of. simpl. by rewrite !fmap_empty.
  - apply (put_result cs r _ _ Hcs).
  - destruct (set_expiry_in_spec cs r n i (Some d) Hcs). eauto.
  - do 2 eexists. split_and!; [done| |by apply cells_inv_put, ensure_cell_inv].
    rewrite view_put, (ensure_cell_objects cs r). done.
Qed.

Section Log.
Context `{LC : LogCodec}.

Lemma apply_persisted_entry_spec clock cs r e : cells_inv cs →
  match spec_entry clock (view_of cs r) e with
  | Some v => ∃ cs' r', apply_persisted_entry clock cs r e = (cs', r', Ok tt) ∧
                        view_of cs' r' = v ∧ cells_inv cs'
  | None => ∃ cs' r' err, apply_persisted_entry clock cs r e = (cs', r', Err err)
  end.
Proof.
  intros Hcs. unfold spec_entry, apply_persisted_entry.
  destruct (decode_log_record (command e)) as [[cmd| | | |]|err]; eauto.
  by apply apply_persisted_command_spec.
Qed.

(** Replaying a log through the engine computes the meaning of the log. *)
Lemma replay_loop_spec clock es : ∀ cs r last last0, cells_inv cs →
  match spec_replay clock (view_of cs r) es with
  | Some v => ∃ cs' r' last' last0',
      replay_loop (replay_callback clock) last0 (cs, r, last) es =
        ((cs', r', last'), Ok last0') ∧ view_of cs' r' = v ∧ cells_inv cs'
  | None => ∃ st err, replay_loop (replay_callback clock) last0 (cs, r, last) es = (st, Err err)
  end.
Proof.
  induction es as [|e es IH]; intros cs r last last0 Hcs; simpl; [eauto 10|].
  pose proof (apply_persisted_entry_spec clock cs r e Hcs) as He.
  destruct (spec_entry clock (view_of cs r) e) as [v|]; simpl.
  - destruct He as (cs' & r' & -> & <- & Hcs'). simpl.
    by apply IH.
  - destruct He as (cs' & r' & err & ->). simpl. eauto.
Qed.

End Log.

(** ** Garbage collection *)

Lemma remove_all_objects ids : ∀ c,
  objects (foldl (λ c i, (remove c i).1) c ids) = foldl (λ m i, delete i m) (objects c) ids.
Proof.
  induction ids as [|i ids IH]; intros c; [done|]. simpl. by rewrite IH, remove_objects.
Qed.

Lemma elem_of_all_due c now_ms i : cell_inv c →
  i ∈ due_expirations c now_ms (size (expirations c)) ↔
  ∃ o, objects c !! i = Some o ∧ is_expired now_ms o = true.
Proof.
  intros [_ Hx]. rewrite due_expirations_pairs, take_ge.
  2: { unfold due_pairs. etrans; [apply length_filter|].
       unfold expirations_iter. by rewrite (merge_sort_Permutation _). }
  rewrite list_elem_of_fmap. unfold due_pairs.
  setoid_rewrite list_elem_of_filter. setoid_rewrite elem_of_expirations_iter. split.
  - intros ([d j] & -> & Hd & Hin). apply Hx in Hin as (o & Ho & He). exists o.
    split; [done|]. unfold is_expired. by rewrite He.
  - intros (o & Ho & He). unfold is_expired in He. destruct (expires_at o) as [d|] eqn:Hd; [|done].
    exists (d, i). split_and!; [done..|]. apply Hx. eauto.
Qed.

Lemma gc_collection_spec now_ms v : cell_inv (collection v) →
  cell_objects (gc_collection now_ms v) = live_objects now_ms (cell_objects v) ∧
  cell_inv (collection (gc_collection now_ms v)).
Proof.
  intros Hc. set (ids := due_expirations (collection v) now_ms (size (expirations (collection v)))).
  assert (cell_objects (gc_collection now_ms v) =
            foldl (λ m i, delete i m) (cell_objects v) ids ∧
          cell_inv (collection (gc_collection now_ms v))) as [-> ?].
  { unfold gc_collection. fold ids. destruct ids as [|i rest]; [done|].
    split; [apply remove_all_objects|]. simpl collection.
    apply (foldl_inv cell_inv (λ c i, (remove c i).1)); auto using remove_cell. }
  split; [|done]. apply map_eq. intros i. rewrite foldl_delete_lookup. unfold live_objects.
  pose proof (elem_of_all_due (collection v) now_ms i Hc) as Hdue. fold ids in Hdue.
  apply option_eq. intros o. rewrite map_lookup_filter_Some. simpl.
  case_bool_decide as Hi; rewrite Hdue in Hi.
  - destruct Hi as (o' & Ho' & He). split; [done|]. intros [Ho Hne]. unfold cell_objects in Ho.
    congruence.
  - split; [|tauto]. intros Ho. split; [done|]. apply not_true_is_false. eauto.
Qed.

Lemma gc_collections_spec now_ms cs r : cells_inv cs →
  view_of (gc_collections now_ms cs) r = live now_ms (view_of cs r) ∧
  cells_inv (gc_collections now_ms cs).
Proof.
  intros Hcs. split.
  - unfold view_of, live, edit_objects, gc_collections. simpl. f_equal.
    rewrite <-!map_fmap_compose. apply map_fmap_ext. intros n v Hn.
    by apply gc_collection_spec, (Hcs n v).
  - intros n v. unfold gc_collections. rewrite lookup_fmap, fmap_Some.
    intros (v0 & Hn & ->). by apply gc_collection_spec, (Hcs n v0).
Qed.

End View.
