(* ===== verification/EngineLogic.v ===== *)
(** * What each operation does to the view and to the log

    A weakest precondition [wp] for the engine monad and, with it, one lemma
    per client operation: whatever the operation answers, the view it leaves
    is the old view changed by the commands it has logged.  An operation
    that fails before its log record is durable logs nothing and changes
    nothing. *)

From Stdlib Require Import ZArith Lia SpecFloat.
From stdpp Require Import base gmap strings list sorting.
From S2P Require Import Prelude Storage F64 Json Platform Geo Strings Index IndexSpec Geofence.
From S2P Require Import GeofenceSpec Collection CollectionSpec Engine EngineSpec.

(** ** Well-formed views and applicable commands *)

Section Views.
Context `{LM : Libm} `{GC : GeoCrate} `{JT : JsonText} `{PT : Patterns}.

Definition find_object (v : View) (n i : string) : option Object := v_objects v !! n ≫= (.!! i).

(** What every view the engine reaches satisfies, and what a snapshot of the
    log needs to be replayed: objects sit under their id and can be indexed,
    fences can be evaluated. *)
Definition view_wf (v : View) : Prop :=
  (∀ n i o, find_object v n i = Some o → id o = i ∧ indexable (geo o) = true) ∧
  map_Forall (λ _ d, evaluable d = true) (v_channels v) ∧
  map_Forall (λ _ h, evaluable h.2 = true) (v_hooks v).

(** The commands an engine logs: edits name an object that is there, and no
    deadline is relative to a clock. *)
Definition applicable (v : View) (cmd : Command) : Prop :=
  match cmd with
  | CmdSet _ | CmdExpire _ _ _ => False
  | CmdFset n i _ _ | CmdExpireAt n i _ | CmdPersist n i => is_Some (find_object v n i)
  | CmdJset n i path value raw =>
      ∃ o, find_object v n i = Some o ∧
           indexable (geo (edit_geojson
             (λ j, (set_json_path j path (jset_payload value raw)).1) o)) = true
  | CmdJdel n i path =>
      ∃ o, find_object v n i = Some o ∧
           indexable (geo (edit_geojson (λ j, (delete_json_path j path).1) o)) = true
  | _ => True
  end.

(** A run of applicable commands, with the same outcome under every clock. *)
Inductive spec_steps : View → list Command → View → Prop :=
  | steps_nil v : spec_steps v [] v
  | steps_cons v cmd v1 cmds v' :
      applicable v cmd → (∀ clock, spec_apply clock v cmd = Some v1) →
      spec_steps v1 cmds v' → spec_steps v (cmd :: cmds) v'.

Lemma spec_steps_one v cmd v' :
  applicable v cmd → (∀ clock, spec_apply clock v cmd = Some v') → spec_steps v [cmd] v'.
Proof. intros. econstructor; [done..|constructor]. Qed.

Lemma spec_steps_app v cmds1 v1 cmds2 v2 :
  spec_steps v cmds1 v1 → spec_steps v1 cmds2 v2 → spec_steps v (cmds1 ++ cmds2) v2.
Proof. induction 1; intros; simpl; [done|]. econstructor; eauto. Qed.

Lemma find_alter v n i f n' i' :
  find_object (edit_object v n i f) n' i' =
  if decide (n = n' ∧ i = i') then f <$> find_object v n' i' else find_object v n' i'.
Proof.
  unfold find_object, edit_object, edit_objects. simpl.
  destruct (decide (n = n')) as [<-|Hn].
  - rewrite lookup_alter_eq. destruct (v_objects v !! n) as [os|]; simpl; [|by case_decide].
    destruct (decide (i = i')) as [<-|Hi].
    + rewrite lookup_alter_eq. by rewrite decide_True.
    + rewrite lookup_alter_ne by done. rewrite decide_False by tauto. done.
  - rewrite lookup_alter_ne by done. rewrite decide_False by tauto. done.
Qed.

Lemma find_put v n o v' : put_object v n o = Some v' →
  indexable (geo o) = true ∧
  ∀ n' i', find_object v' n' i' =
    if decide (n = n' ∧ id o = i') then Some o else find_object v n' i'.
Proof.
  unfold put_object. destruct (indexable (geo o)); intros [= <-]. split; [done|]. intros n' i'.
  unfold find_object, edit_objects. simpl. destruct (decide (n = n')) as [<-|Hn].
  - rewrite lookup_insert_eq. simpl. destruct (decide (id o = i')) as [<-|Hi].
    + rewrite lookup_insert_eq. by rewrite decide_True.
    + rewrite lookup_insert_ne by done. rewrite decide_False by tauto.
      by destruct (v_objects v !! n).
  - rewrite lookup_insert_ne by done. rewrite decide_False by tauto. done.
Qed.

(** Editing an object without changing its id keeps a view well formed when
    the edited object can be indexed. *)
Lemma edit_object_wf v n i f : view_wf v →
  (∀ o, find_object v n i = Some o → id (f o) = id o ∧ indexable (geo (f o)) = true) →
  view_wf (edit_object v n i f).
Proof.
  intros (Hobj & Hc & Hh) Hf. split_and!; [|done..]. intros n' i' o. rewrite find_alter.
  case_decide as Hcase; [|apply Hobj]. destruct Hcase as [<- <-].
  intros (o' & Ho' & ->)%fmap_Some. destruct (Hf o' Ho') as [-> ?].
  split; [by apply (Hobj n i) | done].
Qed.

Lemma put_object_wf v n o v' : view_wf v → put_object v n o = Some v' → view_wf v'.
Proof.
  intros (Hobj & Hc & Hh) Hput. pose proof (find_put _ _ _ _ Hput) as [Hix Hfind].
  unfold put_object in Hput. destruct (indexable (geo o)) eqn:Hi; simplify_eq. split_and!; [|done..].
  intros n' i' o'. rewrite Hfind. case_decide as Hcase; [|apply Hobj].
  destruct Hcase as [<- <-]. by intros [= <-].
Qed.

Lemma restrict_wf v v' : view_wf v →
  (∀ n i o, find_object v' n i = Some o → ∃ n', find_object v n' i = Some o) →
  v_channels v' ⊆ v_channels v → v_hooks v' ⊆ v_hooks v → view_wf v'.
Proof.
  intros (Hobj & Hc & Hh) Hsub Hcs Hhs. split_and!.
  - intros n i o [n' Hn']%Hsub. by eapply Hobj.
  - intros n d Hn. eapply Hc. by eapply lookup_weaken.
  - intros n d Hn. eapply Hh. by eapply lookup_weaken.
Qed.

Lemma filter_sub {A} pattern (m : gmap string A) : drop_matching pattern m ⊆ m.
Proof. apply map_filter_subseteq. Qed.

Lemma spec_apply_wf clock v cmd v' :
  view_wf v → applicable v cmd → spec_apply clock v cmd = Some v' → view_wf v'.
Proof.
  intros Hwf Happ Hs.
  destruct cmd as [q|n i|n|n n'|n i fs xx|n i secs|n i|n i path value raw|n i path|n url d|n|p|
                   n d|n|p| |q|n i d|n]; simpl in Happ; try done; unfold spec_apply in Hs;
    try (injection Hs as <-).
  - apply (restrict_wf v); [done| |done..]. intros n' i' o Ho. exists n'. revert Ho.
    unfold find_object, edit_objects. simpl. destruct (decide (n = n')) as [<-|].
    + rewrite lookup_alter_eq. destruct (v_objects v !! n); simpl; [|done].
      rewrite lookup_delete_Some. tauto.
    + by rewrite lookup_alter_ne.
  - apply (restrict_wf v); [done| |done..]. intros n' i' o Ho. exists n'. revert Ho.
    unfold find_object, edit_objects. simpl. rewrite !bind_Some.
    intros (os & [_ Hn]%lookup_delete_Some & Hi). eauto.
  - apply (restrict_wf v); [done| |done..]. unfold find_object, edit_objects. simpl.
    intros x i o. destruct (v_objects v !! n) as [os|] eqn:Hn; [|eauto].
    rewrite bind_Some. intros (os' & [[<- <-]|[_ [_ Hx]%lookup_delete_Some]]%lookup_insert_Some & Hi).
    + exists n. by rewrite Hn.
    + exists x. by rewrite Hx.
  - apply edit_object_wf; [done|]. intros o Ho. exact (conj eq_refl (proj2 (proj1 Hwf n i o Ho))).
  - apply edit_object_wf; [done|]. intros o Ho. exact (conj eq_refl (proj2 (proj1 Hwf n i o Ho))).
  - apply edit_object_wf; [done|]. intros o Ho. destruct Happ as (o' & Ho' & Hix).
    rewrite Ho in Ho'. simplify_eq. split; [|done]. unfold edit_geojson. by destruct (geo o').
  - apply edit_object_wf; [done|]. intros o Ho. destruct Happ as (o' & Ho' & Hix).
    rewrite Ho in Ho'. simplify_eq. split; [|done]. unfold edit_geojson. by destruct (geo o').
  - destruct (evaluable d) eqn:Hd; [|done]. destruct Hwf as (? & ? & ?). split_and!; [done..|].
    by apply map_Forall_insert_2.
  - apply (restrict_wf v); [done|eauto|done|]. apply delete_subseteq.
  - apply (restrict_wf v); [done|eauto|done|]. apply filter_sub.
  - destruct (evaluable d) eqn:Hd; [|done]. destruct Hwf as (? & ? & ?). split_and!; [done| |done].
    by apply map_Forall_insert_2.
  - apply (restrict_wf v); [done|eauto| |done]. apply delete_subseteq.
  - apply (restrict_wf v); [done|eauto| |done]. apply filter_sub.
  - split_and!; [|apply map_Forall_empty..]. intros n i o. unfold find_object. simpl.
    by rewrite lookup_empty.
  - by eapply put_object_wf.
  - apply edit_object_wf; [done|]. intros o Ho. exact (conj eq_refl (proj2 (proj1 Hwf n i o Ho))).
  - apply (restrict_wf v); [done| |done..]. intros n' i o Ho. exists n'. revert Ho.
    unfold find_object, edit_objects. simpl. rewrite !bind_Some.
    intros (os & [[<- <-]|[_ Hn]]%lookup_insert_Some & Hi); [|eauto].
    destruct (v_objects v !! n) as [os'|]; simpl in Hi; [eauto|]. by rewrite lookup_empty in Hi.
Qed.

Lemma spec_steps_wf v cmds v' : spec_steps v cmds v' → view_wf v → view_wf v'.
Proof.
  induction 1 as [|v cmd v1 cmds v' Happ Hs _ IH]; [done|]. intros Hwf. apply IH.
  eapply spec_apply_wf; [done..|]. apply (Hs (mkClock 0 0)).
Qed.

End Views.

(** ** A weakest precondition for the engine monad *)

Section Logic.
Context `{LM : Libm} `{GC : GeoCrate} `{RC : RTreeCrate} `{JT : JsonText} `{PT : Patterns}
  `{HO : HashOrder} `{LC : LogCodec} `{MD : Md5} `{B64 : Base64}.
Context {S : Type} `{SB : StorageBackend S} `{SL : !StorageLaws S}.

Implicit Types db : LatLng S.

Definition wp {A} (m : M A) (Q : LatLng S → result A CoreError → Prop) (db : LatLng S) : Prop :=
  Q (m db).1 (m db).2.

Lemma wp_ret {A} (a : A) Q db : Q db (Ok a) → wp (mret a) Q db.
Proof. done. Qed.
Lemma wp_fail {A} e (Q : LatLng S → result A CoreError → Prop) db :
  Q db (Err e) → wp (mfail e) Q db.
Proof. done. Qed.
Lemma wp_lift {A} (r : result A CoreError) Q db : Q db r → wp (mlift r) Q db.
Proof. done. Qed.
Lemma wp_get Q db : Q db (Ok db) → wp mget Q db.
Proof. done. Qed.
Lemma wp_bind {A B} (m : M A) (k : A → M B) Q db :
  wp m (λ db1 r, match r with
                 | Ok a => wp (k a) Q db1
                 | Err e => Q db1 (Err e)
                 end) db →
  wp (mbind m k) Q db.
Proof. unfold wp, mbind. by destruct (m db) as [db1 [a|e]]. Qed.

Lemma wp_mono {A} (m : M A) (Q1 Q2 : LatLng S → result A CoreError → Prop) db :
  wp m Q1 db → (∀ db' r, Q1 db' r → Q2 db' r) → wp m Q2 db.
Proof. unfold wp. auto. Qed.

Lemma wp_writable Q db :
  Q db (Ok tt) → Q db (Err ReadOnly) → wp ensure_writable Q db.
Proof. unfold wp, ensure_writable. simpl. by destruct (read_only (db_config db)). Qed.

(** ** The log *)

Definition view (db : LatLng S) : View := view_of (db_collections db) (db_geofences db).

Definition encodes (e : StorageEntry) (r : LogRecord) : Prop := json_to_vec r = Ok (command e).

Definition command_of (r : LogRecord) : option Command :=
  match r with LCommand c => Some c | _ => None end.

(** [es] are the encodings of records whose commands are [cmds]. *)
Definition encode_commands (es : list StorageEntry) (cmds : list Command) : Prop :=
  ∃ rs, Forall2 encodes es rs ∧ omap command_of rs = cmds.

Lemma encode_commands_app es1 cmds1 es2 cmds2 :
  encode_commands es1 cmds1 → encode_commands es2 cmds2 →
  encode_commands (es1 ++ es2) (cmds1 ++ cmds2).
Proof.
  intros (rs1 & ? & <-) (rs2 & ? & <-). exists (rs1 ++ rs2).
  split; [by apply Forall2_app | apply omap_app].
Qed.

(** A state whose storage works and keeps a log. *)
Definition ready (db : LatLng S) : Prop :=
  storage_inv (db_storage db) ∧ stores_command_log (db_storage db) = true ∧
  cells_inv (db_collections db).

(** [db1] differs from [db] in the log, where records of [cmds] follow, and in
    the sequence counter. *)
Definition appended (db db1 : LatLng S) (cmds : list Command) : Prop :=
  db_collections db1 = db_collections db ∧ db_geofences db1 = db_geofences db ∧
  storage_inv (db_storage db1) ∧ stores_command_log (db_storage db1) = true ∧
  ∃ es, committed (db_storage db1) = committed (db_storage db) ++ es ∧ encode_commands es cmds.

Lemma appended_nil db db1 :
  db_collections db1 = db_collections db → db_geofences db1 = db_geofences db →
  storage_inv (db_storage db1) → stores_command_log (db_storage db1) = true →
  committed (db_storage db1) = committed (db_storage db) → appended db db1 [].
Proof.
  intros. split_and!; [done..|]. exists []. rewrite app_nil_r. split; [done|]. by exists [].
Qed.

Lemma encode_entries_spec clock rs : ∀ seqs es,
  length seqs = length rs →
  encode_entries_for_sequences clock rs seqs = Ok es → Forall2 encodes es rs.
Proof.
  induction rs as [|r rs IH]; intros [|s seqs] es Hlen; simpl in *; try lia; intros He.
  { simplify_eq. constructor. }
  ok_inv He. injection He as <-. constructor; [|eapply IH; [|done]; lia].
  unfold encodes, encode_log_record in *. simpl. by destruct (json_to_vec r); simplify_eq/=.
Qed.

Lemma reserved_length next k : length (reserved next k) = k.
Proof. unfold reserved. by rewrite length_fmap, length_seq. Qed.

(** Reserving, encoding and appending, as both log functions do it. *)
Lemma append_entries_spec clock rs db db1 :
  ready db →
  db_collections db1 = db_collections db → db_geofences db1 = db_geofences db →
  db_storage db1 = db_storage db →
  ∀ seqs (Q : LatLng S → result (list Z) CoreError → Prop),
  length seqs = length rs →
  (∀ db2, appended db db2 (omap command_of rs) → Q db2 (Ok seqs)) →
  (∀ db2 e, appended db db2 [] → Q db2 (Err e)) →
  wp (mbind (mlift (encode_entries_for_sequences clock rs seqs))
        (λ es, mbind (append_entries es) (λ _, mret seqs))) Q db1.
Proof.
  intros (Hinv & Hst & _) Hc Hg Hs seqs Q Hlen Hok Herr. apply wp_bind, wp_lift.
  destruct (encode_entries_for_sequences clock rs seqs) as [es|e] eqn:He.
  2: { apply Herr. apply appended_nil; rewrite ?Hs; done. }
  apply wp_bind. unfold wp, append_entries. rewrite Hs.
  destruct (append_batch (db_storage db) es) as [s' [[]|e]] eqn:Ha; simpl.
  - apply Hok. destruct (append_batch_Ok _ _ _ Hinv Ha) as (? & Hcom & Hst').
    unfold appended. simpl. rewrite Hst'. split_and!; [done..|]. exists es. split; [done|].
    exists rs. split; [by eapply encode_entries_spec | done].
  - apply Herr. destruct (append_batch_Err _ _ _ _ Hinv Ha) as (? & Hcom & Hst').
    apply appended_nil; simpl; rewrite ?Hst'; done.
Qed.

Lemma number_webhooks_commands s ws : ∀ seqs k,
  omap command_of (number_webhooks s k seqs ws) = [].
Proof. induction ws as [|w ws IH]; intros [|s' seqs] k; simpl; auto. Qed.

Lemma number_webhooks_length s ws : ∀ seqs k,
  length seqs = length ws → length (number_webhooks s k seqs ws) = length ws.
Proof. induction ws as [|w ws IH]; intros [|s' seqs] k ?; simpl in *; auto with lia. Qed.

Lemma wp_persist clock cmd ws db (Q : LatLng S → result (list Z) CoreError → Prop) :
  ready db →
  (∀ db1 seqs, appended db db1 [cmd] → Q db1 (Ok seqs)) →
  (∀ db1 e, appended db db1 [] → Q db1 (Err e)) →
  wp (persist_command_batch clock cmd ws) Q db.
Proof.
  intros Hr Hok Herr. pose proof Hr as (_ & Hst & _). unfold persist_command_batch.
  apply wp_bind. unfold wp at 1, reserve_sequences. cbn [fst snd].
  apply wp_bind, wp_get. cbn [db_storage]. rewrite Hst. cbn [negb].
  set (seqs := reserved _ _).
  assert (length seqs = 1 + length ws) as Hlen by apply reserved_length.
  clearbody seqs. assert (omap command_of (build_command_batch_records cmd seqs ws) = [cmd]) as Hcmds.
  { unfold build_command_batch_records. simpl. by rewrite number_webhooks_commands. }
  apply (append_entries_spec _ _ db); auto.
  - unfold build_command_batch_records. simpl.
    rewrite number_webhooks_length; [lia|]. destruct seqs; simpl in *; lia.
  - intros db2. rewrite Hcmds. auto.
Qed.

Lemma wp_append_records clock rs db (Q : LatLng S → result (list Z) CoreError → Prop) :
  ready db →
  (∀ db1 seqs, appended db db1 (omap command_of rs) → Q db1 (Ok seqs)) →
  (∀ db1 e, appended db db1 [] → Q db1 (Err e)) →
  wp (append_log_records clock rs) Q db.
Proof.
  intros Hr Hok Herr. pose proof Hr as (Hinv & Hst & _). destruct rs as [|r rs].
  { apply wp_ret, Hok. by apply appended_nil. }
  unfold append_log_records. apply wp_bind, wp_get. rewrite Hst. cbn [negb].
  apply wp_bind. unfold wp at 1, reserve_sequences. cbn [fst snd].
  apply (append_entries_spec _ _ db); auto. apply reserved_length.
Qed.

Lemma wp_append clock cmd db (Q : LatLng S → result Z CoreError → Prop) :
  ready db →
  (∀ db1 seq, appended db db1 [cmd] → Q db1 (Ok seq)) →
  (∀ db1 e, appended db db1 [] → Q db1 (Err e)) →
  wp (append_log_record clock (LCommand cmd)) Q db.
Proof.
  intros Hr Hok Herr. apply wp_bind, wp_append_records; [done|..]; intros; auto.
  apply wp_ret. auto.
Qed.

(** ** Effects *)

(** From [db] to [db'] the log has grown by [cmds], and the view has changed
    as they say. *)
Record effect (db db' : LatLng S) (cmds : list Command) : Prop := mkEffect {
  eff_ready : ready db';
  eff_log : ∃ es, committed (db_storage db') = committed (db_storage db) ++ es ∧
                  encode_commands es cmds;
  eff_steps : spec_steps (view db) cmds (view db')
}.

Definition has_effect {A} (db : LatLng S) : LatLng S → result A CoreError → Prop :=
  λ db' _, ∃ cmds, effect db db' cmds.

Lemma effect_refl db : ready db → effect db db [].
Proof.
  intros Hr. split; [done| |constructor]. exists []. rewrite app_nil_r. split; [done|]. by exists [].
Qed.

Lemma effect_trans db db1 db2 cmds1 cmds2 :
  effect db db1 cmds1 → effect db1 db2 cmds2 → effect db db2 (cmds1 ++ cmds2).
Proof.
  intros [_ (es1 & Hc1 & He1) Hs1] [Hr (es2 & Hc2 & He2) Hs2]. split; [done| |].
  - exists (es1 ++ es2). rewrite Hc2, Hc1, app_assoc.
    split; [done | by apply encode_commands_app].
  - by eapply spec_steps_app.
Qed.

Lemma effect_append db db1 : ready db → appended db db1 [] → effect db db1 [].
Proof.
  intros (_ & _ & Hcs) (Hc & Hg & Hi & Hst & Hlog). split; [|done|].
  - split_and!; [done..|]. by rewrite Hc.
  - unfold view. rewrite Hc, Hg. constructor.
Qed.

(** The usual shape: log, then change the state as the log says. *)
Lemma effect_intro db db1 db' cmds :
  appended db db1 cmds → db_storage db' = db_storage db1 → cells_inv (db_collections db') →
  spec_steps (view db) cmds (view db') → effect db db' cmds.
Proof.
  intros (Hc & Hg & Hi & Hst & Hlog) Hs Hcs Hsteps. split; [|by rewrite Hs|done].
  unfold ready. rewrite Hs. done.
Qed.

Lemma has_effect_refl {A} db (r : result A CoreError) : ready db → has_effect db db r.
Proof. intros. exists []. by apply effect_refl. Qed.

Lemma has_effect_append {A} db db1 (r : result A CoreError) :
  ready db → appended db db1 [] → has_effect db db1 r.
Proof. intros. exists []. by apply effect_append. Qed.

(** ** Steps of an operation *)

Lemma wp_put_collections cs Q db :
  (∀ db', db_collections db' = cs → db_geofences db' = db_geofences db →
          db_storage db' = db_storage db → Q db' (Ok tt)) → wp (put_collections cs) Q db.
Proof. intros HQ. by apply HQ. Qed.

Lemma wp_put_collection n c Q db :
  (∀ db', db_collections db' = <[n := c]> (db_collections db) →
          db_geofences db' = db_geofences db →
          db_storage db' = db_storage db → Q db' (Ok tt)) → wp (put_collection n c) Q db.
Proof. intros HQ. by apply HQ. Qed.

Lemma wp_put_geofences r Q db :
  (∀ db', db_collections db' = db_collections db → db_geofences db' = r →
          db_storage db' = db_storage db → Q db' (Ok tt)) → wp (put_geofences r) Q db.
Proof. intros HQ. by apply HQ. Qed.

(** Fence states and subscribers are not part of the view. *)
Lemma wp_apply_prepared p Q db :
  (∀ db', db_collections db' = db_collections db → view db' = view db →
          db_storage db' = db_storage db → Q db' (Ok tt)) → wp (apply_prepared p) Q db.
Proof. intros HQ. apply HQ; [done| |done]. apply apply_prepared_view. Qed.

Lemma wp_plan clock e Q db : (∀ p, Q db (Ok p)) → wp (plan_mutation clock e) Q db.
Proof. intros HQ. apply HQ. Qed.

Lemma wp_webhooks clock p Q db :
  (∀ r, Q db r) → wp (webhook_records_for_prepared clock p) Q db.
Proof. intros HQ. apply HQ. Qed.

Lemma wp_handle n Q db : Q db (Ok (db_collections db !! n)) → wp (collection_handle n) Q db.
Proof. done. Qed.

Lemma wp_existing n Q db :
  (∀ v, db_collections db !! n = Some v → Q db (Ok v)) →
  (Q db (Err (CollectionNotFound n))) → wp (existing_collection_handle n) Q db.
Proof.
  intros Hok Herr. unfold wp, existing_collection_handle. simpl.
  destruct (db_collections db !! n) eqn:Hn; [by apply Hok | done].
Qed.

(** Plans the mutation, collects its webhook jobs and logs the command. *)
Lemma wp_plan_and_log {A} clock e cmd (k : PreparedMutation → M A) db
    (Q : LatLng S → result A CoreError → Prop) :
  ready db →
  (∀ p db1, appended db db1 [cmd] → wp (k p) Q db1) →
  (∀ db1 err, effect db db1 [] → Q db1 (Err err)) →
  wp (mbind (plan_mutation clock e) (λ p,
      mbind (webhook_records_for_prepared clock p) (λ ws,
      mbind (persist_command_batch clock cmd ws) (λ _, k p)))) Q db.
Proof.
  intros Hr Hk Herr. apply wp_bind, wp_plan. intros p.
  apply wp_bind, wp_webhooks. intros [ws|err]; [|by apply Herr, effect_refl].
  apply wp_bind, wp_persist; [done| |].
  - intros db1 seqs Ha. by apply Hk.
  - intros db1 err Ha. by apply Herr, effect_append.
Qed.

(** Storing an object in the cell of its collection. *)
Lemma put_cell_view cs r n o c' : cells_inv cs →
  upsert (collection (ensure_cell cs n)) o = (c', Ok tt) →
  put_object (view_of cs r) n o =
    Some (view_of (<[n := bump (ensure_cell cs n) c']> cs) r) ∧
  cells_inv (<[n := bump (ensure_cell cs n) c']> cs).
Proof.
  intros Hcs Hup. pose proof (upsert_in_spec cs r n o Hcs) as Hin.
  unfold upsert_in in Hin. rewrite Hup in Hin. cbn [fst snd] in Hin.
  destruct (put_object _ _ _) as [v|]; [|by destruct Hin as [? ?]].
  destruct Hin as (_ & <- & ?). done.
Qed.

End Logic.

(** Field maps survive the trip through the entries that are logged. *)
Lemma foldl_insert_map {V} (l : list (string * V)) : ∀ m : gmap string V, NoDup l.*1 →
  foldl (λ m kv, <[kv.1 := kv.2]> m) m l = list_to_map l ∪ m.
Proof.
  induction l as [|[k x] l IH]; intros m Hnd; [symmetry; apply (left_id_L ∅ _)|].
  rewrite list_to_map_cons. cbn [foldl fst snd]. rewrite fmap_cons in Hnd. apply NoDup_cons in Hnd as [Hk Hnd].
  rewrite IH by done. rewrite <-insert_union_l. rewrite insert_union_r; [done|].
  by apply not_elem_of_list_to_map_1.
Qed.

Lemma field_entries_roundtrip (m : FieldMap) : field_entries_to_map (field_map_to_entries m) = m.
Proof.
  assert (∀ (l : list (string * FieldValue)) (acc : FieldMap),
    foldl (λ m e, <[field_name e := field_value e]> m) acc
      ((λ '(name, value), mkFieldEntry name value) <$> l) =
    foldl (λ m kv, <[kv.1 := kv.2]> m) acc l) as Heq.
  { induction l as [|[k x] l IH]; intros acc; [done|]. apply IH. }
  unfold field_entries_to_map, field_map_to_entries.
  etrans; [apply Heq|]. etrans; [exact (foldl_insert_map _ ∅ (NoDup_btree_iter m))|].
  rewrite (right_id_L ∅ (∪)). apply list_to_map_btree_iter.
Qed.
