(* ===== verification/EngineOps.v ===== *)
(** * The effect of every operation

    One lemma per client operation of [commands.rs], [geofences.rs] and
    [admin.rs], over the logic of [EngineLogic]: the operation's log and view
    change together. *)

From Stdlib Require Import ZArith Lia SpecFloat.
From stdpp Require Import base gmap strings list sorting.
From S2P Require Import Prelude Storage F64 Json Platform Geo Strings Index IndexSpec Geofence.
From S2P Require Import GeofenceSpec Collection CollectionSpec Engine EngineSpec EngineLogic.

(** An answer other than a failure of the spatial index. *)
Definition not_index_error {A} (r : result A CoreError) : Prop := ∀ e, r ≠ Err (CIndex e).

Section Ops.
Context `{LM : Libm} `{GC : GeoCrate} `{RC : RTreeCrate} `{JT : JsonText} `{PT : Patterns}
  `{HO : HashOrder} `{LC : LogCodec} `{MD : Md5} `{B64 : Base64}.
Context {S : Type} `{SB : StorageBackend S} `{SL : !StorageLaws S}.

Implicit Types db : LatLng S.

Ltac wp_writable := apply wp_bind, wp_writable; [|by apply has_effect_refl].
Ltac wp_existing :=
  apply wp_bind, wp_existing; [intros v Hn | by apply has_effect_refl].

Lemma effect_has {A} db db1 cmds (r : result A CoreError) :
  effect db db1 cmds → has_effect db db1 r.
Proof. intros. by exists cmds. Qed.

(** ** SET *)

Lemma set_body_effect clock req db :
  ready db →
  wp (set_body clock req (ensure_cell (db_collections db) (sr_collection req)))
     (λ db' r, not_index_error r → has_effect db db' r) db.
Proof.
  intros Hr. pose proof Hr as (_ & _ & Hcs). unfold set_body.
  set (n := sr_collection req). set (cell := ensure_cell (db_collections db) n).
  destruct (condition_fails _ _); [intros _; by apply has_effect_refl|].
  set (o := mkObject _ _ _ _).
  apply wp_plan_and_log; [done| |intros; by eapply effect_has].
  intros p db1 Ha. destruct (upsert (collection cell) o) as [c' [[]|e]] eqn:Hup.
  - destruct (put_cell_view _ (db_geofences db) n o c' Hcs Hup) as [Hview Hcs'].
    apply wp_bind, wp_put_collection. intros db2 Hc2 Hg2 Hs2.
    apply wp_bind, wp_apply_prepared. intros db3 Hc3 Hv3 Hs3.
    apply wp_ret. intros _. eexists. eapply effect_intro; [exact Ha|congruence| |].
    + destruct Ha as (Hc & _). by rewrite Hc3, Hc2, Hc.
    + apply spec_steps_one; [done|]. intros clock'. rewrite Hv3. simpl.
      destruct Ha as (Hc & Hg & _). unfold view. rewrite Hc2, Hg2, Hc, Hg.
      rewrite field_entries_roundtrip. exact Hview.
  - apply wp_bind, wp_put_collection. intros db2 _ _ _. apply wp_fail. intros Hne.
    pose proof (upsert_result (collection cell) o) as Hres. rewrite Hup in Hres. cbn [snd] in Hres.
    destruct (geo_envelope (geo o)); [done|]. simplify_eq. by destruct (Hne _ eq_refl).
Qed.

Lemma ensure_cell_found (cs : Collections) n v : cs !! n = Some v → ensure_cell cs n = v.
Proof. unfold ensure_cell. by intros ->. Qed.

Lemma op_set_effect clock req db :
  ready db → wp (op_set clock req) (λ db' r, not_index_error r → has_effect db db' r) db.
Proof.
  intros Hr. pose proof Hr as (_ & Hst & _). unfold op_set. apply wp_bind, wp_lift.
  destruct (map_err _ _) as [[]|]; [|intros _; by apply has_effect_refl].
  assert (wp (set_exclusive clock req) (λ db' r, not_index_error r → has_effect db db' r) db)
    as Hex.
  { unfold set_exclusive. apply wp_bind, wp_writable; [|intros _; by apply has_effect_refl].
    apply wp_bind, wp_get. by apply set_body_effect. }
  apply wp_bind. unfold try_set_local.
  apply wp_bind, wp_writable; [|intros _; by apply has_effect_refl].
  apply wp_bind, wp_get. destruct (requires_exclusive_roam_path _ _); [done|].
  destruct (db_collections db !! sr_collection req) as [v|] eqn:Hn; [|done].
  rewrite Hst. cbn [negb andb]. apply wp_bind.
  rewrite <-(ensure_cell_found _ _ _ Hn).
  eapply wp_mono; [by apply set_body_effect|]. intros db' [b|e] HQ; [done|exact HQ].
Qed.

(** ** DEL and PDEL *)

Lemma del_body_effect clock n i v o db :
  ready db → db_collections db !! n = Some v →
  wp (del_body clock n i v o) (has_effect db) db.
Proof.
  intros Hr Hn. pose proof Hr as (_ & _ & Hcs). unfold del_body.
  apply wp_plan_and_log; [done| |intros; by eapply effect_has].
  intros p db1 Ha. destruct (remove (collection v) i) as [c' removed] eqn:Hrm.
  assert (objects c' = delete i (cell_objects v)) as Hobj.
  { unfold cell_objects. by rewrite <-remove_objects, Hrm. }
  assert (cell_inv c') as Hc'.
  { pose proof (remove_cell _ i (Hcs n v Hn)) as Hinv. by rewrite Hrm in Hinv. }
  apply wp_bind, wp_put_collection. intros db2 Hc2 Hg2 Hs2.
  apply wp_bind, wp_apply_prepared. intros db3 Hc3 Hv3 Hs3.
  apply wp_ret. destruct Ha as (Hc & Hg & Ha). eexists.
  eapply effect_intro; [exact (conj Hc (conj Hg Ha))|congruence| |].
  - rewrite Hc3, Hc2, Hc. apply cells_inv_put; [done|]. by case_bool_decide.
  - apply spec_steps_one; [done|]. intros clock'. rewrite Hv3. simpl. f_equal.
    unfold view. rewrite Hc2, Hg2, Hc, Hg. symmetry. eapply view_put_edit; [done|].
    by case_bool_decide.
Qed.

Lemma del_exclusive_effect clock n i db :
  ready db → wp (del_exclusive clock n i) (has_effect db) db.
Proof.
  intros Hr. unfold del_exclusive. wp_writable. apply wp_bind, wp_handle.
  destruct (db_collections db !! n) as [v|] eqn:Hn; [|by apply wp_ret, has_effect_refl].
  destruct (objects (collection v) !! i); [|by apply wp_ret, has_effect_refl].
  by apply del_body_effect.
Qed.

Lemma op_del_effect clock n i db : ready db → wp (op_del clock n i) (has_effect db) db.
Proof.
  intros Hr. unfold op_del. wp_writable. apply wp_bind, wp_get.
  destruct (requires_exclusive_roam_path _ _); [by apply del_exclusive_effect|].
  destruct (db_collections db !! n) as [v|] eqn:Hn; [|by apply wp_ret, has_effect_refl].
  destruct (objects (collection v) !! i); [|by apply wp_ret, has_effect_refl].
  by apply del_body_effect.
Qed.

(** An operation that has an effect, followed by one that has an effect. *)
Lemma wp_seq {A B} (m : M A) (k : A → M B) db :
  wp m (has_effect db) db →
  (∀ a db1 cmds, effect db db1 cmds → wp (k a) (has_effect db1) db1) →
  wp (mbind m k) (has_effect db) db.
Proof.
  intros Hm Hk. apply wp_bind. eapply wp_mono; [exact Hm|]. intros db1 [a|e] [cmds He].
  - eapply wp_mono; [by eapply Hk|]. intros db2 r [cmds' He']. eexists. by eapply effect_trans.
  - by exists cmds.
Qed.

Lemma del_all_effect clock n ids : ∀ k db,
  ready db → wp (del_all clock n ids k) (has_effect db) db.
Proof.
  induction ids as [|i ids IH]; intros k db Hr; simpl; [by apply wp_ret, has_effect_refl|].
  apply wp_seq; [by apply del_exclusive_effect|]. intros b db1 cmds [Hr1 _ _]. by apply IH.
Qed.

Lemma op_pdel_effect clock n pattern db :
  ready db → wp (op_pdel clock n pattern) (has_effect db) db.
Proof.
  intros Hr. unfold op_pdel. wp_writable. apply wp_bind, wp_handle. by apply del_all_effect.
Qed.

(** ** FSET, EXPIRE and PERSIST *)

Lemma find_stored cs r n v i o :
  cs !! n = Some v → objects (collection v) !! i = Some o →
  find_object (view_of cs r) n i = Some o.
Proof. intros Hn Hi. unfold find_object. rewrite view_lookup, Hn. done. Qed.

Lemma op_fset_effect clock n i fs xx db :
  ready db → wp (op_fset clock n i fs xx) (has_effect db) db.
Proof.
  intros Hr. pose proof Hr as (_ & _ & Hcs). unfold op_fset. wp_writable. wp_existing.
  destruct (objects (collection v) !! i) as [before|] eqn:Hi.
  2: { destruct xx; [apply wp_ret | apply wp_fail]; by apply has_effect_refl. }
  apply wp_plan_and_log; [done| |intros; by eapply effect_has].
  intros p db1 Ha. apply wp_bind, wp_put_collection. intros db2 Hc2 Hg2 Hs2.
  apply wp_bind, wp_apply_prepared. intros db3 Hc3 Hv3 Hs3.
  apply wp_ret. destruct Ha as (Hc & Hg & Ha). eexists.
  eapply effect_intro; [exact (conj Hc (conj Hg Ha))|congruence| |].
  - rewrite Hc3, Hc2, Hc. apply cells_inv_put; [done|]. by apply insert_fields_cell, (Hcs n v).
  - apply spec_steps_one; [eexists; by eapply find_stored|]. intros clock'. rewrite Hv3. simpl.
    f_equal. unfold view. rewrite Hc2, Hg2, Hc, Hg. symmetry. eapply view_put_edit; [done|].
    apply insert_fields_objects.
Qed.

Lemma expiry_body_effect clock n i cmd deadline db :
  (∀ clock' v, spec_apply clock' v cmd =
     Some (edit_object v n i (λ o, with_expiry o deadline))) →
  (∀ v, is_Some (find_object v n i) → applicable v cmd) →
  ready db → wp (expiry_body clock n i cmd deadline) (has_effect db) db.
Proof.
  intros Hspec Happ Hr. pose proof Hr as (_ & _ & Hcs). unfold expiry_body.
  wp_writable. wp_existing.
  destruct (objects (collection v) !! i) as [o|] eqn:Hi; [|by apply wp_fail, has_effect_refl].
  apply wp_bind, wp_append; [done| |intros; by apply has_effect_append].
  intros db1 seq Ha. apply wp_put_collection. intros db2 Hc2 Hg2 Hs2.
  destruct Ha as (Hc & Hg & Ha). eexists.
  eapply effect_intro; [exact (conj Hc (conj Hg Ha))|congruence| |].
  - rewrite Hc2, Hc. apply cells_inv_put; [done|]. by apply set_expiry_cell, (Hcs n v).
  - apply spec_steps_one; [apply Happ; eexists; by eapply find_stored|]. intros clock'.
    rewrite Hspec. f_equal. unfold view. rewrite Hc2, Hg2, Hc, Hg. symmetry.
    eapply view_put_edit; [done|]. apply set_expiry_objects.
Qed.

Lemma op_expire_effect clock n i seconds db :
  ready db → wp (op_expire clock n i seconds) (has_effect db) db.
Proof. by apply expiry_body_effect. Qed.

Lemma op_persist_effect clock n i db :
  ready db → wp (op_persist clock n i) (has_effect db) db.
Proof. by apply expiry_body_effect. Qed.

(** ** JSET and JDEL *)

(** The state after a successful edit, with or without clearing a deadline. *)
Lemma replace_geo_cell c i o g : cell_inv c → objects c !! i = Some o →
  cell_inv (replace_geo c i g).1 ∧
  objects (replace_geo c i g).1 = <[i := with_geo o g]> (objects c) ∧
  (is_ok (replace_geo c i g).2 = true → indexable g = true) ∧
  (∀ e, (replace_geo c i g).2 = Err e → ∃ e', e = CIndex e').
Proof.
  intros Hc Hi. unfold replace_geo. rewrite Hi.
  destruct (spatial_insert _ i g) as [s' r] eqn:Hs. split_and!; simpl.
  - by eapply (edit_cell c).
  - done.
  - unfold spatial_insert in Hs. unfold indexable.
    by destruct (geo_envelope g) as [[b|]|e]; simplify_eq/=.
  - intros e. destruct r; [done|]. intros [= <-]. eauto.
Qed.

Lemma edit_twice v n i f g :
  edit_object (edit_object v n i f) n i g = edit_object v n i (g ∘ f).
Proof.
  unfold edit_object, edit_objects. simpl. f_equal. rewrite alter_alter_eq.
  apply map_eq. intros n'. destruct (decide (n = n')) as [<-|].
  - rewrite !lookup_alter_eq. destruct (v_objects v !! n); simpl; [|done].
    by rewrite alter_alter_eq.
  - by rewrite !lookup_alter_ne.
Qed.

(** The commands a successful edit logs, and what they mean together. *)
Lemma edit_steps cs r n v i o cmd f had_ttl :
  cs !! n = Some v → objects (collection v) !! i = Some o →
  had_ttl = bool_decide (is_Some (expires_at o)) →
  (∀ clock w, spec_apply clock w cmd = Some (edit_object w n i (edit_geojson f))) →
  applicable (view_of cs r) cmd →
  spec_steps (view_of cs r) (cmd :: if had_ttl then [CmdPersist n i] else [])
    (edit_object (view_of cs r) n i
       (if had_ttl then λ o, with_expiry (edit_geojson f o) None else edit_geojson f)).
Proof.
  intros Hn Hi Httl Hspec Happ. econstructor; [done|intros; apply Hspec|].
  destruct had_ttl; [|constructor]. apply spec_steps_one.
  - simpl. rewrite find_alter, decide_True by done. rewrite (find_stored _ _ _ _ _ _ Hn Hi). done.
  - intros clock. simpl. by rewrite edit_twice.
Qed.

Lemma edit_geojson_effect clock n i command_name edit f cmd db :
  (∀ j, (edit j).1 = f j) →
  (∀ clock' w, spec_apply clock' w cmd = Some (edit_object w n i (edit_geojson f))) →
  (∀ w, (∃ o, find_object w n i = Some o ∧ indexable (geo (edit_geojson f o)) = true) →
        applicable w cmd) →
  ready db →
  wp (edit_geojson_local clock n i command_name edit cmd)
     (λ db' r, not_index_error r → has_effect db db' r) db.
Proof.
  intros Hf Hspec Happ Hr. pose proof Hr as (_ & _ & Hcs). unfold edit_geojson_local.
  apply wp_bind, wp_writable; [|intros _; by apply has_effect_refl].
  apply wp_bind, wp_existing; [intros v Hn | intros _; by apply has_effect_refl].
  assert (∀ e : CoreError, wp (mfail (A := bool) e)
            (λ db' r, not_index_error r → has_effect db db' r) db) as Hfail.
  { intros e. apply wp_fail. intros _. by apply has_effect_refl. }
  destruct (objects (collection v) !! i) as [o|] eqn:Hi; [|apply Hfail].
  destruct (geo o) as [| | |json|] eqn:Hgeo; try apply Hfail.
  destruct (edit json) as [json' [changed|e]] eqn:Hedit; [|apply Hfail].
  apply wp_bind, wp_lift. destruct (map_err _ (validate_geo _)) as [[]|e]; [|apply Hfail].
  apply wp_bind, wp_lift. destruct (rmap _ _) as [[]|e]; [|apply Hfail].
  set (had_ttl := bool_decide (is_Some (expires_at o))).
  apply wp_bind, wp_append_records; [done| |intros; by apply has_effect_append].
  intros db1 seqs Ha.
  destruct (replace_geo_cell _ _ _ (GtGeoJson json') (Hcs n v Hn) Hi)
    as (Hc1 & Hobj1 & Hix & Herr).
  destruct (replace_geo (collection v) i (GtGeoJson json')) as [c1 [b|e]]; cbn [fst snd] in *.
  2: { apply wp_bind, wp_put_collection. intros db2 _ _ _. apply wp_fail. intros Hne.
       destruct (Herr e eq_refl) as [e' ->]. by destruct (Hne e'). }
  apply wp_bind, wp_put_collection. intros db2 Hc2 Hg2 Hs2. apply wp_ret. intros _.
  destruct Ha as (Hc & Hg & Ha). eexists.
  eapply effect_intro; [exact (conj Hc (conj Hg Ha))|congruence| |].
  { rewrite Hc2, Hc. apply cells_inv_put; [done|]. simpl.
    destruct had_ttl; [by apply set_expiry_cell | done]. }
  assert (edit_geojson f o = with_geo o (GtGeoJson json')) as Heo.
  { unfold edit_geojson. rewrite Hgeo, <-Hf. by rewrite Hedit. }
  assert (spec_steps (view db) (cmd :: if had_ttl then [CmdPersist n i] else [])
    (edit_object (view db) n i
       (if had_ttl then λ o, with_expiry (edit_geojson f o) None
        else edit_geojson f))) as Hsteps.
  { eapply edit_steps; [done..|]. apply Happ. exists o. split; [by eapply find_stored|].
    rewrite Heo. by apply Hix. }
  replace (view db2) with (edit_object (view db) n i
       (if had_ttl then λ o, with_expiry (edit_geojson f o) None
        else edit_geojson f)).
  { by destruct had_ttl. }
  symmetry. unfold view. rewrite Hc2, Hg2, Hc, Hg. eapply view_put_edit; [done|].
  unfold cell_objects. simpl. destruct had_ttl.
  - rewrite set_expiry_objects, Hobj1. rewrite !(alter_Some _ _ _ (with_geo o (GtGeoJson json')))
      by apply lookup_insert_eq. rewrite (alter_Some _ _ _ o) by done.
    rewrite insert_insert_eq. by rewrite Heo.
  - rewrite Hobj1, (alter_Some _ _ _ o) by done. by rewrite Heo.
Qed.

Lemma op_jset_effect clock n i path value raw db :
  ready db →
  wp (op_jset clock n i path value raw) (λ db' r, not_index_error r → has_effect db db' r) db.
Proof.
  apply (edit_geojson_effect _ _ _ _ _
           (λ j, (set_json_path j path (jset_payload value raw)).1)); [|done..].
  intros j. by destruct (set_json_path _ _ _).
Qed.

Lemma op_jdel_effect clock n i path db :
  ready db →
  wp (op_jdel clock n i path) (λ db' r, not_index_error r → has_effect db db' r) db.
Proof. by apply (edit_geojson_effect _ _ _ _ _ (λ j, (delete_json_path j path).1)). Qed.

(** ** Collections *)

Lemma op_create_collection_effect clock n db :
  ready db → wp (op_create_collection clock n) (has_effect db) db.
Proof.
  intros Hr. pose proof Hr as (_ & _ & Hcs). unfold op_create_collection. wp_writable.
  apply wp_bind, wp_handle.
  destruct (db_collections db !! n) as [v|] eqn:Hn; [by apply wp_ret, has_effect_refl|].
  apply wp_bind, wp_append; [done| |intros; by apply has_effect_append].
  intros db1 seq (Hc & Hg & Ha). apply wp_bind, wp_put_collection. intros db2 Hc2 Hg2 Hs2.
  apply wp_ret. eexists. eapply effect_intro; [exact (conj Hc (conj Hg Ha))|done| |].
  - rewrite Hc2, Hc. apply cells_inv_put; [done|]. apply cell_inv_new.
  - apply spec_steps_one; [done|]. intros clock'. simpl. f_equal.
    unfold view. rewrite Hc2, Hg2, Hc, Hg, view_put. unfold edit_objects.
    by rewrite view_lookup, Hn.
Qed.

Lemma wp_plan_drops clock n os : ∀ Q db,
  (∀ r, Q db r) → wp (plan_drops clock n os) Q db.
Proof.
  induction os as [|o os IH]; intros Q db HQ; simpl; [by apply wp_ret|].
  apply wp_bind, wp_plan. intros p. apply wp_bind, wp_webhooks. intros [ws|e]; [|done].
  apply wp_bind, IH. intros [x|e]; [|done]. by apply wp_ret.
Qed.

Lemma wp_apply_all ps : ∀ Q db,
  (∀ db', db_collections db' = db_collections db → view db' = view db →
          db_storage db' = db_storage db → Q db' (Ok tt)) → wp (apply_all_prepared ps) Q db.
Proof.
  induction ps as [|p ps IH]; intros Q db HQ; simpl; [by apply HQ|].
  apply wp_bind, wp_apply_prepared. intros db1 Hc Hv Hs. apply IH.
  intros db2 Hc2 Hv2 Hs2. apply HQ; congruence.
Qed.

Lemma op_drop_collection_effect clock n db :
  ready db → wp (op_drop_collection clock n) (has_effect db) db.
Proof.
  intros Hr. pose proof Hr as (_ & _ & Hcs). unfold op_drop_collection. wp_writable.
  apply wp_bind, wp_handle.
  destruct (db_collections db !! n) as [v|]; [|by apply wp_ret, has_effect_refl].
  apply wp_bind, wp_plan_drops. intros [[ps ws]|e]; [|by apply has_effect_refl].
  apply wp_bind, wp_persist; [done| |intros; by apply has_effect_append].
  intros db1 seqs (Hc & Hg & Ha). apply wp_bind, wp_get.
  apply wp_bind, wp_put_collections. intros db2 Hc2 Hg2 Hs2.
  apply wp_bind, wp_apply_all. intros db3 Hc3 Hv3 Hs3. apply wp_ret. eexists.
  eapply effect_intro; [exact (conj Hc (conj Hg Ha))|congruence| |].
  - rewrite Hc3, Hc2, Hc. by apply map_Forall_delete.
  - apply spec_steps_one; [done|]. intros clock'. rewrite Hv3. simpl. f_equal.
    unfold view. rewrite Hc2, Hg2, Hc, Hg. unfold view_of. simpl. by rewrite fmap_delete.
Qed.

Lemma rename_effect clock n n' nx db :
  ready db → wp (rename_inner clock n n' nx) (has_effect db) db.
Proof.
  intros Hr. pose proof Hr as (_ & _ & Hcs). unfold rename_inner. wp_writable.
  apply wp_bind, wp_get. destruct (nx && _); [by apply wp_ret, has_effect_refl|].
  wp_existing. apply wp_bind, wp_append; [done| |intros; by apply has_effect_append].
  intros db1 seq (Hc & Hg & Ha). apply wp_bind, wp_put_collections. intros db2 Hc2 Hg2 Hs2.
  apply wp_ret. eexists. eapply effect_intro; [exact (conj Hc (conj Hg Ha))|done| |].
  - rewrite Hc2. apply cells_inv_put; [by apply map_Forall_delete|]. by apply (Hcs n v).
  - apply spec_steps_one; [done|]. intros clock'. simpl. f_equal.
    unfold edit_objects, view. rewrite view_lookup, Hn, Hc2, Hg2, Hg. unfold view_of. simpl.
    by rewrite fmap_insert, fmap_delete.
Qed.

(** ** Channels and hooks *)

(** A registry command has been logged and the registry updated as it says. *)
Lemma registry_effect {A} db db1 db2 cmd r (res : result A CoreError) :
  ready db → appended db db1 [cmd] →
  db_collections db2 = db_collections db1 → db_geofences db2 = r →
  db_storage db2 = db_storage db1 →
  applicable (view db1) cmd →
  (∀ clock, spec_apply clock (view db1) cmd = Some (view_of (db_collections db1) r)) →
  has_effect db db2 res.
Proof.
  intros (_ & _ & Hcs) (Hc & Hg & Ha) Hc2 Hg2 Hs2 Happ Hspec.
  assert (view db1 = view db) as Hv by (unfold view; by rewrite Hc, Hg).
  eexists. eapply effect_intro; [exact (conj Hc (conj Hg Ha))|done| |].
  - by rewrite Hc2, Hc.
  - rewrite Hv in Happ, Hspec. apply spec_steps_one; [done|]. unfold view at 2.
    by rewrite Hc2, Hg2.
Qed.

Ltac wp_log_registry :=
  wp_writable; apply wp_bind, wp_append; [done| |intros; by apply has_effect_append];
  intros db1 seq Ha; apply wp_bind, wp_get.

Lemma validated_evaluable d : validate_geofence_def d = Ok tt → evaluable d = true.
Proof.
  unfold validate_geofence_def, evaluable. destruct (ensure_geofence_evaluable d); done.
Qed.

Lemma op_setchan_effect clock n d db :
  ready db → wp (op_setchan clock n d) (has_effect db) db.
Proof.
  intros Hr. unfold op_setchan. apply wp_bind, wp_lift.
  destruct (validate_geofence_def d) as [[]|e] eqn:Hd; [|by apply has_effect_refl].
  apply validated_evaluable in Hd. wp_log_registry. apply wp_put_geofences.
  intros db2 Hc2 Hg2 Hs2. eapply registry_effect; [done..|]. intros clock'. simpl.
  by rewrite Hd, set_channel_view.
Qed.

Lemma op_sethook_effect clock n url d db :
  ready db → wp (op_sethook clock n url d) (has_effect db) db.
Proof.
  intros Hr. unfold op_sethook. apply wp_bind, wp_lift.
  destruct (validate_geofence_def d) as [[]|e] eqn:Hd; [|by apply has_effect_refl].
  apply validated_evaluable in Hd. wp_log_registry. apply wp_put_geofences.
  intros db2 Hc2 Hg2 Hs2. eapply registry_effect; [done..|]. intros clock'. simpl.
  by rewrite Hd, set_hook_view.
Qed.

(** The four deletions. *)
Lemma registry_delete_effect {A} clock cmd (f : GeofenceRegistry → GeofenceRegistry * A) db :
  (∀ v, applicable v cmd) →
  (∀ clock' cs r, spec_apply clock' (view_of cs r) cmd = Some (view_of cs (f r).1)) →
  ready db →
  wp (mbind ensure_writable (λ _, mbind (append_log_record clock (LCommand cmd)) (λ _,
      mbind mget (λ db, let '(r, a) := f (db_geofences db) in
                        mbind (put_geofences r) (λ _, mret a))))) (has_effect db) db.
Proof.
  intros Happ Hspec Hr. wp_log_registry.
  destruct (f (db_geofences db1)) as [r a] eqn:Hf.
  apply wp_bind, wp_put_geofences. intros db2 Hc2 Hg2 Hs2. apply wp_ret.
  eapply registry_effect; [done..|]. intros clock'. unfold view. by rewrite Hspec, Hf.
Qed.

Lemma op_delchan_effect clock n db : ready db → wp (op_delchan clock n) (has_effect db) db.
Proof.
  apply (registry_delete_effect _ _ (λ r, del_channel r n)); [done|]. intros clock' cs r.
  cbn [spec_apply]. f_equal. unfold view_of. destruct (del_channel_defs r n) as [-> ->].
  by rewrite fmap_delete.
Qed.

Lemma op_delhook_effect clock n db : ready db → wp (op_delhook clock n) (has_effect db) db.
Proof.
  apply (registry_delete_effect _ _ (λ r, del_hook r n)); [done|]. intros clock' cs r.
  cbn [spec_apply]. f_equal. unfold view_of. destruct (del_hook_defs r n) as [-> ->].
  by rewrite fmap_delete.
Qed.

Lemma op_pdelchan_effect clock p db : ready db → wp (op_pdelchan clock p) (has_effect db) db.
Proof.
  apply (registry_delete_effect _ _ (λ r, pdel_channel r p)); [done|]. intros clock' cs r.
  cbn [spec_apply]. f_equal. unfold view_of. destruct (pdel_channel_defs r p) as [-> ->].
  by rewrite drop_matching_fmap.
Qed.

Lemma op_pdelhook_effect clock p db : ready db → wp (op_pdelhook clock p) (has_effect db) db.
Proof.
  apply (registry_delete_effect _ _ (λ r, pdel_hook r p)); [done|]. intros clock' cs r.
  cbn [spec_apply]. f_equal. unfold view_of. destruct (pdel_hook_defs r p) as [-> ->].
  by rewrite drop_matching_fmap.
Qed.

(** ** The expiry sweep *)

Lemma expire_ids_effect clock n ids : ∀ k db,
  ready db → wp (expire_ids clock n ids k) (has_effect db) db.
Proof.
  induction ids as [|i ids IH]; intros k db Hr; simpl; [by apply wp_ret, has_effect_refl|].
  apply wp_seq; [by apply del_exclusive_effect|]. intros b db1 cmds [Hr1 _ _]. by apply IH.
Qed.

Lemma expire_collections_effect clock now_ms max handles : ∀ k db,
  ready db → wp (expire_collections clock now_ms max handles k) (has_effect db) db.
Proof.
  induction handles as [|[n v] handles IH]; intros k db Hr; simpl;
    [by apply wp_ret, has_effect_refl|].
  destruct (max <=? k)%nat; [by apply wp_ret, has_effect_refl|].
  apply wp_bind, wp_handle. apply wp_seq; [by apply expire_ids_effect|].
  intros k' db1 cmds [Hr1 _ _]. by apply IH.
Qed.

Lemma op_expire_due_effect clock now_ms max db :
  ready db → wp (op_expire_due clock now_ms max) (has_effect db) db.
Proof.
  intros Hr. unfold op_expire_due. apply wp_bind, wp_get.
  destruct (read_only (db_config db)); [by apply wp_ret, has_effect_refl|].
  apply wp_seq; [by apply expire_collections_effect|]. intros k db1 cmds [Hr1 _ _].
  pose proof Hr1 as (? & ? & _). apply has_effect_append; [done|]. by apply appended_nil.
Qed.

End Ops.
