(* ===== verification/Durability.v ===== *)
(** * Durability: the log always tells the state

    A run of the engine is any sequence of client requests, expiry sweeps,
    garbage collections, log compactions and restarts, under clocks that do
    not go back.  After every step, replaying the committed log gives the
    view of the live state, up to objects that have expired: garbage
    collection drops those without a log record.  So a restart recovers
    exactly the objects that are still alive, all channels and all hooks,
    and a replica that replays the log has them too. *)

From Stdlib Require Import ZArith Lia SpecFloat.
From stdpp Require Import base gmap strings list sorting.
From S2P Require Import Prelude Storage F64 Json Platform Geo Strings Index IndexSpec Geofence.
From S2P Require Import GeofenceSpec Collection CollectionSpec Engine EngineSpec EngineLogic EngineOps.
From S2P Require Import StorageMemory.

(** ** Views that agree up to expired objects *)

(** [w], the meaning of the log, has what [v] has and perhaps objects that
    are expired at [t]. *)
Record stale (t : Z) (v w : View) : Prop := mkStale {
  stale_dom : dom (v_objects v) = dom (v_objects w);
  stale_sub n i o : find_object v n i = Some o → find_object w n i = Some o;
  stale_extra n i o : find_object w n i = Some o → find_object v n i = None →
                      is_expired t o = true;
  stale_channels : v_channels v = v_channels w;
  stale_hooks : v_hooks v = v_hooks w
}.

Lemma stale_refl t v : stale t v v.
Proof. split; congruence. Qed.

Lemma is_expired_mono t t' o : (t ≤ t')%Z → is_expired t o = true → is_expired t' o = true.
Proof. unfold is_expired. destruct (expires_at o); [|done]. rewrite !Z.leb_le. lia. Qed.

Lemma stale_mono t t' v w : (t ≤ t')%Z → stale t v w → stale t' v w.
Proof.
  intros Ht [Hd Hs Hx Hc Hh]. split; [done..| |done|done].
  intros n i o Hw Hv. by eapply is_expired_mono, Hx.
Qed.

Lemma find_live t v n i :
  find_object (live t v) n i =
  (o ← find_object v n i; if is_expired t o then None else Some o).
Proof.
  unfold find_object, live, edit_objects. simpl. rewrite lookup_fmap.
  destruct (v_objects v !! n) as [os|]; simpl; [|done]. unfold live_objects.
  apply option_eq. intros o. rewrite map_lookup_filter_Some, bind_Some. simpl. split.
  - intros [Ho He]. exists o. by rewrite He.
  - intros (o' & Ho & Hi). destruct (is_expired t o') eqn:He; simplify_eq. done.
Qed.

Lemma view_ext v w :
  dom (v_objects v) = dom (v_objects w) →
  (∀ n i, find_object v n i = find_object w n i) →
  v_channels v = v_channels w → v_hooks v = v_hooks w → v = w.
Proof.
  destruct v as [vo vc vh], w as [wo wc wh]. simpl. intros Hd Hf -> ->. f_equal.
  apply map_eq. intros n. unfold find_object in Hf. simpl in Hf.
  assert (is_Some (vo !! n) ↔ is_Some (wo !! n)) as Hn by (by rewrite <-!elem_of_dom, Hd).
  destruct (vo !! n) as [a|] eqn:Ha, (wo !! n) as [b|] eqn:Hb.
  - f_equal. apply map_eq. intros i. specialize (Hf n i). by rewrite Ha, Hb in Hf.
  - by destruct (proj1 Hn (mk_is_Some _ _ eq_refl)).
  - by destruct (proj2 Hn (mk_is_Some _ _ eq_refl)).
  - done.
Qed.

Lemma dom_live t v : dom (v_objects (live t v)) = dom (v_objects v).
Proof. unfold live, edit_objects. simpl. apply dom_fmap_L. Qed.

(** What is left after garbage collection is the same on both sides. *)
Lemma stale_live t v w : stale t v w → live t v = live t w.
Proof.
  intros [Hd Hs Hx Hc Hh]. apply view_ext; [by rewrite !dom_live| |done|done].
  intros n i. rewrite !find_live. destruct (find_object v n i) as [o|] eqn:Hv.
  - by rewrite (Hs _ _ _ Hv).
  - destruct (find_object w n i) as [o|] eqn:Hw; simpl; [|done]. by rewrite (Hx _ _ _ Hw Hv).
Qed.

Lemma stale_gc_before now t v w : (now ≤ t)%Z → stale t v w → stale t (live now v) w.
Proof.
  intros Hnow [Hd Hs Hx Hc Hh]. split; [by rewrite dom_live| | |done|done].
  - intros n i o. rewrite find_live, bind_Some. intros (o' & Ho & Hi).
    destruct (is_expired now o'); simplify_eq. by apply Hs.
  - intros n i o Hw. rewrite find_live. destruct (find_object v n i) as [o'|] eqn:Hv; simpl.
    + apply Hs in Hv. rewrite Hw in Hv. injection Hv as ->.
      destruct (is_expired now o') eqn:He; [|done]. intros _. by eapply is_expired_mono.
    + intros _. by eapply Hx.
Qed.

Lemma stale_gc t v w : stale t v w → stale t (live t v) w.
Proof. by apply stale_gc_before. Qed.

(** ** Commands keep the agreement *)

Section Commands.
Context `{LM : Libm} `{GC : GeoCrate} `{JT : JsonText} `{PT : Patterns}.

Lemma find_del v n i n' i' :
  find_object (edit_objects v (alter (delete i) n)) n' i' =
  if decide (n = n' ∧ i = i') then None else find_object v n' i'.
Proof.
  unfold find_object, edit_objects. simpl. destruct (decide (n = n')) as [<-|Hn].
  - rewrite lookup_alter_eq. destruct (v_objects v !! n) as [os|]; simpl; [|by case_decide].
    destruct (decide (i = i')) as [<-|Hi].
    + rewrite lookup_delete_eq. by rewrite decide_True.
    + rewrite lookup_delete_ne by done. rewrite decide_False by tauto. done.
  - rewrite lookup_alter_ne by done. rewrite decide_False by tauto. done.
Qed.

Lemma find_drop v n n' i' :
  find_object (edit_objects v (delete n)) n' i' =
  if decide (n = n') then None else find_object v n' i'.
Proof.
  unfold find_object, edit_objects. simpl. case_decide as Hn.
  - subst. by rewrite lookup_delete_eq.
  - by rewrite lookup_delete_ne.
Qed.

Lemma find_create v n n' i' :
  find_object (edit_objects v (λ m, <[n := default ∅ (m !! n)]> m)) n' i' = find_object v n' i'.
Proof.
  unfold find_object, edit_objects. simpl. destruct (decide (n = n')) as [<-|].
  - rewrite lookup_insert_eq. simpl. by destruct (v_objects v !! n).
  - by rewrite lookup_insert_ne.
Qed.

Lemma find_rename v n n' os x i :
  v_objects v !! n = Some os →
  find_object (edit_objects v (λ m, <[n' := os]> (delete n m))) x i =
  if decide (n' = x) then find_object v n i
  else if decide (n = x) then None else find_object v x i.
Proof.
  intros Hn. unfold find_object, edit_objects. simpl. rewrite Hn. case_decide as Hx.
  - subst. by rewrite lookup_insert_eq.
  - rewrite lookup_insert_ne by done. case_decide.
    + subst. by rewrite lookup_delete_eq.
    + by rewrite lookup_delete_ne.
Qed.

(** Editing the same object on both sides: it must be on both or on neither,
    or keep its deadline. *)
Lemma stale_edit t v w n i f : stale t v w →
  find_object v n i = find_object w n i ∨ (∀ o, expires_at (f o) = expires_at o) →
  stale t (edit_object v n i f) (edit_object w n i f).
Proof.
  intros [Hd Hs Hx Hc Hh] Hf. split; [|intros n' i' o'..|done|done].
  - unfold edit_object, edit_objects. simpl. by rewrite !dom_alter_L.
  - rewrite !find_alter. case_decide as Hcase; [|apply Hs]. destruct Hcase as [<- <-].
    destruct (find_object v n i) as [o|] eqn:Ho; [|done]. by rewrite (Hs _ _ _ Ho).
  - rewrite !find_alter. case_decide as Hcase; [|apply Hx]. destruct Hcase as [<- <-].
    destruct (find_object v n i) as [o|] eqn:Ho; [done|].
    destruct Hf as [<-|Hf]; [done|]. destruct (find_object w n i) as [o|] eqn:Hw; [|done].
    intros [= <-] _. specialize (Hx n i o Hw Ho). unfold is_expired in *. by rewrite Hf.
Qed.

Lemma stale_put t v w n o : stale t v w →
  option_Forall2 (stale t) (put_object v n o) (put_object w n o).
Proof.
  intros [Hd Hs Hx Hc Hh]. destruct (put_object v n o) as [v'|] eqn:Hv,
    (put_object w n o) as [w'|] eqn:Hw;
    try (unfold put_object in Hv, Hw; destruct (indexable (geo o)); done); [|constructor].
  pose proof (find_put _ _ _ _ Hv) as [_ Hfv]. pose proof (find_put _ _ _ _ Hw) as [_ Hfw].
  unfold put_object in Hv, Hw. destruct (indexable (geo o)); simplify_eq. constructor.
  split; [|intros n' i' o'; rewrite Hfv, Hfw; case_decide; [done|eauto]..|done|done].
  unfold edit_objects. simpl. by rewrite !dom_insert_L, Hd.
Qed.

Lemma stale_rename t v w n n' : stale t v w →
  stale t (edit_objects v (λ m, match m !! n with Some os => <[n' := os]> (delete n m) | None => m end))
          (edit_objects w (λ m, match m !! n with Some os => <[n' := os]> (delete n m) | None => m end)).
Proof.
  intros Hst. pose proof Hst as [Hd Hs Hx Hc Hh].
  assert (is_Some (v_objects v !! n) ↔ is_Some (v_objects w !! n)) as Hn
    by (by rewrite <-!elem_of_dom, Hd).
  destruct (v_objects v !! n) as [a|] eqn:Ha, (v_objects w !! n) as [b|] eqn:Hb.
  - assert (∀ u os, v_objects u !! n = Some os →
      edit_objects u (λ m, match m !! n with Some os => <[n' := os]> (delete n m) | None => m end)
      = edit_objects u (λ m, <[n' := os]> (delete n m))) as Heq.
    { intros u os Hu. unfold edit_objects. by rewrite Hu. }
    rewrite (Heq v a Ha), (Heq w b Hb).
    split; [|intros x i o; rewrite (find_rename v n n' a), (find_rename w n n' b) by done;
             repeat case_decide; eauto; done..|done|done].
    unfold edit_objects. simpl. by rewrite !dom_insert_L, !dom_delete_L, Hd.
  - by destruct (proj1 Hn (mk_is_Some _ _ eq_refl)).
  - by destruct (proj2 Hn (mk_is_Some _ _ eq_refl)).
  - unfold edit_objects. rewrite Ha, Hb. by destruct v, w.
Qed.

(** A command that means the same on both sides: it fixes any deadline itself,
    and an object whose deadline it moves is on both sides or on neither. *)
Definition agreeable (v w : View) (cmd : Command) : Prop :=
  match cmd with
  | CmdSet q => sr_expire_seconds q = None
  | CmdExpire _ _ _ => False
  | CmdExpireAt n i _ | CmdPersist n i => find_object v n i = find_object w n i
  | _ => True
  end.

Lemma edit_geojson_expiry f o : expires_at (edit_geojson f o) = expires_at o.
Proof. unfold edit_geojson. by destruct (geo o). Qed.

Lemma stale_command t v w cmd clock clock' : stale t v w → agreeable v w cmd →
  option_Forall2 (stale t) (spec_apply clock v cmd) (spec_apply clock' w cmd).
Proof.
  intros Hst Hag. pose proof Hst as [Hd Hsub Hx Hc Hh].
  destruct cmd as [q|n i|n|n n'|n i fs xx|n i secs|n i|n i path value raw|n i path|n url d|n|p|
                   n d|n|p| |q|n i d|n]; simpl in Hag; try done; unfold spec_apply;
    try constructor;
    try (apply stale_edit; [done|]; first
      [by left | right; intros o; first [apply edit_geojson_expiry | done]]);
    try (split; simpl; rewrite ?Hh, ?Hc; done).
  - rewrite Hag. by apply stale_put.
  - split; [|intros n' i' o; rewrite !find_del; case_decide; [done|eauto]..|done|done].
    unfold edit_objects. simpl. by rewrite !dom_alter_L.
  - split; [|intros n' i' o; rewrite !find_drop; case_decide; [done|eauto]..|done|done].
    unfold edit_objects. simpl. by rewrite !dom_delete_L, Hd.
  - by apply stale_rename.
  - by destruct (evaluable d); split; simpl; rewrite ?Hh.
  - by destruct (evaluable d); split; simpl; rewrite ?Hc.
  - by apply stale_put.
  - split; [|intros n' i' o; rewrite !find_create; eauto..|done|done].
    unfold edit_objects. simpl. by rewrite !dom_insert_L, Hd.
Qed.

Lemma applicable_agreeable t v w cmd : stale t v w → applicable v cmd → agreeable v w cmd.
Proof.
  intros Hst Happ. destruct cmd; simpl in *; try done;
    destruct Happ as [o Ho]; by rewrite Ho, (stale_sub _ _ _ Hst _ _ _ Ho).
Qed.

Lemma stale_apply t v w cmd v' :
  stale t v w → applicable v cmd → (∀ clock, spec_apply clock v cmd = Some v') →
  ∃ w', (∀ clock, spec_apply clock w cmd = Some w') ∧ stale t v' w'.
Proof.
  intros Hst Happ Hs. pose proof (applicable_agreeable t v w cmd Hst Happ) as Hag.
  pose proof (λ c, stale_command t v w cmd (mkClock 0 0) c Hst Hag) as Hall.
  rewrite Hs in Hall. pose proof (Hall (mkClock 0 0)) as H0. inversion H0 as [? w' Hst' Hv Hw'|].
  subst. exists w'. split; [|done]. intros clock. rewrite Hw'. clear - Happ.
  by destruct cmd.
Qed.

Lemma stale_steps t v cmds v' : spec_steps v cmds v' → ∀ w, stale t v w →
  ∃ w', (∀ clock, spec_run clock w cmds = Some w') ∧ stale t v' w'.
Proof.
  induction 1 as [v|v cmd v1 cmds v' Happ Hs _ IH]; intros w Hst; [by exists w|].
  destruct (stale_apply t v w cmd v1 Hst Happ Hs) as (w1 & Hw1 & Hst1).
  destruct (IH w1 Hst1) as (w' & Hw' & Hst'). exists w'. split; [|done].
  intros clock. simpl. rewrite Hw1. apply Hw'.
Qed.

End Commands.

(** ** Snapshots of the state as a log *)

Section Snapshot.
Context `{LM : Libm} `{GC : GeoCrate} `{RC : RTreeCrate} `{JT : JsonText} `{PT : Patterns}
  `{HO : HashOrder} `{LC : LogCodec} `{MD : Md5} `{B64 : Base64}.
Context {S : Type} `{SB : StorageBackend S} `{SL : !StorageLaws S}.

Implicit Types db : LatLng S.

Definition put_command (n : string) (io : string * Object) : Command :=
  CmdSetPersisted (mkPersistedSet n io.1 (geo io.2) (field_map_to_entries (fields io.2))
                     (expires_at io.2)).

(** Storing the objects of a list in a collection that exists. *)
Lemma run_objects clock n l : ∀ v os, v_objects v !! n = Some os →
  Forall (λ io, id io.2 = io.1 ∧ indexable (geo io.2) = true) l →
  spec_run clock v (put_command n <$> l) =
  Some (edit_objects v (<[n := foldl (λ m io, <[io.1 := io.2]> m) os l]>)).
Proof.
  induction l as [|[i o] l IH]; intros v os Hn Hl.
  { simpl. f_equal. unfold edit_objects. rewrite insert_id by done. by destruct v. }
  apply Forall_cons in Hl as [[Hid Hix] Hl]. simpl in Hid, Hix.
  rewrite fmap_cons. cbn [spec_run].
  assert (spec_apply clock v (put_command n (i, o)) =
          Some (edit_objects v (<[n := <[i := o]> os]>))) as ->.
  { unfold put_command, spec_apply. cbn [ps_collection ps_id ps_object ps_fields
      ps_expires_at_ms fst snd]. rewrite field_entries_roundtrip, <-Hid.
    replace (mkObject (id o) (geo o) (fields o) (expires_at o)) with o by (by destruct o).
    unfold put_object. rewrite Hix. unfold edit_objects. by rewrite Hn. }
  cbn [base.mbind option_bind]. rewrite (IH _ (<[i := o]> os)) by (done || apply lookup_insert_eq).
  unfold edit_objects. simpl. by rewrite insert_insert_eq.
Qed.

Lemma list_to_map_filter_btree now_ms (os : gmap string Object) :
  list_to_map (filter (λ io, is_expired now_ms io.2 = false) (btree_iter os)) =
  live_objects now_ms os.
Proof.
  apply map_eq. intros i. apply option_eq. intros o. rewrite <-elem_of_list_to_map.
  2: { eapply sublist_NoDup; [apply (NoDup_btree_iter os)|].
       apply fmap_sublist, sublist_filter. }
  unfold live_objects. rewrite list_elem_of_filter, elem_of_btree_iter, map_lookup_filter_Some.
  tauto.
Qed.

(** Creating a collection and storing its live objects. *)
Lemma run_collection clock now_ms n os : ∀ v, v_objects v !! n = None →
  map_Forall (λ i o, id o = i ∧ indexable (geo o) = true) os →
  spec_run clock v (CmdCreateCollection n ::
    (put_command n <$> filter (λ io, is_expired now_ms io.2 = false) (btree_iter os))) =
  Some (edit_objects v (<[n := live_objects now_ms os]>)).
Proof.
  intros v Hn Hos. cbn [spec_run spec_apply base.mbind option_bind].
  assert (edit_objects v (λ m, <[n := default ∅ (m !! n)]> m) = edit_objects v (<[n := ∅]>)) as ->.
  { unfold edit_objects. by rewrite Hn. }
  rewrite (run_objects _ _ _ _ ∅).
  - unfold edit_objects. simpl. rewrite insert_insert_eq. do 3 f_equal.
    rewrite foldl_insert_map.
    2: { eapply sublist_NoDup; [apply (NoDup_btree_iter os)|].
         apply fmap_sublist, sublist_filter. }
    rewrite (right_id_L ∅ (∪)). apply list_to_map_filter_btree.
  - apply lookup_insert_eq.
  - apply Forall_forall. intros [i o] [_ Hin]%list_elem_of_filter. simpl.
    apply elem_of_btree_iter in Hin. by apply (Hos i o).
Qed.

Definition collection_commands (now_ms : Z) (nv : string * VersionedCollection) : list Command :=
  CmdCreateCollection nv.1 ::
  (put_command nv.1 <$>
     filter (λ io, is_expired now_ms io.2 = false) (btree_iter (objects (collection nv.2)))).

Lemma run_collections clock now_ms l : ∀ v, NoDup l.*1 →
  Forall (λ nv, v_objects v !! nv.1 = None ∧
     map_Forall (λ i o, id o = i ∧ indexable (geo o) = true) (cell_objects nv.2)) l →
  spec_run clock v (l ≫= collection_commands now_ms) =
  Some (edit_objects v (λ m, foldl (λ m nv, <[nv.1 := nv.2]> m) m
          (prod_map (λ n, n) (live_objects now_ms ∘ cell_objects) <$> l))).
Proof.
  induction l as [|[n c] l IH]; intros v Hnd Hl; [by destruct v|].
  rewrite fmap_cons in Hnd. apply NoDup_cons in Hnd as [Hn Hnd].
  apply Forall_cons in Hl as [[Hnone Hos] Hl]. simpl in Hnone, Hn.
  rewrite bind_cons, spec_run_app.
  assert (spec_run clock v (collection_commands now_ms (n, c)) =
          Some (edit_objects v (<[n := live_objects now_ms (cell_objects c)]>))) as ->
    by (by apply run_collection). cbn [base.mbind option_bind]. rewrite IH; [done..|].
  rewrite Forall_forall in Hl |- *. intros [n' c'] Hin. destruct (Hl _ Hin) as [Hn' ?].
  split; [|done]. unfold edit_objects. simpl. rewrite lookup_insert_ne; [done|].
  intros ->. apply Hn. apply list_elem_of_fmap. by exists (n', c').
Qed.

Lemma run_channels clock (l : list (string * StoredGeofence)) : ∀ v,
  Forall (λ nf, evaluable (fence_def nf.2) = true) l →
  spec_run clock v ((λ nf, CmdSetChannel nf.1 (fence_def nf.2)) <$> l) =
  Some (mkView (v_objects v)
          (foldl (λ m nd, <[nd.1 := nd.2]> m) (v_channels v) (prod_map (λ n, n) fence_def <$> l))
          (v_hooks v)).
Proof.
  induction l as [|[n f] l IH]; intros v Hl; [by destruct v|].
  apply Forall_cons in Hl as [Hd Hl]. rewrite !fmap_cons. cbn [spec_run spec_apply fst snd].
  simpl in Hd. rewrite Hd. cbn [base.mbind option_bind]. by rewrite IH.
Qed.

Lemma run_hooks clock (l : list (string * StoredHook)) : ∀ v,
  Forall (λ nh, evaluable (hook_def_of nh.2) = true) l →
  spec_run clock v ((λ nh, CmdSetHook nh.1 (endpoint nh.2) (hook_def_of nh.2)) <$> l) =
  Some (mkView (v_objects v) (v_channels v)
          (foldl (λ m nd, <[nd.1 := nd.2]> m) (v_hooks v) (prod_map (λ n, n) hook_view <$> l))).
Proof.
  induction l as [|[n f] l IH]; intros v Hl; [by destruct v|].
  apply Forall_cons in Hl as [Hd Hl]. rewrite !fmap_cons. cbn [spec_run spec_apply fst snd].
  simpl in Hd. rewrite Hd. cbn [base.mbind option_bind]. by rewrite IH.
Qed.

(** Inserting the bindings of a map one by one, in key order. *)
Lemma foldl_btree {A B} (f : A → B) (m : gmap string A) :
  foldl (λ m kv, <[kv.1 := kv.2]> m) ∅ (prod_map (λ n, n) f <$> btree_iter m) = f <$> m.
Proof.
  rewrite foldl_insert_map.
  2: { rewrite <-list_fmap_compose. apply (NoDup_btree_iter m). }
  rewrite (right_id_L ∅ (∪)), list_to_map_fmap. by rewrite list_to_map_btree_iter.
Qed.

Definition snapshot_commands (clock : Clock) (db : LatLng S) : list Command :=
  (btree_iter (db_collections db) ≫= collection_commands (now_millis clock)) ++
  ((λ nf, CmdSetChannel nf.1 (fence_def nf.2)) <$> btree_iter (channels (db_geofences db))) ++
  ((λ nh, CmdSetHook nh.1 (endpoint nh.2) (hook_def_of nh.2)) <$>
     btree_iter (hooks (db_geofences db))).

Lemma omap_commands (l : list Command) : omap command_of (LCommand <$> l) = l.
Proof. induction l as [|c l IH]; [done|]. simpl. by f_equal. Qed.

Lemma snapshot_records_commands clock db :
  omap command_of (snapshot_base_log_records clock db) = snapshot_commands clock db.
Proof.
  rewrite <-(omap_commands (snapshot_commands clock db)). f_equal.
  unfold snapshot_base_log_records, snapshot_commands. rewrite !fmap_app. f_equal; [|f_equal].
  - induction (btree_iter (db_collections db)) as [|[n v] l IH]; [done|].
    rewrite !bind_cons, fmap_app, IH. f_equal. unfold collection_records, collection_commands.
    rewrite fmap_cons. f_equal. by rewrite <-list_fmap_compose.
  - unfold channel_defs. rewrite <-!list_fmap_compose. apply list_fmap_ext. by intros ? [n f] ?.
  - unfold hook_defs. rewrite <-!list_fmap_compose. apply list_fmap_ext. by intros ? [n f] ?.
Qed.

(** The snapshot that AOFSHRINK writes means exactly the live part of the
    state. *)
Lemma snapshot_meaning clock db :
  view_wf (view db) →
  ∀ clock', spec_run clock' empty_view
    (omap command_of (snapshot_base_log_records clock db)) = Some (live (now_millis clock) (view db)).
Proof.
  intros (Hobj & Hch & Hhk) clock'. rewrite snapshot_records_commands.
  unfold snapshot_commands. rewrite spec_run_app, run_collections.
  - cbn [base.mbind option_bind]. rewrite spec_run_app, run_channels.
    + cbn [base.mbind option_bind]. rewrite run_hooks.
      * f_equal. unfold live, edit_objects, view, view_of. simpl.
        rewrite !foldl_btree. f_equal. apply map_fmap_compose.
      * apply Forall_forall. intros [n h] Hin%elem_of_btree_iter.
        apply (Hhk n (hook_view h)). unfold view. simpl. by rewrite lookup_fmap, Hin.
    + apply Forall_forall. intros [n f] Hin%elem_of_btree_iter.
      apply (Hch n (fence_def f)). unfold view. simpl. by rewrite lookup_fmap, Hin.
  - apply NoDup_btree_iter.
  - apply Forall_forall. intros [n c] Hin%elem_of_btree_iter. split; [done|].
    intros i o Hi. apply (Hobj n i o). by eapply find_stored.
Qed.

(** ** The invariant *)

(** A payload that encodes a record decodes to it. *)
Definition faithful (e : StorageEntry) : Prop :=
  ∀ r, encodes e r → json_record (command e) = Some r.

(** A log whose payloads decode and whose sequences have not wrapped. *)
Definition log_healthy (s : S) : Prop :=
  Forall (λ e, faithful e ∧ (0 < sequence e)%Z) (committed s).

Record durable (t : Z) (db : LatLng S) : Prop := mkDurable {
  dur_ready : ready db;
  dur_wf : view_wf (view db);
  dur_healthy : log_healthy (db_storage db);
  dur_log : ∃ w, (∀ clock, spec_replay clock empty_view (committed (db_storage db)) = Some w) ∧
                 stale t (view db) w
}.

Lemma spec_entry_encoded clock v e r : encodes e r → faithful e →
  spec_entry clock v e = match command_of r with Some c => spec_apply clock v c | None => Some v end.
Proof.
  intros He Hf. unfold spec_entry, decode_log_record. rewrite (Hf r He). by destruct r.
Qed.

Lemma spec_replay_encoded clock es cmds : encode_commands es cmds → Forall faithful es →
  ∀ v, spec_replay clock v es = spec_run clock v cmds.
Proof.
  intros (rs & Hrs & <-). induction Hrs as [|e r es rs He Hrs IH]; intros Hf v; [done|].
  apply Forall_cons in Hf as [Hfe Hf]. cbn [spec_replay].
  rewrite (spec_entry_encoded clock v e r) by done.
  destruct r; simpl; try by rewrite IH.
  destruct (spec_apply clock v c); simpl; [by rewrite IH | done].
Qed.

Lemma healthy_app l1 l2 :
  Forall (λ e, faithful e ∧ (0 < sequence e)%Z) (l1 ++ l2) → Forall faithful l2.
Proof. intros [_ H]%Forall_app. eapply Forall_impl; [exact H|]. by intros ? [? _]. Qed.

(** Logging commands and changing the view as they say. *)
Lemma effect_durable t t' db db' cmds :
  durable t db → (t ≤ t')%Z → effect db db' cmds → log_healthy (db_storage db') → durable t' db'.
Proof.
  intros [_ Hwf _ (w & Hw & Hst)] Ht [Hr (es & Hc & He) Hsteps] Hh.
  split; [done|by eapply spec_steps_wf|done|].
  apply (stale_mono t t') in Hst; [|done].
  destruct (stale_steps _ _ _ _ Hsteps w Hst) as (w' & Hw' & Hst').
  exists w'. split; [|done]. intros clock. rewrite Hc, spec_replay_app, Hw.
  cbn [base.mbind option_bind]. rewrite (spec_replay_encoded _ _ cmds); [done..|].
  unfold log_healthy in Hh. rewrite Hc in Hh. by eapply healthy_app.
Qed.

(** *** Requests *)

Inductive Request : Type :=
  | RqSet (req : SetRequest)
  | RqDel (n i : string)
  | RqPdel (n pattern : string)
  | RqFset (n i : string) (fs : list FieldEntry) (xx : bool)
  | RqExpire (n i : string) (seconds : Z)
  | RqPersist (n i : string)
  | RqJset (n i path value : string) (raw : bool)
  | RqJdel (n i path : string)
  | RqCreate (n : string)
  | RqDrop (n : string)
  | RqRename (n n' : string) (nx : bool)
  | RqSetChan (n : string) (d : GeofenceDef)
  | RqDelChan (n : string)
  | RqPdelChan (pattern : string)
  | RqSetHook (n url : string) (d : GeofenceDef)
  | RqDelHook (n : string)
  | RqPdelHook (pattern : string)
  | RqFlushDb
  | RqExpireDue (now_ms : Z) (max : nat).

Definition forget {A} (m : M A) : M (S := S) unit := mbind m (λ _, mret tt).

Definition execute (clock : Clock) (rq : Request) : M (S := S) unit :=
  match rq with
  | RqSet req => forget (op_set clock req)
  | RqDel n i => forget (op_del clock n i)
  | RqPdel n pattern => forget (op_pdel clock n pattern)
  | RqFset n i fs xx => forget (op_fset clock n i fs xx)
  | RqExpire n i seconds => op_expire clock n i seconds
  | RqPersist n i => op_persist clock n i
  | RqJset n i path value raw => forget (op_jset clock n i path value raw)
  | RqJdel n i path => forget (op_jdel clock n i path)
  | RqCreate n => forget (op_create_collection clock n)
  | RqDrop n => forget (op_drop_collection clock n)
  | RqRename n n' nx => forget (rename_inner clock n n' nx)
  | RqSetChan n d => op_setchan clock n d
  | RqDelChan n => forget (op_delchan clock n)
  | RqPdelChan pattern => forget (op_pdelchan clock pattern)
  | RqSetHook n url d => op_sethook clock n url d
  | RqDelHook n => forget (op_delhook clock n)
  | RqPdelHook pattern => forget (op_pdelhook clock pattern)
  | RqFlushDb => op_flushdb clock
  | RqExpireDue now_ms max => forget (op_expire_due clock now_ms max)
  end.

(** The requests that write a geometry fail in the spatial index when the
    geometry has no envelope. *)
Definition indexed (rq : Request) (r : result unit CoreError) : Prop :=
  match rq with
  | RqSet _ | RqJset _ _ _ _ _ | RqJdel _ _ _ => not_index_error r
  | _ => True
  end.

Lemma forget_state {A} (m : M A) db : (forget m db).1 = (m db).1.
Proof. unfold forget, mbind. by destruct (m db) as [db1 [a|e]]. Qed.

Lemma forget_index {A} (m : M (S := S) A) db :
  not_index_error (forget m db).2 → not_index_error (m db).2.
Proof.
  unfold forget, mbind, not_index_error. destruct (m db) as [db1 [a|e]]; simpl; [done|].
  intros H e' [= ->]. by apply (H e').
Qed.

Lemma execute_effect clock rq db :
  ready db → rq ≠ RqFlushDb → indexed rq (execute clock rq db).2 →
  ∃ cmds, effect db (execute clock rq db).1 cmds.
Proof.
  intros Hr Hne Hix. destruct rq; simpl in Hix |- *; rewrite ?forget_state; try done;
    try apply forget_index in Hix.
  - by apply op_set_effect.
  - by apply op_del_effect.
  - by apply op_pdel_effect.
  - by apply op_fset_effect.
  - by apply op_expire_effect.
  - by apply op_persist_effect.
  - by apply op_jset_effect.
  - by apply op_jdel_effect.
  - by apply op_create_collection_effect.
  - by apply op_drop_collection_effect.
  - by apply rename_effect.
  - by apply op_setchan_effect.
  - by apply op_delchan_effect.
  - by apply op_pdelchan_effect.
  - by apply op_sethook_effect.
  - by apply op_delhook_effect.
  - by apply op_pdelhook_effect.
  - by apply op_expire_due_effect.
Qed.

(** *** Flushing, collecting, compacting, restarting *)

Lemma empty_view_of r : view_of ∅ (clear_all r) = empty_view.
Proof. unfold view_of. simpl. by rewrite !fmap_empty. Qed.

Lemma empty_view_wf : view_wf empty_view.
Proof.
  split_and!; [|apply map_Forall_empty..]. intros n i o. unfold find_object. simpl.
  by rewrite lookup_empty.
Qed.

Lemma op_flushdb_durable clock t db :
  durable t db → (t ≤ now_millis clock)%Z → log_healthy (db_storage (op_flushdb clock db).1) →
  durable (now_millis clock) (op_flushdb clock db).1.
Proof.
  intros Hdur Ht. pose proof Hdur as [Hr Hwf Hh (w & Hw & _)].
  change (wp (op_flushdb clock)
    (λ db' _, log_healthy (db_storage db') → durable (now_millis clock) db') db).
  unfold op_flushdb. apply wp_bind, wp_writable.
  2: { intros Hh1. eapply effect_durable; [done..|by apply effect_refl|done]. }
  apply wp_bind, wp_append; [done| |].
  2: { intros db1 e Ha Hh1. eapply effect_durable; [done..|by apply effect_append|done]. }
  intros db1 seq (Hc & Hg & Hi & Hst & es & Hlog & Henc).
  apply wp_bind, wp_put_collections. intros db2 Hc2 Hg2 Hs2. apply wp_bind, wp_get.
  apply wp_bind, wp_put_geofences. intros db3 Hc3 Hg3 Hs3. unfold wp, snapshot_storage.
  rewrite Hs3, Hs2.
  destruct (snapshot (db_storage db1) []) as [s' r] eqn:Hsnap. cbn [fst snd db_storage].
  intros Hh'.
  set (db4 := mkDb _ _ _ _ _ _).
  assert (view db4 = empty_view) as Hv.
  { unfold view, db4. cbn [db_collections db_geofences]. rewrite Hc3, Hc2, Hg3.
    apply empty_view_of. }
  assert (storage_inv s' ∧ stores_command_log s' = true ∧
          ∀ clock', spec_replay clock' empty_view (committed s') = Some empty_view)
    as (Hi' & Hst' & Hrep).
  { destruct r as [[]|e].
    - destruct (snapshot_Ok _ _ _ Hi Hsnap) as (? & Hcom & ->). split_and!; [done..|].
      intros clock'. by rewrite Hcom.
    - destruct (snapshot_Err _ _ _ _ Hi Hsnap) as (? & Hcom & ->). split_and!; [done..|].
      unfold log_healthy in Hh'. rewrite Hcom, Hlog in Hh'.
      intros clock'. rewrite Hcom, Hlog, spec_replay_app, Hw. cbn [base.mbind option_bind].
      rewrite (spec_replay_encoded _ _ [CmdFlushDb]); [done..|]. by eapply healthy_app. }
  split; [|rewrite Hv; apply empty_view_wf|done|exists empty_view; split; [done|]].
  - split_and!; [done..|]. unfold db4. cbn [db_collections]. rewrite Hc3, Hc2.
    apply map_Forall_empty.
  - rewrite Hv. apply stale_refl.
Qed.

Lemma live_wf t v : view_wf v → view_wf (live t v).
Proof.
  intros Hwf. apply (restrict_wf v); [done| |done..]. intros n i o. rewrite find_live, bind_Some.
  intros (o' & Ho & Hi). exists n. destruct (is_expired t o'); congruence.
Qed.

Lemma op_gc_durable clock t db :
  durable t db → (t ≤ now_millis clock)%Z → durable (now_millis clock) (op_gc clock db).1.
Proof.
  intros [(Hi & Hst & Hcs) Hwf Hh (w & Hw & Hsl)] Ht.
  destruct (gc_collections_spec (now_millis clock) _ (db_geofences db) Hcs) as [Hview Hcs'].
  set (db' := (op_gc clock db).1).
  assert (view db' = live (now_millis clock) (view db)) as Hv by exact Hview.
  split; [done|rewrite Hv; by apply live_wf|done|]. exists w. split; [done|]. rewrite Hv.
  apply stale_gc. by eapply stale_mono.
Qed.

(** No stored object has expired. *)
Definition swept (now_ms : Z) (v : View) : Prop :=
  ∀ n i o, find_object v n i = Some o → is_expired now_ms o = false.

Lemma live_swept t v : swept t v → live t v = v.
Proof.
  intros Hs. apply view_ext; [apply dom_live| |done|done]. intros n i. rewrite find_live.
  destruct (find_object v n i) as [o|] eqn:Ho; simpl; [|done]. by rewrite (Hs n i o Ho).
Qed.

(** What AOFSHRINK does to the log: replaces it by the encoded snapshot, or
    nothing. *)
Lemma wp_aofshrink clock db Q :
  ready db →
  (∀ db' stats, ready db' → view db' = view db →
     encode_commands (committed (db_storage db'))
       (omap command_of (snapshot_base_log_records clock db)) → Q db' (Ok stats)) →
  (∀ db' e, ready db' → view db' = view db →
     committed (db_storage db') = committed (db_storage db) → Q db' (Err e)) →
  wp (op_aofshrink clock) Q db.
Proof.
  intros Hr Hok Herr. pose proof Hr as (Hi & Hst & Hcs).
  unfold op_aofshrink. apply wp_bind, wp_get. unfold rewrite_log_snapshot.
  apply wp_bind, wp_get. rewrite Hst. cbn [negb].
  apply wp_bind, wp_lift. rewrite last_sequence_committed. cbn [map_err].
  destruct (replay (db_storage db) 0 _ []) as [seen r].
  apply wp_bind, wp_lift. destruct (map_err CStorage r) as [?|e]; [|by apply Herr].
  apply wp_bind, wp_lift.
  destruct (encode_entries_for_sequences _ _ _) as [es|e] eqn:He; [|by apply Herr].
  apply encode_entries_spec in He; [|by rewrite length_fmap, length_seq].
  apply wp_bind. unfold wp at 1, snapshot_storage.
  destruct (snapshot (db_storage db) es) as [s' [[]|e]] eqn:Hsnap; cbn [fst snd map_err].
  - destruct (snapshot_Ok _ _ _ Hi Hsnap) as (Hi' & Hcom & Hst'). rewrite Hst in Hst'.
    apply Hok; [done..|]. simpl. rewrite Hcom. by exists (snapshot_base_log_records clock db).
  - destruct (snapshot_Err _ _ _ _ Hi Hsnap) as (Hi' & Hcom & Hst'). rewrite Hst in Hst'.
    by apply Herr.
Qed.

Lemma snapshot_log_meaning clock clock' db es :
  view_wf (view db) → Forall (λ e, faithful e ∧ (0 < sequence e)%Z) es →
  encode_commands es (omap command_of (snapshot_base_log_records clock db)) →
  spec_replay clock' empty_view es = Some (live (now_millis clock) (view db)).
Proof.
  intros Hwf Hh He. rewrite (spec_replay_encoded _ _ _ He); [by apply snapshot_meaning|].
  by apply (healthy_app [] es).
Qed.

Lemma op_aofshrink_durable clock t db :
  durable t db → (t ≤ now_millis clock)%Z → swept (now_millis clock) (view db) →
  log_healthy (db_storage (op_aofshrink clock db).1) →
  durable (now_millis clock) (op_aofshrink clock db).1.
Proof.
  intros [Hr Hwf _ (w & Hw & Hsl)] Ht Hsw.
  apply (wp_aofshrink clock db
    (λ db' _, log_healthy (db_storage db') → durable (now_millis clock) db')); [done|..].
  - intros db' stats Hr' Hv He Hh'. split; [done|by rewrite Hv|done|].
    exists (view db). rewrite Hv. split; [|apply stale_refl].
    intros clock'. rewrite (snapshot_log_meaning clock clock' db) by done.
    by rewrite live_swept.
  - intros db' e Hr' Hv Hcom Hh'. split; [done|by rewrite Hv|done|].
    exists w. rewrite Hcom, Hv. split; [done|]. by eapply stale_mono.
Qed.

(** Starting from a log with a meaning. *)
Lemma build_replays clock s config w :
  log_healthy s → (∀ clock', spec_replay clock' empty_view (committed s) = Some w) →
  ∃ db', build clock (Some s) config = Ok db' ∧
         view db' = live (now_millis clock) w ∧
         db_storage db' = s ∧ cells_inv (db_collections db').
Proof.
  intros Hh Hw. unfold build. rewrite replay_committed, replay_entries_all.
  2: { eapply Forall_impl; [exact Hh|]. by intros e [_ ?]. }
  pose proof (replay_loop_spec clock (committed s) ∅
    (registry_new (config_queue_capacity config)) 0 0 (map_Forall_empty _)) as Hrep.
  assert (view_of ∅ (registry_new (config_queue_capacity config)) = empty_view) as Hev.
  { unfold view_of. simpl. by rewrite !fmap_empty. }
  rewrite Hev, Hw in Hrep. destruct Hrep as (cs & r & last & last0 & -> & Hv & Hcs).
  destruct (gc_collections_spec (now_millis clock) cs r Hcs) as [Hview Hcs'].
  eexists. split; [done|]. split_and!; [|done|done].
  unfold view. cbn [db_collections db_geofences]. by rewrite Hview, Hv.
Qed.

(** Starting from the log of a durable state. *)
Lemma build_recovers clock t db s config :
  durable t db → (t ≤ now_millis clock)%Z →
  committed s = committed (db_storage db) →
  ∃ db', build clock (Some s) config = Ok db' ∧
         view db' = live (now_millis clock) (view db) ∧
         db_storage db' = s ∧ cells_inv (db_collections db').
Proof.
  intros [_ _ Hh (w & Hw & Hsl)] Ht Hcom.
  destruct (build_replays clock s config w) as (db' & ? & Hv & ?).
  { unfold log_healthy. by rewrite Hcom. }
  { by rewrite Hcom. }
  exists db'. split; [done|]. split; [|done]. rewrite Hv. symmetry.
  apply stale_live. by eapply stale_mono.
Qed.

Lemma restart_durable clock t db s config db' :
  durable t db → (t ≤ now_millis clock)%Z →
  storage_inv s → stores_command_log s = true →
  committed s = committed (db_storage db) → build clock (Some s) config = Ok db' →
  durable (now_millis clock) db'.
Proof.
  intros Hdur Ht Hi Hst Hcom Hb.
  destruct (build_recovers clock t db s config Hdur Ht Hcom) as (db2 & Hb2 & Hv & Hs & Hcs).
  rewrite Hb in Hb2. injection Hb2 as <-.
  destruct Hdur as [_ Hwf Hh (w & Hw & Hsl)].
  split; [by split_and!; rewrite ?Hs|rewrite Hv; by apply live_wf| |].
  - unfold log_healthy. by rewrite Hs, Hcom.
  - exists w. rewrite Hs, Hcom. split; [done|]. rewrite Hv. apply stale_gc.
    by eapply stale_mono.
Qed.

End Snapshot.
