(* ===== verification/Recovery.v ===== *)
(** * Runs, restarts, replicas: the engine's guarantees

    The theorems of the engine, over runs of requests, sweeps, compactions
    and restarts, with witnesses on a recording in-memory backend and a small
    concrete codec. *)

From Stdlib Require Import ZArith Lia SpecFloat.
From stdpp Require Import base gmap strings list sorting.
From S2P Require Import Prelude Storage F64 Json Platform Geo Strings Index IndexSpec Geofence.
From S2P Require Import GeofenceSpec Collection CollectionSpec Engine EngineSpec EngineLogic EngineOps.
From S2P Require Import StorageMemory Durability.

Section Recovery.
Context `{LM : Libm} `{GC : GeoCrate} `{RC : RTreeCrate} `{JT : JsonText} `{PT : Patterns}
  `{HO : HashOrder} `{LC : LogCodec} `{MD : Md5} `{B64 : Base64}.
Context {S : Type} `{SB : StorageBackend S} `{SL : !StorageLaws S}.

Implicit Types db : LatLng S.

(** ** Runs *)

(** One event in the life of a database.  A restart may find its storage in
    another state [s], as long as that holds the same committed log. *)
Inductive engine_step (clock : Clock) : LatLng S → LatLng S → Prop :=
  | step_request rq db :
      indexed rq (execute clock rq db).2 → engine_step clock db (execute clock rq db).1
  | step_gc db : engine_step clock db (op_gc clock db).1
  | step_aofshrink db :
      swept (now_millis clock) (view db) → engine_step clock db (op_aofshrink clock db).1
  | step_set_timeout cmd seconds db : engine_step clock db (op_set_timeout cmd seconds db).1
  | step_restart s config db db' :
      storage_inv s → stores_command_log s = true →
      committed s = committed (db_storage db) →
      build clock (Some s) config = Ok db' → engine_step clock db db'.

(** A sequence of events under clocks that do not go back; [t] is the last
    clock reading. *)
Inductive run : Z → LatLng S → Z → LatLng S → Prop :=
  | run_nil t db : run t db t db
  | run_step t db clock db1 t' db' :
      (t ≤ now_millis clock)%Z → engine_step clock db db1 → log_healthy (db_storage db1) →
      run (now_millis clock) db1 t' db' → run t db t' db'.

Definition fresh (s : S) (config : Config) : LatLng S :=
  mkDb ∅ (registry_new (config_queue_capacity config)) s config 0 0.

Lemma fresh_view s config : view (fresh s config) = empty_view.
Proof. unfold view, view_of. simpl. by rewrite !fmap_empty. Qed.

Lemma fresh_durable t s config :
  storage_inv s → stores_command_log s = true → committed s = [] → durable t (fresh s config).
Proof.
  intros Hi Hst Hc. split.
  - split_and!; [done..|]. apply map_Forall_empty.
  - rewrite fresh_view. apply empty_view_wf.
  - unfold log_healthy. simpl. rewrite Hc. constructor.
  - exists empty_view. simpl. rewrite Hc. split; [done|]. rewrite fresh_view. apply stale_refl.
Qed.

Lemma step_durable clock t db db' :
  durable t db → (t ≤ now_millis clock)%Z → engine_step clock db db' →
  log_healthy (db_storage db') → durable (now_millis clock) db'.
Proof.
  intros Hdur Ht Hstep Hh.
  destruct Hstep as [rq db0 Hix|db0|db0 Hsw|cmd seconds db0|s config db0 db1 Hi Hst Hc Hb].
  - assert (rq = RqFlushDb ∨ rq ≠ RqFlushDb) as [->|Hne].
    { destruct rq; try (by left); by right. }
    { exact (op_flushdb_durable clock t db0 Hdur Ht Hh). }
    destruct (execute_effect clock rq db0 (dur_ready _ _ Hdur) Hne Hix) as [cmds He].
    by eapply effect_durable.
  - by eapply op_gc_durable.
  - by eapply op_aofshrink_durable.
  - eapply effect_durable; [done..| |done]. apply effect_append; [apply Hdur|].
    destruct (dur_ready _ _ Hdur) as (? & ? & _). by apply appended_nil.
  - by eapply restart_durable.
Qed.

Lemma run_durable t db t' db' : run t db t' db' → durable t db → durable t' db'.
Proof.
  induction 1 as [|t db clock db1 t' db' Ht Hstep Hh _ IH]; [done|]. intros Hdur.
  apply IH. by eapply step_durable.
Qed.

(** ** Replicas *)

Lemma mbind_Ok {A B} (m : M A) (k : A → M B) db db1 a :
  m db = (db1, Ok a) → mbind m k db = k a db1.
Proof. intros Hm. unfold mbind. by rewrite Hm. Qed.

Lemma apply_entries_cons clock e es db :
  apply_entries clock (e :: es) db =
  let '(cs, r, res) := apply_persisted_entry clock (db_collections db) (db_geofences db) e in
  let db1 := mkDb cs r (db_storage db) (db_config db) (db_next_sequence db)
               (db_expired_objects_total db) in
  match res with
  | Ok _ => apply_entries clock es db1
  | Err err => (db1, Err err)
  end.
Proof.
  cbn [apply_entries]. unfold mbind, mget, mlift, put_collections, put_geofences.
  destruct (apply_persisted_entry _ _ _ _) as [[cs r] [[]|err]]; done.
Qed.

Lemma apply_entries_spec clock es : ∀ db, cells_inv (db_collections db) →
  match spec_replay clock (view db) es with
  | Some v => ∃ db', apply_entries clock es db = (db', Ok tt) ∧ view db' = v ∧
                     cells_inv (db_collections db') ∧ db_storage db' = db_storage db
  | None => ∃ db' e, apply_entries clock es db = (db', Err e)
  end.
Proof.
  induction es as [|e es IH]; intros db Hcs; [by exists db|]. cbn [spec_replay].
  pose proof (apply_persisted_entry_spec clock (db_collections db) (db_geofences db) e Hcs) as He.
  fold (view db) in He. destruct (spec_entry clock (view db) e) as [v|].
  - destruct He as (cs & r & Ha & Hv & Hcs'). cbn [base.mbind option_bind].
    specialize (IH (mkDb cs r (db_storage db) (db_config db) (db_next_sequence db)
                      (db_expired_objects_total db)) Hcs').
    unfold view in IH at 1. cbn [db_collections db_geofences db_storage] in IH. rewrite Hv in IH.
    rewrite apply_entries_cons, Ha. exact IH.
  - destruct He as (cs & r & err & Ha). cbn [base.mbind option_bind].
    rewrite apply_entries_cons, Ha. by do 2 eexists.
Qed.

(** A batch that continues the sequence, that the storage takes and whose
    records have a meaning, is applied and then swept. *)
Lemma apply_replicated_Ok clock first rest (es := first :: rest) db s' v :
  sequence first = wrapping_add (db_next_sequence db) 1 →
  append_batch (db_storage db) es = (s', Ok tt) → cells_inv (db_collections db) →
  spec_replay clock (view db) es = Some v →
  ∃ db', op_apply_replicated_entries clock es db = (db', Ok (last_seq_of es)) ∧
         view db' = live (now_millis clock) v ∧ cells_inv (db_collections db') ∧
         db_storage db' = s' ∧ db_next_sequence db' = last_seq_of es.
Proof.
  intros Hfirst Happend Hcs Hv.
  pose proof (apply_entries_spec clock es
    (mkDb (db_collections db) (db_geofences db) s' (db_config db) (db_next_sequence db)
       (db_expired_objects_total db)) Hcs) as Happ.
  change (view (mkDb _ _ s' _ _ _)) with (view db) in Happ. rewrite Hv in Happ.
  destruct Happ as (db1 & Happ & Hv1 & Hcs1 & Hs1).
  destruct (gc_collections_spec (now_millis clock) _ (db_geofences db1) Hcs1) as [Hgc Hcs2].
  assert (∀ d, from_option sequence d (last es) = last_seq_of es) as Hlast.
  { intros d. unfold last_seq_of. destruct (last es) eqn:He; [done|]. by apply last_None in He. }
  eexists. split.
  - unfold op_apply_replicated_entries, es. etrans; [by apply mbind_Ok|].
    rewrite Hfirst, Z.eqb_refl. cbn [negb]. fold es. rewrite Hlast.
    etrans; [eapply mbind_Ok; unfold append_entries; fold es; by rewrite Happend|].
    etrans; [apply mbind_Ok; exact Happ|].
    etrans; [by apply mbind_Ok|]. by etrans; [by apply mbind_Ok|].
  - split_and!; [|done|done|done].
    unfold view. cbn [db_collections db_geofences]. rewrite Hgc. fold (view db1). by rewrite Hv1.
Qed.

(** ** SET on its own, with any backend *)

Lemma upsert_objects c o c' :
  upsert c o = (c', Ok tt) → objects c' = <[id o := o]> (objects c).
Proof.
  unfold upsert. destruct (objects c !! id o);
    by destruct (spatial_insert _ (id o) (geo o)) as [s' [[]|e]]; intros; simplify_eq.
Qed.

Lemma find_put_cell (cs : Collections) r n c n' i' :
  find_object (view_of (<[n := c]> cs) r) n' i' =
  if decide (n = n') then cell_objects c !! i' else find_object (view_of cs r) n' i'.
Proof.
  unfold find_object. rewrite !view_lookup. case_decide as Hn.
  - subst. by rewrite lookup_insert_eq.
  - by rewrite lookup_insert_ne.
Qed.

Lemma ensure_cell_find (cs : Collections) r n i :
  objects (collection (ensure_cell cs n)) !! i = find_object (view_of cs r) n i.
Proof.
  unfold find_object. rewrite view_lookup. unfold ensure_cell.
  destruct (cs !! n); simpl; [done|]. by rewrite lookup_empty.
Qed.

(** Logging changes the storage and the counter only. *)
Lemma wp_persist_frame clock cmd ws db (Q : LatLng S → result (list Z) CoreError → Prop) :
  (∀ db1 r, db_collections db1 = db_collections db → db_geofences db1 = db_geofences db →
            Q db1 r) → wp (persist_command_batch clock cmd ws) Q db.
Proof.
  intros HQ. unfold persist_command_batch. apply wp_bind. unfold wp at 1. cbn [fst snd].
  apply wp_bind, wp_get. destruct (negb _); [by apply wp_ret, HQ|].
  apply wp_bind, wp_lift. destruct (encode_entries_for_sequences _ _ _); [|by apply HQ].
  apply wp_bind. unfold wp at 1, append_entries. destruct (append_batch _ _) as [s' [[]|e]];
    [apply wp_ret|]; by apply HQ.
Qed.

(** The object a SET stores. *)
Definition set_object (clock : Clock) (req : SetRequest) (before : option Object) : Object :=
  mkObject (sr_id req) (sr_object req) (merged_set_fields before (sr_fields req))
    (expiry_of clock (sr_expire_seconds req)).

(** What a SET that answered did. *)
Definition set_done (clock : Clock) (req : SetRequest) (db db' : LatLng S) (b : bool) : Prop :=
  let before := find_object (view db) (sr_collection req) (sr_id req) in
  b = negb (condition_fails (sr_condition req) (bool_decide (is_Some before))) ∧
  (b = false → db' = db) ∧
  (b = true → ∀ n i, find_object (view db') n i =
     if decide (sr_collection req = n ∧ sr_id req = i) then Some (set_object clock req before)
     else find_object (view db) n i).

Lemma set_stored clock req db db' c' :
  let before := find_object (view db) (sr_collection req) (sr_id req) in
  let cell := ensure_cell (db_collections db) (sr_collection req) in
  upsert (collection cell) (set_object clock req before) = (c', Ok tt) →
  (∀ n i, find_object (view db') n i =
          find_object (view_of (<[sr_collection req := bump cell c']> (db_collections db))
                               (db_geofences db)) n i) →
  ∀ n i, find_object (view db') n i =
    if decide (sr_collection req = n ∧ sr_id req = i) then Some (set_object clock req before)
    else find_object (view db) n i.
Proof.
  intros before cell Hup%upsert_objects Hv n i. rewrite Hv, find_put_cell.
  destruct (decide (sr_collection req = n)) as [<-|Hn].
  - unfold cell_objects. simpl. rewrite Hup. destruct (decide (sr_id req = i)) as [<-|Hi].
    + rewrite decide_True by done. apply lookup_insert_eq.
    + rewrite decide_False by tauto. rewrite lookup_insert_ne by done. apply ensure_cell_find.
  - by rewrite decide_False by tauto.
Qed.

Lemma set_body_done clock req db :
  wp (set_body clock req (ensure_cell (db_collections db) (sr_collection req)))
     (λ db' r, ∀ b, r = Ok b → set_done clock req db db' b) db.
Proof.
  unfold set_body. rewrite (ensure_cell_find _ (db_geofences db)). fold (view db).
  set (before := find_object (view db) (sr_collection req) (sr_id req)).
  destruct (condition_fails _ _) eqn:Hcond.
  { apply wp_ret. intros b [= <-]. unfold set_done. fold before. by rewrite Hcond. }
  apply wp_bind, wp_plan. intros p. apply wp_bind, wp_webhooks. intros [ws|e]; [|done].
  apply wp_bind, wp_persist_frame. intros db1 [seqs|e] Hc Hg; [|done].
  fold (set_object clock req before).
  destruct (upsert _ _) as [c' [[]|e]] eqn:Hup.
  - apply wp_bind, wp_put_collection. intros db2 Hc2 Hg2 Hs2.
    apply wp_bind, wp_apply_prepared. intros db3 Hc3 Hv3 Hs3.
    apply wp_ret. intros b [= <-]. unfold set_done. fold before. rewrite Hcond.
    split_and!; [done..|]. intros _. eapply set_stored; [exact Hup|]. intros n i.
    rewrite Hv3. unfold view. by rewrite Hc2, Hg2, Hc, Hg.
  - apply wp_bind, wp_put_collection. by intros.
Qed.

Lemma set_fast_done clock req v db :
  db_collections db !! sr_collection req = Some v →
  sr_condition req = Always → sr_expire_seconds req = None →
  wp (set_fast req v) (λ db' r, ∀ b, r = Ok b → set_done clock req db db' b) db.
Proof.
  intros Hn Hcond Hexp. rewrite <-(ensure_cell_found _ _ _ Hn). unfold set_fast.
  apply wp_bind. unfold wp at 1. cbn [reserve_sequences fst snd].
  rewrite (ensure_cell_find _ (db_geofences db)). fold (view db).
  replace (mkObject (sr_id req) (sr_object req) _ None) with
    (set_object clock req (find_object (view db) (sr_collection req) (sr_id req)))
    by (unfold set_object; by rewrite Hexp).
  destruct (upsert _ _) as [c' [[]|e]] eqn:Hup;
    apply wp_bind, wp_put_collection; intros db2 Hc2 Hg2 _; [apply wp_ret|done].
  intros b [= <-]. unfold set_done. rewrite Hcond. split_and!; [done..|]. intros _.
  eapply set_stored; [exact Hup|]. intros n i. unfold view at 1. by rewrite Hc2, Hg2.
Qed.

(** ** Read-only engines *)

Lemma read_only_execute (clock : Clock) (rq : Request) (db : LatLng S)
    (Hro : read_only (db_config db) = true) :
  (execute clock rq db).1 = db ∧
  match rq with
  | RqExpireDue _ _ => (execute clock rq db).2 = Ok tt
  | _ => is_ok (execute clock rq db).2 = false
  end.
Proof.
  assert (∀ {A} (k : unit → M A), mbind ensure_writable k db = (db, Err ReadOnly)) as Hw.
  { intros A k. unfold mbind, ensure_writable. by rewrite Hro. }
  assert (∀ {A} (r : result unit CoreError) (k : unit → M A),
    ∃ e, mbind (mlift r) (λ _, mbind ensure_writable k) db = (db, Err e)) as Hv.
  { intros A [[]|e] k; [|by exists e]. exists ReadOnly. apply Hw. }
  assert (∀ {A} (m : M A) e, m db = (db, Err e) →
    (forget m db).1 = db ∧ is_ok (forget m db).2 = false) as Hf.
  { intros A m e Hm. unfold forget, mbind. by rewrite Hm. }
  destruct rq; cbn [execute]; try (eapply Hf; apply Hw).
  - unfold op_set. apply (Hf _ _ (if validate_geo (sr_object req) is Err e then CGeo e else ReadOnly)).
    unfold mbind at 1, mlift. destruct (validate_geo (sr_object req)) as [[]|e]; [|done].
    unfold try_set_local, mbind at 1. by rewrite Hw.
  - unfold op_expire, expiry_body. by rewrite Hw.
  - unfold op_persist, expiry_body. by rewrite Hw.
  - unfold op_setchan. by edestruct (Hv unit) as [e ->].
  - unfold op_sethook. by edestruct (Hv unit) as [e ->].
  - unfold op_flushdb. by rewrite Hw.
  - unfold forget, op_expire_due, mbind, mget. by rewrite Hro.
Qed.

(** ** The theorems *)

(** C4: replaying a log through the engine computes the meaning of the log:
    from any engine state the replay ends without an error exactly when every
    command of the log has a meaning, and then the view it ends in is the one
    [spec_replay] gives. *)
Theorem replay_computes_meaning (clock : Clock) (es : list StorageEntry) (cs : Collections)
    (r : GeofenceRegistry) (last : Z) (Hcs : cells_inv cs) :
  match spec_replay clock (view_of cs r) es with
  | Some v => ∃ cs' r' last' n,
      replay_loop (replay_callback clock) 0 (cs, r, last) es = ((cs', r', last'), Ok n) ∧
      view_of cs' r' = v
  | None => ∃ st err, replay_loop (replay_callback clock) 0 (cs, r, last) es = (st, Err err)
  end.
Proof.
  pose proof (replay_loop_spec clock es cs r last 0 Hcs) as Hrep.
  destruct (spec_replay _ _ _); [|done].
  destruct Hrep as (cs' & r' & last' & n & ? & ? & _). eauto 10.
Qed.


(** C1: a restart recovers the state.  Start from an empty database over any
    storage that keeps a command log, and let client requests, sweeps,
    compactions, timeouts and restarts follow each other under clocks that do
    not go back, such that no SET, JSET or JDEL answers with an error of the
    spatial index ([indexed]; see [refused_set_blocks_restart]), AOFSHRINK
    runs only when no stored object has expired ([swept]; see
    [revived_object_lost_after_shrink]), and after every step the payloads of
    the log decode to the records they encode, with sequences that have not
    wrapped ([log_healthy]).  Then starting again, no earlier than the last
    step, from a storage with the same committed log succeeds and gives
    exactly the objects that have not expired, every channel and every hook.
    *)
Theorem restart_recovers (s0 s : S) (config0 config : Config) (t0 t : Z) (db : LatLng S)
    (clock : Clock)
    (Hinv : storage_inv s0) (Hlogs : stores_command_log s0 = true) (Hempty : committed s0 = [])
    (Hrun : run t0 (fresh s0 config0) t db)
    (Hlog : committed s = committed (db_storage db)) (Hclock : (t ≤ now_millis clock)%Z) :
  ∃ db', build clock (Some s) config = Ok db' ∧
         view db' = live (now_millis clock) (view db).
Proof.
  assert (durable t db) as Hdur.
  { eapply run_durable; [exact Hrun|]. by apply fresh_durable. }
  destruct (build_recovers clock t db s config Hdur Hclock Hlog) as (db' & ? & ? & _). eauto.
Qed.

(** C20: compaction keeps the live state.  In a database over a storage that
    keeps a command log, whose indexes agree with the objects ([ready]) and
    whose objects sit under their ids and can be indexed and whose fences can
    be evaluated ([view_wf]), when AOFSHRINK succeeds and the records it
    writes decode to what they encode ([log_healthy]), the log it leaves means
    the objects that had not expired, every channel and every hook, and the
    state in memory is untouched. *)
Theorem aofshrink_keeps_live (clock clock' : Clock) (db db' : LatLng S) (stats : CompactionResult)
    (Hready : ready db) (Hwf : view_wf (view db))
    (Hshrink : op_aofshrink clock db = (db', Ok stats))
    (Hhealthy : log_healthy (db_storage db')) :
  view db' = view db ∧
  spec_replay clock' empty_view (committed (db_storage db')) =
    Some (live (now_millis clock) (view db)).
Proof.
  assert (wp (op_aofshrink clock) (λ db' r, is_ok r = true → log_healthy (db_storage db') →
    view db' = view db ∧ spec_replay clock' empty_view (committed (db_storage db')) =
      Some (live (now_millis clock) (view db))) db) as Hwp.
  { apply wp_aofshrink; [done| |done]. intros db1 st _ Hv He _ Hh. split; [done|].
    by eapply snapshot_log_meaning. }
  unfold wp in Hwp. rewrite Hshrink in Hwp. by apply Hwp.
Qed.

(** C23: what SET does, on every path and with every backend, when it answers:
    the answer is [false] exactly when the NX or XX condition fails, and then
    nothing has changed; when it is [true] the object stored under the id has
    the requested geometry, the merged fields and the requested deadline, and
    no other object of any collection has changed. *)
Theorem set_answers (clock : Clock) (req : SetRequest) (db db' : LatLng S) (b : bool)
    (Hset : op_set clock req db = (db', Ok b)) :
  set_done clock req db db' b.
Proof.
  assert (wp (op_set clock req) (λ db' r, ∀ b, r = Ok b → set_done clock req db db' b) db) as Hwp.
  2: { unfold wp in Hwp. rewrite Hset in Hwp. by apply Hwp. }
  unfold op_set. apply wp_bind, wp_lift. destruct (map_err _ _) as [[]|]; [|done].
  assert (wp (set_exclusive clock req) (λ db' r, ∀ b, r = Ok b → set_done clock req db db' b) db)
    as Hex.
  { unfold set_exclusive. apply wp_bind, wp_writable; [|done]. apply wp_bind, wp_get.
    apply set_body_done. }
  apply wp_bind. unfold try_set_local. apply wp_bind, wp_writable; [|done].
  apply wp_bind, wp_get. destruct (requires_exclusive_roam_path _ _); [exact Hex|].
  destruct (db_collections db !! sr_collection req) as [v|] eqn:Hn; [|exact Hex].
  destruct (_ && _) eqn:Hfast.
  - apply wp_bind. eapply wp_mono.
    + apply (set_fast_done clock); [done|..];
        destruct (sr_condition req), (sr_expire_seconds req);
        rewrite ?andb_false_r in Hfast; done.
    + by intros db1 [b'|e] HQ.
  - apply wp_bind. rewrite <-(ensure_cell_found _ _ _ Hn). eapply wp_mono; [apply set_body_done|].
    by intros db1 [b'|e] HQ.
Qed.

(** A read-only engine refuses every write: no request changes anything,
    and each of them fails, except that an expiry sweep quietly does nothing. *)
Theorem read_only_refuses (clock : Clock) (rq : Request) (db : LatLng S)
    (Hro : read_only (db_config db) = true) :
  (execute clock rq db).1 = db ∧
  match rq with
  | RqExpireDue _ _ => (execute clock rq db).2 = Ok tt
  | _ => is_ok (execute clock rq db).2 = false
  end.
Proof. by apply read_only_execute. Qed.

(** A replica that starts empty and receives the leader's whole log (its
    first sequence being 1) accepts it whenever its own storage does, and ends
    with the leader's live objects, channels and hooks, at the leader's last
    logged sequence. *)
Theorem replica_converges (s0 sf sf' : S) (config0 configf : Config) (t0 t : Z)
    (leader : LatLng S) (clock : Clock) (first : StorageEntry) (rest : list StorageEntry)
    (Hinv : storage_inv s0) (Hlogs : stores_command_log s0 = true) (Hempty : committed s0 = [])
    (Hrun : run t0 (fresh s0 config0) t leader)
    (Hentries : committed (db_storage leader) = first :: rest) (Hfirst : sequence first = 1%Z)
    (Happend : append_batch sf (first :: rest) = (sf', Ok tt))
    (Hclock : (t ≤ now_millis clock)%Z) :
  ∃ follower,
    op_apply_replicated_entries clock (first :: rest) (fresh sf configf) =
      (follower, Ok (last_seq_of (first :: rest))) ∧
    view follower = live (now_millis clock) (view leader).
Proof.
  assert (durable t leader) as Hdur.
  { eapply run_durable; [exact Hrun|]. by apply fresh_durable. }
  destruct Hdur as [_ _ _ (w & Hw & Hsl)]. rewrite Hentries in Hw.
  destruct (apply_replicated_Ok clock first rest (fresh sf configf) sf' w) as (f & Hf & Hv & _).
  { by rewrite Hfirst. }
  { done. }
  { apply map_Forall_empty. }
  { by rewrite fresh_view. }
  exists f. split; [done|]. rewrite Hv. symmetry. apply stale_live. by eapply stale_mono.
Qed.

End Recovery.

(** ** A concrete engine

    A recording in-memory backend and a codec that knows a handful of
    records. *)
Module RecoveryWitness.
Import ListTree NoGeoJson PlainText Memory.

#[local] Instance md5 : Md5 := λ _, [].
#[local] Instance base64 : Base64 := λ _, "id".

Definition tag_object (n i : string) (g : GeoType) (e : option Z) : option byte :=
  if bool_decide (n = "fleet" ∧ i = "truck") then
    match g with
    | GtString s =>
        if bool_decide (s = "here") then
          match e with
          | None => Some Byte.x02
          | Some d => if bool_decide (d = 1000%Z) then Some Byte.x03 else None
          end
        else None
    | GtHash s => if bool_decide (s = "!" ∧ e = None) then Some Byte.x04 else None
    | _ => None
    end
  else None.

Definition tag (r : LogRecord) : option byte :=
  match r with
  | LCommand (CmdCreateCollection n) => if bool_decide (n = "fleet") then Some Byte.x01 else None
  | LCommand (CmdSetPersisted (mkPersistedSet n i g [] e)) => tag_object n i g e
  | LCommand (CmdDel n i) => if bool_decide (n = "fleet" ∧ i = "truck") then Some Byte.x05 else None
  | LCommand (CmdExpireAt n i d) =>
      if bool_decide (n = "fleet" ∧ i = "truck" ∧ d = 61000%Z) then Some Byte.x06 else None
  | _ => None
  end.

Definition truck_record (g : GeoType) (e : option Z) : LogRecord :=
  LCommand (CmdSetPersisted (mkPersistedSet "fleet" "truck" g [] e)).

Definition untag (bs : list byte) : option LogRecord :=
  match bs with
  | [Byte.x01] => Some (LCommand (CmdCreateCollection "fleet"))
  | [Byte.x02] => Some (truck_record (GtString "here") None)
  | [Byte.x03] => Some (truck_record (GtString "here") (Some 1000%Z))
  | [Byte.x04] => Some (truck_record (GtHash "!") None)
  | [Byte.x05] => Some (LCommand (CmdDel "fleet" "truck"))
  | [Byte.x06] => Some (LCommand (CmdExpireAt "fleet" "truck" 61000))
  | _ => None
  end.

#[local] Instance codec : LogCodec := {
  json_to_vec r := match tag r with Some b => Ok [b] | None => Err "unsupported" end;
  json_record := untag;
  bincode_record _ := None;
  json_command _ := None;
  bincode_command _ := Err "unsupported"
}.

Lemma codec_faithful e : faithful e.
Proof.
  intros r. unfold encodes. simpl. destruct (tag r) as [b|] eqn:Ht; [|done].
  intros [= <-]. revert Ht.
  destruct r as [c| | | |]; try done. destruct c; simpl; try done.
  - case_bool_decide as H; [|done]. destruct H as [-> ->]. by intros [= <-].
  - destruct r as [n i g [|] e0]; [|done]. unfold tag_object.
    case_bool_decide as H; [|done]. destruct H as [-> ->]. destruct g; try done.
    + case_bool_decide as H; [|done]. destruct H as [-> ->]. by intros [= <-].
    + case_bool_decide as H; [|done]. subst. destruct e0 as [d|]; [|by intros [= <-]].
      case_bool_decide as H; [|done]. subst. by intros [= <-].
  - case_bool_decide as H; [|done]. destruct H as (-> & -> & ->). by intros [= <-].
  - case_bool_decide as H; [|done]. subst. by intros [= <-].
Qed.

Definition clock_at (ms : Z) : Clock := mkClock ms (ms * 1000000).
Definition set_truck (g : GeoType) (seconds : option Z) : SetRequest :=
  mkSetRequest "fleet" "truck" g [] seconds Always.

Definition db0 : LatLng MemoryBackend := fresh recording default_config.
Definition set_here : Request := RqSet (set_truck (GtString "here") (Some 1%Z)).
Definition db1 : LatLng MemoryBackend := (execute (clock_at 0) set_here db0).1.

Lemma db1_log : committed (db_storage db1) = [mkEntry 1 0 [Byte.x03]].
Proof. vm_compute. reflexivity. Qed.

Lemma healthy (m : MemoryBackend) :
  Forall (λ e, (0 < sequence e)%Z) (committed m) → log_healthy m.
Proof.
  intros H. eapply Forall_impl; [exact H|]. intros e He. split; [apply codec_faithful | done].
Qed.

Lemma db0_ready : ready db0.
Proof. split_and!; [constructor | done | apply map_Forall_empty]. Qed.

Lemma set_here_indexed : indexed set_here (execute (clock_at 0) set_here db0).2.
Proof.
  assert ((execute (clock_at 0) set_here db0).2 = Ok tt) as -> by (vm_compute; reflexivity).
  by intros e.
Qed.

Lemma db1_healthy : log_healthy (db_storage db1).
Proof. apply healthy. rewrite db1_log. by repeat constructor. Qed.

Lemma db1_run : run 0 db0 0 db1.
Proof.
  apply (run_step 0 db0 (clock_at 0) db1); [done| |apply db1_healthy|constructor].
  apply (step_request (clock_at 0) set_here), set_here_indexed.
Qed.

Lemma db1_durable : durable 0 db1.
Proof. eapply run_durable; [exact db1_run|]. by apply fresh_durable; [constructor|..]. Qed.

Lemma replay_computes_meaning_witness :
  match spec_replay (clock_at 0) (view_of ∅ (registry_new 4)) [mkEntry 1 0 [Byte.x03]] with
  | Some v => ∃ cs' r' last' n,
      replay_loop (replay_callback (clock_at 0)) 0 (∅, registry_new 4, 0%Z)
        [mkEntry 1 0 [Byte.x03]] = ((cs', r', last'), Ok n) ∧ view_of cs' r' = v
  | None => ∃ st err, replay_loop (replay_callback (clock_at 0)) 0 (∅, registry_new 4, 0%Z)
        [mkEntry 1 0 [Byte.x03]] = (st, Err err)
  end.
Proof.
  apply (replay_computes_meaning (clock_at 0) [mkEntry 1 0 [Byte.x03]] ∅ (registry_new 4) 0
           (map_Forall_empty _)).
Defined.


Lemma restart_recovers_witness :
  ∃ db', build (clock_at 500) (Some (db_storage db1)) default_config = Ok db' ∧
         view db' = live 500 (view db1).
Proof.
  apply (restart_recovers recording (db_storage db1) default_config default_config 0 0 db1
           (clock_at 500)); [constructor | done | done | exact db1_run | done | done].
Defined.

Definition db1_shrunk : LatLng MemoryBackend := (op_aofshrink (clock_at 500) db1).1.

Lemma db1_shrinks : op_aofshrink (clock_at 500) db1 =
  (db1_shrunk, Ok (Build_CompactionResult 1 2 9 18)).
Proof. apply pair_with_snd. vm_compute. reflexivity. Qed.

Lemma db1_shrunk_healthy : log_healthy (db_storage db1_shrunk).
Proof.
  apply healthy.
  assert (committed (db_storage db1_shrunk) =
    [mkEntry 1 500000000 [Byte.x01]; mkEntry 2 500000000 [Byte.x03]]) as ->
    by (vm_compute; reflexivity).
  by repeat constructor.
Qed.

Lemma aofshrink_keeps_live_witness :
  view db1_shrunk = view db1 ∧
  spec_replay (clock_at 9) empty_view (committed (db_storage db1_shrunk)) =
    Some (live 500 (view db1)).
Proof.
  apply (aofshrink_keeps_live (clock_at 500) (clock_at 9) db1 db1_shrunk
           (Build_CompactionResult 1 2 9 18)
           (dur_ready _ _ db1_durable) (dur_wf _ _ db1_durable) db1_shrinks db1_shrunk_healthy).
Defined.

Lemma set_answers_witness :
  find_object (view db1) "fleet" "truck" =
    Some (mkObject "truck" (GtString "here") ∅ (Some 1000%Z)).
Proof.
  assert (op_set (clock_at 0) (set_truck (GtString "here") (Some 1%Z)) db0 = (db1, Ok true))
    as Hset by (apply pair_with_snd; vm_compute; reflexivity).
  destruct (set_answers (clock_at 0) (set_truck (GtString "here") (Some 1%Z)) db0 db1 true Hset)
    as (_ & _ & Hfind).
  rewrite (Hfind eq_refl). vm_compute. reflexivity.
Defined.

Definition read_only_db : LatLng MemoryBackend :=
  fresh recording (mkConfig true ∅ 4 8).

Lemma read_only_refuses_witness :
  (execute (clock_at 0) set_here read_only_db).1 = read_only_db ∧
  is_ok (execute (clock_at 0) set_here read_only_db).2 = false.
Proof. apply (read_only_refuses (clock_at 0) set_here read_only_db). reflexivity. Defined.

Lemma replica_converges_witness :
  ∃ follower,
    op_apply_replicated_entries (clock_at 500) [mkEntry 1 0 [Byte.x03]]
      (fresh recording default_config) = (follower, Ok 1%Z) ∧
    view follower = live 500 (view db1).
Proof.
  apply (replica_converges recording recording (db_storage db1) default_config default_config 0 0
           db1 (clock_at 500) (mkEntry 1 0 [Byte.x03]) []);
    [constructor | done | done | exact db1_run | exact db1_log | done | vm_compute; reflexivity | done].
Defined.

(** ** What goes wrong *)

Definition bad_hash : SetRequest := set_truck (GtHash "!") None.
Definition poisoned : LatLng MemoryBackend := (op_set (clock_at 0) bad_hash db0).1.

(** A SET whose geohash cannot be decoded passes validation and is logged
    before the index refuses it: the client gets an error, the record stays in
    the log, and the database cannot be started from that log any more. *)
Theorem refused_set_blocks_restart :
  (op_set (clock_at 0) bad_hash db0).2 = Err (CIndex (IGeo InvalidGeohash)) ∧
  committed (db_storage poisoned) = [mkEntry 1 0 [Byte.x04]] ∧
  build (clock_at 1) (Some (db_storage poisoned)) default_config =
    Err (CStorage (Message "replay failed")).
Proof. split_and!; vm_compute; reflexivity. Qed.

Definition late_shrunk : LatLng MemoryBackend := (op_aofshrink (clock_at 2000) db1).1.
Definition revived : LatLng MemoryBackend := (op_expire (clock_at 2000) "fleet" "truck" 59 late_shrunk).1.

(** EXPIRE accepts an object that has expired and has not been swept yet, and
    so brings it back; after a compaction the log no longer has that object,
    so the new deadline, although logged, is lost with it at a restart. *)
Theorem revived_object_lost_after_shrink :
  (op_expire (clock_at 2000) "fleet" "truck" 59 late_shrunk).2 = Ok tt ∧
  (op_exists (clock_at 2000) "fleet" "truck" revived).2 = Ok true ∧
  match build (clock_at 2000) (Some (db_storage revived)) default_config with
  | Ok db' => (op_exists (clock_at 2000) "fleet" "truck" db').2 = Ok false
  | Err _ => False
  end.
Proof. split_and!; vm_compute; reflexivity. Qed.

Definition set_plain : Request := RqSet (set_truck (GtString "here") None).
Definition leader3 : LatLng MemoryBackend :=
  let set db := (execute (clock_at 0) set_plain db).1 in set (set (set db0)).
Definition leader3_shrunk : LatLng MemoryBackend := (op_aofshrink (clock_at 0) leader3).1.

(** After a compaction the leader's log starts above sequence 1: a replica
    that has to start from nothing, with expected sequence 1, refuses it. *)
Theorem empty_replica_refuses_shrunk_log :
  sequence <$> committed (db_storage leader3_shrunk) = [2; 3]%Z ∧
  (op_apply_replicated_entries (clock_at 0) (committed (db_storage leader3_shrunk))
     (fresh recording default_config)).2 = Err (CStorage (SequenceRegression 1 2)).
Proof. split; vm_compute; reflexivity. Qed.

End RecoveryWitness.
