(* ===== verification/WebhookQueue.v ===== *)
(** * The webhook queue ([crates/latlng-webhook-queue/src/lib.rs])

    Webhook jobs in a SQLite table with the job id as primary key: a map from
    job ids to rows.  Each operation is the effect of its SQL statements.  A
    statement fails when an integer parameter does not fit SQLite's signed
    64-bit integers; a failed transaction changes nothing.  Other failures of
    SQLite are not modelled.  [now] is the wall clock that a statement records
    in [updated_at_ms].

    SQL leaves the order of rows with equal keys open; it is the arbitrary
    order of [HashOrder].  [serde_json] on events is the interface
    [EventCodec]. *)

From Stdlib Require Import ZArith Lia.
From stdpp Require Import base gmap strings list sorting.
From S2P Require Import Prelude Storage F64 Json Platform Geo Strings Index Geofence Collection.
From S2P Require Import Engine.

(** ** Data *)

Inductive QueueError : Type := QSql (message : string) | QCodec (message : string).

(** The column [state]. *)
Inductive JobState : Type := JPending | JLeased | JDeadLetter.

#[export] Instance job_state_eq_dec : EqDecision JobState.
Proof. solve_decision. Defined.

Record JobRow := mkRow {
  row_event_id : string;
  row_hook_name : string;
  row_endpoint : string;
  row_payload : list byte;
  row_state : JobState;
  row_attempts_used : Z;
  row_max_attempts : Z;
  row_next_attempt_at_ms : Z;
  row_lease_owner : option string;
  row_lease_expires_at_ms : option Z;
  row_last_error : option string;
  row_created_from_sequence : Z;
  row_updated_at_ms : Z
}.

Record QueueJob := mkJob {
  job_id : string;
  job_event_id : string;
  job_hook_name : string;
  job_endpoint : string;
  job_event : GeofenceEvent;
  job_attempts_used : Z;
  job_max_attempts : Z;
  job_next_attempt_at_ms : Z;
  job_last_error : option string;
  job_created_from_sequence : Z
}.

Record QueueStats := mkQueueStats {
  stats_pending : Z;
  stats_leased : Z;
  stats_dead_letter : Z;
  stats_oldest_pending_age_ms : option Z
}.

Notation WebhookQueue := (gmap string JobRow).

Class EventCodec := {
  event_to_vec : GeofenceEvent → result (list byte) string;
  event_from_slice : list byte → result GeofenceEvent string
}.

(** A [u64] parameter of a statement. *)
Definition bind_u64 (v : Z) : result unit QueueError :=
  if (v <? 2 ^ 63)%Z then Ok tt else Err (QSql "integer out of range").

Definition open_in_memory : WebhookQueue := ∅.

Definition reset (q : WebhookQueue) : WebhookQueue := ∅.

(** ** Records *)

Section Queue.
Context `{EC : EventCodec} `{HO : HashOrder}.

Definition enqueued_row (now sequence : Z) (r : WebhookEnqueueRecord) (payload : list byte)
    : JobRow :=
  mkRow (default (we_job_id r) (ev_event_id (we_event r)))
    (default (we_job_id r) (ev_hook (we_event r)))
    (we_endpoint r) payload JPending (we_attempts_used r) (we_max_attempts r)
    (we_next_attempt_at_ms r) None None None sequence now.

Definition apply_enqueue (now sequence : Z) (r : WebhookEnqueueRecord) (q : WebhookQueue)
    : result WebhookQueue QueueError :=
  let? payload := map_err QCodec (event_to_vec (we_event r)) in
  let? _ := try_for_each bind_u64 [we_next_attempt_at_ms r; sequence; now] in
  Ok (<[we_job_id r := enqueued_row now sequence r payload]> q).

Definition apply_ack (id : string) (q : WebhookQueue) : WebhookQueue := delete id q.

Definition retried_row (now attempts_used next_attempt_at_ms : Z) (last_error : string)
    (row : JobRow) : JobRow :=
  mkRow (row_event_id row) (row_hook_name row) (row_endpoint row) (row_payload row) JPending
    attempts_used (row_max_attempts row) next_attempt_at_ms None None (Some last_error)
    (row_created_from_sequence row) now.

Definition apply_retry (now : Z) (id : string) (attempts_used next_attempt_at_ms : Z)
    (last_error : string) (q : WebhookQueue) : result WebhookQueue QueueError :=
  let? _ := try_for_each bind_u64 [next_attempt_at_ms; now] in
  Ok (alter (retried_row now attempts_used next_attempt_at_ms last_error) id q).

Definition dead_row (now attempts_used : Z) (last_error : string) (row : JobRow) : JobRow :=
  mkRow (row_event_id row) (row_hook_name row) (row_endpoint row) (row_payload row) JDeadLetter
    attempts_used (row_max_attempts row) (row_next_attempt_at_ms row) None None (Some last_error)
    (row_created_from_sequence row) now.

Definition apply_dead_letter (now : Z) (id : string) (attempts_used : Z) (last_error : string)
    (q : WebhookQueue) : result WebhookQueue QueueError :=
  let? _ := bind_u64 now in
  Ok (alter (dead_row now attempts_used last_error) id q).

Definition apply_log_record (now sequence : Z) (record : LogRecord) (q : WebhookQueue)
    : result WebhookQueue QueueError :=
  match record with
  | LCommand _ => Ok q
  | LWebhookEnqueue r => apply_enqueue now sequence r q
  | LWebhookAck id => Ok (apply_ack id q)
  | LWebhookRetryScheduled id attempts_used next last_error =>
      apply_retry now id attempts_used next last_error q
  | LWebhookDeadLetter id attempts_used last_error =>
      apply_dead_letter now id attempts_used last_error q
  end.

(** ** Leases *)

Definition is_state (s : JobState) (row : JobRow) : bool := bool_decide (row_state row = s).

Definition released_row (now_ms : Z) (row : JobRow) : JobRow :=
  mkRow (row_event_id row) (row_hook_name row) (row_endpoint row) (row_payload row) JPending
    (row_attempts_used row) (row_max_attempts row) (row_next_attempt_at_ms row) None None
    (row_last_error row) (row_created_from_sequence row) now_ms.

Definition lease_expired (now_ms : Z) (row : JobRow) : bool :=
  is_state JLeased row &&
  from_option (λ deadline, (deadline <=? now_ms)%Z) false (row_lease_expires_at_ms row).

Definition release_expired_leases (now_ms : Z) (q : WebhookQueue)
    : WebhookQueue * result Z QueueError :=
  match bind_u64 now_ms with
  | Err e => (q, Err e)
  | Ok _ =>
      ((λ row, if lease_expired now_ms row then released_row now_ms row else row) <$> q,
       Ok (Z.of_nat (length (filter (λ kv, lease_expired now_ms kv.2) (map_to_list q)))))
  end.

(** [ORDER BY next_attempt_at_ms ASC, created_from_sequence ASC]. *)
Definition due_le (a b : string * JobRow) : Prop :=
  (row_next_attempt_at_ms a.2 < row_next_attempt_at_ms b.2)%Z ∨
  (row_next_attempt_at_ms a.2 = row_next_attempt_at_ms b.2 ∧
   (row_created_from_sequence a.2 ≤ row_created_from_sequence b.2)%Z).

#[export] Instance due_le_dec : RelDecision due_le.
Proof. intros a b. unfold due_le. apply _. Defined.

Definition is_due (now_ms : Z) (row : JobRow) : bool :=
  is_state JPending row && (row_next_attempt_at_ms row <=? now_ms)%Z.

(** [LIMIT ?] with [limit as i64]: a negative limit is none. *)
Definition sql_limit {A} (limit : Z) (l : list A) : list A :=
  if (limit <? 2 ^ 63)%Z then take (Z.to_nat limit) l else l.

Definition due_rows (now_ms limit : Z) (q : WebhookQueue) : list (string * JobRow) :=
  sql_limit limit (merge_sort due_le (filter (λ kv, is_due now_ms kv.2) (hash_iter q))).

Definition row_to_job (kv : string * JobRow) : result QueueJob QueueError :=
  let row := kv.2 in
  let? event := map_err QSql (event_from_slice (row_payload row)) in
  Ok (mkJob kv.1 (row_event_id row) (row_hook_name row) (row_endpoint row) event
        (row_attempts_used row) (row_max_attempts row) (row_next_attempt_at_ms row)
        (row_last_error row) (row_created_from_sequence row)).

Fixpoint rows_to_jobs (rows : list (string * JobRow)) : result (list QueueJob) QueueError :=
  match rows with
  | [] => Ok []
  | kv :: rest =>
      let? job := row_to_job kv in
      let? jobs := rows_to_jobs rest in
      Ok (job :: jobs)
  end.

Definition leased_row (now_ms : Z) (worker_id : string) (expires : Z) (row : JobRow) : JobRow :=
  mkRow (row_event_id row) (row_hook_name row) (row_endpoint row) (row_payload row) JLeased
    (row_attempts_used row) (row_max_attempts row) (row_next_attempt_at_ms row) (Some worker_id)
    (Some expires) (row_last_error row) (row_created_from_sequence row) now_ms.

Definition lease_jobs (now_ms : Z) (worker_id : string) (expires : Z) (jobs : list QueueJob)
    (q : WebhookQueue) : WebhookQueue :=
  foldl (λ q job, alter (leased_row now_ms worker_id expires) (job_id job) q) q jobs.

Definition lease_due (limit lease_ms : Z) (worker_id : string) (now_ms : Z) (q : WebhookQueue)
    : WebhookQueue * result (list QueueJob) QueueError :=
  if (limit =? 0)%Z then (q, Ok [])
  else
    match (let? _ := bind_u64 now_ms in rows_to_jobs (due_rows now_ms limit q)) with
    | Err e => (q, Err e)
    | Ok [] => (q, Ok [])
    | Ok jobs =>
        let expires := saturating_add now_ms (Z.max lease_ms 1) in
        match bind_u64 expires with
        | Err e => (q, Err e)
        | Ok _ => (lease_jobs now_ms worker_id expires jobs q, Ok jobs)
        end
    end.

(** ** Inspection *)

Definition count_by_state (s : JobState) (q : WebhookQueue) : Z :=
  Z.of_nat (length (filter (λ kv, is_state s kv.2) (map_to_list q))).

(** [SELECT MIN(next_attempt_at_ms) FROM jobs WHERE state = 'pending']. *)
Definition next_due_at_ms (q : WebhookQueue) : option Z :=
  foldr (λ row acc, Some (from_option (Z.min (row_next_attempt_at_ms row))
                                      (row_next_attempt_at_ms row) acc)) None
    (filter (λ row, is_state JPending row) (map_to_list q).*2).

Definition queue_stats (now_ms : Z) (q : WebhookQueue) : QueueStats :=
  mkQueueStats (count_by_state JPending q) (count_by_state JLeased q)
    (count_by_state JDeadLetter q)
    ((λ oldest, saturating_sub now_ms oldest) <$> next_due_at_ms q).

(** ** Snapshot *)

Definition created_le (a b : string * JobRow) : Prop :=
  (row_created_from_sequence a.2 ≤ row_created_from_sequence b.2)%Z.

#[export] Instance created_le_dec : RelDecision created_le.
Proof. intros a b. unfold created_le. apply _. Defined.

Definition row_records (kv : string * JobRow) : result (list LogRecord) QueueError :=
  let row := kv.2 in
  let? event := map_err QCodec (event_from_slice (row_payload row)) in
  Ok (LWebhookEnqueue (mkEnqueue kv.1 event (row_endpoint row) (row_attempts_used row)
                         (row_max_attempts row) (row_next_attempt_at_ms row)) ::
      match row_state row with
      | JDeadLetter =>
          [LWebhookDeadLetter kv.1 (row_attempts_used row)
             (default "dead-lettered" (row_last_error row))]
      | _ => []
      end).

Fixpoint rows_records (rows : list (string * JobRow)) : result (list LogRecord) QueueError :=
  match rows with
  | [] => Ok []
  | kv :: rest =>
      let? records := row_records kv in
      let? more := rows_records rest in
      Ok (records ++ more)
  end.

Definition snapshot_log_records (q : WebhookQueue) : result (list LogRecord) QueueError :=
  rows_records (merge_sort created_le (hash_iter q)).

End Queue.
