(* ===== verification/WebhookQueueSpec.v ===== *)
(** * The webhook queue: properties

    What matters of a queue is what survives a restart: its jobs without their
    leases ([forget]).  Leasing and releasing do not change it, log records
    change it in the same way on a live queue and on a rebuilt one, and
    applying records again that a later part of the log contains changes
    nothing.  A job that is leased is not handed out again before its lease
    ends.  A snapshot rebuilds the queue. *)

From Stdlib Require Import ZArith Lia.
From stdpp Require Import base gmap strings list sorting.
From S2P Require Import Prelude Storage F64 Json Platform Geo Strings Index Geofence Collection.
From S2P Require Import Engine WebhookQueue.

Section QueueSpec.
Context `{EC : EventCodec} `{HO : HashOrder}.

(** ** Leases do not matter *)

Definition forget_row (row : JobRow) : JobRow :=
  mkRow (row_event_id row) (row_hook_name row) (row_endpoint row) (row_payload row)
    (match row_state row with JLeased => JPending | s => s end)
    (row_attempts_used row) (row_max_attempts row) (row_next_attempt_at_ms row) None None
    (row_last_error row) (row_created_from_sequence row) 0.

Definition forget (q : WebhookQueue) : WebhookQueue := forget_row <$> q.

Lemma forget_lookup q k : forget q !! k = forget_row <$> q !! k.
Proof. apply lookup_fmap. Qed.

Lemma forget_alter f g k q :
  (∀ row, q !! k = Some row → forget_row (f row) = g (forget_row row)) →
  forget (alter f k q) = alter g k (forget q).
Proof.
  intros Hfg. apply map_eq. intros i. rewrite forget_lookup. destruct (decide (i = k)) as [->|Hne].
  - rewrite !lookup_alter, !decide_True, forget_lookup by done.
    destruct (q !! k) as [row|]; [|done]. simpl. by rewrite Hfg.
  - by rewrite !lookup_alter_ne, forget_lookup.
Qed.

Lemma forget_alter_id f k q :
  (∀ row, q !! k = Some row → forget_row (f row) = forget_row row) → forget (alter f k q) = forget q.
Proof.
  intros Hf. rewrite (forget_alter f (λ row, row)) by done.
  apply map_eq. intros i. rewrite lookup_alter. case_decide as Hk; [|done].
  subst. by destruct (forget q !! i).
Qed.

Lemma forget_release now_ms q : forget (release_expired_leases now_ms q).1 = forget q.
Proof.
  unfold release_expired_leases. destruct (bind_u64 now_ms); [|done]. cbn [fst].
  unfold forget. rewrite <-map_fmap_compose. apply map_fmap_ext. intros k row _. simpl.
  destruct (lease_expired now_ms row) eqn:He; [|done]. unfold lease_expired, is_state in He.
  apply andb_true_iff in He as [Hs%bool_decide_eq_true _].
  unfold forget_row, released_row. simpl. by rewrite Hs.
Qed.

Lemma elem_of_due_rows now_ms limit q k row :
  (k, row) ∈ due_rows now_ms limit q →
  q !! k = Some row ∧ row_state row = JPending ∧ (row_next_attempt_at_ms row ≤ now_ms)%Z.
Proof.
  unfold due_rows, sql_limit. intros Hin.
  assert ((k, row) ∈ merge_sort due_le (filter (λ kv, is_due now_ms kv.2) (hash_iter q))) as Hin'.
  { destruct (limit <? 2 ^ 63)%Z; [|done]. eapply elem_of_sublist; [exact Hin | apply sublist_take]. }
  rewrite merge_sort_Permutation, list_elem_of_filter in Hin'. destruct Hin' as [Hd Hq].
  apply elem_of_hash_iter in Hq. unfold is_due, is_state in Hd. simpl in Hd.
  apply Is_true_true, andb_true_iff in Hd as [Hs%bool_decide_eq_true Hn%Z.leb_le]. done.
Qed.

Lemma rows_to_jobs_ids rows jobs : rows_to_jobs rows = Ok jobs → job_id <$> jobs = rows.*1.
Proof.
  revert jobs. induction rows as [|[k row] rows IH]; intros jobs Hj; cbn [rows_to_jobs] in Hj;
    [by simplify_eq|].
  apply rbind_Ok_inv in Hj as (job & Hjob & (rest & Hr & [= <-])%rbind_Ok_inv).
  unfold row_to_job in Hjob. apply rbind_Ok_inv in Hjob as (e & _ & [= <-]). simpl.
  f_equal. by apply IH.
Qed.

Lemma lease_jobs_lookup now_ms w x jobs q k :
  lease_jobs now_ms w x jobs q !! k =
  if decide (k ∈ job_id <$> jobs) then leased_row now_ms w x <$> q !! k else q !! k.
Proof.
  unfold lease_jobs. revert q. induction jobs as [|j jobs IH]; intros q; cbn [foldl fmap list_fmap];
    [by rewrite decide_False by (apply not_elem_of_nil)|].
  rewrite IH. destruct (decide (k = job_id j)) as [->|Hne].
  - rewrite lookup_alter_eq, (decide_True (P := _ ∈ _ :: _)) by (by left).
    case_decide; by destruct (q !! job_id j).
  - rewrite lookup_alter_ne by done.
    destruct (decide (k ∈ job_id <$> jobs)) as [Hin|Hin].
    + by rewrite decide_True by (by right).
    + rewrite decide_False; [done|]. by rewrite not_elem_of_cons.
Qed.

(** What a call of [lease_due] that succeeds does. *)
Lemma lease_due_spec limit lease_ms w now_ms q q' jobs :
  lease_due limit lease_ms w now_ms q = (q', Ok jobs) →
  (∀ k, k ∈ job_id <$> jobs → ∃ row, q !! k = Some row ∧ row_state row = JPending ∧
          (row_next_attempt_at_ms row ≤ now_ms)%Z) ∧
  ∃ x, (x = saturating_add now_ms (Z.max lease_ms 1)) ∧ q' = lease_jobs now_ms w x jobs q.
Proof.
  unfold lease_due. destruct (limit =? 0)%Z.
  { intros [= <- <-]. split; [|by eexists]. intros k Hk. by apply elem_of_nil in Hk. }
  destruct (let? _ := bind_u64 now_ms in rows_to_jobs (due_rows now_ms limit q)) as [js|] eqn:E; [|done].
  apply rbind_Ok_inv in E as (_ & _ & E).
  assert (∀ k, k ∈ job_id <$> js → ∃ row, q !! k = Some row ∧ row_state row = JPending ∧
          (row_next_attempt_at_ms row ≤ now_ms)%Z) as Hjs.
  { intros k. rewrite (rows_to_jobs_ids _ _ E).
    intros ([k' row] & -> & Hin)%list_elem_of_fmap. exists row. by eapply elem_of_due_rows. }
  destruct js as [|j js]; [intros [= <- <-]; split; [done | by eexists]|].
  destruct (bind_u64 _); [|done]. intros [= <- <-]. split; [done | by eexists].
Qed.

Lemma forget_lease limit lease_ms w now_ms q : forget (lease_due limit lease_ms w now_ms q).1 = forget q.
Proof.
  destruct (lease_due limit lease_ms w now_ms q) as [q' [jobs|e]] eqn:E; cbn [fst].
  - apply lease_due_spec in E as (Hjs & x & _ & ->). apply map_eq. intros k.
    rewrite !forget_lookup, lease_jobs_lookup. case_decide as Hk; [|done].
    destruct (Hjs k Hk) as (row & -> & Hs & _). simpl. unfold forget_row, leased_row. simpl.
    by rewrite Hs.
  - unfold lease_due in E. repeat case_match; simplify_eq; done.
Qed.

(** ** Log records *)

Definition record_id (r : LogRecord) : option string :=
  match r with
  | LCommand _ => None
  | LWebhookEnqueue e => Some (we_job_id e)
  | LWebhookAck id | LWebhookRetryScheduled id _ _ _ | LWebhookDeadLetter id _ _ => Some id
  end.

(** What a numbered record does to the row of a job, leases apart. *)
Definition effect (sr : Z * LogRecord) (k : string) (x : option JobRow) : option JobRow :=
  if decide (record_id sr.2 = Some k) then
    match sr.2 with
    | LCommand _ => x
    | LWebhookEnqueue e =>
        Some (enqueued_row 0 sr.1 e
                (match event_to_vec (we_event e) with Ok payload => payload | Err _ => [] end))
    | LWebhookAck _ => None
    | LWebhookRetryScheduled _ attempts next error => retried_row 0 attempts next error <$> x
    | LWebhookDeadLetter _ attempts error => dead_row 0 attempts error <$> x
    end
  else x.

Definition effects (rs : list (Z * LogRecord)) (k : string) (x : option JobRow) : option JobRow :=
  foldl (λ x sr, effect sr k x) x rs.

Lemma effects_app rs1 rs2 k x : effects (rs1 ++ rs2) k x = effects rs2 k (effects rs1 k x).
Proof. apply foldl_app. Qed.

Lemma forget_insert q k row : forget (<[k := row]> q) = <[k := forget_row row]> (forget q).
Proof. apply fmap_insert. Qed.

(** A record acts on a live queue as its effect says. *)
Lemma apply_record_effect now sequence r q q' k :
  apply_log_record now sequence r q = Ok q' → forget q' !! k = effect (sequence, r) k (forget q !! k).
Proof.
  unfold effect. cbn [fst snd]. destruct r as [c|e|id|id a n err|id a err]; cbn [apply_log_record record_id].
  - intros [= <-]. by case_decide.
  - unfold apply_enqueue. intros (payload & Hp & (_ & _ & [= <-])%rbind_Ok_inv)%rbind_Ok_inv.
    destruct (event_to_vec (we_event e)) as [p|]; simplify_eq/=.
    rewrite forget_insert. case_decide as Hk.
    + simplify_eq. by rewrite lookup_insert_eq.
    + rewrite lookup_insert_ne by congruence. done.
  - intros [= <-]. unfold apply_ack. rewrite !forget_lookup. case_decide as Hk.
    + simplify_eq. by rewrite lookup_delete_eq.
    + by rewrite lookup_delete_ne by congruence.
  - unfold apply_retry. intros (_ & _ & [= <-])%rbind_Ok_inv.
    rewrite (forget_alter _ (retried_row 0 a n err)) by done. case_decide as Hk.
    + simplify_eq. by rewrite lookup_alter_eq.
    + by rewrite lookup_alter_ne by congruence.
  - unfold apply_dead_letter. intros (_ & _ & [= <-])%rbind_Ok_inv.
    rewrite (forget_alter _ (dead_row 0 a err)) by done. case_decide as Hk.
    + simplify_eq. by rewrite lookup_alter_eq.
    + by rewrite lookup_alter_ne by congruence.
Qed.

(** A record whose parameters fit can be applied to every queue. *)
Definition storable (sr : Z * LogRecord) : Prop :=
  ∃ q, apply_log_record 0 sr.1 sr.2 ∅ = Ok q.

Lemma bind_now now l : (now < 2 ^ 63)%Z →
  try_for_each bind_u64 (l ++ [now]) = try_for_each bind_u64 (l ++ [0%Z]).
Proof.
  intros Hn. assert (bind_u64 now = Ok tt) as Hb.
  { unfold bind_u64. by rewrite (proj2 (Z.ltb_lt _ _) Hn). }
  induction l as [|v l IH]; simpl; [by rewrite Hb|]. destruct (bind_u64 v); simpl; [apply IH | done].
Qed.

Lemma storable_applies now sequence r q : (now < 2 ^ 63)%Z → storable (sequence, r) →
  ∃ q', apply_log_record now sequence r q = Ok q'.
Proof.
  intros Hn [q0 Hq0]. cbn [fst snd] in Hq0.
  destruct r as [c|e|id|id a n err|id a err]; cbn [apply_log_record] in *; try by eexists.
  - unfold apply_enqueue in *. apply rbind_Ok_inv in Hq0 as (p & -> & Hq0).
    pose proof (bind_now now [we_next_attempt_at_ms e; sequence] Hn) as Hnow.
    apply rbind_Ok_inv in Hq0 as ([] & Hb & _). cbn [rbind app] in *. rewrite Hnow, Hb. by eexists.
  - unfold apply_retry in *. pose proof (bind_now now [n] Hn) as Hnow.
    apply rbind_Ok_inv in Hq0 as ([] & Hb & _). cbn [app] in *. rewrite Hnow, Hb. by eexists.
  - unfold apply_dead_letter, bind_u64. rewrite (proj2 (Z.ltb_lt _ _) Hn). by eexists.
Qed.

(** *** Applying records again *)

(** The part of a row that retries and dead letters keep. *)
Definition base_of (row : JobRow) : string * string * string * list byte * Z * Z :=
  (row_event_id row, row_hook_name row, row_endpoint row, row_payload row, row_max_attempts row,
   row_created_from_sequence row).

Definition same_base (x y : option JobRow) : Prop := base_of <$> x = base_of <$> y.
Definition same_next (x y : option JobRow) : Prop :=
  row_next_attempt_at_ms <$> x = row_next_attempt_at_ms <$> y.

Definition overwrites (k : string) (sr : Z * LogRecord) : Prop :=
  record_id sr.2 = Some k ∧ match sr.2 with LWebhookEnqueue _ | LWebhookAck _ => True | _ => False end.

Definition retries (k : string) (sr : Z * LogRecord) : Prop :=
  record_id sr.2 = Some k ∧ match sr.2 with LWebhookRetryScheduled _ _ _ _ => True | _ => False end.

#[local] Instance overwrites_dec k sr : Decision (overwrites k sr).
Proof. destruct sr as [? []]; unfold overwrites; simpl; apply _. Defined.
#[local] Instance retries_dec k sr : Decision (retries k sr).
Proof. destruct sr as [? []]; unfold retries; simpl; apply _. Defined.

Lemma overwrites_const k sr x y : overwrites k sr → effect sr k x = effect sr k y.
Proof.
  intros [Hid Hr]. unfold effect. rewrite Hid, !decide_True by done.
  destruct sr as [? []]; simpl in *; done.
Qed.

Lemma effects_const k sr rs x y : sr ∈ rs → overwrites k sr → effects rs k x = effects rs k y.
Proof.
  intros Hin Ho. apply list_elem_of_split in Hin as (l1 & l2 & ->). unfold effects.
  rewrite !foldl_app. simpl. by erewrite overwrites_const.
Qed.

Lemma effect_same_base k sr x y : ¬ overwrites k sr → same_base x y →
  same_base (effect sr k x) (effect sr k y).
Proof.
  intros Ho Hb. unfold effect. case_decide as Hid; [|done]. unfold overwrites in Ho.
  destruct sr as [? []]; try done; try (by destruct Ho); cbn [snd] in *;
    unfold same_base in *; by destruct x, y.
Qed.

Lemma effect_keeps_base k sr x : ¬ overwrites k sr → same_base (effect sr k x) x.
Proof.
  intros Ho. unfold effect. case_decide as Hid; [|done]. unfold overwrites in Ho.
  destruct sr as [? []]; try done; try (by destruct Ho); by destruct x.
Qed.

Lemma effect_keeps_next k sr x : ¬ overwrites k sr → ¬ retries k sr → same_next (effect sr k x) x.
Proof.
  intros Ho Hr. unfold effect. case_decide as Hid; [|done]. unfold overwrites, retries in *.
  destruct sr as [? []]; try done; try (by destruct Ho); try (by destruct Hr); by destruct x.
Qed.

(** A retry leaves nothing of what differed outside the base, a dead letter
    nothing outside the base and the next attempt. *)
Lemma retry_equalises k sr x y : retries k sr → same_base x y → effect sr k x = effect sr k y.
Proof.
  intros [Hid Hr] Hb. unfold effect. rewrite Hid, !decide_True by done. destruct sr as [? []]; try done.
  unfold same_base, base_of in Hb. destruct x, y; simplify_eq/=; [|done].
  unfold retried_row. congruence.
Qed.

Lemma record_equalises k sr x y : record_id sr.2 = Some k → same_base x y → same_next x y →
  effect sr k x = effect sr k y.
Proof.
  intros Hid Hb Hn. destruct (decide (overwrites k sr)) as [Ho|Ho]; [by apply overwrites_const|].
  destruct (decide (retries k sr)) as [Hr|Hr]; [by apply retry_equalises|].
  unfold effect. rewrite Hid, !decide_True by done. unfold overwrites, retries in *.
  destruct sr as [? []]; try done; try (by destruct Ho); try (by destruct Hr).
  unfold same_base, same_next, base_of in *. destruct x, y; simplify_eq/=; [|done].
  unfold dead_row. congruence.
Qed.

Lemma effect_other k sr x : record_id sr.2 ≠ Some k → effect sr k x = x.
Proof. intros Hid. unfold effect. by rewrite decide_False. Qed.

Lemma effects_keep (P : option JobRow → Prop) (Q : Z * LogRecord → Prop) k rs x :
  (∀ sr x, Q sr → P x → P (effect sr k x)) → (∀ sr, sr ∈ rs → Q sr) → P x → P (effects rs k x).
Proof.
  intros Hstep. revert x. induction rs as [|sr rs IH]; intros x HQ HP; [done|]. simpl.
  apply IH; [intros; apply HQ; by right|]. apply Hstep; [|done]. apply HQ. by left.
Qed.

Lemma effects_same_base k rs x y : (∀ sr, sr ∈ rs → ¬ overwrites k sr) → same_base x y →
  same_base (effects rs k x) (effects rs k y).
Proof.
  revert x y. induction rs as [|sr rs IH]; intros x y Hno Hb; [done|]. simpl.
  apply IH; [intros; apply Hno; by right|]. apply effect_same_base; [apply Hno; by left | done].
Qed.

Lemma effects_same_next k rs x y : (∀ sr, sr ∈ rs → ¬ overwrites k sr) → same_base x y →
  same_next x y →
  same_base (effects rs k x) (effects rs k y) ∧ same_next (effects rs k x) (effects rs k y).
Proof.
  revert x y. induction rs as [|sr rs IH]; intros x y Hno Hb Hn; [done|]. simpl.
  destruct (decide (record_id sr.2 = Some k)) as [Hid|Hid].
  - by rewrite (record_equalises k sr x y Hid Hb Hn).
  - rewrite !effect_other by done. apply IH; [intros; apply Hno; by right | done | done].
Qed.

Definition touches (k : string) (sr : Z * LogRecord) : Prop := record_id sr.2 = Some k.
#[local] Instance touches_dec k sr : Decision (touches k sr).
Proof. unfold touches. apply _. Defined.

(** Records that a later part of the log contains may be applied early. *)
Lemma reapply_absorbed early suffix k x :
  (∀ sr, sr ∈ early → sr ∈ suffix) →
  effects suffix k (effects early k x) = effects suffix k x.
Proof.
  intros Hsub. destruct (decide (Exists (overwrites k) suffix)) as [He|Hno].
  { apply Exists_exists in He as (sr & Hin & Ho). by eapply effects_const. }
  assert (∀ sr, sr ∈ suffix → ¬ overwrites k sr) as Hn1.
  { intros sr Hin Ho. apply Hno, Exists_exists. eauto. }
  assert (same_base (effects early k x) x) as Hbase.
  { apply (effects_keep (λ y, same_base y x) (λ sr, ¬ overwrites k sr)); [|auto|done].
    intros sr y Ho Hy. unfold same_base in *. rewrite <-Hy. by apply effect_keeps_base. }
  destruct (decide (Exists (retries k) early)) as [Hr|Hnr].
  { apply Exists_exists in Hr as (sr & Hin%Hsub & Hr).
    apply list_elem_of_split in Hin as (l1 & l2 & ->). unfold effects.
    rewrite !(foldl_app _ _ (sr :: l2)). cbn [foldl]. f_equal. apply retry_equalises; [done|].
    apply effects_same_base; [|done]. intros sr' Hin. apply Hn1, elem_of_app. by left. }
  destruct (decide (Exists (touches k) early)) as [Ht|Hnt].
  - assert (same_next (effects early k x) x) as Hnext.
    { apply (effects_keep (λ y, same_next y x) (λ sr, ¬ overwrites k sr ∧ ¬ retries k sr)); [| |done].
      - intros sr y [Ho Hr] Hy. unfold same_next in *. rewrite <-Hy. by apply effect_keeps_next.
      - intros sr Hin. split; [by apply Hn1, Hsub|]. intros Hr. apply Hnr, Exists_exists. eauto. }
    apply Exists_exists in Ht as (sr & Hin%Hsub & Hr).
    apply list_elem_of_split in Hin as (l1 & l2 & ->). unfold effects.
    rewrite !(foldl_app _ _ (sr :: l2)). cbn [foldl]. f_equal.
    destruct (effects_same_next k l1 (effects early k x) x) as [Hb1 Hn2]; [|done..|].
    + intros sr' Hin. apply Hn1, elem_of_app. by left.
    + by apply record_equalises.
  - f_equal. apply (effects_keep (λ y, y = x) (λ sr, ¬ touches k sr)); [| |done].
    + intros sr y Hsr ->. by apply effect_other.
    + intros sr Hin Ht. apply Hnt, Exists_exists. eauto.
Qed.

(** ** Exclusive leases *)

(** A step of the queue that concerns job [k] in no other way than through
    leases, at a time before [deadline]. *)
Inductive foreign_step (k : string) (deadline : Z) : WebhookQueue → WebhookQueue → Prop :=
  | foreign_lease limit lease_ms w now_ms q :
      (now_ms < deadline)%Z →
      foreign_step k deadline q (lease_due limit lease_ms w now_ms q).1
  | foreign_release now_ms q :
      (now_ms < deadline)%Z →
      foreign_step k deadline q (release_expired_leases now_ms q).1
  | foreign_record now sequence r q q' :
      record_id r ≠ Some k → apply_log_record now sequence r q = Ok q' →
      foreign_step k deadline q q'.

Definition leased_until (k : string) (deadline : Z) (q : WebhookQueue) : Prop :=
  ∃ row, q !! k = Some row ∧ row_state row = JLeased ∧ row_lease_expires_at_ms row = Some deadline.

Lemma record_other_row now sequence r q q' k :
  record_id r ≠ Some k → apply_log_record now sequence r q = Ok q' → q' !! k = q !! k.
Proof.
  intros Hid. destruct r as [c|e|id|id a n err|id a err]; cbn [apply_log_record record_id] in *.
  - by intros [= <-].
  - unfold apply_enqueue. intros (p & _ & (_ & _ & [= <-])%rbind_Ok_inv)%rbind_Ok_inv.
    apply lookup_insert_ne. congruence.
  - intros [= <-]. apply lookup_delete_ne. congruence.
  - unfold apply_retry. intros (_ & _ & [= <-])%rbind_Ok_inv. apply lookup_alter_ne. congruence.
  - unfold apply_dead_letter. intros (_ & _ & [= <-])%rbind_Ok_inv. apply lookup_alter_ne. congruence.
Qed.

Lemma lease_due_skips limit lease_ms w now_ms q k row :
  q !! k = Some row → row_state row ≠ JPending →
  (lease_due limit lease_ms w now_ms q).1 !! k = Some row ∧
  ∀ jobs, (lease_due limit lease_ms w now_ms q).2 = Ok jobs → k ∉ job_id <$> jobs.
Proof.
  intros Hk Hs. destruct (lease_due limit lease_ms w now_ms q) as [q' [jobs|e]] eqn:E; cbn [fst snd].
  - apply lease_due_spec in E as (Hjs & x & _ & ->).
    assert (k ∉ job_id <$> jobs) as Hno.
    { intros Hin. destruct (Hjs k Hin) as (row' & Hr & Hp & _). congruence. }
    split; [by rewrite lease_jobs_lookup, decide_False | by intros ? [= <-]].
  - split; [|done]. unfold lease_due in E. repeat case_match; simplify_eq; done.
Qed.

Lemma foreign_step_keeps k deadline q q' :
  foreign_step k deadline q q' → leased_until k deadline q → leased_until k deadline q'.
Proof.
  intros Hstep (row & Hk & Hs & Hd).
  destruct Hstep as [limit lease_ms w now_ms q Hn|now_ms q Hn|now sequence r q q' Hid Ha].
  - exists row. split; [|done]. apply lease_due_skips; [done | congruence].
  - exists row. split; [|done]. unfold release_expired_leases.
    destruct (bind_u64 now_ms); cbn [fst]; [|done]. rewrite lookup_fmap, Hk. simpl.
    unfold lease_expired. rewrite Hd. simpl. rewrite (proj2 (Z.leb_gt _ _)) by lia.
    by rewrite andb_false_r.
  - exists row. by rewrite (record_other_row now sequence r q q' k).
Qed.

(** ** Snapshots *)

(** A row that a record with a round-tripping event has produced. *)
Definition row_wf (k : string) (row : JobRow) : Prop :=
  ∃ e, event_from_slice (row_payload row) = Ok e ∧ event_to_vec e = Ok (row_payload row) ∧
       row_event_id row = default k (ev_event_id e) ∧ row_hook_name row = default k (ev_hook e).

Definition queue_wf (q : WebhookQueue) : Prop := map_Forall row_wf q.

(** A row after a snapshot was replayed: released, numbered anew, without the
    error of its last attempt unless it is a dead letter. *)
Definition restored (sequence : Z) (row : JobRow) : JobRow :=
  mkRow (row_event_id row) (row_hook_name row) (row_endpoint row) (row_payload row)
    (match row_state row with JLeased => JPending | s => s end)
    (row_attempts_used row) (row_max_attempts row) (row_next_attempt_at_ms row) None None
    (match row_state row with
     | JDeadLetter => Some (default "dead-lettered" (row_last_error row))
     | _ => None
     end) sequence 0.

Lemma StronglySorted_impl_on {A} (P : A → Prop) (R R' : relation A) (l : list A) :
  (∀ x y, P x → P y → R x y → R' x y) → StronglySorted R l → Forall P l → StronglySorted R' l.
Proof.
  intros HR. induction 1 as [|x l Hl IH Hx]; intros HP; [constructor|].
  apply Forall_cons in HP as [Hpx HP]. constructor; [by apply IH|].
  rewrite Forall_forall in *. auto.
Qed.

(** Consecutive sequence numbers. *)
Fixpoint number (first : Z) (rs : list LogRecord) : list (Z * LogRecord) :=
  match rs with
  | [] => []
  | r :: rest => (first, r) :: number (first + 1) rest
  end.

Lemma number_app first rs1 rs2 :
  number first (rs1 ++ rs2) = number first rs1 ++ number (first + Z.of_nat (length rs1)) rs2.
Proof.
  revert first. induction rs1 as [|r rs1 IH]; intros first; simpl; [by rewrite Z.add_0_r|].
  rewrite IH. do 3 f_equal. lia.
Qed.

Lemma row_records_effects first k row rs x : row_wf k row → row_records (k, row) = Ok rs →
  effects (number first rs) k x = Some (restored first row) ∧
  (∀ k', k' ≠ k → effects (number first rs) k' x = x) ∧ (0 < length rs)%nat.
Proof.
  intros (e & He & Hv & Hi & Hh) Hr. unfold row_records in Hr. simpl in Hr. rewrite He in Hr.
  simpl in Hr. injection Hr as <-. split_and!; [| |by destruct (row_state row); simpl; lia].
  - destruct row as [ei hn ep pl st au ma na lo lx le cr up]. simpl in *.
    unfold effects, effect, restored, enqueued_row, dead_row.
    destruct st; simpl; rewrite !decide_True by done; simpl; by rewrite Hv, Hi, Hh.
  - intros k' Hk. destruct (row_state row); unfold effects; simpl; rewrite !effect_other; try done;
      simpl; congruence.
Qed.

Lemma rows_records_effects rows : ∀ first rs,
  rows_records rows = Ok rs → NoDup rows.*1 → (∀ k row, (k, row) ∈ rows → row_wf k row) →
  ∃ pos : string → Z,
    (∀ k row, (k, row) ∈ rows →
       effects (number first rs) k None = Some (restored (pos k) row) ∧ (first ≤ pos k)%Z) ∧
    (∀ k x, k ∉ rows.*1 → effects (number first rs) k x = x) ∧
    StronglySorted (λ k1 k2, (pos k1 < pos k2)%Z) rows.*1.
Proof.
  induction rows as [|[k row] rows IH]; intros first rs Hrs Hnd Hwf; cbn [rows_records] in Hrs.
  { simplify_eq. exists (λ _, 0%Z). split_and!; [|done|constructor].
    intros k row Hin. by apply elem_of_nil in Hin. }
  apply rbind_Ok_inv in Hrs as (rk & Hrk & (more & Hmore & [= <-])%rbind_Ok_inv).
  rewrite fmap_cons, NoDup_cons in Hnd. destruct Hnd as [Hnk Hnd]. cbn [fst] in Hnk.
  destruct (IH (first + Z.of_nat (length rk))%Z more Hmore Hnd) as (pos & Hpos & Hout & Hsort);
    [intros; apply Hwf; by right|].
  assert (row_wf k row) as Hw by (apply Hwf; by left).
  exists (λ k', if decide (k' = k) then first else pos k'). rewrite number_app.
  split_and!.
  - intros k' row' Hin. rewrite effects_app.
    apply elem_of_cons in Hin as [[= -> ->]|Hin].
    + destruct (row_records_effects first k row rk None Hw Hrk) as [-> _].
      rewrite decide_True, Hout by done. split; [done | lia].
    + assert (k' ≠ k) as Hne.
      { intros ->. apply Hnk. by apply (list_elem_of_fmap_2 fst _ (k, row')). }
      destruct (row_records_effects first k row rk None Hw Hrk) as (_ & Hoth & Hl).
      rewrite (Hoth k' Hne), decide_False by done. destruct (Hpos k' row' Hin) as [-> Hge].
      split; [done | lia].
  - intros k' x Hk'. rewrite fmap_cons, not_elem_of_cons in Hk'. destruct Hk' as [Hne Hk'].
    rewrite effects_app. destruct (row_records_effects first k row rk x Hw Hrk) as (_ & Hoth & _).
    rewrite (Hoth k' Hne). by apply Hout.
  - rewrite fmap_cons. destruct (row_records_effects first k row rk None Hw Hrk) as (_ & _ & Hl).
    constructor.
    + eapply (StronglySorted_impl_on (λ k', k' ∈ rows.*1)); [|exact Hsort|by apply Forall_forall].
      intros k1 k2 H1 H2 Hlt. rewrite !decide_False; [done|by intros ->..].
    + apply Forall_forall. intros k' Hin. rewrite decide_True by done.
      rewrite decide_False by (by intros ->).
      apply list_elem_of_fmap in Hin as ([k1 row1] & -> & Hin). destruct (Hpos k1 row1 Hin).
      cbn [fst]. lia.
Qed.

(** Leases, releases and records keep the rows well formed. *)
Lemma queue_wf_alter f k q : (∀ row, row_wf k row → row_wf k (f row)) →
  queue_wf q → queue_wf (alter f k q).
Proof.
  intros Hf Hq i row Hi. apply lookup_alter_Some in Hi as [(<- & row0 & Hr & ->)|[_ Hr]];
    [apply Hf|]; by apply Hq.
Qed.

Lemma queue_wf_record now sequence r q q' :
  (∀ e payload, r = LWebhookEnqueue e → event_to_vec (we_event e) = Ok payload →
     event_from_slice payload = Ok (we_event e)) →
  apply_log_record now sequence r q = Ok q' → queue_wf q → queue_wf q'.
Proof.
  intros Hev Ha Hq. destruct r as [c|e|id|id a n err|id a err]; cbn [apply_log_record] in Ha.
  - by injection Ha as <-.
  - apply rbind_Ok_inv in Ha as (p & Hp & (_ & _ & [= <-])%rbind_Ok_inv).
    destruct (event_to_vec (we_event e)) as [p'|] eqn:Hv; simplify_eq/=.
    apply map_Forall_insert_2; [|done]. exists (we_event e). simpl. split_and!; try done.
    by apply (Hev e p).
  - injection Ha as <-. by apply map_Forall_delete.
  - apply rbind_Ok_inv in Ha as (_ & _ & [= <-]). by apply queue_wf_alter.
  - apply rbind_Ok_inv in Ha as (_ & _ & [= <-]). by apply queue_wf_alter.
Qed.

Lemma queue_wf_forget q : queue_wf (forget q) ↔ queue_wf q.
Proof. unfold queue_wf, forget. apply map_Forall_fmap. Qed.

#[local] Instance created_le_total : Total created_le.
Proof. intros a b. unfold created_le. lia. Qed.
#[local] Instance created_le_trans : Transitive created_le.
Proof. intros a b c. unfold created_le. lia. Qed.

(** ** Properties *)

(** C25: a job that a worker has leased is not handed out again, to anyone,
    before a record about it is applied or its lease has run out. *)
Theorem lease_exclusive (limit lease_ms now_ms limit' lease_ms' now_ms' : Z) (w w' k : string)
    (q q1 q2 q3 : WebhookQueue) (jobs jobs' : list QueueJob)
    (Hlease : lease_due limit lease_ms w now_ms q = (q1, Ok jobs)) (Hk : k ∈ job_id <$> jobs)
    (Hrun : rtc (foreign_step k (saturating_add now_ms (Z.max lease_ms 1))) q1 q2)
    (Hagain : lease_due limit' lease_ms' w' now_ms' q2 = (q3, Ok jobs')) :
  k ∉ job_id <$> jobs'.
Proof.
  apply lease_due_spec in Hlease as (Hjs & x & -> & ->).
  set (deadline := saturating_add now_ms (Z.max lease_ms 1)) in *.
  assert (leased_until k deadline (lease_jobs now_ms w deadline jobs q)) as Hl.
  { destruct (Hjs k Hk) as (row & Hr & _ & _). exists (leased_row now_ms w deadline row).
    by rewrite lease_jobs_lookup, decide_True, Hr. }
  assert (leased_until k deadline q2) as (row & Hr & Hs & _).
  { clear -Hrun Hl. induction Hrun; eauto using foreign_step_keeps. }
  apply (lease_due_skips limit' lease_ms' w' now_ms' q2 k row); [done | congruence | by rewrite Hagain].
Qed.

(** Replaying the snapshot of a queue on an empty one restores every job
    and nothing else, with its endpoint, payload, attempts and due time, dead
    letters as dead letters, leased jobs as pending, in the order in which the
    jobs were created. *)
Theorem queue_snapshot_roundtrip (q : WebhookQueue) (first : Z) (rs : list LogRecord)
    (Hwf : queue_wf q) (Hsnap : snapshot_log_records q = Ok rs) :
  ∃ pos : string → Z,
    (∀ k, effects (number first rs) k None = restored (pos k) <$> q !! k) ∧
    (∀ k1 k2 row1 row2, q !! k1 = Some row1 → q !! k2 = Some row2 →
       (row_created_from_sequence row1 < row_created_from_sequence row2)%Z →
       (pos k1 < pos k2)%Z).
Proof.
  unfold snapshot_log_records in Hsnap. set (rows := merge_sort created_le (hash_iter q)) in *.
  assert (∀ k row, (k, row) ∈ rows ↔ q !! k = Some row) as Hrows.
  { intros k row. unfold rows. by rewrite merge_sort_Permutation, elem_of_hash_iter. }
  assert (NoDup rows.*1) as Hnd.
  { unfold rows. rewrite merge_sort_Permutation. apply hash_iter_NoDup. }
  destruct (rows_records_effects rows first rs Hsnap Hnd) as (pos & Hpos & Hout & Hsort).
  { intros k row Hin%Hrows. by apply Hwf. }
  exists pos. split.
  - intros k. destruct (q !! k) as [row|] eqn:Hk.
    + apply Hrows in Hk. by destruct (Hpos k row Hk) as [-> _].
    + apply Hout. intros ([k' row] & -> & Hin%Hrows)%list_elem_of_fmap. simpl in Hk. congruence.
  - intros k1 k2 row1 row2 H1%Hrows H2%Hrows Hlt.
    assert (StronglySorted created_le rows) as Hs by apply (StronglySorted_merge_sort _).
    apply list_elem_of_split in H1 as (l1 & l2 & Heq). rewrite Heq in H2, Hsort, Hs.
    apply elem_of_app in H2 as [H2|[[= <- <-]|H2]%elem_of_cons]; [|lia|].
    + pose proof (StronglySorted_app_1_elem_of _ _ _ _ _ Hs H2 (list_elem_of_here _ _)) as Hle.
      unfold created_le in Hle. simpl in Hle. lia.
    + rewrite fmap_app, fmap_cons in Hsort.
      apply StronglySorted_app in Hsort as (_ & _ & [Hall _]%StronglySorted_cons).
      rewrite Forall_forall in Hall. apply Hall. by apply (list_elem_of_fmap_2 fst _ (k2, row2)).
Qed.
End QueueSpec.

(** ** A concrete queue *)
Module QueueWitness.

Definition alert : GeofenceEvent :=
  mkEvent MSet DEnter "fleet" "truck" (GtString "here") ∅ 0 (Some "event") (Some "job") (Some "hook")
    None None 0.

(** A codec that knows one event. *)
#[export] Instance one_event : EventCodec := {
  event_to_vec _ := Ok [Byte.x01];
  event_from_slice _ := Ok alert
}.

Definition enqueue (k : string) : LogRecord :=
  LWebhookEnqueue (mkEnqueue k alert "https://example.com" 0 3 10).

Definition applied (now sequence : Z) (r : LogRecord) (q : WebhookQueue) : WebhookQueue :=
  match apply_log_record now sequence r q with Ok q' => q' | Err _ => q end.

Definition q0 : WebhookQueue := applied 0 1 (enqueue "job") ∅.
Definition q1 : WebhookQueue := (lease_due 5 1000 "worker" 10 q0).1.
Definition q2 : WebhookQueue := applied 20 2 (enqueue "other") (release_expired_leases 15 q1).1.
Definition due_jobs (r : result (list QueueJob) QueueError) : list string :=
  match r with Ok jobs => job_id <$> jobs | Err _ => [] end.

Example first_lease : due_jobs (lease_due 5 1000 "worker" 10 q0).2 = ["job"].
Proof. vm_compute. reflexivity. Qed.

Lemma lease_exclusive_witness :
  ∃ q3 jobs', lease_due 5 1000 "worker-2" 500 q2 = (q3, Ok jobs') ∧ "job" ∉ job_id <$> jobs'.
Proof.
  destruct (lease_due 5 1000 "worker-2" 500 q2) as [q3 [jobs'|e]] eqn:Hagain;
    [|exfalso; revert Hagain; vm_compute; discriminate].
  exists q3, jobs'. split; [done|].
  destruct (lease_due 5 1000 "worker" 10 q0) as [q1' [jobs|e]] eqn:Hlease;
    [|exfalso; revert Hlease; vm_compute; discriminate].
  assert (q1' = q1) as -> by (unfold q1; by rewrite Hlease).
  apply (lease_exclusive 5 1000 10 5 1000 500 "worker" "worker-2" "job" q0 q1 q2 q3 jobs jobs'
           Hlease); [| |exact Hagain].
  - assert (due_jobs (lease_due 5 1000 "worker" 10 q0).2 = ["job"]) as Hd by apply first_lease.
    rewrite Hlease in Hd. cbn [due_jobs snd] in Hd. rewrite Hd. by left.
  - eapply rtc_l; [apply (foreign_release "job" _ 15); vm_compute; reflexivity|].
    apply rtc_once. apply (foreign_record "job" _ 20 2 (enqueue "other")); [done|].
    vm_compute. reflexivity.
Defined.

Definition dead : WebhookQueue := applied 30 3 (LWebhookDeadLetter "job" 3 "status 500") q1.

Lemma dead_wf : queue_wf dead.
Proof.
  intros k row Hk. assert (dead = {[ "job" := mkRow "event" "hook" "https://example.com" [Byte.x01]
    JDeadLetter 3 3 10 None None (Some "status 500") 1 30 ]}) as Hd by (vm_compute; reflexivity).
  rewrite Hd in Hk. apply lookup_singleton_Some in Hk as [<- <-]. exists alert. split_and!; reflexivity.
Qed.

Definition dead_records : list LogRecord :=
  [LWebhookEnqueue (mkEnqueue "job" alert "https://example.com" 3 3 10);
   LWebhookDeadLetter "job" 3 "status 500"].

Lemma queue_snapshot_roundtrip_witness : ∃ pos : string → Z,
  effects (number 7 dead_records) "job" None = restored (pos "job") <$> dead !! "job".
Proof.
  assert (snapshot_log_records dead = Ok dead_records) as Hsnap by (vm_compute; reflexivity).
  destruct (queue_snapshot_roundtrip dead 7 dead_records dead_wf Hsnap) as (pos & Hpos & _).
  exists pos. apply Hpos.
Defined.

End QueueWitness.
