(* ===== verification/Outbox.v ===== *)
(** * The webhook outbox ([crates/latlng-server/src/main.rs])

    The server keeps a webhook queue beside the engine.  The engine logs an
    enqueue record for every event of a hook; the outbox task applies the tail
    of the log to the queue, leases due jobs, delivers them and logs how each
    attempt ended.  Delivery itself is outside: its outcome is an argument.

    The task runs its steps one after another; client requests extend the log
    between them.  [replay_log] is the engine's
    ([crates/latlng-core/src/persistence.rs]), the handler of AOFSHRINK is the
    one of [crates/latlng-http/src/handlers.rs]. *)

From Stdlib Require Import ZArith Lia.
From stdpp Require Import base gmap strings list sorting.
From S2P Require Import Prelude Storage F64 Json Platform Geo Strings Index Geofence Collection.
From S2P Require Import Engine WebhookQueue.

Inductive OutboxError : Type := OCore (e : CoreError) | OQueue (e : QueueError).

(** How a delivery attempt ended. *)
Inductive WebhookDeliveryOutcome : Type :=
  | Skipped
  | Delivered
  | DeliveryFailed (error : string).

(** The loop of [exponential_backoff_ms]: [exponent] doublings, unless the
    maximum is reached. *)
Fixpoint backoff_loop (exponent : nat) (backoff initial_ms max_ms : Z) : Z :=
  match exponent with
  | 0 => Z.min backoff (Z.max max_ms initial_ms)
  | S exponent' =>
      let backoff := Z.min (backoff * 2) U64_MAX in
      if (max_ms <=? backoff)%Z then Z.max max_ms initial_ms
      else backoff_loop exponent' backoff initial_ms max_ms
  end.

Definition exponential_backoff_ms (initial_ms max_ms attempts_used : Z) : Z :=
  backoff_loop (Z.to_nat (attempts_used - 1)) (Z.max initial_ms 1) initial_ms max_ms.

Section Outbox.
Context `{LM : Libm} `{GC : GeoCrate} `{RC : RTreeCrate} `{JT : JsonText} `{PT : Patterns}
  `{HO : HashOrder} `{LC : LogCodec} `{MD : Md5} `{B64 : Base64} `{EC : EventCodec}.
Context {S : Type} `{SB : StorageBackend S}.

(** The epoch counts the flushes of the database. *)
Record Outbox := mkOutbox {
  ob_db : LatLng S;
  ob_queue : WebhookQueue;
  ob_last_applied_sequence : Z;
  ob_epoch : Z
}.

Definition with_db (o : Outbox) (db : LatLng S) : Outbox :=
  mkOutbox db (ob_queue o) (ob_last_applied_sequence o) (ob_epoch o).
Definition with_queue (o : Outbox) (q : WebhookQueue) : Outbox :=
  mkOutbox (ob_db o) q (ob_last_applied_sequence o) (ob_epoch o).

(** ** Reading the log *)

(** [replay_log]: decode every entry after a sequence and hand it on.  The
    error of the callback is kept aside, but the storage error that stops the
    replay is returned first. *)
Definition replay_log {St} (db : LatLng S) (after_seq : Z)
    (cb : St → Z → LogRecord → St * result unit CoreError) (st : St)
    : St * result Z CoreError :=
  let '((st', replay_error), r) :=
    replay (db_storage db) after_seq
      (λ (acc : St * option CoreError) e,
         match decode_log_record (command e) with
         | Err error => ((acc.1, Some error), Err (Message "log decode failed"))
         | Ok record =>
             match cb acc.1 (sequence e) record with
             | (st', Ok _) => ((st', acc.2), Ok tt)
             | (st', Err error) => ((st', Some error), Err (Message "log callback failed"))
             end
         end) (st, None) in
  (st', let? last := map_err CStorage r in
        match replay_error with Some error => Err error | None => Ok last end).

(** The callback of both readers: the queue and the last sequence seen. *)
Definition queue_callback (now_ms : Z) (st : WebhookQueue * Z) (sequence : Z) (record : LogRecord)
    : (WebhookQueue * Z) * result unit CoreError :=
  match apply_log_record now_ms sequence record st.1 with
  | Ok q => ((q, sequence), Ok tt)
  | Err _ => (st, Err (CMessage "queue error"))
  end.

Definition rebuild_webhook_queue_from_log (clock : Clock) (o : Outbox)
    : Outbox * result Z CoreError :=
  let '((q, last_sequence), r) :=
    replay_log (ob_db o) 0 (queue_callback (now_millis clock)) (reset (ob_queue o), 0%Z) in
  (with_queue o q, let? _ := r in Ok last_sequence).

Definition apply_log_tail (clock : Clock) (o : Outbox) : Outbox * result unit CoreError :=
  let after_seq := ob_last_applied_sequence o in
  let '((q, last_seen), r) :=
    replay_log (ob_db o) after_seq (queue_callback (now_millis clock)) (ob_queue o, after_seq) in
  match r with
  | Ok _ => (mkOutbox (ob_db o) q last_seen (ob_epoch o), Ok tt)
  | Err e => (with_queue o q, Err e)
  end.

(** The start of the task: the queue is rebuilt and the reader stands behind
    what was replayed. *)
Definition start_outbox (clock : Clock) (o : Outbox) : Outbox * result unit CoreError :=
  match rebuild_webhook_queue_from_log clock o with
  | (o', Ok last) => (mkOutbox (ob_db o') (ob_queue o') last (ob_epoch o'), Ok tt)
  | (o', Err e) => (o', Err e)
  end.

(** The branch of the task's loop that finds the node following a leader for
    the first time: the queue is emptied and the position moved to the end of
    the local log.  While the node follows, the position stays there. *)
Definition begin_following (o : Outbox) : Outbox :=
  mkOutbox (ob_db o) (reset (ob_queue o)) (db_next_sequence (ob_db o)) (ob_epoch o).

(** ** Leases and attempts *)

Definition outbox_release (clock : Clock) (o : Outbox) : Outbox :=
  with_queue o (release_expired_leases (now_millis clock) (ob_queue o)).1.

Definition outbox_lease (clock : Clock) (available lease_ms : Z) (worker_id : string) (o : Outbox)
    : Outbox * result (list QueueJob) QueueError :=
  let '(q, r) := lease_due available lease_ms worker_id (now_millis clock) (ob_queue o) in
  (with_queue o q, r).

(** The record that an attempt leaves behind. *)
Definition attempt_record (clock : Clock) (initial_ms max_ms : Z) (job : QueueJob)
    (delivery : WebhookDeliveryOutcome) : option LogRecord :=
  match delivery with
  | Skipped => None
  | Delivered => Some (LWebhookAck (job_id job))
  | DeliveryFailed error =>
      let attempts_used := Z.min (job_attempts_used job + 1) (2 ^ 32 - 1) in
      if (job_max_attempts job <=? attempts_used)%Z then
        Some (LWebhookDeadLetter (job_id job) attempts_used error)
      else
        Some (LWebhookRetryScheduled (job_id job) attempts_used
                (saturating_add (now_millis clock)
                   (exponential_backoff_ms initial_ms max_ms attempts_used)) error)
  end.

Definition finalize_webhook_attempt (clock : Clock) (initial_ms max_ms : Z) (job : QueueJob)
    (epoch : Z) (delivery : WebhookDeliveryOutcome) (o : Outbox) : Outbox * result unit OutboxError :=
  if negb (epoch =? ob_epoch o)%Z then (o, Ok tt)
  else
    match attempt_record clock initial_ms max_ms job delivery with
    | None => (o, Ok tt)
    | Some record =>
        match append_log_record clock record (ob_db o) with
        | (db, Err e) => (with_db o db, Err (OCore e))
        | (db, Ok sequence) =>
            match apply_log_record (now_millis clock) sequence record (ob_queue o) with
            | Ok q => (with_queue (with_db o db) q, Ok tt)
            | Err e => (with_db o db, Err (OQueue e))
            end
        end
    end.

(** ** Administration *)

(** [FlushDbCoordinatorImpl::flushdb], under the write gate of the outbox. *)
Definition coordinator_flushdb (clock : Clock) (o : Outbox) : Outbox * result unit CoreError :=
  match op_flushdb clock (ob_db o) with
  | (db, Err e) => (with_db o db, Err e)
  | (db, Ok _) => (mkOutbox db (reset (ob_queue o)) (ob_last_applied_sequence o) (ob_epoch o + 1), Ok tt)
  end.

(** The AOFSHRINK handler reads the queue first and rewrites the log later,
    in two steps that other work may come between. *)
Definition shrink_records (o : Outbox) : result (list LogRecord) QueueError :=
  snapshot_log_records (ob_queue o).

Definition shrink_with (clock : Clock) (queue_records : list LogRecord) (o : Outbox)
    : Outbox * result CompactionResult CoreError :=
  let '(db, r) :=
    rewrite_log_snapshot clock (snapshot_base_log_records clock (ob_db o) ++ queue_records) (ob_db o) in
  (with_db o db, r).

End Outbox.
