(* ===== verification/OutboxSpec.v ===== *)
(** * The webhook outbox: properties

    However client requests, leases, attempts, reads of the log and restarts
    interleave, the queue that has caught up with the log holds the jobs that
    the log says, leases apart: a restart rebuilds the same queue.  Records of
    attempts are applied twice, once when they are written and once when the
    tail of the log is read; the second time changes nothing about the jobs.
    It does end leases that were granted in between, which is shown on a
    concrete run, as is the loss of a job in a compaction that races with the
    outbox. *)

From Stdlib Require Import ZArith Lia.
From stdpp Require Import base gmap strings list sorting.
From S2P Require Import Prelude Storage F64 Json Platform Geo Strings Index Geofence Collection.
From S2P Require Import StorageMemory IndexSpec Engine WebhookQueue WebhookQueueSpec Outbox.

Section OutboxSpec.
Context `{LM : Libm} `{GC : GeoCrate} `{RC : RTreeCrate} `{JT : JsonText} `{PT : Patterns}
  `{HO : HashOrder} `{LC : LogCodec} `{MD : Md5} `{B64 : Base64} `{EC : EventCodec}.
Context {S : Type} `{SB : StorageBackend S} `{SL : !StorageLaws S}.

(** ** The log as the queue reads it *)

Definition entry_record (e : StorageEntry) : option (Z * LogRecord) :=
  match decode_log_record (command e) with Ok r => Some (sequence e, r) | Err _ => None end.

Definition decoded (es : list StorageEntry) : list (Z * LogRecord) := omap entry_record es.

(** Entries that decode to records whose numbers fit the table. *)
Definition entry_ok (e : StorageEntry) : Prop :=
  (0 < sequence e)%Z ∧
  ∃ r, decode_log_record (command e) = Ok r ∧ storable (sequence e, r).

Definition log_of (o : Outbox) : list StorageEntry := committed (db_storage (ob_db o)).
Definition log_ok (o : Outbox) : Prop := Forall entry_ok (log_of o).

Definition after (n : Z) (es : list StorageEntry) : list StorageEntry :=
  filter (λ e, (n < sequence e)%Z) es.
Definition upto (n : Z) (es : list StorageEntry) : list StorageEntry :=
  filter (λ e, (sequence e ≤ n)%Z) es.

Lemma after_cons n e es :
  after n (e :: es) = if decide (n < sequence e)%Z then e :: after n es else after n es.
Proof. unfold after. by rewrite filter_cons. Qed.
Lemma upto_cons n e es :
  upto n (e :: es) = if decide (sequence e ≤ n)%Z then e :: upto n es else upto n es.
Proof. unfold upto. by rewrite filter_cons. Qed.

Lemma upto_after n es : strictly_increasing es → upto n es ++ after n es = es.
Proof.
  induction 1 as [|e es Hs IH Hall]; [done|]. rewrite upto_cons, after_cons.
  destruct (decide (sequence e ≤ n)%Z) as [Hle|Hle], (decide (n < sequence e)%Z) as [Hlt|Hlt]; try lia.
  - simpl. by rewrite IH.
  - assert (upto n es = []) as ->.
    { clear -Hall Hlt. induction Hall as [|e' es He' _ IH']; [done|].
      rewrite upto_cons, decide_False; [done|]. unfold seq_lt in He'. lia. }
    simpl. f_equal. unfold after. apply Forall_filter_id.
    eapply Forall_impl; [exact Hall|]. unfold seq_lt. intros e'. lia.
Qed.

Lemma decoded_app es1 es2 : decoded (es1 ++ es2) = decoded es1 ++ decoded es2.
Proof. apply omap_app. Qed.

Lemma after_app n es1 es2 : after n (es1 ++ es2) = after n es1 ++ after n es2.
Proof. apply filter_app. Qed.
Lemma upto_app n es1 es2 : upto n (es1 ++ es2) = upto n es1 ++ upto n es2.
Proof. apply filter_app. Qed.

(** ** Reading the tail *)

(** The callback that [replay_log] hands to the storage. *)
Definition tail_callback (now_ms : Z) : callback ((WebhookQueue * Z) * option CoreError) := λ acc e,
  match decode_log_record (command e) with
  | Err error => ((acc.1, Some error), Err (Message "log decode failed"))
  | Ok record =>
      match queue_callback now_ms acc.1 (sequence e) record with
      | (st', Ok _) => ((st', acc.2), Ok tt)
      | (st', Err error) => ((st', Some error), Err (Message "log callback failed"))
      end
  end.

Lemma tail_loop now_ms es : (now_ms < 2 ^ 63)%Z → Forall entry_ok es → ∀ q seen l0,
  ∃ q' n, replay_loop (tail_callback now_ms) l0 ((q, seen), None) es =
            (((q', from_option sequence seen (last es)), None), Ok n) ∧
          ∀ k, forget q' !! k = effects (decoded es) k (forget q !! k).
Proof.
  intros Hnow Hes. induction Hes as [|e es (_ & r & Hd & Hst) Hes IH]; intros q seen l0.
  { exists q, l0. by split. }
  destruct (storable_applies now_ms (sequence e) r q Hnow Hst) as [q1 Hq1].
  destruct (IH q1 (sequence e) (sequence e)) as (q' & n & Hloop & Heff).
  exists q', n. cbn [replay_loop]. unfold tail_callback at 1. rewrite Hd. unfold queue_callback.
  cbn [fst snd]. rewrite Hq1. split.
  - rewrite Hloop. do 3 f_equal. destruct es as [|e' es]; [done|].
    change (last (e :: e' :: es)) with (last (e' :: es)).
    destruct (last (e' :: es)) eqn:E; [done|]. by apply last_None in E.
  - intros k. rewrite Heff. unfold decoded. cbn [omap list_omap].
    unfold entry_record at 2. rewrite Hd. unfold effects at 2. cbn [foldl].
    by rewrite (apply_record_effect now_ms (sequence e) r q q1).
Qed.

(** [replay_log] with the queue's callback walks the entries after a point. *)
Lemma replay_queue now_ms db n q seen :
  (now_ms < 2 ^ 63)%Z → Forall entry_ok (committed (db_storage db)) →
  ∃ q' m, replay_log db n (queue_callback now_ms) (q, seen) =
            ((q', from_option sequence seen (last (after n (committed (db_storage db))))), Ok m) ∧
          ∀ k, forget q' !! k =
               effects (decoded (after n (committed (db_storage db)))) k (forget q !! k).
Proof.
  intros Hnow Hok.
  assert (Forall entry_ok (after n (committed (db_storage db)))) as Hok'.
  { apply Forall_forall. intros e [_ He]%list_elem_of_filter. rewrite Forall_forall in Hok. auto. }
  destruct (tail_loop now_ms _ Hnow Hok' q seen n) as (q' & m & Hloop & Heff).
  exists q', m. split; [|done]. unfold replay_log. fold (tail_callback now_ms).
  rewrite replay_committed. unfold replay_entries. fold (after n (committed (db_storage db))).
  change (λ acc e, _) with (tail_callback now_ms). by rewrite Hloop.
Qed.

(** ** The invariant *)

(** The queue holds what the log says up to the reader's position, and some
    records behind it that attempts have already applied. *)
Record tracks (o : Outbox) : Prop := mkTracks {
  tr_inv : storage_inv (db_storage (ob_db o));
  tr_stores : stores_command_log (db_storage (ob_db o)) = true;
  tr_ok : log_ok o;
  tr_position : (ob_last_applied_sequence o ≤ last_seq_of (log_of o))%Z;
  tr_queue : ∃ early,
    (∀ sr, sr ∈ early → sr ∈ decoded (after (ob_last_applied_sequence o) (log_of o))) ∧
    ∀ k, forget (ob_queue o) !! k =
         effects (decoded (upto (ob_last_applied_sequence o) (log_of o)) ++ early) k None
}.

Lemma increasing_upto_last es e : strictly_increasing es → e ∈ es →
  (sequence e ≤ last_seq_of es)%Z.
Proof.
  intros Hs He. unfold last_seq_of. destruct (decide (es = [])) as [->|Hne];
    [by apply elem_of_nil in He|].
  destruct (exists_last Hne) as (es' & l & ->). rewrite last_snoc. cbn [from_option].
  apply elem_of_app in He as [He| ->%list_elem_of_singleton]; [|done].
  pose proof (StronglySorted_app_1_elem_of _ _ _ _ _ Hs He (list_elem_of_here _ _)) as Hlt.
  unfold seq_lt in Hlt. lia.
Qed.

(** A reader that has read the tail stands at the end. *)
Lemma read_position n es : strictly_increasing es → (n ≤ last_seq_of es)%Z →
  let p := from_option sequence n (last (after n es)) in
  (p ≤ last_seq_of es)%Z ∧ upto p es = es.
Proof.
  intros Hs Hn p. destruct (decide (es = [])) as [->|Hne]; [by split|].
  assert (p = last_seq_of es) as Hp.
  { pose proof (increasing_upto_last es) as Hle. unfold p.
    destruct (exists_last Hne) as (es' & e & ->). unfold last_seq_of in *.
    rewrite last_snoc in *. cbn [from_option] in *. rewrite after_app, after_cons.
    change (after n []) with (@nil StorageEntry).
    destruct (decide (n < sequence e)%Z) as [Hlt|Hge]; [by rewrite last_snoc|].
    rewrite app_nil_r. destruct (last (after n es')) as [e'|] eqn:El; cbn [from_option]; [|lia].
    assert (e' ∈ after n es') as [Hlt Hin]%list_elem_of_filter
      by (apply last_Some in El as (l & ->); apply elem_of_app; right; by left).
    specialize (Hle e' Hs ltac:(apply elem_of_app; by left)). lia. }
  rewrite Hp. split; [done|]. unfold upto. apply Forall_filter_id, Forall_forall.
  intros e He. by apply increasing_upto_last.
Qed.

(** Reading the tail always succeeds and leaves the meaning of the log. *)
Lemma tail_catches_up clock o : (now_millis clock < 2 ^ 63)%Z → tracks o →
  ∃ o', apply_log_tail clock o = (o', Ok tt) ∧ ob_db o' = ob_db o ∧ tracks o' ∧
        ∀ k, forget (ob_queue o') !! k = effects (decoded (log_of o)) k None.
Proof.
  intros Hnow [Hi Hst Hok Hpos (early & Hearly & Hq)].
  destruct (replay_queue (now_millis clock) (ob_db o) (ob_last_applied_sequence o) (ob_queue o)
              (ob_last_applied_sequence o) Hnow Hok) as (q' & m & Hr & Heff).
  fold (log_of o) in Hr, Heff.
  assert (strictly_increasing (log_of o)) as Hinc by (by apply inv_increasing).
  assert (∀ k, forget q' !! k = effects (decoded (log_of o)) k None) as Hall.
  { intros k. rewrite Heff, Hq, effects_app, reapply_absorbed, <-effects_app, <-decoded_app by done.
    by rewrite upto_after. }
  unfold apply_log_tail. rewrite Hr. eexists. split; [done|]. split; [done|]. split; [|done].
  destruct (read_position _ _ Hinc Hpos) as [Hp Hup].
  split; cbn [ob_db ob_queue ob_last_applied_sequence]; try done.
  exists []. split; [intros sr Hsr; by apply elem_of_nil in Hsr|]. intros k. rewrite app_nil_r.
  unfold log_of in *. cbn [ob_db ob_queue]. by rewrite Hup.
Qed.

Lemma after_zero es : Forall (λ e, 0 < sequence e)%Z es → after 0 es = es.
Proof. apply Forall_filter_id. Qed.

(** A start leaves a queue that tracks the log. *)
Lemma start_tracks clock o : (now_millis clock < 2 ^ 63)%Z →
  storage_inv (db_storage (ob_db o)) → stores_command_log (db_storage (ob_db o)) = true →
  log_ok o →
  ∃ o', start_outbox clock o = (o', Ok tt) ∧ ob_db o' = ob_db o ∧ tracks o' ∧
        ∀ k, forget (ob_queue o') !! k = effects (decoded (log_of o)) k None.
Proof.
  intros Hnow Hi Hst Hok.
  destruct (replay_queue (now_millis clock) (ob_db o) 0 (reset (ob_queue o)) 0 Hnow Hok)
    as (q' & m & Hr & Heff). fold (log_of o) in Hr, Heff.
  assert (strictly_increasing (log_of o)) as Hinc by (by apply inv_increasing).
  assert (Forall (λ e, 0 < sequence e)%Z (log_of o)) as Hpos
    by (eapply Forall_impl; [exact Hok|]; by intros e [? _]).
  unfold start_outbox, rebuild_webhook_queue_from_log. rewrite Hr. cbn [rbind].
  eexists. split; [done|]. split; [done|].
  assert (∀ k, forget q' !! k = effects (decoded (log_of o)) k None) as Hall.
  { intros k. rewrite Heff, after_zero by done. unfold reset. by rewrite forget_lookup, lookup_empty. }
  split; [|done].
  assert (0 ≤ last_seq_of (log_of o))%Z as H0.
  { unfold last_seq_of. destruct (last (log_of o)) as [e|] eqn:El; [|done].
    apply last_Some in El as (l & El). rewrite El in Hpos. apply Forall_app in Hpos as [_ Hpos].
    apply Forall_cons in Hpos as [? _]. cbn [from_option]. lia. }
  destruct (read_position 0 _ Hinc H0) as [Hp Hup].
  split; cbn [ob_db ob_queue ob_last_applied_sequence with_queue]; try done.
  exists []. split; [intros sr Hsr; by apply elem_of_nil in Hsr|]. intros k. rewrite app_nil_r.
  unfold log_of in *. cbn [ob_db ob_queue with_queue]. by rewrite Hup.
Qed.

(** *** Steps *)

Lemma log_grows (o : Outbox) db q es :
  tracks o → storage_inv (db_storage db) → stores_command_log (db_storage db) = true →
  committed (db_storage db) = log_of o ++ es →
  Forall entry_ok (committed (db_storage db)) →
  (∃ new, (∀ sr, sr ∈ new → sr ∈ decoded es) ∧
          ∀ k, forget q !! k = effects new k (forget (ob_queue o) !! k)) →
  tracks (mkOutbox db q (ob_last_applied_sequence o) (ob_epoch o)).
Proof.
  intros [Hi Hst Hok Hpos (early & Hearly & Hq)] Hi' Hst' Hcom Hok' (new & Hnew & Hq').
  set (n := ob_last_applied_sequence o) in *.
  assert (strictly_increasing (log_of o ++ es)) as Hinc.
  { rewrite <-Hcom. by apply inv_increasing. }
  assert (∀ e, e ∈ es → (n < sequence e)%Z) as Hlater.
  { intros e He. unfold last_seq_of in Hpos. destruct (last (log_of o)) as [l|] eqn:El.
    - apply last_Some in El as (l' & El). cbn [from_option] in Hpos.
      pose proof (StronglySorted_app_1_elem_of _ (log_of o) es l e Hinc) as Hlt. unfold seq_lt in Hlt.
      assert (l ∈ log_of o) as Hl by (rewrite El; apply elem_of_app; right; by left).
      specialize (Hlt Hl He). lia.
    - cbn [from_option] in Hpos. rewrite Hcom in Hok'. apply Forall_app in Hok' as [_ Hok'].
      rewrite Forall_forall in Hok'. destruct (Hok' e He). lia. }
  assert (after n es = es) as Hafter by (by apply Forall_filter_id, Forall_forall).
  assert (upto n es = []) as Hupto.
  { clear -Hlater. induction es as [|e es IH]; [done|]. rewrite upto_cons, decide_False.
    - apply IH. intros e' He'. apply Hlater. by right.
    - specialize (Hlater e (list_elem_of_here _ _)). lia. }
  split; unfold log_of in *; cbn [ob_db ob_queue ob_last_applied_sequence]; try done.
  - rewrite Hcom. unfold last_seq_of in *. fold n. rewrite last_app.
    destruct (last es) as [e|] eqn:El; [|done]. cbn [from_option].
    apply last_Some in El as (l & ->). assert (e ∈ l ++ [e]) as He by (apply elem_of_app; right; by left).
    specialize (Hlater e He). lia.
  - fold n. rewrite Hcom, upto_app, after_app, Hupto, Hafter, app_nil_r, decoded_app.
    exists (early ++ new). split.
    + intros sr [Hsr|Hsr]%elem_of_app; apply elem_of_app; [left | right]; auto.
    + intros k. by rewrite app_assoc, effects_app, Hq', Hq.
Qed.

(** Appending one record. *)
Lemma append_one clock r db :
  storage_inv (db_storage db) → stores_command_log (db_storage db) = true →
  let '(db', res) := append_log_record clock r db in
  storage_inv (db_storage db') ∧ stores_command_log (db_storage db') = true ∧
  match res with
  | Ok seq => ∃ bytes, json_to_vec r = Ok bytes ∧
      committed (db_storage db') = committed (db_storage db) ++ [mkEntry seq (now_nanos clock) bytes]
  | Err _ => committed (db_storage db') = committed (db_storage db)
  end.
Proof.
  intros Hi Hst. unfold append_log_record, append_log_records, mbind, mget, mlift.
  rewrite Hst. cbn [negb]. unfold reserve_sequences. cbn [length reserved seq fmap list_fmap].
  cbn [encode_entries_for_sequences]. unfold encode_log_record.
  destruct (json_to_vec r) as [bytes|e]; cbn [map_err rbind]; [|by split_and!].
  unfold append_entries. cbn [db_storage].
  destruct (append_batch (db_storage db) _) as [s' [[]|e]] eqn:Ha; cbn [map_err].
  - destruct (append_batch_Ok _ _ _ Hi Ha) as (Hi' & Hc & Hst'). cbn [mret db_storage].
    split_and!; [done | by rewrite Hst' |]. exists bytes. by split.
  - destruct (append_batch_Err _ _ _ _ Hi Ha) as (Hi' & Hc & Hst'). cbn [db_storage].
    split_and!; [done | by rewrite Hst' | done].
Qed.

(** Records of attempts round-trip through the codec. *)
Definition outcome_codec : Prop :=
  ∀ r bytes, match r with LCommand _ | LWebhookEnqueue _ => False | _ => True end →
    json_to_vec r = Ok bytes → decode_log_record bytes = Ok r.

Lemma finalize_tracks clock i m job epoch d o : outcome_codec →
  tracks o → log_ok (finalize_webhook_attempt clock i m job epoch d o).1 →
  tracks (finalize_webhook_attempt clock i m job epoch d o).1.
Proof.
  intros Hcodec Ho. unfold finalize_webhook_attempt. destruct (negb _); [done|].
  destruct (attempt_record clock i m job d) as [r|] eqn:Hr; [|done].
  pose proof (append_one clock r (ob_db o) (tr_inv _ Ho) (tr_stores _ Ho)) as Ha.
  destruct (append_log_record clock r (ob_db o)) as [db [seq|e]]; destruct Ha as (Hi & Hst & Ha).
  2: { cbn [fst]. intros Hok. apply (log_grows o db (ob_queue o) []); try done.
       - by rewrite app_nil_r.
       - exists []. split; [intros sr Hsr; by apply elem_of_nil in Hsr | done]. }
  destruct Ha as (bytes & Hb & Hc).
  assert (match r with LCommand _ | LWebhookEnqueue _ => False | _ => True end) as Hout.
  { unfold attempt_record in Hr. repeat case_match; simplify_eq; done. }
  assert (decode_log_record bytes = Ok r) as Hdec by (by apply Hcodec).
  destruct (apply_log_record (now_millis clock) seq r (ob_queue o)) as [q|e] eqn:Hq; cbn [fst];
    intros Hok;
    [apply (log_grows o db q [mkEntry seq (now_nanos clock) bytes] Ho Hi Hst Hc Hok)
    |apply (log_grows o db (ob_queue o) [mkEntry seq (now_nanos clock) bytes] Ho Hi Hst Hc Hok)].
  - exists [(seq, r)]. split.
    + intros sr ->%list_elem_of_singleton. unfold decoded, entry_record. cbn. rewrite Hdec. by left.
    + intros k. unfold effects. cbn [foldl]. by apply (apply_record_effect (now_millis clock)).
  - exists []. split; [intros sr Hsr; by apply elem_of_nil in Hsr | done].
Qed.

Lemma same_forget_tracks o q : tracks o → forget q = forget (ob_queue o) → tracks (with_queue o q).
Proof.
  intros [Hi Hst Hok Hpos Hq] Hf. split; try done. unfold log_of in *. cbn [with_queue ob_queue ob_db
    ob_last_applied_sequence]. by rewrite Hf.
Qed.

(** What happens around the queue, apart from flushes and compactions.  Client
    requests, whatever they are, only extend the log. *)
Inductive outbox_step : Outbox → Outbox → Prop :=
  | os_tail clock o : (now_millis clock < 2 ^ 63)%Z → outbox_step o (apply_log_tail clock o).1
  | os_release clock o : outbox_step o (outbox_release clock o)
  | os_lease clock available lease_ms worker o :
      outbox_step o (outbox_lease clock available lease_ms worker o).1
  | os_finalize clock i m job epoch d o :
      log_ok (finalize_webhook_attempt clock i m job epoch d o).1 →
      outbox_step o (finalize_webhook_attempt clock i m job epoch d o).1
  | os_requests db es o :
      storage_inv (db_storage db) → stores_command_log (db_storage db) = true →
      committed (db_storage db) = log_of o ++ es → log_ok (with_db o db) →
      outbox_step o (with_db o db)
  | os_restart clock o : (now_millis clock < 2 ^ 63)%Z → outbox_step o (start_outbox clock o).1.

Lemma step_tracks o o' : outcome_codec → outbox_step o o' → tracks o → tracks o'.
Proof.
  intros Hcodec Hstep Ho.
  destruct Hstep as [clock o Hn|clock o|clock a l w o|clock i m job epoch d o Hok|db es o Hi Hst Hc Hok|clock o Hn].
  - by destruct (tail_catches_up clock o Hn Ho) as (o' & -> & _ & Ht & _).
  - apply same_forget_tracks; [done | apply forget_release].
  - unfold outbox_lease. pose proof (forget_lease a l w (now_millis clock) (ob_queue o)) as Hf.
    destruct (lease_due a l w (now_millis clock) (ob_queue o)) as [q r]. by apply same_forget_tracks.
  - by apply finalize_tracks.
  - apply (log_grows o db (ob_queue o) es); try done.
    exists []. split; [intros sr Hsr; by apply elem_of_nil in Hsr | done].
  - by destruct (start_tracks clock o Hn (tr_inv _ Ho) (tr_stores _ Ho) (tr_ok _ Ho))
      as (o' & -> & _ & Ht & _).
Qed.

(** ** Properties *)

(** C24: the webhook queue follows the log.  From a start on, let reads of the
    log, leases, releases, delivery attempts, restarts and client requests
    that only extend the log interleave; no flush, no compaction and no
    following of a leader (after a compaction over RPC the queue is not what a
    restart would rebuild, [rpc_aofshrink_drops_jobs]).  Let every entry of
    the log decode to a record whose numbers fit the table ([log_ok]), the
    codec read back the outcome records it writes ([outcome_codec]) and the
    clocks stay below 2^63.  Then reading the tail of the log succeeds and
    leaves exactly the queue that a restart would rebuild, leases apart: the
    jobs that the records of the whole log describe. *)
Theorem queue_tracks_log (clock0 clock : Clock) (o0 o : Outbox)
    (Hcodec : outcome_codec)
    (Hinv : storage_inv (db_storage (ob_db o0)))
    (Hstores : stores_command_log (db_storage (ob_db o0)) = true) (Hok : log_ok o0)
    (Hclock0 : (now_millis clock0 < 2 ^ 63)%Z) (Hclock : (now_millis clock < 2 ^ 63)%Z)
    (Hrun : rtc outbox_step (start_outbox clock0 o0).1 o) :
  ∃ o1 o2,
    apply_log_tail clock o = (o1, Ok tt) ∧ start_outbox clock o = (o2, Ok tt) ∧
    forget (ob_queue o1) = forget (ob_queue o2) ∧
    ∀ k, forget (ob_queue o1) !! k = effects (decoded (log_of o)) k None.
Proof.
  destruct (start_tracks clock0 o0 Hclock0 Hinv Hstores Hok) as (s & Hs & _ & Ht & _).
  rewrite Hs in Hrun. cbn [fst] in Hrun.
  assert (tracks o) as Ho by (clear -Hrun Ht Hcodec; induction Hrun; eauto using step_tracks).
  destruct (tail_catches_up clock o Hclock Ho) as (o1 & H1 & _ & _ & Hq1).
  destruct (start_tracks clock o Hclock (tr_inv _ Ho) (tr_stores _ Ho) (tr_ok _ Ho))
    as (o2 & H2 & _ & _ & Hq2).
  exists o1, o2. split_and!; try done. apply map_eq. intros k. by rewrite Hq1, Hq2.
Qed.
End OutboxSpec.

(** ** Errors of a replay *)

Section ReplayErrors.
Context `{LM : Libm} `{GC : GeoCrate} `{RC : RTreeCrate} `{JT : JsonText} `{PT : Patterns}
  `{HO : HashOrder} `{LC : LogCodec} `{MD : Md5} `{B64 : Base64}.
Context {S : Type} `{SB : StorageBackend S} `{SL : !StorageLaws S}.

(** The error that stops a callback is kept in order to be returned, and never
    is: the storage's own error comes first. *)
Theorem replay_log_masks_error {St} (db : LatLng S) (n : Z)
    (cb : St → Z → LogRecord → St * result unit CoreError) (st : St) (e : CoreError) :
  (replay_log db n cb st).2 = Err e → ∃ se, e = CStorage se.
Proof.
  unfold replay_log. rewrite replay_committed. unfold replay_entries.
  set (es := filter _ _). clearbody es.
  set (f := λ acc e, _). assert (∀ l0 st, match replay_loop f l0 (st, None) es with
    | ((_, err), Ok _) => err = None | _ => True end) as Hloop.
  { clear st. induction es as [|e0 es IH]; intros l0 st; [done|]. cbn [replay_loop].
    unfold f at 1. destruct (decode_log_record (command e0)); [|done]. cbn [fst snd].
    destruct (cb st (sequence e0) a) as [st' [[]|]]; [apply IH | done]. }
  specialize (Hloop n st). destruct (replay_loop f n (st, None) es) as [[st' err] [last|se]].
  - subst err. done.
  - intros [= <-]. by exists se.
Qed.
End ReplayErrors.

(** ** Backoff *)

Lemma backoff_loop_spec e initial_ms max_ms : (max_ms ≤ U64_MAX)%Z → ∀ b,
  (0 < b)%Z → (initial_ms ≤ b)%Z →
  backoff_loop e b initial_ms max_ms = Z.min (b * 2 ^ Z.of_nat e) (Z.max max_ms initial_ms).
Proof.
  intros Hmax. induction e as [|e IH]; intros b Hb Hi; [by rewrite Z.mul_1_r|].
  cbn [backoff_loop]. rewrite Nat2Z.inj_succ, Z.pow_succ_r by lia.
  assert (1 ≤ 2 ^ Z.of_nat e)%Z as Hp by (pose proof (Z.pow_pos_nonneg 2 (Z.of_nat e)); lia).
  destruct (Z.leb_spec max_ms (Z.min (b * 2) U64_MAX)) as [Hle|Hgt].
  - rewrite Z.min_r; [done|]. nia.
  - rewrite Z.min_l in Hgt |- * by lia. rewrite IH by lia. f_equal. lia.
Qed.

(** The backoff after [n] attempts is the initial delay doubled [n - 1]
    times, at most the maximum (or the initial delay, when that is larger):
    saturation and the early exit do not change it. *)
Theorem backoff_closed_form (initial_ms max_ms attempts_used : Z)
    (Hmax : (max_ms ≤ U64_MAX)%Z) :
  exponential_backoff_ms initial_ms max_ms attempts_used =
  Z.min (Z.max initial_ms 1 * 2 ^ Z.max (attempts_used - 1) 0) (Z.max max_ms initial_ms).
Proof.
  unfold exponential_backoff_ms. rewrite backoff_loop_spec by lia. do 3 f_equal. lia.
Qed.

(** ** A concrete outbox *)
Module OutboxWitness.
Import ListTree NoGeoJson PlainText Memory QueueWitness.

#[local] Instance md5 : Md5 := λ _, [].
#[local] Instance base64 : Base64 := λ _, "id".

Definition retry_record : LogRecord := LWebhookRetryScheduled "job" 1 11 "timeout".

(** A codec that knows three records. *)
Definition tag (r : LogRecord) : option byte :=
  match r with
  | LWebhookEnqueue _ => Some Byte.x01
  | LWebhookAck k => if bool_decide (k = "job") then Some Byte.x02 else None
  | LWebhookRetryScheduled k a n err =>
      if bool_decide (k = "job" ∧ a = 1%Z ∧ n = 11%Z ∧ err = "timeout") then Some Byte.x03 else None
  | _ => None
  end.

#[local] Instance codec : LogCodec := {
  json_to_vec r := match tag r with Some b => Ok [b] | None => Err "unsupported" end;
  json_record bs := match bs with
                    | [Byte.x01] => Some (enqueue "job")
                    | [Byte.x02] => Some (LWebhookAck "job")
                    | [Byte.x03] => Some retry_record
                    | _ => None
                    end;
  bincode_record _ := None;
  json_command _ := None;
  bincode_command _ := Err "unsupported"
}.

Lemma codec_outcomes : outcome_codec.
Proof.
  intros r bytes Hr. simpl. destruct (tag r) as [b|] eqn:Ht; [|done]. intros [= <-]. revert Ht.
  destruct r as [c|e|k|k a n err|k a err]; simpl; try done.
  - case_bool_decide as H; [|done]. subst. by intros [= <-].
  - case_bool_decide as H; [|done]. destruct H as (-> & -> & -> & ->). by intros [= <-].
Qed.

Definition at_ms (ms : Z) : Clock := mkClock ms 0.

(** The engine has logged one job, nothing is applied yet. *)
Definition db : LatLng MemoryBackend :=
  mkDb ∅ (registry_new 4) (mkMemory [mkEntry 1 0 [Byte.x01]] false true) default_config 1 0.
Definition idle : Outbox := mkOutbox db ∅ 0 0.
Definition started : Outbox := (start_outbox (at_ms 0) idle).1.
Definition leased_once : Outbox := (outbox_lease (at_ms 10) 5 1000 "worker" started).1.

Lemma idle_ok : log_ok idle.
Proof.
  constructor; [|constructor]. split; [done|]. exists (enqueue "job"). split; [reflexivity|].
  eexists. reflexivity.
Qed.

Lemma idle_storage : storage_inv (db_storage (ob_db idle)).
Proof. vm_compute. repeat constructor. Qed.

Lemma queue_tracks_log_witness :
  ∃ o1 o2,
    apply_log_tail (at_ms 20) leased_once = (o1, Ok tt) ∧
    start_outbox (at_ms 20) leased_once = (o2, Ok tt) ∧
    forget (ob_queue o1) = forget (ob_queue o2) ∧
    ∀ k, forget (ob_queue o1) !! k = effects (decoded (log_of leased_once)) k None.
Proof.
  apply (queue_tracks_log (at_ms 0) (at_ms 20) idle leased_once codec_outcomes idle_storage
           eq_refl idle_ok eq_refl eq_refl).
  apply rtc_once. apply (os_lease (at_ms 10) 5 1000 "worker" started).
Defined.

Lemma backoff_closed_form_witness :
  exponential_backoff_ms 250 10000 4 = 2000%Z ∧ exponential_backoff_ms 250 10000 40 = 10000%Z.
Proof.
  split.
  - rewrite (backoff_closed_form 250 10000 4 ltac:(vm_compute; discriminate)). reflexivity.
  - rewrite (backoff_closed_form 250 10000 40 ltac:(vm_compute; discriminate)). reflexivity.
Defined.

(** *** What goes wrong *)

Definition job : QueueJob :=
  mkJob "job" "event" "hook" "https://example.com" alert 0 3 10 None 1.

(** The first attempt fails at 10 ms, its retry is due at 11 ms and is leased
    for a second. *)
Definition retried : Outbox :=
  (finalize_webhook_attempt (at_ms 10) 1 1 job 0 (DeliveryFailed "timeout") leased_once).1.
Definition leased_again : Outbox := (outbox_lease (at_ms 11) 5 1000 "worker" retried).1.

(** Reading the tail applies the retry record a second time and so ends the
    lease that the running attempt holds: the job is handed out again although
    its lease has not run out. *)
Theorem retry_applied_twice_ends_lease :
  due_jobs (outbox_lease (at_ms 11) 5 1000 "worker" retried).2 = ["job"] ∧
  due_jobs (outbox_lease (at_ms 12) 5 1000 "worker" leased_again).2 = [] ∧
  due_jobs (outbox_lease (at_ms 12) 5 1000 "worker" (apply_log_tail (at_ms 12) leased_again).1).2
    = ["job"].
Proof. split_and!; vm_compute; reflexivity. Qed.

(** The handler of AOFSHRINK takes the jobs from the queue: a job that is in
    the log and has not reached the queue yet is dropped from the log, and
    neither the tail of the new log nor a restart brings it back. *)
Theorem shrink_loses_unread_jobs :
  shrink_records idle = Ok [] ∧
  log_of (shrink_with (at_ms 1) [] idle).1 = [] ∧
  ob_queue (apply_log_tail (at_ms 2) (shrink_with (at_ms 1) [] idle).1).1 = ∅ ∧
  ob_queue (start_outbox (at_ms 2) (shrink_with (at_ms 1) [] idle).1).1 = ∅ ∧
  effects (decoded (log_of idle)) "job" None ≠ None.
Proof. split_and!; vm_compute; (reflexivity || discriminate). Qed.

(** A node that had written three entries follows another one, whose log it
    copies after its own did not match, and is made leader again.  Its outbox
    still stands at the third entry of the log it no longer has: a job logged
    after the promotion is not read, while a restart would find it. *)
Definition third : Outbox :=
  mkOutbox (mkDb ∅ (registry_new 4) (mkMemory [mkEntry 3 0 [Byte.x02]] false true) default_config 3 0)
    ∅ 3 0.
Definition promoted : Outbox :=
  let o := begin_following third in
  let db := (op_reset_replication_state (ob_db o)).1 in
  let db := (op_apply_replicated_entries (at_ms 1) [mkEntry 1 0 [Byte.x02]] db).1 in
  with_db o (append_log_record (at_ms 2) (enqueue "job") db).1.

Theorem promoted_outbox_skips_jobs :
  log_of promoted = [mkEntry 1 0 [Byte.x02]; mkEntry 2 0 [Byte.x01]] ∧
  (apply_log_tail (at_ms 3) promoted).2 = Ok tt ∧
  ob_queue (apply_log_tail (at_ms 3) promoted).1 = ∅ ∧
  is_Some (ob_queue (start_outbox (at_ms 3) promoted).1 !! "job").
Proof. split_and!; vm_compute; (reflexivity || eauto). Qed.

End OutboxWitness.
