(* ===== verification/Replication.v ===== *)
(** * Replication ([crates/latlng-replication/src/lib.rs],
    [crates/latlng-server/src/replication.rs],
    [crates/latlng-capnp/src/streams.rs])

    A follower asks its leader who it is, compares the checksum of the entries
    it has with the leader's, starts over when they differ, and then applies
    the leader's log batch by batch.  Calls to the leader are functions of the
    leader's engine state; the connection itself is outside.  Locks around the
    status are taken one after the other and are not modelled.  A command of
    the manager stops where the code awaits the executor, and [manager_go_on]
    takes it up again. *)

From Stdlib Require Import ZArith Lia.
From stdpp Require Import base gmap strings list sorting pretty.
From S2P Require Import Prelude Storage F64 Json Platform Geo Strings Index Geofence Collection.
From S2P Require Import Engine.

(** ** Status *)

(** The errors of an attempt to follow; the code passes on their texts. *)
Inductive FollowError : Type :=
  | InvalidTarget
  | NoCredential
  | Unreachable (error : string)
  | CannotFollowSelf
  | CannotFollowFollower
  | LeaderChanged
  | FollowCore (e : CoreError).

Inductive ReplicationRole : Type := Leader | Follower.

Record FollowTarget := mkTarget { target_host : string; target_port : Z }.

Definition display (t : FollowTarget) : string := target_host t +:+ ":" +:+ pretty (target_port t).

Record ReplicationStatus := mkStatus {
  rs_server_id : string;
  rs_role : ReplicationRole;
  rs_follow_target : option FollowTarget;
  rs_leader_id : option string;
  rs_caught_up : bool;
  rs_caught_up_once : bool;
  rs_local_last_sequence : Z;
  rs_leader_last_sequence : Z;
  rs_reconnects_total : Z;
  rs_checksum_mismatches_total : Z;
  rs_resyncs_total : Z;
  rs_last_error : option FollowError
}.

Definition status_leader (server_id : string) : ReplicationStatus :=
  mkStatus server_id Leader None None true true 0 0 0 0 0 None.

Definition status_follower (server_id : string) (target : FollowTarget) : ReplicationStatus :=
  mkStatus server_id Follower (Some target) None false false 0 0 0 0 0 None.

Definition is_follower (s : ReplicationStatus) : bool :=
  match rs_role s with Follower => true | Leader => false end.

Definition queries_allowed (s : ReplicationStatus) : bool :=
  negb (is_follower s) || rs_caught_up_once s.

Definition effective_read_only (s : ReplicationStatus) (configured : bool) : bool :=
  configured || is_follower s.

Definition following (s : ReplicationStatus) : option string := display <$> rs_follow_target s.

(** ** Chunks *)

Section Chunks.
Context {S : Type} `{SB : StorageBackend S} `{MD : Md5}.

Record ReplicationChunk := mkChunk {
  chunk_entries : list StorageEntry;
  chunk_checksum : list byte;
  chunk_last_sequence : Z
}.

Definition fetch_chunk (backend : S) (after_sequence : Z) (max_entries : nat)
    : result ReplicationChunk StorageError :=
  let '((entries, last_sequence), r) :=
    replay backend after_sequence
      (λ acc e, ((if (length acc.1 <? Nat.max max_entries 1)%nat then acc.1 ++ [e] else acc.1,
                  sequence e), Ok tt))
      ([], after_sequence) in
  let? _ := r in
  Ok (mkChunk entries (checksum_entries entries) last_sequence).

Definition apply_chunk (backend : S) (chunk : ReplicationChunk) : S * result unit StorageError :=
  append_batch backend (chunk_entries chunk).

Definition verify_range (backend : S) (from to : Z) (expected : list byte)
    : result bool StorageError :=
  let? actual := checksum backend from to in Ok (bool_decide (actual = expected)).

End Chunks.

(** ** Following *)

Record RemoteReplicationInfo := mkInfo {
  info_server_id : string;
  info_following : string;
  info_leader : bool;
  info_last_sequence : Z
}.

Section Follow.
Context `{LM : Libm} `{GC : GeoCrate} `{RC : RTreeCrate} `{JT : JsonText} `{PT : Patterns}
  `{HO : HashOrder} `{LC : LogCodec} `{MD : Md5} `{B64 : Base64}.
Context {S : Type} `{SB : StorageBackend S}.

(** [ReplicationStreamRpc::next] at the leader: the next entries, the leader's
    last sequence and the position afterwards.  [None] when there is nothing
    to send: the call then waits for a write. *)
Definition stream_next (leader : LatLng S) (after_sequence : Z) (batch_size : nat)
    : result (option (list StorageEntry * Z * Z)) CoreError :=
  let? entries := (op_storage_entries_after after_sequence (Nat.max batch_size 1) leader).2 in
  Ok (match last entries with
      | None => None
      | Some e => Some (entries, db_next_sequence leader, sequence e)
      end).

(** The checks that [validate_follow_target] and [follow_once] make on the
    leader's answer. *)
Definition check_leader (info : RemoteReplicationInfo) (st : ReplicationStatus)
    : result unit FollowError :=
  if String.eqb (info_server_id info) (rs_server_id st) then Err CannotFollowSelf
  else if negb (info_leader info) || negb (String.eqb (info_following info) "")
  then Err CannotFollowFollower
  else Ok tt.

Definition mark_caught_up (leader_last_sequence local : Z) (st : ReplicationStatus)
    : ReplicationStatus :=
  if (leader_last_sequence <=? local)%Z then
    mkStatus (rs_server_id st) (rs_role st) (rs_follow_target st) (rs_leader_id st) true true
      local leader_last_sequence (rs_reconnects_total st)
      (rs_checksum_mismatches_total st) (rs_resyncs_total st) (rs_last_error st)
  else st.

(** [follow_once] up to the opening of the stream: the position to stream
    from.  [remote_checksum] is the leader's answer for the same range. *)
Definition follow_sync (info : RemoteReplicationInfo)
    (remote_checksum : Z → Z → result (list byte) CoreError)
    (st : ReplicationStatus) (db : LatLng S)
    : (ReplicationStatus * LatLng S) * result Z FollowError :=
  match check_leader info st with
  | Err e => ((st, db), Err e)
  | Ok _ =>
      let local := db_next_sequence db in
      let st := mkStatus (rs_server_id st) (rs_role st) (rs_follow_target st)
        (Some (info_server_id info)) false false local (info_last_sequence info)
        (rs_reconnects_total st) (rs_checksum_mismatches_total st) (rs_resyncs_total st) None in
      let finish st db local := ((mark_caught_up (info_last_sequence info) local st, db), Ok local) in
      if (0 <? local)%Z then
        match (op_checksum_range 1 local db).2, remote_checksum 1%Z local with
        | Err e, _ | _, Err e => ((st, db), Err (FollowCore e))
        | Ok mine, Ok theirs =>
            if bool_decide (mine = theirs) then finish st db local
            else
              let st := mkStatus (rs_server_id st) (rs_role st) (rs_follow_target st)
                (rs_leader_id st) false (rs_caught_up_once st) (rs_local_last_sequence st)
                (rs_leader_last_sequence st) (rs_reconnects_total st)
                (saturating_add (rs_checksum_mismatches_total st) 1)
                (saturating_add (rs_resyncs_total st) 1) (rs_last_error st) in
              match op_reset_replication_state db with
              | (db, Err e) => ((st, db), Err (FollowCore e))
              | (db, Ok _) =>
                  finish (mkStatus (rs_server_id st) (rs_role st) (rs_follow_target st)
                            (rs_leader_id st) (rs_caught_up st) (rs_caught_up_once st) 0
                            (rs_leader_last_sequence st) (rs_reconnects_total st)
                            (rs_checksum_mismatches_total st) (rs_resyncs_total st)
                            (rs_last_error st)) db 0%Z
              end
        end
      else finish st db local
  end.

(** One turn of [follow_stream]: a batch is applied and the status updated. *)
Definition follow_batch (clock : Clock) (leader_id : string) (entries : list StorageEntry)
    (leader_last_sequence : Z) (cursor : Z) (st : ReplicationStatus) (db : LatLng S)
    : (ReplicationStatus * LatLng S) * result Z FollowError :=
  let '(db, r) :=
    match entries with
    | [] => (db, Ok cursor)
    | _ => op_apply_replicated_entries clock entries db
    end in
  match r with
  | Err e => ((st, db), Err (FollowCore e))
  | Ok cursor =>
      if negb (bool_decide (rs_leader_id st = Some leader_id)) then ((st, db), Err LeaderChanged)
      else
        let caught_up := (leader_last_sequence <=? cursor)%Z in
        ((mkStatus (rs_server_id st) (rs_role st) (rs_follow_target st) (rs_leader_id st) caught_up
            (rs_caught_up_once st || caught_up) cursor leader_last_sequence
            (rs_reconnects_total st) (rs_checksum_mismatches_total st) (rs_resyncs_total st) None,
          db), Ok cursor)
  end.

(** A failed attempt to follow, before the next one. *)
Definition follow_failed (error : FollowError) (st : ReplicationStatus) : ReplicationStatus :=
  if negb (is_follower st) then st
  else mkStatus (rs_server_id st) (rs_role st) (rs_follow_target st) (rs_leader_id st) false
         (rs_caught_up_once st) (rs_local_last_sequence st) (rs_leader_last_sequence st)
         (saturating_add (rs_reconnects_total st) 1) (rs_checksum_mismatches_total st)
         (rs_resyncs_total st) (Some error).

(** The turns of [follow_stream] against a leader that writes nothing more,
    until the stream has nothing to send; [clock k] is read in turn [k]. *)
Fixpoint follow_stream (turns : nat) (k : nat) (clock : nat → Clock) (leader_id : string)
    (leader : LatLng S) (batch_size : nat) (cursor : Z) (st : ReplicationStatus) (db : LatLng S)
    : (ReplicationStatus * LatLng S) * result Z FollowError :=
  match turns with
  | 0 => ((st, db), Ok cursor)
  | Datatypes.S turns' =>
      match stream_next leader cursor batch_size with
      | Err e => ((st, db), Err (FollowCore e))
      | Ok None => ((st, db), Ok cursor)
      | Ok (Some (entries, leader_last, _)) =>
          match follow_batch (clock k) leader_id entries leader_last cursor st db with
          | ((st', db'), Ok cursor') =>
              follow_stream turns' (Datatypes.S k) clock leader_id leader batch_size cursor' st' db'
          | ((st', db'), Err e) => ((st', db'), Err e)
          end
      end
  end.

(** One attempt to follow: [follow_once], with the leader's answers. *)
Definition follow_once (turns : nat) (clock : nat → Clock) (batch_size : nat)
    (info : RemoteReplicationInfo) (leader : LatLng S) (st : ReplicationStatus) (db : LatLng S)
    : (ReplicationStatus * LatLng S) * result Z FollowError :=
  match follow_sync info (λ from to, (op_checksum_range from to leader).2) st db with
  | ((st, db), Err e) => ((st, db), Err e)
  | ((st, db), Ok cursor) =>
      follow_stream turns 0 clock (info_server_id info) leader batch_size cursor st db
  end.

(** ** The manager's commands *)

(** The settings that replication reads and writes. *)
Record FollowSettings := mkSettings {
  fs_read_only : bool;
  fs_follow_host : option string;
  fs_follow_port : option Z;
  fs_replication_credential : option string;
  fs_replication_batch_size : nat
}.

Definition is_blank (s : string) : bool := String.eqb (trim s) "".

Definition configured_follow_target (c : FollowSettings) : option FollowTarget :=
  match fs_follow_host c, fs_follow_port c with
  | Some host, Some port =>
      if negb (is_blank host) && (0 <? port)%Z then Some (mkTarget host port) else None
  | _, _ => None
  end.

Definition configured_replication_credential (c : FollowSettings) : result string FollowError :=
  match fs_replication_credential c with
  | Some value => if is_blank value then Err NoCredential else Ok value
  | None => Err NoCredential
  end.

Definition replication_batch_size (c : FollowSettings) : nat :=
  Nat.max (fs_replication_batch_size c) 1.

(** [sync_effective_read_only] computes the flag and then sends it to the
    executor: the job that sets it in the engine, and both in one go. *)
Definition read_only_job (effective : bool) (db : LatLng S) : LatLng S :=
  let config := db_config db in
  mkDb (db_collections db) (db_geofences db) (db_storage db)
    (mkConfig effective (command_timeouts config)
       (config_queue_capacity config) (webhook_retry_count config))
    (db_next_sequence db) (db_expired_objects_total db).

Definition sync_effective_read_only (c : FollowSettings) (st : ReplicationStatus) (db : LatLng S)
    : LatLng S :=
  read_only_job (effective_read_only st (fs_read_only c)) db.

(** What the manager holds: the settings, the status, the engine, and the
    target its worker follows. *)
Record Manager := mkManager {
  mg_settings : FollowSettings;
  mg_status : ReplicationStatus;
  mg_db : LatLng S;
  mg_worker : option FollowTarget
}.

Definition start_replication_manager (c : FollowSettings) (server_id : string) (db : LatLng S)
    : Manager :=
  let target := configured_follow_target c in
  let st := match target with
            | Some target => status_follower server_id target
            | None => status_leader server_id
            end in
  mkManager c st (sync_effective_read_only c st db) target.

Definition validate_follow_target (c : FollowSettings) (st : ReplicationStatus)
    (remote : result RemoteReplicationInfo string) : result unit FollowError :=
  let? _ := configured_replication_credential c in
  match remote with
  | Err e => Err (Unreachable e)
  | Ok info => check_leader info st
  end.

(** What is left of a command after a step of it: the executor's job that sets
    the flag, and for FOLLOW the worker to start after it; or that worker. *)
Inductive Pending : Type :=
  | PendingJob (effective : bool) (worker : option FollowTarget)
  | PendingWorker (target : FollowTarget).

(** FOLLOW up to the executor's job. *)
Definition manager_follow (target : FollowTarget) (remote : result RemoteReplicationInfo string)
    (m : Manager) : Manager * result Pending FollowError :=
  if is_blank (target_host target) || (target_port target =? 0)%Z then (m, Err InvalidTarget)
  else
    match validate_follow_target (mg_settings m) (mg_status m) remote with
    | Err e => (m, Err e)
    | Ok _ =>
        let c := mg_settings m in
        let c := mkSettings (fs_read_only c) (Some (target_host target)) (Some (target_port target))
                   (fs_replication_credential c) (fs_replication_batch_size c) in
        let st := status_follower (rs_server_id (mg_status m)) target in
        (mkManager c st (mg_db m) (mg_worker m),
         Ok (PendingJob (effective_read_only st (fs_read_only c)) (Some target)))
    end.

(** UNFOLLOW up to the executor's job. *)
Definition manager_unfollow (m : Manager) : Manager * result Pending FollowError :=
  let c := mg_settings m in
  let c := mkSettings (fs_read_only c) None None
             (fs_replication_credential c) (fs_replication_batch_size c) in
  let st := status_leader (rs_server_id (mg_status m)) in
  (mkManager c st (mg_db m) None, Ok (PendingJob (effective_read_only st (fs_read_only c)) None)).

(** The READONLY request ([readonly] of the HTTP handlers) up to the
    executor's job. *)
Definition manager_read_only (enabled : bool) (m : Manager) : Manager * result Pending FollowError :=
  let c := mg_settings m in
  let c := mkSettings enabled (fs_follow_host c) (fs_follow_port c)
             (fs_replication_credential c) (fs_replication_batch_size c) in
  (mkManager c (mg_status m) (mg_db m) (mg_worker m),
   Ok (PendingJob (effective_read_only (mg_status m) (fs_read_only c)) None)).

(** The rest of a command: the job runs, then the old worker is aborted and
    the new one started; [None] when the command is over. *)
Definition manager_go_on (rest : Pending) (m : Manager) : Manager * option Pending :=
  match rest with
  | PendingJob effective worker =>
      (mkManager (mg_settings m) (mg_status m) (read_only_job effective (mg_db m)) (mg_worker m),
       PendingWorker <$> worker)
  | PendingWorker target => (mkManager (mg_settings m) (mg_status m) (mg_db m) (Some target), None)
  end.

(** What the worker does to the manager's state: an attempt to follow with the
    leader's answers, and a failed attempt. *)
Definition manager_worker (turns : nat) (clock : nat → Clock) (info : RemoteReplicationInfo)
    (leader : LatLng S) (m : Manager) : Manager :=
  match mg_worker m with
  | None => m
  | Some _ =>
      let '((st, db), r) :=
        follow_once turns clock (replication_batch_size (mg_settings m)) info leader
          (mg_status m) (mg_db m) in
      let st := match r with Ok _ => st | Err e => follow_failed e st end in
      mkManager (mg_settings m) st db (mg_worker m)
  end.

End Follow.

Arguments Manager {RC} S : rename.
