(* ===== verification/ReplicationSpec.v ===== *)
(** * Followers catch up

    A follower that can trust the comparison of checksums ends, after one
    attempt to follow, with its leader's log and its leader's live state,
    whatever it started from.  The engine of a follower is read-only once the
    job of its FOLLOW has run, when commands come one at a time.  Then what
    goes wrong: deadlines moved after the follower dropped the object,
    sequences that were reserved and not logged, and commands that overlap. *)

From Stdlib Require Import ZArith Lia SpecFloat.
From stdpp Require Import base gmap strings list sorting.
From S2P Require Import Prelude Storage F64 Json Platform Geo Strings Index IndexSpec Geofence.
From S2P Require Import GeofenceSpec Collection CollectionSpec Engine EngineSpec EngineLogic EngineOps.
From S2P Require Import StorageMemory Durability Recovery Replication.

Section FollowSpec.
Context `{LM : Libm} `{GC : GeoCrate} `{RC : RTreeCrate} `{JT : JsonText} `{PT : Patterns}
  `{HO : HashOrder} `{LC : LogCodec} `{MD : Md5} `{B64 : Base64}.
Context {S : Type} `{SB : StorageBackend S} `{SL : !StorageLaws S}.

Implicit Types db f leader : LatLng S.

(** ** Logs without gaps *)

(** Entry [k] has sequence [k + 1]. *)
Definition contiguous (log : list StorageEntry) : Prop :=
  ∀ k e, log !! k = Some e → sequence e = (Z.of_nat k + 1)%Z.

Lemma contiguous_snoc_filter log k : contiguous log →
  filter (λ e, (Z.of_nat k < sequence e)%Z) log = drop k log.
Proof.
  intros Hc. rewrite <-(take_drop k log) at 1. rewrite filter_app.
  assert (filter (λ e, (Z.of_nat k < sequence e)%Z) (take k log) = []) as ->.
  { apply elem_of_nil_inv. intros e [Hgt [j Hj]%list_elem_of_lookup]%list_elem_of_filter.
    apply lookup_take_Some in Hj as [Hj Hlt]. rewrite (Hc _ _ Hj) in Hgt. lia. }
  apply Forall_filter_id, Forall_forall. intros e [j Hj]%list_elem_of_lookup.
  rewrite lookup_drop in Hj. rewrite (Hc _ _ Hj). lia.
Qed.

(** [storage_entries_after] collects at most its limit. *)
Lemma collect_take limit es : ∀ acc n,
  replay_loop (λ acc e, (if (length acc <? limit)%nat then acc ++ [e] else acc, Ok tt)) n acc es =
  (acc ++ take (limit - length acc) es, Ok (from_option sequence n (last es))).
Proof.
  induction es as [|e es IH]; intros acc n; cbn [replay_loop].
  { by rewrite take_nil, app_nil_r. }
  rewrite IH, last_cons. f_equal; [|by destruct (last es)].
  destruct (Nat.ltb_spec (length acc) limit).
  - rewrite length_app. simpl. replace (limit - length acc) with (Datatypes.S (limit - (length acc + 1)))
      by lia. by rewrite <-app_assoc.
  - by replace (limit - length acc) with 0 by lia.
Qed.

Lemma next_batch leader k batch : contiguous (committed (db_storage leader)) →
  stream_next leader (Z.of_nat k) batch =
  let es := take (Nat.max batch 1) (drop k (committed (db_storage leader))) in
  Ok (match last es with
      | None => None
      | Some e => Some (es, db_next_sequence leader, sequence e)
      end).
Proof.
  intros Hc. unfold stream_next, op_storage_entries_after. rewrite replay_committed.
  unfold replay_entries. rewrite contiguous_snoc_filter, collect_take by done.
  cbn [app length snd]. rewrite Nat.sub_0_r. by replace (Nat.max _ 1) with (Nat.max batch 1) by lia.
Qed.

(** ** Applying a batch *)

Definition epoch : Clock := mkClock 0 0.

(** A record that a follower can apply after dropping what has expired at
    [t]: it does not read the clock, and where it moves a deadline the object
    is alive. *)
Definition stable_record (t : Z) (w : View) (e : StorageEntry) : Prop :=
  ∀ cmd, decode_log_record (command e) = Ok (LCommand cmd) →
  match cmd with
  | CmdSet q => sr_expire_seconds q = None
  | CmdExpire _ _ _ => False
  | CmdExpireAt n i _ | CmdPersist n i =>
      ∀ o, find_object w n i = Some o → is_expired t o = false
  | _ => True
  end.

Fixpoint steady (t : Z) (w : View) (es : list StorageEntry) : Prop :=
  match es with
  | [] => True
  | e :: rest => stable_record t w e ∧ ∀ w', spec_entry epoch w e = Some w' → steady t w' rest
  end.

Lemma stable_agreeable t v w e cmd : stale t v w → stable_record t w e →
  decode_log_record (command e) = Ok (LCommand cmd) → agreeable v w cmd.
Proof.
  intros Hst Hr Hd. specialize (Hr cmd Hd).
  assert (∀ n i, (∀ o, find_object w n i = Some o → is_expired t o = false) →
    find_object v n i = find_object w n i) as Hsame.
  { intros n i Hlive. destruct (find_object v n i) as [o|] eqn:Hv.
    - symmetry. by apply (stale_sub _ _ _ Hst).
    - destruct (find_object w n i) as [o|] eqn:Hw; [|done].
      pose proof (stale_extra _ _ _ Hst _ _ _ Hw Hv) as Hx. by rewrite (Hlive o eq_refl) in Hx. }
  destruct cmd; simpl in *; auto.
Qed.

Lemma stale_replay t clock es : ∀ v w w', stale t v w → steady t w es →
  spec_replay epoch w es = Some w' →
  ∃ v', spec_replay clock v es = Some v' ∧ stale t v' w'.
Proof.
  induction es as [|e es IH]; intros v w w' Hst Hsteady; cbn [spec_replay].
  { intros [= <-]. by exists v. }
  destruct Hsteady as [Hr Hrest]. destruct (spec_entry epoch w e) as [w1|] eqn:He; [|done].
  assert (∃ v1, spec_entry clock v e = Some v1 ∧ stale t v1 w1) as (v1 & -> & Hst1).
  { unfold spec_entry in He |- *. destruct (decode_log_record (command e)) as [[cmd| | | |]|] eqn:Hd;
      simplify_eq; eauto.
    pose proof (stale_command t v w cmd clock epoch Hst (stable_agreeable t v w e cmd Hst Hr Hd))
      as Hall. rewrite He in Hall. inversion Hall. eauto. }
  intros Hw'. by eapply IH; [|apply Hrest|].
Qed.

Lemma steady_app t a b : ∀ w w1, steady t w (a ++ b) → spec_replay epoch w a = Some w1 →
  steady t w a ∧ steady t w1 b.
Proof.
  induction a as [|e a IH]; intros w w1; cbn [app steady spec_replay].
  { by intros Hs [= <-]. }
  intros [Hr Hrest] Ha. destruct (spec_entry epoch w e) as [w2|] eqn:He; [|done].
  destruct (IH w2 w1 (Hrest w2 eq_refl) Ha). split; [|done]. split; [done|]. by intros w' [= <-].
Qed.

(** A storage that takes every batch that continues its log, and a fresh
    start. *)
Definition accepting (takes : S → Prop) : Prop :=
  ∀ s, storage_inv s → takes s →
    (∀ es, strictly_increasing (committed s ++ es) →
       ∃ s', append_batch s es = (s', Ok tt) ∧ takes s') ∧
    (∃ s', snapshot s [] = (s', Ok tt) ∧ takes s').

Section Syncing.
Context (takes : S → Prop) (Htakes : accepting takes).
Context (t : Z) (log : list StorageEntry) (meaning : View).
Context (Hcontiguous : contiguous log) (Hincreasing : strictly_increasing log)
  (Hbound : (Z.of_nat (length log) < 2 ^ 64)%Z)
  (Hmeaning : spec_replay epoch empty_view log = Some meaning)
  (Hsteady : steady t empty_view log).

(** The follower has the entries [pre] of the leader's log and, up to expired
    objects, what they mean. *)
Record synced (pre : list StorageEntry) (f : LatLng S) : Prop := mkSynced {
  sy_inv : storage_inv (db_storage f);
  sy_takes : takes (db_storage f);
  sy_log : committed (db_storage f) = pre;
  sy_next : db_next_sequence f = Z.of_nat (length pre);
  sy_cells : cells_inv (db_collections f);
  sy_view : ∃ w, spec_replay epoch empty_view pre = Some w ∧ stale t (view f) w
}.

Lemma sequence_at pre e post : log = pre ++ e :: post →
  sequence e = (Z.of_nat (length pre) + 1)%Z.
Proof. intros Hlog. apply Hcontiguous. by rewrite Hlog, list_lookup_middle. Qed.

Lemma last_sequence_at pre es post e : log = pre ++ es ++ post → last es = Some e →
  sequence e = Z.of_nat (length (pre ++ es)).
Proof.
  intros Hlog [es' ->]%last_Some.
  rewrite (sequence_at (pre ++ es') e post) by (by rewrite Hlog, <-!app_assoc).
  rewrite !length_app. simpl. lia.
Qed.

Lemma prefix_meaning pre post : log = pre ++ post →
  ∃ w, spec_replay epoch empty_view pre = Some w ∧ spec_replay epoch w post = Some meaning ∧
       steady t w post.
Proof.
  intros Hlog. pose proof Hmeaning as Hm. pose proof Hsteady as Hs.
  rewrite Hlog in Hs. rewrite Hlog, spec_replay_app in Hm. destruct (spec_replay epoch empty_view pre) as [w|] eqn:Hw; [|done]. exists w.
  split_and!; [done..|]. by eapply steady_app.
Qed.

Lemma sync_batch clock pre es post f :
  log = pre ++ es ++ post → es ≠ [] → synced pre f → (now_millis clock ≤ t)%Z →
  ∃ f', op_apply_replicated_entries clock es f = (f', Ok (Z.of_nat (length (pre ++ es)))) ∧
        synced (pre ++ es) f'.
Proof.
  intros Hlog Hne [Hi Ht Hcom Hnext Hcs (w & Hw & Hst)] Hnow.
  destruct (prefix_meaning pre (es ++ post) Hlog) as (w0 & Hw0 & Hrest & Hsteady').
  rewrite Hw in Hw0. injection Hw0 as <-. rewrite spec_replay_app in Hrest.
  destruct (spec_replay epoch w es) as [w1|] eqn:Hw1; [|done].
  destruct (steady_app t es post w w1 Hsteady' Hw1) as [Hs _].
  destruct (Htakes _ Hi Ht) as [Happ _]. destruct (Happ es) as (s' & Hs' & Ht').
  { rewrite Hcom. pose proof Hincreasing as Hinc. rewrite Hlog, app_assoc in Hinc.
    by apply strictly_increasing_app in Hinc as [? _]. }
  destruct (stale_replay t clock es (view f) w w1 Hst Hs Hw1) as (v1 & Hv1 & Hst1).
  destruct es as [|first rest]; [done|].
  assert (last_seq_of (first :: rest) = Z.of_nat (length (pre ++ first :: rest))) as Hlast.
  { destruct (last (first :: rest)) as [e|] eqn:He; [|by apply last_None in He].
    unfold last_seq_of. rewrite He. simpl. by eapply last_sequence_at. }
  destruct (apply_replicated_Ok clock first rest f s' v1) as (f' & Hf & Hv & Hcs' & Hst' & Hn);
    [|done..|].
  { rewrite Hnext, (sequence_at pre first (rest ++ post)) by done. unfold wrapping_add.
    rewrite Z.mod_small; [done|]. rewrite Hlog, !length_app in Hbound. simpl in Hbound. lia. }
  rewrite Hlast in Hf, Hn. exists f'. split; [done|].
  destruct (append_batch_Ok _ _ _ Hi Hs') as (Hi' & Hcom' & _).
  split; rewrite ?Hst'; try done; [by rewrite Hcom', Hcom|].
  exists w1. rewrite spec_replay_app, Hw. split; [done|]. rewrite Hv. by apply stale_gc_before.
Qed.

(** ** The stream, and the start *)

Context (leader : LatLng S) (clock : nat → Clock) (batch : nat).
Context (Hlog : committed (db_storage leader) = log)
  (Hnext : db_next_sequence leader = Z.of_nat (length log))
  (Hclock : ∀ k, (now_millis (clock k) ≤ t)%Z).

Definition caught_up_at_end (st : ReplicationStatus) : Prop :=
  rs_caught_up st = true ∧ rs_caught_up_once st = true.

Lemma stream_syncs id turns : ∀ k pre post st f,
  log = pre ++ post → synced pre f → length post ≤ turns → rs_leader_id st = Some id →
  (post = [] → caught_up_at_end st) →
  ∃ st' f', follow_stream turns k clock id leader batch (Z.of_nat (length pre)) st f =
              ((st', f'), Ok (Z.of_nat (length log))) ∧
            synced log f' ∧ caught_up_at_end st'.
Proof.
  induction turns as [|turns IH]; intros k pre post st f Hsplit Hf Hlen Hid Hst.
  { destruct post; [|simpl in Hlen; lia]. rewrite app_nil_r in Hsplit. subst pre.
    exists st, f. auto. }
  cbn [follow_stream]. rewrite next_batch by (by rewrite Hlog). rewrite Hlog, Hsplit, drop_app_length.
  cbv zeta. destruct (last (take _ post)) as [e|] eqn:He.
  2: { apply last_None in He. destruct post as [|e post].
       { rewrite app_nil_r in Hsplit |- *. subst pre. exists st, f. auto. }
       by destruct (Nat.max batch 1) eqn:?; [lia|]. }
  set (es := take (Nat.max batch 1) post). set (post' := drop (Nat.max batch 1) post).
  assert (log = pre ++ es ++ post') as Hsplit' by (unfold es, post'; by rewrite take_drop).
  assert (es ≠ []) as Hne by (intros Hes; unfold es in Hes; by rewrite Hes in He).
  destruct (sync_batch (clock k) pre es post' f Hsplit' Hne Hf (Hclock k)) as (f' & Happ & Hf').
  unfold follow_batch. destruct es as [|e0 es0] eqn:Hes; [done|]. rewrite <-Hes in *.
  rewrite Happ, Hid, bool_decide_true by done. cbn [negb].
  rewrite app_assoc in Hsplit'. rewrite <-Hsplit. apply (IH _ _ post'); [done|done| |done|].
  - unfold post'. rewrite length_drop. destruct post; [by destruct (Nat.max batch 1)|].
    simpl in Hlen |- *. lia.
  - intros Hp. rewrite Hp, app_nil_r in Hsplit'. rewrite Hnext, Hsplit', Z.leb_refl.
    split; [done|]. apply orb_true_r.
Qed.

(** Starting over. *)
Lemma reset_synced f : storage_inv (db_storage f) → takes (db_storage f) →
  ∃ f', op_reset_replication_state f = (f', Ok tt) ∧ synced [] f'.
Proof.
  intros Hi Ht. destruct (Htakes _ Hi Ht) as [_ (s' & Hs' & Ht')].
  destruct (snapshot_Ok _ _ _ Hi Hs') as (Hi' & Hcom & _).
  eexists. split.
  - unfold op_reset_replication_state. do 3 (etrans; [by apply mbind_Ok|]).
    etrans; [eapply mbind_Ok; unfold snapshot_storage; cbn [db_storage]; by rewrite Hs'|]. done.
  - split; try done. exists empty_view. split; [done|].
    replace (view _) with empty_view; [apply stale_refl|]. symmetry. apply empty_view_of.
Qed.

(** A follower whose log is a prefix of the leader's. *)
Lemma prefix_synced t0 f pre post : durable t0 f → (t0 ≤ t)%Z → takes (db_storage f) →
  db_next_sequence f = last_seq_of (committed (db_storage f)) →
  committed (db_storage f) = pre → log = pre ++ post → synced pre f.
Proof.
  intros [(Hi & _ & Hcs) _ _ (w & Hw & Hst)] Ht Htk Hn Hcom Hsplit.
  split; try done.
  - rewrite Hn, Hcom. unfold last_seq_of. destruct (last pre) as [e|] eqn:He.
    + simpl. rewrite (last_sequence_at [] pre post e) by done. done.
    + apply last_None in He. by rewrite He.
  - exists w. rewrite <-Hcom. split; [done|]. by eapply stale_mono.
Qed.

Lemma marked_caught_up pre post st : log = pre ++ post → post = [] →
  caught_up_at_end (mark_caught_up (Z.of_nat (length log)) (Z.of_nat (length pre)) st).
Proof.
  intros -> ->. rewrite app_nil_r. unfold mark_caught_up. by rewrite Z.leb_refl.
Qed.

Lemma mark_keeps_leader a b st : rs_leader_id (mark_caught_up a b st) = rs_leader_id st.
Proof. unfold mark_caught_up. by destruct (a <=? b)%Z. Qed.

Lemma sync_starts t0 info st f mine theirs :
  durable t0 f → (t0 ≤ t)%Z → takes (db_storage f) →
  db_next_sequence f = last_seq_of (committed (db_storage f)) →
  check_leader info st = Ok tt → info_last_sequence info = Z.of_nat (length log) →
  (op_checksum_range 1 (db_next_sequence f) f).2 = Ok mine →
  (op_checksum_range 1 (db_next_sequence f) leader).2 = Ok theirs →
  (mine = theirs → committed (db_storage f) `prefix_of` log) →
  ∃ st1 f1 pre post,
    follow_sync info (λ from to, (op_checksum_range from to leader).2) st f =
      ((st1, f1), Ok (Z.of_nat (length pre))) ∧
    log = pre ++ post ∧ synced pre f1 ∧ rs_leader_id st1 = Some (info_server_id info) ∧
    (post = [] → caught_up_at_end st1).
Proof.
  intros Hf Ht Htk Hn Hinfo Hlast Hmine Htheirs Hdigest.
  assert (∀ pre post, committed (db_storage f) = pre → log = pre ++ post → synced pre f) as Hpre
    by eauto using prefix_synced.
  unfold follow_sync. rewrite Hinfo, Hlast. cbv zeta.
  destruct (Z.ltb_spec 0 (db_next_sequence f)) as [Hpos|Hzero].
  - rewrite Hmine, Htheirs. case_bool_decide as Heq.
    + destruct (Hdigest Heq) as [post Hsplit]. pose proof (Hpre _ post eq_refl Hsplit) as Hsy.
      rewrite (sy_next _ _ Hsy). do 4 eexists. split_and!; [done|exact Hsplit|done| |].
      * by rewrite mark_keeps_leader.
      * by apply marked_caught_up.
    + destruct Hf as [(Hi & _) _ _ _]. destruct (reset_synced f Hi Htk) as (f' & -> & Hsy).
      exists (mark_caught_up (Z.of_nat (length log)) 0 (mkStatus (rs_server_id st) (rs_role st)
        (rs_follow_target st) (Some (info_server_id info)) false false 0 (Z.of_nat (length log))
        (rs_reconnects_total st) (saturating_add (rs_checksum_mismatches_total st) 1)
        (saturating_add (rs_resyncs_total st) 1) None)), f', [], log.
      split_and!; [done..| |].
      * by rewrite mark_keeps_leader.
      * by apply (marked_caught_up []).
  - assert (committed (db_storage f) = []) as Hnil.
    { destruct (last (committed (db_storage f))) as [e|] eqn:He; [|by apply last_None].
      rewrite Hn in Hzero. unfold last_seq_of in Hzero. rewrite He in Hzero. simpl in Hzero.
      apply last_Some in He as [l He]. pose proof (dur_healthy _ _ Hf) as Hh.
      unfold log_healthy in Hh. rewrite He, Forall_app, Forall_singleton in Hh. lia. }
    pose proof (Hpre [] log Hnil eq_refl) as Hsy. rewrite (sy_next _ _ Hsy).
    do 4 eexists. split_and!; [done|done|done| |].
    + by rewrite mark_keeps_leader.
    + by apply (marked_caught_up []).
Qed.

End Syncing.

(** ** Operations leave the configuration alone *)

Definition keeps_config {A} (m : M (S := S) A) : Prop :=
  ∀ db, db_config (m db).1 = db_config db.

Lemma keeps_bind {A B} (m : M A) (k : A → M B) :
  keeps_config m → (∀ a, keeps_config (k a)) → keeps_config (mbind m k).
Proof.
  intros Hm Hk db. unfold mbind. specialize (Hm db). destruct (m db) as [db1 [a|e]]; [|done].
  by rewrite Hk.
Qed.

Lemma keeps_append entries : keeps_config (append_entries entries).
Proof. intros db. unfold append_entries. by destruct (append_batch _ _). Qed.

Lemma keeps_snapshot entries : keeps_config (snapshot_storage entries).
Proof. intros db. unfold snapshot_storage. by destruct (snapshot _ _). Qed.

Create HintDb keeps discriminated.
#[local] Hint Resolve keeps_append keeps_snapshot : keeps.

(** Walks through an operation: binds, branches, and primitives that rebuild
    the state around its configuration. *)
Ltac keep :=
  repeat first
    [ solve [eauto with keeps nocore]
    | progress intros
    | apply keeps_bind
    | match goal with
      | |- keeps_config (match ?x with _ => _ end) => destruct x
      | |- keeps_config (if ?x then _ else _) => destruct x
      | |- keeps_config (let '_ := ?x in _) => destruct x
      end
    | solve [intros ?; reflexivity] ].

Lemma keeps_records clock rs : keeps_config (append_log_records clock rs).
Proof. unfold append_log_records. keep. Qed.

Lemma keeps_batch clock cmd ws : keeps_config (persist_command_batch clock cmd ws).
Proof. unfold persist_command_batch. keep. Qed.

Lemma keeps_webhooks clock p : keeps_config (webhook_records_for_prepared clock p).
Proof. unfold webhook_records_for_prepared. keep. Qed.

#[local] Hint Resolve keeps_records keeps_batch keeps_webhooks : keeps.

Lemma keeps_record clock r : keeps_config (append_log_record clock r).
Proof. unfold append_log_record. keep. Qed.

#[local] Hint Resolve keeps_record : keeps.

Lemma keeps_set clock req : keeps_config (op_set clock req).
Proof. unfold op_set, try_set_local, set_exclusive, set_body, set_fast. keep. Qed.

Lemma keeps_del clock n i : keeps_config (op_del clock n i).
Proof. unfold op_del, del_exclusive, del_body. keep. Qed.

Lemma keeps_del_exclusive clock n i : keeps_config (del_exclusive clock n i).
Proof. unfold del_exclusive, del_body. keep. Qed.

#[local] Hint Resolve keeps_set keeps_del keeps_del_exclusive : keeps.

Lemma keeps_del_all clock n ids : ∀ removed, keeps_config (del_all clock n ids removed).
Proof. induction ids; intros removed; cbn [del_all]; keep. Qed.

Lemma keeps_prepared ps : keeps_config (apply_all_prepared ps).
Proof. induction ps; cbn [apply_all_prepared]; keep. Qed.

Lemma keeps_plan_drops clock n os : keeps_config (plan_drops clock n os).
Proof. induction os; cbn [plan_drops]; keep. Qed.

Lemma keeps_expire_ids clock n ids : ∀ expired, keeps_config (expire_ids clock n ids expired).
Proof. induction ids; intros expired; cbn [expire_ids]; keep. Qed.

#[local] Hint Resolve keeps_del_all keeps_prepared keeps_plan_drops keeps_expire_ids : keeps.

Lemma keeps_expire_collections clock now_ms max hs : ∀ expired,
  keeps_config (expire_collections clock now_ms max hs expired).
Proof. induction hs as [|[n v] hs IH]; intros expired; cbn [expire_collections]; keep. Qed.

Lemma keeps_apply_entries clock es : keeps_config (apply_entries clock es).
Proof. induction es; cbn [apply_entries]; keep. Qed.

#[local] Hint Resolve keeps_expire_collections keeps_apply_entries : keeps.

Lemma keeps_replicated clock es : keeps_config (op_apply_replicated_entries clock es).
Proof. unfold op_apply_replicated_entries, op_gc. keep. Qed.

Lemma keeps_reset : keeps_config op_reset_replication_state.
Proof. unfold op_reset_replication_state. keep. Qed.

Lemma execute_keeps_config clock rq : keeps_config (execute clock rq).
Proof.
  destruct rq; unfold execute, forget; try apply keeps_bind; try (keep; fail).
  all: unfold op_pdel, op_fset, op_expire, op_persist, expiry_body, op_jset, op_jdel,
    edit_geojson_local, op_create_collection, op_drop_collection, rename_inner, op_setchan,
    op_delchan, op_pdelchan, op_sethook, op_delhook, op_pdelhook, op_flushdb, op_expire_due; keep.
Qed.

(** ** The manager *)

(** Following changes how far the follower is, never what it is. *)
Definition same_role (st st' : ReplicationStatus) : Prop :=
  rs_role st' = rs_role st ∧ rs_follow_target st' = rs_follow_target st.

Lemma mark_role a b st : same_role st (mark_caught_up a b st).
Proof. unfold mark_caught_up. by destruct (a <=? b)%Z. Qed.

Lemma follow_batch_frame clock id es last cursor st f :
  let r := follow_batch clock id es last cursor st f in
  same_role st r.1.1 ∧ db_config r.1.2 = db_config f.
Proof.
  unfold follow_batch.
  assert (∀ r, r = (match es with [] => (f, Ok cursor) | _ => op_apply_replicated_entries clock es f end)
    → db_config r.1 = db_config f) as Hr.
  { intros r ->. destruct es; [done|]. apply keeps_replicated. }
  destruct (match es with [] => _ | _ => _ end) as [f' [c|e]] eqn:He;
    specialize (Hr _ eq_refl); [|done]. by destruct (negb _).
Qed.

Lemma follow_stream_frame clock id leader batch turns : ∀ k cursor st f,
  let r := follow_stream turns k clock id leader batch cursor st f in
  same_role st r.1.1 ∧ db_config r.1.2 = db_config f.
Proof.
  induction turns as [|turns IH]; intros k cursor st f; cbn [follow_stream]; [done|].
  destruct (stream_next _ _ _) as [[[[es last] next]|]|e]; [|done|done].
  pose proof (follow_batch_frame (clock k) id es last cursor st f) as [[Hr Ht] Hc].
  destruct (follow_batch _ _ _ _ _ _ _) as [[st' f'] [c|e]]; simpl in *; [|done].
  destruct (IH (Datatypes.S k) c st' f') as [[Hr' Ht'] Hc'].
  split; [split; congruence|congruence].
Qed.

Lemma follow_sync_frame info remote st f :
  let r := follow_sync info remote st f in
  same_role st r.1.1 ∧ db_config r.1.2 = db_config f.
Proof.
  unfold follow_sync. destruct (check_leader info st); [|done]. cbv zeta.
  set (st0 := mkStatus _ _ _ (Some _) _ _ _ _ _ _ _ _).
  assert (same_role st st0) as Hst0 by done.
  destruct (0 <? _)%Z; [|by split; [apply (mark_role _ _ st0)|]].
  destruct (op_checksum_range _ _ _).2 as [mine|]; [|done].
  destruct (remote _ _) as [theirs|]; [|done].
  case_bool_decide; [by split; [apply (mark_role _ _ st0)|]|].
  pose proof (keeps_reset f) as Hreset.
  destruct (op_reset_replication_state f) as [f' [?|?]]; [|done]. split; [|done].
  match goal with |- context [mark_caught_up ?a ?b ?s] => apply (mark_role a b s) end.
Qed.

Lemma follow_once_frame turns clock batch info leader st f :
  let r := follow_once turns clock batch info leader st f in
  same_role st r.1.1 ∧ db_config r.1.2 = db_config f.
Proof.
  unfold follow_once.
  pose proof (follow_sync_frame info (λ from to, (op_checksum_range from to leader).2) st f)
    as [[Hr Ht] Hc].
  destruct (follow_sync _ _ _ _) as [[st' f'] [cursor|e]]; simpl in *; [|done].
  destruct (follow_stream_frame clock (info_server_id info) leader batch turns 0 cursor st' f')
    as [[Hr' Ht'] Hc'].
  split; [split; congruence|congruence].
Qed.

(** The manager with the commands that are under way; ports are 16-bit. *)
Inductive Control : Type :=
  | CtlFollow (target : FollowTarget) (remote : result RemoteReplicationInfo string)
  | CtlUnfollow
  | CtlReadOnly (enabled : bool).

Definition control_ok (c : Control) : Prop :=
  match c with CtlFollow target _ => (0 ≤ target_port target < 2 ^ 16)%Z | _ => True end.

Definition control_begin (c : Control) (m : Manager S) : Manager S * result Pending FollowError :=
  match c with
  | CtlFollow target remote => manager_follow target remote m
  | CtlUnfollow => manager_unfollow m
  | CtlReadOnly enabled => manager_read_only enabled m
  end.

Record System := mkSystem { sy_manager : Manager S; sy_pending : gmap nat Pending }.

(** One step: a command begins or goes on, the worker attempts to follow, a
    client's request runs. *)
Inductive system_step : System → System → Prop :=
  | sys_begin k c m pending :
      control_ok c → pending !! k = None →
      system_step (mkSystem m pending)
        (mkSystem (control_begin c m).1
           match (control_begin c m).2 with Ok rest => <[k := rest]> pending | Err _ => pending end)
  | sys_go_on k rest m pending :
      pending !! k = Some rest →
      system_step (mkSystem m pending)
        (mkSystem (manager_go_on rest m).1
           match (manager_go_on rest m).2 with
           | Some rest' => <[k := rest']> pending | None => delete k pending end)
  | sys_worker turns clock info leader m pending :
      system_step (mkSystem m pending)
        (mkSystem (manager_worker turns clock info leader m) pending)
  | sys_request clock rq m pending :
      system_step (mkSystem m pending)
        (mkSystem (mkManager (mg_settings m) (mg_status m) (execute clock rq (mg_db m)).1
                     (mg_worker m)) pending).

(** A command begins only when none is under way. *)
Definition system_step_alone (s s' : System) : Prop :=
  system_step s s' ∧ (size (sy_pending s') ≤ 1).

Record manager_ok (m : Manager S) : Prop := mkManagerOk {
  mo_read_only : read_only (db_config (mg_db m)) =
                 effective_read_only (mg_status m) (fs_read_only (mg_settings m));
  mo_worker : mg_worker m = configured_follow_target (mg_settings m);
  mo_target : mg_worker m = rs_follow_target (mg_status m);
  mo_role : is_follower (mg_status m) = bool_decide (is_Some (mg_worker m))
}.

Lemma start_ok c id db : manager_ok (start_replication_manager c id db).
Proof.
  unfold start_replication_manager. by destruct (configured_follow_target c) eqn:Hc; split.
Qed.

Lemma worker_ok turns clock info leader m :
  manager_ok m → manager_ok (manager_worker turns clock info leader m).
Proof.
  intros [Hro Hw Ht Hr]. unfold manager_worker. destruct (mg_worker m) as [tg|] eqn:Hm; [|by split; rewrite ?Hm].
  pose proof (follow_once_frame turns clock (replication_batch_size (mg_settings m)) info leader
    (mg_status m) (mg_db m)) as [[Hrole Htarget] Hc].
  destruct (follow_once _ _ _ _ _ _ _) as [[st db] r]; simpl in *.
  assert (same_role (mg_status m) (match r with Ok _ => st | Err e => follow_failed e st end))
    as [Hrole' Htarget'].
  { destruct r; [done|]. unfold follow_failed. by destruct (negb _). }
  unfold is_follower in *.
  split; simpl; unfold effective_read_only, is_follower in *;
    rewrite ?Hc, ?Hrole', ?Htarget', ?Hm; done.
Qed.

(** The manager with one command under way, or none: what the command has
    still to do is the only thing that is missing. *)
Definition rest_ok (rest : Pending) (m : Manager S) : Prop :=
  match rest with
  | PendingJob effective None =>
      effective = effective_read_only (mg_status m) (fs_read_only (mg_settings m)) ∧
      mg_worker m = configured_follow_target (mg_settings m) ∧
      mg_worker m = rs_follow_target (mg_status m) ∧
      is_follower (mg_status m) = bool_decide (is_Some (mg_worker m)) ∧
      (is_follower (mg_status m) = true → read_only (db_config (mg_db m)) = true)
  | PendingJob effective (Some target) =>
      effective = true ∧ configured_follow_target (mg_settings m) = Some target ∧
      rs_follow_target (mg_status m) = Some target ∧ is_follower (mg_status m) = true
  | PendingWorker target =>
      read_only (db_config (mg_db m)) = true ∧
      configured_follow_target (mg_settings m) = Some target ∧
      rs_follow_target (mg_status m) = Some target ∧ is_follower (mg_status m) = true
  end.

Definition alone_ok (s : System) : Prop :=
  sy_pending s = ∅ ∧ manager_ok (sy_manager s) ∨
  ∃ k rest, sy_pending s = {[k := rest]} ∧ rest_ok rest (sy_manager s).

Lemma begin_ok c m : control_ok c → manager_ok m →
  match (control_begin c m).2 with
  | Ok rest => rest_ok rest (control_begin c m).1
  | Err _ => (control_begin c m).1 = m
  end.
Proof.
  intros Hc [Hro Hw Ht Hr]. destruct c as [target remote| |enabled]; simpl.
  - unfold manager_follow. destruct (_ || _) eqn:Hvalid; [done|].
    destruct (validate_follow_target _ _ _); [|done].
    apply orb_false_iff in Hvalid as [Hblank Hzero%Z.eqb_neq]. simpl in *.
    unfold configured_follow_target, effective_read_only. simpl. rewrite Hblank, orb_true_r. simpl.
    split_and!; try done. destruct (Z.ltb_spec 0 (target_port target)); [by destruct target|lia].
  - done.
  - split_and!; try done. rewrite Hro. unfold effective_read_only. intros ->. apply orb_true_r.
Qed.

Lemma go_on_ok rest m : rest_ok rest m →
  match (manager_go_on rest m).2 with
  | Some rest' => rest_ok rest' (manager_go_on rest m).1
  | None => manager_ok (manager_go_on rest m).1
  end.
Proof.
  destruct rest as [effective [target|]|target]; simpl.
  - intros (-> & ? & ? & ?). done.
  - intros (-> & ? & ? & ? & ?). by split.
  - intros (Hro & Hc & Ht & Hf). split; try done; simpl; rewrite ?Hc, ?Ht, ?Hf; try done.
    unfold effective_read_only. by rewrite Hro, Hf, orb_true_r.
Qed.

Lemma worker_keeps turns clock info leader m :
  let m' := manager_worker turns clock info leader m in
  mg_settings m' = mg_settings m ∧ mg_worker m' = mg_worker m ∧
  same_role (mg_status m) (mg_status m') ∧ db_config (mg_db m') = db_config (mg_db m).
Proof.
  unfold manager_worker. destruct (mg_worker m) as [tg|] eqn:Hm; [|by rewrite Hm].
  pose proof (follow_once_frame turns clock (replication_batch_size (mg_settings m)) info leader
    (mg_status m) (mg_db m)) as [[Hrole Htarget] Hc].
  destruct (follow_once _ _ _ _ _ _ _) as [[st db] r]; simpl in *.
  split_and!; [done..| |done]. destruct r; [done|]. unfold follow_failed. by destruct (negb _).
Qed.

Lemma worker_rest_ok turns clock info leader rest m :
  rest_ok rest m → rest_ok rest (manager_worker turns clock info leader m).
Proof.
  destruct (worker_keeps turns clock info leader m) as (Hs & Hw & [Hr Ht] & Hc).
  unfold rest_ok, effective_read_only, is_follower. by rewrite Hs, Hw, Hr, Ht, Hc.
Qed.

Lemma request_rest_ok clock rq rest m :
  rest_ok rest m →
  rest_ok rest (mkManager (mg_settings m) (mg_status m) (execute clock rq (mg_db m)).1 (mg_worker m)).
Proof. unfold rest_ok. simpl. by rewrite execute_keeps_config. Qed.

Lemma request_ok clock rq m : manager_ok m →
  manager_ok (mkManager (mg_settings m) (mg_status m) (execute clock rq (mg_db m)).1 (mg_worker m)).
Proof. intros [Hro Hw Ht Hr]. split; try done. simpl. by rewrite execute_keeps_config. Qed.

Lemma step_alone_ok s s' : alone_ok s → system_step_alone s s' → alone_ok s'.
Proof.
  intros Hok [Hstep Hsize]. unfold alone_ok in *.
  destruct Hstep as [k c m pending Hc Hk|k rest m pending Hk|turns clock info leader m pending
                    |clock rq m pending]; cbn [sy_pending sy_manager] in *.
  - destruct Hok as [[-> Hm]|(k' & rest & -> & Hrest)]; cbn in *.
    + pose proof (begin_ok c m Hc Hm) as Hb.
      destruct (control_begin c m) as [m' [rest|e]]; cbn in *.
      * right. exists k, rest. by rewrite insert_empty.
      * subst. by left.
    + assert (k ≠ k') as Hne by (intros ->; by rewrite lookup_singleton_eq in Hk).
      destruct (control_begin c m) as [m' [rest'|e]] eqn:Hb; cbn in *.
      { rewrite map_size_insert_None, map_size_singleton in Hsize by done. lia. }
      right. exists k', rest. split; [done|].
      destruct c as [target remote| |enabled]; simpl in Hb; [|by simplify_eq..].
      unfold manager_follow in Hb. destruct (_ || _); [by simplify_eq|].
      destruct (validate_follow_target _ _ _); by simplify_eq.
  - destruct Hok as [[-> Hm]|(k' & rest' & -> & Hrest)]; cbn in *; [by rewrite lookup_empty in Hk|].
    apply lookup_singleton_Some in Hk as [-> ->]. pose proof (go_on_ok rest m Hrest) as Hg.
    destruct (manager_go_on rest m) as [m' [rest'|]]; cbn in *.
    + right. exists k, rest'. by rewrite insert_singleton_eq.
    + left. by rewrite delete_singleton_eq.
  - destruct Hok as [[-> Hm]|(k & rest & -> & Hrest)]; [left|right; exists k, rest];
      (split; [done|]); [by apply worker_ok|by apply worker_rest_ok].
  - destruct Hok as [[-> Hm]|(k & rest & -> & Hrest)]; [left|right; exists k, rest];
      (split; [done|]); [by apply request_ok|by apply request_rest_ok].
Qed.

Definition follow_job (rest : Pending) : bool :=
  match rest with PendingJob _ (Some _) => true | _ => false end.

Lemma alone_read_only s : alone_ok s → is_follower (mg_status (sy_manager s)) = true →
  map_Forall (λ _ rest, follow_job rest = false) (sy_pending s) →
  read_only (db_config (mg_db (sy_manager s))) = true.
Proof.
  intros [[_ [Hro _ _ _]]|(k & rest & Hp & Hrest)] Hf Hno.
  - rewrite Hro. unfold effective_read_only. rewrite Hf. apply orb_true_r.
  - rewrite Hp, map_Forall_singleton in Hno.
    destruct rest as [effective [target|]|target]; simpl in *; naive_solver.
Qed.

(** ** The theorems *)

(** C22: when the commands FOLLOW, UNFOLLOW and READONLY come one at a time
    (not so otherwise, [readonly_off_races_follow]), a follower accepts no
    write from its clients. Each command runs in several steps (the settings
    and the status, then the executor's job that sets the engine's flag, then
    the worker), with client requests and attempts to follow between them in
    any order. A server whose status is follower answers every client request
    without changing its database, except between the first step of the FOLLOW
    that made it a follower and the job of that FOLLOW; and whenever no
    command is under way, the worker follows the target in the settings (which
    a restart would resume), and a leader runs no worker. *)
Theorem followers_are_read_only (c : FollowSettings) (server_id : string) (db : LatLng S)
    (s : System)
    (Hreach : rtc system_step_alone (mkSystem (start_replication_manager c server_id db) ∅) s) :
  let m := sy_manager s in
  (is_follower (mg_status m) = true →
     map_Forall (λ _ rest, follow_job rest = false) (sy_pending s) →
     ∀ clock rq, (execute clock rq (mg_db m)).1 = mg_db m) ∧
  (sy_pending s = ∅ →
     mg_worker m = configured_follow_target (mg_settings m) ∧
     is_follower (mg_status m) = bool_decide (is_Some (mg_worker m))).
Proof.
  assert (alone_ok s) as Hok.
  { assert (alone_ok (mkSystem (start_replication_manager c server_id db) ∅)) as H0
      by (left; split; [done|apply start_ok]).
    revert H0 Hreach. generalize (mkSystem (start_replication_manager c server_id db) ∅).
    intros s0 H0 Hreach. induction Hreach; eauto using step_alone_ok. }
  cbv zeta. split.
  - intros Hf Hno clock rq. apply read_only_execute. by apply alone_read_only.
  - intros Hp. destruct Hok as [[_ [_ Hw _ Hr]]|(k & rest & Hq & _)]; [done|].
    rewrite Hp in Hq. symmetry in Hq. by apply map_non_empty_singleton in Hq.
Qed.


End FollowSpec.

(** ** A concrete leader and its followers *)

Module ReplicationWitness.
Import ListTree NoGeoJson PlainText Memory RecoveryWitness.

#[local] Existing Instance RecoveryWitness.codec.
#[local] Existing Instance RecoveryWitness.base64.
#[local] Existing Instance RecoveryWitness.md5.

Definition target : FollowTarget := mkTarget "leader" 7421.
Definition info_of (db : LatLng MemoryBackend) : RemoteReplicationInfo :=
  mkInfo "a" "" true (db_next_sequence db).
Definition follower_status : ReplicationStatus := status_follower "b" target.

(** The leader has set the truck, with a deadline at 1000, twice. *)
Definition leader : LatLng MemoryBackend := (execute (clock_at 0) set_here db1).1.

Lemma leader_log :
  committed (db_storage leader) = [mkEntry 1 0 [Byte.x03]; mkEntry 2 0 [Byte.x03]].
Proof. vm_compute. reflexivity. Qed.

Lemma leader_durable : durable 0 leader.
Proof.
  eapply run_durable; [|exact db1_durable].
  apply (run_step 0 db1 (clock_at 0) leader); [done| | |constructor].
  - apply (step_request (clock_at 0) set_here).
    assert ((execute (clock_at 0) set_here db1).2 = Ok tt) as -> by (vm_compute; reflexivity).
    by intros e.
  - apply healthy. rewrite leader_log. by repeat constructor.
Qed.

Definition open (m : MemoryBackend) : Prop := closed m = false.

Lemma open_accepts : accepting open.
Proof.
  intros m _ Ho. unfold open in Ho. split.
  - intros es Hes. cbn [append_batch memory_backend committed] in *.
    exists (set_entries m (entries m ++ es)). split; [|done].
    apply strictly_increasing_app in Hes as (_ & Hes & Hlt).
    apply assert_strictly_increasing_spec in Hes.
    unfold mem_append_batch, ensure_open. rewrite Ho, Hes.
    destruct (last (entries m)) as [l|] eqn:Hl; [|done]. destruct es as [|e es]; [done|]. simpl.
    destruct (Z.leb_spec (sequence e) (sequence l)) as [Hle|]; [|done].
    specialize (Hlt l e Hl eq_refl). lia.
  - exists (set_entries m []). split; [|done]. cbn [snapshot memory_backend].
    unfold mem_snapshot, ensure_open. by rewrite Ho.
Qed.

Lemma leader_steady : steady 5000 empty_view (committed (db_storage leader)).
Proof.
  assert (∀ w s, stable_record 5000 w (mkEntry s 0 [Byte.x03])) as Hr.
  { intros w s cmd. vm_compute. by intros [= <-]. }
  rewrite leader_log. split; [apply Hr|]. intros w _. by split; [apply Hr|].
Qed.

Lemma leader_contiguous : contiguous (committed (db_storage leader)).
Proof. rewrite leader_log. intros [|[|k]] e; simpl; by intros [= <-]. Qed.

Definition attempt (now_ms : Z) (batch : nat) (db f : LatLng MemoryBackend) :=
  follow_once 4 (λ _, clock_at now_ms) batch (info_of db) db follower_status f.


Definition settings : FollowSettings := mkSettings false None None (Some "secret") 10.

(** FOLLOW, step by step. *)
Definition started : Manager MemoryBackend := start_replication_manager settings "b" db0.
Definition joined : System (S := MemoryBackend) :=
  let m := (manager_follow target (Ok (info_of leader)) started).1 in
  let m := (manager_go_on (PendingJob true (Some target)) m).1 in
  mkSystem (manager_go_on (PendingWorker target) m).1 ∅.

Lemma joined_reached : rtc system_step_alone (mkSystem started ∅) joined.
Proof.
  eapply rtc_l.
  { split; [apply (sys_begin 0 (CtlFollow target (Ok (info_of leader)))); [by split|done]|].
    vm_compute. lia. }
  eapply rtc_l.
  { split; [apply (sys_go_on 0 (PendingJob true (Some target))); reflexivity|]. vm_compute. lia. }
  eapply rtc_l; [|apply rtc_refl].
  split; [apply (sys_go_on 0 (PendingWorker target)); reflexivity|]. vm_compute. lia.
Qed.

Lemma followers_are_read_only_witness :
  is_follower (mg_status (sy_manager joined)) = true ∧
  (∀ clock rq, (execute clock rq (mg_db (sy_manager joined))).1 = mg_db (sy_manager joined)) ∧
  mg_worker (sy_manager joined) = configured_follow_target (mg_settings (sy_manager joined)).
Proof.
  destruct (followers_are_read_only settings "b" db0 joined joined_reached) as [H1 H2].
  split; [reflexivity|]. split.
  - apply H1; [reflexivity|apply map_Forall_empty].
  - apply H2. reflexivity.
Defined.

(** ** What goes wrong *)

(** READONLY off and FOLLOW at the same time: READONLY computes the flag of a
    leader, FOLLOW makes the server a follower and sets its flag, and then the
    job of READONLY clears it.  Both commands are over, and the follower takes
    the writes of its clients. *)
Definition raced : System (S := MemoryBackend) :=
  let m := (manager_read_only false started).1 in
  let m := (manager_follow target (Ok (info_of leader)) m).1 in
  let m := (manager_go_on (PendingJob true (Some target)) m).1 in
  let m := (manager_go_on (PendingWorker target) m).1 in
  mkSystem (manager_go_on (PendingJob false None) m).1 ∅.

Theorem readonly_off_races_follow :
  rtc system_step (mkSystem started ∅) raced ∧ sy_pending raced = ∅ ∧
  is_follower (mg_status (sy_manager raced)) = true ∧
  read_only (db_config (mg_db (sy_manager raced))) = false ∧
  (execute (clock_at 0) (RqCreate "fleet") (mg_db (sy_manager raced))).2 = Ok ().
Proof.
  split_and!; [|reflexivity..].
  eapply rtc_l; [apply (sys_begin 0 (CtlReadOnly false)); done|].
  eapply rtc_l; [apply (sys_begin 1 (CtlFollow target (Ok (info_of leader)))); [by split|done]|].
  eapply rtc_l; [apply (sys_go_on 1 (PendingJob true (Some target))); reflexivity|].
  eapply rtc_l; [apply (sys_go_on 1 (PendingWorker target)); reflexivity|].
  eapply rtc_l; [apply (sys_go_on 0 (PendingJob false None)); reflexivity|]. apply rtc_refl.
Qed.

(** The leader moves the truck's deadline from 1000 to 61000. *)
Definition extended : LatLng MemoryBackend := (op_expire (clock_at 0) "fleet" "truck" 61 db1).1.

Definition follower_has_truck (now_ms : Z) (batch : nat) : result bool CoreError :=
  (op_exists (clock_at now_ms) "fleet" "truck" (attempt now_ms batch extended db0).1.2).2.

(** A follower sweeps after every batch, also while it is catching up: when it
    starts at 2000, the object it reads in one batch is dropped before the
    next batch moves its deadline, and the follower reports itself caught up
    without an object that its leader still has; with both records in one
    batch it has it. *)
Theorem batching_loses_extended_object :
  (op_exists (clock_at 2000) "fleet" "truck" extended).2 = Ok true ∧
  follower_has_truck 2000 2 = Ok true ∧ follower_has_truck 2000 1 = Ok false ∧
  rs_caught_up (attempt 2000 1 extended db0).1.1 = true.
Proof. split_and!; vm_compute; reflexivity. Qed.

(** A write whose record cannot be encoded uses up its sequence. *)
Definition unsupported : Request := RqSet (set_truck (GtString "there") None).
Definition gapped : LatLng MemoryBackend :=
  (execute (clock_at 0) set_here (execute (clock_at 0) unsupported db1).1).1.
Definition stuck : LatLng MemoryBackend := (attempt 0 1 gapped db0).1.2.

(** A write that fails to be logged leaves a gap in the sequences of the log.
    A follower that meets the gap between two batches fails, and fails again
    on every further attempt without moving; inside a batch nobody looks. *)
Theorem sequence_gap_blocks_follower :
  sequence <$> committed (db_storage gapped) = [1; 3]%Z ∧
  (attempt 0 2 gapped db0).2 = Ok 3%Z ∧
  (attempt 0 1 gapped db0).2 = Err (FollowCore (CStorage (SequenceRegression 2 3))) ∧
  db_next_sequence (attempt 0 1 gapped stuck).1.2 = db_next_sequence stuck ∧
  (attempt 0 1 gapped stuck).2 = Err (FollowCore (CStorage (SequenceRegression 2 3))).
Proof. split_and!; vm_compute; reflexivity. Qed.

End ReplicationWitness.
