(* ===== verification/F64Ints.v ===== *)
(** * Integers as floats

    Up to 2^53 integers are exact in [f64]: converting, comparing and
    subtracting them gives no rounding. *)

From Stdlib Require Import ZArith Lia SpecFloat.
From stdpp Require Import base gmap strings list.
From S2P Require Import Prelude F64.

(** ** Shifts *)

(** [p * 2^k]. *)
Definition shift_up (k : nat) (p : positive) : positive := Nat.iter k xO p.

Definition bits (p : positive) : Z := Zpos (digits2_pos p).

Lemma bits_pos p : (0 < bits p)%Z.
Proof. unfold bits. lia. Qed.

Lemma bits_shift k p : bits (shift_up k p) = (bits p + Z.of_nat k)%Z.
Proof.
  unfold shift_up, bits. induction k as [|k IH]; simpl; [lia|]. rewrite Pos2Z.inj_succ, IH. lia.
Qed.

Lemma shift_shift j k p : shift_up j (shift_up k p) = shift_up (j + k) p.
Proof. unfold shift_up. by rewrite Nat.iter_add. Qed.

Lemma shift_value k p : Zpos (shift_up k p) = (Zpos p * 2 ^ Z.of_nat k)%Z.
Proof.
  unfold shift_up. induction k as [|k IH]; [simpl; lia|].
  change (Nat.iter (S k) xO p) with (xO (Nat.iter k xO p)).
  rewrite Pos2Z.inj_xO, IH, Nat2Z.inj_succ, Z.pow_succ_r by lia. lia.
Qed.

Lemma pos_iter_shift d p : Pos.iter xO p d = shift_up (Pos.to_nat d) p.
Proof. unfold shift_up. by rewrite Pos2Nat.inj_iter. Qed.

Lemma iter_pos_nat {A} (f : A → A) n : ∀ x, SpecFloat.iter_pos f n x = Nat.iter (Pos.to_nat n) f x.
Proof.
  induction n as [n IH|n IH|]; intros x; cbn [SpecFloat.iter_pos]; [| |done]; rewrite !IH.
  - rewrite Pos2Nat.inj_xI, <-Nat.iter_add.
    replace (S (2 * Pos.to_nat n)) with (Pos.to_nat n + Pos.to_nat n + 1) by lia.
    by rewrite (Nat.iter_add (Pos.to_nat n + Pos.to_nat n) 1).
  - rewrite Pos2Nat.inj_xO, <-Nat.iter_add. f_equal. lia.
Qed.

Lemma shr_exact k p :
  Nat.iter k shr_1 (Build_shr_record (Zpos (shift_up k p)) false false) =
  Build_shr_record (Zpos p) false false.
Proof. induction k as [|k IH]; [done|]. rewrite Nat.iter_succ_r. exact IH. Qed.

(** ** Exact rounding *)

Definition normal (p : positive) (e : Z) : Prop :=
  (bits p ≤ prec ∧ 3 - emax ≤ bits p + e ≤ emax)%Z.

(** The float [p * 2^e]. *)
Definition exact (p : positive) (e : Z) : f64 :=
  S754_finite false (shift_up (Z.to_nat (prec - bits p)) p) (bits p + e - prec).

Lemma fexp_normal x : (3 - emax ≤ x)%Z → fexp prec emax x = (x - prec)%Z.
Proof. unfold fexp, emin, prec, emax. lia. Qed.

Lemma shr_none m e n : (n ≤ 0)%Z → shr m e n = (m, e).
Proof. by destruct n. Qed.

Lemma round_aux_full m e : bits m = prec → (3 - emax ≤ prec + e ≤ emax)%Z →
  binary_round_aux prec emax false (Zpos m) e loc_Exact = S754_finite false m e.
Proof.
  intros Hb He. unfold binary_round_aux, shr_fexp. cbn [Zdigits2 shr_record_of_loc]. fold (bits m).
  rewrite Hb, fexp_normal, !shr_none by lia. cbn [shr_m loc_of_shr_record round_nearest_even Zdigits2].
  fold (bits m). rewrite Hb, fexp_normal, !shr_none by lia. cbn [shr_m].
  destruct (Z.leb_spec e (emax - prec)); [done|lia].
Qed.

Lemma round_exact q j e : normal q (Z.of_nat j + e) →
  binary_round prec emax false (shift_up j q) e = exact q (Z.of_nat j + e).
Proof.
  intros [Hq He]. unfold binary_round, exact. fold (bits (shift_up j q)). rewrite bits_shift.
  rewrite fexp_normal by lia. set (t := (bits q + Z.of_nat j + e - prec)%Z).
  replace (bits q + (Z.of_nat j + e) - prec)%Z with t by lia.
  unfold shl_align. destruct (t - e)%Z as [|n|n] eqn:Hn.
  - replace (Z.to_nat (prec - bits q)) with j by lia. replace e with t by lia.
    apply round_aux_full; [rewrite bits_shift|]; lia.
  - unfold binary_round_aux, shr_fexp at 1. cbn [Zdigits2 shr_record_of_loc].
    fold (bits (shift_up j q)). rewrite bits_shift, fexp_normal by lia. fold t. rewrite Hn.
    cbn [shr]. rewrite iter_pos_nat.
    replace (shift_up j q) with (shift_up (Pos.to_nat n) (shift_up (j - Pos.to_nat n) q))
      by (rewrite shift_shift; f_equal; lia).
    rewrite shr_exact. cbn [shr_m loc_of_shr_record round_nearest_even].
    replace (Z.to_nat (prec - bits q)) with (j - Pos.to_nat n) by lia.
    pose proof (round_aux_full (shift_up (j - Pos.to_nat n) q) t) as Hfull.
    unfold binary_round_aux, shr_fexp in Hfull |- *. cbn [Zdigits2 shr_record_of_loc] in Hfull |- *.
    fold (bits (shift_up (j - Pos.to_nat n) q)) in Hfull |- *.
    assert (bits (shift_up (j - Pos.to_nat n) q) = prec) as Hb by (rewrite bits_shift; lia).
    rewrite Hb in Hfull |- *. replace (e + Zpos n)%Z with t by lia.
    rewrite fexp_normal, !shr_none in Hfull |- * by lia.
    cbn [shr_m loc_of_shr_record round_nearest_even Zdigits2] in Hfull.
    destruct (Z.leb_spec t (emax - prec)); [done|lia].
  - rewrite pos_iter_shift, shift_shift.
    replace (Z.to_nat (prec - bits q)) with (Pos.to_nat n + j) by lia.
    apply round_aux_full; [rewrite bits_shift|]; lia.
Qed.

(** ** Integers below 2^53 *)

Lemma bits_bounds p : (2 ^ (bits p - 1) ≤ Zpos p < 2 ^ bits p)%Z.
Proof.
  unfold bits. induction p as [p IH|p IH|]; cbn [digits2_pos]; [| |done];
    rewrite Pos2Z.inj_succ;
    replace (Z.succ (Zpos (digits2_pos p)) - 1)%Z with (Z.succ (Zpos (digits2_pos p) - 1)) by lia;
    rewrite !Z.pow_succ_r by lia; lia.
Qed.

Lemma bits_le p k : (0 ≤ k)%Z → (Zpos p < 2 ^ k)%Z → (bits p ≤ k)%Z.
Proof.
  intros Hk Hp. destruct (Z.le_gt_cases (bits p) k) as [|Hgt]; [done|].
  pose proof (bits_bounds p) as [Hlo _].
  assert (2 ^ k ≤ 2 ^ (bits p - 1))%Z by (apply Z.pow_le_mono_r; lia). lia.
Qed.

Lemma bits_mono p q : (bits p < bits q)%Z → (Zpos p < Zpos q)%Z.
Proof.
  intros H. pose proof (bits_bounds p) as [_ Hp]. pose proof (bits_bounds q) as [Hq _].
  assert (2 ^ bits p ≤ 2 ^ (bits q - 1))%Z by (apply Z.pow_le_mono_r; [lia|]; pose proof (bits_pos p); lia).
  lia.
Qed.

Lemma of_Z_exact p : (Zpos p < 2 ^ prec)%Z → f64_of_Z (Zpos p) = exact p 0.
Proof.
  intros Hp. unfold f64_of_Z, binary_normalize. apply (round_exact p 0 0). pose proof (bits_pos p).
  split; [by apply bits_le|]. pose proof (bits_le p prec ltac:(done) Hp). unfold prec, emax in *. lia.
Qed.

Lemma of_Z_finite z : (0 ≤ z < 2 ^ prec)%Z → is_nan (f64_of_Z z) = false.
Proof. intros _. apply binary_normalize_not_nan. Qed.

(** Comparing is exact. *)
Lemma of_Z_leb a b : (0 ≤ a < 2 ^ prec)%Z → (0 ≤ b < 2 ^ prec)%Z →
  SFleb (f64_of_Z a) (f64_of_Z b) = (a <=? b)%Z.
Proof.
  intros Ha Hb. apply Bool.eq_true_iff_eq. rewrite SFleb_spec, Z.leb_le.
  destruct a as [|p|]; [| |lia]; (destruct b as [|q|]; [| |lia]);
    change (f64_of_Z 0) with (S754_zero false); rewrite ?of_Z_exact by lia; unfold fle; simpl.
  1-3: split; [lia|intros ?; split_and!; done || lia].
  split.
  - intros (_ & _ & [?|[_ [Hlt|[Heq Hm]]]]); [lia| |].
    + assert (bits p < bits q)%Z as Hbits by lia. apply bits_mono in Hbits. lia.
    + assert (bits p = bits q) as Hbits by lia. rewrite Hbits in Hm.
      rewrite !shift_value in Hm.
      apply Z.mul_le_mono_pos_r in Hm; [done|]. apply Z.pow_pos_nonneg; lia.
  - intros Hle. split_and!; [done..|]. right. split; [done|].
    destruct (Z.lt_total (bits p) (bits q)) as [?|[Hbits|Hbits%bits_mono]]; [lia| |lia].
    right. rewrite Hbits. split; [done|]. rewrite !shift_value.
    apply Z.mul_le_mono_nonneg_r; [|done]. apply Z.pow_nonneg. lia.
Qed.

(** Taking one away is exact. *)
Lemma of_Z_pred p : (Zpos p < 2 ^ prec)%Z →
  fsub (f64_of_Z (Zpos p)) (f64_of_Z 1) = f64_of_Z (Zpos p - 1).
Proof.
  intros Hp. rewrite !of_Z_exact by (done || lia). unfold exact, fsub, SFsub.
  pose proof (bits_pos p). pose proof (bits_le p prec ltac:(done) Hp).
  change (bits 1 + 0 - prec)%Z with (-52)%Z.
  replace (Z.min (bits p + 0 - prec) (-52)) with (-52)%Z by (unfold prec in *; lia).
  assert (Zpos (fst (shl_align (shift_up (Z.to_nat (prec - bits p)) p) (bits p + 0 - prec) (-52)))
          = (Zpos p * 2 ^ 52)%Z) as ->.
  { unfold shl_align. unfold prec in *. destruct (-52 - (bits p + 0 - 53))%Z as [|n|n] eqn:Hn; [|lia|];
      cbn [fst]; [|rewrite pos_iter_shift, shift_shift]; rewrite shift_value; f_equal; f_equal; lia. }
  change (Zpos (fst (shl_align (shift_up (Z.to_nat (prec - bits 1)) 1) (-52) (-52))))
    with (1 * 2 ^ 52)%Z.
  cbn [cond_Zopp]. rewrite <-Z.mul_sub_distr_r.
  destruct (Zpos p - 1)%Z as [|q|] eqn:Hq; [done| |lia].
  rewrite of_Z_exact by lia.
  assert (Zpos q * 2 ^ 52 = Zpos (shift_up 52 q))%Z as -> by (by rewrite shift_value).
  cbn [binary_normalize]. rewrite round_exact; [done|].
  pose proof (bits_pos q). pose proof (bits_le q prec ltac:(done) ltac:(lia)).
  split; unfold prec, emax in *; simpl; lia.
Qed.
