(* ===== verification/Auth.v ===== *)
(** * Authentication ([crates/latlng-auth/src/lib.rs],
    [crates/latlng-http/src/authz.rs])

    Actions and permissions, configuration, the authenticator with its cache
    of signing keys, minting of tokens, and the checks of the HTTP layer.
    Signatures, encodings and digests are the class [JwtCrate].  Instants are
    nanoseconds of a monotonic clock; token times are Unix seconds. *)

From Stdlib Require Import ZArith Lia Ascii.
From stdpp Require Import base gmap strings list countable.
From S2P Require Import Prelude Storage F64 Json Strings Index.

(** ** Actions *)

Inductive AuthAction : Type :=
  | CollectionsList | CollectionsCreate | CollectionsDelete | CollectionsInspect
  | ObjectsRead | ObjectsWrite | ObjectsDelete | QueriesRead | SubscriptionsRead
  | HooksManage | ChannelsManage | MetricsRead | AdminAll.

Definition ALL : list AuthAction :=
  [CollectionsList; CollectionsCreate; CollectionsDelete; CollectionsInspect; ObjectsRead;
   ObjectsWrite; ObjectsDelete; QueriesRead; SubscriptionsRead; HooksManage; ChannelsManage;
   MetricsRead; AdminAll].

Definition action_as_str (a : AuthAction) : string :=
  match a with
  | CollectionsList => "collections:list"
  | CollectionsCreate => "collections:create"
  | CollectionsDelete => "collections:delete"
  | CollectionsInspect => "collections:inspect"
  | ObjectsRead => "objects:read"
  | ObjectsWrite => "objects:write"
  | ObjectsDelete => "objects:delete"
  | QueriesRead => "queries:read"
  | SubscriptionsRead => "subscriptions:read"
  | HooksManage => "hooks:manage"
  | ChannelsManage => "channels:manage"
  | MetricsRead => "metrics:read"
  | AdminAll => "admin:*"
  end.

Definition action_parse (value : string) : option AuthAction :=
  if String.eqb value "collections:list" then Some CollectionsList
  else if String.eqb value "collections:create" then Some CollectionsCreate
  else if String.eqb value "collections:delete" then Some CollectionsDelete
  else if String.eqb value "collections:inspect" then Some CollectionsInspect
  else if String.eqb value "objects:read" then Some ObjectsRead
  else if String.eqb value "objects:write" then Some ObjectsWrite
  else if String.eqb value "objects:delete" then Some ObjectsDelete
  else if String.eqb value "queries:read" then Some QueriesRead
  else if String.eqb value "subscriptions:read" then Some SubscriptionsRead
  else if String.eqb value "hooks:manage" then Some HooksManage
  else if String.eqb value "channels:manage" then Some ChannelsManage
  else if String.eqb value "metrics:read" then Some MetricsRead
  else if String.eqb value "admin:*" then Some AdminAll
  else None.

#[export] Instance action_eq_dec : EqDecision AuthAction.
Proof. solve_decision. Defined.

Lemma action_parse_as_str a : action_parse (action_as_str a) = Some a.
Proof. by destruct a. Qed.

#[export] Program Instance action_countable : Countable AuthAction :=
  inj_countable action_as_str action_parse action_parse_as_str.

Definition COLLECTION_VISIBILITY_ACTIONS : list AuthAction :=
  [CollectionsInspect; ObjectsRead; QueriesRead; SubscriptionsRead; ObjectsWrite; ObjectsDelete;
   HooksManage; ChannelsManage].

(** ** Tokens *)

(** The algorithms the code names of [jsonwebtoken::Algorithm]. *)
Inductive Algorithm : Type := HS256 | HS384 | HS512 | RS256 | ES256.

Inductive HmacJwtAlgorithm : Type := Hs256 | Hs384 | Hs512.

Inductive TokenError : Type :=
  | InvalidAlgorithm (value : string)
  | InvalidAction (value : string)
  | InvalidOptions (message : string)
  | InvalidJwt (message : string)
  | Sign (message : string).

Definition to_ascii_upper (c : ascii) : ascii :=
  let n := N_of_ascii c in
  if (97 <=? n)%N && (n <=? 122)%N then ascii_of_N (n - 32) else c.

Definition to_ascii_uppercase (s : string) : string := of_bytes (to_ascii_upper <$> bytes_of s).

Definition hmac_algorithm_parse (value : string) : result HmacJwtAlgorithm TokenError :=
  let other := to_ascii_uppercase (trim value) in
  if String.eqb other "HS256" then Ok Hs256
  else if String.eqb other "HS384" then Ok Hs384
  else if String.eqb other "HS512" then Ok Hs512
  else Err (InvalidAlgorithm other).

Definition hmac_algorithm_as_str (a : HmacJwtAlgorithm) : string :=
  match a with Hs256 => "HS256" | Hs384 => "HS384" | Hs512 => "HS512" end.

Definition hmac_algorithm (a : HmacJwtAlgorithm) : Algorithm :=
  match a with Hs256 => HS256 | Hs384 => HS384 | Hs512 => HS512 end.

Record HmacTokenPermissionRule := mkTokenRule {
  tr_collections : list string;
  tr_actions : list string
}.

Definition from_actions (collections : list string) (actions : list AuthAction)
    : HmacTokenPermissionRule :=
  mkTokenRule collections (action_as_str <$> actions).

Fixpoint parse_action_names (actions : list string) : result (list AuthAction) TokenError :=
  match actions with
  | [] => Ok []
  | action :: rest =>
      match action_parse (trim action) with
      | None => Err (InvalidAction action)
      | Some a => let? parsed := parse_action_names rest in Ok (a :: parsed)
      end
  end.

Definition from_action_names (collections actions : list string)
    : result HmacTokenPermissionRule TokenError :=
  let? parsed := parse_action_names actions in Ok (from_actions collections parsed).

Fixpoint check_actions (actions : list string) : result unit TokenError :=
  match actions with
  | [] => Ok tt
  | action :: rest =>
      match action_parse action with
      | None => Err (InvalidAction action)
      | Some _ => check_actions rest
      end
  end.

Definition rule_validate (rule : HmacTokenPermissionRule) : result unit TokenError :=
  if existsb (λ collection, String.eqb (trim collection) "") (tr_collections rule)
  then Err (InvalidOptions "permission collections must not be empty")
  else if bool_decide (tr_actions rule = [])
  then Err (InvalidOptions "permission actions must not be empty")
  else check_actions (tr_actions rule).

Record HmacTokenOptions := mkTokenOptions {
  to_subject : option string;
  to_issuer : option string;
  to_audience : option string;
  to_issued_at : Z;
  to_not_before : option Z;
  to_expires_at : Z;
  to_permissions : list HmacTokenPermissionRule;
  to_admin : bool;
  to_algorithm : HmacJwtAlgorithm
}.

Record HmacTokenClaims := mkTokenClaims {
  tc_sub : option string;
  tc_iss : option string;
  tc_aud : option string;
  tc_iat : Z;
  tc_nbf : option Z;
  tc_exp : Z;
  tc_latlng_permissions : list HmacTokenPermissionRule;
  tc_latlng_admin : bool
}.

Fixpoint validate_rules (rules : list HmacTokenPermissionRule) : result unit TokenError :=
  match rules with
  | [] => Ok tt
  | rule :: rest => let? _ := rule_validate rule in validate_rules rest
  end.

Definition token_claims (o : HmacTokenOptions) : result HmacTokenClaims TokenError :=
  if negb (to_admin o) && bool_decide (to_permissions o = [])
  then Err (InvalidOptions "token must be admin or include at least one permission rule")
  else if (to_expires_at o <=? to_issued_at o)%Z
  then Err (InvalidOptions "expires_at must be later than issued_at")
  else if match to_not_before o with
          | Some not_before => (to_expires_at o <=? not_before)%Z
          | None => false
          end
  then Err (InvalidOptions "not_before must be earlier than expires_at")
  else
    let? _ := validate_rules (to_permissions o) in
    Ok (mkTokenClaims (to_subject o) (to_issuer o) (to_audience o) (to_issued_at o)
          (to_not_before o) (to_expires_at o) (to_permissions o) (to_admin o)).

(** ** Claims as the server reads them *)

Record PermissionClaim := mkPermissionClaim {
  pc_collections : list string;
  pc_actions : list string
}.

Record ClaimsPayload := mkPayload {
  cp_sub : option string;
  cp_latlng_permissions : list PermissionClaim;
  cp_latlng_admin : bool
}.

Record PermissionRule := mkRule {
  patterns : list string;
  actions : gset AuthAction
}.

Record JwtClaims := mkClaims {
  jc_sub : option string;
  jc_latlng_admin : bool;
  jc_permissions : list PermissionRule
}.

(** What [validation_for] sets; the rest is the crate's default. *)
Record Validation := mkValidation {
  va_algorithm : Algorithm;
  va_leeway : Z;
  va_issuer : option string;
  va_audience : option string
}.

(** The crates [jsonwebtoken], [serde_json], [sha2] and [base64]: [None] is an
    error, [decode] is given the time. *)
Class JwtCrate := {
  DecodingKey : Type;
  Jwk : Type;
  JwkSet : Type;
  key_from_secret : string → DecodingKey;
  key_from_rsa_pem : string → option DecodingKey;
  key_from_ec_pem : string → option DecodingKey;
  key_from_jwk : Jwk → option DecodingKey;
  find_jwk : JwkSet → string → option Jwk;
  header_kid : string → option (option string);
  jwt_decode : Z → string → DecodingKey → Validation → option Value;
  jwt_encode : Algorithm → HmacTokenClaims → string → result string string;
  payload_of_value : Value → option ClaimsPayload;
  sha256 : list byte → list byte;
  base64_url_encode : list byte → string;
  base64_url_decode : string → option (list byte)
}.

Inductive AuthError : Type :=
  | Unauthorized
  | UnsupportedAlgorithm (value : string)
  | InvalidConfiguration (message : string)
  | ExpectFailed (message : string). (** a panic of [expect] *)

(** ** Principals *)

Record AuthPrincipal := mkPrincipal {
  rate_limit_key : string;
  ap_admin : bool;
  ap_permissions : list PermissionRule
}.

Definition open_access : AuthPrincipal := mkPrincipal "open:access" true [].
Definition service_admin : AuthPrincipal := mkPrincipal "bearer:service" true [].
Definition anonymous : AuthPrincipal := mkPrincipal "anonymous" false [].
Definition is_admin (p : AuthPrincipal) : bool := ap_admin p.

Section Permissions.
Context `{PT : Patterns}.

Definition matches_collection (r : PermissionRule) (collection : string) : bool :=
  existsb (λ pattern, String.eqb pattern "*" || glob_match pattern collection) (patterns r).

Definition is_global (r : PermissionRule) : bool :=
  existsb (λ pattern, String.eqb pattern "*") (patterns r).

Definition has_action (r : PermissionRule) (action : AuthAction) : bool :=
  bool_decide (action ∈ actions r).

Definition rule_allows (r : PermissionRule) (action : AuthAction) (collection : string) : bool :=
  has_action r action && matches_collection r collection.

Definition rule_allows_global (r : PermissionRule) (action : AuthAction) : bool :=
  has_action r action && is_global r.

Definition allows (p : AuthPrincipal) (action : AuthAction) (collection : string) : bool :=
  ap_admin p || existsb (λ rule, rule_allows rule action collection) (ap_permissions p).

Definition allows_global (p : AuthPrincipal) (action : AuthAction) : bool :=
  ap_admin p || existsb (λ rule, rule_allows_global rule action) (ap_permissions p).

Definition can_view_collection (p : AuthPrincipal) (collection : string) : bool :=
  if ap_admin p then true
  else allows p CollectionsList collection &&
       existsb (λ action, allows p action collection) COLLECTION_VISIBILITY_ACTIONS.

Definition any_collection_permission (p : AuthPrincipal) (action : AuthAction) : bool :=
  ap_admin p || existsb (λ rule, has_action rule action) (ap_permissions p).

End Permissions.

Fixpoint parse_claim_actions (names : list string) (acc : gset AuthAction)
    : result (gset AuthAction) AuthError :=
  match names with
  | [] => Ok acc
  | name :: rest =>
      match action_parse name with
      | None => Err Unauthorized
      | Some a => parse_claim_actions rest ({[a]} ∪ acc)
      end
  end.

Fixpoint claim_rules (claims : list PermissionClaim) : result (list PermissionRule) AuthError :=
  match claims with
  | [] => Ok []
  | c :: rest =>
      if bool_decide (pc_collections c = []) || bool_decide (pc_actions c = [])
      then Err Unauthorized
      else
        let? parsed := parse_claim_actions (pc_actions c) ∅ in
        let? rules := claim_rules rest in
        Ok (mkRule (pc_collections c) parsed :: rules)
  end.

Definition from_payload (payload : ClaimsPayload) : result JwtClaims AuthError :=
  let? permissions := claim_rules (cp_latlng_permissions payload) in
  Ok (mkClaims (cp_sub payload) (cp_latlng_admin payload) permissions).

(** ** Configuration *)

Record AuthConfig := mkAuthConfig {
  ac_bearer_token : option string;
  ac_disable_bearer_token : bool;
  ac_jwt_secret : option string;
  ac_jwt_public_key_pem : option string;
  ac_jwt_issuer : option string;
  ac_jwt_audience : option string;
  ac_jwt_algorithm : option string;
  ac_jwks_url : option string;
  ac_jwks_provider_id : option string;
  ac_jwks_refresh_interval_seconds : Z;
  ac_jwks_cache_ttl_seconds : Z;
  ac_jwks_http_timeout_ms : Z;
  ac_jwt_leeway_seconds : Z
}.

Definition default_auth_config : AuthConfig :=
  mkAuthConfig None false None None None None None None None 300 3600 3000 0.

Inductive JwtSourceKind : Type := HmacSecret | PublicKeyPem | Jwks.

Definition jwt_source_kind (c : AuthConfig) : option JwtSourceKind :=
  if bool_decide (is_Some (ac_jwt_secret c)) then Some HmacSecret
  else if bool_decide (is_Some (ac_jwt_public_key_pem c)) then Some PublicKeyPem
  else if bool_decide (is_Some (ac_jwks_url c)) then Some Jwks
  else None.

Definition bearer_enabled (c : AuthConfig) : bool :=
  negb (ac_disable_bearer_token c) && bool_decide (is_Some (ac_bearer_token c)).

Definition auth_enabled (c : AuthConfig) : bool :=
  bearer_enabled c || bool_decide (is_Some (jwt_source_kind c)).

Definition jwt_algorithm_for (c : AuthConfig) (kind : JwtSourceKind) : result Algorithm AuthError :=
  match ac_jwt_algorithm c with
  | None => Ok (match kind with HmacSecret => HS256 | PublicKeyPem | Jwks => RS256 end)
  | Some value =>
      let other := to_ascii_uppercase value in
      if String.eqb other "HS256" then Ok HS256
      else if String.eqb other "HS384" then Ok HS384
      else if String.eqb other "HS512" then Ok HS512
      else if String.eqb other "RS256" then Ok RS256
      else if String.eqb other "ES256" then Ok ES256
      else Err (UnsupportedAlgorithm other)
  end.

Definition jwt_source_name (kind : JwtSourceKind) : string :=
  match kind with
  | HmacSecret => "jwt_secret"
  | PublicKeyPem => "jwt_public_key_pem"
  | Jwks => "jwks_url"
  end.

(** [{:?}] of an algorithm. *)
Definition algorithm_debug (a : Algorithm) : string :=
  match a with
  | HS256 => "HS256" | HS384 => "HS384" | HS512 => "HS512" | RS256 => "RS256" | ES256 => "ES256"
  end.

Definition source_count (c : AuthConfig) : nat :=
  (if ac_jwt_secret c then 1 else 0) + (if ac_jwt_public_key_pem c then 1 else 0) +
  (if ac_jwks_url c then 1 else 0).

Definition auth_validate (c : AuthConfig) : result unit AuthError :=
  let jwks := bool_decide (is_Some (ac_jwks_url c)) in
  if (1 <? source_count c)%nat
  then Err (InvalidConfiguration "exactly one JWT verification source may be configured")
  else if jwks && (ac_jwks_http_timeout_ms c =? 0)%Z
  then Err (InvalidConfiguration "jwks_http_timeout_ms must be greater than zero")
  else if jwks && (ac_jwks_refresh_interval_seconds c =? 0)%Z
  then Err (InvalidConfiguration "jwks_refresh_interval_seconds must be greater than zero")
  else if jwks && (ac_jwks_cache_ttl_seconds c =? 0)%Z
  then Err (InvalidConfiguration "jwks_cache_ttl_seconds must be greater than zero")
  else
    match jwt_source_kind c with
    | None => Ok tt
    | Some kind =>
        let? algorithm := jwt_algorithm_for c kind in
        match kind, algorithm with
        | HmacSecret, (HS256 | HS384 | HS512) => Ok tt
        | (PublicKeyPem | Jwks), (RS256 | ES256) => Ok tt
        | HmacSecret, _ =>
            Err (InvalidConfiguration
                   (jwt_source_name kind +:+ " requires an HS* algorithm, got " +:+
                    algorithm_debug algorithm))
        | _, _ =>
            Err (InvalidConfiguration
                   (jwt_source_name kind +:+ " requires RS256 or ES256, got " +:+
                    algorithm_debug algorithm))
        end
    end.

Definition validation_for (c : AuthConfig) (algorithm : Algorithm) : Validation :=
  mkValidation algorithm (ac_jwt_leeway_seconds c) (ac_jwt_issuer c) (ac_jwt_audience c).

Definition hex_digit_lower (n : N) : ascii :=
  if (n <? 10)%N then ascii_of_N (48 + n) else ascii_of_N (87 + n).

Fixpoint bytes_to_hex (bytes : list byte) : string :=
  match bytes with
  | [] => ""
  | b :: rest =>
      String (hex_digit_lower (Byte.to_N b / 16))
        (String (hex_digit_lower (Byte.to_N b mod 16)) (bytes_to_hex rest))
  end.

Definition extract_bearer_token (header_value : string) : option string :=
  of_bytes <$> strip_prefix (bytes_of "Bearer ") (bytes_of header_value).

(** ** The authenticator *)

Section Authenticate.
Context `{JW : JwtCrate}.

Record CachedJwks := mkCached {
  cached_set : JwkSet;
  fetched_at : Z
}.

(** [jwks_client] is there or not; the cache is behind a lock that is taken
    for one access at a time. *)
Record Authenticator := mkAuthenticator {
  au_config : AuthConfig;
  au_jwks_client : bool;
  au_jwks_cache : option CachedJwks
}.

(** What one call sees of the world: the time for token claims, the readings
    of the monotonic clock before the request for keys, when its answer is
    stored, and after, and that answer ([None]: the request, its status or its
    body was an error). *)
Record AuthEnv := mkEnv {
  env_now : Z;
  env_start : Z;
  env_fetched : Z;
  env_checked : Z;
  env_fetch : option JwkSet
}.

(** [authenticator]; constructing the HTTP client is assumed to succeed. *)
Definition authenticator (c : AuthConfig) : result Authenticator AuthError :=
  let? _ := auth_validate c in
  Ok (mkAuthenticator c (bool_decide (is_Some (ac_jwks_url c))) None).

Definition from_secs (seconds : Z) : Z := seconds * 1000000000.

Definition current_jwks (a : Authenticator) (env : AuthEnv)
    : Authenticator * result JwkSet AuthError :=
  if negb (bool_decide (is_Some (ac_jwks_url (au_config a))))
  then (a, Err (InvalidConfiguration "jwks_url is not configured"))
  else if negb (au_jwks_client a)
  then (a, Err (InvalidConfiguration "JWKS client is not configured"))
  else
    let refresh_after := from_secs (Z.max (ac_jwks_refresh_interval_seconds (au_config a)) 1) in
    let cache_ttl := from_secs (Z.max (ac_jwks_cache_ttl_seconds (au_config a)) 1) in
    let fetch :=
      match env_fetch env with
      | None => (a, Err Unauthorized)
      | Some set =>
          let a := mkAuthenticator (au_config a) (au_jwks_client a)
                     (Some (mkCached set (env_fetched env))) in
          if (cache_ttl <? env_checked env - env_fetched env)%Z then (a, Err Unauthorized)
          else (a, Ok set)
      end in
    match au_jwks_cache a with
    | Some cache =>
        if (env_start env - fetched_at cache <? refresh_after)%Z then (a, Ok (cached_set cache))
        else fetch
    | None => fetch
    end.

Definition jwks_decoding_key (a : Authenticator) (env : AuthEnv) (token : string)
    (algorithm : Algorithm) : Authenticator * result DecodingKey AuthError :=
  match header_kid token with
  | Some (Some kid) =>
      match current_jwks a env with
      | (a, Err e) => (a, Err e)
      | (a, Ok set) =>
          (a, match find_jwk set kid with
              | None => Err Unauthorized
              | Some jwk =>
                  match algorithm with
                  | RS256 | ES256 => ok_or (key_from_jwk jwk) Unauthorized
                  | _ => Err Unauthorized
                  end
              end)
      end
  | _ => (a, Err Unauthorized)
  end.

Definition decoding_key_from_pem (pem : string) (algorithm : Algorithm)
    : result DecodingKey AuthError :=
  match algorithm with
  | RS256 => ok_or (key_from_rsa_pem pem) Unauthorized
  | ES256 => ok_or (key_from_ec_pem pem) Unauthorized
  | _ => Err Unauthorized
  end.

Definition decode_claims (a : Authenticator) (env : AuthEnv) (token : string) (key : DecodingKey)
    (algorithm : Algorithm) : result JwtClaims AuthError :=
  match jwt_decode (env_now env) token key (validation_for (au_config a) algorithm) with
  | None => Err Unauthorized
  | Some claims =>
      match payload_of_value claims with
      | None => Err Unauthorized
      | Some payload => from_payload payload
      end
  end.

Definition token_fingerprint (token : string) : string :=
  bytes_to_hex (sha256 (String.list_byte_of_string token)).

Definition from_claims (claims : JwtClaims) (token : string) : AuthPrincipal :=
  let key :=
    match trim <$> jc_sub claims with
    | Some sub =>
        if String.eqb sub "" then "jwt:token:" +:+ token_fingerprint token else "jwt:sub:" +:+ sub
    | None => "jwt:token:" +:+ token_fingerprint token
    end in
  mkPrincipal key (jc_latlng_admin claims) (jc_permissions claims).

Definition expect {A} (o : option A) (message : string) : result A AuthError :=
  ok_or o (ExpectFailed message).

(** The key that a token is checked with. *)
Definition key_for (a : Authenticator) (env : AuthEnv) (token : string) (kind : JwtSourceKind)
    (algorithm : Algorithm) : Authenticator * result DecodingKey AuthError :=
  match kind with
  | HmacSecret =>
      (a, let? secret := expect (ac_jwt_secret (au_config a)) "jwt_secret presence validated" in
          Ok (key_from_secret secret))
  | PublicKeyPem =>
      (a, let? pem := expect (ac_jwt_public_key_pem (au_config a))
                        "jwt_public_key_pem presence validated" in
          decoding_key_from_pem pem algorithm)
  | Jwks => jwks_decoding_key a env token algorithm
  end.

Definition authenticate (a : Authenticator) (env : AuthEnv) (token : option string)
    : Authenticator * result AuthPrincipal AuthError :=
  if negb (auth_enabled (au_config a)) then (a, Ok open_access)
  else
    match token with
    | None => (a, Err Unauthorized)
    | Some token =>
        if bearer_enabled (au_config a) && bool_decide (ac_bearer_token (au_config a) = Some token)
        then (a, Ok service_admin)
        else
          match jwt_source_kind (au_config a) with
          | None => (a, Err Unauthorized)
          | Some kind =>
              match jwt_algorithm_for (au_config a) kind with
              | Err e => (a, Err e)
              | Ok algorithm =>
                  match key_for a env token kind algorithm with
                  | (a, Err e) => (a, Err e)
                  | (a, Ok key) =>
                      (a, let? claims := decode_claims a env token key algorithm in
                          Ok (from_claims claims token))
                  end
              end
          end
    end.

(** ** Minting and inspecting tokens *)

Definition create_hmac_jwt (secret : string) (o : HmacTokenOptions) : result string TokenError :=
  if String.eqb secret "" then Err (InvalidOptions "jwt_secret must not be empty")
  else
    let? claims := token_claims o in
    map_err Sign (jwt_encode (hmac_algorithm (to_algorithm o)) claims secret).

Inductive HmacSecretFormat : Type := Base64Url | Hex.

(** [random n] are the bytes the system's generator fills in. *)
Definition generate_hmac_secret (random : nat → list byte) (byte_len : nat)
    (format : HmacSecretFormat) : result string TokenError :=
  if (byte_len =? 0)%nat
  then Err (InvalidOptions "secret byte length must be greater than zero")
  else
    let bytes := random byte_len in
    Ok (match format with
        | Base64Url => base64_url_encode bytes
        | Hex => bytes_to_hex bytes
        end).

Context `{JT : JsonText}.

Record DecodedJwt := mkDecoded { dj_header : Value; dj_claims : Value }.

(** [serde_json::from_slice] refuses what is not UTF-8 text. *)
Definition decode_jwt_segment (segment name : string) : result Value TokenError :=
  match base64_url_decode segment with
  | None => Err (InvalidJwt ("invalid " +:+ name +:+ " encoding"))
  | Some bytes =>
      ok_or (json_from_str (String.string_of_list_byte bytes))
        (InvalidJwt ("invalid " +:+ name +:+ " JSON"))
  end.

Definition segment_at (parts : list string) (i : nat) (message : string)
    : result string TokenError :=
  match parts !! i with
  | Some part => if String.eqb part "" then Err (InvalidJwt message) else Ok part
  | None => Err (InvalidJwt message)
  end.

Definition decode_jwt_unverified (token : string) : result DecodedJwt TokenError :=
  let parts := split_char "."%char token in
  let? header := segment_at parts 0 "missing header segment" in
  let? claims := segment_at parts 1 "missing claims segment" in
  let? _ := segment_at parts 2 "missing signature segment" in
  match parts !! 3%nat with
  | Some _ => Err (InvalidJwt "expected exactly three JWT segments")
  | None =>
      let? h := decode_jwt_segment header "header" in
      let? c := decode_jwt_segment claims "claims" in
      Ok (mkDecoded h c)
  end.

End Authenticate.

(** ** The HTTP layer's checks ([authz.rs]) *)

Inductive HttpError : Type :=
  | HUnauthorized
  | HForbidden
  | HBadRequest (message : string)
  | HNotFound (message : string)
  | HUnsupportedMediaType (message : string)
  | HUnavailable (message : string)
  | HInternal (message : string).

(** [HttpError::into_response]: the status code. *)
Definition http_status (e : HttpError) : Z :=
  match e with
  | HUnauthorized => 401
  | HForbidden => 403
  | HBadRequest _ => 400
  | HNotFound _ => 404
  | HUnsupportedMediaType _ => 415
  | HUnavailable _ => 503
  | HInternal _ => 500
  end.

(** [AuthError::to_string]. *)
Definition auth_error_text (e : AuthError) : string :=
  match e with
  | Unauthorized => "unauthorized"
  | UnsupportedAlgorithm value => "unsupported jwt algorithm: " +:+ value
  | InvalidConfiguration message => "invalid auth configuration: " +:+ message
  | ExpectFailed message => message
  end.

Definition http_auth_error (e : AuthError) : HttpError :=
  match e with
  | Unauthorized => HUnauthorized
  | UnsupportedAlgorithm _ | InvalidConfiguration _ | ExpectFailed _ =>
      HInternal (auth_error_text e)
  end.

Section Authz.
Context `{JW : JwtCrate} `{PT : Patterns}.

(** [header] is the Authorization header when it is there and visible text. *)
Definition authenticate_headers (a : Authenticator) (env : AuthEnv) (header : option string)
    (cached_principal : option AuthPrincipal) : Authenticator * result AuthPrincipal HttpError :=
  match cached_principal with
  | Some principal => (a, Ok principal)
  | None =>
      let '(a, r) := authenticate a env (header ≫= extract_bearer_token) in
      (a, map_err http_auth_error r)
  end.

Definition ensure_collection_action (p : AuthPrincipal) (action : AuthAction) (collection : string)
    : result unit HttpError :=
  if allows p action collection then Ok tt else Err HForbidden.

Definition ensure_global_action (p : AuthPrincipal) (action : AuthAction) : result unit HttpError :=
  if allows_global p action then Ok tt else Err HForbidden.

Definition ensure_admin (p : AuthPrincipal) : result unit HttpError :=
  ensure_global_action p AdminAll.

End Authz.
