(* ===== verification/AuthSpec.v ===== *)
(** * Who gets in, and with which permissions

    What a principal stands for, that a validated configuration never mixes
    up keys and algorithms, how long a withdrawn signing key is still
    accepted, and what a minted token grants. *)

From Stdlib Require Import ZArith Lia Ascii.
From stdpp Require Import base gmap strings list.
From S2P Require Import Prelude Storage F64 Json Strings Index IndexSpec Auth.

(** ** Names of actions *)

Lemma action_parse_Some s a : action_parse s = Some a ↔ s = action_as_str a.
Proof.
  split; [|intros ->; apply action_parse_as_str].
  unfold action_parse. repeat case_match; intros; simplify_eq/=; by apply String.eqb_eq.
Qed.

Lemma parse_claim_actions_spec names : ∀ acc,
  match parse_claim_actions names acc with
  | Ok parsed => Forall (λ s, is_Some (action_parse s)) names ∧
                 ∀ a, a ∈ parsed ↔ a ∈ acc ∨ action_as_str a ∈ names
  | Err e => e = Unauthorized ∧ ∃ s, s ∈ names ∧ action_parse s = None
  end.
Proof.
  induction names as [|s names IH]; intros acc; cbn [parse_claim_actions].
  { split; [constructor|]. intros a. set_solver. }
  destruct (action_parse s) as [b|] eqn:Hs; [|split; [done|]; exists s; split; [left|done]].
  specialize (IH ({[b]} ∪ acc)). destruct (parse_claim_actions names _) as [parsed|e].
  - destruct IH as [Hall Hin]. split; [by constructor|]. intros a. rewrite Hin.
    apply action_parse_Some in Hs as ->. rewrite elem_of_union, elem_of_singleton, elem_of_cons.
    split; [intros [[->|?]|?]|intros [?|[Ha|?]]]; auto.
    do 2 left. apply (f_equal action_parse) in Ha. rewrite !action_parse_as_str in Ha. congruence.
  - destruct IH as [-> (s' & ? & ?)]. split; [done|]. exists s'. split; [by right|done].
Qed.

Section Spec.
Context `{PT : Patterns} `{JW : JwtCrate}.

(** ** What a claim grants *)

(** A permission claim, read off its strings. *)
Definition claim_grants (collections names : list string) (a : AuthAction) (c : string) : bool :=
  bool_decide (action_as_str a ∈ names) &&
  existsb (λ pattern, String.eqb pattern "*" || glob_match pattern c) collections.

Definition usable (c : PermissionClaim) : Prop :=
  pc_collections c ≠ [] ∧ pc_actions c ≠ [] ∧
  Forall (λ s, is_Some (action_parse s)) (pc_actions c).

Lemma claim_rules_spec cs :
  match claim_rules cs with
  | Ok rules => Forall usable cs ∧
      ∀ a c, existsb (λ r, rule_allows r a c) rules =
             existsb (λ cl, claim_grants (pc_collections cl) (pc_actions cl) a c) cs
  | Err e => e = Unauthorized ∧ ¬ Forall usable cs
  end.
Proof.
  induction cs as [|cl cs IH]; cbn [claim_rules]; [by split|].
  destruct (_ || _) eqn:Hempty.
  { split; [done|]. intros [(H1 & H2 & _) _]%Forall_cons.
    apply orb_true_iff in Hempty as [?%bool_decide_eq_true|?%bool_decide_eq_true]; done. }
  apply orb_false_iff in Hempty as [Hc%bool_decide_eq_false Ha%bool_decide_eq_false].
  pose proof (parse_claim_actions_spec (pc_actions cl) ∅) as Hp.
  destruct (parse_claim_actions _ _) as [parsed|e]; cbn [rbind].
  2: { destruct Hp as [-> (s & Hs & Hnone)]. split; [done|].
       intros [(_ & _ & Hall) _]%Forall_cons. rewrite Forall_forall in Hall.
       destruct (Hall s Hs) as [x Hx]. congruence. }
  destruct Hp as [Hall Hin].
  destruct (claim_rules cs) as [rules|e]; cbn [rbind].
  - destruct IH as [Hcs Hex]. split; [by constructor|]. intros a c. cbn [existsb]. rewrite Hex.
    f_equal. unfold rule_allows, claim_grants, has_action. cbn [actions]. f_equal.
    apply bool_decide_ext. rewrite Hin. set_solver.
  - destruct IH as [-> Hn]. split; [done|]. by intros [_ ?]%Forall_cons.
Qed.

Definition payload_grants (p : ClaimsPayload) (a : AuthAction) (c : string) : bool :=
  cp_latlng_admin p ||
  existsb (λ cl, claim_grants (pc_collections cl) (pc_actions cl) a c) (cp_latlng_permissions p).

Lemma from_payload_spec p :
  match from_payload p with
  | Ok claims => Forall usable (cp_latlng_permissions p) ∧ jc_sub claims = cp_sub p ∧
      jc_latlng_admin claims = cp_latlng_admin p ∧
      ∀ tok a c, allows (from_claims claims tok) a c = payload_grants p a c
  | Err e => e = Unauthorized ∧ ¬ Forall usable (cp_latlng_permissions p)
  end.
Proof.
  unfold from_payload. pose proof (claim_rules_spec (cp_latlng_permissions p)) as H.
  destruct (claim_rules _) as [rules|e]; cbn [rbind]; [|done].
  destruct H as [Hu Hex]. split_and!; [done..|]. intros tok a c.
  unfold allows, payload_grants, from_claims. cbn [ap_admin ap_permissions jc_latlng_admin
    jc_permissions]. by rewrite Hex.
Qed.

(** ** Keys and algorithms *)

(** Symmetric algorithms go with the shared secret, the others with public
    keys. *)
Definition fits (kind : JwtSourceKind) (alg : Algorithm) : bool :=
  match kind, alg with
  | HmacSecret, (HS256 | HS384 | HS512) => true
  | (PublicKeyPem | Jwks), (RS256 | ES256) => true
  | _, _ => false
  end.

(** The one algorithm a configuration accepts: the one it names, in any
    case, or by default HS256 for a shared secret and RS256 otherwise. *)
Definition configured_algorithm (c : AuthConfig) (kind : JwtSourceKind) (alg : Algorithm) : Prop :=
  match ac_jwt_algorithm c with
  | Some name => to_ascii_uppercase name = algorithm_debug alg
  | None => alg = match kind with HmacSecret => HS256 | PublicKeyPem | Jwks => RS256 end
  end.

Lemma algorithm_for_configured c kind alg :
  jwt_algorithm_for c kind = Ok alg → configured_algorithm c kind alg.
Proof.
  unfold jwt_algorithm_for, configured_algorithm. destruct (ac_jwt_algorithm c) as [name|];
    [|by intros [= <-]].
  cbv zeta.
  repeat match goal with
  | |- context [String.eqb ?x ?y] => destruct (String.eqb_spec x y) as [->|_]; [by intros [= <-]|]
  end.
  done.
Qed.

Lemma validate_fits c kind : auth_validate c = Ok tt → jwt_source_kind c = Some kind →
  ∃ alg, jwt_algorithm_for c kind = Ok alg ∧ fits kind alg = true.
Proof.
  unfold auth_validate. intros Hv Hk. rewrite Hk in Hv.
  destruct (jwt_algorithm_for c kind) as [alg|e]; cbn [rbind] in Hv.
  - exists alg. split; [done|]. destruct kind, alg; try done; by repeat case_match.
  - by repeat case_match.
Qed.

Lemma source_present c kind : jwt_source_kind c = Some kind →
  match kind with
  | HmacSecret => is_Some (ac_jwt_secret c)
  | PublicKeyPem => is_Some (ac_jwt_public_key_pem c)
  | Jwks => is_Some (ac_jwks_url c)
  end.
Proof.
  unfold jwt_source_kind. repeat case_bool_decide; intros; simplify_eq; done.
Qed.

(** ** Sequences of calls *)

(** The key sets the key server had to offer, with the times they would be
    stored at. *)
Definition served (env : AuthEnv) : list (Z * JwkSet) :=
  match env_fetch env with Some set => [(env_fetched env, set)] | None => [] end.

Definition clock_ok (t : Z) (env : AuthEnv) : Prop :=
  (t ≤ env_start env ∧ env_start env ≤ env_fetched env ∧ env_fetched env ≤ env_checked env)%Z.

(** An authenticator after some calls, the last at [t]. *)
Inductive auth_run (c : AuthConfig) : Authenticator → Z → list (Z * JwkSet) → Prop :=
  | auth_start a t : authenticator c = Ok a → auth_run c a t []
  | auth_call a t h env token : auth_run c a t h → clock_ok t env →
      auth_run c (authenticate a env token).1 (env_checked env) (served env ++ h).

Record auth_ok (c : AuthConfig) (h : list (Z * JwkSet)) (a : Authenticator) : Prop := mkAuthOk {
  ao_valid : auth_validate c = Ok tt;
  ao_config : au_config a = c;
  ao_client : au_jwks_client a = bool_decide (is_Some (ac_jwks_url c));
  ao_cache ca : au_jwks_cache a = Some ca → (fetched_at ca, cached_set ca) ∈ h
}.

Definition refresh_interval (c : AuthConfig) : Z :=
  from_secs (Z.max (ac_jwks_refresh_interval_seconds c) 1).

Lemma current_jwks_spec c h a t env : auth_ok c h a → clock_ok t env → is_Some (ac_jwks_url c) →
  let r := current_jwks a env in
  auth_ok c (served env ++ h) r.1 ∧
  match r.2 with
  | Ok set => ∃ tf, (tf, set) ∈ served env ++ h ∧ (env_start env - tf < refresh_interval c)%Z
  | Err e => e = Unauthorized
  end.
Proof.
  intros [Hv Hc Hcl Hca] Hclk Hurl. unfold current_jwks.
  rewrite Hcl, Hc, (bool_decide_true _ Hurl). cbn [negb].
  assert (auth_ok c (served env ++ h) a) as Hsame.
  { split; [done..|]. intros ca ?. apply elem_of_app. auto. }
  set (fetch := match env_fetch env with None => _ | Some set => _ end).
  assert (auth_ok c (served env ++ h) fetch.1 ∧
    match fetch.2 with
    | Ok set => ∃ tf, (tf, set) ∈ served env ++ h ∧ (env_start env - tf < refresh_interval c)%Z
    | Err e => e = Unauthorized
    end) as Hfetch.
  { unfold fetch, served. destruct (env_fetch env) as [set|] eqn:Hf.
    2: { unfold served in Hsame. by rewrite Hf in Hsame. }
    assert (auth_ok c ([(env_fetched env, set)] ++ h)
      (mkAuthenticator c true (Some (mkCached set (env_fetched env))))) as Hnew.
    { split; [done|done|by rewrite bool_decide_true|]. intros ca [= <-]. by left. }
    destruct (_ <? _)%Z; (split; [done|]); [done|]. exists (env_fetched env). split; [by left|].
    unfold refresh_interval, from_secs. destruct Hclk. lia. }
  destruct (au_jwks_cache a) as [ca|] eqn:Hcache; [|done].
  destruct (Z.ltb_spec (env_start env - fetched_at ca) (from_secs (Z.max (ac_jwks_refresh_interval_seconds c) 1)));
    [|done].
  split; [done|]. exists (fetched_at ca). split; [apply elem_of_app; auto|done].
Qed.

(** A key that is used to check [tok]. *)
Definition trusted (c : AuthConfig) (h : list (Z * JwkSet)) (env : AuthEnv) (tok : string)
    (kind : JwtSourceKind) (alg : Algorithm) (key : DecodingKey) : Prop :=
  match kind with
  | HmacSecret => ∃ secret, ac_jwt_secret c = Some secret ∧ key = key_from_secret secret
  | PublicKeyPem => ∃ pem, ac_jwt_public_key_pem c = Some pem ∧
      match alg with
      | ES256 => key_from_ec_pem pem = Some key
      | _ => key_from_rsa_pem pem = Some key
      end
  | Jwks => ∃ tf set kid jwk,
      (tf, set) ∈ served env ++ h ∧ (env_start env - tf < refresh_interval c)%Z ∧
      header_kid tok = Some (Some kid) ∧ find_jwk set kid = Some jwk ∧
      key_from_jwk jwk = Some key
  end.

Lemma key_for_spec c h a t env tok kind alg : auth_ok c h a → clock_ok t env →
  jwt_source_kind c = Some kind → fits kind alg = true →
  let r := key_for a env tok kind alg in
  auth_ok c (served env ++ h) r.1 ∧
  match r.2 with
  | Ok key => trusted c h env tok kind alg key
  | Err e => e = Unauthorized
  end.
Proof.
  intros Hok Hclk Hk Hfit. pose proof (source_present c kind Hk) as Hsrc.
  pose proof Hok as [Hv Hc Hcl Hca].
  assert (auth_ok c (served env ++ h) a) as Hsame.
  { split; [done..|]. intros ca ?. apply elem_of_app. auto. }
  unfold key_for. destruct kind; rewrite ?Hc.
  - destruct Hsrc as [s Hs]. rewrite Hs. split; [done|]. simpl. eauto.
  - destruct Hsrc as [pem Hpem]. rewrite Hpem. split; [done|]. simpl. unfold decoding_key_from_pem.
    destruct alg; try done; (destruct (key_from_rsa_pem pem) eqn:?, (key_from_ec_pem pem) eqn:?);
      simpl; eauto.
  - unfold jwks_decoding_key. destruct (header_kid tok) as [[kid|]|] eqn:Hkid; [|done..].
    pose proof (current_jwks_spec c h a t env Hok Hclk Hsrc) as [Ha' Hset].
    destruct (current_jwks a env) as [a' [set|e]]; cbn [fst snd] in *; [|done].
    split; [done|]. destruct Hset as (tf & Hin & Hfresh).
    destruct (find_jwk set kid) as [jwk|] eqn:Hjwk; [|done].
    destruct alg; try done; (destruct (key_from_jwk jwk) eqn:?; [|done]);
      exists tf, set, kid, jwk; done.
Qed.

(** The three ways to become a principal. *)
Definition justified (c : AuthConfig) (h : list (Z * JwkSet)) (env : AuthEnv)
    (token : option string) (p : AuthPrincipal) : Prop :=
  (auth_enabled c = false ∧ p = open_access) ∨
  (bearer_enabled c = true ∧ is_Some token ∧ token = ac_bearer_token c ∧ p = service_admin) ∨
  (∃ tok kind alg key value payload,
     token = Some tok ∧ jwt_source_kind c = Some kind ∧
     configured_algorithm c kind alg ∧ fits kind alg = true ∧
     trusted c h env tok kind alg key ∧
     jwt_decode (env_now env) tok key
       (mkValidation alg (ac_jwt_leeway_seconds c) (ac_jwt_issuer c) (ac_jwt_audience c)) =
       Some value ∧
     payload_of_value value = Some payload ∧
     is_admin p = cp_latlng_admin payload ∧ ∀ act coll, allows p act coll = payload_grants payload act coll).

Lemma authenticate_spec c h a t env token : auth_ok c h a → clock_ok t env →
  let r := authenticate a env token in
  auth_ok c (served env ++ h) r.1 ∧
  match r.2 with
  | Ok p => justified c h env token p
  | Err e => e = Unauthorized
  end.
Proof.
  intros Hok Hclk. pose proof Hok as [Hv Hc Hcl Hca].
  assert (auth_ok c (served env ++ h) a) as Hsame.
  { split; [done..|]. intros ca ?. apply elem_of_app. auto. }
  unfold authenticate, justified. rewrite Hc.
  destruct (auth_enabled c) eqn:Hen; cbn [negb]; [|by split; [|left]].
  destruct token as [tok|]; [|done].
  destruct (bearer_enabled c && _) eqn:Hb.
  { apply andb_true_iff in Hb as [Hb Heq%bool_decide_eq_true]. split; [done|]. right. left. eauto. }
  destruct (jwt_source_kind c) as [kind|] eqn:Hk; [|done].
  destruct (validate_fits c kind Hv Hk) as (alg & Halg & Hfit). rewrite Halg.
  pose proof (key_for_spec c h a t env tok kind alg Hok Hclk Hk Hfit) as [Ha' Hkey].
  destruct (key_for a env tok kind alg) as [a' [key|e]]; cbn [fst snd] in *; [|done].
  split; [done|]. unfold decode_claims. rewrite (ao_config _ _ _ Ha').
  destruct (jwt_decode _ _ _ _) as [value|] eqn:Hd; [|done].
  destruct (payload_of_value value) as [payload|] eqn:Hp; [|done].
  pose proof (from_payload_spec payload) as Hf.
  destruct (from_payload payload) as [claims|e]; cbn [rbind]; [|by destruct Hf].
  destruct Hf as (_ & _ & Hadm & Hall). right. right.
  exists tok, kind, alg, key, value, payload. apply algorithm_for_configured in Halg.
  split_and!; done.
Qed.

Lemma auth_run_ok c a t h : auth_run c a t h → auth_ok c h a.
Proof.
  induction 1 as [a t Ha|a t h env token _ IH Hclk]; [|by eapply authenticate_spec].
  unfold authenticator in Ha. destruct (auth_validate c) as [[]|] eqn:Hv; [|done].
  cbn [rbind] in Ha. injection Ha as <-. by split.
Qed.

(** ** The theorems *)

(** C15: nobody becomes a principal without cause.  After any calls on an
    authenticator built from a configuration, on a monotonic clock that does
    not go back, a call that succeeds found authentication switched off, or
    was given the service token, or was given a token that the configured
    source verifies: under exactly the algorithm the configuration names (by
    default HS256 for a shared secret and RS256 for public keys), which is an
    HMAC one for the shared secret and RS256 or ES256 for public keys, with
    the configured issuer, audience and leeway, and for a key set with one
    fetched within the refresh interval.  The principal then has exactly the
    permissions the claims spell out. *)
Theorem authentication_sound (c : AuthConfig) (a a' : Authenticator) (t : Z)
    (h : list (Z * JwkSet)) (env : AuthEnv) (token : option string) (p : AuthPrincipal)
    (Hrun : auth_run c a t h) (Hclock : clock_ok t env)
    (Hok : authenticate a env token = (a', Ok p)) :
  justified c h env token p.
Proof.
  pose proof (authenticate_spec c h a t env token (auth_run_ok _ _ _ _ Hrun) Hclock) as [_ H].
  by rewrite Hok in H.
Qed.

(** A configuration that passes validation cannot make authentication fail
    for its own sake: every refusal is [Unauthorized], so the HTTP layer
    answers 401 and never 500, and no [expect] panics. *)
Theorem valid_config_only_unauthorized (c : AuthConfig) (a a' : Authenticator) (t : Z)
    (h : list (Z * JwkSet)) (env : AuthEnv) (header : option string) (e : HttpError)
    (Hrun : auth_run c a t h) (Hclock : clock_ok t env)
    (Herr : authenticate_headers a env header None = (a', Err e)) :
  e = HUnauthorized ∧ http_status e = 401%Z.
Proof.
  pose proof (authenticate_spec c h a t env (header ≫= extract_bearer_token)
    (auth_run_ok _ _ _ _ Hrun) Hclock) as [_ H].
  unfold authenticate_headers in Herr. destruct (authenticate _ _ _) as [a1 [p|e']]; [done|].
  cbn [snd] in H. subst. cbn [map_err http_auth_error] in Herr. by injection Herr as _ <-.
Qed.

(** Permissions nest: what is allowed globally is allowed for every
    collection, what is allowed for a collection is a permission the principal
    has at all, a collection that can be seen can be listed, and only an
    administrator or a global [admin:*] rule opens the administration. *)
Theorem permissions_nest (p : AuthPrincipal) (a : AuthAction) (c : string) :
  (allows_global p a = true → allows p a c = true) ∧
  (allows p a c = true → any_collection_permission p a = true) ∧
  (can_view_collection p c = true → allows p CollectionsList c = true) ∧
  (ensure_admin p = Ok tt ↔
     is_admin p = true ∨ ∃ r, r ∈ ap_permissions p ∧ AdminAll ∈ actions r ∧ "*" ∈ patterns r).
Proof.
  assert (∀ {A} (P Q : A → bool) l, (∀ x, P x = true → Q x = true) →
    existsb P l = true → existsb Q l = true) as Hex.
  { intros A P Q l HPQ. rewrite !existsb_exists. intros (x & ? & ?). eauto. }
  unfold can_view_collection, ensure_admin, ensure_global_action, allows_global, allows,
    any_collection_permission, is_admin.
  destruct (ap_admin p); cbn [orb]; [by split_and!; [..|split; auto]|]. split_and!.
  - apply Hex. intros r. unfold rule_allows_global, rule_allows. rewrite !andb_true_iff.
    intros [? Hg]. split; [done|]. revert Hg. apply Hex. intros pat ->. done.
  - apply Hex. intros r. unfold rule_allows. by intros [? _]%andb_true_iff.
  - by intros [? _]%andb_true_iff.
  - trans (existsb (λ r, rule_allows_global r AdminAll) (ap_permissions p) = true).
    { by destruct (existsb _ _). }
    rewrite existsb_exists. unfold rule_allows_global, has_action, is_global. split.
    + intros (r & Hr%list_elem_of_In & [Ha%bool_decide_eq_true Hg]%andb_true_iff).
      apply existsb_exists in Hg as (pat & Hp%list_elem_of_In & ->%String.eqb_eq). eauto 10.
    + intros [?|(r & Hr & Ha & Hp)]; [done|]. exists r. rewrite <-list_elem_of_In. split; [done|].
      rewrite bool_decide_true by done. apply existsb_exists. exists "*".
      by rewrite <-list_elem_of_In.
Qed.

(** *** Minted tokens *)

Definition payload_of (c : HmacTokenClaims) : ClaimsPayload :=
  mkPayload (tc_sub c)
    ((λ r, mkPermissionClaim (tr_collections r) (tr_actions r)) <$> tc_latlng_permissions c)
    (tc_latlng_admin c).

(** What the crate's documentation says about accepting a well-signed token
    under the settings of [validation_for]: the algorithm is the one asked
    for, [exp] has not passed by more than the leeway, the issuer is the
    required one if any, the audience is the required one and absent if none
    is.  [nbf] is only looked at on request. *)
Definition accepted (now : Z) (v : Validation) (alg : Algorithm) (c : HmacTokenClaims) : Prop :=
  va_algorithm v = alg ∧ (now - va_leeway v ≤ tc_exp c)%Z ∧
  (va_issuer v = None ∨ tc_iss c = va_issuer v) ∧ tc_aud c = va_audience v.

Definition signs_and_verifies : Prop :=
  ∀ now alg claims secret tok v,
    jwt_encode alg claims secret = Ok tok → accepted now v alg claims →
    ∃ value, jwt_decode now tok (key_from_secret secret) v = Some value ∧
             payload_of_value value = Some (payload_of claims).

Lemma check_actions_Ok names : check_actions names = Ok tt →
  Forall (λ s, is_Some (action_parse s)) names.
Proof.
  induction names as [|s names IH]; simpl; [constructor|].
  destruct (action_parse s) eqn:Hs; [|done]. constructor; [by rewrite Hs|auto].
Qed.

Lemma validate_rules_Ok rules : validate_rules rules = Ok tt →
  Forall (λ r, tr_actions r ≠ [] ∧ Forall (λ s, is_Some (action_parse s)) (tr_actions r)) rules.
Proof.
  induction rules as [|r rules IH]; cbn [validate_rules]; [constructor|].
  unfold rule_validate. destruct (existsb _ _); [done|]. case_bool_decide; [done|].
  destruct (check_actions (tr_actions r)) as [[]|] eqn:Hc; cbn [rbind]; [|done].
  intros Hr. constructor; [|by apply IH]. split; [done|by apply check_actions_Ok].
Qed.

Lemma token_claims_Ok o claims : token_claims o = Ok claims →
  validate_rules (to_permissions o) = Ok tt ∧
  claims = mkTokenClaims (to_subject o) (to_issuer o) (to_audience o) (to_issued_at o)
             (to_not_before o) (to_expires_at o) (to_permissions o) (to_admin o).
Proof.
  unfold token_claims. repeat case_match; try done.
  all: destruct (validate_rules (to_permissions o)) as [[]|]; cbn [rbind]; by intros [= <-].
Qed.

Lemma rules_grant o act coll :
  payload_grants (payload_of (mkTokenClaims (to_subject o) (to_issuer o) (to_audience o)
    (to_issued_at o) (to_not_before o) (to_expires_at o) (to_permissions o) (to_admin o))) act coll =
  to_admin o || existsb (λ r, claim_grants (tr_collections r) (tr_actions r) act coll) (to_permissions o).
Proof.
  unfold payload_grants, payload_of. cbn [cp_latlng_admin cp_latlng_permissions tc_latlng_admin
    tc_latlng_permissions]. f_equal. induction (to_permissions o) as [|r rs IH]; [done|].
  rewrite fmap_cons. cbn [existsb]. by rewrite IH.
Qed.

Context (Hcrate : signs_and_verifies).

(** Authenticating with a token minted with the configured secret comes down
    to reading its claims. *)
Lemma minted_authenticates c h a env o secret tok :
  auth_ok c h a → ac_jwt_secret c = Some secret →
  jwt_algorithm_for c HmacSecret = Ok (hmac_algorithm (to_algorithm o)) →
  (ac_jwt_issuer c = None ∨ to_issuer o = ac_jwt_issuer c) → to_audience o = ac_jwt_audience c →
  (env_now env - ac_jwt_leeway_seconds c ≤ to_expires_at o)%Z →
  ac_bearer_token c ≠ Some tok → create_hmac_jwt secret o = Ok tok →
  ∃ claims, token_claims o = Ok claims ∧
    authenticate a env (Some tok) =
    (a, let? jc := from_payload (payload_of claims) in Ok (from_claims jc tok)).
Proof.
  intros [Hv Hc _ _] Hs Halg Hiss Haud Hexp Hb Hmint.
  unfold create_hmac_jwt in Hmint. destruct (String.eqb secret ""); [done|].
  destruct (token_claims o) as [claims|] eqn:Hcl; cbn [rbind] in Hmint; [|done].
  exists claims. split; [done|]. apply token_claims_Ok in Hcl as [_ Hcl].
  destruct (jwt_encode _ claims secret) as [tok'|] eqn:Henc; cbn [map_err] in Hmint; [|done].
  injection Hmint as ->.
  assert (jwt_source_kind c = Some HmacSecret) as Hk by (unfold jwt_source_kind; by rewrite Hs).
  unfold authenticate, auth_enabled. rewrite Hc, Hk. rewrite (bool_decide_true (is_Some (Some _))) by done.
  rewrite orb_true_r, (bool_decide_false (ac_bearer_token c = Some tok)), andb_false_r by done.
  cbn [negb]. rewrite Halg. cbn [key_for]. rewrite Hc, Hs. cbn [expect ok_or rbind].
  unfold decode_claims. rewrite Hc.
  destruct (Hcrate (env_now env) _ claims secret tok
    (validation_for c (hmac_algorithm (to_algorithm o))) Henc) as (value & -> & ->); [|done].
  rewrite Hcl. split_and!; done.
Qed.

(** A token minted with the server's secret gives exactly the permissions
    it was minted with: it authenticates as long as its expiry plus the leeway
    has not passed and issuer and audience are the configured ones, the
    principal is an administrator exactly if the token says so, and it may do
    exactly what some rule of the token names for a matching collection. *)
Theorem minted_token_grants (c : AuthConfig) (a : Authenticator) (t : Z) (h : list (Z * JwkSet))
    (env : AuthEnv) (o : HmacTokenOptions) (secret tok : string)
    (Hrun : auth_run c a t h) (Hsecret : ac_jwt_secret c = Some secret)
    (Halg : jwt_algorithm_for c HmacSecret = Ok (hmac_algorithm (to_algorithm o)))
    (Hissuer : ac_jwt_issuer c = None ∨ to_issuer o = ac_jwt_issuer c)
    (Haudience : to_audience o = ac_jwt_audience c)
    (Htime : (env_now env - ac_jwt_leeway_seconds c ≤ to_expires_at o)%Z)
    (Hbearer : ac_bearer_token c ≠ Some tok)
    (Hmint : create_hmac_jwt secret o = Ok tok)
    (Hcollections : Forall (λ r, tr_collections r ≠ []) (to_permissions o)) :
  ∃ p, authenticate a env (Some tok) = (a, Ok p) ∧ is_admin p = to_admin o ∧
       ∀ act coll, allows p act coll =
         to_admin o || existsb (λ r, claim_grants (tr_collections r) (tr_actions r) act coll)
                         (to_permissions o).
Proof.
  destruct (minted_authenticates c h a env o secret tok (auth_run_ok _ _ _ _ Hrun))
    as (claims & Hcl & ->); try done.
  apply token_claims_Ok in Hcl as [Hrules ->]. apply validate_rules_Ok in Hrules.
  set (payload := payload_of _). pose proof (from_payload_spec payload) as Hf.
  destruct (from_payload payload) as [jc|e]; cbn [rbind].
  - destruct Hf as (_ & _ & Hadm & Hall). exists (from_claims jc tok). split; [done|].
    split; [done|]. intros act coll. rewrite Hall. apply rules_grant.
  - destruct Hf as [_ []]. simpl. apply Forall_fmap. clear - Hrules Hcollections.
    rewrite Forall_forall in *. intros r Hr. by split_and!; apply Hrules || apply Hcollections.
Qed.

(** A rule without collections passes the checks of minting and is refused
    when the token is used. *)
Theorem minted_token_refused (c : AuthConfig) (a : Authenticator) (t : Z) (h : list (Z * JwkSet))
    (env : AuthEnv) (o : HmacTokenOptions) (secret tok : string)
    (Hrun : auth_run c a t h) (Hsecret : ac_jwt_secret c = Some secret)
    (Halg : jwt_algorithm_for c HmacSecret = Ok (hmac_algorithm (to_algorithm o)))
    (Hissuer : ac_jwt_issuer c = None ∨ to_issuer o = ac_jwt_issuer c)
    (Haudience : to_audience o = ac_jwt_audience c)
    (Htime : (env_now env - ac_jwt_leeway_seconds c ≤ to_expires_at o)%Z)
    (Hbearer : ac_bearer_token c ≠ Some tok)
    (Hmint : create_hmac_jwt secret o = Ok tok)
    (r : HmacTokenPermissionRule) (Hr : r ∈ to_permissions o) (Hempty : tr_collections r = []) :
  authenticate a env (Some tok) = (a, Err Unauthorized).
Proof.
  destruct (minted_authenticates c h a env o secret tok (auth_run_ok _ _ _ _ Hrun))
    as (claims & Hcl & ->); try done.
  apply token_claims_Ok in Hcl as [_ ->]. set (payload := payload_of _).
  pose proof (from_payload_spec payload) as Hf. destruct (from_payload payload) as [jc|e].
  - destruct Hf as [Hu _]. simpl in Hu. rewrite Forall_fmap, Forall_forall in Hu.
    by destruct (Hu r Hr) as [? _].
  - by destruct Hf as [-> _].
Qed.

End Spec.

#[export] Instance algorithm_eq_dec : EqDecision Algorithm.
Proof. solve_decision. Defined.
#[export] Instance token_rule_eq_dec : EqDecision HmacTokenPermissionRule.
Proof. solve_decision. Defined.
#[export] Instance token_claims_eq_dec : EqDecision HmacTokenClaims.
Proof. solve_decision. Defined.
#[export] Instance accepted_dec now v alg c : Decision (accepted now v alg c).
Proof. unfold accepted. apply _. Defined.

(** ** A concrete server

    Its crate knows one signed token and one key set. *)
Module AuthWitness.
Import PlainText.

Definition dispatcher : HmacTokenOptions :=
  mkTokenOptions (Some "dispatcher") None None 1000 (Some 1500%Z) 2000
    [mkTokenRule ["fleet"] ["objects:read"; "queries:read"]] false Hs256.
Definition dispatcher_claims : HmacTokenClaims :=
  mkTokenClaims (Some "dispatcher") None None 1000 (Some 1500%Z) 2000
    [mkTokenRule ["fleet"] ["objects:read"; "queries:read"]] false.

#[local] Instance crate : JwtCrate := {
  DecodingKey := string;
  Jwk := string;
  JwkSet := list (string * string);
  key_from_secret s := s;
  key_from_rsa_pem pem := Some pem;
  key_from_ec_pem pem := Some pem;
  key_from_jwk k := Some k;
  find_jwk set kid := (λ r, r.2.2) <$> list_find (λ kv, kv.1 = kid) set;
  header_kid tok := if bool_decide (tok = "rotated") then Some (Some "k1") else None;
  jwt_decode now tok key v :=
    if bool_decide (tok = "signed" ∧ key = "s3cret" ∧ accepted now v HS256 dispatcher_claims)
    then Some VNull
    else if bool_decide (tok = "rotated" ∧ key = "rsa-1") then Some (VBool true) else None;
  jwt_encode alg c secret :=
    if bool_decide (alg = HS256 ∧ c = dispatcher_claims ∧ secret = "s3cret") then Ok "signed"
    else Err "unknown";
  payload_of_value v :=
    match v with
    | VNull => Some (payload_of dispatcher_claims)
    | VBool b => Some (mkPayload None [] b)
    | _ => None
    end;
  sha256 bs := bs;
  base64_url_encode _ := "";
  base64_url_decode _ := None
}.

Lemma crate_signs : signs_and_verifies.
Proof.
  intros now alg c secret tok v. cbn [jwt_encode jwt_decode key_from_secret crate].
  case_bool_decide as H; [|done]. destruct H as (-> & -> & ->). intros [= <-] Hacc.
  exists VNull. by rewrite bool_decide_true.
Qed.

Definition config : AuthConfig :=
  mkAuthConfig (Some "service") false (Some "s3cret") None None None None None None 300 3600 3000 0.
Definition server : Authenticator := mkAuthenticator config false None.
Definition env_at (now : Z) : AuthEnv := mkEnv now 0 0 0 None.

Lemma server_run : auth_run config server 0 [].
Proof. apply auth_start. reflexivity. Qed.

Lemma clock_zero now : clock_ok 0 (env_at now).
Proof. by split_and!. Qed.

Lemma authentication_sound_witness :
  justified config [] (env_at 1000) (Some "service") service_admin.
Proof.
  apply (authentication_sound config server server 0 [] (env_at 1000) (Some "service")
           service_admin server_run (clock_zero 1000)).
  reflexivity.
Defined.

Lemma valid_config_only_unauthorized_witness :
  HUnauthorized = HUnauthorized ∧ http_status HUnauthorized = 401%Z.
Proof.
  apply (valid_config_only_unauthorized config server
           (authenticate_headers server (env_at 1000) (Some "Bearer forged") None).1 0 []
           (env_at 1000) (Some "Bearer forged") HUnauthorized server_run (clock_zero 1000)).
  apply pair_with_snd. vm_compute. reflexivity.
Defined.

(** The token is accepted at 1000 although it is not to be used before 1500. *)
Lemma minted_token_grants_witness :
  ∃ p, authenticate server (env_at 1000) (Some "signed") = (server, Ok p) ∧ is_admin p = false ∧
       ∀ act coll, allows p act coll =
         existsb (λ r, claim_grants (tr_collections r) (tr_actions r) act coll)
           (to_permissions dispatcher).
Proof.
  apply (minted_token_grants crate_signs config server 0 [] (env_at 1000) dispatcher "s3cret"
           "signed" server_run).
  - reflexivity.
  - reflexivity.
  - left. reflexivity.
  - reflexivity.
  - simpl. lia.
  - discriminate.
  - vm_compute. reflexivity.
  - by repeat constructor.
Defined.

(** ** What goes wrong *)

Definition decided (r : result AuthPrincipal AuthError) (a : AuthAction) (c : string) : bool :=
  match r with Ok p => allows p a c | Err _ => false end.

(** A token carries the time before which it must not be used, and minting
    checks that time, but [validation_for] leaves the check of [nbf] off: the
    token is good at once. *)
Theorem not_before_is_ignored :
  to_not_before dispatcher = Some 1500%Z ∧
  decided (authenticate server (env_at 1000) (Some "signed")).2 ObjectsRead "fleet" = true.
Proof. split; vm_compute; reflexivity. Qed.

Definition jwks_config : AuthConfig :=
  mkAuthConfig None false None None None None None (Some "https://id") None 300 3600 3000 0.
Definition jwks_server : Authenticator := mkAuthenticator jwks_config true None.
Definition keys : list (string * string) := [("k1", "rsa-1")].
Definition fetched : Authenticator :=
  (authenticate jwks_server (mkEnv 1000 0 0 0 (Some keys)) (Some "rotated")).1.

(** The cache of signing keys has a time to live of an hour, but keys older
    than the refresh interval are never used: when the key server cannot be
    reached 400 seconds after a fetch, everyone is refused. *)
Theorem key_server_outage_locks_out :
  is_ok (authenticate jwks_server (mkEnv 1000 0 0 0 (Some keys)) (Some "rotated")).2 = true ∧
  (authenticate fetched (mkEnv 1400 (from_secs 400) (from_secs 400) (from_secs 400) None)
     (Some "rotated")).2 = Err Unauthorized ∧
  (from_secs 400 < from_secs (ac_jwks_cache_ttl_seconds jwks_config))%Z.
Proof. split_and!; vm_compute; reflexivity. Qed.

End AuthWitness.
