(* ===== verification/Config.v ===== *)
(** * Runtime configuration ([crates/latlng-config/src/lib.rs])

    The configuration of a server with its defaults, the checks at start-up,
    the production guard rails and the updates that requests make. *)

From Stdlib Require Import ZArith Lia SpecFloat Ascii.
From stdpp Require Import base gmap strings list.
From S2P Require Import Prelude Storage F64 Json Platform Geo Strings Index Geofence Collection.
From S2P Require Import Engine Auth.

Inductive StorageMode : Type := StorageMemory | StorageAof (path : string).
Inductive LogFormat : Type := Compact | LogJson.
Inductive LogDestination : Type := Stderr | Stdout | LogFile | LogNone.

Record RuntimeConfig := mkRuntime {
  rc_production_mode : bool;
  rc_listen_addr : string;
  rc_capnp_enabled : bool;
  rc_capnp_listen_addr : string;
  rc_server_id : string;
  rc_storage : StorageMode;
  rc_read_only : bool;
  rc_command_timeouts : gmap string f64;
  rc_subscriber_queue_capacity : Z;
  rc_webhook_queue_path : option string;
  rc_webhook_timeout_ms : Z;
  rc_webhook_concurrency_limit : Z;
  rc_webhook_retry_count : Z;
  rc_webhook_retry_initial_backoff_ms : Z;
  rc_webhook_retry_max_backoff_ms : Z;
  rc_webhook_lease_ms : Z;
  rc_expiry_sweep_interval_ms : Z;
  rc_native_executor_threads : Z;
  rc_native_executor_queue_limit : Z;
  rc_aof_writer_queue_limit : Z;
  rc_aof_group_commit_delay_ms : Z;
  rc_aof_group_commit_max_requests : Z;
  rc_follow_host : option string;
  rc_follow_port : option Z;
  rc_replication_credential : option string;
  rc_replication_batch_size : Z;
  rc_replication_reconnect_backoff_ms : Z;
  rc_http_cors_enabled : bool;
  rc_http_cors_allowed_origins : list string;
  rc_http_cors_allowed_methods : list string;
  rc_http_cors_allowed_headers : list string;
  rc_http_cors_max_age_seconds : option Z;
  rc_http_max_body_bytes : Z;
  rc_http_request_timeout_ms : Z;
  rc_http_rate_limit_enabled : bool;
  rc_http_rate_limit_requests_per_second : Z;
  rc_http_rate_limit_burst : Z;
  rc_http_principal_rate_limit_enabled : bool;
  rc_http_principal_rate_limit_requests_per_second : Z;
  rc_http_principal_rate_limit_burst : Z;
  rc_logging_enabled : bool;
  rc_log_format : LogFormat;
  rc_log_level : string;
  rc_log_destination : LogDestination;
  rc_log_file_path : option string;
  rc_require_auth : bool;
  rc_auth : AuthConfig;
  rc_config_path : option string
}.

(** ** Defaults *)

Definition default_listen_addr : string := "127.0.0.1:7421".
Definition default_capnp_listen_addr : string := "127.0.0.1:7422".
Definition default_capnp_enabled : bool := false.
Definition default_subscriber_queue_capacity : Z := 4096.
Definition default_webhook_timeout_ms : Z := 5000.
Definition default_webhook_concurrency_limit : Z := 128.
Definition default_webhook_retry_count : Z := 8.
Definition default_webhook_retry_initial_backoff_ms : Z := 200.
Definition default_webhook_retry_max_backoff_ms : Z := 30000.
Definition default_webhook_lease_ms : Z := 30000.
Definition default_expiry_sweep_interval_ms : Z := 100.

(** [parallelism] is what the system reports, [None] when it cannot tell. *)
Definition default_native_executor_threads (parallelism : option Z) : Z :=
  Z.max (default 4%Z parallelism) 1.
Definition default_native_executor_queue_limit (parallelism : option Z) : Z :=
  Z.max (Z.min (default_native_executor_threads parallelism * 64) U64_MAX) 1.

Definition default_aof_writer_queue_limit : Z := 4096.
Definition default_aof_group_commit_delay_ms : Z := 1.
Definition default_aof_group_commit_max_requests : Z := 128.
Definition default_replication_batch_size : Z := 512.
Definition default_replication_reconnect_backoff_ms : Z := 1000.
Definition default_http_cors_allowed_methods : list string :=
  ["GET"; "POST"; "PUT"; "DELETE"; "OPTIONS"].
Definition default_http_cors_allowed_headers : list string :=
  ["authorization"; "content-type"; "x-request-id"].
Definition default_http_max_body_bytes : Z := 10 * 1024 * 1024.
Definition default_http_request_timeout_ms : Z := 30000.
Definition default_http_rate_limit_requests_per_second : Z := 1000.
Definition default_http_rate_limit_burst : Z := 1000.
Definition default_http_principal_rate_limit_requests_per_second : Z := 100.
Definition default_http_principal_rate_limit_burst : Z := 200.
Definition default_logging_enabled : bool := true.
Definition default_log_level : string := "info".

(** [server_id] is a fresh UUID. *)
Definition default_runtime_config (server_id : string) (parallelism : option Z)
    : RuntimeConfig := {|
  rc_production_mode := false;
  rc_listen_addr := default_listen_addr;
  rc_capnp_enabled := default_capnp_enabled;
  rc_capnp_listen_addr := default_capnp_listen_addr;
  rc_server_id := server_id;
  rc_storage := StorageMemory;
  rc_read_only := false;
  rc_command_timeouts := ∅;
  rc_subscriber_queue_capacity := default_subscriber_queue_capacity;
  rc_webhook_queue_path := None;
  rc_webhook_timeout_ms := default_webhook_timeout_ms;
  rc_webhook_concurrency_limit := default_webhook_concurrency_limit;
  rc_webhook_retry_count := default_webhook_retry_count;
  rc_webhook_retry_initial_backoff_ms := default_webhook_retry_initial_backoff_ms;
  rc_webhook_retry_max_backoff_ms := default_webhook_retry_max_backoff_ms;
  rc_webhook_lease_ms := default_webhook_lease_ms;
  rc_expiry_sweep_interval_ms := default_expiry_sweep_interval_ms;
  rc_native_executor_threads := (default_native_executor_threads parallelism);
  rc_native_executor_queue_limit := (default_native_executor_queue_limit parallelism);
  rc_aof_writer_queue_limit := default_aof_writer_queue_limit;
  rc_aof_group_commit_delay_ms := default_aof_group_commit_delay_ms;
  rc_aof_group_commit_max_requests := default_aof_group_commit_max_requests;
  rc_follow_host := None;
  rc_follow_port := None;
  rc_replication_credential := None;
  rc_replication_batch_size := default_replication_batch_size;
  rc_replication_reconnect_backoff_ms := default_replication_reconnect_backoff_ms;
  rc_http_cors_enabled := false;
  rc_http_cors_allowed_origins := [];
  rc_http_cors_allowed_methods := default_http_cors_allowed_methods;
  rc_http_cors_allowed_headers := default_http_cors_allowed_headers;
  rc_http_cors_max_age_seconds := None;
  rc_http_max_body_bytes := default_http_max_body_bytes;
  rc_http_request_timeout_ms := default_http_request_timeout_ms;
  rc_http_rate_limit_enabled := false;
  rc_http_rate_limit_requests_per_second := default_http_rate_limit_requests_per_second;
  rc_http_rate_limit_burst := default_http_rate_limit_burst;
  rc_http_principal_rate_limit_enabled := false;
  rc_http_principal_rate_limit_requests_per_second := default_http_principal_rate_limit_requests_per_second;
  rc_http_principal_rate_limit_burst := default_http_principal_rate_limit_burst;
  rc_logging_enabled := default_logging_enabled;
  rc_log_format := Compact;
  rc_log_level := default_log_level;
  rc_log_destination := Stderr;
  rc_log_file_path := None;
  rc_require_auth := false;
  rc_auth := default_auth_config;
  rc_config_path := None
|}.

(** ** Updates *)

Definition with_read_only (c : RuntimeConfig) (v : bool) : RuntimeConfig :=
  mkRuntime (rc_production_mode c) (rc_listen_addr c) (rc_capnp_enabled c) (rc_capnp_listen_addr
    c) (rc_server_id c) (rc_storage c) v (rc_command_timeouts c) (rc_subscriber_queue_capacity
    c) (rc_webhook_queue_path c) (rc_webhook_timeout_ms c) (rc_webhook_concurrency_limit c)
    (rc_webhook_retry_count c) (rc_webhook_retry_initial_backoff_ms c)
    (rc_webhook_retry_max_backoff_ms c) (rc_webhook_lease_ms c) (rc_expiry_sweep_interval_ms c)
    (rc_native_executor_threads c) (rc_native_executor_queue_limit c) (rc_aof_writer_queue_limit
    c) (rc_aof_group_commit_delay_ms c) (rc_aof_group_commit_max_requests c) (rc_follow_host c)
    (rc_follow_port c) (rc_replication_credential c) (rc_replication_batch_size c)
    (rc_replication_reconnect_backoff_ms c) (rc_http_cors_enabled c)
    (rc_http_cors_allowed_origins c) (rc_http_cors_allowed_methods c)
    (rc_http_cors_allowed_headers c) (rc_http_cors_max_age_seconds c) (rc_http_max_body_bytes c)
    (rc_http_request_timeout_ms c) (rc_http_rate_limit_enabled c)
    (rc_http_rate_limit_requests_per_second c) (rc_http_rate_limit_burst c)
    (rc_http_principal_rate_limit_enabled c) (rc_http_principal_rate_limit_requests_per_second
    c) (rc_http_principal_rate_limit_burst c) (rc_logging_enabled c) (rc_log_format c)
    (rc_log_level c) (rc_log_destination c) (rc_log_file_path c) (rc_require_auth c) (rc_auth c)
    (rc_config_path c).

Definition with_command_timeouts (c : RuntimeConfig) (v : gmap string f64) : RuntimeConfig :=
  mkRuntime (rc_production_mode c) (rc_listen_addr c) (rc_capnp_enabled c) (rc_capnp_listen_addr
    c) (rc_server_id c) (rc_storage c) (rc_read_only c) v (rc_subscriber_queue_capacity c)
    (rc_webhook_queue_path c) (rc_webhook_timeout_ms c) (rc_webhook_concurrency_limit c)
    (rc_webhook_retry_count c) (rc_webhook_retry_initial_backoff_ms c)
    (rc_webhook_retry_max_backoff_ms c) (rc_webhook_lease_ms c) (rc_expiry_sweep_interval_ms c)
    (rc_native_executor_threads c) (rc_native_executor_queue_limit c) (rc_aof_writer_queue_limit
    c) (rc_aof_group_commit_delay_ms c) (rc_aof_group_commit_max_requests c) (rc_follow_host c)
    (rc_follow_port c) (rc_replication_credential c) (rc_replication_batch_size c)
    (rc_replication_reconnect_backoff_ms c) (rc_http_cors_enabled c)
    (rc_http_cors_allowed_origins c) (rc_http_cors_allowed_methods c)
    (rc_http_cors_allowed_headers c) (rc_http_cors_max_age_seconds c) (rc_http_max_body_bytes c)
    (rc_http_request_timeout_ms c) (rc_http_rate_limit_enabled c)
    (rc_http_rate_limit_requests_per_second c) (rc_http_rate_limit_burst c)
    (rc_http_principal_rate_limit_enabled c) (rc_http_principal_rate_limit_requests_per_second
    c) (rc_http_principal_rate_limit_burst c) (rc_logging_enabled c) (rc_log_format c)
    (rc_log_level c) (rc_log_destination c) (rc_log_file_path c) (rc_require_auth c) (rc_auth c)
    (rc_config_path c).

Definition with_webhook_timeout_ms (c : RuntimeConfig) (v : Z) : RuntimeConfig :=
  mkRuntime (rc_production_mode c) (rc_listen_addr c) (rc_capnp_enabled c) (rc_capnp_listen_addr
    c) (rc_server_id c) (rc_storage c) (rc_read_only c) (rc_command_timeouts c)
    (rc_subscriber_queue_capacity c) (rc_webhook_queue_path c) v (rc_webhook_concurrency_limit
    c) (rc_webhook_retry_count c) (rc_webhook_retry_initial_backoff_ms c)
    (rc_webhook_retry_max_backoff_ms c) (rc_webhook_lease_ms c) (rc_expiry_sweep_interval_ms c)
    (rc_native_executor_threads c) (rc_native_executor_queue_limit c) (rc_aof_writer_queue_limit
    c) (rc_aof_group_commit_delay_ms c) (rc_aof_group_commit_max_requests c) (rc_follow_host c)
    (rc_follow_port c) (rc_replication_credential c) (rc_replication_batch_size c)
    (rc_replication_reconnect_backoff_ms c) (rc_http_cors_enabled c)
    (rc_http_cors_allowed_origins c) (rc_http_cors_allowed_methods c)
    (rc_http_cors_allowed_headers c) (rc_http_cors_max_age_seconds c) (rc_http_max_body_bytes c)
    (rc_http_request_timeout_ms c) (rc_http_rate_limit_enabled c)
    (rc_http_rate_limit_requests_per_second c) (rc_http_rate_limit_burst c)
    (rc_http_principal_rate_limit_enabled c) (rc_http_principal_rate_limit_requests_per_second
    c) (rc_http_principal_rate_limit_burst c) (rc_logging_enabled c) (rc_log_format c)
    (rc_log_level c) (rc_log_destination c) (rc_log_file_path c) (rc_require_auth c) (rc_auth c)
    (rc_config_path c).

Definition with_webhook_concurrency_limit (c : RuntimeConfig) (v : Z) : RuntimeConfig :=
  mkRuntime (rc_production_mode c) (rc_listen_addr c) (rc_capnp_enabled c) (rc_capnp_listen_addr
    c) (rc_server_id c) (rc_storage c) (rc_read_only c) (rc_command_timeouts c)
    (rc_subscriber_queue_capacity c) (rc_webhook_queue_path c) (rc_webhook_timeout_ms c) v
    (rc_webhook_retry_count c) (rc_webhook_retry_initial_backoff_ms c)
    (rc_webhook_retry_max_backoff_ms c) (rc_webhook_lease_ms c) (rc_expiry_sweep_interval_ms c)
    (rc_native_executor_threads c) (rc_native_executor_queue_limit c) (rc_aof_writer_queue_limit
    c) (rc_aof_group_commit_delay_ms c) (rc_aof_group_commit_max_requests c) (rc_follow_host c)
    (rc_follow_port c) (rc_replication_credential c) (rc_replication_batch_size c)
    (rc_replication_reconnect_backoff_ms c) (rc_http_cors_enabled c)
    (rc_http_cors_allowed_origins c) (rc_http_cors_allowed_methods c)
    (rc_http_cors_allowed_headers c) (rc_http_cors_max_age_seconds c) (rc_http_max_body_bytes c)
    (rc_http_request_timeout_ms c) (rc_http_rate_limit_enabled c)
    (rc_http_rate_limit_requests_per_second c) (rc_http_rate_limit_burst c)
    (rc_http_principal_rate_limit_enabled c) (rc_http_principal_rate_limit_requests_per_second
    c) (rc_http_principal_rate_limit_burst c) (rc_logging_enabled c) (rc_log_format c)
    (rc_log_level c) (rc_log_destination c) (rc_log_file_path c) (rc_require_auth c) (rc_auth c)
    (rc_config_path c).

Definition with_webhook_retry_count (c : RuntimeConfig) (v : Z) : RuntimeConfig :=
  mkRuntime (rc_production_mode c) (rc_listen_addr c) (rc_capnp_enabled c) (rc_capnp_listen_addr
    c) (rc_server_id c) (rc_storage c) (rc_read_only c) (rc_command_timeouts c)
    (rc_subscriber_queue_capacity c) (rc_webhook_queue_path c) (rc_webhook_timeout_ms c)
    (rc_webhook_concurrency_limit c) v (rc_webhook_retry_initial_backoff_ms c)
    (rc_webhook_retry_max_backoff_ms c) (rc_webhook_lease_ms c) (rc_expiry_sweep_interval_ms c)
    (rc_native_executor_threads c) (rc_native_executor_queue_limit c) (rc_aof_writer_queue_limit
    c) (rc_aof_group_commit_delay_ms c) (rc_aof_group_commit_max_requests c) (rc_follow_host c)
    (rc_follow_port c) (rc_replication_credential c) (rc_replication_batch_size c)
    (rc_replication_reconnect_backoff_ms c) (rc_http_cors_enabled c)
    (rc_http_cors_allowed_origins c) (rc_http_cors_allowed_methods c)
    (rc_http_cors_allowed_headers c) (rc_http_cors_max_age_seconds c) (rc_http_max_body_bytes c)
    (rc_http_request_timeout_ms c) (rc_http_rate_limit_enabled c)
    (rc_http_rate_limit_requests_per_second c) (rc_http_rate_limit_burst c)
    (rc_http_principal_rate_limit_enabled c) (rc_http_principal_rate_limit_requests_per_second
    c) (rc_http_principal_rate_limit_burst c) (rc_logging_enabled c) (rc_log_format c)
    (rc_log_level c) (rc_log_destination c) (rc_log_file_path c) (rc_require_auth c) (rc_auth c)
    (rc_config_path c).

Definition with_webhook_retry_initial_backoff_ms (c : RuntimeConfig) (v : Z) : RuntimeConfig :=
  mkRuntime (rc_production_mode c) (rc_listen_addr c) (rc_capnp_enabled c) (rc_capnp_listen_addr
    c) (rc_server_id c) (rc_storage c) (rc_read_only c) (rc_command_timeouts c)
    (rc_subscriber_queue_capacity c) (rc_webhook_queue_path c) (rc_webhook_timeout_ms c)
    (rc_webhook_concurrency_limit c) (rc_webhook_retry_count c) v
    (rc_webhook_retry_max_backoff_ms c) (rc_webhook_lease_ms c) (rc_expiry_sweep_interval_ms c)
    (rc_native_executor_threads c) (rc_native_executor_queue_limit c) (rc_aof_writer_queue_limit
    c) (rc_aof_group_commit_delay_ms c) (rc_aof_group_commit_max_requests c) (rc_follow_host c)
    (rc_follow_port c) (rc_replication_credential c) (rc_replication_batch_size c)
    (rc_replication_reconnect_backoff_ms c) (rc_http_cors_enabled c)
    (rc_http_cors_allowed_origins c) (rc_http_cors_allowed_methods c)
    (rc_http_cors_allowed_headers c) (rc_http_cors_max_age_seconds c) (rc_http_max_body_bytes c)
    (rc_http_request_timeout_ms c) (rc_http_rate_limit_enabled c)
    (rc_http_rate_limit_requests_per_second c) (rc_http_rate_limit_burst c)
    (rc_http_principal_rate_limit_enabled c) (rc_http_principal_rate_limit_requests_per_second
    c) (rc_http_principal_rate_limit_burst c) (rc_logging_enabled c) (rc_log_format c)
    (rc_log_level c) (rc_log_destination c) (rc_log_file_path c) (rc_require_auth c) (rc_auth c)
    (rc_config_path c).

Definition with_webhook_retry_max_backoff_ms (c : RuntimeConfig) (v : Z) : RuntimeConfig :=
  mkRuntime (rc_production_mode c) (rc_listen_addr c) (rc_capnp_enabled c) (rc_capnp_listen_addr
    c) (rc_server_id c) (rc_storage c) (rc_read_only c) (rc_command_timeouts c)
    (rc_subscriber_queue_capacity c) (rc_webhook_queue_path c) (rc_webhook_timeout_ms c)
    (rc_webhook_concurrency_limit c) (rc_webhook_retry_count c)
    (rc_webhook_retry_initial_backoff_ms c) v (rc_webhook_lease_ms c)
    (rc_expiry_sweep_interval_ms c) (rc_native_executor_threads c)
    (rc_native_executor_queue_limit c) (rc_aof_writer_queue_limit c)
    (rc_aof_group_commit_delay_ms c) (rc_aof_group_commit_max_requests c) (rc_follow_host c)
    (rc_follow_port c) (rc_replication_credential c) (rc_replication_batch_size c)
    (rc_replication_reconnect_backoff_ms c) (rc_http_cors_enabled c)
    (rc_http_cors_allowed_origins c) (rc_http_cors_allowed_methods c)
    (rc_http_cors_allowed_headers c) (rc_http_cors_max_age_seconds c) (rc_http_max_body_bytes c)
    (rc_http_request_timeout_ms c) (rc_http_rate_limit_enabled c)
    (rc_http_rate_limit_requests_per_second c) (rc_http_rate_limit_burst c)
    (rc_http_principal_rate_limit_enabled c) (rc_http_principal_rate_limit_requests_per_second
    c) (rc_http_principal_rate_limit_burst c) (rc_logging_enabled c) (rc_log_format c)
    (rc_log_level c) (rc_log_destination c) (rc_log_file_path c) (rc_require_auth c) (rc_auth c)
    (rc_config_path c).

Definition with_webhook_lease_ms (c : RuntimeConfig) (v : Z) : RuntimeConfig :=
  mkRuntime (rc_production_mode c) (rc_listen_addr c) (rc_capnp_enabled c) (rc_capnp_listen_addr
    c) (rc_server_id c) (rc_storage c) (rc_read_only c) (rc_command_timeouts c)
    (rc_subscriber_queue_capacity c) (rc_webhook_queue_path c) (rc_webhook_timeout_ms c)
    (rc_webhook_concurrency_limit c) (rc_webhook_retry_count c)
    (rc_webhook_retry_initial_backoff_ms c) (rc_webhook_retry_max_backoff_ms c) v
    (rc_expiry_sweep_interval_ms c) (rc_native_executor_threads c)
    (rc_native_executor_queue_limit c) (rc_aof_writer_queue_limit c)
    (rc_aof_group_commit_delay_ms c) (rc_aof_group_commit_max_requests c) (rc_follow_host c)
    (rc_follow_port c) (rc_replication_credential c) (rc_replication_batch_size c)
    (rc_replication_reconnect_backoff_ms c) (rc_http_cors_enabled c)
    (rc_http_cors_allowed_origins c) (rc_http_cors_allowed_methods c)
    (rc_http_cors_allowed_headers c) (rc_http_cors_max_age_seconds c) (rc_http_max_body_bytes c)
    (rc_http_request_timeout_ms c) (rc_http_rate_limit_enabled c)
    (rc_http_rate_limit_requests_per_second c) (rc_http_rate_limit_burst c)
    (rc_http_principal_rate_limit_enabled c) (rc_http_principal_rate_limit_requests_per_second
    c) (rc_http_principal_rate_limit_burst c) (rc_logging_enabled c) (rc_log_format c)
    (rc_log_level c) (rc_log_destination c) (rc_log_file_path c) (rc_require_auth c) (rc_auth c)
    (rc_config_path c).

Definition with_follow_host (c : RuntimeConfig) (v : option string) : RuntimeConfig :=
  mkRuntime (rc_production_mode c) (rc_listen_addr c) (rc_capnp_enabled c) (rc_capnp_listen_addr
    c) (rc_server_id c) (rc_storage c) (rc_read_only c) (rc_command_timeouts c)
    (rc_subscriber_queue_capacity c) (rc_webhook_queue_path c) (rc_webhook_timeout_ms c)
    (rc_webhook_concurrency_limit c) (rc_webhook_retry_count c)
    (rc_webhook_retry_initial_backoff_ms c) (rc_webhook_retry_max_backoff_ms c)
    (rc_webhook_lease_ms c) (rc_expiry_sweep_interval_ms c) (rc_native_executor_threads c)
    (rc_native_executor_queue_limit c) (rc_aof_writer_queue_limit c)
    (rc_aof_group_commit_delay_ms c) (rc_aof_group_commit_max_requests c) v (rc_follow_port c)
    (rc_replication_credential c) (rc_replication_batch_size c)
    (rc_replication_reconnect_backoff_ms c) (rc_http_cors_enabled c)
    (rc_http_cors_allowed_origins c) (rc_http_cors_allowed_methods c)
    (rc_http_cors_allowed_headers c) (rc_http_cors_max_age_seconds c) (rc_http_max_body_bytes c)
    (rc_http_request_timeout_ms c) (rc_http_rate_limit_enabled c)
    (rc_http_rate_limit_requests_per_second c) (rc_http_rate_limit_burst c)
    (rc_http_principal_rate_limit_enabled c) (rc_http_principal_rate_limit_requests_per_second
    c) (rc_http_principal_rate_limit_burst c) (rc_logging_enabled c) (rc_log_format c)
    (rc_log_level c) (rc_log_destination c) (rc_log_file_path c) (rc_require_auth c) (rc_auth c)
    (rc_config_path c).

Definition with_follow_port (c : RuntimeConfig) (v : option Z) : RuntimeConfig :=
  mkRuntime (rc_production_mode c) (rc_listen_addr c) (rc_capnp_enabled c) (rc_capnp_listen_addr
    c) (rc_server_id c) (rc_storage c) (rc_read_only c) (rc_command_timeouts c)
    (rc_subscriber_queue_capacity c) (rc_webhook_queue_path c) (rc_webhook_timeout_ms c)
    (rc_webhook_concurrency_limit c) (rc_webhook_retry_count c)
    (rc_webhook_retry_initial_backoff_ms c) (rc_webhook_retry_max_backoff_ms c)
    (rc_webhook_lease_ms c) (rc_expiry_sweep_interval_ms c) (rc_native_executor_threads c)
    (rc_native_executor_queue_limit c) (rc_aof_writer_queue_limit c)
    (rc_aof_group_commit_delay_ms c) (rc_aof_group_commit_max_requests c) (rc_follow_host c) v
    (rc_replication_credential c) (rc_replication_batch_size c)
    (rc_replication_reconnect_backoff_ms c) (rc_http_cors_enabled c)
    (rc_http_cors_allowed_origins c) (rc_http_cors_allowed_methods c)
    (rc_http_cors_allowed_headers c) (rc_http_cors_max_age_seconds c) (rc_http_max_body_bytes c)
    (rc_http_request_timeout_ms c) (rc_http_rate_limit_enabled c)
    (rc_http_rate_limit_requests_per_second c) (rc_http_rate_limit_burst c)
    (rc_http_principal_rate_limit_enabled c) (rc_http_principal_rate_limit_requests_per_second
    c) (rc_http_principal_rate_limit_burst c) (rc_logging_enabled c) (rc_log_format c)
    (rc_log_level c) (rc_log_destination c) (rc_log_file_path c) (rc_require_auth c) (rc_auth c)
    (rc_config_path c).

Definition with_config_path (c : RuntimeConfig) (v : option string) : RuntimeConfig :=
  mkRuntime (rc_production_mode c) (rc_listen_addr c) (rc_capnp_enabled c) (rc_capnp_listen_addr
    c) (rc_server_id c) (rc_storage c) (rc_read_only c) (rc_command_timeouts c)
    (rc_subscriber_queue_capacity c) (rc_webhook_queue_path c) (rc_webhook_timeout_ms c)
    (rc_webhook_concurrency_limit c) (rc_webhook_retry_count c)
    (rc_webhook_retry_initial_backoff_ms c) (rc_webhook_retry_max_backoff_ms c)
    (rc_webhook_lease_ms c) (rc_expiry_sweep_interval_ms c) (rc_native_executor_threads c)
    (rc_native_executor_queue_limit c) (rc_aof_writer_queue_limit c)
    (rc_aof_group_commit_delay_ms c) (rc_aof_group_commit_max_requests c) (rc_follow_host c)
    (rc_follow_port c) (rc_replication_credential c) (rc_replication_batch_size c)
    (rc_replication_reconnect_backoff_ms c) (rc_http_cors_enabled c)
    (rc_http_cors_allowed_origins c) (rc_http_cors_allowed_methods c)
    (rc_http_cors_allowed_headers c) (rc_http_cors_max_age_seconds c) (rc_http_max_body_bytes c)
    (rc_http_request_timeout_ms c) (rc_http_rate_limit_enabled c)
    (rc_http_rate_limit_requests_per_second c) (rc_http_rate_limit_burst c)
    (rc_http_principal_rate_limit_enabled c) (rc_http_principal_rate_limit_requests_per_second
    c) (rc_http_principal_rate_limit_burst c) (rc_logging_enabled c) (rc_log_format c)
    (rc_log_level c) (rc_log_destination c) (rc_log_file_path c) (rc_require_auth c) (rc_auth c)
    v.

Definition runtime_timeout_for (c : RuntimeConfig) (command : string) : option f64 :=
  rc_command_timeouts c !! normalize_command_key command.

Definition runtime_set_timeout (c : RuntimeConfig) (command : string) (seconds : f64)
    : RuntimeConfig :=
  with_command_timeouts c
    (<[normalize_command_key command := fmax seconds fzero]> (rc_command_timeouts c)).

Definition runtime_clear_timeout (c : RuntimeConfig) (command : string) : RuntimeConfig :=
  with_command_timeouts c (delete (normalize_command_key command) (rc_command_timeouts c)).

Definition assign_path (c : RuntimeConfig) (path : option string) : RuntimeConfig :=
  with_config_path c path.

(** ** Checks at start-up *)

Inductive ConfigError : Type :=
  | MissingExtension
  | UnsupportedFormat (format : string)
  | ConfigIo (message : string)
  | ConfigParse (message : string)
  | ConfigValidation (message : string).

Definition blank (s : string) : bool := String.eqb (trim s) "".

Definition validate_positive (name : string) (value : Z) : result unit ConfigError :=
  if (value =? 0)%Z then Err (ConfigValidation (name +:+ " must be greater than zero")) else Ok tt.

Definition validate_non_empty_list (name : string) (values : list string)
    : result unit ConfigError :=
  if bool_decide (values = []) || existsb blank values
  then Err (ConfigValidation (name +:+ " must contain non-empty values")) else Ok tt.

Definition starts_with (prefix s : string) : bool :=
  bool_decide (is_Some (strip_prefix (bytes_of prefix) (bytes_of s))).

Definition jwt_configured (a : AuthConfig) : bool :=
  bool_decide (is_Some (ac_jwt_secret a)) || bool_decide (is_Some (ac_jwt_public_key_pem a)) ||
  bool_decide (is_Some (ac_jwks_url a)).

(** [Option<&str>::is_none_or(str::is_empty)]. *)
Definition none_or_empty (o : option string) : bool :=
  match o with None => true | Some s => String.eqb s "" end.

Definition warn_if (condition : bool) (message : string) : list string :=
  if condition then [message] else [].

Definition production_guardrail_warnings (c : RuntimeConfig) : list string :=
  let a := rc_auth c in
  warn_if (negb (rc_require_auth c)) "require_auth should be true" ++
  warn_if (bearer_enabled a && negb (jwt_configured a))
    "static bearer token is the only configured auth mechanism" ++
  warn_if (jwt_configured a && bool_decide (is_Some (ac_bearer_token a)) &&
           negb (ac_disable_bearer_token a))
    "static bearer token should be disabled when JWT/JWKS is configured" ++
  warn_if (match ac_jwks_url a with Some url => negb (starts_with "https://" url) | None => false end)
    "jwks_url should use https" ++
  warn_if (jwt_configured a && none_or_empty (ac_jwt_issuer a)) "jwt_issuer should be configured" ++
  warn_if (jwt_configured a && none_or_empty (ac_jwt_audience a))
    "jwt_audience should be configured" ++
  warn_if (rc_http_cors_enabled c && auth_enabled a &&
           existsb (λ origin, String.eqb (trim origin) "*") (rc_http_cors_allowed_origins c))
    "wildcard CORS origins should not be used with auth enabled" ++
  warn_if ((bool_decide (is_Some (rc_follow_host c)) || bool_decide (is_Some (rc_follow_port c))) &&
           match trim <$> rc_replication_credential c with
           | Some value => (String.length value <? 16)%nat
           | None => true
           end)
    "replication_credential should be at least 16 characters when following".

Fixpoint join (sep : string) (parts : list string) : string :=
  match parts with
  | [] => ""
  | [part] => part
  | part :: rest => part +:+ sep +:+ join sep rest
  end.

Definition fail_if (condition : bool) (message : string) : result unit ConfigError :=
  if condition then Err (ConfigValidation message) else Ok tt.

(** The numbers that must not be zero, in the order of the checks. *)
Definition positive_settings (c : RuntimeConfig) : list (string * Z) :=
  [("subscriber_queue_capacity", rc_subscriber_queue_capacity c);
   ("webhook_timeout_ms", rc_webhook_timeout_ms c);
   ("webhook_concurrency_limit", rc_webhook_concurrency_limit c);
   ("webhook_retry_initial_backoff_ms", rc_webhook_retry_initial_backoff_ms c);
   ("webhook_retry_max_backoff_ms", rc_webhook_retry_max_backoff_ms c);
   ("webhook_lease_ms", rc_webhook_lease_ms c);
   ("native_executor_threads", rc_native_executor_threads c);
   ("native_executor_queue_limit", rc_native_executor_queue_limit c);
   ("aof_writer_queue_limit", rc_aof_writer_queue_limit c);
   ("aof_group_commit_max_requests", rc_aof_group_commit_max_requests c);
   ("replication_batch_size", rc_replication_batch_size c);
   ("replication_reconnect_backoff_ms", rc_replication_reconnect_backoff_ms c);
   ("http_max_body_bytes", rc_http_max_body_bytes c);
   ("http_request_timeout_ms", rc_http_request_timeout_ms c);
   ("http_rate_limit_requests_per_second", rc_http_rate_limit_requests_per_second c);
   ("http_rate_limit_burst", rc_http_rate_limit_burst c);
   ("http_principal_rate_limit_requests_per_second",
     rc_http_principal_rate_limit_requests_per_second c);
   ("http_principal_rate_limit_burst", rc_http_principal_rate_limit_burst c)].

Fixpoint validate_all_positive (settings : list (string * Z)) : result unit ConfigError :=
  match settings with
  | [] => Ok tt
  | (name, value) :: rest => let? _ := validate_positive name value in validate_all_positive rest
  end.

Definition validate_follow (c : RuntimeConfig) : result unit ConfigError :=
  let together := Err (ConfigValidation "follow_host and follow_port must be configured together") in
  match rc_follow_host c, rc_follow_port c with
  | Some host, Some port =>
      if negb (blank host) && (0 <? port)%Z then
        fail_if (match rc_replication_credential c with Some value => blank value | None => true end)
          "replication_credential is required when follow_host/follow_port are configured"
      else together
  | None, None => Ok tt
  | _, _ => together
  end.

Definition bad_origin (value : string) : bool :=
  let trimmed := trim value in
  String.eqb trimmed "" || (negb (String.eqb trimmed "*") && negb (str_contains "://" trimmed)).

Definition validate_cors (c : RuntimeConfig) : result unit ConfigError :=
  if rc_http_cors_enabled c then
    let? _ := fail_if (bool_decide (rc_http_cors_allowed_origins c = []))
                "http_cors_allowed_origins must not be empty when CORS is enabled" in
    let? _ := validate_non_empty_list "http_cors_allowed_methods" (rc_http_cors_allowed_methods c) in
    let? _ := validate_non_empty_list "http_cors_allowed_headers" (rc_http_cors_allowed_headers c) in
    fail_if (existsb bad_origin (rc_http_cors_allowed_origins c))
      "http_cors_allowed_origins entries must be '*' or absolute origins"
  else Ok tt.

Definition validate_logging (c : RuntimeConfig) : result unit ConfigError :=
  let? _ :=
    fail_if (rc_logging_enabled c &&
             match rc_log_destination c with LogFile => true | _ => false end &&
             none_or_empty (rc_log_file_path c))
      "log_file_path is required when log_destination is file" in
  fail_if (rc_logging_enabled c && blank (rc_log_level c))
    "log_level must not be empty when logging is enabled".

Definition validate_for_startup (c : RuntimeConfig) : result unit ConfigError :=
  let? _ := map_err (λ e, ConfigValidation (auth_error_text e)) (auth_validate (rc_auth c)) in
  let? _ := fail_if (rc_require_auth c && negb (auth_enabled (rc_auth c)))
              "require_auth is enabled, but no bearer token or JWT verifier is configured" in
  let? _ := fail_if (blank (rc_listen_addr c)) "listen_addr must not be empty" in
  let? _ := fail_if (rc_capnp_enabled c && blank (rc_capnp_listen_addr c))
              "capnp_listen_addr must not be empty" in
  let? _ := fail_if (blank (rc_server_id c)) "server_id must not be empty" in
  let? _ := validate_all_positive (positive_settings c) in
  let? _ := fail_if (rc_webhook_retry_max_backoff_ms c <? rc_webhook_retry_initial_backoff_ms c)%Z
              ("webhook_retry_max_backoff_ms must be greater than or equal to " +:+
               "webhook_retry_initial_backoff_ms") in
  let? _ := validate_follow c in
  let? _ := validate_cors c in
  let? _ := validate_logging c in
  let warnings := production_guardrail_warnings c in
  fail_if (rc_production_mode c && negb (bool_decide (warnings = [])))
    ("production guardrails failed: " +:+ join "; " warnings).

(** ** Configuration files *)

(** The [serde_json] and [toml] crates on configurations: [None] is a text
    they refuse or a value they cannot write. *)
Class ConfigText := {
  render_json : RuntimeConfig → result string string;
  render_toml : RuntimeConfig → result string string;
  parse_json : string → result RuntimeConfig string;
  parse_toml : string → result RuntimeConfig string
}.

(** The parts of a path, without empty and [.] ones, as [std::path] sees them. *)
Fixpoint path_parts (l current : list ascii) : list (list ascii) :=
  match l with
  | [] => [current]
  | c :: l' =>
      if Ascii.eqb c "/"%char then current :: path_parts l' []
      else path_parts l' (current ++ [c])
  end.

Definition path_components (path : string) : list (list ascii) :=
  filter (λ part, part ≠ [] ∧ part ≠ bytes_of ".") (path_parts (bytes_of path) []).

(** The bytes after the last dot, and the ones before it. *)
Fixpoint rsplit_dot (l : list ascii) : option (list ascii * list ascii) :=
  match l with
  | [] => None
  | c :: l' =>
      match rsplit_dot l' with
      | Some (before, after) => Some (c :: before, after)
      | None => if Ascii.eqb c "."%char then Some ([], l') else None
      end
  end.

(** [Path::extension]: a name that starts with its only dot has none. *)
Definition path_extension (path : string) : option string :=
  name ← last (path_components path);
  if bool_decide (name = bytes_of "..") then None
  else
    '(before, after) ← rsplit_dot name;
    if bool_decide (before = []) then None else Some (of_bytes after).

Definition extension (path : string) : result string ConfigError :=
  ok_or (path_extension path) MissingExtension.

(** [Path::parent] is there and not empty. *)
Definition has_parent (path : string) : bool :=
  (2 <=? length (path_components path))%nat ||
  (starts_with "/" path && (1 <=? length (path_components path))%nat).

Section Files.
Context `{CT : ConfigText}.

(** What the file system answers.  [std::fs::write] opens and truncates the
    file, then writes: it fails at the opening, or after some bytes. *)
Inductive WriteFault : Type :=
  | OpenFails (error : string)
  | WriteFails (kept : nat) (error : string).

Record DiskFaults := mkDiskFaults {
  df_create_dir : option string;
  df_write : option WriteFault
}.

Definition config_io (fault : option string) : result unit ConfigError :=
  match fault with Some error => Err (ConfigIo error) | None => Ok tt end.

Definition fs_write (fault : option WriteFault) (path contents : string)
    (files : gmap string string) : gmap string string * result unit ConfigError :=
  match fault with
  | Some (OpenFails error) => (files, Err (ConfigIo error))
  | Some (WriteFails kept error) =>
      (<[path := of_bytes (take kept (bytes_of contents))]> files, Err (ConfigIo error))
  | None => (<[path := contents]> files, Ok tt)
  end.

Definition render_config (path : string) (c : RuntimeConfig) : result string ConfigError :=
  let? ext := extension path in
  if String.eqb ext "json" then map_err ConfigParse (render_json c)
  else if String.eqb ext "toml" then map_err ConfigParse (render_toml c)
  else Err (UnsupportedFormat ext).

Definition save_to_path (faults : DiskFaults) (c : RuntimeConfig) (path : string)
    (files : gmap string string) : gmap string string * result unit ConfigError :=
  match (if has_parent path then config_io (df_create_dir faults) else Ok tt) with
  | Err e => (files, Err e)
  | Ok _ =>
      match render_config path (with_config_path c None) with
      | Err e => (files, Err e)
      | Ok rendered => fs_write (df_write faults) path rendered files
      end
  end.

Definition load_from_path (files : gmap string string) (path : string)
    : result RuntimeConfig ConfigError :=
  let? raw := ok_or (files !! path) (ConfigIo "entity not found") in
  let? ext := extension path in
  let? c := if String.eqb ext "json" then map_err ConfigParse (parse_json raw)
            else if String.eqb ext "toml" then map_err ConfigParse (parse_toml raw)
            else Err (UnsupportedFormat ext) in
  Ok (with_config_path c (Some path)).

End Files.
