(* ===== verification/ConfigSpec.v ===== *)
(** * What a configuration that starts guarantees

    To the authenticator, the replication manager, the outbox and the rate
    limiters; and what production mode adds. *)

From Stdlib Require Import ZArith Lia SpecFloat.
From stdpp Require Import base gmap strings list.
From S2P Require Import Prelude Storage F64 Json Platform Geo Strings Index IndexSpec Geofence.
From S2P Require Import Collection Engine StorageMemory Recovery Replication Auth AuthSpec Config.

Lemma fail_if_Ok b m : fail_if b m = Ok tt ↔ b = false.
Proof. by destruct b. Qed.

Lemma rbind_Ok {A B E} (r : result A E) (k : A → result B E) b :
  rbind r k = Ok b ↔ ∃ a, r = Ok a ∧ k a = Ok b.
Proof. destruct r as [a|e]; simpl; naive_solver. Qed.

Lemma validate_all_positive_Ok l :
  validate_all_positive l = Ok tt ↔ Forall (λ s, s.2 ≠ 0%Z) l.
Proof.
  induction l as [|[n v] l IH]; cbn [validate_all_positive]; [by split|].
  rewrite rbind_Ok, Forall_cons, <-IH. unfold validate_positive. simpl.
  destruct (Z.eqb_spec v 0); split; naive_solver.
Qed.

(** The checks, one by one. *)
Record startup_checked (c : RuntimeConfig) : Prop := mkChecked {
  sc_auth : auth_validate (rc_auth c) = Ok tt;
  sc_require : rc_require_auth c = true → auth_enabled (rc_auth c) = true;
  sc_listen : blank (rc_listen_addr c) = false;
  sc_server : blank (rc_server_id c) = false;
  sc_positive : Forall (λ s, s.2 ≠ 0%Z) (positive_settings c);
  sc_backoff : (rc_webhook_retry_initial_backoff_ms c ≤ rc_webhook_retry_max_backoff_ms c)%Z;
  sc_follow : validate_follow c = Ok tt;
  sc_cors : validate_cors c = Ok tt;
  sc_logging : validate_logging c = Ok tt;
  sc_production : rc_production_mode c = true → production_guardrail_warnings c = []
}.

Lemma startup_checks c : validate_for_startup c = Ok tt → startup_checked c.
Proof.
  unfold validate_for_startup. destruct (auth_validate (rc_auth c)) as [[]|] eqn:Ha; [|done].
  cbn [map_err rbind].
  rewrite !rbind_Ok.
  intros ([] & Hreq%fail_if_Ok & Hl). apply rbind_Ok in Hl as ([] & Hl%fail_if_Ok & Hr).
  apply rbind_Ok in Hr as ([] & _ & Hr). apply rbind_Ok in Hr as ([] & Hs%fail_if_Ok & Hr).
  apply rbind_Ok in Hr as ([] & Hp%validate_all_positive_Ok & Hr).
  apply rbind_Ok in Hr as ([] & Hb%fail_if_Ok & Hr).
  apply rbind_Ok in Hr as ([] & Hf & Hr). apply rbind_Ok in Hr as ([] & Hc & Hr).
  apply rbind_Ok in Hr as ([] & Hg & Hw%fail_if_Ok).
  split; try done.
  - intros H. rewrite H in Hreq. by destruct (auth_enabled _).
  - by apply Z.ltb_ge.
  - intros H. rewrite H in Hw. cbn [andb] in Hw. apply negb_false_iff in Hw.
    by apply bool_decide_eq_true in Hw.
Qed.

(** The settings the replication manager reads. *)
Definition follow_settings (c : RuntimeConfig) : FollowSettings :=
  mkSettings (rc_read_only c) (rc_follow_host c) (rc_follow_port c) (rc_replication_credential c)
    (Z.to_nat (rc_replication_batch_size c)).

Lemma follow_checked c : validate_follow c = Ok tt →
  (is_Some (configured_follow_target (follow_settings c)) ↔ is_Some (rc_follow_host c)) ∧
  (is_Some (rc_follow_host c) →
     is_ok (configured_replication_credential (follow_settings c)) = true).
Proof.
  unfold validate_follow, configured_follow_target, configured_replication_credential, is_blank.
  fold (blank). cbn [fs_follow_host fs_follow_port fs_replication_credential follow_settings].
  destruct (rc_follow_host c) as [host|], (rc_follow_port c) as [port|]; simpl; try done.
  unfold blank. destruct (negb _ && _); [|done]. intros Hcred%fail_if_Ok.
  split; [done|]. intros _. destruct (rc_replication_credential c); [|done]. by rewrite Hcred.
Qed.

Section Startup.
Context `{LM : Libm} `{GC : GeoCrate} `{RC : RTreeCrate} `{JT : JsonText} `{PT : Patterns}
  `{HO : HashOrder} `{LC : LogCodec} `{MD : Md5} `{B64 : Base64} `{JW : JwtCrate}.
Context {S : Type} `{SB : StorageBackend S}.

(** The numbers of a configuration are unsigned integers. *)
Definition unsigned (c : RuntimeConfig) : Prop :=
  (0 ≤ rc_subscriber_queue_capacity c)%Z ∧
  (0 ≤ rc_webhook_timeout_ms c)%Z ∧
  (0 ≤ rc_webhook_concurrency_limit c)%Z ∧
  (0 ≤ rc_webhook_retry_initial_backoff_ms c)%Z ∧
  (0 ≤ rc_webhook_retry_max_backoff_ms c)%Z ∧
  (0 ≤ rc_webhook_lease_ms c)%Z ∧
  (0 ≤ rc_native_executor_threads c)%Z ∧
  (0 ≤ rc_native_executor_queue_limit c)%Z ∧
  (0 ≤ rc_aof_writer_queue_limit c)%Z ∧
  (0 ≤ rc_aof_group_commit_max_requests c)%Z ∧
  (0 ≤ rc_replication_batch_size c)%Z ∧
  (0 ≤ rc_replication_reconnect_backoff_ms c)%Z ∧
  (0 ≤ rc_http_max_body_bytes c)%Z ∧
  (0 ≤ rc_http_request_timeout_ms c)%Z ∧
  (0 ≤ rc_http_rate_limit_requests_per_second c)%Z ∧
  (0 ≤ rc_http_rate_limit_burst c)%Z ∧
  (0 ≤ rc_http_principal_rate_limit_requests_per_second c)%Z ∧
  (0 ≤ rc_http_principal_rate_limit_burst c)%Z.

(** The bounds the server divides by, waits for and sizes its queues with. *)
Definition bounds_positive (c : RuntimeConfig) : Prop :=
  (0 < rc_subscriber_queue_capacity c)%Z ∧
  (0 < rc_webhook_timeout_ms c)%Z ∧
  (0 < rc_webhook_concurrency_limit c)%Z ∧
  (0 < rc_webhook_retry_initial_backoff_ms c)%Z ∧
  (0 < rc_webhook_retry_max_backoff_ms c)%Z ∧
  (0 < rc_webhook_lease_ms c)%Z ∧
  (0 < rc_native_executor_threads c)%Z ∧
  (0 < rc_native_executor_queue_limit c)%Z ∧
  (0 < rc_aof_writer_queue_limit c)%Z ∧
  (0 < rc_aof_group_commit_max_requests c)%Z ∧
  (0 < rc_replication_batch_size c)%Z ∧
  (0 < rc_replication_reconnect_backoff_ms c)%Z ∧
  (0 < rc_http_max_body_bytes c)%Z ∧
  (0 < rc_http_request_timeout_ms c)%Z ∧
  (0 < rc_http_rate_limit_requests_per_second c)%Z ∧
  (0 < rc_http_rate_limit_burst c)%Z ∧
  (0 < rc_http_principal_rate_limit_requests_per_second c)%Z ∧
  (0 < rc_http_principal_rate_limit_burst c)%Z.

Lemma checked_bounds_positive c : unsigned c → startup_checked c → bounds_positive c.
Proof.
  intros Hu Hc. pose proof (sc_positive c Hc) as Hnz. unfold positive_settings in Hnz.
  rewrite !Forall_cons in Hnz. cbn [snd] in Hnz.
  unfold unsigned in Hu. unfold bounds_positive. intuition lia.
Qed.

(** C29: a configuration of unsigned numbers that passes the checks at start-up
    is what the rest of the server takes for granted: an authenticator can be
    built from it, and one that demands a token when authentication is
    required; the capacity of the subscriber queue, the timeout, concurrency,
    backoff and lease of webhooks, the threads and queue of the executor, the
    queue and group of the log writer, the batch size and backoff of
    replication, the body size and time of a request and both rate limits
    are all positive; the first webhook backoff is not above the largest; the
    server starts as a follower exactly when a host to follow is configured,
    with a credential to show. *)
Theorem startup_config_well_formed (c : RuntimeConfig) (db : LatLng S)
    (Hunsigned : unsigned c) (Hok : validate_for_startup c = Ok tt) :
  (∃ a, authenticator (rc_auth c) = Ok a ∧
     (rc_require_auth c = true → ∀ env, (authenticate a env None).2 = Err Unauthorized)) ∧
  bounds_positive c ∧
  (rc_webhook_retry_initial_backoff_ms c ≤ rc_webhook_retry_max_backoff_ms c)%Z ∧
  (is_follower (mg_status (start_replication_manager (follow_settings c) (rc_server_id c) db)) = true
     ↔ is_Some (rc_follow_host c)) ∧
  (is_Some (rc_follow_host c) →
     is_ok (configured_replication_credential (follow_settings c)) = true).
Proof.
  pose proof (startup_checks c Hok) as Hc.
  destruct (follow_checked c (sc_follow c Hc)) as [Hrole Hcred].
  split_and!; [|by apply checked_bounds_positive|apply Hc| |done].
  - unfold authenticator. rewrite (sc_auth c Hc). eexists. split; [done|].
    intros Hreq env. unfold authenticate. cbn [au_config]. by rewrite (sc_require c Hc Hreq).
  - rewrite <-Hrole. unfold start_replication_manager.
    destruct (configured_follow_target _); simpl; [by split|]. by split; [|intros []].
Qed.

(** The defaults pass the checks at start-up. *)
Theorem default_config_starts (server_id : string) (parallelism : option Z)
    (Hid : blank server_id = false) :
  validate_for_startup (default_runtime_config server_id parallelism) = Ok tt.
Proof.
  assert (validate_all_positive (positive_settings (default_runtime_config server_id parallelism))
          = Ok tt) as Hp.
  { apply validate_all_positive_Ok. unfold positive_settings, default_runtime_config.
    repeat (constructor; [cbn -[Z.max Z.min]; try done|]); [..|constructor];
      unfold default_native_executor_queue_limit, default_native_executor_threads; lia. }
  unfold validate_for_startup. rewrite Hp. cbn [rc_server_id default_runtime_config].
  rewrite Hid. reflexivity.
Qed.

Lemma warn_if_nil b m : warn_if b m = [] ↔ b = false.
Proof. by destruct b. Qed.

(** Everything the guard rails rule out. *)
Lemma guardrails_quiet c : production_guardrail_warnings c = [] →
  rc_require_auth c = true ∧ bearer_enabled (rc_auth c) = false ∧
  (∀ url, ac_jwks_url (rc_auth c) = Some url → starts_with "https://" url = true) ∧
  (jwt_configured (rc_auth c) = true →
     none_or_empty (ac_jwt_issuer (rc_auth c)) = false ∧
     none_or_empty (ac_jwt_audience (rc_auth c)) = false).
Proof.
  unfold production_guardrail_warnings. cbv zeta.
  rewrite !app_nil, !warn_if_nil. intros (Hr & Hb & Hj & Hu & Hi & Ha & _).
  apply negb_false_iff in Hr. split; [done|]. split; [|split].
  - unfold bearer_enabled in *. destruct (ac_disable_bearer_token (rc_auth c)); [done|].
    destruct (bool_decide (is_Some (ac_bearer_token (rc_auth c)))); [|done].
    destruct (jwt_configured (rc_auth c)); done.
  - intros url Hurl. rewrite Hurl in Hu. by apply negb_false_iff.
  - intros Hjwt. rewrite Hjwt in Hi, Ha. done.
Qed.

Lemma source_configured a kind : jwt_source_kind a = Some kind → jwt_configured a = true.
Proof.
  unfold jwt_source_kind, jwt_configured. repeat case_bool_decide; done.
Qed.

(** C30: in production mode nobody gets in without a verified token: a server
    that started in production mode authenticates a caller only by a token
    that the configured source verifies, under a required non-empty issuer and
    audience; the service token and open access are out, and a key server is
    only ever spoken to over https. *)
Theorem production_needs_verified_token (c : RuntimeConfig) (a a' : Authenticator) (t : Z)
    (h : list (Z * JwkSet)) (env : AuthEnv) (token : option string) (p : AuthPrincipal)
    (Hstart : validate_for_startup c = Ok tt) (Hproduction : rc_production_mode c = true)
    (Hrun : auth_run (rc_auth c) a t h) (Hclock : clock_ok t env)
    (Hok : authenticate a env token = (a', Ok p)) :
  (∃ tok kind alg key value iss aud,
     token = Some tok ∧ trusted (rc_auth c) h env tok kind alg key ∧ fits kind alg = true ∧
     ac_jwt_issuer (rc_auth c) = Some iss ∧ iss ≠ "" ∧
     ac_jwt_audience (rc_auth c) = Some aud ∧ aud ≠ "" ∧
     jwt_decode (env_now env) tok key
       (mkValidation alg (ac_jwt_leeway_seconds (rc_auth c)) (Some iss) (Some aud)) = Some value) ∧
  (∀ url, ac_jwks_url (rc_auth c) = Some url → starts_with "https://" url = true).
Proof.
  pose proof (startup_checks c Hstart) as Hc.
  destruct (guardrails_quiet c (sc_production c Hc Hproduction)) as (Hreq & Hb & Hurl & Hjwt).
  pose proof (authenticate_spec (rc_auth c) h a t env token (auth_run_ok _ _ _ _ Hrun) Hclock)
    as [_ Hj]. rewrite Hok in Hj. cbn [snd] in Hj. split; [|done].
  destruct Hj as [[Hoff _]|[[Hon _]|(tok & kind & alg & key & value & payload & -> & Hk & _ & Hfit & Htr & Hd & _)]].
  - by rewrite (sc_require c Hc Hreq) in Hoff.
  - by rewrite Hb in Hon.
  - destruct (Hjwt (source_configured _ _ Hk)) as [Hi Ha].
    unfold none_or_empty in Hi, Ha.
    destruct (ac_jwt_issuer (rc_auth c)) as [iss|]; [|done].
    destruct (ac_jwt_audience (rc_auth c)) as [aud|]; [|done].
    apply String.eqb_neq in Hi, Ha. exists tok, kind, alg, key, value, iss, aud. done.
Qed.

End Startup.

(** ** Concrete configurations *)

Module ConfigWitness.
Import ListTree PlainText Memory.
#[local] Existing Instance AuthWitness.crate.
#[local] Existing Instance RecoveryWitness.md5.

Definition defaults : RuntimeConfig := default_runtime_config "node-1" (Some 8%Z).

Lemma default_config_starts_witness : validate_for_startup defaults = Ok tt.
Proof. apply (default_config_starts "node-1" (Some 8%Z)). reflexivity. Defined.

Lemma startup_config_well_formed_witness :
  bounds_positive defaults ∧
  (is_follower (mg_status (start_replication_manager (follow_settings defaults)
     (rc_server_id defaults) RecoveryWitness.db0)) = true ↔ is_Some (rc_follow_host defaults)).
Proof.
  destruct (startup_config_well_formed defaults RecoveryWitness.db0)
    as (_ & Hpos & _ & Hrole & _).
  - repeat split; vm_compute; discriminate.
  - vm_compute. reflexivity.
  - split; assumption.
Defined.

Definition production_auth : AuthConfig :=
  mkAuthConfig None true None (Some "rsa-1") (Some "https://id") (Some "latlng") None None None
    300 3600 3000 0.
Definition production : RuntimeConfig := {|
  rc_production_mode := true;
  rc_listen_addr := "0.0.0.0:7421";
  rc_capnp_enabled := false;
  rc_capnp_listen_addr := "";
  rc_server_id := "node-1";
  rc_storage := StorageAof "/var/lib/latlng";
  rc_read_only := false;
  rc_command_timeouts := ∅;
  rc_subscriber_queue_capacity := 16;
  rc_webhook_queue_path := None;
  rc_webhook_timeout_ms := 5000;
  rc_webhook_concurrency_limit := 8;
  rc_webhook_retry_count := 8;
  rc_webhook_retry_initial_backoff_ms := 200;
  rc_webhook_retry_max_backoff_ms := 30000;
  rc_webhook_lease_ms := 30000;
  rc_expiry_sweep_interval_ms := 100;
  rc_native_executor_threads := 4;
  rc_native_executor_queue_limit := 256;
  rc_aof_writer_queue_limit := 4096;
  rc_aof_group_commit_delay_ms := 1;
  rc_aof_group_commit_max_requests := 128;
  rc_follow_host := None;
  rc_follow_port := None;
  rc_replication_credential := None;
  rc_replication_batch_size := 512;
  rc_replication_reconnect_backoff_ms := 1000;
  rc_http_cors_enabled := false;
  rc_http_cors_allowed_origins := [];
  rc_http_cors_allowed_methods := [];
  rc_http_cors_allowed_headers := [];
  rc_http_cors_max_age_seconds := None;
  rc_http_max_body_bytes := 1048576;
  rc_http_request_timeout_ms := 30000;
  rc_http_rate_limit_enabled := true;
  rc_http_rate_limit_requests_per_second := 1000;
  rc_http_rate_limit_burst := 1000;
  rc_http_principal_rate_limit_enabled := true;
  rc_http_principal_rate_limit_requests_per_second := 100;
  rc_http_principal_rate_limit_burst := 200;
  rc_logging_enabled := true;
  rc_log_format := LogJson;
  rc_log_level := "info";
  rc_log_destination := Stderr;
  rc_log_file_path := None;
  rc_require_auth := true;
  rc_auth := production_auth;
  rc_config_path := None
|}.
Definition gate : Authenticator := mkAuthenticator production_auth false None.

Lemma production_needs_verified_token_witness :
  ∃ tok kind alg key value iss aud,
    Some "rotated" = Some tok ∧
    trusted production_auth [] (AuthWitness.env_at 0) tok kind alg key ∧ fits kind alg = true ∧
    ac_jwt_issuer production_auth = Some iss ∧ iss ≠ "" ∧
    ac_jwt_audience production_auth = Some aud ∧ aud ≠ "" ∧
    jwt_decode 0 tok key (mkValidation alg 0 (Some iss) (Some aud)) = Some value.
Proof.
  eapply (production_needs_verified_token production gate gate 0 [] (AuthWitness.env_at 0)
            (Some "rotated")).
  - vm_compute. reflexivity.
  - reflexivity.
  - apply auth_start. reflexivity.
  - by split_and!.
  - apply pair_with_snd. vm_compute. reflexivity.
Defined.

End ConfigWitness.
