(* ===== verification/RateLimit.v ===== *)
(** * Rate limiting and request gates ([crates/latlng-http/src/middleware.rs])

    Token buckets, one for the server and one per principal, with the bounded
    table of buckets, and the middleware that consults them.  An instant is a
    number of nanoseconds; the states behind the mutexes are passed along. *)

From Stdlib Require Import ZArith Lia SpecFloat.
From stdpp Require Import base gmap strings list sorting.
From S2P Require Import Prelude Storage F64 Json Strings Index Auth.

(** ** Buckets *)

Record RateLimitState := mkBucket {
  tokens : f64;
  last_refill : Z
}.

(** [now.duration_since(earlier)], which is zero when [earlier] is later. *)
Definition duration_since (now earlier : Z) : Z := Z.max (now - earlier) 0.

(** [Duration::as_secs_f64]. *)
Definition as_secs_f64 (nanos : Z) : f64 :=
  fadd (f64_of_Z (nanos / 1000000000))
       (fdiv (f64_of_Z (nanos mod 1000000000)) (f64_of_Z 1000000000)).

Definition fone : f64 := f64_of_Z 1.

Definition allow_bucket (bucket : RateLimitState) (now : Z) (capacity refill_per_second : f64)
    : RateLimitState * bool :=
  let elapsed := as_secs_f64 (duration_since now (last_refill bucket)) in
  let filled := fmin (fadd (tokens bucket) (fmul elapsed refill_per_second)) capacity in
  if SFleb fone filled then (mkBucket (fsub filled fone) now, true)
  else (mkBucket filled now, false).

Record GlobalRateLimiter := mkGlobalLimiter {
  gl_state : RateLimitState;
  gl_capacity : f64;
  gl_refill_per_second : f64
}.

Definition global_limiter (requests_per_second burst now : Z) : GlobalRateLimiter :=
  let capacity := f64_of_Z (Z.max burst 1) in
  mkGlobalLimiter (mkBucket capacity now) capacity (f64_of_Z (Z.max requests_per_second 1)).

(** [GlobalRateLimiter::allow] repeats the body of [allow_bucket]. *)
Definition global_allow (l : GlobalRateLimiter) (now : Z) : GlobalRateLimiter * bool :=
  let '(state, ok) := allow_bucket (gl_state l) now (gl_capacity l) (gl_refill_per_second l) in
  (mkGlobalLimiter state (gl_capacity l) (gl_refill_per_second l), ok).

(** ** Buckets of principals *)

Record PrincipalRateLimitState := mkBuckets {
  buckets : gmap string RateLimitState;
  last_cleanup : Z
}.

Definition seconds (n : Z) : Z := n * 1000000000.
Definition PRINCIPAL_BUCKET_IDLE_TTL : Z := seconds (10 * 60).
Definition PRINCIPAL_BUCKET_CLEANUP_INTERVAL : Z := seconds 60.
Definition PRINCIPAL_BUCKET_MAX_BUCKETS : nat := Z.to_nat 16384.

Record PrincipalRateLimiter := mkPrincipalLimiter {
  pl_state : PrincipalRateLimitState;
  pl_capacity : f64;
  pl_refill_per_second : f64
}.

Definition principal_limiter (requests_per_second burst now : Z) : PrincipalRateLimiter :=
  mkPrincipalLimiter (mkBuckets ∅ now) (f64_of_Z (Z.max burst 1))
    (f64_of_Z (Z.max requests_per_second 1)).

Section Principals.
Context `{HO : HashOrder}.

Definition refill_le (p q : string * RateLimitState) : Prop :=
  (last_refill p.2 ≤ last_refill q.2)%Z.

#[local] Instance refill_le_dec p q : Decision (refill_le p q).
Proof. unfold refill_le. apply _. Defined.

(** [sort_unstable_by_key] leaves the order of equal keys open; a sort of the
    map's own order is one of the orders it may give. *)
Definition oldest (m : gmap string RateLimitState) : list string :=
  (merge_sort refill_le (hash_iter m)).*1.

Definition cleanup_principal_buckets (s : PrincipalRateLimitState) (now : Z)
    : PrincipalRateLimitState :=
  let kept := filter (λ kb : string * RateLimitState,
                (duration_since now (last_refill kb.2) < PRINCIPAL_BUCKET_IDLE_TTL)%Z) (buckets s) in
  let kept :=
    if (PRINCIPAL_BUCKET_MAX_BUCKETS <? size kept)%nat then
      foldl (λ m key, delete key m) kept
        (take (size kept - PRINCIPAL_BUCKET_MAX_BUCKETS) (oldest kept))
    else kept in
  mkBuckets kept now.

Definition principal_allow (l : PrincipalRateLimiter) (key : string) (now : Z)
    : PrincipalRateLimiter * bool :=
  let s := pl_state l in
  let s :=
    if (PRINCIPAL_BUCKET_CLEANUP_INTERVAL <=? duration_since now (last_cleanup s))%Z ||
       (PRINCIPAL_BUCKET_MAX_BUCKETS <? size (buckets s))%nat
    then cleanup_principal_buckets s now else s in
  let bucket := default (mkBucket (pl_capacity l) now) (buckets s !! key) in
  let '(bucket, ok) := allow_bucket bucket now (pl_capacity l) (pl_refill_per_second l) in
  (mkPrincipalLimiter (mkBuckets (<[key := bucket]> (buckets s)) (last_cleanup s))
     (pl_capacity l) (pl_refill_per_second l), ok).

End Principals.

(** ** Middleware *)

(** What a layer of the stack decides before the handler. *)
Inductive Gate : Type :=
  | Pass (principal : option AuthPrincipal)
  | TooLarge
  | RateLimited (message : string)
  | Refused (error : HttpError).

Definition gate_status (g : Gate) : option Z :=
  match g with
  | Pass _ => None
  | TooLarge => Some 413%Z
  | RateLimited _ => Some 429%Z
  | Refused e => Some (http_status e)
  end.

(** [content_length] is the header when it is there, visible and a number. *)
Definition max_body_size_middleware (max_body_bytes : Z) (content_length : option Z) : Gate :=
  match content_length with
  | Some length => if (max_body_bytes <? length)%Z then TooLarge else Pass None
  | None => Pass None
  end.

Definition rate_limit_middleware (l : GlobalRateLimiter) (now : Z) : GlobalRateLimiter * Gate :=
  let '(l, ok) := global_allow l now in
  (l, if ok then Pass None else RateLimited "global rate limit exceeded").

Section Stack.
Context `{HO : HashOrder} `{JW : JwtCrate}.

(** The principal is authenticated once, here, and handed to the handler. *)
Definition principal_rate_limit_middleware (l : PrincipalRateLimiter) (a : Authenticator)
    (env : AuthEnv) (header : option string) (now : Z)
    : PrincipalRateLimiter * Authenticator * Gate :=
  match authenticate a env (header ≫= extract_bearer_token) with
  | (a, Ok principal) =>
      let '(l, ok) := principal_allow l (rate_limit_key principal) now in
      (l, a, if ok then Pass (Some principal) else RateLimited "principal rate limit exceeded")
  | (a, Err error) =>
      let '(l, ok) := principal_allow l (rate_limit_key anonymous) now in
      (l, a, if ok then Refused (http_auth_error error)
             else RateLimited "principal rate limit exceeded")
  end.

End Stack.
