(* ===== verification/RateLimitSpec.v ===== *)
(** * What the rate limiters promise

    At one instant a bucket lets exactly its burst through, in exact integers
    although it counts in floats; principals do not spend each other's
    tokens; the table of buckets is bounded. *)

From Stdlib Require Import ZArith Lia SpecFloat.
From stdpp Require Import base gmap strings list sorting.
From S2P Require Import Prelude Storage F64 F64Ints Json Strings Index IndexSpec Auth RateLimit.

(** ** One bucket at one instant *)

Lemma no_time t r : (0 < r < 2 ^ prec)%Z →
  fmul (as_secs_f64 (duration_since t t)) (f64_of_Z r) = S754_zero false.
Proof.
  intros Hr. unfold duration_since. rewrite Z.sub_diag.
  change (as_secs_f64 (Z.max 0 0)) with (S754_zero false).
  destruct r as [|p|]; [lia| |lia]. by rewrite of_Z_exact by lia.
Qed.

Lemma add_nothing n : (0 ≤ n < 2 ^ prec)%Z → fadd (f64_of_Z n) (S754_zero false) = f64_of_Z n.
Proof. intros Hn. destruct n as [|p|]; [done| |lia]. by rewrite of_Z_exact by lia. Qed.

Lemma min_below n b : (0 ≤ n ≤ b)%Z → (b < 2 ^ prec)%Z → fmin (f64_of_Z n) (f64_of_Z b) = f64_of_Z n.
Proof.
  intros Hn Hb. unfold fmin. rewrite !of_Z_finite by lia.
  rewrite SFltb_leb, of_Z_leb by (lia || apply of_Z_finite; lia).
  by destruct (Z.leb_spec n b); [|lia].
Qed.

Lemma allow_instant t n b r : (0 ≤ n ≤ b)%Z → (b < 2 ^ prec)%Z → (0 < r < 2 ^ prec)%Z →
  allow_bucket (mkBucket (f64_of_Z n) t) t (f64_of_Z b) (f64_of_Z r) =
  (mkBucket (f64_of_Z (Z.max (n - 1) 0)) t, (1 <=? n)%Z).
Proof.
  intros Hn Hb Hr. unfold allow_bucket. cbn [tokens last_refill].
  rewrite no_time, add_nothing, min_below by lia. unfold fone. rewrite of_Z_leb by lia.
  destruct (Z.leb_spec 1 n) as [H1|H0].
  - destruct n as [|p|]; [lia| |lia]. rewrite of_Z_pred by lia.
    by replace (Z.max (Zpos p - 1) 0) with (Zpos p - 1)%Z by lia.
  - by replace n with 0%Z by lia.
Qed.

(** The answers of the server's limiter to requests at the given times. *)
Fixpoint global_run (l : GlobalRateLimiter) (times : list Z) : list bool :=
  match times with
  | [] => []
  | t :: rest => let '(l, ok) := global_allow l t in ok :: global_run l rest
  end.

Definition passed (answers : list bool) : nat := length (filter (λ b, b = true) answers).

Lemma global_run_instant t b r k : (0 < r < 2 ^ prec)%Z → (b < 2 ^ prec)%Z → ∀ n, (0 ≤ n ≤ b)%Z →
  passed (global_run (mkGlobalLimiter (mkBucket (f64_of_Z n) t) (f64_of_Z b) (f64_of_Z r))
            (replicate k t)) = Nat.min k (Z.to_nat n).
Proof.
  intros Hr Hb. induction k as [|k IH]; intros n Hn; [done|].
  cbn [replicate global_run]. unfold global_allow. cbn [gl_state gl_capacity gl_refill_per_second].
  rewrite allow_instant by lia. unfold passed in *. rewrite filter_cons.
  destruct (Z.leb_spec 1 n); case_decide; try done; cbn [length]; rewrite IH by lia; lia.
Qed.

(** ** Buckets of principals *)

Section Principals.
Context `{HO : HashOrder}.

Lemma size_delete_list (ks : list string) : ∀ (m : gmap string RateLimitState),
  NoDup ks → Forall (λ k, is_Some (m !! k)) ks →
  size (foldl (λ m k, delete k m) m ks) = size m - length ks.
Proof.
  induction ks as [|k ks IH]; intros m Hnd Hin; simpl; [lia|].
  apply NoDup_cons in Hnd as [Hk Hnd]. apply Forall_cons in Hin as [[b Hb] Hin].
  rewrite IH; [|done|].
  - rewrite map_size_delete_Some by eauto. lia.
  - rewrite Forall_forall in Hin |- *. intros k' Hk'. rewrite lookup_delete_ne; [by apply Hin|].
    intros ->. done.
Qed.

Lemma cleanup_size s now :
  size (buckets (cleanup_principal_buckets s now)) ≤ PRINCIPAL_BUCKET_MAX_BUCKETS.
Proof.
  unfold cleanup_principal_buckets. cbn [buckets]. set (kept := filter _ (buckets s)).
  destruct (Nat.ltb_spec PRINCIPAL_BUCKET_MAX_BUCKETS (size kept)) as [Hgt|]; [|done].
  assert (oldest kept ≡ₚ (map_to_list kept).*1) as Hperm.
  { unfold oldest. by rewrite merge_sort_Permutation, hash_iter_perm. }
  assert (length (oldest kept) = size kept) as Hlen.
  { rewrite Hperm, length_fmap. apply length_map_to_list. }
  rewrite size_delete_list.
  - rewrite length_take. lia.
  - eapply sublist_NoDup; [|apply sublist_take]. rewrite Hperm. apply NoDup_fst_map_to_list.
  - apply Forall_take. rewrite Hperm, Forall_fmap, Forall_forall.
    intros [k b] Hkb%elem_of_map_to_list. by exists b.
Qed.

Fixpoint principal_run (l : PrincipalRateLimiter) (requests : list (string * Z))
    : PrincipalRateLimiter * list bool :=
  match requests with
  | [] => (l, [])
  | (key, now) :: rest =>
      let '(l, ok) := principal_allow l key now in
      let '(l, answers) := principal_run l rest in (l, ok :: answers)
  end.

Lemma allow_size l key now :
  size (buckets (pl_state l)) ≤ Datatypes.S PRINCIPAL_BUCKET_MAX_BUCKETS →
  size (buckets (pl_state (principal_allow l key now).1)) ≤ Datatypes.S PRINCIPAL_BUCKET_MAX_BUCKETS.
Proof.
  intros Hl. unfold principal_allow.
  set (s := if _ || _ then _ else _).
  assert (size (buckets s) ≤ PRINCIPAL_BUCKET_MAX_BUCKETS) as Hs.
  { unfold s. destruct (_ || _) eqn:Hc; [apply cleanup_size|].
    apply orb_false_iff in Hc as [_ Hc%Nat.ltb_ge]. done. }
  destruct (allow_bucket _ _ _ _) as [b ok]. cbn [fst pl_state buckets].
  destruct (buckets s !! key) as [b'|] eqn:Hb.
  - rewrite map_size_insert_Some by eauto. lia.
  - rewrite map_size_insert_None by done. lia.
Qed.

(** Whatever principals send requests at whatever times, the table holds
    at most one bucket more than its limit: memory is bounded however many
    principals there are. *)
Theorem principal_table_bounded (requests_per_second burst start : Z)
    (requests : list (string * Z)) :
  size (buckets (pl_state
    (principal_run (principal_limiter requests_per_second burst start) requests).1))
    ≤ Datatypes.S PRINCIPAL_BUCKET_MAX_BUCKETS.
Proof.
  set (l := principal_limiter _ _ _).
  assert (size (buckets (pl_state l)) ≤ Datatypes.S PRINCIPAL_BUCKET_MAX_BUCKETS) as Hl.
  { unfold l. cbn [principal_limiter pl_state buckets]. rewrite map_size_empty. lia. }
  clearbody l. revert l Hl. induction requests as [|[key now] rest IH]; intros l Hl; [done|].
  cbn [principal_run]. apply (allow_size l key now) in Hl.
  destruct (principal_allow l key now) as [l1 ok]. specialize (IH l1 Hl).
  by destruct (principal_run l1 rest).
Qed.

(** ** Isolation *)

Definition full (b : Z) : nat := Z.to_nat (Z.max b 1).

(** What is left of a principal's burst, as a whole number. *)
Definition left_of (l : PrincipalRateLimiter) (b t : Z) (key : string) (n : Z) : Prop :=
  match buckets (pl_state l) !! key with
  | Some bucket => bucket = mkBucket (f64_of_Z n) t
  | None => n = b
  end.

Record at_instant (l : PrincipalRateLimiter) (b r t : Z) (left : string → Z) : Prop := mkInstant {
  in_capacity : pl_capacity l = f64_of_Z b;
  in_refill : pl_refill_per_second l = f64_of_Z r;
  in_cleanup : last_cleanup (pl_state l) = t;
  in_left key : (0 ≤ left key ≤ b)%Z ∧ left_of l b t key (left key)
}.

Lemma allow_at_instant l b r t left key : at_instant l b r t left →
  (0 < r < 2 ^ prec)%Z → (b < 2 ^ prec)%Z → size (buckets (pl_state l)) ≤ PRINCIPAL_BUCKET_MAX_BUCKETS →
  let a := principal_allow l key t in
  a.2 = (1 <=? left key)%Z ∧
  at_instant a.1 b r t (λ k, if decide (k = key) then Z.max (left key - 1) 0 else left k)%Z ∧
  dom (buckets (pl_state a.1)) = {[key]} ∪ dom (buckets (pl_state l)).
Proof.
  intros [Hc Hr Hcl Hleft] Hr' Hb Hsize. unfold principal_allow. rewrite Hcl.
  assert ((PRINCIPAL_BUCKET_CLEANUP_INTERVAL <=? duration_since t t)%Z ||
          (PRINCIPAL_BUCKET_MAX_BUCKETS <? size (buckets (pl_state l)))%nat = false) as ->.
  { apply orb_false_iff. split; [|by apply Nat.ltb_ge]. unfold duration_since.
    by rewrite Z.sub_diag. }
  destruct (Hleft key) as [Hn Hk]. unfold left_of in Hk.
  assert (default (mkBucket (pl_capacity l) t) (buckets (pl_state l) !! key) =
          mkBucket (f64_of_Z (left key)) t) as ->.
  { rewrite Hc. destruct (buckets (pl_state l) !! key); simpl; [done|]. by rewrite Hk. }
  rewrite Hc, Hr, allow_instant by lia. cbn [fst snd]. split; [done|].
  split; [|apply dom_insert_L]. split; [done|done|done|]. intros k. unfold left_of.
  cbn [pl_state buckets]. destruct (decide (k = key)) as [->|Hne].
  - rewrite lookup_insert_eq. split; [lia|done].
  - rewrite lookup_insert_ne by done. apply Hleft.
Qed.

(** How many of the requests of [key] were let through. *)
Definition passed_of (key : string) (keys : list string) (answers : list bool) : nat :=
  length (filter (λ ka : string * bool, ka.1 = key ∧ ka.2 = true) (zip keys answers)).

Lemma run_at_instant b r t key : (0 < r < 2 ^ prec)%Z → (b < 2 ^ prec)%Z →
  ∀ keys l left, at_instant l b r t left →
  size (dom (buckets (pl_state l)) ∪ list_to_set keys) ≤ PRINCIPAL_BUCKET_MAX_BUCKETS →
  passed_of key keys (principal_run l ((λ k, (k, t)) <$> keys)).2 =
  Nat.min (length (filter (λ k, k = key) keys)) (Z.to_nat (left key)).
Proof.
  intros Hr Hb. induction keys as [|k keys IH]; intros l left Hl Hsize; [done|].
  rewrite fmap_cons. cbn [principal_run].
  destruct (allow_at_instant l b r t left k Hl Hr Hb) as (Hok & Hl' & Hdom).
  { etrans; [|exact Hsize]. rewrite <-size_dom. apply subseteq_size. set_solver. }
  destruct (principal_allow l k t) as [l' ok]; cbn [fst snd] in *.
  specialize (IH l' _ Hl'). rewrite Hdom in IH.
  destruct (principal_run l' _) as [l'' answers]; cbn [snd] in *. unfold passed_of in *.
  cbn [zip zip_with]. rewrite !filter_cons. cbn [fst snd].
  assert (size ({[k]} ∪ dom (buckets (pl_state l)) ∪ list_to_set keys : gset string) ≤
          PRINCIPAL_BUCKET_MAX_BUCKETS) as Hs.
  { etrans; [|exact Hsize]. apply subseteq_size. set_solver. }
  specialize (IH Hs). destruct Hl as [_ _ _ Hleft]. destruct (Hleft key) as [Hk _].
  destruct (decide (k = key)) as [->|Hne].
  - rewrite decide_True in IH by done. destruct (Z.leb_spec 1 (left key)).
    + rewrite decide_True by done. cbn [length]. rewrite IH. lia.
    + rewrite decide_False by (intros [_ ?]; congruence). cbn [length]. rewrite IH. lia.
  - rewrite decide_False in IH by congruence. rewrite decide_False by tauto. exact IH.
Qed.

(** C32: of the requests that arrive at the instant [t] at which the limiter
    of principals is created, every principal gets exactly its own burst
    through, however its requests are mixed with those of others: nobody
    spends the tokens of someone else, and the float counters are exact.
    There are at most 16384 distinct principals, as many as the table holds
    without evicting one, and the rate and the burst are below 2^53. *)
Theorem principals_get_their_burst (requests_per_second burst t : Z) (keys : list string)
    (key : string)
    (Hrate : (requests_per_second < 2 ^ prec)%Z) (Hburst : (burst < 2 ^ prec)%Z)
    (Hkeys : size (list_to_set keys : gset string) ≤ PRINCIPAL_BUCKET_MAX_BUCKETS) :
  passed_of key keys
    (principal_run (principal_limiter requests_per_second burst t) ((λ k, (k, t)) <$> keys)).2 =
  Nat.min (length (filter (λ k, k = key) keys)) (full burst).
Proof.
  assert (1 < 2 ^ prec)%Z by done.
  apply (run_at_instant (Z.max burst 1) (Z.max requests_per_second 1) t key)
    with (left := λ _, Z.max burst 1); [lia|lia| |].
  - split; try done. intros k. split; [lia|]. unfold left_of. simpl. by rewrite lookup_empty.
  - simpl. rewrite dom_empty_L. by rewrite (left_id_L ∅ (∪)).
Qed.

End Principals.

(** The same for the limiter of the whole server. *)
Theorem global_burst_exact (requests_per_second burst t : Z) (k : nat)
    (Hrate : (requests_per_second < 2 ^ prec)%Z) (Hburst : (burst < 2 ^ prec)%Z) :
  passed (global_run (global_limiter requests_per_second burst t) (replicate k t)) =
  Nat.min k (full burst).
Proof. assert (1 < 2 ^ prec)%Z by done. apply global_run_instant; lia. Qed.

(** ** A concrete limiter *)

Module RateLimitWitness.

Lemma principals_get_their_burst_witness :
  passed_of "ann" ["ann"; "bob"; "ann"; "ann"]
    (principal_run (principal_limiter 5 2 0) ((λ k, (k, 0%Z)) <$> ["ann"; "bob"; "ann"; "ann"])).2
  = 2.
Proof.
  apply (principals_get_their_burst 5 2 0 ["ann"; "bob"; "ann"; "ann"] "ann");
    [done | done | vm_compute; lia].
Defined.

Definition spend (l : PrincipalRateLimiter) (n : nat) (now : Z) :=
  principal_run l (replicate n ("ann", now)).

Definition spent : PrincipalRateLimiter := (spend (principal_limiter 1 700 0) 700 0).1.

(** A principal that has spent a burst of 700 at one request per second and
    comes back after ten minutes should find 600 tokens; its idle bucket has
    been dropped meanwhile, and a new bucket starts full. *)
Theorem idle_bucket_is_refilled :
  passed (spend spent 1 0).2 = 0 ∧ passed (spend spent 800 (seconds 599)).2 = 599 ∧
  passed (spend spent 800 (seconds 600)).2 = 700.
Proof. split_and!; vm_compute; reflexivity. Qed.

End RateLimitWitness.
