(* ===== verification/Metrics.v ===== *)
(** * Request metrics ([crates/latlng-http/src/metrics.rs])

    Counters, gauges and latency histograms of the server, their JSON snapshot
    and their Prometheus text.  A counter is an [AtomicU64]: [fetch_add] wraps
    at 2^64. *)

From Stdlib Require Import ZArith Lia Ascii.
From stdpp Require Import base gmap strings list pretty.
From S2P Require Import Prelude Storage F64 Json Platform Geo Strings Index Geofence Collection.
From S2P Require Import Engine Replication.

(** [AtomicU64::fetch_add]. *)
Definition fetch_add (counter n : Z) : Z := (counter + n) mod 2 ^ 64.

(** ** Histograms *)

Definition LATENCY_BUCKETS_MS : list Z :=
  [1; 5; 10; 25; 50; 100; 250; 500; 1000; 2500; 5000; 10000]%Z.

Record LatencyHistogram := mkHistogram {
  lh_buckets : list Z;
  lh_count : Z;
  lh_sum_ms : Z
}.

Definition default_histogram : LatencyHistogram :=
  mkHistogram (replicate (length LATENCY_BUCKETS_MS) 0%Z) 0 0.

Definition observe_ms (h : LatencyHistogram) (value : Z) : LatencyHistogram :=
  mkHistogram
    (zip_with (λ bound bucket, if (value <=? bound)%Z then fetch_add bucket 1 else bucket)
       LATENCY_BUCKETS_MS (lh_buckets h))
    (fetch_add (lh_count h) 1) (fetch_add (lh_sum_ms h) value).

(** ** Counters *)

Record RequestMetrics := mkMetrics {
  requests_total : Z;
  unauthorized_total : Z;
  forbidden_total : Z;
  server_errors_total : Z;
  http_global_rate_limited_total : Z;
  http_principal_rate_limited_total : Z;
  hook_attempts_total : Z;
  hook_success_total : Z;
  hook_failure_total : Z;
  hook_retry_total : Z;
  hook_dead_letter_total : Z;
  webhook_jobs_pending : Z;
  webhook_jobs_leased : Z;
  webhook_jobs_dead_letter : Z;
  webhook_oldest_pending_age_ms : Z;
  http_request_duration_ms : LatencyHistogram;
  hook_delivery_duration_ms : LatencyHistogram
}.

Definition default_metrics : RequestMetrics :=
  mkMetrics 0 0 0 0 0 0 0 0 0 0 0 0 0 0 0 default_histogram default_histogram.

Record EngineMetrics := mkEngineMetrics {
  em_geofence_eval_errors_total : Z;
  em_expired_objects_total : Z
}.

(** The counters of the HTTP layers: requests, refusals by status, rate
    limits. *)
Definition with_http_counters (m : RequestMetrics)
    (requests unauthorized forbidden server_errors global_limited principal_limited : Z)
    (durations : LatencyHistogram) : RequestMetrics :=
  mkMetrics requests unauthorized forbidden server_errors global_limited principal_limited
    (hook_attempts_total m) (hook_success_total m) (hook_failure_total m) (hook_retry_total m)
    (hook_dead_letter_total m) (webhook_jobs_pending m) (webhook_jobs_leased m)
    (webhook_jobs_dead_letter m) (webhook_oldest_pending_age_ms m) durations
    (hook_delivery_duration_ms m).

Definition record_http_request_duration (m : RequestMetrics) (millis : Z) : RequestMetrics :=
  with_http_counters m (requests_total m) (unauthorized_total m) (forbidden_total m)
    (server_errors_total m) (http_global_rate_limited_total m)
    (http_principal_rate_limited_total m) (observe_ms (http_request_duration_ms m) millis).

Definition record_http_global_rate_limited (m : RequestMetrics) : RequestMetrics :=
  with_http_counters m (requests_total m) (unauthorized_total m) (forbidden_total m)
    (server_errors_total m) (fetch_add (http_global_rate_limited_total m) 1)
    (http_principal_rate_limited_total m) (http_request_duration_ms m).

Definition record_http_principal_rate_limited (m : RequestMetrics) : RequestMetrics :=
  with_http_counters m (requests_total m) (unauthorized_total m) (forbidden_total m)
    (server_errors_total m) (http_global_rate_limited_total m)
    (fetch_add (http_principal_rate_limited_total m) 1) (http_request_duration_ms m).

Definition record_unauthorized (m : RequestMetrics) : RequestMetrics :=
  with_http_counters m (requests_total m) (fetch_add (unauthorized_total m) 1) (forbidden_total m)
    (server_errors_total m) (http_global_rate_limited_total m)
    (http_principal_rate_limited_total m) (http_request_duration_ms m).

(** [metrics_middleware] around a request that took [millis] and was answered
    with [status]: the request is counted before it runs. *)
Definition metrics_middleware_before (m : RequestMetrics) : RequestMetrics :=
  with_http_counters m (fetch_add (requests_total m) 1) (unauthorized_total m) (forbidden_total m)
    (server_errors_total m) (http_global_rate_limited_total m)
    (http_principal_rate_limited_total m) (http_request_duration_ms m).

Definition metrics_middleware_after (m : RequestMetrics) (millis status : Z) : RequestMetrics :=
  let m := record_http_request_duration m millis in
  with_http_counters m (requests_total m)
    (if (status =? 401)%Z then fetch_add (unauthorized_total m) 1 else unauthorized_total m)
    (if (status =? 403)%Z then fetch_add (forbidden_total m) 1 else forbidden_total m)
    (if ((500 <=? status) && (status <? 600))%Z then fetch_add (server_errors_total m) 1
     else server_errors_total m)
    (http_global_rate_limited_total m) (http_principal_rate_limited_total m)
    (http_request_duration_ms m).

Definition with_hook_counters (m : RequestMetrics)
    (attempts success failure retry dead_letter : Z) (durations : LatencyHistogram)
    : RequestMetrics :=
  mkMetrics (requests_total m) (unauthorized_total m) (forbidden_total m) (server_errors_total m)
    (http_global_rate_limited_total m) (http_principal_rate_limited_total m)
    attempts success failure retry dead_letter
    (webhook_jobs_pending m) (webhook_jobs_leased m) (webhook_jobs_dead_letter m)
    (webhook_oldest_pending_age_ms m) (http_request_duration_ms m) durations.

Definition record_hook_attempt (m : RequestMetrics) : RequestMetrics :=
  with_hook_counters m (fetch_add (hook_attempts_total m) 1) (hook_success_total m)
    (hook_failure_total m) (hook_retry_total m) (hook_dead_letter_total m)
    (hook_delivery_duration_ms m).
Definition record_hook_success (m : RequestMetrics) : RequestMetrics :=
  with_hook_counters m (hook_attempts_total m) (fetch_add (hook_success_total m) 1)
    (hook_failure_total m) (hook_retry_total m) (hook_dead_letter_total m)
    (hook_delivery_duration_ms m).
Definition record_hook_failure (m : RequestMetrics) : RequestMetrics :=
  with_hook_counters m (hook_attempts_total m) (hook_success_total m)
    (fetch_add (hook_failure_total m) 1) (hook_retry_total m) (hook_dead_letter_total m)
    (hook_delivery_duration_ms m).
Definition record_hook_retry (m : RequestMetrics) : RequestMetrics :=
  with_hook_counters m (hook_attempts_total m) (hook_success_total m) (hook_failure_total m)
    (fetch_add (hook_retry_total m) 1) (hook_dead_letter_total m) (hook_delivery_duration_ms m).
Definition record_hook_dead_letter (m : RequestMetrics) : RequestMetrics :=
  with_hook_counters m (hook_attempts_total m) (hook_success_total m) (hook_failure_total m)
    (hook_retry_total m) (fetch_add (hook_dead_letter_total m) 1) (hook_delivery_duration_ms m).
Definition record_hook_delivery_duration (m : RequestMetrics) (millis : Z) : RequestMetrics :=
  with_hook_counters m (hook_attempts_total m) (hook_success_total m) (hook_failure_total m)
    (hook_retry_total m) (hook_dead_letter_total m)
    (observe_ms (hook_delivery_duration_ms m) millis).

Definition update_webhook_queue_stats (m : RequestMetrics) (pending leased dead_letter : Z)
    (oldest_pending_age_ms : option Z) : RequestMetrics :=
  mkMetrics (requests_total m) (unauthorized_total m) (forbidden_total m) (server_errors_total m)
    (http_global_rate_limited_total m) (http_principal_rate_limited_total m)
    (hook_attempts_total m) (hook_success_total m) (hook_failure_total m) (hook_retry_total m)
    (hook_dead_letter_total m) pending leased dead_letter
    (default U64_MAX oldest_pending_age_ms)
    (http_request_duration_ms m) (hook_delivery_duration_ms m).

(** ** Output *)

Definition json_object (entries : list (string * Value)) : Value :=
  VObject (list_to_map (reverse entries)).
Definition json_u64 (n : Z) : Value := VNumber (PosInt n).

(** The gauge holds [u64::MAX] when no job is pending. *)
Definition oldest_pending_age (m : RequestMetrics) : option Z :=
  if (webhook_oldest_pending_age_ms m =? U64_MAX)%Z then None
  else Some (webhook_oldest_pending_age_ms m).

Definition metrics_snapshot (m : RequestMetrics) : Value :=
  json_object
    [("requests_total", json_u64 (requests_total m));
     ("unauthorized_total", json_u64 (unauthorized_total m));
     ("forbidden_total", json_u64 (forbidden_total m));
     ("server_errors_total", json_u64 (server_errors_total m));
     ("global_rate_limited_total", json_u64 (http_global_rate_limited_total m));
     ("principal_rate_limited_total", json_u64 (http_principal_rate_limited_total m));
     ("hook_attempts_total", json_u64 (hook_attempts_total m));
     ("hook_success_total", json_u64 (hook_success_total m));
     ("hook_failure_total", json_u64 (hook_failure_total m));
     ("hook_retry_total", json_u64 (hook_retry_total m));
     ("hook_dead_letter_total", json_u64 (hook_dead_letter_total m));
     ("webhook_jobs_pending", json_u64 (webhook_jobs_pending m));
     ("webhook_jobs_leased", json_u64 (webhook_jobs_leased m));
     ("webhook_jobs_dead_letter", json_u64 (webhook_jobs_dead_letter m));
     ("webhook_oldest_pending_age_ms", from_option json_u64 VNull (oldest_pending_age m));
     ("http_request_duration_count", json_u64 (lh_count (http_request_duration_ms m)));
     ("hook_delivery_duration_count", json_u64 (lh_count (hook_delivery_duration_ms m)))].

(** A text is a list of lines; each is written with a line feed. *)
Definition quote : string := String (ascii_of_nat 34) EmptyString.

Definition push_metric (name help metric_type : string) (value : option Z) : list string :=
  ["# HELP " +:+ name +:+ " " +:+ help; "# TYPE " +:+ name +:+ " " +:+ metric_type] ++
  match value with Some v => [name +:+ " " +:+ pretty v] | None => [] end.

Definition push_histogram (name help : string) (h : LatencyHistogram) : list string :=
  ["# HELP " +:+ name +:+ " " +:+ help; "# TYPE " +:+ name +:+ " histogram"] ++
  zip_with (λ bound bucket,
              name +:+ "_bucket{le=" +:+ quote +:+ pretty bound +:+ quote +:+ "} " +:+ pretty bucket)
    LATENCY_BUCKETS_MS (lh_buckets h) ++
  [name +:+ "_bucket{le=" +:+ quote +:+ "+Inf" +:+ quote +:+ "} " +:+ pretty (lh_count h);
   name +:+ "_sum " +:+ pretty (lh_sum_ms h);
   name +:+ "_count " +:+ pretty (lh_count h)].

Definition counter (name help : string) (value : Z) : list string :=
  push_metric name help "counter" (Some value).
Definition gauge (name help : string) (value : option Z) : list string :=
  push_metric name help "gauge" value.

Definition replication_metrics (r : ReplicationStatus) (local_last_sequence : option Z)
    : list string :=
  let local := default (rs_local_last_sequence r) local_last_sequence in
  let leader := Z.max (rs_leader_last_sequence r) local in
  gauge "latlng_replication_role"
    "Replication role as a gauge: 0 means leader, 1 means follower."
    (Some (if is_follower r then 1 else 0)%Z) ++
  gauge "latlng_replication_caught_up" "Whether the node is caught up with its leader."
    (Some (if rs_caught_up r then 1 else 0)%Z) ++
  gauge "latlng_replication_local_last_sequence"
    "Last local committed sequence known to replication." (Some local) ++
  gauge "latlng_replication_leader_last_sequence"
    "Last leader sequence observed by replication." (Some leader) ++
  gauge "latlng_replication_lag_sequences" "Leader sequence minus local sequence."
    (Some (saturating_sub leader local)) ++
  counter "latlng_replication_reconnects_total"
    "Replication reconnect attempts after follow failures." (rs_reconnects_total r) ++
  counter "latlng_replication_checksum_mismatches_total"
    "Replication checksum mismatches detected during resume." (rs_checksum_mismatches_total r) ++
  counter "latlng_replication_resyncs_total"
    "Replication full resyncs triggered by safety checks." (rs_resyncs_total r).

Definition engine_metrics (e : EngineMetrics) : list string :=
  counter "latlng_geofence_eval_errors_total"
    "Geofence evaluations that failed and were skipped without failing the write."
    (em_geofence_eval_errors_total e) ++
  counter "latlng_expired_objects_total" "Objects deleted by the background expiry sweep."
    (em_expired_objects_total e).

Definition prometheus_text_with_engine (m : RequestMetrics)
    (replication : option ReplicationStatus) (local_last_sequence : option Z)
    (engine : option EngineMetrics) : list string :=
  counter "latlng_http_requests_total" "Total HTTP requests handled by the native server."
    (requests_total m) ++
  counter "latlng_http_unauthorized_total" "HTTP requests rejected as unauthenticated."
    (unauthorized_total m) ++
  counter "latlng_http_forbidden_total" "HTTP requests rejected by authorization."
    (forbidden_total m) ++
  counter "latlng_http_server_errors_total" "HTTP requests that returned a 5xx status."
    (server_errors_total m) ++
  counter "latlng_http_global_rate_limited_total"
    "HTTP requests rejected by the global rate limiter." (http_global_rate_limited_total m) ++
  counter "latlng_http_principal_rate_limited_total"
    "HTTP requests rejected by the per-principal rate limiter."
    (http_principal_rate_limited_total m) ++
  counter "latlng_hook_attempts_total" "Webhook delivery attempts." (hook_attempts_total m) ++
  counter "latlng_hook_success_total" "Successful webhook deliveries." (hook_success_total m) ++
  counter "latlng_hook_failure_total" "Failed webhook deliveries." (hook_failure_total m) ++
  counter "latlng_hook_retry_total" "Webhook deliveries scheduled for retry."
    (hook_retry_total m) ++
  counter "latlng_hook_dead_letter_total" "Webhook deliveries moved to the dead-letter state."
    (hook_dead_letter_total m) ++
  gauge "latlng_webhook_jobs_pending" "Current pending webhook jobs."
    (Some (webhook_jobs_pending m)) ++
  gauge "latlng_webhook_jobs_leased" "Current leased webhook jobs."
    (Some (webhook_jobs_leased m)) ++
  gauge "latlng_webhook_jobs_dead_letter" "Current dead-letter webhook jobs."
    (Some (webhook_jobs_dead_letter m)) ++
  gauge "latlng_webhook_oldest_pending_age_ms" "Oldest pending webhook job age in milliseconds."
    (oldest_pending_age m) ++
  push_histogram "latlng_http_request_duration_ms" "HTTP request duration in milliseconds."
    (http_request_duration_ms m) ++
  push_histogram "latlng_hook_delivery_duration_ms"
    "Webhook delivery attempt duration in milliseconds." (hook_delivery_duration_ms m) ++
  from_option engine_metrics [] engine ++
  from_option (λ r, replication_metrics r local_last_sequence) [] replication.

(** ** What a histogram means *)

Definition below (bound : Z) (values : list Z) : Z :=
  Z.of_nat (length (filter (λ v, v <= bound)%Z values)).

Lemma observe_snoc values v bound :
  below bound (values ++ [v]) = (below bound values + (if v <=? bound then 1 else 0))%Z.
Proof.
  unfold below. rewrite filter_app, length_app. simpl.
  destruct (Z.leb_spec v bound).
  - rewrite filter_cons_True by done. simpl. lia.
  - rewrite filter_cons_False by lia. simpl. lia.
Qed.

Lemma fetch_add_mod a b : fetch_add (a mod 2 ^ 64) b = ((a + b) mod 2 ^ 64)%Z.
Proof. unfold fetch_add. apply Z.add_mod_idemp_l. lia. Qed.

Lemma zip_buckets (f : Z → Z → Z) (g h : Z → Z) bounds :
  (∀ b, f b (g b) = h b) → zip_with f bounds (g <$> bounds) = h <$> bounds.
Proof. intros Hf. induction bounds as [|b bounds IH]; [done|]. rewrite !fmap_cons. cbn [zip_with]. by rewrite Hf, IH. Qed.

(** A histogram of any observations counts, for each bound, the observations
    up to it: the buckets are cumulative, as the text format asks. *)
Lemma histogram_counts values :
  foldl observe_ms default_histogram values =
  mkHistogram ((λ bound, below bound values mod 2 ^ 64)%Z <$> LATENCY_BUCKETS_MS)
    (Z.of_nat (length values) mod 2 ^ 64)%Z (foldr Z.add 0 values mod 2 ^ 64)%Z.
Proof.
  induction values as [|v values IH] using rev_ind; [done|].
  rewrite foldl_app. cbn [foldl]. rewrite IH. unfold observe_ms.
  cbn [lh_buckets lh_count lh_sum_ms]. f_equal.
  - apply zip_buckets. intros b. rewrite observe_snoc.
    destruct (v <=? b)%Z; [apply fetch_add_mod | by rewrite Z.add_0_r].
  - rewrite fetch_add_mod, length_app. f_equal. simpl. lia.
  - rewrite fetch_add_mod, foldr_app. f_equal. simpl. rewrite Z.add_0_r.
    clear. induction values; simpl; lia.
Qed.

(** Buckets never exceed the count, and grow with their bounds. *)
Lemma below_mono b1 b2 values : (b1 <= b2)%Z → (below b1 values <= below b2 values)%Z.
Proof.
  intros Hb. unfold below. induction values as [|v values IH]; [done|].
  rewrite !filter_cons. case_decide; case_decide; cbn [length]; lia.
Qed.
