(* ===== verification/Http.v ===== *)
(** * The HTTP interface ([crates/latlng-http/src/handlers.rs], [state.rs],
    [routes.rs], [error.rs])

    One definition per handler, over the state the handlers share.  A handler
    authenticates the request, checks the permission, runs one or more engine
    operations and wakes the background tasks.  Handlers run one at a time.

    A request arrives decoded: paths, queries and bodies are parsed by [axum]
    and [serde], whose refusals are [Rejected].  A body that is a serialised
    value is the value.  The answer of an engine operation that panics is an
    internal error, as the executor reports it. *)

From Stdlib Require Import ZArith Lia Ascii SpecFloat.
From stdpp Require Import base gmap strings list sorting pretty.
From S2P Require Import Prelude Storage F64 Json Platform Geo Strings Index Geofence Collection.
From S2P Require Import Engine Queries WebhookQueue Outbox Replication Auth Config Metrics.

(** ** Texts and numbers *)

Definition geo_error_text (e : GeoError) : string :=
  match e with
  | UnsupportedGeoJson => "unsupported geojson structure"
  | InvalidGeohash => "invalid geohash"
  | InvalidQuadkey => "invalid quadkey"
  | InvalidJsonPath => "invalid json path"
  | UnresolvedReference => "reference area must be resolved by the caller"
  | InvalidGeometry message => "invalid geometry: " +:+ message
  | InvalidCoordinates message => "invalid coordinates: " +:+ message
  end.

Definition index_error_text (e : IndexError) : string :=
  match e with
  | IGeo e => geo_error_text e
  | IRegex message => "invalid regex: " +:+ message
  | UnsupportedClip => "unsupported clip operation for this geometry"
  | InvalidExpression message => "invalid expression: " +:+ message
  end.

Definition storage_error_text (e : StorageError) : string :=
  match e with
  | Io message => "io error: " +:+ message
  | Codec message => "codec error: " +:+ message
  | SequenceRegression expected actual =>
      "sequence regression: expected at least " +:+ pretty expected +:+ ", got " +:+ pretty actual
  | Closed => "backend is closed"
  | Unsupported what => "unsupported operation: " +:+ what
  | Message message => message
  end.

Definition core_error_text (e : CoreError) : string :=
  match e with
  | CGeo e => geo_error_text e
  | CIndex e => index_error_text e
  | CStorage e => storage_error_text e
  | CollectionNotFound name => "collection not found: " +:+ name
  | ObjectNotFound collection i => "object not found: " +:+ collection +:+ "/" +:+ i
  | ReadOnly => "read-only mode is enabled"
  | MissingStorage => "builder is missing a storage backend"
  | CCodec message => "invalid command payload: " +:+ message
  | Invalid message | CMessage message => message
  end.

Definition core_error_to_http (e : CoreError) : HttpError :=
  match kind e with
  | NotFound => HNotFound (core_error_text e)
  | BadRequest | KReadOnly => HBadRequest (core_error_text e)
  | Internal => HInternal (core_error_text e)
  end.

Definition queue_error_text (e : QueueError) : string :=
  match e with
  | QSql message => "sqlite error: " +:+ message
  | QCodec message => "codec error: " +:+ message
  end.

Definition config_error_text (e : ConfigError) : string :=
  match e with
  | MissingExtension => "config file is missing an extension; use .json or .toml"
  | UnsupportedFormat format => "unsupported config format: " +:+ format
  | ConfigIo message => "failed to read config: " +:+ message
  | ConfigParse message => "failed to parse config: " +:+ message
  | ConfigValidation message => "invalid config: " +:+ message
  end.

(** [str::parse] for an unsigned integer of at most [max]: an optional plus
    sign and digits. *)
Definition digit_value (c : ascii) : option Z :=
  let n := Z.of_N (N_of_ascii c) in
  if ((48 <=? n) && (n <=? 57))%Z then Some (n - 48)%Z else None.

Fixpoint parse_digits (max acc : Z) (l : list ascii) : option Z :=
  match l with
  | [] => Some acc
  | c :: l' =>
      d ← digit_value c;
      let acc := (acc * 10 + d)%Z in
      if (acc <=? max)%Z then parse_digits max acc l' else None
  end.

Definition parse_unsigned (max : Z) (s : string) : option Z :=
  let digits := match bytes_of s with
                | c :: rest => if Ascii.eqb c "+"%char then rest else c :: rest
                | [] => []
                end in
  match digits with [] => None | _ => parse_digits max 0 digits end.

Definition U32_MAX : Z := 2 ^ 32 - 1.

(** [.ok().filter(|value| *value > 0)]. *)
Definition parse_positive (max : Z) (s : string) : option Z :=
  n ← parse_unsigned max s; if (0 <? n)%Z then Some n else None.

Definition json_bool (b : bool) : Value := VBool b.
Definition json_int (n : Z) : Value := VNumber (if (0 <=? n)%Z then PosInt n else NegInt n).
Definition json_strings (l : list string) : Value := VArray (VString <$> l).

Definition parse_output_format (format : option string) (hash_precision : option nat)
    : result OutputFormat HttpError :=
  let name := to_ascii_lowercase (default "objects" format) in
  if String.eqb name "objects" then Ok Objects
  else if String.eqb name "points" then Ok Points
  else if String.eqb name "bounds" then Ok Bounds
  else if String.eqb name "hashes" then Ok (Hashes (default 7 hash_precision))
  else if String.eqb name "ids" then Ok Ids
  else if String.eqb name "count" then Ok Count
  else Err (HBadRequest ("unknown output format: " +:+ name)).

(** ** Server information ([admin.rs]) *)

Record ServerInfo := mkServerInfo {
  si_version : string;
  si_api_version : string;
  si_protocol_version : string;
  si_storage_format_version : string;
  si_num_collections : Z;
  si_num_objects : Z;
  si_num_points : Z;
  si_heap_bytes : Z;
  si_read_only : bool;
  si_leader : bool;
  si_server_id : string;
  si_following : option string;
  si_caught_up : bool;
  si_caught_up_once : bool;
  si_last_sequence : Z
}.

Definition apply_replication_to_server_info (info : ServerInfo)
    (replication : option ReplicationStatus) : ServerInfo :=
  match replication with
  | None => info
  | Some r =>
      mkServerInfo (si_version info) (si_api_version info) (si_protocol_version info)
        (si_storage_format_version info) (si_num_collections info) (si_num_objects info)
        (si_num_points info) (si_heap_bytes info)
        (if is_follower r then true else si_read_only info)
        (negb (is_follower r)) (rs_server_id r) (following r) (rs_caught_up r)
        (rs_caught_up_once r) (si_last_sequence info)
  end.

(** ** Requests and answers *)

(** [JsonRejection], [PathRejection] and [QueryRejection] of [axum]. *)
Inductive Rejection : Type :=
  | MissingJsonContentType (text : string)
  | JsonRejected (text : string)
  | PathRejected (text : string)
  | QueryRejected (text : string).

Definition rejection_error (r : Rejection) : HttpError :=
  match r with
  | MissingJsonContentType text => HUnsupportedMediaType text
  | JsonRejected text | PathRejected text | QueryRejected text => HBadRequest text
  end.

Record SetObjectBody := mkSetBody {
  sb_object : GeoType;
  sb_fields : list FieldEntry;
  sb_expire_seconds : option Z;
  sb_condition : option SetCondition
}.

(** The routes, with what their extractors give the handlers. *)
Inductive HttpRequest : Type :=
  | Rejected (r : Rejection)
  | NoSuchRoute
  | Ping
  | Healthz
  | GetServer
  | GetInfo (section : option string)
  | GetMetrics
  | GetApiDocs
  | ListCollections (match_pattern : option string)
  | GetCollection (collection : string)
  | CreateCollection (collection : string)
  | DropCollection (collection : string)
  | RenameCollection (collection new_name : string) (nx : option bool)
  | GetBounds (collection : string)
  | GetStats (collection : string)
  | SetObject (collection i : string) (body : SetObjectBody)
  | GetObject (collection i : string) (with_fields : option bool) (format : option string)
      (hash_precision : option nat)
  | DeleteObject (collection i : string)
  | DeleteObjects (collection : string) (match_pattern : option string)
  | SetFields (collection i : string) (entries : list FieldEntry) (xx : option bool)
  | GetField (collection i field : string)
  | Expire (collection i : string) (seconds : Z)
  | Persist (collection i : string)
  | GetTtl (collection i : string)
  | SetJson (collection i path value : string) (raw : option bool)
  | GetJson (collection i path : string)
  | DeleteJson (collection i path : string)
  | SearchNearby (collection : string) (query : NearbyQuery)
  | SearchWithin (collection : string) (area : Area) (options : SearchOptions)
  | SearchIntersects (collection : string) (area : Area) (options : SearchOptions)
  | SearchScan (collection : string) (options : SearchOptions)
  | SearchText (collection : string) (options : SearchOptions)
  | SetChannel (name : string) (def : GeofenceDef)
  | ListChannels (match_pattern : option string)
  | GetChannel (name : string)
  | DeleteChannel (name : string)
  | SetHook (name url : string) (def : GeofenceDef)
  | ListHooks (match_pattern : option string)
  | GetHook (name : string)
  | DeleteHook (name : string)
  | GetConfig (name : string)
  | SetConfig (name value : string)
  | FlushDb
  | Gc
  | AofShrink
  | GetWebhookQueue
  | RewriteConfig
  | SetReadOnly (enabled : bool)
  | SetTimeout (seconds : f64) (command : string).

Inductive HttpBody : Type :=
  | BJson (value : Value)
  | BServer (info : ServerInfo)
  | BInfo (section : option string) (info : ServerInfo) (metrics : option Value)
  | BMetrics (lines : list string)
  | BOpenApi
  | BCollection (name : string) (bounds : option BoundingBox) (stats : CollectionStats)
  | BBounds (bounds : option BoundingBox)
  | BStats (stats : list CollectionStats)
  | BObject (object : Object)
  | BField (value : option FieldValue)
  | BResults (results : SearchResults)
  | BChannel (channel : ChannelDef)
  | BHook (hook : HookDef)
  | BHooks (hooks : list HookInfo)
  | BCompaction (result : CompactionResult).

Section Http.
Context `{LM : Libm} `{GC : GeoCrate} `{RC : RTreeCrate} `{JT : JsonText} `{PT : Patterns}
  `{HO : HashOrder} `{LC : LogCodec} `{MD : Md5} `{B64 : Base64} `{EC : EventCodec}
  `{SN : SelectNth} `{JW : JwtCrate} `{CT : ConfigText}.
Context {S : Type} `{SB : StorageBackend S}.

(** ** State *)

(** What the handlers share.  Parts that a deployment may leave out are
    optional; a notifier is the number of times it was rung.  The coordinator
    of FLUSHDB holds the epoch of the outbox.  [hs_files] are the configuration
    files, [hs_parallel] the build of the engine. *)
Record HttpState := mkHttp {
  hs_db : LatLng S;
  hs_auth : Authenticator;
  hs_metrics : RequestMetrics;
  hs_runtime_config : option RuntimeConfig;
  hs_webhook_queue : option WebhookQueue;
  hs_flushdb_coordinator : option Z;
  hs_outbox_notify : option nat;
  hs_replication_status : option ReplicationStatus;
  hs_replication_notify : option nat;
  hs_files : gmap string string;
  hs_parallel : bool
}.

Definition set_db (st : HttpState) (db : LatLng S) : HttpState :=
  mkHttp db (hs_auth st) (hs_metrics st) (hs_runtime_config st) (hs_webhook_queue st)
    (hs_flushdb_coordinator st) (hs_outbox_notify st) (hs_replication_status st)
    (hs_replication_notify st) (hs_files st) (hs_parallel st).
Definition set_auth (st : HttpState) (a : Authenticator) : HttpState :=
  mkHttp (hs_db st) a (hs_metrics st) (hs_runtime_config st) (hs_webhook_queue st)
    (hs_flushdb_coordinator st) (hs_outbox_notify st) (hs_replication_status st)
    (hs_replication_notify st) (hs_files st) (hs_parallel st).
Definition set_runtime_config (st : HttpState) (c : option RuntimeConfig) : HttpState :=
  mkHttp (hs_db st) (hs_auth st) (hs_metrics st) c (hs_webhook_queue st)
    (hs_flushdb_coordinator st) (hs_outbox_notify st) (hs_replication_status st)
    (hs_replication_notify st) (hs_files st) (hs_parallel st).
Definition set_files (st : HttpState) (files : gmap string string) : HttpState :=
  mkHttp (hs_db st) (hs_auth st) (hs_metrics st) (hs_runtime_config st) (hs_webhook_queue st)
    (hs_flushdb_coordinator st) (hs_outbox_notify st) (hs_replication_status st)
    (hs_replication_notify st) files (hs_parallel st).
Definition set_notified (st : HttpState) (outbox replication : option nat) : HttpState :=
  mkHttp (hs_db st) (hs_auth st) (hs_metrics st) (hs_runtime_config st) (hs_webhook_queue st)
    (hs_flushdb_coordinator st) outbox (hs_replication_status st) replication
    (hs_files st) (hs_parallel st).

(** What one request brings: its clock, what authentication sees of the
    world, the Authorization header, the principal an outer layer has already
    authenticated, and the faults of the disk. *)
Record Incoming := mkIncoming {
  in_clock : Clock;
  in_env : AuthEnv;
  in_header : option string;
  in_cached : option AuthPrincipal;
  in_faults : DiskFaults
}.

(** ** The handler monad *)

Definition H (A : Type) : Type := HttpState → HttpState * result A HttpError.

Definition hret {A} (a : A) : H A := λ st, (st, Ok a).
Definition hfail {A} (e : HttpError) : H A := λ st, (st, Err e).
Definition hbind {A B} (m : H A) (k : A → H B) : H B := λ st,
  match m st with
  | (st', Ok a) => k a st'
  | (st', Err e) => (st', Err e)
  end.
Definition hget : H HttpState := λ st, (st, Ok st).
Definition hlift {A} (r : result A HttpError) : H A := λ st, (st, r).

Notation "x <- m ;; k" := (hbind m (λ x, k)) (at level 100, m at next level, right associativity).
Notation "m ;;; k" := (hbind m (λ _, k)) (at level 100, right associativity).

Definition run_db {A} (op : M (S := S) A) : H A := λ st,
  let '(db, r) := op (hs_db st) in (set_db st db, map_err core_error_to_http r).

(** A query; [None] is a panic, which the executor reports as an error. *)
Definition run_query {A} (op : LatLng S → option (result A CoreError)) : H A := λ st,
  (st, match op (hs_db st) with
       | Some r => map_err core_error_to_http r
       | None => Err (HInternal "native executor task panicked")
       end).

Definition authenticated (rq : Incoming) : H AuthPrincipal := λ st,
  let '(a, r) := authenticate_headers (hs_auth st) (in_env rq) (in_header rq) (in_cached rq) in
  (set_auth st a, r).

Definition notify_outbox : H unit := λ st,
  (set_notified st (Datatypes.S <$> hs_outbox_notify st) (hs_replication_notify st), Ok tt).
Definition notify_replication : H unit := λ st,
  (set_notified st (hs_outbox_notify st) (Datatypes.S <$> hs_replication_notify st), Ok tt).
Definition notify_both : H unit := notify_outbox ;;; notify_replication.
Definition notify_if (b : bool) : H unit := if b then notify_both else hret tt.

Definition replication_snapshot (st : HttpState) : option ReplicationStatus :=
  hs_replication_status st.

Definition ensure_queries_allowed : H unit := λ st,
  match replication_snapshot st with
  | Some status =>
      if queries_allowed status then (st, Ok tt)
      else (st, Err (HUnavailable "catching up to leader"))
  | None => (st, Ok tt)
  end.

Definition update_runtime_config (f : RuntimeConfig → RuntimeConfig) : H unit := λ st,
  (set_runtime_config st (f <$> hs_runtime_config st), Ok tt).

Definition put_read_only (b : bool) : M (S := S) unit := λ db,
  put_config (mkConfig b (command_timeouts (db_config db)) (config_queue_capacity (db_config db))
                (webhook_retry_count (db_config db))) db.

Definition http_sync_effective_read_only : H unit := λ st,
  let configured := from_option rc_read_only false (hs_runtime_config st) in
  let effective := from_option (λ status, effective_read_only status configured) configured
                     (replication_snapshot st) in
  run_db (put_read_only effective) st.

(** The checks that most handlers start with. *)
Definition permit (rq : Incoming) (action : AuthAction) (collection : string) : H AuthPrincipal :=
  p <- authenticated rq ;;
  hlift (ensure_collection_action p action collection) ;;;
  hret p.

Definition permit_admin (rq : Incoming) : H AuthPrincipal :=
  p <- authenticated rq ;; hlift (ensure_admin p) ;;; hret p.

(** ** Handlers: server *)

Definition handle_ping (rq : Incoming) : H HttpBody :=
  authenticated rq ;;;
  hret (BJson (json_object [("ok", json_bool true); ("pong", json_bool true)])).

Definition handle_healthz (rq : Incoming) : H HttpBody :=
  authenticated rq ;;;
  ensure_queries_allowed ;;;
  hret (BJson (json_object [("ok", json_bool true)])).

Definition op_server_info (clock : Clock) : M (S := S) ServerInfo := λ db,
  let objects := map_to_list (db_collections db) ≫= (λ nv, lookup_live clock (db_collections db) nv.1) in
  let num_objects := Z.of_nat (length objects) in
  (db, Ok (mkServerInfo "0.2.0" "v1" "capnp-v1" "storage-v1"
             (Z.of_nat (size (db_collections db)) mod 2 ^ 32) num_objects
             (count_if (λ o, is_point_geo (geo o)) objects) (num_objects * 128)
             (read_only (db_config db)) true "" None false false (db_next_sequence db))).

Definition server_info (rq : Incoming) : H ServerInfo :=
  info <- run_db (op_server_info (in_clock rq)) ;;
  st <- hget ;;
  hret (apply_replication_to_server_info info (replication_snapshot st)).

Definition handle_server (rq : Incoming) : H HttpBody :=
  permit_admin rq ;;;
  info <- server_info rq ;;
  hret (BServer info).

Definition handle_info (rq : Incoming) (query_section : option string) : H HttpBody :=
  permit_admin rq ;;;
  info <- server_info rq ;;
  st <- hget ;;
  let section := default "server" query_section in
  hret (if String.eqb section "" || String.eqb section "server" then BInfo None info None
        else if String.eqb section "stats" then BInfo None info (Some (metrics_snapshot (hs_metrics st)))
        else BInfo (Some section) info None).

Definition op_engine_metrics : M (S := S) (Z * EngineMetrics) := λ db,
  (db, Ok (db_next_sequence db,
           mkEngineMetrics (eval_errors_total (db_geofences db)) (db_expired_objects_total db))).

Definition handle_metrics (rq : Incoming) : H HttpBody :=
  p <- authenticated rq ;;
  hlift (ensure_global_action p MetricsRead) ;;;
  m <- run_db op_engine_metrics ;;
  st <- hget ;;
  hret (BMetrics (prometheus_text_with_engine (hs_metrics st) (replication_snapshot st)
                    (Some m.1) (Some m.2))).

Definition handle_api_docs (rq : Incoming) : H HttpBody :=
  authenticated rq ;;; hret BOpenApi.

(** ** Handlers: collections *)

Definition handle_collections (rq : Incoming) (match_pattern : option string) : H HttpBody :=
  p <- authenticated rq ;;
  ensure_queries_allowed ;;;
  names <- run_db (op_collections (default "*" match_pattern)) ;;
  if negb (any_collection_permission p CollectionsList) && negb (is_admin p)
  then hfail HForbidden
  else hret (BJson (json_object
               [("collections", json_strings (filter (λ n, can_view_collection p n = true) names))])).

Definition op_stats_and_bounds (clock : Clock) (n : string)
    : M (S := S) (option CollectionStats * option BoundingBox) :=
  mbind (op_stats clock [n]) (λ stats, mbind (op_bounds n) (λ b, mret (head stats, b))).

Definition handle_collection_info (rq : Incoming) (n : string) : H HttpBody :=
  permit rq CollectionsInspect n ;;;
  ensure_queries_allowed ;;;
  r <- run_db (op_stats_and_bounds (in_clock rq) n) ;;
  match r.1 with
  | None => hfail (HNotFound ("collection not found: " +:+ n))
  | Some stats => hret (BCollection n r.2 stats)
  end.

Definition handle_create_collection (rq : Incoming) (n : string) : H HttpBody :=
  permit rq CollectionsCreate n ;;;
  created <- run_db (op_create_collection (in_clock rq) n) ;;
  notify_if created ;;;
  hret (BJson (json_object [("ok", json_bool true); ("created", json_bool created)])).

Definition handle_rename (rq : Incoming) (n new_name : string) (nx : option bool) : H HttpBody :=
  p <- authenticated rq ;;
  hlift (ensure_collection_action p CollectionsDelete n) ;;;
  hlift (ensure_collection_action p CollectionsCreate new_name) ;;;
  renamed <- run_db (rename_inner (in_clock rq) n new_name (default false nx)) ;;
  notify_if renamed ;;;
  hret (BJson (json_object [("ok", json_bool true); ("renamed", json_bool renamed)])).

Definition handle_drop_collection (rq : Incoming) (n : string) : H HttpBody :=
  permit rq CollectionsDelete n ;;;
  dropped <- run_db (op_drop_collection (in_clock rq) n) ;;
  notify_if dropped ;;;
  hret (BJson (json_object [("dropped", json_bool dropped)])).

Definition handle_bounds (rq : Incoming) (n : string) : H HttpBody :=
  permit rq CollectionsInspect n ;;;
  ensure_queries_allowed ;;;
  b <- run_db (op_bounds n) ;;
  hret (BBounds b).

Definition handle_stats (rq : Incoming) (n : string) : H HttpBody :=
  permit rq CollectionsInspect n ;;;
  ensure_queries_allowed ;;;
  stats <- run_db (op_stats (in_clock rq) [n]) ;;
  hret (BStats stats).

(** ** Handlers: objects *)

Definition handle_set_object (rq : Incoming) (n i : string) (body : SetObjectBody) : H HttpBody :=
  permit rq ObjectsWrite n ;;;
  stored <- run_db (op_set (in_clock rq)
              (mkSetRequest n i (sb_object body) (sb_fields body) (sb_expire_seconds body)
                 (default Always (sb_condition body)))) ;;
  notify_if stored ;;;
  hret (BJson (json_object [("ok", json_bool true); ("stored", json_bool stored)])).

Definition handle_get_object (rq : Incoming) (n i : string) (with_fields : option bool)
    (format : option string) (hash_precision : option nat) : H HttpBody :=
  permit rq ObjectsRead n ;;;
  ensure_queries_allowed ;;;
  output <- hlift (parse_output_format format hash_precision) ;;
  object <- run_db (op_get (in_clock rq) n i output (default false with_fields)) ;;
  match object with
  | None => hfail (HNotFound ("object not found: " +:+ n +:+ "/" +:+ i))
  | Some object => hret (BObject object)
  end.

Definition handle_delete_object (rq : Incoming) (n i : string) : H HttpBody :=
  permit rq ObjectsDelete n ;;;
  deleted <- run_db (op_del (in_clock rq) n i) ;;
  notify_if deleted ;;;
  hret (BJson (json_object [("ok", json_bool true); ("deleted", json_bool deleted)])).

Definition handle_delete_matching_objects (rq : Incoming) (n : string)
    (match_pattern : option string) : H HttpBody :=
  permit rq ObjectsDelete n ;;;
  deleted <- run_db (op_pdel (in_clock rq) n (default "*" match_pattern)) ;;
  notify_if (0 <? deleted)%Z ;;;
  hret (BJson (json_object [("ok", json_bool true); ("deleted", json_int deleted)])).

Definition handle_fset (rq : Incoming) (n i : string) (entries : list FieldEntry)
    (xx : option bool) : H HttpBody :=
  permit rq ObjectsWrite n ;;;
  updated <- run_db (op_fset (in_clock rq) n i entries (default false xx)) ;;
  notify_if updated ;;;
  hret (BJson (json_object [("ok", json_bool true); ("updated", json_bool updated)])).

Definition handle_fget (rq : Incoming) (n i field : string) : H HttpBody :=
  permit rq ObjectsRead n ;;;
  ensure_queries_allowed ;;;
  value <- run_db (op_fget (in_clock rq) n i field) ;;
  hret (BField value).

Definition handle_expire (rq : Incoming) (n i : string) (seconds : Z) : H HttpBody :=
  permit rq ObjectsWrite n ;;;
  run_db (op_expire (in_clock rq) n i seconds) ;;;
  notify_both ;;;
  hret (BJson (json_object [("ok", json_bool true)])).

Definition handle_persist (rq : Incoming) (n i : string) : H HttpBody :=
  permit rq ObjectsWrite n ;;;
  run_db (op_persist (in_clock rq) n i) ;;;
  notify_both ;;;
  hret (BJson (json_object [("ok", json_bool true)])).

Definition handle_ttl (rq : Incoming) (n i : string) : H HttpBody :=
  permit rq ObjectsRead n ;;;
  ensure_queries_allowed ;;;
  ttl <- run_db (op_ttl (in_clock rq) n i) ;;
  hret (BJson (json_object [("ttl", from_option json_int VNull ttl)])).

Definition handle_jset (rq : Incoming) (n i path value : string) (raw : option bool)
    : H HttpBody :=
  permit rq ObjectsWrite n ;;;
  run_db (op_jset (in_clock rq) n i path value (default false raw)) ;;;
  notify_both ;;;
  hret (BJson (json_object [("ok", json_bool true)])).

Definition handle_jget (rq : Incoming) (n i path : string) : H HttpBody :=
  permit rq ObjectsRead n ;;;
  ensure_queries_allowed ;;;
  value <- run_db (op_jget (in_clock rq) n i path) ;;
  hret (BJson (json_object [("value", from_option VString VNull value)])).

Definition handle_jdel (rq : Incoming) (n i path : string) : H HttpBody :=
  permit rq ObjectsWrite n ;;;
  deleted <- run_db (op_jdel (in_clock rq) n i path) ;;
  notify_if deleted ;;;
  hret (BJson (json_object [("deleted", json_bool deleted)])).

(** ** Handlers: searches *)

Definition search_with (rq : Incoming) (n : string)
    (op : bool → LatLng S → option (result SearchResults CoreError)) : H HttpBody :=
  permit rq QueriesRead n ;;;
  ensure_queries_allowed ;;;
  st <- hget ;;
  r <- run_query (op (hs_parallel st)) ;;
  hret (BResults r).

Definition handle_nearby (rq : Incoming) (n : string) (query : NearbyQuery) : H HttpBody :=
  search_with rq n (λ par db, Some (op_nearby par (in_clock rq) db n query)).
Definition handle_within (rq : Incoming) (n : string) (area : Area) (options : SearchOptions)
    : H HttpBody :=
  search_with rq n (λ par db, Some (op_within par (in_clock rq) db n area options)).
Definition handle_intersects (rq : Incoming) (n : string) (area : Area) (options : SearchOptions)
    : H HttpBody :=
  search_with rq n (λ par db, Some (op_intersects par (in_clock rq) db n area options)).
Definition handle_scan (rq : Incoming) (n : string) (options : SearchOptions) : H HttpBody :=
  search_with rq n (λ par db, op_scan par (in_clock rq) db n options).
Definition handle_search (rq : Incoming) (n : string) (options : SearchOptions) : H HttpBody :=
  search_with rq n (λ par db, op_search par (in_clock rq) db n options).

(** ** Handlers: channels and hooks *)

Definition handle_setchan (rq : Incoming) (name : string) (def : GeofenceDef) : H HttpBody :=
  permit rq ChannelsManage (def_collection def) ;;;
  run_db (op_setchan (in_clock rq) name def) ;;;
  notify_both ;;;
  hret (BJson (json_object [("ok", json_bool true); ("name", VString name)])).

Definition handle_delchan (rq : Incoming) (name : string) : H HttpBody :=
  p <- authenticated rq ;;
  st <- hget ;;
  (match channel_def (db_geofences (hs_db st)) name with
   | Some channel =>
       hlift (ensure_collection_action p ChannelsManage (def_collection (channel_fence channel)))
   | None => hret tt
   end) ;;;
  deleted <- run_db (op_delchan (in_clock rq) name) ;;
  notify_if deleted ;;;
  hret (BJson (json_object [("deleted", json_bool deleted)])).

Definition handle_channel (rq : Incoming) (name : string) : H HttpBody :=
  p <- authenticated rq ;;
  ensure_queries_allowed ;;;
  st <- hget ;;
  match channel_def (db_geofences (hs_db st)) name with
  | None => hfail (HNotFound ("channel not found: " +:+ name))
  | Some channel =>
      hlift (ensure_collection_action p ChannelsManage (def_collection (channel_fence channel))) ;;;
      hret (BChannel channel)
  end.

Definition handle_channels (rq : Incoming) (match_pattern : option string) : H HttpBody :=
  p <- authenticated rq ;;
  ensure_queries_allowed ;;;
  st <- hget ;;
  let r := db_geofences (hs_db st) in
  let channels := omap (channel_def r) (channel_names r (default "*" match_pattern)) in
  let visible :=
    filter (λ c, allows p ChannelsManage (def_collection (channel_fence c)) = true) channels in
  hret (BJson (json_object [("channels", json_strings (channel_name <$> visible))])).

Definition handle_sethook (rq : Incoming) (name url : string) (def : GeofenceDef) : H HttpBody :=
  permit rq HooksManage (def_collection def) ;;;
  run_db (op_sethook (in_clock rq) name url def) ;;;
  notify_both ;;;
  hret (BJson (json_object [("ok", json_bool true)])).

Definition handle_hook (rq : Incoming) (name : string) : H HttpBody :=
  p <- authenticated rq ;;
  ensure_queries_allowed ;;;
  st <- hget ;;
  match hook_def (db_geofences (hs_db st)) name with
  | None => hfail (HNotFound ("hook not found: " +:+ name))
  | Some hook =>
      hlift (ensure_collection_action p HooksManage (def_collection (hook_fence hook))) ;;;
      hret (BHook hook)
  end.

Definition handle_delhook (rq : Incoming) (name : string) : H HttpBody :=
  p <- authenticated rq ;;
  st <- hget ;;
  (match hook_def (db_geofences (hs_db st)) name with
   | Some hook =>
       hlift (ensure_collection_action p HooksManage (def_collection (hook_fence hook)))
   | None => hret tt
   end) ;;;
  deleted <- run_db (op_delhook (in_clock rq) name) ;;
  notify_if deleted ;;;
  hret (BJson (json_object [("deleted", json_bool deleted)])).

Definition handle_hooks (rq : Incoming) (match_pattern : option string) : H HttpBody :=
  p <- authenticated rq ;;
  ensure_queries_allowed ;;;
  st <- hget ;;
  let infos := hook_infos (db_geofences (hs_db st)) (default "*" match_pattern) in
  hret (BHooks (filter (λ h, allows p HooksManage (info_collection h) = true) infos)).

(** ** Handlers: configuration *)

Definition not_attached {A} : H A := hfail (HBadRequest "runtime config is not attached").

Definition runtime_value (f : RuntimeConfig → string) : H string := λ st,
  match hs_runtime_config st with
  | Some c => (st, Ok (f c))
  | None => not_attached st
  end.

Definition bool_text (b : bool) : string := if b then "true" else "false".

Definition handle_config_get (rq : Incoming) (name : string) : H HttpBody :=
  permit_admin rq ;;;
  st <- hget ;;
  let readonly := bool_text (read_only (db_config (hs_db st))) in
  value <-
    (if String.eqb name "readonly" then hret readonly
     else if String.eqb name "webhook_timeout_ms"
     then runtime_value (λ c, pretty (rc_webhook_timeout_ms c))
     else if String.eqb name "webhook_concurrency_limit"
     then runtime_value (λ c, pretty (rc_webhook_concurrency_limit c))
     else if String.eqb name "webhook_retry_count"
     then runtime_value (λ c, pretty (rc_webhook_retry_count c))
     else if String.eqb name "webhook_retry_initial_backoff_ms"
     then runtime_value (λ c, pretty (rc_webhook_retry_initial_backoff_ms c))
     else if String.eqb name "webhook_retry_max_backoff_ms"
     then runtime_value (λ c, pretty (rc_webhook_retry_max_backoff_ms c))
     else if String.eqb name "webhook_lease_ms"
     then runtime_value (λ c, pretty (rc_webhook_lease_ms c))
     else if String.eqb name "webhook_queue_path"
     then runtime_value (λ c, default "" (rc_webhook_queue_path c))
     else hfail (HNotFound name)) ;;
  hret (BJson (json_object [("value", VString value)])).

Definition put_retry_count (n : Z) : M (S := S) unit := λ db,
  put_config (mkConfig (read_only (db_config db)) (command_timeouts (db_config db))
                (config_queue_capacity (db_config db)) n) db.

Definition positive_setting (name value : string)
    (set : RuntimeConfig → Z → RuntimeConfig) : H unit :=
  match parse_positive U64_MAX value with
  | None => hfail (HBadRequest (name +:+ " must be a positive integer"))
  | Some n => update_runtime_config (λ c, set c n)
  end.

Definition truthy (value : string) : bool :=
  String.eqb value "true" || String.eqb value "yes" || String.eqb value "1".

Definition wakes_outbox (name : string) : bool :=
  existsb (String.eqb name)
    ["webhook_timeout_ms"; "webhook_concurrency_limit"; "webhook_retry_count";
     "webhook_retry_initial_backoff_ms"; "webhook_retry_max_backoff_ms"; "webhook_lease_ms"].

Definition handle_config_set (rq : Incoming) (name value : string) : H HttpBody :=
  permit_admin rq ;;;
  (if String.eqb name "readonly" then
     update_runtime_config (λ c, with_read_only c (truthy value)) ;;;
     http_sync_effective_read_only
   else if String.eqb name "webhook_timeout_ms"
   then positive_setting name value with_webhook_timeout_ms
   else if String.eqb name "webhook_concurrency_limit"
   then positive_setting name value with_webhook_concurrency_limit
   else if String.eqb name "webhook_retry_count" then
     match parse_unsigned U32_MAX value with
     | None => hfail (HBadRequest "webhook_retry_count must be an integer")
     | Some n =>
         update_runtime_config (λ c, with_webhook_retry_count c n) ;;;
         run_db (put_retry_count n)
     end
   else if String.eqb name "webhook_retry_initial_backoff_ms"
   then positive_setting name value with_webhook_retry_initial_backoff_ms
   else if String.eqb name "webhook_retry_max_backoff_ms"
   then positive_setting name value with_webhook_retry_max_backoff_ms
   else if String.eqb name "webhook_lease_ms"
   then positive_setting name value with_webhook_lease_ms
   else hfail (HNotFound name)) ;;;
  (if wakes_outbox name then notify_outbox else hret tt) ;;;
  hret (BJson (json_object [("ok", json_bool true)])).

Definition rewrite_runtime_config (rq : Incoming) (c : RuntimeConfig) : H unit := λ st,
  match rc_config_path c with
  | None => (st, Err (HBadRequest "no config file path is configured"))
  | Some path =>
      let '(files, r) := save_to_path (in_faults rq) c path (hs_files st) in
      (set_files st files, map_err (λ e, HInternal (config_error_text e)) r)
  end.

Definition handle_config_rewrite (rq : Incoming) : H HttpBody :=
  permit_admin rq ;;;
  st <- hget ;;
  match hs_runtime_config st with
  | None => not_attached
  | Some c =>
      rewrite_runtime_config rq c ;;;
      hret (BJson (json_object [("ok", json_bool true)]))
  end.

(** ** Handlers: administration *)

(** [FlushDbCoordinatorImpl::flushdb] on the state of the server; the
    coordinator also wakes both tasks and resets the gauges of the queue. *)
Definition flush_with_coordinator (clock : Clock) (epoch : Z) : H unit := λ st,
  let o := mkOutbox (hs_db st) (default open_in_memory (hs_webhook_queue st)) 0 epoch in
  match coordinator_flushdb clock o with
  | (o, Err e) => (set_db st (ob_db o), Err (HInternal (core_error_text e)))
  | (o, Ok _) =>
      (mkHttp (ob_db o) (hs_auth st)
         (update_webhook_queue_stats (hs_metrics st) 0 0 0 None) (hs_runtime_config st)
         ((λ _, ob_queue o) <$> hs_webhook_queue st) (Some (ob_epoch o))
         (Datatypes.S <$> hs_outbox_notify st) (hs_replication_status st)
         (Datatypes.S <$> hs_replication_notify st) (hs_files st) (hs_parallel st), Ok tt)
  end.

Definition handle_flushdb (rq : Incoming) : H HttpBody :=
  permit_admin rq ;;;
  st <- hget ;;
  (match hs_flushdb_coordinator st with
   | Some epoch => flush_with_coordinator (in_clock rq) epoch
   | None => run_db (op_flushdb (in_clock rq))
   end) ;;;
  notify_both ;;;
  hret (BJson (json_object [("ok", json_bool true)])).

Definition handle_gc (rq : Incoming) : H HttpBody :=
  permit_admin rq ;;;
  run_db (op_gc (in_clock rq)) ;;;
  hret (BJson (json_object [("ok", json_bool true)])).

Definition handle_aofshrink (rq : Incoming) : H HttpBody :=
  permit_admin rq ;;;
  st <- hget ;;
  result <-
    (match hs_webhook_queue st with
     | Some queue =>
         records <- hlift (map_err (λ e, HInternal (queue_error_text e))
                             (snapshot_log_records queue)) ;;
         run_db (mbind mget (λ db,
           rewrite_log_snapshot (in_clock rq)
             (snapshot_base_log_records (in_clock rq) db ++ records)))
     | None => run_db (op_aofshrink (in_clock rq))
     end) ;;
  notify_replication ;;;
  hret (BCompaction result).

Definition handle_webhook_queue_stats (rq : Incoming) : H HttpBody :=
  permit_admin rq ;;;
  st <- hget ;;
  match hs_webhook_queue st with
  | None => hfail (HBadRequest "webhook queue is not attached")
  | Some queue =>
      let stats := queue_stats (now_millis (in_clock rq)) queue in
      hret (BJson (json_object
        [("pending", json_u64 (stats_pending stats)); ("leased", json_u64 (stats_leased stats));
         ("dead_letter", json_u64 (stats_dead_letter stats));
         ("oldest_pending_age_ms", from_option json_u64 VNull (stats_oldest_pending_age_ms stats))]))
  end.

Definition handle_readonly (rq : Incoming) (enabled : bool) : H HttpBody :=
  permit_admin rq ;;;
  update_runtime_config (λ c, with_read_only c enabled) ;;;
  http_sync_effective_read_only ;;;
  hret (BJson (json_object [("ok", json_bool true); ("read_only", json_bool enabled)])).

Definition op_timeout (command : string) : M (S := S) (option f64) := λ db,
  (db, Ok (timeout_for (db_config db) command)).

Definition handle_timeout (rq : Incoming) (seconds : f64) (command : string) : H HttpBody :=
  permit_admin rq ;;;
  (if String.eqb (trim command) "" then hfail (HBadRequest "missing command") else hret tt) ;;;
  (if SFleb seconds fzero then
     run_db (mbind mget (λ db, put_config (config_clear_timeout (db_config db) command))) ;;;
     update_runtime_config (λ c, runtime_clear_timeout c command)
   else
     run_db (op_set_timeout command seconds) ;;;
     update_runtime_config (λ c, runtime_set_timeout c command seconds)) ;;;
  timeout <- run_db (op_timeout command) ;;
  hret (BJson (json_object
    [("ok", json_bool true); ("command", VString command);
     ("seconds", from_option json_f64 VNull timeout)])).

(** ** The router *)

Definition handle (rq : Incoming) (request : HttpRequest) : H HttpBody :=
  match request with
  | Rejected r => hfail (rejection_error r)
  | NoSuchRoute => hfail (HNotFound "no such route")
  | Ping => handle_ping rq
  | Healthz => handle_healthz rq
  | GetServer => handle_server rq
  | GetInfo section => handle_info rq section
  | GetMetrics => handle_metrics rq
  | GetApiDocs => handle_api_docs rq
  | ListCollections pattern => handle_collections rq pattern
  | GetCollection n => handle_collection_info rq n
  | CreateCollection n => handle_create_collection rq n
  | DropCollection n => handle_drop_collection rq n
  | RenameCollection n n' nx => handle_rename rq n n' nx
  | GetBounds n => handle_bounds rq n
  | GetStats n => handle_stats rq n
  | SetObject n i body => handle_set_object rq n i body
  | GetObject n i wf format precision => handle_get_object rq n i wf format precision
  | DeleteObject n i => handle_delete_object rq n i
  | DeleteObjects n pattern => handle_delete_matching_objects rq n pattern
  | SetFields n i entries xx => handle_fset rq n i entries xx
  | GetField n i field => handle_fget rq n i field
  | Expire n i seconds => handle_expire rq n i seconds
  | Persist n i => handle_persist rq n i
  | GetTtl n i => handle_ttl rq n i
  | SetJson n i path value raw => handle_jset rq n i path value raw
  | GetJson n i path => handle_jget rq n i path
  | DeleteJson n i path => handle_jdel rq n i path
  | SearchNearby n query => handle_nearby rq n query
  | SearchWithin n area options => handle_within rq n area options
  | SearchIntersects n area options => handle_intersects rq n area options
  | SearchScan n options => handle_scan rq n options
  | SearchText n options => handle_search rq n options
  | SetChannel name def => handle_setchan rq name def
  | ListChannels pattern => handle_channels rq pattern
  | GetChannel name => handle_channel rq name
  | DeleteChannel name => handle_delchan rq name
  | SetHook name url def => handle_sethook rq name url def
  | ListHooks pattern => handle_hooks rq pattern
  | GetHook name => handle_hook rq name
  | DeleteHook name => handle_delhook rq name
  | GetConfig name => handle_config_get rq name
  | SetConfig name value => handle_config_set rq name value
  | FlushDb => handle_flushdb rq
  | Gc => handle_gc rq
  | AofShrink => handle_aofshrink rq
  | GetWebhookQueue => handle_webhook_queue_stats rq
  | RewriteConfig => handle_config_rewrite rq
  | SetReadOnly enabled => handle_readonly rq enabled
  | SetTimeout seconds command => handle_timeout rq seconds command
  end.

(** [HttpError::into_response] and the status of an answer. *)
Definition answer_status (r : result HttpBody HttpError) : Z :=
  match r with Ok _ => 200 | Err e => http_status e end.

(** A request through [metrics_middleware]; it took [millis]. *)
Definition set_metrics (st : HttpState) (m : RequestMetrics) : HttpState :=
  mkHttp (hs_db st) (hs_auth st) m (hs_runtime_config st) (hs_webhook_queue st)
    (hs_flushdb_coordinator st) (hs_outbox_notify st) (hs_replication_status st)
    (hs_replication_notify st) (hs_files st) (hs_parallel st).

Definition route (rq : Incoming) (millis : Z) (request : HttpRequest) (st : HttpState)
    : HttpState * result HttpBody HttpError :=
  let st := set_metrics st (metrics_middleware_before (hs_metrics st)) in
  let '(st, r) := handle rq request st in
  (set_metrics st (metrics_middleware_after (hs_metrics st) millis (answer_status r)), r).

End Http.
