(* ===== verification/HttpFrame.v ===== *)
(** * What a request can touch

    Every engine operation changes only the collections, channels and hooks
    that it names.  The reasoning is a frame rule for the engine monad: from a
    state that agrees with [db0] outside a footprint, an operation leads to
    such a state. *)

From Stdlib Require Import ZArith Lia SpecFloat.
From stdpp Require Import base gmap strings list sorting.
From S2P Require Import Prelude Storage F64 Json Platform Geo Strings Index Geofence.
From S2P Require Import Collection CollectionSpec Engine EngineSpec.

Record Footprint := mkFootprint {
  fp_collections : gset string;
  fp_channels : gset string;
  fp_hooks : gset string
}.

Definition on_collections (ns : gset string) : Footprint := mkFootprint ns ∅ ∅.
Definition on_channel (n : string) : Footprint := mkFootprint ∅ {[n]} ∅.
Definition on_hook (n : string) : Footprint := mkFootprint ∅ ∅ {[n]}.

Section Frame.
Context `{LM : Libm} `{GC : GeoCrate} `{RC : RTreeCrate} `{JT : JsonText} `{PT : Patterns}
  `{HO : HashOrder} `{LC : LogCodec} `{MD : Md5} `{B64 : Base64}.
Context {S : Type} `{SB : StorageBackend S}.

(** The registry's definitions, which evaluation never changes. *)
Definition same_fences (chs hks : gset string) (r r' : GeofenceRegistry) : Prop :=
  (∀ n, n ∉ chs → channel_def r' n = channel_def r n) ∧
  (∀ n, n ∉ hks → hook_def r' n = hook_def r n).

Definition outside (F : Footprint) (db db' : LatLng S) : Prop :=
  (∀ n, n ∉ fp_collections F → db_collections db' !! n = db_collections db !! n) ∧
  same_fences (fp_channels F) (fp_hooks F) (db_geofences db) (db_geofences db') ∧
  db_config db' = db_config db.

Lemma v_channels_view cs r : v_channels (view_of cs r) = fence_def <$> channels r.
Proof. done. Qed.
Lemma v_hooks_view cs r : v_hooks (view_of cs r) = hook_view <$> hooks r.
Proof. done. Qed.

Lemma channel_def_view r n : channel_def r n = mkChannelDef n <$> (fence_def <$> channels r) !! n.
Proof. unfold channel_def. rewrite lookup_fmap. by destruct (channels r !! n). Qed.

Lemma hook_def_view r n :
  hook_def r n = (λ h, mkHookDef n h.1 h.2) <$> (hook_view <$> hooks r) !! n.
Proof. unfold hook_def. rewrite lookup_fmap. by destruct (hooks r !! n). Qed.

Lemma outside_refl F db : outside F db db.
Proof. done. Qed.

Definition frames (F : Footprint) (db0 : LatLng S) {A} (m : M A) : Prop :=
  ∀ db, outside F db0 db → outside F db0 (m db).1.

Section Rules.
Context (F : Footprint) (db0 : LatLng S).

Lemma frames_bind {A B} (m : M A) (k : A → M B) :
  frames F db0 m → (∀ a, frames F db0 (k a)) → frames F db0 (mbind m k).
Proof.
  intros Hm Hk db Hdb. unfold mbind. specialize (Hm db Hdb).
  destruct (m db) as [db1 [a|e]]; [by apply Hk | done].
Qed.

Lemma frames_get {B} (k : LatLng S → M B) :
  (∀ db, outside F db0 db → frames F db0 (k db)) → frames F db0 (mbind mget k).
Proof. intros Hk db Hdb. exact (Hk db Hdb db Hdb). Qed.

(** Operations that keep the collections and the registry. *)
Lemma frames_quiet {A} (m : M A) :
  (∀ db, db_collections (m db).1 = db_collections db ∧ db_geofences (m db).1 = db_geofences db ∧
         db_config (m db).1 = db_config db) →
  frames F db0 m.
Proof. intros Hm db Hdb. unfold outside. by destruct (Hm db) as (-> & -> & ->). Qed.

Lemma frames_put_collections cs :
  (∀ n, n ∉ fp_collections F → cs !! n = db_collections db0 !! n) →
  frames F db0 (put_collections cs).
Proof. intros Hcs db (_ & Hr & Hcfg). by split_and!. Qed.

Lemma frames_put_collection n v : n ∈ fp_collections F → frames F db0 (put_collection n v).
Proof.
  intros Hn db (Hc & Hr & Hcfg). split_and!; [|done..]. intros n' Hn'. simpl.
  rewrite lookup_insert_ne by set_solver. by apply Hc.
Qed.

Lemma frames_put_geofences r :
  same_fences (fp_channels F) (fp_hooks F) (db_geofences db0) r → frames F db0 (put_geofences r).
Proof. intros Hr db (Hc & _ & Hcfg). by split_and!. Qed.

Lemma frames_prepared p : frames F db0 (apply_prepared p).
Proof.
  intros db (Hc & [Hch Hhk] & Hcfg). split_and!; [done| |done].
  pose proof (apply_prepared_view ∅ (db_geofences db) p) as Hv.
  split; intros n Hn; cbn [fst db_geofences apply_prepared put_geofences].
  - by rewrite <-(Hch n Hn), !channel_def_view, <-!(v_channels_view ∅), Hv.
  - by rewrite <-(Hhk n Hn), !hook_def_view, <-!(v_hooks_view ∅), Hv.
Qed.

Lemma frames_append entries : frames F db0 (append_entries entries).
Proof. apply frames_quiet. intros db. unfold append_entries. by destruct (append_batch _ _). Qed.

Lemma frames_snapshot entries : frames F db0 (snapshot_storage entries).
Proof. apply frames_quiet. intros db. unfold snapshot_storage. by destruct (snapshot _ _). Qed.

End Rules.

Create HintDb frames discriminated.
#[local] Hint Resolve frames_append frames_snapshot frames_prepared : frames.

(** Walks through an operation: binds, branches, and steps that change
    neither collections nor fences. *)
Ltac frame :=
  repeat first
    [ solve [eauto with frames nocore]
    | progress intros
    | match goal with
      | |- frames _ _ (mbind mget _) => apply frames_get
      | |- frames _ _ (mbind _ _) => apply frames_bind
      | |- frames _ _ (match ?x with _ => _ end) => destruct x
      | |- frames _ _ (if ?x then _ else _) => destruct x
      | |- frames _ _ (let '_ := ?x in _) => destruct x
      end
    | match goal with
      | |- frames _ _ (put_collection _ _) => apply frames_put_collection; assumption
      end
    | solve [apply frames_quiet; intros ?; split_and!; reflexivity] ].

Section Operations.
Context (db0 : LatLng S).

Lemma frames_records F clock rs : frames F db0 (append_log_records clock rs).
Proof. unfold append_log_records. frame. Qed.
Lemma frames_batch F clock cmd ws : frames F db0 (persist_command_batch clock cmd ws).
Proof. unfold persist_command_batch. frame. Qed.
#[local] Hint Resolve frames_records frames_batch : frames.
Lemma frames_record F clock r : frames F db0 (append_log_record clock r).
Proof. unfold append_log_record. frame. Qed.
#[local] Hint Resolve frames_record : frames.

Lemma frames_all_prepared F ps : frames F db0 (apply_all_prepared ps).
Proof. induction ps; cbn [apply_all_prepared]; frame. Qed.
Lemma frames_plan_drops F clock n os : frames F db0 (plan_drops clock n os).
Proof. induction os; cbn [plan_drops]; frame. Qed.
#[local] Hint Resolve frames_all_prepared frames_plan_drops : frames.

Section OneCollection.
Context (F : Footprint) (n : string) (Hn : n ∈ fp_collections F).

Lemma frames_set clock req : sr_collection req = n → frames F db0 (op_set clock req).
Proof.
  intros <-. unfold op_set, try_set_local, set_exclusive, set_body, set_fast. frame.
Qed.

Lemma frames_del_exclusive clock i : frames F db0 (del_exclusive clock n i).
Proof. unfold del_exclusive, del_body. frame. Qed.
#[local] Hint Resolve frames_del_exclusive : frames.

Lemma frames_del clock i : frames F db0 (op_del clock n i).
Proof. unfold op_del, del_body. frame. Qed.

Lemma frames_del_all clock ids : ∀ removed, frames F db0 (del_all clock n ids removed).
Proof. induction ids; intros removed; cbn [del_all]; frame. Qed.
#[local] Hint Resolve frames_del_all : frames.

Lemma frames_pdel clock pattern : frames F db0 (op_pdel clock n pattern).
Proof. unfold op_pdel. frame. Qed.

Lemma frames_fset clock i fs xx : frames F db0 (op_fset clock n i fs xx).
Proof. unfold op_fset. frame. Qed.

Lemma frames_expiry clock i cmd d : frames F db0 (expiry_body clock n i cmd d).
Proof. unfold expiry_body. frame. Qed.

Lemma frames_edit clock i name edit cmd :
  frames F db0 (edit_geojson_local clock n i name edit cmd).
Proof. unfold edit_geojson_local. frame. Qed.

Lemma frames_create clock : frames F db0 (op_create_collection clock n).
Proof. unfold op_create_collection. frame. Qed.

Lemma frames_drop clock : frames F db0 (op_drop_collection clock n).
Proof.
  unfold op_drop_collection. frame. apply frames_put_collections. intros n' Hn'.
  rewrite lookup_delete_ne by set_solver. by apply H.
Qed.

Lemma frames_rename clock n' nx :
  n' ∈ fp_collections F → frames F db0 (rename_inner clock n n' nx).
Proof.
  intros Hn'. unfold rename_inner. frame. apply frames_put_collections. intros m Hm.
  rewrite lookup_insert_ne, lookup_delete_ne by set_solver. by apply H.
Qed.

End OneCollection.

(** Changing one channel or one hook. *)
Lemma fences_channel F n r r' :
  same_fences (fp_channels F) (fp_hooks F) (db_geofences db0) r → n ∈ fp_channels F →
  (∀ m, m ≠ n → (fence_def <$> channels r') !! m = (fence_def <$> channels r) !! m) →
  hook_view <$> hooks r' = hook_view <$> hooks r →
  same_fences (fp_channels F) (fp_hooks F) (db_geofences db0) r'.
Proof.
  intros [Hc Hh] Hn Hch Hhk. split; intros m Hm.
  - rewrite <-(Hc m Hm), !channel_def_view, Hch; [done | set_solver].
  - by rewrite <-(Hh m Hm), !hook_def_view, Hhk.
Qed.

Lemma fences_hook F n r r' :
  same_fences (fp_channels F) (fp_hooks F) (db_geofences db0) r → n ∈ fp_hooks F →
  (∀ m, m ≠ n → (hook_view <$> hooks r') !! m = (hook_view <$> hooks r) !! m) →
  fence_def <$> channels r' = fence_def <$> channels r →
  same_fences (fp_channels F) (fp_hooks F) (db_geofences db0) r'.
Proof.
  intros [Hc Hh] Hn Hhk Hch. split; intros m Hm.
  - by rewrite <-(Hc m Hm), !channel_def_view, Hch.
  - rewrite <-(Hh m Hm), !hook_def_view, Hhk; [done | set_solver].
Qed.

Lemma fences_set_channel F (db : LatLng S) n d : outside F db0 db → n ∈ fp_channels F →
  same_fences (fp_channels F) (fp_hooks F) (db_geofences db0) (set_channel (db_geofences db) n d).
Proof.
  intros (_ & Hr & _) Hn. pose proof (set_channel_view ∅ (db_geofences db) n d) as Hv.
  eapply fences_channel; [done|done| |].
  - intros m Hm. rewrite <-!(v_channels_view ∅), Hv. simpl. by rewrite lookup_insert_ne.
  - by rewrite <-!(v_hooks_view ∅), Hv.
Qed.

Lemma fences_set_hook F (db : LatLng S) n url d : outside F db0 db → n ∈ fp_hooks F →
  same_fences (fp_channels F) (fp_hooks F) (db_geofences db0) (set_hook (db_geofences db) n url d).
Proof.
  intros (_ & Hr & _) Hn. pose proof (set_hook_view ∅ (db_geofences db) n url d) as Hv.
  eapply fences_hook; [done|done| |].
  - intros m Hm. rewrite <-!(v_hooks_view ∅), Hv. simpl. by rewrite lookup_insert_ne.
  - by rewrite <-!(v_channels_view ∅), Hv.
Qed.

Lemma fences_del_channel F (db : LatLng S) n : outside F db0 db → n ∈ fp_channels F →
  same_fences (fp_channels F) (fp_hooks F) (db_geofences db0) (del_channel (db_geofences db) n).1.
Proof.
  intros (_ & Hr & _) Hn. destruct (del_channel_defs (db_geofences db) n) as [Hc Hh].
  eapply fences_channel; [done|done| |by rewrite Hh].
  intros m Hm. by rewrite Hc, !lookup_fmap, lookup_delete_ne.
Qed.

Lemma fences_del_hook F (db : LatLng S) n : outside F db0 db → n ∈ fp_hooks F →
  same_fences (fp_channels F) (fp_hooks F) (db_geofences db0) (del_hook (db_geofences db) n).1.
Proof.
  intros (_ & Hr & _) Hn. destruct (del_hook_defs (db_geofences db) n) as [Hh Hc].
  eapply fences_hook; [done|done| |by rewrite Hc].
  intros m Hm. by rewrite Hh, !lookup_fmap, lookup_delete_ne.
Qed.

Lemma frames_setchan F clock n d : n ∈ fp_channels F → frames F db0 (op_setchan clock n d).
Proof. intros Hn. unfold op_setchan. frame. by apply frames_put_geofences, fences_set_channel. Qed.

Lemma frames_sethook F clock n url d : n ∈ fp_hooks F → frames F db0 (op_sethook clock n url d).
Proof. intros Hn. unfold op_sethook. frame. by apply frames_put_geofences, fences_set_hook. Qed.

Lemma frames_delchan F clock n : n ∈ fp_channels F → frames F db0 (op_delchan clock n).
Proof.
  intros Hn. unfold op_delchan. do 2 (apply frames_bind; [frame|intros ?]). apply frames_get.
  intros db Hdb. pose proof (fences_del_channel F db n Hdb Hn).
  destruct (del_channel (db_geofences db) n). frame. by apply frames_put_geofences.
Qed.

Lemma frames_delhook F clock n : n ∈ fp_hooks F → frames F db0 (op_delhook clock n).
Proof.
  intros Hn. unfold op_delhook. do 2 (apply frames_bind; [frame|intros ?]). apply frames_get.
  intros db Hdb. pose proof (fences_del_hook F db n Hdb Hn).
  destruct (del_hook (db_geofences db) n). frame. by apply frames_put_geofences.
Qed.

(** After a step that touches nothing, an operation stops or goes on. *)
Definition nothing : Footprint := mkFootprint ∅ ∅ ∅.

Lemma frames_then {A B} (Q : LatLng S → Prop) (m : M A) (k : A → M B) :
  frames nothing db0 m → (∀ db, outside nothing db0 db → Q db) →
  (∀ a db, outside nothing db0 db → Q (k a db).1) →
  ∀ db, outside nothing db0 db → Q (mbind m k db).1.
Proof.
  intros Hm Hstop Hgo db Hdb. unfold mbind. specialize (Hm db Hdb).
  destruct (m db) as [db1 [a|e]]; [by apply Hgo | by apply Hstop].
Qed.

Lemma setchan_def clock n d :
  let r := db_geofences (op_setchan clock n d db0).1 in
  channel_def r n = channel_def (db_geofences db0) n ∨ channel_def r n = Some (mkChannelDef n d).
Proof.
  simpl. pattern (op_setchan clock n d db0).1. set (Q := λ db : LatLng S, _).
  assert (∀ db, outside nothing db0 db → Q db) as Hstop.
  { intros db (_ & [Hc _] & _). left. apply Hc. set_solver. }
  unfold op_setchan. apply frames_then; [frame|done|intros _|done].
  apply frames_then; [frame|done|intros _]. apply frames_then; [frame|done|intros _].
  intros db Hdb. right. simpl.
  by rewrite channel_def_view, <-(v_channels_view ∅), set_channel_view; simpl; rewrite lookup_insert_eq.
Qed.

Lemma sethook_def clock n url d :
  let r := db_geofences (op_sethook clock n url d db0).1 in
  hook_def r n = hook_def (db_geofences db0) n ∨ hook_def r n = Some (mkHookDef n url d).
Proof.
  simpl. pattern (op_sethook clock n url d db0).1. set (Q := λ db : LatLng S, _).
  assert (∀ db, outside nothing db0 db → Q db) as Hstop.
  { intros db (_ & [_ Hh] & _). left. apply Hh. set_solver. }
  unfold op_sethook. apply frames_then; [frame|done|intros _|done].
  apply frames_then; [frame|done|intros _]. apply frames_then; [frame|done|intros _].
  intros db Hdb. right. simpl.
  by rewrite hook_def_view, <-(v_hooks_view ∅), set_hook_view; simpl; rewrite lookup_insert_eq.
Qed.

Lemma delchan_def clock n :
  let r := db_geofences (op_delchan clock n db0).1 in
  channel_def r n = channel_def (db_geofences db0) n ∨ channel_def r n = None.
Proof.
  simpl. pattern (op_delchan clock n db0).1. set (Q := λ db : LatLng S, _).
  assert (∀ db, outside nothing db0 db → Q db) as Hstop.
  { intros db (_ & [Hc _] & _). left. apply Hc. set_solver. }
  unfold op_delchan. apply frames_then; [frame|done|intros _|done].
  apply frames_then; [frame|done|intros _]. intros db Hdb. right. unfold mbind, mget.
  destruct (del_channel_defs (db_geofences db) n) as [Hc _].
  destruct (del_channel (db_geofences db) n) as [r b]. simpl in *.
  unfold channel_def. by rewrite Hc, lookup_delete_eq.
Qed.

Lemma delhook_def clock n :
  let r := db_geofences (op_delhook clock n db0).1 in
  hook_def r n = hook_def (db_geofences db0) n ∨ hook_def r n = None.
Proof.
  simpl. pattern (op_delhook clock n db0).1. set (Q := λ db : LatLng S, _).
  assert (∀ db, outside nothing db0 db → Q db) as Hstop.
  { intros db (_ & [_ Hh] & _). left. apply Hh. set_solver. }
  unfold op_delhook. apply frames_then; [frame|done|intros _|done].
  apply frames_then; [frame|done|intros _]. intros db Hdb. right. unfold mbind, mget.
  destruct (del_hook_defs (db_geofences db) n) as [Hh _].
  destruct (del_hook (db_geofences db) n) as [r b]. simpl in *.
  unfold hook_def. by rewrite Hh, lookup_delete_eq.
Qed.

Lemma frames_rewrite F clock rs : frames F db0 (rewrite_log_snapshot clock rs).
Proof. unfold rewrite_log_snapshot. frame. Qed.

End Operations.
End Frame.
