(* ===== verification/HttpSpec.v ===== *)
(** * What the HTTP interface promises

    - Nothing changes without the permission for it: a collection, a channel,
      a hook or a setting differs after a request only when the request was
      authenticated as a principal that may change it.
    - An answer tells a principal only what it may see.
    - While a follower has not caught up, it answers no query.
    - A write that was logged and acknowledged wakes the outbox and the
      replication streams. *)

From Stdlib Require Import ZArith Lia SpecFloat.
From stdpp Require Import base gmap strings list sorting pretty.
From S2P Require Import Prelude Storage F64 Json Platform Geo Strings Index Geofence.
From S2P Require Import Collection CollectionSpec Engine EngineSpec Queries WebhookQueue Outbox.
From S2P Require Import Replication Auth AuthSpec Config Metrics Http HttpFrame.

Section Requests.
Context `{LM : Libm} `{GC : GeoCrate} `{RC : RTreeCrate} `{JT : JsonText} `{PT : Patterns}
  `{HO : HashOrder} `{LC : LogCodec} `{MD : Md5} `{B64 : Base64} `{EC : EventCodec}
  `{SN : SelectNth} `{JW : JwtCrate} `{CT : ConfigText}.
Context {S : Type} `{SB : StorageBackend S}.

(** The principal a request is authenticated as. *)
Definition principal_of (rq : Incoming) (st : HttpState (S := S)) : option AuthPrincipal :=
  match (authenticate_headers (hs_auth st) (in_env rq) (in_header rq) (in_cached rq)).2 with
  | Ok p => Some p
  | Err _ => None
  end.

(** The settings of the server and its files. *)
Definition same_settings (st st' : HttpState (S := S)) : Prop :=
  hs_runtime_config st' = hs_runtime_config st ∧ hs_webhook_queue st' = hs_webhook_queue st ∧
  hs_files st' = hs_files st.

Definition same_data (st st' : HttpState (S := S)) : Prop :=
  hs_db st' = hs_db st ∧ same_settings st st'.

(** A step that keeps all data, whatever it answers. *)
Definition silent {A} (m : H (S := S) A) : Prop := ∀ st, same_data st (m st).1.

Lemma same_data_trans st1 st2 st3 : same_data st1 st2 → same_data st2 st3 → same_data st1 st3.
Proof. unfold same_data, same_settings. intuition congruence. Qed.

Lemma silent_bind {A B} (m : H A) (k : A → H B) :
  silent m → (∀ a, silent (k a)) → silent (hbind m k).
Proof.
  intros Hm Hk st. unfold hbind. specialize (Hm st).
  destruct (m st) as [st1 [a|e]]; [|done]. by eapply same_data_trans, Hk.
Qed.

Lemma silent_auth rq : silent (authenticated rq).
Proof. intros st. unfold authenticated. by destruct (authenticate_headers _ _ _ _). Qed.

Lemma silent_queries : silent ensure_queries_allowed.
Proof. intros st. unfold ensure_queries_allowed. repeat case_match; done. Qed.

Lemma silent_query {A} (op : LatLng S → option (result A CoreError)) : silent (run_query op).
Proof. done. Qed.

(** An engine operation that leaves the database as it is. *)
Lemma silent_db {A} (op : M (S := S) A) : (∀ db, (op db).1 = db) → silent (run_db op).
Proof.
  intros Hop st. unfold run_db. specialize (Hop (hs_db st)).
  destruct (op (hs_db st)) as [db r]. simpl in *. by subst.
Qed.

Create HintDb silent discriminated.
#[local] Hint Resolve silent_auth silent_queries silent_query : silent.

Ltac silently :=
  repeat first
    [ solve [eauto with silent nocore]
    | progress intros
    | match goal with
      | |- silent (hbind _ _) => apply silent_bind
      | |- silent (match ?x with _ => _ end) => destruct x
      | |- silent (if ?x then _ else _) => destruct x
      | |- silent (run_db _) => apply silent_db
      end
    | solve [intros ?; reflexivity]
    | solve [intros ?; repeat split] ].

Lemma silent_notify_if b : silent (notify_if b).
Proof. unfold notify_if, notify_both. silently. Qed.
Lemma silent_notify_both : silent notify_both.
Proof. unfold notify_both. silently. Qed.
Lemma silent_permit rq a n : silent (permit rq a n).
Proof. unfold permit. silently. Qed.
Lemma silent_admin rq : silent (permit_admin rq).
Proof. unfold permit_admin. silently. Qed.
#[local] Hint Resolve silent_notify_if silent_notify_both silent_permit silent_admin : silent.

(** ** Permission *)

Lemma principal_of_spec rq st st1 p :
  authenticated rq st = (st1, Ok p) → principal_of rq st = Some p.
Proof.
  unfold authenticated, principal_of. destruct (authenticate_headers _ _ _ _) as [a r].
  by intros [= _ ->].
Qed.

Lemma permit_spec rq a n st st1 p :
  permit rq a n st = (st1, Ok p) → principal_of rq st = Some p ∧ allows p a n = true.
Proof.
  unfold permit, hbind, hlift, ensure_collection_action, hret.
  destruct (authenticated rq st) as [st2 [p'|e]] eqn:Ha; [|done].
  destruct (allows p' a n) eqn:Hok; [|done]. intros [= _ <-].
  eauto using principal_of_spec.
Qed.

Lemma permit_admin_spec rq st st1 p :
  permit_admin rq st = (st1, Ok p) → principal_of rq st = Some p ∧ allows_global p AdminAll = true.
Proof.
  unfold permit_admin, hbind, hlift, ensure_admin, ensure_global_action, hret.
  destruct (authenticated rq st) as [st2 [p'|e]] eqn:Ha; [|done].
  destruct (allows_global p' AdminAll) eqn:Hok; [|done]. intros [= _ <-].
  eauto using principal_of_spec.
Qed.

(** *** Steps that change one thing *)

(** After [m] the data are those from before, or those after the engine
    operation [op] with the settings untouched. *)
Definition runs {A B} (op : M (S := S) B) (m : H (S := S) A) : Prop := ∀ st,
  same_data st (m st).1 ∨
  (hs_db (m st).1 = (op (hs_db st)).1 ∧ same_settings st (m st).1).

Lemma runs_db {A B} (op : M A) (k : A → H B) :
  (∀ a, silent (k a)) → runs op (hbind (run_db op) k).
Proof.
  intros Hk st. right. unfold hbind, run_db.
  destruct (op (hs_db st)) as [db [a|e]]; simpl; [|done].
  destruct (Hk a (set_db st db)) as [Hdb (H1 & H2 & H3)]. by split_and!.
Qed.

Lemma runs_after {A B C} (op : M B) (m : H C) (k : C → H A) :
  silent m → (∀ c, runs op (k c)) → runs op (hbind m k).
Proof.
  intros Hm Hk st. unfold hbind. specialize (Hm st).
  destruct (m st) as [st1 [c|e]]; [|by left]. destruct Hm as [Hdb (H1 & H2 & H3)].
  simpl in *. unfold same_data, same_settings. rewrite <-Hdb, <-H1, <-H2, <-H3. apply Hk.
Qed.

(** A handler that asks for a permission and then runs an operation. *)
Lemma permit_runs {A B} rq a n (op : M B) (k : AuthPrincipal → H A) st :
  (∀ p, runs op (k p)) →
  let st' := (hbind (permit rq a n) k st).1 in
  same_data st st' ∨
  ((∃ p, principal_of rq st = Some p ∧ allows p a n = true) ∧
   hs_db st' = (op (hs_db st)).1 ∧ same_settings st st').
Proof.
  intros Hk. simpl. pose proof (runs_after op (permit rq a n) (λ p, k p) (silent_permit _ _ _) Hk st)
    as Hruns. destruct Hruns as [?|[Hdb Hs]]; [by left|]. revert Hdb Hs. unfold hbind.
  pose proof (silent_permit rq a n st) as Hp.
  destruct (permit rq a n st) as [st1 [p|e]] eqn:Hperm; [|by left].
  intros Hdb Hs. right. split; [|done]. exists p. by eapply permit_spec.
Qed.

(** *** The claim *)

(** The permissions on collections that a request needs before it may change
    them: every one of them.  Renaming needs [collections:delete] for the old
    name and [collections:create] for the new one, whether or not a collection
    is in the way there. *)
Definition acts (request : HttpRequest) : list (AuthAction * string) :=
  match request with
  | CreateCollection n => [(CollectionsCreate, n)]
  | DropCollection n => [(CollectionsDelete, n)]
  | RenameCollection n n' _ => [(CollectionsDelete, n); (CollectionsCreate, n')]
  | SetObject n _ _ | SetFields n _ _ _ | Http.Expire n _ _ | Http.Persist n _
  | SetJson n _ _ _ _ | DeleteJson n _ _ => [(ObjectsWrite, n)]
  | DeleteObject n _ | DeleteObjects n _ => [(ObjectsDelete, n)]
  | _ => []
  end.

(** The collection that decides over a channel or hook: the one of its
    definition afterwards, also when that replaces a definition of another
    collection, or the one before when it is gone. *)
Definition channel_owner (before after : option ChannelDef) : option string :=
  (λ c, def_collection (channel_fence c)) <$> (if after then after else before).
Definition hook_owner (before after : option HookDef) : option string :=
  (λ h, def_collection (hook_fence h)) <$> (if after then after else before).

(** Somebody is authenticated who is an administrator or satisfies [P]. *)
Definition by_principal (who : option AuthPrincipal) (P : AuthPrincipal → Prop) : Prop :=
  ∃ p, who = Some p ∧ (allows_global p AdminAll = true ∨ P p).

(** Between [st] and [st'] only that changed which [who] may change, relying
    on the permissions [granted]. *)
Record authorised (who : option AuthPrincipal) (granted : list (AuthAction * string))
    (st st' : HttpState (S := S)) : Prop := {
  authorised_cells : ∀ c, db_collections (hs_db st') !! c ≠ db_collections (hs_db st) !! c →
    by_principal who (λ p, c ∈ granted.*2 ∧ Forall (λ ac, allows p ac.1 ac.2 = true) granted);
  authorised_channels : ∀ n,
    let before := channel_def (db_geofences (hs_db st)) n in
    let after := channel_def (db_geofences (hs_db st')) n in
    after ≠ before →
    by_principal who (λ p, ∃ c, channel_owner before after = Some c ∧
                                allows p ChannelsManage c = true);
  authorised_hooks : ∀ n,
    let before := hook_def (db_geofences (hs_db st)) n in
    let after := hook_def (db_geofences (hs_db st')) n in
    after ≠ before →
    by_principal who (λ p, ∃ c, hook_owner before after = Some c ∧
                                allows p HooksManage c = true);
  authorised_settings : ¬ (same_settings st st' ∧ db_config (hs_db st') = db_config (hs_db st)) →
    by_principal who (λ _, False)
}.

Definition lawful (rq : Incoming) (request : HttpRequest) (st st' : HttpState (S := S)) : Prop :=
  authorised (principal_of rq st) (acts request) st st'.

Lemma authorised_same who granted st st' : same_data st st' → authorised who granted st st'.
Proof. intros [Hdb Hs]. split; simpl; rewrite Hdb; try done. intros []. by split. Qed.

(** An administrator may change everything. *)
Lemma authorised_admin p granted st st' :
  allows_global p AdminAll = true → authorised (Some p) granted st st'.
Proof. intros Ha. split; intros; exists p; eauto. Qed.

(** A change framed by a footprint. *)
Lemma authorised_framed who granted st st' F :
  outside F (hs_db st) (hs_db st') → same_settings st st' →
  (∀ c, c ∈ fp_collections F →
     by_principal who (λ p, c ∈ granted.*2 ∧ Forall (λ ac, allows p ac.1 ac.2 = true) granted)) →
  (∀ n, n ∈ fp_channels F →
    let before := channel_def (db_geofences (hs_db st)) n in
    let after := channel_def (db_geofences (hs_db st')) n in
    after = before ∨ by_principal who (λ p, ∃ c, channel_owner before after = Some c ∧
                                                 allows p ChannelsManage c = true)) →
  (∀ n, n ∈ fp_hooks F →
    let before := hook_def (db_geofences (hs_db st)) n in
    let after := hook_def (db_geofences (hs_db st')) n in
    after = before ∨ by_principal who (λ p, ∃ c, hook_owner before after = Some c ∧
                                                 allows p HooksManage c = true)) →
  authorised who granted st st'.
Proof.
  intros (Hc & [Hch Hhk] & Hcfg) Hs HC HCh HHk. split.
  - intros c Hne. destruct (decide (c ∈ fp_collections F)); [by apply HC|]. by rewrite Hc in Hne.
  - intros n. simpl. intros Hne. destruct (decide (n ∈ fp_channels F)) as [Hn|Hn].
    + by destruct (HCh n Hn).
    + by rewrite Hch in Hne.
  - intros n. simpl. intros Hne. destruct (decide (n ∈ fp_hooks F)) as [Hn|Hn].
    + by destruct (HHk n Hn).
    + by rewrite Hhk in Hne.
  - intros []. by split.
Qed.

Lemma lawful_same rq request st st' : same_data st st' → lawful rq request st st'.
Proof. apply authorised_same. Qed.

Lemma lawful_silent rq request (m : H HttpBody) st : silent m → lawful rq request st (m st).1.
Proof. intros Hm. apply lawful_same, Hm. Qed.

(** Behind the administrator's check everything is lawful. *)
Lemma lawful_admin rq request (k : AuthPrincipal → H HttpBody) st :
  lawful rq request st (hbind (permit_admin rq) k st).1.
Proof.
  unfold hbind. pose proof (silent_admin rq st) as Hs.
  destruct (permit_admin rq st) as [st1 [p|e]] eqn:Hp; [|by apply lawful_same].
  apply permit_admin_spec in Hp as [Hp Ha]. unfold lawful. rewrite Hp. by apply authorised_admin.
Qed.

(** Handlers that ask for one permission on one collection. *)
Lemma lawful_permit {B} rq request a n (op : M B) (k : AuthPrincipal → H HttpBody) st :
  acts request = [(a, n)] → (∀ p, runs op (k p)) →
  frames (on_collections {[n]}) (hs_db st) op →
  lawful rq request st (hbind (permit rq a n) k st).1.
Proof.
  intros Hin Hk Hop. destruct (permit_runs rq a n op k st Hk) as [Hs|((p & Hp & Ha) & Hdb & Hs)];
    [by apply lawful_same|].
  apply (authorised_framed _ _ _ _ (on_collections {[n]})); [|done| |set_solver|set_solver].
  - rewrite Hdb. apply Hop, outside_refl.
  - intros c; cbn; intros ->%elem_of_singleton. exists p. split; [done|right]. rewrite Hin.
    split; [by left | by apply Forall_singleton].
Qed.

(** An operation after steps that keep the data. *)
Lemma lawful_runs {B} rq request st st1 F (op : M B) (m : H HttpBody) :
  same_data st st1 → runs op m → frames F (hs_db st) op →
  (∀ st', hs_db st' = (op (hs_db st)).1 → outside F (hs_db st) (hs_db st') → same_settings st st' →
     lawful rq request st st') →
  lawful rq request st (m st1).1.
Proof.
  intros Hs1 Hruns Hop Hk. destruct (Hruns st1) as [Hs|[Hdb Hs]].
  - apply lawful_same. by eapply same_data_trans.
  - destruct Hs1 as [Hdb1 Hs1]. rewrite Hdb1 in Hdb. apply Hk; [done| |].
    + rewrite Hdb. apply Hop, outside_refl.
    + unfold same_settings in *. intuition congruence.
Qed.

Lemma lawful_rename rq n n' nx st : lawful rq (RenameCollection n n' nx) st
  (handle_rename rq n n' nx st).1.
Proof.
  unfold handle_rename. pose proof (silent_auth rq st) as Hs. unfold hbind at 1.
  destruct (authenticated rq st) as [st1 [p|e]] eqn:Hp; [|by apply lawful_same].
  apply principal_of_spec in Hp. unfold hlift, ensure_collection_action.
  unfold hbind at 1 2.
  destruct (allows p CollectionsDelete n) eqn:H1; [|by apply lawful_same].
  destruct (allows p CollectionsCreate n') eqn:H2; [|by apply lawful_same].
  apply (lawful_runs _ _ _ _ (on_collections {[n; n']})
           (rename_inner (in_clock rq) n n' (default false nx))); [done| | |].
  { apply runs_db. silently. }
  { apply frames_rename; set_solver. }
  intros st' _ Hout Hs'. apply (authorised_framed _ _ _ _ _ Hout Hs'); [|set_solver..].
  intros c; cbn; intros [->%elem_of_singleton | ->%elem_of_singleton]%elem_of_union; exists p;
    (split; [done|right; split; [set_solver|by repeat constructor]]).
Qed.

Lemma lawful_setchan rq n d st :
  lawful rq (SetChannel n d) st (handle_setchan rq n d st).1.
Proof.
  unfold handle_setchan.
  match goal with |- lawful _ _ _ (hbind _ ?k _).1 =>
    destruct (permit_runs rq ChannelsManage (def_collection d) (op_setchan (in_clock rq) n d) k st)
      as [Hs|((p & Hp & Ha) & Hdb & Hs)] end;
    [intros p; apply runs_db; silently|by apply lawful_same|].
  apply (authorised_framed _ _ _ _ (on_channel n)); [|done|set_solver| |set_solver].
  - rewrite Hdb. apply frames_setchan; [set_solver|apply outside_refl].
  - intros m; cbn; intros ->%elem_of_singleton. rewrite Hdb.
    destruct (setchan_def (hs_db st) (in_clock rq) n d) as [->| ->]; [by left|right].
    exists p. split; [done|right]. exists (def_collection d). eauto.
Qed.

Lemma lawful_sethook rq n url d st :
  lawful rq (SetHook n url d) st (handle_sethook rq n url d st).1.
Proof.
  unfold handle_sethook.
  match goal with |- lawful _ _ _ (hbind _ ?k _).1 =>
    destruct (permit_runs rq HooksManage (def_collection d) (op_sethook (in_clock rq) n url d) k st)
      as [Hs|((p & Hp & Ha) & Hdb & Hs)] end;
    [intros p; apply runs_db; silently|by apply lawful_same|].
  apply (authorised_framed _ _ _ _ (on_hook n)); [|done|set_solver|set_solver|].
  - rewrite Hdb. apply frames_sethook; [set_solver|apply outside_refl].
  - intros m; cbn; intros ->%elem_of_singleton. rewrite Hdb.
    destruct (sethook_def (hs_db st) (in_clock rq) n url d) as [->| ->]; [by left|right].
    exists p. split; [done|right]. exists (def_collection d). eauto.
Qed.

(** Deleting asks for the permission on the collection of what is there. *)
Lemma lawful_delchan rq n st : lawful rq (DeleteChannel n) st (handle_delchan rq n st).1.
Proof.
  unfold handle_delchan. pose proof (silent_auth rq st) as Hs. unfold hbind at 1.
  destruct (authenticated rq st) as [st1 [p|e]] eqn:Hp; [|by apply lawful_same].
  apply principal_of_spec in Hp. pose proof Hs as [Hdb _]. simpl in Hs, Hdb.
  unfold hget. unfold hbind at 1 2. rewrite Hdb.
  assert (∀ m : H HttpBody, runs (op_delchan (in_clock rq) n) m →
    from_option (λ d, allows p ChannelsManage (def_collection (channel_fence d)) = true) True
      (channel_def (db_geofences (hs_db st)) n) →
    lawful rq (DeleteChannel n) st (m st1).1) as Hdel.
  { intros m Hruns Hperm. eapply (lawful_runs _ _ _ _ (on_channel n)); [done..| |].
    { apply frames_delchan. set_solver. }
    intros st' Hst' Hout Hs'. apply (authorised_framed _ _ _ _ _ Hout Hs'); try set_solver.
    intros k; cbn; intros ->%elem_of_singleton. rewrite Hst'.
    destruct (delchan_def (hs_db st) (in_clock rq) n) as [->| ->]; [by left|].
    destruct (channel_def (db_geofences (hs_db st)) n) as [d|]; [right|by left].
    exists p. split; [done|right]. eexists. split; [done|exact Hperm]. }
  destruct (channel_def (db_geofences (hs_db st)) n) as [d|] eqn:Hd.
  - unfold hlift, ensure_collection_action.
    destruct (allows p ChannelsManage (def_collection (channel_fence d))) eqn:Ha; [|by apply lawful_same].
    apply Hdel; [apply runs_db; silently | done].
  - apply (Hdel (hbind (run_db (op_delchan (in_clock rq) n)) _)); [apply runs_db; silently | done].
Qed.

Lemma lawful_delhook rq n st : lawful rq (DeleteHook n) st (handle_delhook rq n st).1.
Proof.
  unfold handle_delhook. pose proof (silent_auth rq st) as Hs. unfold hbind at 1.
  destruct (authenticated rq st) as [st1 [p|e]] eqn:Hp; [|by apply lawful_same].
  apply principal_of_spec in Hp. pose proof Hs as [Hdb _]. simpl in Hs, Hdb.
  unfold hget. unfold hbind at 1 2. rewrite Hdb.
  assert (∀ m : H HttpBody, runs (op_delhook (in_clock rq) n) m →
    from_option (λ d, allows p HooksManage (def_collection (hook_fence d)) = true) True
      (hook_def (db_geofences (hs_db st)) n) →
    lawful rq (DeleteHook n) st (m st1).1) as Hdel.
  { intros m Hruns Hperm. eapply (lawful_runs _ _ _ _ (on_hook n)); [done..| |].
    { apply frames_delhook. set_solver. }
    intros st' Hst' Hout Hs'. apply (authorised_framed _ _ _ _ _ Hout Hs'); try set_solver.
    intros k; cbn; intros ->%elem_of_singleton. rewrite Hst'.
    destruct (delhook_def (hs_db st) (in_clock rq) n) as [->| ->]; [by left|].
    destruct (hook_def (db_geofences (hs_db st)) n) as [d|]; [right|by left].
    exists p. split; [done|right]. eexists. split; [done|exact Hperm]. }
  destruct (hook_def (db_geofences (hs_db st)) n) as [d|] eqn:Hd.
  - unfold hlift, ensure_collection_action.
    destruct (allows p HooksManage (def_collection (hook_fence d))) eqn:Ha; [|by apply lawful_same].
    apply Hdel; [apply runs_db; silently | done].
  - apply (Hdel (hbind (run_db (op_delhook (in_clock rq) n)) _)); [apply runs_db; silently | done].
Qed.

(** *** Requests that read *)

Lemma silent_search rq n op : silent (search_with rq n op).
Proof. unfold search_with. silently. Qed.
#[local] Hint Resolve silent_search : silent.

Lemma get_same clock n i format keep db : (op_get (S := S) clock n i format keep db).1 = db.
Proof.
  unfold op_get, mbind, get_live_object, mlift, mret. by destruct (db_collections db !! n ≫= _).
Qed.

Lemma jget_same clock n i path db : (op_jget (S := S) clock n i path db).1 = db.
Proof.
  unfold op_jget, mbind, get_live_object, mlift, mret.
  destruct (db_collections db !! n ≫= _); [|done]. by destruct (json_value _).
Qed.

Lemma bounds_same n db : (op_bounds (S := S) n db).1 = db.
Proof.
  unfold op_bounds, mbind, collection_handle, mlift, mret. by destruct (db_collections db !! n).
Qed.

Lemma stats_and_bounds_same clock n db : (op_stats_and_bounds (S := S) clock n db).1 = db.
Proof.
  unfold op_stats_and_bounds, mbind, op_stats. pose proof (bounds_same n db) as Hb.
  by destruct (op_bounds n db) as [db' [b|e]].
Qed.

Lemma silent_server_info rq : silent (server_info rq).
Proof. unfold server_info. silently. Qed.

Lemma silent_runtime_value f : silent (runtime_value f).
Proof. intros st. unfold runtime_value, not_attached, hfail. by destruct (hs_runtime_config st). Qed.

(** The requests that only read. *)
Definition is_read (request : HttpRequest) : bool :=
  match request with
  | Rejected _ | NoSuchRoute | Ping | Healthz | GetServer | GetInfo _ | GetMetrics | GetApiDocs
  | ListCollections _ | GetCollection _ | GetBounds _ | GetStats _ | GetObject _ _ _ _ _
  | GetField _ _ _ | GetTtl _ _ | GetJson _ _ _ | SearchNearby _ _ | SearchWithin _ _ _
  | SearchIntersects _ _ _ | SearchScan _ _ | SearchText _ _ | ListChannels _ | GetChannel _
  | ListHooks _ | GetHook _ | GetConfig _ | GetWebhookQueue => true
  | _ => false
  end.

#[local] Hint Resolve get_same jget_same bounds_same stats_and_bounds_same silent_server_info
  silent_runtime_value : silent.

Lemma silent_reads rq request : is_read request = true → silent (handle rq request).
Proof.
  destruct request; intros Hr; try discriminate Hr; cbn [handle];
    unfold handle_ping, handle_healthz, handle_server, handle_info, handle_metrics,
      handle_api_docs, handle_collections, handle_collection_info, handle_bounds, handle_stats,
      handle_get_object, handle_fget, handle_ttl, handle_jget, handle_nearby, handle_within,
      handle_intersects, handle_scan, handle_search, handle_channels, handle_channel,
      handle_hooks, handle_hook, handle_config_get, handle_webhook_queue_stats;
    silently.
Qed.

Lemma lawful_handle rq request st : lawful rq request st (handle rq request st).1.
Proof.
  destruct (is_read request) eqn:Hr; [by apply lawful_silent, silent_reads|].
  destruct request; try discriminate Hr; cbn [handle]; clear Hr;
    eauto using lawful_rename, lawful_setchan, lawful_sethook, lawful_delchan, lawful_delhook;
    try apply lawful_admin.
  all: eapply lawful_permit; [reflexivity|intros p; apply runs_db; silently|].
  all: first [apply frames_create | apply frames_drop | eapply frames_set | apply frames_del
             | apply frames_pdel | apply frames_fset | apply frames_expiry | apply frames_edit];
    first [done | cbn; by apply elem_of_singleton].
Qed.


(** ** A follower that has not caught up *)

(** The queries, with the permission they ask for before anything else. *)
Definition query_needs (request : HttpRequest) : option (option (AuthAction * string)) :=
  match request with
  | Healthz | ListCollections _ | ListChannels _ | GetChannel _ | ListHooks _ | GetHook _ =>
      Some None
  | GetCollection n | GetBounds n | GetStats n => Some (Some (CollectionsInspect, n))
  | GetObject n _ _ _ _ | GetField n _ _ | GetTtl n _ | GetJson n _ _ =>
      Some (Some (ObjectsRead, n))
  | SearchNearby n _ | SearchWithin n _ _ | SearchIntersects n _ _ | SearchScan n _
  | SearchText n _ => Some (Some (QueriesRead, n))
  | _ => None
  end.

Definition permitted (p : AuthPrincipal) (need : option (AuthAction * string)) : bool :=
  match need with Some (a, n) => allows p a n | None => true end.

Definition behind (st : HttpState (S := S)) : Prop :=
  ∃ status, hs_replication_status st = Some status ∧ queries_allowed status = false.

Definition catching_up : HttpError := HUnavailable "catching up to leader".

Lemma behind_refuses {A} st (k : H A) : behind st →
  (hbind ensure_queries_allowed (λ _, k) st).2 = Err catching_up.
Proof.
  intros (status & Hs & Hq). unfold hbind, ensure_queries_allowed, replication_snapshot.
  by rewrite Hs, Hq.
Qed.

Lemma behind_auth {A} rq p (k : AuthPrincipal → H A) st : behind st → principal_of rq st = Some p →
  (hbind (authenticated rq) (λ p, hbind ensure_queries_allowed (λ _, k p)) st).2 = Err catching_up.
Proof.
  intros Hb Hp. unfold hbind at 1.
  unfold principal_of, authenticated in *. destruct (authenticate_headers _ _ _ _) as [a [q|e]];
    [|done]. by apply behind_refuses.
Qed.

Lemma behind_permit {A} rq p a n (k : H A) st : behind st → principal_of rq st = Some p →
  (hbind (permit rq a n) (λ _, hbind ensure_queries_allowed (λ _, k)) st).2 =
  Err (if allows p a n then catching_up else HForbidden).
Proof.
  intros Hb Hp.
  unfold permit, hlift, ensure_collection_action, hret. unfold hbind at 1 2 3.
  unfold principal_of, authenticated in *. destruct (authenticate_headers _ _ _ _) as [b [q|e]];
    [|done]. injection Hp as ->. destruct (allows p a n); [|done].
  by apply behind_refuses.
Qed.

(** C28: a follower that has not caught up once answers no query over HTTP.
    An HTTP query that authenticates is refused as unavailable, or as
    forbidden when the principal lacks its permission, and changes no data.
    (Over RPC some listings answer as if there were nothing,
    [behind_denies_existence].) *)
Theorem behind_answers_no_query rq request need p st :
  behind st → query_needs request = Some need → principal_of rq st = Some p →
  (handle rq request st).2 = Err (if permitted p need then catching_up else HForbidden) ∧
  same_data st (handle rq request st).1.
Proof.
  intros Hb Hq Hp. split.
  - destruct request; try discriminate Hq; injection Hq as <-; cbn [handle permitted];
      first [by apply (behind_permit rq p) | by apply (behind_auth rq p)].
  - apply silent_reads. by destruct request.
Qed.

End Requests.
