(* ===== verification/HttpView.v ===== *)
(** * Answers tell a principal only what it may see

    Two servers that differ only in collections that a principal has no
    permission to see answer its read requests alike.  The argument follows a
    handler step by step: from states that look the same to the principal,
    each step gives the same answer and states that look the same. *)

From Stdlib Require Import ZArith Lia SpecFloat.
From stdpp Require Import base gmap strings list sorting pretty.
From S2P Require Import Prelude Storage F64 Json Platform Geo Strings Index Geofence.
From S2P Require Import Collection CollectionSpec Engine EngineSpec Queries WebhookQueue Outbox.
From S2P Require Import Replication Auth AuthSpec Config Metrics Http HttpFrame HttpSpec.

(** ** Ordered listings *)

Lemma sorted_filter {A} (R : relation A) (P : A → Prop) `{∀ x, Decision (P x)} l :
  StronglySorted R l → StronglySorted R (filter P l).
Proof.
  induction 1 as [|x l Hl IH Hx]; [constructor|]. rewrite filter_cons. case_decide; [|done].
  constructor; [done|]. rewrite Forall_forall in *. intros y [_ Hy]%list_elem_of_filter. by apply Hx.
Qed.

Lemma btree_keys_sorted {V} (m : gmap string V) : StronglySorted String.le (btree_iter m).*1.
Proof.
  eapply StronglySorted_fmap; [|apply StronglySorted_merge_sort; apply _]. done.
Qed.

(** The keys a listing keeps are determined by the bindings it keeps. *)
Lemma btree_keys_filter {V} (P : string → Prop) `{∀ k, Decision (P k)} (m1 m2 : gmap string V) :
  (∀ k, P k → m1 !! k = m2 !! k) →
  filter P (btree_iter m1).*1 = filter P (btree_iter m2).*1.
Proof.
  intros Heq. apply (StronglySorted_unique String.le).
  - by apply sorted_filter, btree_keys_sorted.
  - by apply sorted_filter, btree_keys_sorted.
  - apply NoDup_Permutation; [apply NoDup_filter, NoDup_btree_iter..|]. intros k.
    rewrite !list_elem_of_filter, !list_elem_of_fmap. split.
    all: intros [Hk ([k' v] & -> & Hin%elem_of_btree_iter)]; simpl in *; split; [done|];
      exists (k', v); split; [done|]; apply elem_of_btree_iter.
    + by rewrite <-Heq.
    + by rewrite Heq.
Qed.

Section View.
Context `{LM : Libm} `{GC : GeoCrate} `{RC : RTreeCrate} `{JT : JsonText} `{PT : Patterns}
  `{HO : HashOrder} `{LC : LogCodec} `{MD : Md5} `{B64 : Base64} `{EC : EventCodec}
  `{SN : SelectNth} `{JW : JwtCrate} `{CT : ConfigText}.
Context {S : Type} `{SB : StorageBackend S}.

(** A collection whose contents a principal may learn about: one it may list,
    inspect, read or query, and every one for an administrator. *)
Definition sees (p : AuthPrincipal) (c : string) : bool :=
  allows_global p AdminAll || can_view_collection p c ||
  existsb (λ a, allows p a c) [CollectionsInspect; ObjectsRead; QueriesRead].

(** Databases that look the same: only unseen collections, and the log that
    holds their history, differ. *)
Record db_like (p : AuthPrincipal) (db1 db2 : LatLng S) : Prop := {
  like_cells : ∀ c, sees p c = true → db_collections db1 !! c = db_collections db2 !! c;
  like_fences : db_geofences db1 = db_geofences db2;
  like_config : db_config db1 = db_config db2;
  like_sequence : db_next_sequence db1 = db_next_sequence db2;
  like_expired : db_expired_objects_total db1 = db_expired_objects_total db2
}.

Definition looks_like (p : AuthPrincipal) (st1 st2 : HttpState (S := S)) : Prop :=
  st2 = set_db st1 (hs_db st2) ∧ db_like p (hs_db st1) (hs_db st2).

(** A step that the principal cannot tell apart. *)
Definition blind (p : AuthPrincipal) {A} (m : H (S := S) A) : Prop := ∀ st1 st2,
  looks_like p st1 st2 → (m st1).2 = (m st2).2 ∧ looks_like p (m st1).1 (m st2).1.

Section Blind.
Context (p : AuthPrincipal).

Lemma blind_bind {A B} (m : H A) (k : A → H B) :
  blind p m → (∀ a, blind p (k a)) → blind p (hbind m k).
Proof.
  intros Hm Hk st1 st2 Hst. destruct (Hm st1 st2 Hst) as [Hr Hl]. unfold hbind.
  destruct (m st1) as [st1' r1], (m st2) as [st2' r2]. simpl in *. subst r2.
  destruct r1 as [a|e]; [by apply Hk | done].
Qed.

Lemma blind_pure {A} (r : result A HttpError) : blind p (λ st, (st, r)).
Proof. done. Qed.

(** What the principal may look at. *)
Lemma blind_get {A} (f : HttpState → result A HttpError) :
  (∀ st1 st2, looks_like p st1 st2 → f st1 = f st2) → blind p (λ st, (st, f st)).
Proof. intros Hf st1 st2 Hst. split; [by apply Hf | done]. Qed.

Lemma blind_hget {B} (k : HttpState → H B) :
  (∀ st1 st2, looks_like p st1 st2 →
     (k st1 st1).2 = (k st2 st2).2 ∧ looks_like p (k st1 st1).1 (k st2 st2).1) →
  blind p (hbind hget k).
Proof. intros Hk st1 st2 Hst. by apply Hk. Qed.

Lemma blind_db {A} (op : M (S := S) A) (r : LatLng S → result A CoreError) :
  (∀ db, op db = (db, r db)) → (∀ db1 db2, db_like p db1 db2 → r db1 = r db2) →
  blind p (run_db op).
Proof.
  intros Hop Hr st1 st2 Hst. pose proof Hst as [Heq Hdb]. unfold run_db. rewrite !Hop.
  simpl. split; [by rewrite (Hr _ _ Hdb)|]. destruct st1, st2. simpl in *. done.
Qed.

Lemma blind_query {A} (op : LatLng S → option (result A CoreError)) :
  (∀ db1 db2, db_like p db1 db2 → op db1 = op db2) → blind p (run_query op).
Proof. intros Hop st1 st2 Hst. split; [|done]. simpl. by rewrite (Hop _ _ (proj2 Hst)). Qed.

Lemma blind_allowed : blind p ensure_queries_allowed.
Proof.
  intros st1 st2 Hst. pose proof Hst as [Heq _]. unfold ensure_queries_allowed, replication_snapshot.
  rewrite Heq. cbn [set_db hs_replication_status].
  destruct (hs_replication_status st1) as [s|]; [destruct (queries_allowed s)|];
    simpl; rewrite <-?Heq; done.
Qed.

Lemma blind_ensure {A} a n (k : H A) :
  (allows p a n = true → blind p k) →
  blind p (hbind (hlift (ensure_collection_action p a n)) (λ _, k)).
Proof.
  intros Hk. unfold ensure_collection_action. destruct (allows p a n); [by apply Hk | done].
Qed.

End Blind.

(** Authentication does not look at the database. *)
Lemma blind_auth {A} rq p (k : AuthPrincipal → H A) st1 st2 :
  principal_of rq st1 = Some p → looks_like p st1 st2 → blind p (k p) →
  (hbind (authenticated rq) k st1).2 = (hbind (authenticated rq) k st2).2.
Proof.
  intros Hp [Heq Hdb] Hk. unfold hbind, authenticated, principal_of in *. rewrite Heq.
  cbn [set_db hs_auth].
  destruct (authenticate_headers _ _ _ _) as [a r]. simpl in Hp. destruct r as [p'|e]; [|done].
  injection Hp as ->. apply Hk. by destruct st1, st2.
Qed.

Lemma permit_bind {A} rq a n (k : AuthPrincipal → H (S := S) A) st :
  hbind (permit rq a n) k st =
  hbind (authenticated rq) (λ p, hbind (hlift (ensure_collection_action p a n)) (λ _, k p)) st.
Proof.
  unfold permit, hbind, hlift. destruct (authenticated rq st) as [st1 [p|e]]; [|done].
  by destruct (ensure_collection_action p a n).
Qed.

Lemma blind_permit {A} rq p a n (k : AuthPrincipal → H A) st1 st2 :
  principal_of rq st1 = Some p → looks_like p st1 st2 → (allows p a n = true → blind p (k p)) →
  (hbind (permit rq a n) k st1).2 = (hbind (permit rq a n) k st2).2.
Proof.
  intros Hp Hst Hk. rewrite !permit_bind. apply (blind_auth rq p); [done..|].
  by apply blind_ensure.
Qed.

Lemma blind_admin {A} rq p (k : AuthPrincipal → H A) st1 st2 :
  principal_of rq st1 = Some p → looks_like p st1 st2 →
  (allows_global p AdminAll = true → blind p (k p)) →
  (hbind (permit_admin rq) k st1).2 = (hbind (permit_admin rq) k st2).2.
Proof.
  intros Hp Hst Hk.
  assert (∀ st, hbind (permit_admin rq) k st =
    hbind (authenticated rq) (λ p, hbind (hlift (ensure_admin p)) (λ _, k p)) st) as Hb.
  { intros st. unfold permit_admin, hbind, hlift.
    destruct (authenticated rq st) as [st' [p'|e]]; [|done]. by destruct (ensure_admin p'). }
  rewrite !Hb. apply (blind_auth rq p); [done..|].
  unfold ensure_admin, ensure_global_action.
  destruct (allows_global p AdminAll); [by apply Hk | done].
Qed.

(** ** What the operations look at *)

Section Reads.
Context (clock : Clock) (n : string) (db1 db2 : LatLng S)
  (Hcell : db_collections db1 !! n = db_collections db2 !! n).

Lemma live_reads i : (get_live_object clock n i db1).2 = (get_live_object clock n i db2).2.
Proof. simpl. by rewrite Hcell. Qed.

Lemma get_reads i format keep :
  (op_get clock n i format keep db1).2 = (op_get clock n i format keep db2).2.
Proof.
  unfold op_get, mbind, get_live_object, mlift, mret. rewrite Hcell.
  by destruct (db_collections db2 !! n ≫= _).
Qed.

Lemma jget_reads i path : (op_jget clock n i path db1).2 = (op_jget clock n i path db2).2.
Proof.
  unfold op_jget, mbind, get_live_object, mfail, mret. rewrite Hcell.
  destruct (db_collections db2 !! n ≫= _); [|done]. by destruct (json_value _).
Qed.

Lemma fget_reads i f : (op_fget clock n i f db1).2 = (op_fget clock n i f db2).2.
Proof. unfold op_fget, mbind, get_live_object, mret. simpl. by rewrite Hcell. Qed.

Lemma ttl_reads i : (op_ttl clock n i db1).2 = (op_ttl clock n i db2).2.
Proof. unfold op_ttl, mbind, get_live_object, mret. simpl. by rewrite Hcell. Qed.

Lemma bounds_reads : (op_bounds n db1).2 = (op_bounds n db2).2.
Proof.
  unfold op_bounds, mbind, collection_handle, mlift, mret. rewrite Hcell.
  by destruct (db_collections db2 !! n).
Qed.

Lemma stats_reads : (op_stats clock [n] db1).2 = (op_stats clock [n] db2).2.
Proof. unfold op_stats, lookup_live. simpl. by rewrite Hcell. Qed.

Lemma stats_and_bounds_reads :
  (op_stats_and_bounds clock n db1).2 = (op_stats_and_bounds clock n db2).2.
Proof.
  unfold op_stats_and_bounds. pose proof bounds_reads as Hb. pose proof stats_reads as Hs.
  pose proof (bounds_same n db1) as H1. pose proof (bounds_same n db2) as H2.
  unfold mbind at 1 3. destruct (op_stats clock [n] db1) as [d1 r1] eqn:E1.
  destruct (op_stats clock [n] db2) as [d2 r2] eqn:E2.
  assert (d1 = db1 ∧ d2 = db2) as [-> ->] by (unfold op_stats in E1, E2; by simplify_eq).
  simpl in Hs. subst r2. destruct r1 as [stats|e]; [|done]. unfold mbind, mret.
  destruct (op_bounds n db1) as [? rb1], (op_bounds n db2) as [? rb2]. simpl in Hb. subst rb2.
  by destruct rb1.
Qed.

Lemma find_reads : find_collection db1 n = find_collection db2 n.
Proof. unfold find_collection. by rewrite Hcell. Qed.

End Reads.

(** The area of a search reads the object that it refers to. *)
Definition reference_seen (p : AuthPrincipal) (area : Area) : Prop :=
  match area with AReference c _ => sees p c = true | _ => True end.

Lemma resolve_reads clock p area db1 db2 :
  db_like p db1 db2 → reference_seen p area →
  (resolve_area clock area db1).2 = (resolve_area clock area db2).2.
Proof.
  intros Hdb Href. destruct area; try done. simpl in Href.
  pose proof (like_cells _ _ _ Hdb _ Href) as Hcell.
  unfold resolve_area, mbind, collection_handle, get_live_object, mfail, mlift. rewrite Hcell.
  match goal with |- context [db_collections db2 !! ?c] =>
    destruct (db_collections db2 !! c) eqn:E end; [|done].
  simpl. rewrite Hcell, E. by destruct (_ ≫= _).
Qed.

(** ** The handlers *)

Lemma sees_allowed p a c :
  a ∈ [CollectionsInspect; ObjectsRead; QueriesRead] → allows p a c = true → sees p c = true.
Proof.
  intros Ha Hp. unfold sees. rewrite !orb_true_iff, existsb_exists. right.
  exists a. by rewrite <-list_elem_of_In.
Qed.

Lemma sees_listed p c : can_view_collection p c = true → sees p c = true.
Proof. intros Hp. unfold sees. by rewrite Hp, orb_true_r. Qed.

Lemma like_all p (db1 db2 : LatLng S) : allows_global p AdminAll = true → db_like p db1 db2 →
  db_collections db1 = db_collections db2.
Proof.
  intros Ha Hdb. apply map_eq. intros c. apply (like_cells _ _ _ Hdb). unfold sees. by rewrite Ha.
Qed.

(** A read of one collection the principal may see. *)
Lemma blind_read {A} p n (op : M (S := S) A) :
  sees p n = true → (∀ db, (op db).1 = db) →
  (∀ db1 db2, db_collections db1 !! n = db_collections db2 !! n → (op db1).2 = (op db2).2) →
  blind p (run_db op).
Proof.
  intros Hn Hsame Hreads. apply (blind_db p op (λ db, (op db).2)).
  - intros db. specialize (Hsame db). destruct (op db). simpl in *. by subst.
  - intros db1 db2 Hdb. apply Hreads. by apply (like_cells _ _ _ Hdb).
Qed.

Lemma blind_search rq p n op st1 st2 :
  principal_of rq st1 = Some p → looks_like p st1 st2 →
  (∀ par db1 db2, sees p n = true → db_like p db1 db2 → op par db1 = op par db2) →
  (search_with rq n op st1).2 = (search_with rq n op st2).2.
Proof.
  intros Hp Hst Hop. unfold search_with. apply (blind_permit rq p); [done..|]. intros Ha.
  assert (sees p n = true) as Hn by (eapply sees_allowed; [|done]; set_solver).
  apply blind_bind; [apply blind_allowed|intros _]. apply blind_hget. intros s1 s2 Hs.
  replace (hs_parallel s2) with (hs_parallel s1) by (by rewrite (proj1 Hs)).
  apply (blind_bind p (run_query (op (hs_parallel s1)))); [|done|done].
  apply blind_query. eauto.
Qed.

Lemma blind_collections rq p pattern st1 st2 :
  principal_of rq st1 = Some p → looks_like p st1 st2 →
  (handle_collections rq pattern st1).2 = (handle_collections rq pattern st2).2.
Proof.
  intros Hp Hst. unfold handle_collections. apply (blind_auth rq p); [done..|].
  apply blind_bind; [apply blind_allowed|intros _]. intros s1 s2 Hs.
  unfold hbind, run_db, op_collections. cbn [map_err fst snd].
  destruct (negb (any_collection_permission p CollectionsList) && negb (is_admin p));
    [by destruct s1, s2|]. split; [|by destruct s1, s2]. simpl. do 6 f_equal.
  rewrite !list_filter_filter. apply btree_keys_filter. intros k [Hk _].
  by apply (like_cells _ _ _ (proj2 Hs)), sees_listed.
Qed.

Lemma blind_server rq p : allows_global p AdminAll = true → blind p (server_info rq).
Proof.
  intros Ha. unfold server_info. apply blind_bind.
  - eapply blind_db; [done|]. intros db1 db2 Hdb. simpl.
    by rewrite (like_all _ _ _ Ha Hdb), (like_config _ _ _ Hdb), (like_sequence _ _ _ Hdb).
  - intros info. apply blind_hget. intros s1 s2 Hs. split; [|done]. simpl.
    by rewrite (proj1 Hs).
Qed.

Definition references_seen (p : AuthPrincipal) (request : HttpRequest) : Prop :=
  match request with
  | SearchWithin _ area _ | SearchIntersects _ area _ => reference_seen p area
  | _ => True
  end.

Lemma blind_value p f : blind p (runtime_value f).
Proof.
  intros s1 s2 Hs. pose proof Hs as [Heq _]. unfold runtime_value, not_attached, hfail.
  replace (hs_runtime_config s2) with (hs_runtime_config s1) by (by rewrite Heq).
  by destruct (hs_runtime_config s1).
Qed.

(** A query of one collection. *)
Lemma blind_cell {A} rq p a n (k : H A) st1 st2 :
  a ∈ [CollectionsInspect; ObjectsRead; QueriesRead] →
  principal_of rq st1 = Some p → looks_like p st1 st2 → (sees p n = true → blind p k) →
  let m := hbind (permit rq a n) (λ _, hbind ensure_queries_allowed (λ _, k)) in
  (m st1).2 = (m st2).2.
Proof.
  intros Ha Hp Hst Hk. apply (blind_permit rq p); [done..|intros Hok].
  apply blind_bind; [apply blind_allowed|intros _]. by eapply Hk, sees_allowed.
Qed.

Lemma blind_fences rq p request st1 st2 :
  match request with ListChannels _ | GetChannel _ | ListHooks _ | GetHook _ => True | _ => False end →
  principal_of rq st1 = Some p → looks_like p st1 st2 →
  (handle rq request st1).2 = (handle rq request st2).2.
Proof.
  intros Hr Hp Hst. destruct request; try done; cbn [handle].
  - apply (blind_auth rq p); [done..|]. apply blind_bind; [apply blind_allowed|intros _].
    apply blind_hget. intros s1 s2 Hs. by rewrite (like_fences _ _ _ (proj2 Hs)).
  - apply (blind_auth rq p); [done..|]. apply blind_bind; [apply blind_allowed|intros _].
    apply blind_hget. intros s1 s2 Hs. rewrite (like_fences _ _ _ (proj2 Hs)).
    destruct (channel_def _ name); [|done].
    apply (blind_bind p (hlift _)); done.
  - apply (blind_auth rq p); [done..|]. apply blind_bind; [apply blind_allowed|intros _].
    apply blind_hget. intros s1 s2 Hs. by rewrite (like_fences _ _ _ (proj2 Hs)).
  - apply (blind_auth rq p); [done..|]. apply blind_bind; [apply blind_allowed|intros _].
    apply blind_hget. intros s1 s2 Hs. rewrite (like_fences _ _ _ (proj2 Hs)).
    destruct (hook_def _ name); [|done].
    apply (blind_bind p (hlift _)); done.
Qed.

Lemma blind_settings rq p request st1 st2 :
  match request with GetConfig _ | GetWebhookQueue => True | _ => False end →
  principal_of rq st1 = Some p → looks_like p st1 st2 →
  (handle rq request st1).2 = (handle rq request st2).2.
Proof.
  intros Hr Hp Hst. destruct request; try done; cbn [handle].
  - apply (blind_admin rq p); [done..|intros Ha]. apply blind_hget. intros s1 s2 Hs.
    rewrite (like_config _ _ _ (proj2 Hs)).
    cbv zeta. match goal with |- context [hbind ?m _ s1] =>
      apply (blind_bind p m); [|done|done] end.
    repeat (case_match; [done || by apply blind_value|]). done.
  - apply (blind_admin rq p); [done..|intros Ha]. apply blind_hget. intros s1 s2 Hs.
    replace (hs_webhook_queue s2) with (hs_webhook_queue s1) by (by rewrite (proj1 Hs)).
    by destruct (hs_webhook_queue s1).
Qed.

(** C11: answers tell a principal only what it may see.  Two servers that agree
    on everything but collections the principal may not list, inspect, read or
    query (and on the log, which holds their history) answer every read request
    of the principal alike, provided a search area refers to no unseen
    collection. *)
Theorem answers_reveal_only_seen rq request p st1 st2 :
  is_read request = true → principal_of rq st1 = Some p → references_seen p request →
  looks_like p st1 st2 →
  (handle rq request st1).2 = (handle rq request st2).2.
Proof.
  intros Hr Hp Href Hst. destruct request; try discriminate Hr; cbn [handle]; try done.
  - by apply (blind_auth rq p).
  - apply (blind_auth rq p); [done..|]. apply blind_bind; [apply blind_allowed|done].
  - apply (blind_admin rq p); [done..|intros Ha]. by apply blind_bind; [apply blind_server|].
  - apply (blind_admin rq p); [done..|intros Ha]. apply blind_bind; [by apply blind_server|].
    intros info. apply blind_hget. intros s1 s2 Hs. split; [|done]. simpl. by rewrite (proj1 Hs).
  - apply (blind_auth rq p); [done..|]. apply blind_bind; [done|intros _]. apply blind_bind.
    + eapply blind_db; [done|]. intros db1 db2 Hdb. simpl.
      by rewrite (like_sequence _ _ _ Hdb), (like_fences _ _ _ Hdb), (like_expired _ _ _ Hdb).
    + intros m. apply blind_hget. intros s1 s2 Hs. split; [|done]. simpl. by rewrite (proj1 Hs).
  - by apply (blind_auth rq p).
  - by apply (blind_collections rq p).
  - apply (blind_cell rq p); [set_solver|done..|intros Hn]. apply blind_bind; [|intros [[?|] ?]; done].
    eapply blind_read; [done|apply stats_and_bounds_same|apply stats_and_bounds_reads].
  - apply (blind_cell rq p); [set_solver|done..|intros Hn]. apply blind_bind; [|done].
    eapply blind_read; [done|apply bounds_same|apply bounds_reads].
  - apply (blind_cell rq p); [set_solver|done..|intros Hn]. apply blind_bind; [|done].
    eapply blind_read; [done|done|apply stats_reads].
  - apply (blind_cell rq p); [set_solver|done..|intros Hn]. apply blind_bind; [done|intros output].
    apply blind_bind; [|by intros [?|]].
    eapply blind_read; [done|intros; apply get_same|intros; by apply get_reads].
  - apply (blind_cell rq p); [set_solver|done..|intros Hn]. apply blind_bind; [|done].
    eapply blind_read; [done|done|intros; by apply fget_reads].
  - apply (blind_cell rq p); [set_solver|done..|intros Hn]. apply blind_bind; [|done].
    eapply blind_read; [done|done|intros; by apply ttl_reads].
  - apply (blind_cell rq p); [set_solver|done..|intros Hn]. apply blind_bind; [|done].
    eapply blind_read; [done|intros; apply jget_same|intros; by apply jget_reads].
  - apply (blind_search rq p); [done..|]. intros par db1 db2 Hn Hdb. unfold op_nearby.
    by rewrite (find_reads collection db1 db2 (like_cells _ _ _ Hdb _ Hn)).
  - apply (blind_search rq p); [done..|]. intros par db1 db2 Hn Hdb. unfold op_within.
    by rewrite (find_reads collection db1 db2 (like_cells _ _ _ Hdb _ Hn)),
      (resolve_reads _ p area db1 db2 Hdb Href).
  - apply (blind_search rq p); [done..|]. intros par db1 db2 Hn Hdb. unfold op_intersects.
    by rewrite (find_reads collection db1 db2 (like_cells _ _ _ Hdb _ Hn)),
      (resolve_reads _ p area db1 db2 Hdb Href).
  - apply (blind_search rq p); [done..|]. intros par db1 db2 Hn Hdb. unfold op_scan.
    by rewrite (find_reads collection db1 db2 (like_cells _ _ _ Hdb _ Hn)).
  - apply (blind_search rq p); [done..|]. intros par db1 db2 Hn Hdb. unfold op_search.
    by rewrite (find_reads collection db1 db2 (like_cells _ _ _ Hdb _ Hn)).
  - by apply (blind_fences rq p (ListChannels match_pattern)).
  - by apply (blind_fences rq p (GetChannel name)).
  - by apply (blind_fences rq p (ListHooks match_pattern)).
  - by apply (blind_fences rq p (GetHook name)).
  - by apply (blind_settings rq p (GetConfig name)).
  - by apply (blind_settings rq p GetWebhookQueue).
Qed.

End View.
