(* ===== verification/HttpNotify.v ===== *)
(** * Acknowledged writes wake the background tasks

    The outbox and the replication streams sleep until they are notified.  A
    handler notifies them after a write that answers that something changed;
    here, that an operation which answers otherwise has logged nothing. *)

From Stdlib Require Import ZArith Lia SpecFloat.
From stdpp Require Import base gmap strings list sorting pretty.
From S2P Require Import Prelude Storage F64 Json Platform Geo Strings Index Geofence.
From S2P Require Import Collection CollectionSpec Engine EngineSpec Queries WebhookQueue Outbox.
From S2P Require Import Replication Auth AuthSpec Config Metrics Http HttpFrame HttpSpec.

Section Notify.
Context `{LM : Libm} `{GC : GeoCrate} `{RC : RTreeCrate} `{JT : JsonText} `{PT : Patterns}
  `{HO : HashOrder} `{LC : LogCodec} `{MD : Md5} `{B64 : Base64} `{EC : EventCodec}
  `{SN : SelectNth} `{JW : JwtCrate} `{CT : ConfigText}.
Context {S : Type} `{SB : StorageBackend S}.

(** ** Operations that log nothing *)

(** Whenever the operation answers, the answer satisfies [f]. *)
Definition answers {A} (f : A → bool) (m : M (S := S) A) : Prop :=
  ∀ db db' a, m db = (db', Ok a) → f a = true.

(** Whenever the answer does not satisfy [f], the sequence counter is where it
    was. *)
Definition quiet_on {A} (f : A → bool) (m : M (S := S) A) : Prop :=
  ∀ db db' a, m db = (db', Ok a) → f a = false → db_next_sequence db' = db_next_sequence db.

Lemma answers_bind {A B} f (m : M A) (k : A → M B) :
  (∀ a, answers f (k a)) → answers f (mbind m k).
Proof.
  intros Hk db db' b. unfold mbind. destruct (m db) as [db1 [a|e]]; [|done]. apply Hk.
Qed.

Lemma answers_ret {A} f (a : A) : f a = true → answers f (mret a).
Proof. by intros Ha db db' a' [= _ <-]. Qed.

Lemma answers_fail {A} (f : A → bool) e : answers f (mfail e).
Proof. done. Qed.

Lemma quiet_answers {A} f (m : M A) : answers f m → quiet_on f m.
Proof. intros Hm db db' a Ha Hf. by rewrite (Hm _ _ _ Ha) in Hf. Qed.

Lemma quiet_bind {A B} g f (m : M A) (k : A → M B) :
  quiet_on g m → (∀ a, g a = true → answers f (k a)) → (∀ a, g a = false → quiet_on f (k a)) →
  quiet_on f (mbind m k).
Proof.
  intros Hm Ht Hf db db' b. unfold mbind. specialize (Hm db).
  destruct (m db) as [db1 [a|e]] eqn:E; [|done]. intros Hk Hb. destruct (g a) eqn:Hg.
  - by rewrite (Ht a Hg _ _ _ Hk) in Hb.
  - rewrite (Hf a Hg _ _ _ Hk Hb). by apply (Hm db1 a).
Qed.

(** Steps that never move the counter. *)
Definition still {A} (m : M (S := S) A) : Prop :=
  ∀ db, db_next_sequence (m db).1 = db_next_sequence db.

Lemma quiet_still {A B} f (m : M A) (k : A → M B) :
  still m → (∀ a, quiet_on f (k a)) → quiet_on f (mbind m k).
Proof.
  intros Hm Hk. apply (quiet_bind (λ _, false)); [|done|auto].
  intros db db' a Ha _. specialize (Hm db). by rewrite Ha in Hm.
Qed.

Lemma quiet_ret {A} f (a : A) : quiet_on f (mret a).
Proof. by intros db db' a' [= <- _] _. Qed.

Lemma quiet_fail {A} (f : A → bool) e : quiet_on f (mfail e).
Proof. done. Qed.

Create HintDb quiet discriminated.
#[local] Hint Resolve answers_fail quiet_ret quiet_fail : quiet.

Ltac answering :=
  repeat first
    [ solve [eauto with quiet nocore]
    | progress intros
    | match goal with
      | |- answers _ (mbind _ _) => apply answers_bind
      | |- answers _ (match ?x with _ => _ end) => destruct x
      | |- answers _ (if ?x then _ else _) => destruct x
      | |- answers _ (let '_ := ?x in _) => destruct x
      | |- answers _ (mret _) => apply answers_ret; reflexivity
      end ].

Lemma set_body_quiet clock req v : quiet_on (λ b, b) (set_body clock req v).
Proof.
  unfold set_body. destruct (condition_fails _ _); [apply quiet_ret|]. apply quiet_answers. answering.
Qed.

Lemma set_fast_answers req v : answers (λ b, b) (set_fast req v).
Proof. unfold set_fast. answering. Qed.

Lemma set_quiet clock req : quiet_on (λ b, b) (op_set clock req).
Proof.
  unfold op_set. apply quiet_still; [done|intros _].
  apply (quiet_bind (λ r, default false r)).
  - unfold try_set_local. do 2 (apply quiet_still; [done|intros ?]).
    destruct (requires_exclusive_roam_path _ _); [apply quiet_ret|].
    destruct (_ !! _) as [v|]; [|apply quiet_ret]. case_match.
    + apply (quiet_bind (λ b, b)); [apply quiet_answers, set_fast_answers| |];
        intros [] ?; try done; [by apply answers_ret | apply quiet_ret].
    + apply (quiet_bind (λ b, b)); [apply set_body_quiet| |];
        intros [] ?; try done; [by apply answers_ret | apply quiet_ret].
  - intros [[]|] Hb; try done. by apply answers_ret.
  - intros [[]|] Hb; try done; [apply quiet_ret|]. unfold set_exclusive.
    do 2 (apply quiet_still; [done|intros ?]). apply set_body_quiet.
Qed.

Lemma del_body_answers clock n i v before :
  objects (collection v) !! i = Some before → answers (λ b, b) (del_body clock n i v before).
Proof.
  intros Hi. unfold del_body. do 3 (apply answers_bind; intros ?).
  destruct (remove (collection v) i) as [c' removed] eqn:Hr. unfold remove in Hr.
  rewrite Hi in Hr. injection Hr as <- <-. answering.
Qed.

Lemma del_exclusive_quiet clock n i : quiet_on (λ b, b) (del_exclusive clock n i).
Proof.
  unfold del_exclusive. do 2 (apply quiet_still; [done|intros ?]).
  destruct a0 as [v|]; [|apply quiet_ret].
  destruct (objects (collection v) !! i) eqn:Hi; [|apply quiet_ret].
  by apply quiet_answers, del_body_answers.
Qed.

Lemma del_quiet clock n i : quiet_on (λ b, b) (op_del clock n i).
Proof.
  unfold op_del. do 2 (apply quiet_still; [done|intros ?]).
  destruct (requires_exclusive_roam_path _ _); [apply del_exclusive_quiet|].
  destruct (_ !! _) as [v|]; [|apply quiet_ret].
  destruct (objects (collection v) !! i) eqn:Hi; [|apply quiet_ret].
  by apply quiet_answers, del_body_answers.
Qed.

Definition positive (n : Z) : bool := (0 <? n)%Z.

Lemma del_all_answers clock n ids : ∀ removed, (0 < removed)%Z →
  answers positive (del_all clock n ids removed).
Proof.
  induction ids as [|i ids IH]; intros removed Hr; cbn [del_all].
  - apply answers_ret. unfold positive. by apply Z.ltb_lt.
  - apply answers_bind. intros b. apply IH. destruct b; lia.
Qed.

Lemma del_all_quiet clock n ids : quiet_on positive (del_all clock n ids 0).
Proof.
  induction ids as [|i ids IH]; cbn [del_all]; [apply quiet_ret|].
  apply (quiet_bind (λ b, b)); [apply del_exclusive_quiet| |]; intros [] ?; try done.
  by apply del_all_answers.
Qed.

Lemma pdel_quiet clock n pattern : quiet_on positive (op_pdel clock n pattern).
Proof.
  unfold op_pdel. do 2 (apply quiet_still; [done|intros ?]). apply del_all_quiet.
Qed.

Lemma fset_quiet clock n i fs xx : quiet_on (λ b, b) (op_fset clock n i fs xx).
Proof.
  unfold op_fset. do 2 (apply quiet_still; [done|intros ?]).
  destruct (objects _ !! i); [apply quiet_answers; answering|].
  destruct xx; [apply quiet_ret | apply quiet_fail].
Qed.

Lemma create_quiet clock n : quiet_on (λ b, b) (op_create_collection clock n).
Proof.
  unfold op_create_collection. do 2 (apply quiet_still; [done|intros ?]).
  destruct a0; [apply quiet_ret|]. apply quiet_answers. answering.
Qed.

Lemma drop_quiet clock n : quiet_on (λ b, b) (op_drop_collection clock n).
Proof.
  unfold op_drop_collection. do 2 (apply quiet_still; [done|intros ?]).
  destruct a0; [|apply quiet_ret]. apply quiet_answers. answering.
Qed.

Lemma rename_quiet clock n n' nx : quiet_on (λ b, b) (rename_inner clock n n' nx).
Proof.
  unfold rename_inner. do 2 (apply quiet_still; [done|intros ?]).
  destruct (_ && _); [apply quiet_ret|]. apply quiet_answers. answering.
Qed.

(** ** Handlers *)

(** A notifier was rung, where there is one. *)
Definition rung (before after : option nat) : Prop :=
  match before, after with
  | None, None => True
  | Some k, Some k' => k < k'
  | _, _ => False
  end.

Definition both_rung (st st' : HttpState (S := S)) : Prop :=
  rung (hs_outbox_notify st) (hs_outbox_notify st') ∧
  rung (hs_replication_notify st) (hs_replication_notify st').

(** A successful answer that left the counter elsewhere has rung both. *)
Definition wakes {A} (m : H (S := S) A) : Prop := ∀ st st' a,
  m st = (st', Ok a) → db_next_sequence (hs_db st') ≠ db_next_sequence (hs_db st) →
  both_rung st st'.

(** Steps that touch neither the counter nor the notifiers. *)
Definition calm {A} (m : H (S := S) A) : Prop := ∀ st,
  db_next_sequence (hs_db (m st).1) = db_next_sequence (hs_db st) ∧
  hs_outbox_notify (m st).1 = hs_outbox_notify st ∧
  hs_replication_notify (m st).1 = hs_replication_notify st.

Lemma wakes_calm {A B} (m : H A) (k : A → H B) :
  calm m → (∀ a, wakes (k a)) → wakes (hbind m k).
Proof.
  intros Hm Hk st st' b. unfold hbind. destruct (Hm st) as (Hseq & Ho & Hr).
  destruct (m st) as [st1 [a|e]]; [|done]. simpl in *. intros Hst Hne.
  rewrite <-Hseq in Hne. destruct (Hk a _ _ _ Hst Hne) as [H1 H2]. unfold both_rung.
  by rewrite <-Ho, <-Hr.
Qed.

Lemma notify_both_rings (st : HttpState (S := S)) : both_rung st (notify_both st).1.
Proof.
  unfold both_rung, notify_both, hbind, notify_outbox, notify_replication. simpl.
  by destruct (hs_outbox_notify st), (hs_replication_notify st); simpl; auto with lia.
Qed.

(** An operation followed by the notification that its answer decides. *)
Lemma wakes_db {A B} (f : A → bool) (op : M A) (g : A → B) :
  quiet_on f op →
  wakes (hbind (run_db op) (λ a, hbind (notify_if (f a)) (λ _, hret (g a)))).
Proof.
  intros Hop st st' b. unfold hbind at 1, run_db. specialize (Hop (hs_db st)).
  destruct (op (hs_db st)) as [db [a|e]]; [|done]. simpl. unfold notify_if.
  destruct (f a) eqn:Hf.
  - intros [= <- _] _. destruct st; simpl. unfold both_rung. simpl.
    destruct hs_outbox_notify, hs_replication_notify; simpl; auto with lia.
  - intros [= <- _]. simpl. by rewrite (Hop db a).
Qed.

Lemma wakes_always {A B} (op : M A) (g : A → B) :
  wakes (hbind (run_db op) (λ a, hbind notify_both (λ _, hret (g a)))).
Proof.
  intros st st' b. unfold hbind at 1, run_db. destruct (op (hs_db st)) as [db [a|e]]; [|done].
  intros [= <- _] _. destruct st; simpl. unfold both_rung. simpl.
  destruct hs_outbox_notify, hs_replication_notify; simpl; auto with lia.
Qed.

(** The answer of a deletion that found nothing. *)
Definition not_deleted : HttpBody := BJson (json_object [("deleted", json_bool false)]).

Lemma wakes_deleted (op : M bool) st st' body :
  hbind (run_db op) (λ deleted, hbind (notify_if deleted) (λ _,
    hret (BJson (json_object [("deleted", json_bool deleted)])))) st = (st', Ok body) →
  body ≠ not_deleted → both_rung st st'.
Proof.
  unfold hbind at 1, run_db. destruct (op (hs_db st)) as [db [[]|e]]; [| |done].
  - intros [= <- _] _. destruct st; simpl. unfold both_rung. simpl.
    destruct hs_outbox_notify, hs_replication_notify; simpl; auto with lia.
  - by intros [= _ <-].
Qed.

Lemma calm_auth rq : calm (authenticated rq).
Proof. intros st. unfold authenticated. by destruct (authenticate_headers _ _ _ _). Qed.

Lemma calm_permit rq a n : calm (permit rq a n).
Proof.
  intros st. unfold permit, hbind, hlift. pose proof (calm_auth rq st) as Hc.
  destruct (authenticated rq st) as [st1 [p|e]]; [|done]. by destruct (ensure_collection_action _ _ _).
Qed.

Lemma calm_admin rq : calm (permit_admin rq).
Proof.
  intros st. unfold permit_admin, hbind, hlift. pose proof (calm_auth rq st) as Hc.
  destruct (authenticated rq st) as [st1 [p|e]]; [|done]. by destruct (ensure_admin _).
Qed.

(** Steps that never move the counter. *)
Definition steady {A} (m : H (S := S) A) : Prop := ∀ st,
  db_next_sequence (hs_db (m st).1) = db_next_sequence (hs_db st).

Lemma steady_bind {A B} (m : H A) (k : A → H B) :
  steady m → (∀ a, steady (k a)) → steady (hbind m k).
Proof.
  intros Hm Hk st. unfold hbind. specialize (Hm st).
  destruct (m st) as [st1 [a|e]]; [|done]. by rewrite Hk.
Qed.

Lemma steady_wakes {A} (m : H A) : steady m → wakes m.
Proof. intros Hm st st' a Hst Hne. specialize (Hm st). by rewrite Hst in Hm. Qed.

Lemma steady_calm {A} (m : H A) : calm m → steady m.
Proof. intros Hm st. by destruct (Hm st). Qed.

Lemma steady_silent {A} (m : H A) : silent m → steady m.
Proof. intros Hm st. by destruct (Hm st) as [-> _]. Qed.

Lemma steady_rewrite rq c : steady (rewrite_runtime_config rq c).
Proof.
  intros st. unfold rewrite_runtime_config. destruct (rc_config_path c); [|done].
  by destruct (save_to_path _ _ _ _).
Qed.

#[local] Hint Resolve steady_calm calm_admin steady_rewrite : quiet.

Lemma steady_settings rq request :
  match request with
  | SetConfig _ _ | SetReadOnly _ | SetTimeout _ _ | RewriteConfig | Gc => True
  | _ => False
  end → steady (handle rq request).
Proof.
  destruct request; try done; intros _; cbn [handle];
    unfold handle_config_set, handle_readonly, handle_timeout, handle_config_rewrite, handle_gc,
      positive_setting;
    repeat first
      [ solve [eauto with quiet nocore]
      | progress intros
      | match goal with
        | |- steady (hbind _ _) => apply steady_bind
        | |- steady (match ?x with _ => _ end) => destruct x
        | |- steady (if ?x then _ else _) => destruct x
        end
      | solve [intros ?; reflexivity] ].
Qed.

Lemma wakes_flush rq : wakes (handle_flushdb rq).
Proof.
  unfold handle_flushdb. apply wakes_calm; [apply calm_admin|intros p].
  intros st st' b. unfold hget. unfold hbind at 1.
  destruct (hs_flushdb_coordinator st) as [epoch|].
  - unfold flush_with_coordinator, hbind.
    destruct (coordinator_flushdb _ _) as [o [[]|e]]; [|done]. intros [= <- _] _.
    destruct st; simpl. unfold both_rung. simpl.
    destruct hs_outbox_notify, hs_replication_notify; simpl; auto with lia.
  - apply (wakes_always (op_flushdb (in_clock rq))).
Qed.

Lemma wakes_rename rq n n' nx : wakes (handle_rename rq n n' nx).
Proof.
  unfold handle_rename. apply wakes_calm; [apply calm_auth|intros p].
  do 2 (apply wakes_calm; [done|intros _]). apply (wakes_db (λ b, b)), rename_quiet.
Qed.

Lemma wakes_delchan rq n st st' body :
  handle_delchan rq n st = (st', Ok body) → body ≠ not_deleted → both_rung st st'.
Proof.
  unfold handle_delchan, hget. unfold hbind at 1 2 3. destruct (calm_auth rq st) as (_ & Ho & Hr).
  destruct (authenticated rq st) as [st1 [p|e]]; [|done]. simpl in Ho, Hr. unfold both_rung.
  rewrite <-Ho, <-Hr. destruct (channel_def _ n); [|apply wakes_deleted].
  unfold hlift, ensure_collection_action. case_match; [case_match; [|done]|]; try done.
  intros Hst Hb. simplify_eq. by eapply wakes_deleted.
Qed.

Lemma wakes_delhook rq n st st' body :
  handle_delhook rq n st = (st', Ok body) → body ≠ not_deleted → both_rung st st'.
Proof.
  unfold handle_delhook, hget. unfold hbind at 1 2 3. destruct (calm_auth rq st) as (_ & Ho & Hr).
  destruct (authenticated rq st) as [st1 [p|e]]; [|done]. simpl in Ho, Hr. unfold both_rung.
  rewrite <-Ho, <-Hr. destruct (hook_def _ n); [|apply wakes_deleted].
  unfold hlift, ensure_collection_action. case_match; [case_match; [|done]|]; try done.
  intros Hst Hb. simplify_eq. by eapply wakes_deleted.
Qed.

Lemma wakes_jdel rq n i path st st' body :
  handle_jdel rq n i path st = (st', Ok body) → body ≠ not_deleted → both_rung st st'.
Proof.
  unfold handle_jdel. unfold hbind at 1. destruct (calm_permit rq ObjectsWrite n st) as (_ & Ho & Hr).
  destruct (permit rq ObjectsWrite n st) as [st1 [p|e]]; [|done]. simpl in Ho, Hr.
  unfold both_rung. rewrite <-Ho, <-Hr. apply wakes_deleted.
Qed.

(** A compaction rings the replication streams and leaves the outbox alone:
    what it writes are the jobs that the queue holds. *)
Lemma aofshrink_wakes rq st st' body :
  handle_aofshrink rq st = (st', Ok body) →
  rung (hs_replication_notify st) (hs_replication_notify st') ∧
  hs_outbox_notify st' = hs_outbox_notify st.
Proof.
  unfold handle_aofshrink. unfold hbind at 1. destruct (calm_admin rq st) as (_ & Ho & Hr).
  destruct (permit_admin rq st) as [st1 [p|e]]; [|done]. simpl in Ho, Hr. rewrite <-Ho, <-Hr.
  clear. unfold hget. unfold hbind at 1 2.
  match goal with
  | |- context [match ?m st1 with _ => _ end] =>
      assert (hs_outbox_notify (m st1).1 = hs_outbox_notify st1 ∧
              hs_replication_notify (m st1).1 = hs_replication_notify st1) as [Ho Hr]
  end.
  { destruct (hs_webhook_queue st1); unfold hbind, hlift, run_db.
    - destruct (map_err _ _) as [records|e]; [|done]. by destruct (mbind _ _ _) as [db [a|e]].
    - by destruct (op_aofshrink _ _) as [db [a|e]]. }
  destruct (match hs_webhook_queue st1 with _ => _ end st1) as [st2 [a|e]]; [|done].
  cbn [fst] in Ho, Hr. rewrite <-Ho, <-Hr. intros [= <- _]. simpl. split; [|done].
  by destruct (hs_replication_notify st2); simpl; auto with lia.
Qed.

(** Who is woken by a request that has written to the log. *)
Definition woken (request : HttpRequest) (st st' : HttpState (S := S)) : Prop :=
  match request with
  | AofShrink => rung (hs_replication_notify st) (hs_replication_notify st') ∧
                 hs_outbox_notify st' = hs_outbox_notify st
  | _ => both_rung st st'
  end.

(** C27: an acknowledged HTTP request that has moved the sequence counter has
    notified the background tasks: AOFSHRINK the replication streams only, and
    every other request both the outbox and the replication streams, unless
    its answer says that there was nothing to delete.  (A notification goes to
    the tasks that are configured.) *)
Theorem logged_writes_wake rq request st st' body :
  handle rq request st = (st', Ok body) → body ≠ not_deleted →
  db_next_sequence (hs_db st') ≠ db_next_sequence (hs_db st) →
  woken request st st'.
Proof.
  intros Hst Hb Hne. destruct (is_read request) eqn:Hr.
  { assert (woken request st st' = both_rung st st') as -> by by destruct request.
    eapply (steady_wakes (handle rq request)); [by apply steady_silent, silent_reads|done..]. }
  destruct request; try discriminate Hr; cbn [woken];
    try (match type of Hst with handle rq ?r st = _ =>
           exact (steady_wakes _ (steady_settings rq r I) _ _ _ Hst Hne) end);
    cbn [handle] in Hst; eauto using wakes_delchan, wakes_delhook, wakes_jdel, aofshrink_wakes.
  all: revert Hst Hne;
    match goal with |- ?h _ = _ → _ → _ => assert (wakes h) as Hw; [|by apply Hw] end;
    eauto using wakes_flush, wakes_rename.
  all: apply wakes_calm; [apply calm_permit|intros p].
  - apply (wakes_db (λ b, b) (op_create_collection _ _)), create_quiet.
  - apply (wakes_db (λ b, b) (op_drop_collection _ _)), drop_quiet.
  - apply (wakes_db (λ b, b) (op_set _ _)), set_quiet.
  - apply (wakes_db (λ b, b) (op_del _ _ _)), del_quiet.
  - apply (wakes_db positive (op_pdel _ _ _)), pdel_quiet.
  - apply (wakes_db (λ b, b) (op_fset _ _ _ _ _)), fset_quiet.
  - apply (wakes_always (op_expire _ _ _ _)).
  - apply (wakes_always (op_persist _ _ _)).
  - apply (wakes_always (op_jset _ _ _ _ _ _)).
  - apply (wakes_always (op_setchan _ _ _)).
  - apply (wakes_always (op_sethook _ _ _ _)).
Qed.

End Notify.
