(* ===== verification/HttpConfig.v ===== *)
(** * Settings over HTTP

    What CONFIG SET, CONFIG GET, CONFIG REWRITE and READONLY do to the
    settings of a running server. *)

From Stdlib Require Import ZArith Lia SpecFloat.
From stdpp Require Import base gmap strings list sorting pretty.
From S2P Require Import Prelude Storage F64 Json Platform Geo Strings Index Geofence.
From S2P Require Import Collection Engine Queries WebhookQueue Outbox Replication.
From S2P Require Import Auth AuthSpec Config ConfigSpec Metrics Http HttpSpec.

(** ** Start-up checks around the webhook settings *)

(** The checks before and after those on the counters. *)
Definition checks_before (c : RuntimeConfig) : result unit ConfigError :=
  let? _ := map_err (λ e, ConfigValidation (auth_error_text e)) (auth_validate (rc_auth c)) in
  let? _ := fail_if (rc_require_auth c && negb (auth_enabled (rc_auth c)))
              "require_auth is enabled, but no bearer token or JWT verifier is configured" in
  let? _ := fail_if (blank (rc_listen_addr c)) "listen_addr must not be empty" in
  let? _ := fail_if (rc_capnp_enabled c && blank (rc_capnp_listen_addr c))
              "capnp_listen_addr must not be empty" in
  fail_if (blank (rc_server_id c)) "server_id must not be empty".

Definition checks_after (c : RuntimeConfig) : result unit ConfigError :=
  let? _ := validate_follow c in
  let? _ := validate_cors c in
  let? _ := validate_logging c in
  let warnings := production_guardrail_warnings c in
  fail_if (rc_production_mode c && negb (bool_decide (warnings = [])))
    ("production guardrails failed: " +:+ join "; " warnings).

Lemma validate_Ok c : validate_for_startup c = Ok tt ↔
  checks_before c = Ok tt ∧ Forall (λ s, s.2 ≠ 0%Z) (positive_settings c) ∧
  (rc_webhook_retry_initial_backoff_ms c ≤ rc_webhook_retry_max_backoff_ms c)%Z ∧
  checks_after c = Ok tt.
Proof.
  rewrite <-validate_all_positive_Ok, <-Z.ltb_ge.
  unfold validate_for_startup, checks_before, checks_after. split.
  - intros H. repeat (apply rbind_Ok in H as ([] & ? & H)).
    repeat match goal with E : _ = Ok tt |- _ => rewrite E end. cbn [rbind].
    split_and!; try done.
    match goal with E : fail_if (_ <? _)%Z _ = _ |- _ => by apply fail_if_Ok in E end.
  - intros (H1 & H2 & H3 & H4). repeat (apply rbind_Ok in H1 as ([] & ? & H1)).
    repeat match goal with E : _ = Ok tt |- _ => rewrite E; clear E end. cbn [rbind].
    by rewrite H3.
Qed.

(** *** Settings that CONFIG SET knows *)

Record Setting := mkSetting {
  s_name : string;
  s_get : RuntimeConfig → Z;
  s_set : RuntimeConfig → Z → RuntimeConfig;
  s_parse : string → option Z
}.

Definition numeric_settings : list Setting :=
  [mkSetting "webhook_timeout_ms" rc_webhook_timeout_ms with_webhook_timeout_ms
     (parse_positive U64_MAX);
   mkSetting "webhook_concurrency_limit" rc_webhook_concurrency_limit
     with_webhook_concurrency_limit (parse_positive U64_MAX);
   mkSetting "webhook_retry_count" rc_webhook_retry_count with_webhook_retry_count
     (parse_unsigned U32_MAX);
   mkSetting "webhook_retry_initial_backoff_ms" rc_webhook_retry_initial_backoff_ms
     with_webhook_retry_initial_backoff_ms (parse_positive U64_MAX);
   mkSetting "webhook_retry_max_backoff_ms" rc_webhook_retry_max_backoff_ms
     with_webhook_retry_max_backoff_ms (parse_positive U64_MAX);
   mkSetting "webhook_lease_ms" rc_webhook_lease_ms with_webhook_lease_ms
     (parse_positive U64_MAX)].

(** Setting one of them touches no other check. *)
Lemma setting_checks s c n : s ∈ numeric_settings →
  s_get s (s_set s c n) = n ∧ checks_before (s_set s c n) = checks_before c ∧
  checks_after (s_set s c n) = checks_after c ∧ rc_config_path (s_set s c n) = rc_config_path c ∧
  (n ≠ 0%Z ∨ s_name s = "webhook_retry_count" →
     Forall (λ s, s.2 ≠ 0%Z) (positive_settings c) →
     Forall (λ s, s.2 ≠ 0%Z) (positive_settings (s_set s c n))).
Proof.
  intros Hs. repeat (apply elem_of_cons in Hs as [->|Hs]; [split_and!; try done|]);
    [..|by apply elem_of_nil in Hs].
  all: intros Hn Hall; unfold positive_settings in *;
    repeat (apply Forall_cons in Hall as [? Hall]);
    repeat (apply Forall_cons_2; [first [assumption | by destruct Hn]|]); apply Forall_nil_2.
Qed.

Lemma parse_positive_nonzero max v n : parse_positive max v = Some n → n ≠ 0%Z.
Proof.
  unfold parse_positive. destruct (parse_unsigned max v); simpl; [|done].
  destruct (Z.ltb_spec 0 z); [|done]. intros [= <-]. lia.
Qed.

Lemma setting_parsed s v n : s ∈ numeric_settings → s_parse s v = Some n →
  n ≠ 0%Z ∨ s_name s = "webhook_retry_count".
Proof.
  intros Hs. repeat (apply elem_of_cons in Hs as [->|Hs]; [cbn; eauto using parse_positive_nonzero|]).
  by apply elem_of_nil in Hs.
Qed.

Section Settings.
Context `{LM : Libm} `{GC : GeoCrate} `{RC : RTreeCrate} `{JT : JsonText} `{PT : Patterns}
  `{HO : HashOrder} `{LC : LogCodec} `{MD : Md5} `{B64 : Base64} `{EC : EventCodec}
  `{SN : SelectNth} `{JW : JwtCrate} `{CT : ConfigText}.
Context {S : Type} `{SB : StorageBackend S}.

(** An administrator sends the request. *)
Definition by_admin (rq : Incoming) (st : HttpState (S := S)) : Prop :=
  ∃ p, principal_of rq st = Some p ∧ allows_global p AdminAll = true.

Lemma admin_enters {A} rq st (k : AuthPrincipal → H A) : by_admin rq st →
  ∃ p a, hbind (permit_admin rq) k st = k p (set_auth st a).
Proof.
  intros (p & Hp & Ha). unfold principal_of in Hp.
  unfold permit_admin, hbind, authenticated, hlift, ensure_admin, ensure_global_action, hret.
  destruct (authenticate_headers _ _ _ _) as [a [q|e]]; [|done]. injection Hp as ->.
  rewrite Ha. eauto.
Qed.

(** What CONFIG SET does to the settings. *)
Lemma config_set_spec rq s v st st' body : by_admin rq st → s ∈ numeric_settings →
  handle rq (SetConfig (s_name s) v) st = (st', Ok body) →
  ∃ n, s_parse s v = Some n ∧ hs_runtime_config st' = (λ c, s_set s c n) <$> hs_runtime_config st ∧
       hs_files st' = hs_files st.
Proof.
  intros Ha Hs. cbn [handle]. unfold handle_config_set.
  match goal with |- hbind _ ?k _ = _ → _ => destruct (admin_enters rq st k Ha) as (p & a & ->) end.
  repeat (apply elem_of_cons in Hs as [->|Hs]; [|]); [..|by apply elem_of_nil in Hs].
  all: cbn; unfold positive_setting, hbind, hret, hfail;
    match goal with |- context [match ?x with Some _ => _ | None => _ end] =>
      destruct x as [n|] eqn:Hn end; [|done]; cbn; intros [= <- _]; eauto.
Qed.

Lemma config_get_spec rq s st c : by_admin rq st → s ∈ numeric_settings →
  hs_runtime_config st = Some c →
  (handle rq (GetConfig (s_name s)) st).2 =
    Ok (BJson (json_object [("value", VString (pretty (s_get s c)))])).
Proof.
  intros Ha Hs Hc. cbn [handle]. unfold handle_config_get.
  match goal with |- (hbind _ ?k _).2 = _ => destruct (admin_enters rq st k Ha) as (p & a & ->) end.
  repeat (apply elem_of_cons in Hs as [->|Hs]; [|]); [..|by apply elem_of_nil in Hs].
  all: cbn; unfold hbind, runtime_value, hret; cbn; by rewrite Hc.
Qed.

(** A numeric setting that CONFIG SET has accepted reads back as the number
    that was given, and a configuration that passed the checks at start-up
    still passes them, except that the maximum of the backoff may have ended up
    below its start. *)
Theorem config_set_then_get rq rq' s v st st' c body
    (Hset : s ∈ numeric_settings) (Hc : hs_runtime_config st = Some c)
    (Hadmin : by_admin rq st) (Hadmin' : by_admin rq' st')
    (Hok : handle rq (SetConfig (s_name s) v) st = (st', Ok body)) :
  ∃ n c', s_parse s v = Some n ∧ hs_runtime_config st' = Some c' ∧
    (handle rq' (GetConfig (s_name s)) st').2 =
      Ok (BJson (json_object [("value", VString (pretty n))])) ∧
    (validate_for_startup c = Ok tt →
     validate_for_startup c' = Ok tt ∨
     (rc_webhook_retry_max_backoff_ms c' < rc_webhook_retry_initial_backoff_ms c')%Z).
Proof.
  destruct (config_set_spec rq s v st st' body Hadmin Hset Hok) as (n & Hn & Hc' & _).
  rewrite Hc in Hc'. exists n, (s_set s c n).
  destruct (setting_checks s c n Hset) as (Hget & Hb & Haf & _ & Hpos).
  split_and!; [done|done| |].
  - rewrite (config_get_spec rq' s st' (s_set s c n)) by done. by rewrite Hget.
  - rewrite !validate_Ok. intros (H1 & H2 & H3 & H4).
    destruct (Z.le_gt_cases (rc_webhook_retry_initial_backoff_ms (s_set s c n))
                (rc_webhook_retry_max_backoff_ms (s_set s c n))); [left|by right].
    rewrite Hb, Haf. split_and!; eauto using setting_parsed.
Qed.

(** ** CONFIG REWRITE *)

(** The crates read back what they have written. *)
Definition config_text_roundtrips : Prop := ∀ c t, rc_config_path c = None →
  (render_json c = Ok t → parse_json t = Ok c) ∧ (render_toml c = Ok t → parse_toml t = Ok c).

Lemma with_path_back c : with_config_path (with_config_path c None) (rc_config_path c) = c.
Proof. by destruct c. Qed.

Lemma save_then_load faults c path files files' : config_text_roundtrips →
  rc_config_path c = Some path → save_to_path faults c path files = (files', Ok tt) →
  load_from_path files' path = Ok c.
Proof.
  intros Hrt Hp. unfold save_to_path, load_from_path, render_config.
  destruct (if has_parent path then _ else _); [|done].
  destruct (extension path) as [ext|]; [|done]. cbn [rbind].
  assert (rc_config_path (with_config_path c None) = None) as Hnone by done.
  pose proof (with_path_back c) as Hback. rewrite Hp in Hback.
  assert (∀ t, fs_write (df_write faults) path t files = (files', Ok tt) → files' !! path = Some t)
    as Hw.
  { intros t. unfold fs_write. destruct (df_write faults) as [[]|]; try done.
    intros [= <-]. apply lookup_insert_eq. }
  destruct (String.eqb ext "json"); [|destruct (String.eqb ext "toml"); [|done]].
  - destruct (render_json _) as [t|] eqn:Ht; [|done]. cbn [map_err]. intros Hf%Hw. rewrite Hf. cbn.
    destruct (Hrt _ t Hnone) as [Hj _]. rewrite (Hj Ht). cbn. by rewrite Hback.
  - destruct (render_toml _) as [t|] eqn:Ht; [|done]. cbn [map_err]. intros Hf%Hw. rewrite Hf. cbn.
    destruct (Hrt _ t Hnone) as [_ Hj]. rewrite (Hj Ht). cbn. by rewrite Hback.
Qed.

(** After a CONFIG REWRITE that succeeds, loading the file gives back the
    settings of the running server. *)
Theorem rewritten_config_loads rq st st' c body
    (Htext : config_text_roundtrips) (Hc : hs_runtime_config st = Some c)
    (Hadmin : by_admin rq st) (Hok : handle rq RewriteConfig st = (st', Ok body)) :
  ∃ path, rc_config_path c = Some path ∧ load_from_path (hs_files st') path = Ok c.
Proof.
  cbn [handle] in Hok. unfold handle_config_rewrite in Hok.
  match type of Hok with hbind _ ?k _ = _ =>
    destruct (admin_enters rq st k Hadmin) as (p & a & Heq) end.
  rewrite Heq in Hok. clear Heq. unfold hget, hbind, rewrite_runtime_config in Hok. cbn in Hok.
  rewrite Hc in Hok. destruct (rc_config_path c) as [path|] eqn:Hp; [|done].
  destruct (save_to_path _ c path _) as [files [[]|e]] eqn:Hsave; [|done].
  exists path. split; [done|]. injection Hok as <- _. by eapply save_then_load.
Qed.

(** ** Behaviours to know about *)

(** READONLY on a server without an attached configuration answers that it is
    on and leaves (or makes) the engine writable. *)
Theorem read_only_needs_config rq st : by_admin rq st → hs_runtime_config st = None →
  hs_replication_status st = None →
  let r := handle rq (SetReadOnly true) st in
  r.2 = Ok (BJson (json_object [("ok", json_bool true); ("read_only", json_bool true)])) ∧
  read_only (db_config (hs_db r.1)) = false.
Proof.
  intros Ha Hc Hr. cbn [handle]. unfold handle_readonly.
  match goal with |- context [hbind _ ?k st] => destruct (admin_enters rq st k Ha) as (p & a & ->) end.
  unfold hbind, update_runtime_config, http_sync_effective_read_only, replication_snapshot. cbn.
  by rewrite Hc, Hr.
Qed.

(** FLUSHDB on a read-only server is a client error without the coordinator
    and an internal error with it. *)
Theorem read_only_flush_status rq st : by_admin rq st →
  read_only (db_config (hs_db st)) = true →
  answer_status (handle rq FlushDb st).2 =
    (if hs_flushdb_coordinator st then 500 else 400)%Z.
Proof.
  intros Ha Hro. cbn [handle]. unfold handle_flushdb.
  match goal with |- context [hbind _ ?k st] => destruct (admin_enters rq st k Ha) as (p & a & ->) end.
  unfold hget, hbind, flush_with_coordinator, coordinator_flushdb, run_db, op_flushdb, mbind,
    ensure_writable.
  destruct (hs_flushdb_coordinator st) eqn:Hf; cbn; rewrite Hf; cbn; by rewrite Hro.
Qed.

End Settings.
