(* ===== verification/HttpWitness.v ===== *)
(** * The HTTP interface on concrete servers

    Servers over the in-memory backend with a bearer token and principals of
    limited permissions: the theorems about the interface apply to them, and
    some of their answers are worth knowing about. *)

From Stdlib Require Import ZArith Lia SpecFloat.
From stdpp Require Import base gmap strings list sorting pretty.
From S2P Require Import Prelude Storage F64 Json Platform Geo Strings Index IndexSpec Geofence.
From S2P Require Import Collection Engine EngineSpec StorageMemory Recovery Queries WebhookQueue.
From S2P Require Import WebhookQueueSpec Outbox Replication Auth AuthSpec Config ConfigSpec Metrics.
From S2P Require Import Http HttpFrame HttpSpec HttpView HttpNotify HttpConfig.

Module HttpWitness.
Import ListTree NoGeoJson PlainText Memory SortSelect QueueWitness.
#[local] Existing Instance AuthWitness.crate.
#[local] Existing Instance RecoveryWitness.codec.
#[local] Existing Instance RecoveryWitness.base64.
#[local] Existing Instance RecoveryWitness.md5.

#[local] Instance storage_mode_eq : EqDecision StorageMode.
Proof. solve_decision. Defined.
#[local] Instance log_format_eq : EqDecision LogFormat.
Proof. solve_decision. Defined.
#[local] Instance log_destination_eq : EqDecision LogDestination.
Proof. solve_decision. Defined.
#[local] Instance auth_config_eq : EqDecision AuthConfig.
Proof. solve_decision. Defined.
#[local] Instance f64_eq : EqDecision f64.
Proof. solve_decision. Defined.
#[local] Instance runtime_config_eq : EqDecision RuntimeConfig.
Proof. solve_decision. Defined.

(** Configuration texts: one text, for one configuration. *)
Definition saved : RuntimeConfig := ConfigWitness.defaults.
#[local] Instance config_text : ConfigText := {
  render_json c := if decide (c = saved) then Ok "saved" else Err "unknown";
  render_toml c := Err "unknown";
  parse_json t := if String.eqb t "saved" then Ok saved else Err "unknown";
  parse_toml t := Err "unknown"
}.

(** ** Servers and principals *)

Definition clock : Clock := mkClock 1000 1000000000.
Definition no_faults : DiskFaults := mkDiskFaults None None.
Definition from (p : AuthPrincipal) : Incoming :=
  mkIncoming clock (AuthWitness.env_at 0) None (Some p) no_faults.

(** Everything but administration, on some collections. *)
Definition tenant (actions : list AuthAction) (names : list string) : AuthPrincipal :=
  mkPrincipal "tenant" false [mkRule names (list_to_set actions)].
Definition admin : AuthPrincipal := service_admin.

Definition server_with (config : option RuntimeConfig) (status : option ReplicationStatus)
    : HttpState :=
  mkHttp (fresh new default_config) AuthWitness.server default_metrics config None None
    (Some 0) status (Some 0) ∅ false.
Definition server : HttpState := server_with (Some saved) None.

Definition after (p : AuthPrincipal) (requests : list HttpRequest) (st : HttpState) : HttpState :=
  foldl (λ st r, (handle (from p) r st).1) st requests.
Definition answer (p : AuthPrincipal) (request : HttpRequest) (st : HttpState)
    : result HttpBody HttpError := (handle (from p) request st).2.

Definition put (n i text : string) : HttpRequest :=
  SetObject n i (mkSetBody (GtString text) [] None None).
Definition read (n i : string) : HttpRequest := GetObject n i None None None.

(** ** The theorems apply *)

Definition follower : HttpState :=
  server_with None (Some (status_follower "b" (mkTarget "leader" 7421))).
Definition reader : AuthPrincipal := tenant [ObjectsRead] ["fleet"].

Lemma reader_may_read : permitted reader (Some (ObjectsRead, "fleet")) = true.
Proof. vm_compute. reflexivity. Qed.

Lemma behind_answers_no_query_witness :
  (handle (from reader) (read "fleet" "truck") follower).2 = Err catching_up ∧
  same_data follower (handle (from reader) (read "fleet" "truck") follower).1.
Proof.
  pose proof (behind_answers_no_query (from reader) (read "fleet" "truck")
    (Some (ObjectsRead, "fleet")) reader follower
    (ex_intro _ _ (conj eq_refl eq_refl)) eq_refl eq_refl) as H.
  rewrite reader_may_read in H. exact H.
Defined.

(** Two servers with another tenant's collection in one or the other state. *)
Definition one_tenant : HttpState := after admin [put "fleet" "truck" "here"] server.
Definition with_vault (v : VersionedCollection) : HttpState :=
  let db := hs_db one_tenant in
  set_db one_tenant
    (mkDb (<["vault" := v]> (db_collections db)) (db_geofences db) (db_storage db) (db_config db)
       (db_next_sequence db) (db_expired_objects_total db)).

Lemma vault_unseen : sees reader "vault" = false.
Proof. vm_compute. reflexivity. Qed.

Lemma vaults_look_alike v : looks_like reader one_tenant (with_vault v).
Proof.
  split; [done|]. split; try done. intros c Hc. cbn. rewrite lookup_insert_ne; [done|].
  intros <-. by rewrite vault_unseen in Hc.
Qed.

Lemma answers_reveal_only_seen_witness :
  (handle (from reader) (read "fleet" "truck") one_tenant).2 =
  (handle (from reader) (read "fleet" "truck") (with_vault (versioned_new "vault"))).2.
Proof.
  apply (answers_reveal_only_seen (from reader) (read "fleet" "truck") reader one_tenant
           (with_vault (versioned_new "vault")) eq_refl eq_refl I).
  apply vaults_look_alike.
Defined.

Definition set_truck : HttpRequest := put "fleet" "truck" "here".

Lemma logged_writes_wake_witness :
  both_rung server (handle (from admin) set_truck server).1.
Proof.
  apply (logged_writes_wake (from admin) set_truck server _
           (BJson (json_object [("ok", json_bool true); ("stored", json_bool true)]))).
  - apply pair_with_snd. vm_compute. reflexivity.
  - intros [=].
  - vm_compute. discriminate.
Defined.

(** *** Settings *)

Definition lease : Setting :=
  mkSetting "webhook_lease_ms" rc_webhook_lease_ms with_webhook_lease_ms (parse_positive U64_MAX).
Definition set_lease : HttpRequest := SetConfig "webhook_lease_ms" "+4500".
Definition leased : HttpState := (handle (from admin) set_lease server).1.

Lemma admin_is_admin (st : HttpState (S := MemoryBackend)) : by_admin (from admin) st.
Proof. exists admin. split; reflexivity. Qed.

Lemma config_set_then_get_witness :
  ∃ n c', s_parse lease "+4500" = Some n ∧ hs_runtime_config leased = Some c' ∧
    (handle (from admin) (GetConfig "webhook_lease_ms") leased).2 =
      Ok (BJson (json_object [("value", VString (pretty n))])) ∧
    (validate_for_startup saved = Ok tt →
     validate_for_startup c' = Ok tt ∨
     (rc_webhook_retry_max_backoff_ms c' < rc_webhook_retry_initial_backoff_ms c')%Z).
Proof.
  apply (config_set_then_get (from admin) (from admin) lease "+4500" server leased saved
           (BJson (json_object [("ok", json_bool true)]))).
  - do 5 right. left.
  - reflexivity.
  - apply admin_is_admin.
  - apply admin_is_admin.
  - apply pair_with_snd. vm_compute. reflexivity.
Defined.

Lemma text_roundtrips : config_text_roundtrips.
Proof.
  intros c t Hc. cbn. split; [|done]. destruct (decide (c = saved)); [|done].
  intros [= <-]. cbn. by subst.
Qed.

Definition file_config : RuntimeConfig := with_config_path saved (Some "etc/latlng.json").
Definition with_file : HttpState := server_with (Some file_config) None.

Lemma rewritten_config_loads_witness :
  ∃ path, rc_config_path file_config = Some path ∧
    load_from_path (hs_files (handle (from admin) RewriteConfig with_file).1) path = Ok file_config.
Proof.
  apply (rewritten_config_loads (from admin) with_file _ file_config
           (BJson (json_object [("ok", json_bool true)])) text_roundtrips eq_refl
           (admin_is_admin _)).
  apply pair_with_snd. vm_compute. reflexivity.
Defined.

(** ** Answers worth knowing about *)

Definition fence_on (n : string) : GeofenceDef :=
  mkDef n (QNearby (f64_of_Z 1) (f64_of_Z 2) (f64_of_Z 10) default_search_options) [] [].
Definition channel_collection (st : HttpState (S := MemoryBackend)) (name : string)
    : option string :=
  (λ c, def_collection (channel_fence c)) <$> channel_def (db_geofences (hs_db st)) name.

(** A tenant may not delete another tenant's channel, but it may replace it by
    one of its own: SETCHAN checks only the collection of the new definition. *)
Definition channel_tenant : AuthPrincipal := tenant [ChannelsManage] ["mine"].
Definition with_alerts : HttpState :=
  after admin [SetChannel "alerts" (fence_on "vault")] server.

Theorem channel_taken_over :
  answer channel_tenant (DeleteChannel "alerts") with_alerts = Err HForbidden ∧
  is_ok (answer channel_tenant (SetChannel "alerts" (fence_on "mine")) with_alerts) = true ∧
  channel_collection with_alerts "alerts" = Some "vault" ∧
  channel_collection (after channel_tenant [SetChannel "alerts" (fence_on "mine")] with_alerts)
    "alerts" = Some "mine".
Proof. split_and!; vm_compute; reflexivity. Qed.

(** A tenant without the permission to delete a collection destroys its objects
    by renaming one of its own over it. *)
Definition renaming_tenant : AuthPrincipal :=
  mkPrincipal "tenant" false
    [mkRule ["mine"] {[CollectionsDelete; ObjectsWrite]}; mkRule ["shared"] {[CollectionsCreate]}].
Definition with_shared : HttpState := after admin [put "shared" "key" "x"] server.
Definition renamed : HttpState :=
  after renaming_tenant [put "mine" "a" "b"; RenameCollection "mine" "shared" None] with_shared.

Theorem rename_destroys_undeletable :
  answer renaming_tenant (DropCollection "shared") with_shared = Err HForbidden ∧
  answer renaming_tenant (DeleteObject "shared" "key") with_shared = Err HForbidden ∧
  is_ok (answer admin (read "shared" "key") with_shared) = true ∧
  is_ok (answer admin (read "shared" "key") renamed) = false.
Proof. split_and!; vm_compute; reflexivity. Qed.

(** A search area that refers to an object of an unseen collection tells whether
    the object is there. *)
Definition searcher : AuthPrincipal := tenant [QueriesRead] ["fleet"].
Definition near_key : HttpRequest :=
  SearchWithin "fleet" (AReference "vault" "key") default_search_options.
Definition vault_with (requests : list HttpRequest) : HttpState :=
  after admin (put "fleet" "truck" "here" :: requests) server.

Theorem area_reference_reveals :
  sees searcher "vault" = false ∧
  answer_status (answer searcher near_key (vault_with [])) = 404%Z ∧
  answer_status (answer searcher near_key (vault_with [put "vault" "key" "x"])) ≠ 404%Z.
Proof. split_and!; vm_compute; [reflexivity..|discriminate]. Qed.

(** Deleting a channel that is not there is logged, and nobody is notified. *)
Theorem missing_deletion_unnoticed :
  let st := after admin [DeleteChannel "none"] server in
  answer admin (DeleteChannel "none") server = Ok not_deleted ∧
  (db_next_sequence (hs_db server), db_next_sequence (hs_db st)) = (0, 1)%Z ∧
  hs_replication_notify st = hs_replication_notify server.
Proof. split_and!; vm_compute; reflexivity. Qed.

(** CONFIG SET accepts a maximal backoff below the initial one; CONFIG REWRITE
    would save a configuration that the next start refuses. *)
Theorem accepted_setting_blocks_restart :
  let st := after admin [SetConfig "webhook_retry_max_backoff_ms" "100"] server in
  validate_for_startup saved = Ok tt ∧
  is_ok (answer admin (SetConfig "webhook_retry_max_backoff_ms" "100") server) = true ∧
  (is_ok ∘ validate_for_startup) <$> hs_runtime_config st = Some false.
Proof. split_and!; vm_compute; reflexivity. Qed.

(** CONFIG REWRITE writes over the file: when the device fills up, the old
    configuration is gone too. *)
Definition disk_full : Incoming :=
  mkIncoming clock (AuthWitness.env_at 0) None (Some admin)
    (mkDiskFaults None (Some (WriteFails 3 "no space left on device"))).
Definition saved_once : HttpState := after admin [RewriteConfig] with_file.

Theorem failed_rewrite_loses_config :
  is_ok (load_from_path (hs_files saved_once) "etc/latlng.json") = true ∧
  let r := handle disk_full RewriteConfig saved_once in
  is_ok r.2 = false ∧ is_ok (load_from_path (hs_files r.1) "etc/latlng.json") = false.
Proof. cbv zeta. split_and!; vm_compute; reflexivity. Qed.

End HttpWitness.
