(* ===== verification/Concurrency.v ===== *)
(** * Concurrent writers

    [Engine] gives the writes of [latlng-core] as uninterrupted functions.
    The code runs them on many threads: [set], [del], [fset], [expire],
    [persist], [jset] and [jdel] share a read guard of the [control] gate and
    go through an optimistic loop ([try_set_local] and the others of
    [commands.rs]).  The loop reads the cell and its version under a read
    lock, plans the fences with no lock on the cell, takes the write lock,
    starts again when the version has moved, and otherwise logs and applies
    the write and drops the lock before it publishes the fence events.  Every
    other write, and a write to a collection watched by a roaming fence of
    another one, holds the write guard of the gate.

    A [Pc] is a point of that loop between two lock operations, [tstep] the
    move of one thread to its next point, [None] when it has to wait for a
    lock; a schedule is any list of threads and clocks.  Reserving the
    sequences of a batch and appending it to the storage are two points, as
    in [persist_command_batch], where only the counter is locked. *)

From Stdlib Require Import ZArith Lia SpecFloat.
From stdpp Require Import base gmap strings list relations.
From S2P Require Import Prelude Storage F64 Json Platform Geo Strings Index Geofence.
From S2P Require Import Collection Engine EngineSpec EngineLogic EngineOps Durability.

(** ** What a thread carries through the loop *)

(** A write in its loop, with what is fixed before the loop starts. *)
Inductive LocalWrite : Type :=
  | LwSet (req : SetRequest)
  | LwDel (n i : string)
  | LwFset (n i : string) (fs : list FieldEntry) (xx : bool)
  | LwExpiry (n i : string) (cmd : Command) (deadline : option Z)
  | LwEdit (n i command_name : string) (edit : Value → Value * result bool GeoError)
      (cmd : Command).

Definition lw_collection (w : LocalWrite) : string :=
  match w with
  | LwSet req => sr_collection req
  | LwDel n _ | LwFset n _ _ _ | LwExpiry n _ _ _ | LwEdit n _ _ _ _ => n
  end.

Definition lw_id (w : LocalWrite) : string :=
  match w with
  | LwSet req => sr_id req
  | LwDel _ i | LwFset _ i _ _ | LwExpiry _ i _ _ | LwEdit _ i _ _ _ => i
  end.

(** What is logged: a command with its webhook jobs ([persist_command_batch])
    or plain records ([append_log_records]). *)
Inductive Batch : Type :=
  | CommandBatch (cmd : Command) (webhooks : list WebhookEnqueueRecord)
  | RecordBatch (cmds : list Command).

(** What is done to the cell once the batch is logged. *)
Inductive Change : Type :=
  | ChUpsert (o : Object)
  | ChRemove (i : string)
  | ChFields (i : string) (fs : list FieldEntry)
  | ChExpiry (i : string) (deadline : option Z)
  | ChGeo (i : string) (g : GeoType) (had_ttl : bool).

Record Plan := mkPlan {
  pl_version : Z;
  pl_batch : Batch;
  pl_change : Change;
  pl_prepared : option PreparedMutation;
  pl_answer : bool
}.

Inductive Pc : Type :=
  | PEnter                                        (* before the gate *)
  | PFast (req : SetRequest)                      (* the path without log *)
  | PRead (w : LocalWrite)                        (* the top of the loop *)
  | PPlan (w : LocalWrite) (version : Z) (before : option Object)
  | PLock (w : LocalWrite) (pl : Plan)            (* about to lock the cell *)
  | PReserve (w : LocalWrite) (pl : Plan)         (* cell locked, version unchanged *)
  | PAppend (w : LocalWrite) (pl : Plan) (sequences : list Z)
  | PApply (w : LocalWrite) (pl : Plan)           (* the batch is logged *)
  | PPublish (p : PreparedMutation) (answer : bool)
  | PGate                                         (* waiting for the write gate *)
  | PDone (r : result bool CoreError).

Record Thread := mkThread { th_request : Request; th_pc : Pc }.

(** Points between [read_control] and the drop of its guard. *)
Definition in_gate (pc : Pc) : bool :=
  match pc with PEnter | PGate | PDone _ => false | _ => true end.

(** The cell a thread has locked for writing, and its plan. *)
Definition holds (pc : Pc) : option (LocalWrite * Plan) :=
  match pc with
  | PReserve w pl | PAppend w pl _ | PApply w pl => Some (w, pl)
  | _ => None
  end.

Section Concurrency.
Context `{LM : Libm} `{GC : GeoCrate} `{RC : RTreeCrate} `{JT : JsonText} `{PT : Patterns}
  `{HO : HashOrder} `{LC : LogCodec} `{MD : Md5} `{B64 : Base64}.
Context {S : Type} `{SB : StorageBackend S}.

Implicit Types db : LatLng S.

Definition batch_count (b : Batch) : nat :=
  match b with
  | CommandBatch _ webhooks => 1 + length webhooks
  | RecordBatch cmds => length cmds
  end.

Definition batch_records (b : Batch) (sequences : list Z) : list LogRecord :=
  match b with
  | CommandBatch cmd webhooks => build_command_batch_records cmd sequences webhooks
  | RecordBatch cmds => LCommand <$> cmds
  end.

Definition batch_commands (b : Batch) : list Command :=
  match b with CommandBatch cmd _ => [cmd] | RecordBatch cmds => cmds end.

(** ** The top of the loop: what is read from the cell *)

Inductive Reading : Type :=
  | Answered (r : result bool CoreError)
  | Mutates (before : option Object)
  | Ready (pl : Plan).

(** The edit of [edit_geojson_local] runs on a copy under the read lock. *)
Definition read_edit (n i command_name : string) (edit : Value → Value * result bool GeoError)
    (cmd : Command) (version : Z) (o : Object) : result Plan CoreError :=
  match geo o with
  | GtGeoJson json =>
      match edit json with
      | (_, Err e) => Err (CGeo e)
      | (json', Ok changed) =>
          let edited := GtGeoJson json' in
          let? _ := map_err CGeo (validate_geo edited) in
          let? _ := map_err CGeo (geo_to_geometry edited) in
          let had_ttl := bool_decide (is_Some (expires_at o)) in
          Ok (mkPlan version
                (RecordBatch (cmd :: if had_ttl then [CmdPersist n i] else []))
                (ChGeo i edited had_ttl) None changed)
      end
  | _ => Err (Invalid (command_name +:+ " requires a GeoJSON object"))
  end.

Definition read_cell (w : LocalWrite) (v : VersionedCollection) : Reading :=
  let before := objects (collection v) !! lw_id w in
  match w, before with
  | LwSet req, _ =>
      if condition_fails (sr_condition req) (bool_decide (is_Some before)) then Answered (Ok false)
      else Mutates before
  | LwDel _ _, None => Answered (Ok false)
  | LwFset n i _ xx, None => Answered (if xx then Ok false else Err (ObjectNotFound n i))
  | LwExpiry n i _ _, None | LwEdit n i _ _ _, None => Answered (Err (ObjectNotFound n i))
  | LwDel _ _, Some _ | LwFset _ _ _ _, Some _ => Mutates before
  | LwExpiry _ i cmd deadline, Some _ =>
      Ready (mkPlan (version v) (RecordBatch [cmd]) (ChExpiry i deadline) None true)
  | LwEdit n i command_name edit cmd, Some o =>
      match read_edit n i command_name edit cmd (version v) o with
      | Ok pl => Ready pl
      | Err e => Answered (Err e)
      end
  end.

(** ** Planning, with no lock on the cell *)

(** The mutation event of a write, the command it logs and the change it
    makes. *)
Definition intend (clock : Clock) (w : LocalWrite) (before : option Object)
    : option (MutationEvent * Command * Change) :=
  match w with
  | LwSet req =>
      let expires := expiry_of clock (sr_expire_seconds req) in
      let o := mkObject (sr_id req) (sr_object req) (merged_set_fields before (sr_fields req))
                 expires in
      Some (mkMutation MSet (sr_collection req) (sr_id req) before (Some o) (now_nanos clock),
            CmdSetPersisted (mkPersistedSet (sr_collection req) (sr_id req) (sr_object req)
              (field_map_to_entries (fields o)) expires),
            ChUpsert o)
  | LwDel n i =>
      Some (mkMutation MDel n i before None (now_nanos clock), CmdDel n i, ChRemove i)
  | LwFset n i fs xx =>
      b ← before;
      Some (mkMutation MFset n i before
              (Some (with_fields b (apply_field_updates (fields b) fs))) (now_nanos clock),
            CmdFset n i fs xx, ChFields i fs)
  | LwExpiry _ _ _ _ | LwEdit _ _ _ _ _ => None
  end.

Definition plan_write (clock : Clock) (w : LocalWrite) (version : Z) (before : option Object)
    (db : LatLng S) : result (option Plan) CoreError :=
  match intend clock w before with
  | None => Ok None
  | Some (e, cmd, ch) =>
      let planned := prepare_mutation (db_geofences db) e (lookup_live clock (db_collections db)) in
      let? webhooks := webhook_records clock (db_geofences db)
                         (webhook_retry_count (db_config db)) (events planned) in
      Ok (Some (mkPlan version (CommandBatch cmd webhooks) ch (Some planned) true))
  end.

(** ** Applying a change to the locked cell *)

Inductive Applied : Type :=
  | Changed (answer : bool)
  | Again                       (* [continue]: the object is gone *)
  | Failed (e : CoreError).

Definition apply_change (ch : Change) (answer : bool) (v : VersionedCollection)
    : VersionedCollection * Applied :=
  match ch with
  | ChUpsert o =>
      match upsert (collection v) o with
      | (c', Ok _) => (bump v c', Changed answer)
      | (c', Err e) => (mkVersioned (version v) c', Failed e)
      end
  | ChRemove i =>
      let '(c', removed) := remove (collection v) i in
      if bool_decide (is_Some removed) then (bump v c', Changed true)
      else (mkVersioned (version v) c', Changed false)
  | ChFields i fs =>
      match insert_fields (collection v) i fs with
      | (c', true) => (bump v c', Changed answer)
      | (c', false) => (mkVersioned (version v) c', Again)
      end
  | ChExpiry i deadline =>
      match set_expiry (collection v) i deadline with
      | (c', true) => (bump v c', Changed answer)
      | (c', false) => (mkVersioned (version v) c', Again)
      end
  | ChGeo i g had_ttl =>
      match replace_geo (collection v) i g with
      | (c1, Err e) => (mkVersioned (version v) c1, Failed e)
      | (c1, Ok _) => (bump v (if had_ttl then (set_expiry c1 i None).1 else c1), Changed answer)
      end
  end.

(** ** Entering *)

Definition local_write (clock : Clock) (rq : Request) : option LocalWrite :=
  match rq with
  | RqSet req => Some (LwSet req)
  | RqDel n i => Some (LwDel n i)
  | RqFset n i fs xx => Some (LwFset n i fs xx)
  | RqExpire n i seconds =>
      let expires_at_ms := saturating_add (now_millis clock) (seconds * 1000) in
      Some (LwExpiry n i (CmdExpireAt n i expires_at_ms) (Some expires_at_ms))
  | RqPersist n i => Some (LwExpiry n i (CmdPersist n i) None)
  | RqJset n i path value raw =>
      Some (LwEdit n i "JSET"
              (λ json, let '(json', r) := set_json_path json path (jset_payload value raw) in
                       (json', rmap (λ _, true) r))
              (CmdJset n i path value raw))
  | RqJdel n i path =>
      Some (LwEdit n i "JDEL" (λ json, delete_json_path json path) (CmdJdel n i path))
  | _ => None
  end.

(** Only the three mutations give way to roaming fences of other collections. *)
Definition gives_way (w : LocalWrite) : bool :=
  match w with LwSet _ | LwDel _ _ | LwFset _ _ _ _ => true | _ => false end.

Definition fast_path (db : LatLng S) (req : SetRequest) : bool :=
  negb (stores_command_log (db_storage db)) &&
  match sr_condition req with Always => true | _ => false end &&
  match sr_expire_seconds req with None => true | _ => false end &&
  is_point_geo (sr_object req) &&
  negb (has_relevant_side_effects (db_geofences db) (sr_collection req)).

Definition enter_local (w : LocalWrite) (db : LatLng S) : Pc :=
  if read_only (db_config db) then PDone (Err ReadOnly)
  else if gives_way w && requires_exclusive_roam_path (db_geofences db) (lw_collection w) then PGate
  else
    match db_collections db !! lw_collection w with
    | Some _ =>
        match w with
        | LwSet req => if fast_path db req then PFast req else PRead w
        | _ => PRead w
        end
    | None =>
        match w with
        | LwSet _ => PGate
        | LwDel _ _ => PDone (Ok false)
        | _ => PDone (Err (CollectionNotFound (lw_collection w)))
        end
    end.

Definition enter (clock : Clock) (rq : Request) (db : LatLng S) : Pc :=
  match rq with
  | RqSet req =>
      match map_err CGeo (validate_geo (sr_object req)) with
      | Err e => PDone (Err e)
      | Ok _ => enter_local (LwSet req) db
      end
  | _ => from_option (λ w, enter_local w db) PGate (local_write clock rq)
  end.

(** ** Behind the write gate *)

Definition exclusive (clock : Clock) (rq : Request) : M (S := S) bool :=
  match rq with
  | RqSet req => set_exclusive clock req
  | RqDel n i => del_exclusive clock n i
  | RqFset n i fs xx => op_fset clock n i fs xx
  | _ => mbind (execute clock rq) (λ _, mret true)
  end.

(** ** The system *)

Record State := mkState {
  st_db : LatLng S;
  st_locks : gmap string nat;       (* the cells locked for writing, by whom *)
  st_threads : gmap nat Thread
}.

Definition gate_free (st : State) : bool :=
  bool_decide (map_Forall (λ _ th, in_gate (th_pc th) = false) (st_threads st)).

(** The thread goes on to [pc], in a new shared state. *)
Definition goto (st : State) (t : nat) (rq : Request) (db : LatLng S) (locks : gmap string nat)
    (pc : Pc) : State :=
  mkState db locks (<[t := mkThread rq pc]> (st_threads st)).

(** After the cell is unlocked: the fence events, if any, then the answer. *)
Definition unlocked (pl : Plan) (answer : bool) : Pc :=
  match pl_prepared pl with
  | Some p => PPublish p answer
  | None => PDone (Ok answer)
  end.

Definition append_step (clock : Clock) (pl : Plan) (sequences : list Z) (db : LatLng S)
    : LatLng S * result unit CoreError :=
  mbind (mlift (encode_entries_for_sequences clock (batch_records (pl_batch pl) sequences) sequences))
    append_entries db.

Definition tstep (clock : Clock) (t : nat) (st : State) : option State :=
  th ← st_threads st !! t;
  let db := st_db st in
  let locks := st_locks st in
  let go := goto st t (th_request th) in
  match th_pc th with
  | PEnter => Some (go db locks (enter clock (th_request th) db))
  | PFast req =>
      v ← db_collections db !! sr_collection req;
      match locks !! sr_collection req with
      | Some _ => None
      | None => let '(db', r) := set_fast req v db in Some (go db' locks (PDone r))
      end
  | PRead w =>
      v ← db_collections db !! lw_collection w;
      match locks !! lw_collection w with
      | Some _ => None
      | None =>
          Some (go db locks
            match read_cell w v with
            | Answered r => PDone r
            | Mutates before => PPlan w (version v) before
            | Ready pl => PLock w pl
            end)
      end
  | PPlan w ver before =>
      match plan_write clock w ver before db with
      | Err e => Some (go db locks (PDone (Err e)))
      | Ok None => None
      | Ok (Some pl) => Some (go db locks (PLock w pl))
      end
  | PLock w pl =>
      v ← db_collections db !! lw_collection w;
      match locks !! lw_collection w with
      | Some _ => None
      | None =>
          if (version v =? pl_version pl)%Z
          then Some (go db (<[lw_collection w := t]> locks) (PReserve w pl))
          else Some (go db locks (PRead w))
      end
  | PReserve w pl =>
      match reserve_sequences (batch_count (pl_batch pl)) db with
      | (db', Ok sequences) =>
          Some (go db' locks
            (if stores_command_log (db_storage db) then PAppend w pl sequences else PApply w pl))
      | (db', Err e) => Some (go db' (delete (lw_collection w) locks) (PDone (Err e)))
      end
  | PAppend w pl sequences =>
      match append_step clock pl sequences db with
      | (db', Ok _) => Some (go db' locks (PApply w pl))
      | (db', Err e) => Some (go db' (delete (lw_collection w) locks) (PDone (Err e)))
      end
  | PApply w pl =>
      v ← db_collections db !! lw_collection w;
      let '(v', outcome) := apply_change (pl_change pl) (pl_answer pl) v in
      let db' := (put_collection (lw_collection w) v' db).1 in
      Some (go db' (delete (lw_collection w) locks)
        match outcome with
        | Changed answer => unlocked pl answer
        | Again => PRead w
        | Failed e => PDone (Err e)
        end)
  | PPublish p answer =>
      Some (go (apply_prepared p db).1 locks (PDone (Ok answer)))
  | PGate =>
      if gate_free st
      then let '(db', r) := exclusive clock (th_request th) db in Some (go db' locks (PDone r))
      else None
  | PDone _ => None
  end.

Definition server_step (st st' : State) : Prop := ∃ clock t, tstep clock t st = Some st'.

Fixpoint run_schedule (schedule : list (nat * Clock)) (st : State) : option State :=
  match schedule with
  | [] => Some st
  | (t, clock) :: rest => st' ← tstep clock t st; run_schedule rest st'
  end.

(** A server starts its requests from an idle database. *)
Definition start (db : LatLng S) (rqs : list Request) : State :=
  mkState db ∅ (map_seq 0 ((λ rq, mkThread rq PEnter) <$> rqs)).

Definition quiescent (st : State) : Prop :=
  map_Forall (λ _ th, ∃ r, th_pc th = PDone r) (st_threads st).

End Concurrency.

