(* ===== verification/ConcurrencySpec.v ===== *)
(** * Concurrent writers are linearizable

    [write_spec] says what a write does to the objects of its collection in
    one go: its answer, the commands it logs, the objects it leaves.  The
    invariant of [Concurrency] relates every state of a run to a sequential
    history of such writes: the log of the storage is the history's commands
    in order, an unlocked cell has the objects the history leaves, and a
    locked one has them once the thread that has logged its batch has applied
    it. *)

From Stdlib Require Import ZArith Lia SpecFloat.
From stdpp Require Import base gmap strings list relations.
From S2P Require Import Prelude Storage F64 Json Platform Geo Strings Index Geofence.
From S2P Require Import GeofenceSpec Collection CollectionSpec Engine EngineSpec EngineLogic EngineOps.
From S2P Require Import Durability Concurrency.

Section Cells.
Context `{LM : Libm} `{GC : GeoCrate} `{RC : RTreeCrate} `{JT : JsonText} `{PT : Patterns}.

(** ** Writes in one go *)

Definition write_spec (clock : Clock) (w : LocalWrite) (os : gmap string Object)
    : result bool CoreError * list Command * gmap string Object :=
  match w, os !! lw_id w with
  | LwSet req, before =>
      if condition_fails (sr_condition req) (bool_decide (is_Some before)) then (Ok false, [], os)
      else
        let expires := expiry_of clock (sr_expire_seconds req) in
        let fs := merged_set_fields before (sr_fields req) in
        (Ok true,
         [CmdSetPersisted (mkPersistedSet (sr_collection req) (sr_id req) (sr_object req)
            (field_map_to_entries fs) expires)],
         <[sr_id req := mkObject (sr_id req) (sr_object req) fs expires]> os)
  | LwDel _ _, None => (Ok false, [], os)
  | LwDel n i, Some _ => (Ok true, [CmdDel n i], delete i os)
  | LwFset n i _ xx, None => (if xx then Ok false else Err (ObjectNotFound n i), [], os)
  | LwFset n i fs xx, Some o =>
      (Ok true, [CmdFset n i fs xx], <[i := with_fields o (apply_field_updates (fields o) fs)]> os)
  | LwExpiry n i _ _, None | LwEdit n i _ _ _, None => (Err (ObjectNotFound n i), [], os)
  | LwExpiry _ i cmd deadline, Some o => (Ok true, [cmd], <[i := with_expiry o deadline]> os)
  | LwEdit n i command_name edit cmd, Some o =>
      match read_edit n i command_name edit cmd 0 o with
      | Err e => (Err e, [], os)
      | Ok pl =>
          (Ok (pl_answer pl), batch_commands (pl_batch pl),
           <[i := with_expiry (edit_geojson (λ j, (edit j).1) o) None]> os)
      end
  end.

(** The objects a change leaves. *)
Definition change_objects (ch : Change) (os : gmap string Object) : gmap string Object :=
  match ch with
  | ChUpsert o => <[id o := o]> os
  | ChRemove i => delete i os
  | ChFields i fs => alter (λ o, with_fields o (apply_field_updates (fields o) fs)) i os
  | ChExpiry i deadline => alter (λ o, with_expiry o deadline) i os
  | ChGeo i g had_ttl =>
      alter (λ o, if had_ttl : bool then with_expiry (with_geo o g) None else with_geo o g) i os
  end.

(** The object a change edits is there. *)
Definition change_target (ch : Change) (os : gmap string Object) : Prop :=
  match ch with
  | ChUpsert _ => True
  | ChRemove i | ChFields i _ | ChExpiry i _ | ChGeo i _ _ => is_Some (os !! i)
  end.

Definition change_indexable (ch : Change) : bool :=
  match ch with
  | ChUpsert o => indexable (geo o)
  | ChGeo _ g _ => indexable g
  | _ => true
  end.

Lemma apply_change_ok ch answer v :
  cell_inv (collection v) → change_target ch (cell_objects v) → change_indexable ch = true →
  (∀ i, ch = ChRemove i → answer = true) →
  ∃ c', apply_change ch answer v = (bump v c', Changed answer) ∧
        cell_inv c' ∧ objects c' = change_objects ch (cell_objects v).
Proof.
  intros Hc Htgt Hix Hans. unfold cell_objects in *. destruct ch as [o|i|i fs|i d|i g ttl]; simpl in *.
  - pose proof (upsert_result (collection v) o) as Hres. unfold indexable in Hix.
    destruct (upsert (collection v) o) as [c' r] eqn:Hup. cbn [snd] in Hres.
    destruct (geo_envelope (geo o)) as [b|e]; [|done]. subst r.
    destruct (upsert_cell _ _ _ Hc Hup). by exists c'.
  - pose proof (remove_cell _ i Hc) as Hc'. pose proof (remove_objects (collection v) i) as Ho.
    pose proof (remove_removed (collection v) i) as Hr. rewrite (Hans i eq_refl).
    destruct (remove (collection v) i) as [c' rem]. cbn [fst snd] in *. subst rem.
    rewrite bool_decide_true by done. by exists c'.
  - pose proof (insert_fields_cell _ i fs Hc) as Hc'.
    pose proof (insert_fields_objects (collection v) i fs) as Ho.
    destruct Htgt as [o Hi]. unfold insert_fields in *. rewrite Hi in *. eauto.
  - pose proof (set_expiry_cell _ i d Hc) as Hc'.
    pose proof (set_expiry_objects (collection v) i d) as Ho.
    destruct Htgt as [o Hi]. unfold set_expiry in *. rewrite Hi in *. eauto.
  - destruct Htgt as [o Hi]. destruct (replace_geo_cell _ _ _ g Hc Hi) as (Hc1 & Ho1 & _ & Herr).
    destruct (replace_geo (collection v) i g) as [c1 [b|e]] eqn:Hrg; cbn [fst snd] in *.
    + eexists. split; [done|]. destruct ttl.
      * split; [by apply set_expiry_cell|]. rewrite set_expiry_objects, Ho1.
        rewrite (alter_Some _ _ _ (with_geo o g)) by apply lookup_insert_eq.
        rewrite insert_insert_eq. by rewrite (alter_Some _ _ _ o).
      * split; [done|]. by rewrite Ho1, (alter_Some _ _ _ o).
    + exfalso. unfold replace_geo in Hrg. rewrite Hi in Hrg. unfold spatial_insert, indexable in *.
      by destruct (geo_envelope g) as [[b|]|e']; simplify_eq/=.
Qed.

(** ** The meaning of what a write logs *)

Definition set_objects (v : View) (n : string) (os : gmap string Object) : View :=
  edit_objects v (<[n := os]>).

Lemma set_objects_id v n os : v_objects v !! n = Some os → set_objects v n os = v.
Proof.
  intros Hn. unfold set_objects, edit_objects. rewrite insert_id by done. by destruct v.
Qed.

Lemma edit_objects_alter v n os f : v_objects v !! n = Some os →
  edit_objects v (alter f n) = set_objects v n (f os).
Proof. intros Hn. unfold set_objects, edit_objects. by rewrite (alter_Some _ _ _ os). Qed.

Lemma edit_object_at v n i os o f : v_objects v !! n = Some os → os !! i = Some o →
  edit_object v n i f = set_objects v n (<[i := f o]> os).
Proof.
  intros Hn Hi. unfold edit_object. rewrite (edit_objects_alter _ _ os) by done.
  by rewrite (alter_Some _ _ _ o).
Qed.

(** The write is the loop of a request. *)
Definition loop_of (w : LocalWrite) : Prop := ∃ clock rq, local_write clock rq = Some w.

(** What the command of an expiry or an edit means. *)
Lemma loop_expiry n i cmd d : loop_of (LwExpiry n i cmd d) →
  (∀ clock v, spec_apply clock v cmd = Some (edit_object v n i (λ o, with_expiry o d))) ∧
  (∀ v, is_Some (find_object v n i) → applicable v cmd).
Proof. intros (clock & rq & Hw). destruct rq; simplify_eq/=; done. Qed.

Lemma edit_geojson_ext f g o : (∀ j, f j = g j) → edit_geojson f o = edit_geojson g o.
Proof. intros H. unfold edit_geojson. destruct (geo o); by rewrite ?H. Qed.

Lemma edit_object_ext v n i f g : (∀ o, f o = g o) → edit_object v n i f = edit_object v n i g.
Proof.
  intros H. unfold edit_object, edit_objects. f_equal. apply alter_ext. intros os _.
  apply alter_ext. auto.
Qed.

Lemma loop_edit n i name edit cmd : loop_of (LwEdit n i name edit cmd) →
  (∀ clock v, spec_apply clock v cmd =
     Some (edit_object v n i (edit_geojson (λ j, (edit j).1)))) ∧
  (∀ v, (∃ o, find_object v n i = Some o ∧
              indexable (geo (edit_geojson (λ j, (edit j).1) o)) = true) → applicable v cmd).
Proof.
  intros (clock & rq & Hw). destruct rq; simplify_eq/=; [|done].
  assert (∀ o, edit_geojson (λ j, (set_json_path j path (jset_payload value raw)).1) o =
    edit_geojson (λ j, (let '(json', r) := set_json_path j path (jset_payload value raw) in
                        (json', rmap (λ _, true) r)).1) o) as Heq.
  { intros o. apply edit_geojson_ext. intros j. by destruct (set_json_path _ _ _). }
  split; [|by setoid_rewrite Heq]. intros _ v. f_equal. by apply edit_object_ext.
Qed.

(** The geometry a write stores can be indexed. *)
Definition stores_indexable (w : LocalWrite) (os' : gmap string Object) : Prop :=
  match w with
  | LwSet _ | LwEdit _ _ _ _ _ => ∀ o, os' !! lw_id w = Some o → indexable (geo o) = true
  | _ => True
  end.

Lemma read_edit_batch n i name edit cmd ver o pl :
  read_edit n i name edit cmd ver o = Ok pl →
  ∃ json json' changed, geo o = GtGeoJson json ∧ edit json = (json', Ok changed) ∧
    pl = mkPlan ver
           (RecordBatch (cmd :: if bool_decide (is_Some (expires_at o)) then [CmdPersist n i] else []))
           (ChGeo i (GtGeoJson json') (bool_decide (is_Some (expires_at o)))) None changed.
Proof.
  unfold read_edit. destruct (geo o) as [| | |json|]; try done.
  destruct (edit json) as [json' [changed|e]] eqn:He; [|done]. intros H. ok_inv H.
  simplify_eq. by exists json, json', changed.
Qed.

Lemma read_edit_version n i name edit cmd ver o :
  read_edit n i name edit cmd ver o =
  rmap (λ pl, mkPlan ver (pl_batch pl) (pl_change pl) (pl_prepared pl) (pl_answer pl))
    (read_edit n i name edit cmd 0 o).
Proof.
  unfold read_edit. destruct (geo o) as [| | |json|]; try done.
  destruct (edit json) as [json' [changed|e]]; [|done].
  destruct (map_err CGeo (validate_geo _)); [|done].
  by destruct (map_err CGeo (geo_to_geometry _)).
Qed.

Lemma with_expiry_None o : expires_at o = None → with_expiry o None = o.
Proof. destruct o; simpl. by intros ->. Qed.

Lemma edit_geojson_expires f o : expires_at (edit_geojson f o) = expires_at o.
Proof. unfold edit_geojson. by destruct (geo o). Qed.

Lemma write_spec_edit_steps clock n i name edit cmd os r cmds os' v :
  loop_of (LwEdit n i name edit cmd) → v_objects v !! n = Some os →
  write_spec clock (LwEdit n i name edit cmd) os = (r, cmds, os') →
  stores_indexable (LwEdit n i name edit cmd) os' → spec_steps v cmds (set_objects v n os').
Proof.
  intros Hlp Hn Hw Hix. simpl in Hw, Hix. destruct (os !! i) as [o|] eqn:Hi.
  2: { simplify_eq. rewrite set_objects_id by done. constructor. }
  destruct (read_edit _ _ _ _ _ _ _) as [pl|e] eqn:Hre.
  2: { simplify_eq. rewrite set_objects_id by done. constructor. }
  apply read_edit_batch in Hre as (json & json' & changed & Hgeo & Hed & ->). simpl in Hw. simplify_eq.
  destruct (loop_edit _ _ _ _ _ Hlp) as [Hspec Happ]. set (f := λ j, (edit j).1) in *.
  rewrite lookup_insert_eq in Hix. specialize (Hix _ eq_refl).
  assert (find_object v n i = Some o) as Hf by (unfold find_object; by rewrite Hn).
  econstructor; [apply Happ; eauto|intros; apply Hspec|].
  rewrite (edit_object_at _ _ _ os o) by done. case_bool_decide as Httl.
  - eapply spec_steps_one.
    + simpl. unfold find_object, set_objects, edit_objects. simpl. rewrite lookup_insert_eq. simpl.
      by rewrite lookup_insert_eq.
    + intros clock'. simpl. f_equal. erewrite edit_object_at.
      2: { unfold set_objects, edit_objects. simpl. apply lookup_insert_eq. }
      2: { apply lookup_insert_eq. }
      unfold set_objects, edit_objects. simpl. by rewrite !insert_insert_eq.
  - rewrite with_expiry_None; [constructor|]. rewrite edit_geojson_expires.
    destruct (expires_at o); [|done]. by destruct Httl.
Qed.

Lemma write_spec_steps clock w os r cmds os' v :
  loop_of w → v_objects v !! lw_collection w = Some os →
  write_spec clock w os = (r, cmds, os') → stores_indexable w os' →
  spec_steps v cmds (set_objects v (lw_collection w) os').
Proof.
  intros Hlp Hn Hw Hix. destruct w as [req|n i|n i fs xx|n i cmd d|n i name edit cmd];
    [..|by eapply write_spec_edit_steps]; simpl in Hn, Hw, Hix; simpl.
  - destruct (condition_fails _ _).
    { simplify_eq. rewrite set_objects_id by done. constructor. }
    simplify_eq. rewrite lookup_insert_eq in Hix. specialize (Hix _ eq_refl).
    apply spec_steps_one; [done|]. intros clock'. simpl. unfold put_object. simpl in Hix |- *.
    rewrite Hix, field_entries_roundtrip. unfold set_objects, edit_objects. by rewrite Hn.
  - destruct (os !! i) as [o|] eqn:Hi; simplify_eq.
    2: { rewrite set_objects_id by done. constructor. }
    apply spec_steps_one; [done|]. intros clock'. simpl. f_equal. by apply edit_objects_alter.
  - destruct (os !! i) as [o|] eqn:Hi; simplify_eq.
    2: { rewrite set_objects_id by done. constructor. }
    apply spec_steps_one; [unfold applicable, find_object; by rewrite Hn; simpl; rewrite Hi|].
    intros clock'. simpl. f_equal. exact (edit_object_at v n i os o _ Hn Hi).
  - destruct (os !! i) as [o|] eqn:Hi; simplify_eq.
    2: { rewrite set_objects_id by done. constructor. }
    destruct (loop_expiry _ _ _ _ Hlp) as [Hspec Happ].
    apply spec_steps_one; [apply Happ; unfold find_object; by rewrite Hn; simpl; rewrite Hi|].
    intros clock'. rewrite Hspec. f_equal. exact (edit_object_at v n i os o _ Hn Hi).
Qed.

End Cells.

(** ** Plans *)

Section Plans.
Context `{LM : Libm} `{GC : GeoCrate} `{RC : RTreeCrate} `{JT : JsonText} `{PT : Patterns}
  `{HO : HashOrder}.
Context {S : Type}.

(** A plan made for a cell with objects [os]. *)
Record plan_ok (w : LocalWrite) (pl : Plan) (os : gmap string Object) : Prop := mkPlanOk {
  plan_spec : ∃ clock, write_spec clock w os =
    (Ok (pl_answer pl), batch_commands (pl_batch pl), change_objects (pl_change pl) os);
  plan_target : change_target (pl_change pl) os;
  plan_removes i : pl_change pl = ChRemove i → pl_answer pl = true;
  plan_stores : change_indexable (pl_change pl) = true →
    stores_indexable w (change_objects (pl_change pl) os)
}.

Lemma read_cell_answered clock w v r :
  read_cell w v = Answered r → write_spec clock w (cell_objects v) = (r, [], cell_objects v).
Proof.
  unfold read_cell, write_spec, cell_objects. destruct w as [req|n i|n i fs xx|n i cmd d|n i name edit cmd];
    simpl; try (destruct (objects (collection v) !! i) as [o|] eqn:Hi; intros ?; by simplify_eq).
  - destruct (condition_fails _ _); intros ?; by simplify_eq.
  - destruct (objects (collection v) !! i) as [o|] eqn:Hi; [|intros ?; by simplify_eq].
    rewrite read_edit_version. destruct (read_edit n i name edit cmd 0 o); [done|]. by intros [= <-].
Qed.

Lemma edit_plan_ok clock n i name edit cmd ver o pl os :
  os !! i = Some o → read_edit n i name edit cmd ver o = Ok pl →
  pl_version pl = ver ∧
  write_spec clock (LwEdit n i name edit cmd) os =
    (Ok (pl_answer pl), batch_commands (pl_batch pl), change_objects (pl_change pl) os).
Proof.
  intros Hi He.
  assert (read_edit n i name edit cmd 0 o =
    Ok (mkPlan 0 (pl_batch pl) (pl_change pl) (pl_prepared pl) (pl_answer pl))) as He0.
  { rewrite (read_edit_version _ _ _ _ _ 0). rewrite read_edit_version in He.
    destruct (read_edit n i name edit cmd 0 o); simplify_eq/=. done. }
  apply read_edit_batch in He as (json & json' & changed & Hgeo & Hed & ->).
  split; [done|]. unfold write_spec. cbn [lw_id]. rewrite Hi, He0. f_equal.
  cbn [pl_change change_objects]. rewrite (alter_Some _ _ _ o) by done. f_equal.
  unfold edit_geojson. rewrite Hgeo, Hed. cbn [fst]. case_bool_decide as Httl; [done|].
  apply with_expiry_None. destruct o as [? ? ? [d|]]; [|done]. by destruct Httl.
Qed.

Lemma read_cell_ready w v pl :
  read_cell w v = Ready pl → pl_version pl = version v ∧ plan_ok w pl (cell_objects v).
Proof.
  unfold read_cell, cell_objects. destruct w as [req|n i|n i fs xx|n i cmd d|n i name edit cmd]; simpl.
  - by destruct (condition_fails _ _).
  - by destruct (objects (collection v) !! i).
  - by destruct (objects (collection v) !! i).
  - destruct (objects (collection v) !! i) as [o|] eqn:Hi; [|done]. intros [= <-].
    split; [done|]. split; [|by eexists|done|done]. exists (mkClock 0 0). simpl. rewrite Hi.
    by rewrite (alter_Some _ _ _ o).
  - destruct (objects (collection v) !! i) as [o|] eqn:Hi; [|done].
    destruct (read_edit n i name edit cmd (version v) o) as [pl'|e] eqn:He; [|done].
    intros [= <-]. destruct (edit_plan_ok (mkClock 0 0) _ _ _ _ _ _ _ _ _ Hi He) as [Hv Hs].
    split; [done|]. apply read_edit_batch in He as (json & json' & changed & Hgeo & Hed & ->).
    split; [by eexists|by eexists|done|]. simpl. intros Hix o'.
    rewrite (alter_Some _ _ _ o), lookup_insert_eq by done. intros [= <-].
    by destruct (bool_decide _).
Qed.

Lemma read_cell_mutates w v before :
  read_cell w v = Mutates before → before = cell_objects v !! lw_id w.
Proof.
  unfold read_cell, cell_objects. destruct w; simpl; try (destruct (condition_fails _ _); congruence);
    destruct (objects (collection v) !! _) as [o|]; try congruence.
  by destruct (read_edit _ _ _ _ _ _ _).
Qed.

Lemma plan_write_ok clock w ver v before (db : LatLng S) pl :
  read_cell w v = Mutates before → plan_write clock w ver before db = Ok (Some pl) →
  pl_version pl = ver ∧ plan_ok w pl (cell_objects v).
Proof.
  intros Hrd. pose proof (read_cell_mutates _ _ _ Hrd) as Hb. revert Hrd. unfold plan_write.
  destruct (intend clock w before) as [[[e cmd] ch]|] eqn:Hin; [|done]. intros Hrd Hpl.
  ok_inv Hpl. injection Hpl as <-. split; [done|].
  unfold read_cell in Hrd. unfold cell_objects in *.
  destruct w as [req|n i|n i fs xx|n i cmd' d|n i name edit cmd']; simpl in *; try done.
  - rewrite <-Hb in Hrd. destruct (condition_fails _ _) eqn:Hcond; [done|]. simplify_eq.
    split; [exists clock; simpl; by rewrite Hcond|done|done|].
    simpl. intros Hix o. rewrite lookup_insert_eq. by intros [= <-].
  - rewrite <-Hb in Hrd. destruct before as [o|]; [|done]. simplify_eq.
    split; [exists clock; simpl; by rewrite <-Hb|by eexists|done|done].
  - destruct before as [o|]; [|done]. simplify_eq/=.
    split; [|by eexists|done|done]. exists clock. simpl. rewrite <-Hb.
    by rewrite (alter_Some _ _ _ o).
Qed.

Lemma plan_write_some clock w ver v before (db : LatLng S) :
  read_cell w v = Mutates before → plan_write clock w ver before db ≠ Ok None.
Proof.
  intros Hrd. pose proof (read_cell_mutates _ _ _ Hrd) as Hb. unfold plan_write.
  assert (is_Some (intend clock w before)) as [[[e cmd] ch] ->].
  { unfold read_cell, cell_objects in *. destruct w; simpl in *; try done; rewrite <-?Hb in Hrd;
      destruct before; try done. by destruct (read_edit _ _ _ _ _ _ _). }
  by destruct (webhook_records _ _ _ _).
Qed.

End Plans.

(** ** Sequential histories *)

Record Lin := mkLin { lin_thread : nat; lin_commands : list Command; lin_answer : result bool CoreError }.

(** Errors that say nothing about the objects: the request was not valid, the
    server is read-only, the log could not be written. *)
Definition refusal (e : CoreError) : Prop :=
  match e with
  | ObjectNotFound _ _ | CollectionNotFound _ | Invalid _ | CIndex _ => False
  | _ => True
  end.

Section History.
Context `{LM : Libm} `{GC : GeoCrate} `{RC : RTreeCrate} `{JT : JsonText} `{PT : Patterns}
  `{HO : HashOrder} `{LC : LogCodec} `{MD : Md5} `{B64 : Base64}.
Context {S : Type} `{SB : StorageBackend S} `{SL : !StorageLaws S}.

Implicit Types db : LatLng S.
Implicit Types st : State (S := S).

(** The answer for a collection that does not exist; [set] creates it. *)
Definition absent_answer (w : LocalWrite) : option (result bool CoreError) :=
  match w with
  | LwSet _ => None
  | LwDel _ _ => Some (Ok false)
  | _ => Some (Err (CollectionNotFound (lw_collection w)))
  end.

(** A request is turned away before its loop starts. *)
Definition entry_refusal (rq : Request) db (e : CoreError) : Prop :=
  read_only (db_config db) = true ∧ e = ReadOnly ∨
  ∃ req err, rq = RqSet req ∧ validate_geo (sr_object req) = Err err ∧ e = CGeo err.

(** Thread [t] is turned away with [e] when it moves in [st]: at the entrance,
    because a job of a webhook cannot be made out, or because the record of its
    write could not be encoded or the storage did not take it. *)
Definition refuses (clock : Clock) (t : nat) st (e : CoreError) : Prop :=
  ∃ th, st_threads st !! t = Some th ∧
    match th_pc th with
    | PEnter => entry_refusal (th_request th) (st_db st) e
    | PPlan w ver before => plan_write clock w ver before (st_db st) = Err e
    | PAppend _ pl sequences => (append_step clock pl sequences (st_db st)).2 = Err e
    | _ => False
    end.

(** The moves of a concurrent run: [occurs clock t st] when thread [t] moved
    in state [st] at time [clock]. *)
Context {occurs : Clock → nat → State (S := S) → Prop}.

(** The request of thread [t] served in one go, at a view: what it logs and
    answers.  It is refused only when the run itself turned it away, with that
    error, and it runs behind the write gate only on the database it found
    there. *)
Inductive atomic (t : nat) (rq : Request)
    : View → list Command → result bool CoreError → View → Prop :=
  | atomic_write clock0 clock w v os r cmds os' :
      local_write clock0 rq = Some w → v_objects v !! lw_collection w = Some os →
      write_spec clock w os = (r, cmds, os') →
      atomic t rq v cmds r (set_objects v (lw_collection w) os')
  | atomic_absent clock0 w v r :
      local_write clock0 rq = Some w → v_objects v !! lw_collection w = None →
      absent_answer w = Some r → atomic t rq v [] r v
  | atomic_refused clock st v e :
      occurs clock t st → refuses clock t st e → refusal e → atomic t rq v [] (Err e) v
  | atomic_exclusive clock st db' cmds r :
      occurs clock t st → exclusive clock rq (st_db st) = (db', r) → effect (st_db st) db' cmds →
      atomic t rq (view (st_db st)) cmds r (view db').

(** The requests of [rqs], each at most once, one after the other. *)
Inductive atomic_run (rqs : list Request) (v0 : View) : list Lin → View → Prop :=
  | run_nil : atomic_run rqs v0 [] v0
  | run_snoc hist v t rq cmds r v' :
      atomic_run rqs v0 hist v → rqs !! t = Some rq → t ∉ lin_thread <$> hist →
      atomic t rq v cmds r v' → atomic_run rqs v0 (hist ++ [mkLin t cmds r]) v'.

Definition hist_commands (hist : list Lin) : list Command := hist ≫= lin_commands.

(** ** The invariant *)

(** Threads past the point where their write takes place. *)
Definition linearized (pc : Pc) : option (result bool CoreError) :=
  match pc with
  | PApply _ pl => Some (Ok (pl_answer pl))
  | PPublish _ answer => Some (Ok answer)
  | PDone r => Some r
  | _ => None
  end.

(** The plan that is logged but not yet applied to cell [n]. *)
Definition applying (pc : Pc) : option Plan :=
  match pc with PApply _ pl => Some pl | _ => None end.

Definition pending st (n : string) : option Plan :=
  t ← st_locks st !! n; th ← st_threads st !! t; applying (th_pc th).

(** The objects of cell [n] that the log tells. *)
Definition shown st (n : string) : option (gmap string Object) :=
  from_option (λ pl, change_objects (pl_change pl)) (λ os, os) (pending st n) <$>
  (cell_objects <$> db_collections (st_db st) !! n).

Definition seen_ok (cell : option VersionedCollection) (ver : Z) (P : VersionedCollection → Prop)
    : Prop :=
  ∃ v, cell = Some v ∧ (ver ≤ version v)%Z ∧ (version v = ver → P v).

Definition held_ok db (locks : gmap string nat) (t : nat) (w : LocalWrite) (pl : Plan) : Prop :=
  locks !! lw_collection w = Some t ∧
  ∃ v, db_collections db !! lw_collection w = Some v ∧ plan_ok w pl (cell_objects v).

(** What a thread at [pc] can rely on. *)
Definition pc_ok db (locks : gmap string nat) (t : nat) (pc : Pc) : Prop :=
  match pc with
  | PEnter | PGate | PDone _ | PPublish _ _ => True
  | PFast _ => False
  | PRead w => is_Some (db_collections db !! lw_collection w)
  | PPlan w ver before =>
      seen_ok (db_collections db !! lw_collection w) ver (λ v, read_cell w v = Mutates before) ∧
      ∃ v, read_cell w v = Mutates before
  | PLock w pl =>
      seen_ok (db_collections db !! lw_collection w) (pl_version pl)
        (λ v, plan_ok w pl (cell_objects v))
  | PReserve w pl | PApply w pl => held_ok db locks t w pl
  | PAppend w pl sequences =>
      held_ok db locks t w pl ∧ length sequences = batch_count (pl_batch pl)
  end.

Definition pc_write (pc : Pc) : option LocalWrite :=
  match pc with
  | PRead w | PPlan w _ _ | PLock w _ | PReserve w _ | PAppend w _ _ | PApply w _ => Some w
  | _ => None
  end.

Definition thread_ok (rqs : list Request) db locks t (th : Thread) : Prop :=
  rqs !! t = Some (th_request th) ∧ pc_ok db locks t (th_pc th) ∧
  ∀ w, pc_write (th_pc th) = Some w → ∃ clock, local_write clock (th_request th) = Some w.

Record inv (rqs : list Request) (db0 : LatLng S) (hist : list Lin) (v : View) st : Prop := mkInv {
  inv_ready : ready (st_db st);
  inv_threads t th : st_threads st !! t = Some th → thread_ok rqs (st_db st) (st_locks st) t th;
  inv_locks n t : st_locks st !! n = Some t →
    ∃ th w pl, st_threads st !! t = Some th ∧ holds (th_pc th) = Some (w, pl) ∧
               lw_collection w = n;
  inv_run : atomic_run rqs (view db0) hist v;
  inv_steps : spec_steps (view db0) (hist_commands hist) v;
  inv_answers t r : (∃ cmds, mkLin t cmds r ∈ hist) ↔
    ∃ th, st_threads st !! t = Some th ∧ linearized (th_pc th) = Some r;
  inv_log : ∃ es, committed (db_storage (st_db st)) = committed (db_storage db0) ++ es ∧
                  encode_commands es (hist_commands hist);
  inv_defs : v_channels v = v_channels (view (st_db st)) ∧ v_hooks v = v_hooks (view (st_db st));
  inv_objects n : v_objects v !! n = shown st n
}.

(** ** Conditions on a run

    No cell has been written 2^64 - 1 times, after which its version stays
    where it is, and no write stores a geometry the spatial index refuses. *)

Definition calm_pc (pc : Pc) : Prop :=
  match pc with
  | PLock _ pl | PReserve _ pl | PAppend _ pl _ | PApply _ pl =>
      change_indexable (pl_change pl) = true
  | PDone r => not_index_error r
  | _ => True
  end.

Definition calm st : Prop :=
  map_Forall (λ _ th, calm_pc (th_pc th)) (st_threads st) ∧
  map_Forall (λ _ v, (version v < U64_MAX)%Z) (db_collections (st_db st)).

Definition calm_step st st' : Prop := server_step st st' ∧ calm st'.

(** ** Moves *)

(** Cells another thread may have changed, unless [t] has them locked. *)
Definition cells_later db (locks : gmap string nat) db' (t : nat) : Prop :=
  ∀ n v, db_collections db !! n = Some v →
    ∃ v', db_collections db' !! n = Some v' ∧
          (v' = v ∨ (version v < version v')%Z ∧ locks !! n ≠ Some t).

Lemma cells_later_refl db locks db' t :
  db_collections db' = db_collections db → cells_later db locks db' t.
Proof. intros Hc n v Hn. exists v. rewrite Hc. auto. Qed.

Lemma seen_later db locks db' t n ver P :
  cells_later db locks db' t → seen_ok (db_collections db !! n) ver P →
  seen_ok (db_collections db' !! n) ver P.
Proof.
  intros Hl (v & Hn & Hle & HP). destruct (Hl n v Hn) as (v' & Hn' & [->|[Hlt _]]).
  - by exists v.
  - exists v'. split_and!; [done|lia|]. lia.
Qed.

Lemma held_later db locks db' locks' t w pl :
  cells_later db locks db' t → (∀ n, locks !! n = Some t → locks' !! n = Some t) →
  held_ok db locks t w pl → held_ok db' locks' t w pl.
Proof.
  intros Hl Hk [Hlock (v & Hn & Hp)]. split; [by apply Hk|].
  destruct (Hl _ v Hn) as (v' & Hn' & [->|[_ Hne]]); [by exists v|done].
Qed.

Lemma pc_later db locks db' locks' t pc :
  cells_later db locks db' t → (∀ n, locks !! n = Some t → locks' !! n = Some t) →
  pc_ok db locks t pc → pc_ok db' locks' t pc.
Proof.
  intros Hl Hk. destruct pc; simpl; try done; eauto using held_later, seen_later.
  - intros [v Hv]. destruct (Hl _ v Hv) as (v' & -> & _). eauto.
  - intros [Hs Hm]. eauto using seen_later.
  - intros [Hh Hs]. eauto using held_later.
Qed.

(** A thread that locks nothing finds no lock of its own. *)
Lemma no_lock rqs db0 hist v st t th : inv rqs db0 hist v st →
  st_threads st !! t = Some th → holds (th_pc th) = None → ∀ n, st_locks st !! n ≠ Some t.
Proof.
  intros Hi Ht Hh n Hn. destruct (inv_locks _ _ _ _ _ Hi n t Hn) as (th' & w & pl & Ht' & Hh' & _).
  rewrite Ht in Ht'. simplify_eq.
Qed.

Lemma own_lock rqs db0 hist v st t th w pl n : inv rqs db0 hist v st →
  st_threads st !! t = Some th → holds (th_pc th) = Some (w, pl) →
  st_locks st !! n = Some t → n = lw_collection w.
Proof.
  intros Hi Ht Hh Hn. destruct (inv_locks _ _ _ _ _ Hi n t Hn) as (th' & w' & pl' & Ht' & Hh' & <-).
  rewrite Ht in Ht'. injection Ht' as <-. rewrite Hh in Hh'. by injection Hh' as <- <-.
Qed.

(** Cells the moving thread does not touch are shown as before. *)
Lemma shown_frame st t rq db' locks' pc n :
  db_collections db' !! n = db_collections (st_db st) !! n →
  locks' !! n = st_locks st !! n → st_locks st !! n ≠ Some t →
  shown (goto st t rq db' locks' pc) n = shown st n.
Proof.
  intros Hc Hl Ht. unfold shown, pending, goto. cbn [st_db st_locks st_threads]. rewrite Hc, Hl.
  destruct (st_locks st !! n) as [t'|] eqn:Hn; cbn [base.mbind option_bind]; [|done].
  rewrite lookup_insert_ne; [done|]. congruence.
Qed.

Lemma shown_own st t rq db' locks' pc n :
  locks' !! n = None ∨ locks' !! n = Some t ∧ applying pc = None →
  shown (goto st t rq db' locks' pc) n = cell_objects <$> db_collections db' !! n.
Proof.
  intros Hl. unfold shown, pending, goto. cbn [st_db st_locks st_threads].
  destruct Hl as [->|[-> Hp]]; cbn [base.mbind option_bind from_option].
  - by destruct (db_collections db' !! n).
  - rewrite lookup_insert_eq. cbn [base.mbind option_bind th_pc]. rewrite Hp.
    by destruct (db_collections db' !! n).
Qed.

(** The part of the invariant a move has to re-establish. *)
Record move_ok st (t : nat) (rq : Request) db' locks' pc' : Prop := mkMove {
  move_ready : ready db';
  move_pc : pc_ok db' locks' t pc';
  move_loop w : pc_write pc' = Some w → ∃ clock, local_write clock rq = Some w;
  move_cells t' : t' ≠ t →
    (∃ th, st_threads st !! t' = Some th ∧ in_gate (th_pc th) = true) →
    cells_later (st_db st) (st_locks st) db' t';
  move_keeps n t' : t' ≠ t → st_locks st !! n = Some t' → locks' !! n = Some t';
  move_locks n t' : locks' !! n = Some t' →
    t' ≠ t ∧ st_locks st !! n = Some t' ∨
    t' = t ∧ ∃ w pl, holds pc' = Some (w, pl) ∧ lw_collection w = n
}.

Lemma pc_outside db locks db' locks' t pc :
  in_gate pc = false → pc_ok db locks t pc → pc_ok db' locks' t pc.
Proof. by destruct pc. Qed.

Lemma move_threads rqs st t th db' locks' pc' :
  (∀ t' th', st_threads st !! t' = Some th' → thread_ok rqs (st_db st) (st_locks st) t' th') →
  st_threads st !! t = Some th → move_ok st t (th_request th) db' locks' pc' →
  ∀ t' th', st_threads (goto st t (th_request th) db' locks' pc') !! t' = Some th' →
            thread_ok rqs db' locks' t' th'.
Proof.
  intros Hall Ht [_ Hpc Hlp Hcells Hkeep _] t' th'. unfold goto. cbn [st_threads].
  rewrite lookup_insert_Some. intros [[<- <-]|[Hne Ht']].
  - destruct (Hall t th Ht) as (Hrq & _). by split_and!.
  - destruct (Hall t' th' Ht') as (Hrq & Hok & Hw). split_and!; [done| |done].
    destruct (in_gate (th_pc th')) eqn:Hin; [|by eapply pc_outside].
    eapply pc_later; [apply Hcells; eauto|eauto|done].
Qed.

Lemma move_owner st t th db' locks' pc' :
  (∀ n t', st_locks st !! n = Some t' →
     ∃ th w pl, st_threads st !! t' = Some th ∧ holds (th_pc th) = Some (w, pl) ∧
                lw_collection w = n) →
  move_ok st t (th_request th) db' locks' pc' →
  ∀ n t', locks' !! n = Some t' →
    ∃ th' w pl, st_threads (goto st t (th_request th) db' locks' pc') !! t' = Some th' ∧
                holds (th_pc th') = Some (w, pl) ∧ lw_collection w = n.
Proof.
  intros Hlocks Hm n t' Hn. unfold goto. cbn [st_threads].
  destruct (move_locks _ _ _ _ _ _ Hm n t' Hn) as [[Hne Hold]|[-> (w & pl & Hh & Hc)]].
  - destruct (Hlocks n t' Hold) as (th' & w & pl & Ht' & ?). exists th', w, pl.
    by rewrite lookup_insert_ne.
  - eexists _, w, pl. rewrite lookup_insert_eq. done.
Qed.

(** A move before or after the write takes place. *)
Lemma inv_silent rqs db0 hist v st t th db' locks' pc' :
  inv rqs db0 hist v st → st_threads st !! t = Some th →
  move_ok st t (th_request th) db' locks' pc' →
  linearized pc' = linearized (th_pc th) →
  committed (db_storage db') = committed (db_storage (st_db st)) →
  v_channels (view db') = v_channels (view (st_db st)) →
  v_hooks (view db') = v_hooks (view (st_db st)) →
  (∀ n, shown (goto st t (th_request th) db' locks' pc') n = shown st n) →
  inv rqs db0 hist v (goto st t (th_request th) db' locks' pc').
Proof.
  intros [Hr Hth Hlk Hrun Hsteps Hans Hlog [Hch Hhk] Hobj] Ht Hm Hlin Hcom Hc Hh Hshow.
  split; try done; cbn [st_db st_locks st_threads goto].
  - apply Hm.
  - by eapply move_threads.
  - by eapply move_owner.
  - intros t' r. rewrite Hans. split.
    + intros (th' & Ht' & Hr'). destruct (decide (t = t')) as [<-|Hne].
      * eexists. rewrite lookup_insert_eq. split; [done|]. rewrite Ht in Ht'. simplify_eq. simpl. congruence.
      * exists th'. by rewrite lookup_insert_ne.
    + intros (th' & Ht' & Hr'). apply lookup_insert_Some in Ht' as [[<- <-]|[Hne Ht']]; [|eauto].
      exists th. split; [done|]. simpl in Hr'. congruence.
  - by rewrite Hcom.
  - by rewrite Hc, Hh.
  - intros n. by rewrite Hobj, Hshow.
Qed.

Lemma hist_commands_snoc hist t cmds r :
  hist_commands (hist ++ [mkLin t cmds r]) = hist_commands hist ++ cmds.
Proof. unfold hist_commands. rewrite bind_app. cbn. by rewrite app_nil_r. Qed.

(** The move at which the write takes place. *)
Lemma inv_lin rqs db0 hist v st t th db' locks' pc' cmds r v' es :
  inv rqs db0 hist v st → st_threads st !! t = Some th →
  move_ok st t (th_request th) db' locks' pc' →
  linearized (th_pc th) = None → linearized pc' = Some r →
  atomic t (th_request th) v cmds r v' → spec_steps v cmds v' →
  committed (db_storage db') = committed (db_storage (st_db st)) ++ es →
  encode_commands es cmds →
  v_channels v' = v_channels (view db') → v_hooks v' = v_hooks (view db') →
  (∀ n, v_objects v' !! n = shown (goto st t (th_request th) db' locks' pc') n) →
  inv rqs db0 (hist ++ [mkLin t cmds r]) v' (goto st t (th_request th) db' locks' pc').
Proof.
  intros [Hr Hth Hlk Hrun Hsteps Hans (es0 & Hlog & Henc) [Hch Hhk] Hobj] Ht Hm Hlin Hlin' Hat Hsp
    Hcom Hes Hc Hh Hshow.
  assert (t ∉ lin_thread <$> hist) as Hnew.
  { intros ([t' cmds' r'] & -> & Hin)%list_elem_of_fmap. simpl in Ht.
    destruct (proj1 (Hans t' r')) as (th' & Ht' & Hr'); [by exists cmds'|].
    rewrite Ht in Ht'. simplify_eq. }
  split; try done; cbn [st_db st_locks st_threads goto].
  - apply Hm.
  - by eapply move_threads.
  - by eapply move_owner.
  - econstructor; [done|by apply (Hth t th)|done|done].
  - rewrite hist_commands_snoc. by eapply spec_steps_app.
  - intros t' r'. destruct (decide (t = t')) as [<-|Hne].
    + rewrite lookup_insert_eq. split.
      * intros (cmds' & [Hin|Hin]%elem_of_app).
        { destruct Hnew. apply list_elem_of_fmap. by exists (mkLin t cmds' r'). }
        apply list_elem_of_singleton in Hin. simplify_eq. eauto.
      * intros (th' & [= <-] & Hr'). simpl in Hr'. rewrite Hlin' in Hr'. simplify_eq.
        exists cmds. apply elem_of_app. right. by apply list_elem_of_singleton.
    + rewrite lookup_insert_ne by done. rewrite <-Hans. split.
      * intros (cmds' & [Hin|Hin]%elem_of_app); [eauto|].
        apply list_elem_of_singleton in Hin. simplify_eq.
      * intros (cmds' & Hin). exists cmds'. apply elem_of_app. by left.
  - exists (es0 ++ es). rewrite Hcom, Hlog, app_assoc, hist_commands_snoc.
    split; [done|by apply encode_commands_app].
Qed.

(** ** One move of one thread *)

Lemma shown_same st t th db' pc' n :
  st_threads st !! t = Some th → db_collections db' = db_collections (st_db st) →
  applying pc' = applying (th_pc th) →
  shown (goto st t (th_request th) db' (st_locks st) pc') n = shown st n.
Proof.
  intros Ht Hc Ha. destruct (decide (st_locks st !! n = Some t)) as [Hl|Hl].
  - unfold shown, pending, goto. cbn [st_db st_locks st_threads]. rewrite Hc, Hl.
    cbn [base.mbind option_bind]. rewrite lookup_insert_eq, Ht. cbn. by rewrite Ha.
  - apply shown_frame; [by rewrite Hc|done|done].
Qed.

Lemma shown_free st n : st_locks st !! n = None →
  shown st n = cell_objects <$> db_collections (st_db st) !! n.
Proof. intros Hl. unfold shown, pending. rewrite Hl. cbn. by destruct (db_collections (st_db st) !! n). Qed.

(** The cell of a thread that holds its lock and has not logged yet. *)
Lemma shown_held st t th n : st_locks st !! n = Some t → st_threads st !! t = Some th →
  shown st n = from_option (λ pl, change_objects (pl_change pl)) (λ os, os) (applying (th_pc th)) <$>
               (cell_objects <$> db_collections (st_db st) !! n).
Proof. intros Hl Ht. unfold shown, pending. rewrite Hl. cbn [base.mbind option_bind]. by rewrite Ht. Qed.

Lemma move_same rqs db0 hist v st t th db' pc' :
  inv rqs db0 hist v st → st_threads st !! t = Some th →
  ready db' → db_collections db' = db_collections (st_db st) →
  holds pc' = holds (th_pc th) → pc_ok db' (st_locks st) t pc' →
  (∀ w, pc_write pc' = Some w → ∃ clock, local_write clock (th_request th) = Some w) →
  move_ok st t (th_request th) db' (st_locks st) pc'.
Proof.
  intros Hi Ht Hr Hc Hh Hpc Hlp. split; try done.
  - intros. by apply cells_later_refl.
  - intros n t' Hn. destruct (decide (t' = t)) as [->|]; [right|by left]. split; [done|].
    destruct (inv_locks _ _ _ _ _ Hi n t Hn) as (th' & w & pl & Ht' & Hh' & ?).
    rewrite Ht in Ht'. injection Ht' as <-. exists w, pl. by rewrite Hh.
Qed.

(** The thread unlocks its cell. *)
Lemma move_unlock rqs db0 hist v st t th w pl db' pc' :
  inv rqs db0 hist v st → st_threads st !! t = Some th →
  holds (th_pc th) = Some (w, pl) → ready db' →
  (∀ t', t' ≠ t → cells_later (st_db st) (st_locks st) db' t') →
  st_locks st !! lw_collection w = Some t → holds pc' = None →
  pc_ok db' (delete (lw_collection w) (st_locks st)) t pc' →
  (∀ w, pc_write pc' = Some w → ∃ clock, local_write clock (th_request th) = Some w) →
  move_ok st t (th_request th) db' (delete (lw_collection w) (st_locks st)) pc'.
Proof.
  intros Hi Ht Hh Hr Hcells Hl Hh' Hpc Hlp. split; try done; [by eauto|..].
  - intros n t' Hne Hn. rewrite lookup_delete_ne; [done|]. congruence.
  - intros n t' [Hne Hn]%lookup_delete_Some. left. split; [|done]. intros ->.
    apply Hne. symmetry. by eapply own_lock.
Qed.

Lemma appended_refl es : es = @nil StorageEntry → encode_commands es [].
Proof. intros ->. by exists []. Qed.

(** A request that is answered without logging anything. *)
Lemma inv_answer rqs db0 hist v st t th db' r :
  inv rqs db0 hist v st → st_threads st !! t = Some th →
  linearized (th_pc th) = None → holds (th_pc th) = None →
  db' = st_db st → atomic t (th_request th) v [] r v →
  inv rqs db0 (hist ++ [mkLin t [] r]) v
    (goto st t (th_request th) db' (st_locks st) (PDone r)).
Proof.
  intros Hi Ht Hlin Hh -> Hat.
  assert (applying (th_pc th) = None) as Ha by (by destruct (th_pc th)).
  eapply (inv_lin _ _ _ v _ _ _ _ _ _ _ _ _ []); try done.
  - eapply move_same; try done. apply Hi.
  - constructor.
  - by rewrite app_nil_r.
  - by apply appended_refl.
  - apply Hi.
  - apply Hi.
  - intros n. rewrite shown_same; [apply Hi|done|done|done].
Qed.

(** A move that changes nothing but where the thread is. *)
Lemma inv_go rqs db0 hist v st t th pc' :
  inv rqs db0 hist v st → st_threads st !! t = Some th →
  linearized (th_pc th) = None → linearized pc' = None → holds pc' = holds (th_pc th) →
  pc_ok (st_db st) (st_locks st) t pc' →
  (∀ w, pc_write pc' = Some w → ∃ clock, local_write clock (th_request th) = Some w) →
  inv rqs db0 hist v (goto st t (th_request th) (st_db st) (st_locks st) pc').
Proof.
  intros Hi Ht Hlin Hlin' Hh Hpc Hlp.
  assert (applying (th_pc th) = None) as Ha by (by destruct (th_pc th)).
  assert (applying pc' = None) as Ha' by (by destruct pc').
  eapply inv_silent; try done; [|congruence|].
  - eapply move_same; try done. apply Hi.
  - intros n. apply shown_same; [done..|congruence].
Qed.

End History.
