(* ===== verification/Linearize.v ===== *)
(** * Every move of a writer keeps the history

    One lemma per point of the optimistic loop of [Concurrency]: from a state
    that agrees with a sequential history, the move of one thread leads to a
    state that agrees with the same history, or with that history and the
    request of the thread at its end.  A write takes place when its batch
    enters the log. *)

From Stdlib Require Import ZArith Lia SpecFloat.
From stdpp Require Import base gmap strings list relations.
From S2P Require Import Prelude Storage F64 Json Platform Geo Strings Index Geofence.
From S2P Require Import GeofenceSpec Collection CollectionSpec Engine EngineSpec EngineLogic EngineOps.
From S2P Require Import Durability Concurrency ConcurrencySpec.

Section Linearize.
Context `{LM : Libm} `{GC : GeoCrate} `{RC : RTreeCrate} `{JT : JsonText} `{PT : Patterns}
  `{HO : HashOrder} `{LC : LogCodec} `{MD : Md5} `{B64 : Base64}.
Context {S : Type} `{SB : StorageBackend S} `{SL : !StorageLaws S}.

Implicit Types db : LatLng S.
Implicit Types st : State (S := S).

Variables (rqs : list Request) (db0 : LatLng S).
Variable occurs : Clock → nat → State (S := S) → Prop.

Notation Inv := (inv (occurs := occurs) rqs db0).

(** The history goes on, by at most one request. *)
Definition goes_on (hist : list Lin) st : Prop := ∃ ext v, Inv (hist ++ ext) v st.

Lemma goes_on_same hist v st : Inv hist v st → goes_on hist st.
Proof. intros Hi. exists [], v. by rewrite app_nil_r. Qed.

Lemma goes_on_lin hist lin v st : Inv (hist ++ [lin]) v st → goes_on hist st.
Proof. intros Hi. by exists [lin], v. Qed.

(** ** Entering *)

(** What a request that does not enter its loop is answered. *)
Definition answered_outside (clock : Clock) (rq : Request) db (r : result bool CoreError) : Prop :=
  (∃ e, r = Err e ∧ entry_refusal rq db e) ∨
  (∃ w, local_write clock rq = Some w ∧ db_collections db !! lw_collection w = None ∧
        absent_answer w = Some r).

Lemma enter_local_cases clock w rq db :
  stores_command_log (db_storage db) = true → local_write clock rq = Some w →
  match enter_local w db with
  | PDone r => answered_outside clock rq db r
  | PRead w' => w' = w ∧ is_Some (db_collections db !! lw_collection w)
  | PGate => True
  | _ => False
  end.
Proof.
  intros Hst Hw. unfold enter_local.
  destruct (read_only _) eqn:Hro; [left; eexists; split; [done|by left]|].
  destruct (gives_way w && _); [done|].
  destruct (db_collections db !! lw_collection w) as [c|] eqn:Hn.
  - destruct w; try (split; [done|by rewrite <-Hn]).
    unfold fast_path. rewrite Hst. cbn [negb andb]. split; [done|]. by rewrite <-Hn.
  - destruct w; try done; right; eexists; by split_and!.
Qed.

Lemma enter_cases clock rq db :
  stores_command_log (db_storage db) = true →
  match enter clock rq db with
  | PDone r => answered_outside clock rq db r
  | PRead w => local_write clock rq = Some w ∧ is_Some (db_collections db !! lw_collection w)
  | PGate => True
  | _ => False
  end.
Proof.
  intros Hst. assert (∀ w, local_write clock rq = Some w →
    match enter_local w db with
    | PDone r => answered_outside clock rq db r
    | PRead w => local_write clock rq = Some w ∧ is_Some (db_collections db !! lw_collection w)
    | PGate => True
    | _ => False
    end) as Hloc.
  { intros w Hw. pose proof (enter_local_cases clock w rq db Hst Hw) as H.
    destruct (enter_local w db); try done. by destruct H as [-> ?]. }
  destruct rq; simpl; try done; try by apply Hloc.
  destruct (validate_geo (sr_object req)) as [|err] eqn:Hv; cbn [map_err]; [by apply Hloc|].
  left. eexists. split; [done|]. right. by exists req, err.
Qed.

Lemma shown_absent st n : db_collections (st_db st) !! n = None → shown st n = None.
Proof. intros Hn. unfold shown. by rewrite Hn. Qed.

Lemma entry_refusal_kind rq db e : entry_refusal rq db e → refusal e.
Proof. by intros [[_ ->]|(req & err & _ & _ & ->)]. Qed.

Lemma enter_step hist v st t th clock :
  Inv hist v st → occurs clock t st → st_threads st !! t = Some th → th_pc th = PEnter →
  goes_on hist (goto st t (th_request th) (st_db st) (st_locks st)
                  (enter clock (th_request th) (st_db st))).
Proof.
  intros Hi Hocc Ht Hpc. pose proof (inv_ready _ _ _ _ _ Hi) as (_ & Hst & _).
  pose proof (enter_cases clock (th_request th) (st_db st) Hst) as Hcase.
  destruct (enter clock (th_request th) (st_db st)) as [| |w| | | | | | | |r]; try done.
  - destruct Hcase as [Hw Hn].
    eapply goes_on_same, inv_go; rewrite ?Hpc; try done. intros w' [= <-]. by exists clock.
  - eapply goes_on_same, inv_go; by rewrite ?Hpc.
  - eapply goes_on_lin, inv_answer; rewrite ?Hpc; try done.
    destruct Hcase as [(e & -> & He)|(w & Hw & Hn & Habs)].
    + eapply atomic_refused; [done| |by eapply entry_refusal_kind]. exists th. by rewrite Hpc.
    + eapply atomic_absent; [done| |done].
      rewrite (inv_objects _ _ _ _ _ Hi). by apply shown_absent.
Qed.

(** ** Reading, planning, locking *)

Lemma read_step hist v st t th w c :
  Inv hist v st → st_threads st !! t = Some th → th_pc th = PRead w →
  db_collections (st_db st) !! lw_collection w = Some c → st_locks st !! lw_collection w = None →
  goes_on hist (goto st t (th_request th) (st_db st) (st_locks st)
                  match read_cell w c with
                  | Answered r => PDone r
                  | Mutates before => PPlan w (version c) before
                  | Ready pl => PLock w pl
                  end).
Proof.
  intros Hi Ht Hpc Hc Hl. pose proof (inv_threads _ _ _ _ _ Hi t th Ht) as (_ & _ & Hlp).
  rewrite Hpc in Hlp. destruct (Hlp w eq_refl) as [clock Hw].
  destruct (read_cell w c) as [r|before|pl] eqn:Hrd.
  - assert (v_objects v !! lw_collection w = Some (cell_objects c)) as Hv.
    { by rewrite (inv_objects _ _ _ _ _ Hi), shown_free, Hc. }
    eapply goes_on_lin, inv_answer; rewrite ?Hpc; try done.
    rewrite <-(set_objects_id v (lw_collection w) (cell_objects c)) at 2 by done.
    eapply (atomic_write _ _ clock clock); [done..|]. by apply read_cell_answered.
  - eapply goes_on_same, inv_go; rewrite ?Hpc; try done.
    split; [|by exists c]. exists c. split_and!; [done|lia|done].
  - apply read_cell_ready in Hrd as [Hver Hok].
    eapply goes_on_same, inv_go; rewrite ?Hpc; try done.
    exists c. split_and!; [done|lia|done].
Qed.

Lemma webhook_records_refusal clock r k evs e :
  webhook_records clock r k evs = Err e → refusal e.
Proof.
  induction evs as [|ev evs IH]; simpl; [done|]. destruct (ev_hook ev); [|done].
  destruct (hook_def r s) as [h|]; simpl; [|by intros [= <-]].
  destruct (webhook_records _ _ _ _); simpl; [done|]. intros [= ->]. by apply IH.
Qed.

Lemma plan_step hist v st st' t th w ver before clock :
  Inv hist v st → occurs clock t st → st_threads st !! t = Some th → th_pc th = PPlan w ver before →
  match plan_write clock w ver before (st_db st) with
  | Err e => Some (goto st t (th_request th) (st_db st) (st_locks st) (PDone (Err e)))
  | Ok None => None
  | Ok (Some pl) => Some (goto st t (th_request th) (st_db st) (st_locks st) (PLock w pl))
  end = Some st' →
  goes_on hist st'.
Proof.
  intros Hi Hocc Ht Hpc. pose proof (inv_threads _ _ _ _ _ Hi t th Ht) as (_ & Hok & Hlp).
  rewrite Hpc in Hok, Hlp. destruct Hok as [(c & Hc & Hle & Hsame) (c0 & Hrd0)].
  destruct (plan_write clock w ver before (st_db st)) as [[pl|]|e] eqn:Hpl;
    intros [= <-].
  - destruct (plan_write_ok _ _ _ _ _ _ _ Hrd0 Hpl) as [Hver _].
    eapply goes_on_same, inv_go; rewrite ?Hpc; try done.
    exists c. rewrite Hver. split_and!; [done..|]. intros Heq.
    by eapply plan_write_ok; [apply Hsame|].
  - eapply goes_on_lin, inv_answer; rewrite ?Hpc; try done.
    eapply atomic_refused; [done|exists th; by rewrite Hpc|].
    revert Hpl. unfold plan_write. destruct (intend _ _ _) as [[[e' cmd] ch]|]; [|done].
    destruct (webhook_records _ _ _ _) eqn:Hwr; simpl; [done|]. intros [= <-].
    by eapply webhook_records_refusal.
Qed.

Lemma lock_step hist v st t th w pl c :
  Inv hist v st → st_threads st !! t = Some th → th_pc th = PLock w pl →
  db_collections (st_db st) !! lw_collection w = Some c → st_locks st !! lw_collection w = None →
  version c = pl_version pl →
  goes_on hist (goto st t (th_request th) (st_db st) (<[lw_collection w := t]> (st_locks st))
                  (PReserve w pl)).
Proof.
  intros Hi Ht Hpc Hc Hl Hver. pose proof (inv_threads _ _ _ _ _ Hi t th Ht) as (_ & Hok & Hlp).
  rewrite Hpc in Hok, Hlp. destruct Hok as (c' & Hc' & _ & Hsame). rewrite Hc in Hc'.
  injection Hc' as <-. assert (∀ n, st_locks st !! n ≠ Some t) as Hno.
  { eapply no_lock; rewrite ?Hpc; done. }
  eapply goes_on_same, inv_silent; rewrite ?Hpc; try done.
  - split; try done.
    + apply Hi.
    + split; [apply lookup_insert_eq|]. exists c. eauto.
    + intros. by apply cells_later_refl.
    + intros n t' Hne Hn. rewrite lookup_insert_ne; [done|]. congruence.
    + intros n t' [[<- <-]|[Hne Hn]]%lookup_insert_Some; [right; eauto|left].
      split; [|done]. intros ->. by destruct (Hno n).
  - intros n. destruct (decide (lw_collection w = n)) as [<-|Hne].
    + rewrite shown_own by (right; by rewrite lookup_insert_eq). by rewrite shown_free.
    + apply shown_frame; [done|by rewrite lookup_insert_ne|done].
Qed.

Lemma retry_step hist v st t th w pl :
  Inv hist v st → st_threads st !! t = Some th → th_pc th = PLock w pl →
  goes_on hist (goto st t (th_request th) (st_db st) (st_locks st) (PRead w)).
Proof.
  intros Hi Ht Hpc. pose proof (inv_threads _ _ _ _ _ Hi t th Ht) as (_ & Hok & Hlp).
  rewrite Hpc in Hok, Hlp. destruct Hok as (c & Hc & _).
  eapply goes_on_same, inv_go; rewrite ?Hpc; try done. simpl. by eexists.
Qed.

(** ** Logging *)

Lemma reserve_step hist v st t th w pl :
  Inv hist v st → st_threads st !! t = Some th → th_pc th = PReserve w pl →
  goes_on hist (goto st t (th_request th)
                  (reserve_sequences (batch_count (pl_batch pl)) (st_db st)).1 (st_locks st)
                  (PAppend w pl (reserved (db_next_sequence (st_db st)) (batch_count (pl_batch pl))))).
Proof.
  intros Hi Ht Hpc. pose proof (inv_threads _ _ _ _ _ Hi t th Ht) as (_ & Hok & Hlp).
  rewrite Hpc in Hok, Hlp. eapply goes_on_same, inv_silent; rewrite ?Hpc; try done.
  - eapply move_same; rewrite ?Hpc; try done; [apply Hi|]. split; [done|apply reserved_length].
  - intros n. apply shown_same; by rewrite ?Hpc.
Qed.

Lemma batch_records_length b sequences :
  length sequences = batch_count b → length (batch_records b sequences) = length sequences.
Proof.
  destruct b as [cmd ws|cmds]; simpl; intros Hlen; [|by rewrite length_fmap].
  unfold build_command_batch_records. destruct sequences as [|s seqs]; [done|].
  cbn [length tail head]. cbn [length] in Hlen. rewrite number_webhooks_length by lia. lia.
Qed.

Lemma batch_records_commands b sequences :
  omap command_of (batch_records b sequences) = batch_commands b.
Proof.
  destruct b as [cmd ws|cmds]; simpl.
  - by rewrite number_webhooks_commands.
  - induction cmds as [|cmd cmds IH]; simpl; [done|]. f_equal. exact IH.
Qed.

Lemma encode_entries_refusal clock rs : ∀ sequences e,
  encode_entries_for_sequences clock rs sequences = Err e → refusal e.
Proof.
  induction rs as [|r rs IH]; intros [|s seqs] e; simpl; try done.
  unfold encode_log_record. destruct (json_to_vec r); simpl; [|by intros [= <-]].
  destruct (encode_entries_for_sequences clock rs seqs) eqn:Hr; simpl; [done|].
  intros [= <-]. by eapply IH.
Qed.

(** What appending a batch does to the database. *)
Lemma append_cases clock pl sequences db :
  ready db → length sequences = batch_count (pl_batch pl) →
  match append_step clock pl sequences db with
  | (db', Ok _) => appended db db' (batch_commands (pl_batch pl))
  | (db', Err e) => appended db db' [] ∧ refusal e
  end.
Proof.
  intros (Hinv & Hst & _) Hlen. unfold append_step, mbind, mlift.
  destruct (encode_entries_for_sequences _ _ _) as [es|e] eqn:He.
  2: { split; [by apply appended_nil|by eapply encode_entries_refusal]. }
  unfold append_entries. destruct (append_batch (db_storage db) es) as [s' [[]|e]] eqn:Ha;
    cbn [map_err].
  - destruct (append_batch_Ok _ _ _ Hinv Ha) as (? & Hcom & Hst').
    unfold appended. cbn [db_storage db_collections db_geofences]. rewrite Hst'.
    split_and!; [done..|]. exists es. split; [done|].
    exists (batch_records (pl_batch pl) sequences). split; [|apply batch_records_commands].
    eapply encode_entries_spec; [|done]. by rewrite batch_records_length.
  - destruct (append_batch_Err _ _ _ _ Hinv Ha) as (? & Hcom & Hst'). split; [|done].
    apply appended_nil; cbn [db_storage]; rewrite ?Hst'; done.
Qed.

Lemma appended_ready db db' cmds : ready db → appended db db' cmds → ready db'.
Proof. intros (_ & _ & Hcs) (Hc & _ & Hi & Hst & _). split_and!; [done..|]. by rewrite Hc. Qed.

Lemma appended_view db db' cmds : appended db db' cmds → view db' = view db.
Proof. intros (Hc & Hg & _). unfold view. by rewrite Hc, Hg. Qed.

(** The log refuses the batch. *)
Lemma append_refused hist v st t th w pl sequences clock db' e :
  Inv hist v st → occurs clock t st → st_threads st !! t = Some th → th_pc th = PAppend w pl sequences →
  append_step clock pl sequences (st_db st) = (db', Err e) →
  appended (st_db st) db' [] → refusal e →
  goes_on hist (goto st t (th_request th) db' (delete (lw_collection w) (st_locks st))
                  (PDone (Err e))).
Proof.
  intros Hi Hocc Ht Hpc Hfail Ha He. pose proof (inv_threads _ _ _ _ _ Hi t th Ht) as (_ & Hok & Hlp).
  rewrite Hpc in Hok, Hlp. destruct Hok as [[Hl (c & Hc & Hplan)] _].
  pose proof Ha as (Hcs & _ & _ & _ & es & Hcom & Hes).
  eapply goes_on_lin, (inv_lin _ _ _ v _ _ _ _ _ _ [] _ v es);
    rewrite ?(appended_view _ _ _ Ha), ?Hpc; try done.
  - eapply move_unlock; rewrite ?Hpc; try done.
    + eapply appended_ready; [apply Hi|done].
    + intros. by apply cells_later_refl.
  - eapply atomic_refused; [done| |done]. exists th. by rewrite Hpc, Hfail.
  - constructor.
  - apply Hi.
  - apply Hi.
  - intros n. rewrite (inv_objects _ _ _ _ _ Hi). symmetry.
    destruct (decide (lw_collection w = n)) as [<-|Hne].
    + rewrite shown_own by (left; apply lookup_delete_eq). rewrite (shown_held st t th) by done.
      rewrite Hpc, Hcs. by destruct (db_collections (st_db st) !! lw_collection w).
    + apply shown_frame; [by rewrite Hcs|by rewrite lookup_delete_ne|].
      intros Hn. apply Hne. symmetry. eapply own_lock; rewrite ?Hpc; done.
Qed.

(** The batch is in the log: the write has taken place. *)
Lemma append_logged hist v st t th w pl sequences db' :
  Inv hist v st → st_threads st !! t = Some th → th_pc th = PAppend w pl sequences →
  change_indexable (pl_change pl) = true →
  appended (st_db st) db' (batch_commands (pl_batch pl)) →
  goes_on hist (goto st t (th_request th) db' (st_locks st) (PApply w pl)).
Proof.
  intros Hi Ht Hpc Hix Ha. pose proof (inv_threads _ _ _ _ _ Hi t th Ht) as (_ & Hok & Hlp).
  rewrite Hpc in Hok, Hlp. destruct Hok as [[Hl (c & Hc & Hplan)] _].
  destruct (Hlp w eq_refl) as [clock0 Hw].
  pose proof Hplan as [[clock Hspec] _ _ Hstore]. pose proof Ha as (Hcs & _ & _ & _ & es & Hcom & Hes).
  assert (v_objects v !! lw_collection w = Some (cell_objects c)) as Hv.
  { rewrite (inv_objects _ _ _ _ _ Hi), (shown_held st t th) by done. by rewrite Hpc, Hc. }
  eapply goes_on_lin, (inv_lin _ _ _ v _ _ _ _ _ _ (batch_commands (pl_batch pl)) _
    (set_objects v (lw_collection w) (change_objects (pl_change pl) (cell_objects c))) es);
    rewrite ?(appended_view _ _ _ Ha), ?Hpc; try done.
  - eapply move_same; rewrite ?Hpc; try done.
    + eapply appended_ready; [apply Hi|done].
    + split; [done|]. exists c. by rewrite Hcs.
  - by eapply atomic_write.
  - eapply write_spec_steps; [by exists clock0, (th_request th)|done..|by apply Hstore].
  - apply Hi.
  - apply Hi.
  - intros n. unfold set_objects, edit_objects. cbn [v_objects].
    destruct (decide (lw_collection w = n)) as [<-|Hne].
    + rewrite lookup_insert_eq. unfold shown, pending, goto. cbn [st_db st_locks st_threads].
      rewrite Hl, Hcs, Hc. cbn [base.mbind option_bind]. by rewrite lookup_insert_eq.
    + rewrite lookup_insert_ne, (inv_objects _ _ _ _ _ Hi) by done. symmetry.
      apply shown_frame; [by rewrite Hcs|done|].
      intros Hn. apply Hne. symmetry. eapply own_lock; rewrite ?Hpc; done.
Qed.

(** ** Applying and publishing *)

Lemma bump_version c x : (version (bump c x) < U64_MAX)%Z → (version c < version (bump c x))%Z.
Proof. unfold bump. cbn [version]. unfold saturating_add. lia. Qed.

Lemma apply_step hist v st t th w pl c db' pc' :
  Inv hist v st → st_threads st !! t = Some th → th_pc th = PApply w pl →
  change_indexable (pl_change pl) = true →
  db_collections (st_db st) !! lw_collection w = Some c →
  (let '(c', outcome) := apply_change (pl_change pl) (pl_answer pl) c in
   db' = (put_collection (lw_collection w) c' (st_db st)).1 ∧
   pc' = match outcome with
         | Changed answer => unlocked pl answer
         | Again => PRead w
         | Failed e => PDone (Err e)
         end) →
  map_Forall (λ _ v, (version v < U64_MAX)%Z) (db_collections db') →
  goes_on hist (goto st t (th_request th) db' (delete (lw_collection w) (st_locks st)) pc').
Proof.
  intros Hi Ht Hpc Hix Hc Hap Hcalm.
  pose proof (inv_threads _ _ _ _ _ Hi t th Ht) as (_ & Hok & Hlp).
  rewrite Hpc in Hok, Hlp. destruct Hok as [Hl (c0 & Hc0 & Hplan)]. rewrite Hc in Hc0.
  injection Hc0 as <-. pose proof (inv_ready _ _ _ _ _ Hi) as (Hinv & Hst & Hcs).
  destruct (apply_change_ok (pl_change pl) (pl_answer pl) c (Hcs _ _ Hc) (plan_target _ _ _ Hplan)
    Hix (plan_removes _ _ _ Hplan)) as (c' & Heq & Hc' & Hobj).
  rewrite Heq in Hap. destruct Hap as [-> ->]. cbn in Hcalm.
  assert (version c < version (bump c c'))%Z as Hver.
  { apply bump_version. apply (Hcalm (lw_collection w)). apply lookup_insert_eq. }
  assert (linearized (unlocked pl (pl_answer pl)) = Some (Ok (pl_answer pl)) ∧
          holds (unlocked pl (pl_answer pl)) = None ∧ pc_write (unlocked pl (pl_answer pl)) = None)
    as (Hlin & Hh & Hwr).
  { unfold unlocked. by destruct (pl_prepared pl). }
  eapply goes_on_same, inv_silent; rewrite ?Hpc; try done.
  - eapply move_unlock; rewrite ?Hpc; try done.
    + split_and!; [done..|]. by apply cells_inv_put.
    + intros t' Hne n x Hn. cbn [db_collections put_collection put_collections fst].
      destruct (decide (lw_collection w = n)) as [<-|Hnn].
      * rewrite lookup_insert_eq. eexists. split; [done|]. right. rewrite Hc in Hn.
        injection Hn as <-. split; [done|]. congruence.
      * rewrite lookup_insert_ne by done. eauto.
    + unfold unlocked. by destruct (pl_prepared pl).
    + by rewrite Hwr.
  - intros n. destruct (decide (lw_collection w = n)) as [<-|Hne].
    + rewrite shown_own by (left; apply lookup_delete_eq). rewrite (shown_held st t th) by done.
      cbn [db_collections put_collection put_collections fst]. rewrite lookup_insert_eq, Hc, Hpc.
      cbn. unfold cell_objects at 1. cbn. by rewrite Hobj.
    + apply shown_frame.
      * cbn [db_collections put_collection put_collections fst]. by rewrite lookup_insert_ne.
      * by rewrite lookup_delete_ne.
      * intros Hn. apply Hne. symmetry. eapply own_lock; rewrite ?Hpc; done.
Qed.

Lemma publish_step hist v st t th p answer :
  Inv hist v st → st_threads st !! t = Some th → th_pc th = PPublish p answer →
  goes_on hist (goto st t (th_request th) (apply_prepared p (st_db st)).1 (st_locks st)
                  (PDone (Ok answer))).
Proof.
  intros Hi Ht Hpc.
  assert (view (apply_prepared p (st_db st)).1 = view (st_db st)) as Hv by apply apply_prepared_view.
  eapply goes_on_same, inv_silent; rewrite ?Hpc, ?Hv; try done.
  - eapply move_same; rewrite ?Hpc; try done. apply Hi.
  - intros n. apply shown_same; by rewrite ?Hpc.
Qed.

(** ** Behind the write gate *)

Lemma exclusive_effect clock rq db :
  ready db → rq ≠ RqFlushDb → not_index_error (exclusive clock rq db).2 →
  ∃ cmds, effect db (exclusive clock rq db).1 cmds.
Proof.
  intros Hr Hne. assert (∀ rq, rq ≠ RqFlushDb →
    not_index_error (mbind (execute clock rq) (λ _, mret true) db).2 →
    ∃ cmds, effect db (mbind (execute clock rq) (λ _, mret true) db).1 cmds) as Hex.
  { clear rq Hne. intros rq Hne. pose proof (execute_effect clock rq db Hr Hne) as He. unfold mbind.
    destruct (execute clock rq db) as [db1 [a|e]]; cbn [fst snd] in *; intros Hni; apply He;
      destruct rq; try done; intros e' [= ->]; by destruct (Hni e'). }
  destruct rq; cbn [exclusive]; try (by apply Hex); intros Hni.
  - assert (wp (set_exclusive clock req) (λ db' r, not_index_error r → has_effect db db' r) db) as Hwp.
    { unfold set_exclusive. apply wp_bind, wp_writable; [|intros _; by apply has_effect_refl].
      apply wp_bind, wp_get. by apply set_body_effect. }
    by apply Hwp.
  - by apply del_exclusive_effect.
  - by apply op_fset_effect.
Qed.

Lemma gate_unlocked hist v st n : Inv hist v st → gate_free st = true → st_locks st !! n = None.
Proof.
  intros Hi Hg. apply bool_decide_eq_true in Hg. destruct (st_locks st !! n) as [t|] eqn:Hn; [|done].
  destruct (inv_locks _ _ _ _ _ Hi n t Hn) as (th & w & pl & Ht & Hh & _).
  specialize (Hg t th Ht). simpl in Hg. by destruct (th_pc th).
Qed.

(** With no cell locked, the history's view is the view of the database. *)
Lemma unlocked_view hist v st :
  Inv hist v st → (∀ n, st_locks st !! n = None) → v = view (st_db st).
Proof.
  intros Hi Hl. pose proof (inv_defs _ _ _ _ _ Hi) as [Hc Hh].
  assert (v_objects v = v_objects (view (st_db st))) as Ho.
  { apply map_eq. intros n. unfold view. rewrite (inv_objects _ _ _ _ _ Hi), shown_free by done.
    by rewrite view_lookup. }
  destruct v as [vo vc vh]. cbn in Hc, Hh, Ho. by rewrite Hc, Hh, Ho.
Qed.

Lemma gate_step hist v st t th clock :
  Inv hist v st → occurs clock t st → st_threads st !! t = Some th → th_pc th = PGate → gate_free st = true →
  th_request th ≠ RqFlushDb → not_index_error (exclusive clock (th_request th) (st_db st)).2 →
  goes_on hist (goto st t (th_request th) (exclusive clock (th_request th) (st_db st)).1 (st_locks st)
                  (PDone (exclusive clock (th_request th) (st_db st)).2)).
Proof.
  intros Hi Hocc Ht Hpc Hg Hne Hni.
  assert (∀ n, st_locks st !! n = None) as Hl by (intros n; by eapply gate_unlocked).
  pose proof (unlocked_view _ _ _ Hi Hl) as Hv.
  destruct (exclusive_effect clock _ _ (inv_ready _ _ _ _ _ Hi) Hne Hni) as (cmds & Heff).
  pose proof Heff as [Hr' (es & Hcom & Hes) Hsteps].
  eapply goes_on_lin, (inv_lin _ _ _ v _ _ _ _ _ _ cmds _
    (view (exclusive clock (th_request th) (st_db st)).1) es); rewrite ?Hpc; try done.
  - split; try done.
    + intros t' Hne' (th' & Ht' & Hin). apply bool_decide_eq_true in Hg.
      specialize (Hg t' th' Ht'). simpl in Hg. congruence.
    + intros n t' Hn. by rewrite Hl in Hn.
  - rewrite Hv. eapply atomic_exclusive; [done| |done]. apply surjective_pairing.
  - by rewrite Hv.
  - intros n. unfold view. rewrite view_lookup. symmetry. apply shown_own. by left.
Qed.

(** ** Runs *)

Hypothesis no_flush : Forall (λ rq, rq ≠ RqFlushDb) rqs.

Lemma step_goes_on hist v st st' clock t :
  Inv hist v st → occurs clock t st → calm st → tstep clock t st = Some st' → calm st' →
  goes_on hist st'.
Proof.
  intros Hi Hocc [Hcalm _] Hstep [Hcalm' Hcells']. unfold tstep in Hstep.
  destruct (st_threads st !! t) as [th|] eqn:Ht; [|done]. cbn [base.mbind option_bind] in Hstep.
  pose proof (inv_ready _ _ _ _ _ Hi) as (_ & Hst & _).
  pose proof (inv_threads _ _ _ _ _ Hi t th Ht) as (Hrq & Hok & _).
  specialize (Hcalm t th Ht). cbn in Hcalm.
  destruct (th_pc th) as [|req|w|w ver before|w pl|w pl|w pl seqs|w pl|p answer| |r] eqn:Hpc.
  - injection Hstep as <-. by eapply enter_step.
  - done.
  - destruct (db_collections (st_db st) !! lw_collection w) as [c|] eqn:Hc; [|done].
    cbn [base.mbind option_bind] in Hstep.
    destruct (st_locks st !! lw_collection w) eqn:Hl; [done|]. injection Hstep as <-.
    by eapply read_step.
  - by eapply plan_step.
  - destruct (db_collections (st_db st) !! lw_collection w) as [c|] eqn:Hc; [|done].
    cbn [base.mbind option_bind] in Hstep.
    destruct (st_locks st !! lw_collection w) eqn:Hl; [done|].
    destruct (Z.eqb_spec (version c) (pl_version pl)); injection Hstep as <-.
    + by eapply lock_step.
    + by eapply retry_step.
  - unfold reserve_sequences in Hstep. rewrite Hst in Hstep. injection Hstep as <-.
    by eapply (reserve_step _ _ _ _ _ w pl).
  - destruct Hok as [_ Hlen].
    pose proof (append_cases clock pl seqs _ (inv_ready _ _ _ _ _ Hi) Hlen) as Happ.
    destruct (append_step clock pl seqs (st_db st)) as [db' [[]|e]] eqn:Has; injection Hstep as <-.
    + by eapply append_logged.
    + destruct Happ as [Happ He]. by eapply append_refused.
  - destruct (db_collections (st_db st) !! lw_collection w) as [c|] eqn:Hc; [|done].
    cbn [base.mbind option_bind] in Hstep.
    destruct (apply_change (pl_change pl) (pl_answer pl) c) as [c' outcome] eqn:Hap.
    injection Hstep as <-. eapply apply_step; [done..| |exact Hcells']. by rewrite Hap.
  - injection Hstep as <-. by eapply publish_step.
  - destruct (gate_free st) eqn:Hg; [|done].
    destruct (exclusive clock (th_request th) (st_db st)) as [db' r] eqn:Hex. injection Hstep as <-.
    assert (not_index_error r) as Hni.
    { apply (Hcalm' t (mkThread (th_request th) (PDone r))). apply lookup_insert_eq. }
    pose proof (gate_step hist v st t th clock Hi Hocc Ht Hpc Hg) as Hgs. rewrite Hex in Hgs.
    apply Hgs; [|done]. by eapply (proj1 (Forall_lookup _ _) no_flush).
  - done.
Qed.

(** A run all of whose moves occur. *)
Lemma run_goes_on hist v st st' :
  (∀ st1 clock t st2, rtc calm_step st st1 → tstep clock t st1 = Some st2 → calm st2 →
     rtc calm_step st2 st' → occurs clock t st1) →
  Inv hist v st → calm st → rtc calm_step st st' → goes_on hist st'.
Proof.
  intros Hocc Hi Hc Hrun. revert hist v Hocc Hi.
  induction Hrun as [st|st st1 st' [(clock & t & Hs) Hc1] Hrun IH]; intros hist v Hocc Hi.
  { by eapply goes_on_same. }
  destruct (step_goes_on hist v st st1 clock t Hi) as (ext & v1 & Hi1); [by eapply Hocc|done..|].
  destruct (IH Hc1 (hist ++ ext) v1) as (ext2 & v2 & Hi2); [|done|].
  - intros st2 clock' t' st3 Hr. apply Hocc. eapply rtc_l; [|done]. split; [by exists clock, t|done].
  - exists (ext ++ ext2), v2. by rewrite app_assoc.
Qed.

Lemma start_lookup t th : st_threads (start db0 rqs) !! t = Some th →
  rqs !! t = Some (th_request th) ∧ th_pc th = PEnter.
Proof.
  unfold start. cbn [st_threads]. rewrite lookup_map_seq_0, list_lookup_fmap.
  destruct (rqs !! t) as [rq|]; [|done]. by intros [= <-].
Qed.

Lemma start_inv : ready db0 → Inv [] (view db0) (start db0 rqs).
Proof.
  intros Hr. split; try done.
  - intros t th [Hrq Hpc]%start_lookup. unfold thread_ok. by rewrite Hpc.
  - constructor.
  - constructor.
  - intros t r. split.
    + by intros (cmds & Hin%not_elem_of_nil).
    + intros (th & [_ Hpc]%start_lookup & Hr'). by rewrite Hpc in Hr'.
  - exists []. rewrite app_nil_r. split; [done|]. by exists [].
  - intros n. rewrite shown_free by apply lookup_empty. apply view_lookup.
Qed.

Lemma start_calm : map_Forall (λ _ v, (version v < U64_MAX)%Z) (db_collections db0) →
  calm (start db0 rqs).
Proof. intros Hv. split; [|done]. intros t th [_ Hpc]%start_lookup. by rewrite Hpc. Qed.

End Linearize.
