(* ===== verification/Interleavings.v ===== *)
(** * Theorems on interleaved writers

    Linearizability of the writes and what it gives together with
    [Durability]: whatever the schedule, once the requests are answered the
    log tells the state.  Then progress: writers never deadlock, and the
    optimistic loops end after a number of moves that only depends on the
    number of requests.  A request that is alone does what the uninterrupted
    functions of [Engine] do. *)

From Stdlib Require Import ZArith Lia SpecFloat.
From stdpp Require Import base gmap strings list relations.
From S2P Require Import Prelude Storage F64 Json Platform Geo Strings Index Geofence.
From S2P Require Import GeofenceSpec Collection CollectionSpec Engine EngineSpec EngineLogic EngineOps.
From S2P Require Import Durability Concurrency ConcurrencySpec Linearize.

Section Interleavings.
Context `{LM : Libm} `{GC : GeoCrate} `{RC : RTreeCrate} `{JT : JsonText} `{PT : Patterns}
  `{HO : HashOrder} `{LC : LogCodec} `{MD : Md5} `{B64 : Base64}.
Context {S : Type} `{SB : StorageBackend S} `{SL : !StorageLaws S}.

Implicit Types db : LatLng S.
Implicit Types st : State (S := S).

Definition unsaturated db : Prop :=
  map_Forall (λ _ v, (version v < U64_MAX)%Z) (db_collections db).

(** Request [t] has been answered [r]. *)
Definition answered st (t : nat) (r : result bool CoreError) : Prop :=
  ∃ th, st_threads st !! t = Some th ∧ th_pc th = PDone r.

(** Request [t] has not begun. *)
Definition waiting st (t : nat) : Prop :=
  ∃ th, st_threads st !! t = Some th ∧ th_pc th = PEnter.

(** The move of thread [t] in [st] lies on a run of the requests from [db0] to
    [last]. *)
Definition taken db0 (rqs : list Request) (last : State) (clock : Clock) (t : nat) st : Prop :=
  ∃ st', rtc calm_step (start db0 rqs) st ∧ tstep clock t st = Some st' ∧ calm st' ∧
         rtc calm_step st' last.

(** C5: concurrent writers are linearizable, and the log is their order. Take
    any interleaving of the optimistic loops, from a ready database whose
    storage keeps a log, of requests other than FLUSHDB, in which no write
    stores a geometry the spatial index refuses and no cell has been written
    2^64 - 1 times. There is one sequential order of the requests, each served
    in one go on the view the earlier ones leave, with exactly the answers
    given, where a request is refused (read-only, invalid geometry, a job or
    record that cannot be encoded, an error of the storage) only when its own
    move in the run met that error (one such is
    [overtaken_sequence_is_refused]); requests answered before another one
    begins come before it; the storage's log is the commands of that order;
    and every cell that is not locked has the objects that order leaves. *)
Theorem writers_linearize db0 rqs st1 st2 :
  ready db0 → unsaturated db0 → Forall (λ rq, rq ≠ RqFlushDb) rqs →
  rtc calm_step (start db0 rqs) st1 → rtc calm_step st1 st2 →
  ∃ early late v,
    atomic_run (occurs := taken db0 rqs st2) rqs (view db0) (early ++ late) v ∧
    (∀ t r, answered st1 t r → ∃ cmds, mkLin t cmds r ∈ early) ∧
    (∀ t, waiting st1 t → t ∉ lin_thread <$> early) ∧
    (∀ t r, answered st2 t r → ∃ cmds, mkLin t cmds r ∈ early ++ late) ∧
    (∃ es, committed (db_storage (st_db st2)) = committed (db_storage db0) ++ es ∧
           encode_commands es (hist_commands (early ++ late))) ∧
    (∀ n, st_locks st2 !! n = None →
          v_objects v !! n = cell_objects <$> db_collections (st_db st2) !! n).
Proof.
  intros Hr Hv Hnf Hrun1 Hrun2. pose proof (start_inv rqs db0 (taken db0 rqs st2) Hr) as Hi.
  destruct (run_goes_on rqs db0 (taken db0 rqs st2) Hnf [] (view db0) (start db0 rqs) st1)
    as (early & v1 & Hi1); [|done|by apply start_calm|done|].
  { intros sa clock t sb Ha Hs Hc Hb. exists sb. split_and!; [done..|by etrans]. }
  assert (calm st1) as Hc1.
  { apply rtc_inv_r in Hrun1 as [<-|(st & _ & _ & ?)]; [by apply start_calm|done]. }
  destruct (run_goes_on rqs db0 (taken db0 rqs st2) Hnf early v1 st1 st2) as (late & v2 & Hi2);
    [|done..|].
  { intros sa clock t sb Ha Hs Hc Hb. exists sb. split_and!; [by etrans|done..]. }
  exists early, late, v2. split_and!.
  - apply Hi2.
  - intros t r (th & Ht & Hpc). apply (inv_answers _ _ _ _ _ Hi1). exists th. by rewrite Hpc.
  - intros t (th & Ht & Hpc) ([t' cmds r] & -> & Hin)%list_elem_of_fmap. cbn in Ht.
    destruct (proj1 (inv_answers _ _ _ _ _ Hi1 t' r)) as (th' & Ht' & Hl); [by exists cmds|].
    rewrite Ht in Ht'. injection Ht' as <-. by rewrite Hpc in Hl.
  - intros t r (th & Ht & Hpc). apply (inv_answers _ _ _ _ _ Hi2). exists th. by rewrite Hpc.
  - apply Hi2.
  - intros n Hn. by rewrite (inv_objects _ _ _ _ _ Hi2), shown_free.
Qed.

(** C6: a server that crashes in the middle of interleaved writers restarts
    with exactly the writes that took place.  Take a durable database, any
    interleaving of requests other than FLUSHDB in which no write stores a
    geometry the spatial index refuses and no cell has been written 2^64 - 1
    times, and a storage that kept the log as it was at the crash, whose
    payloads decode to what they encode and whose sequences are positive.  The
    server starts on it, on a clock that has not gone back, and its view is
    what some sequential order of requests leaves, less the objects expired by
    then; that order contains every request answered so far, with its
    answer. *)
Theorem crash_keeps_answered_writes db0 rqs st t clock s config :
  durable t db0 → unsaturated db0 → Forall (λ rq, rq ≠ RqFlushDb) rqs →
  rtc calm_step (start db0 rqs) st → (t ≤ now_millis clock)%Z →
  committed s = committed (db_storage (st_db st)) → log_healthy s →
  ∃ hist v db',
    atomic_run (occurs := taken db0 rqs st) rqs (view db0) hist v ∧
    (∀ t r, answered st t r → ∃ cmds, mkLin t cmds r ∈ hist) ∧
    build clock (Some s) config = Ok db' ∧ view db' = live (now_millis clock) v.
Proof.
  intros Hdur Hv Hnf Hrun Ht Hcom Hh. pose proof Hdur as [Hr _ _ (w & Hw & Hst)].
  destruct (run_goes_on rqs db0 (taken db0 rqs st) Hnf [] (view db0) (start db0 rqs) st)
    as (hist & v & Hi); [|by apply start_inv|by apply start_calm|done|].
  { intros sa clock' t' sb Ha Hs Hc Hb. by exists sb. }
  apply (stale_mono t (now_millis clock)) in Hst; [|done].
  destruct (stale_steps _ _ _ _ (inv_steps _ _ _ _ _ Hi) w Hst) as (w' & Hw' & Hst').
  destruct (inv_log _ _ _ _ _ Hi) as (es & Hlog & Henc).
  destruct (build_replays clock s config w' Hh) as (db' & Hb & Hview & _).
  { intros clock'. unfold log_healthy in Hh. rewrite Hcom, Hlog in *.
    rewrite spec_replay_app, Hw. cbn [base.mbind option_bind].
    rewrite (spec_replay_encoded _ _ _ Henc) by (by eapply healthy_app). apply Hw'. }
  exists hist, v, db'. split_and!; [apply Hi| |done|].
  - intros t' r (th & Ht' & Hpc). apply (inv_answers _ _ _ _ _ Hi). exists th. by rewrite Hpc.
  - rewrite Hview. symmetry. by apply stale_live.
Qed.

(** ** Progress *)

Notation Inv rqs db0 := (inv (occurs := λ _ _ _, True) rqs db0).

(** A thread that holds a lock, or any thread when there are none, can move,
    unless it waits for the gate. *)
Lemma holder_moves rqs db0 hist v st t th w pl clock :
  Inv rqs db0 hist v st → st_threads st !! t = Some th → holds (th_pc th) = Some (w, pl) →
  is_Some (tstep clock t st).
Proof.
  intros Hi Ht Hh. pose proof (inv_threads _ _ _ _ _ Hi t th Ht) as (_ & Hok & _).
  unfold tstep. rewrite Ht. cbn [base.mbind option_bind].
  destruct (th_pc th) as [| | | | |w' pl'|w' pl' seqs|w' pl'| | |]; try done.
  - destruct (append_step _ _ _ _) as [? [?|?]]; by eexists.
  - destruct Hok as [_ (c & -> & _)]. cbn [base.mbind option_bind].
    destruct (apply_change _ _ _). by eexists.
Qed.

Lemma unlocked_moves rqs db0 hist v st t th clock :
  Inv rqs db0 hist v st → (∀ n, st_locks st !! n = None) → st_threads st !! t = Some th →
  in_gate (th_pc th) = true ∨ th_pc th = PEnter ∨ th_pc th = PGate ∧ gate_free st = true →
  is_Some (tstep clock t st).
Proof.
  intros Hi Hl Ht Hcase. pose proof (inv_threads _ _ _ _ _ Hi t th Ht) as (_ & Hok & _).
  destruct (holds (th_pc th)) as [[w pl]|] eqn:Hh; [by eapply holder_moves|].
  unfold tstep. rewrite Ht. cbn [base.mbind option_bind].
  destruct (th_pc th) as [| |w|w ver before|w pl| | | |p a| |r] eqn:Hpc; try done.
  - destruct Hok as [c ->]. cbn [base.mbind option_bind]. rewrite Hl. by eexists.
  - destruct Hok as [_ (c & Hrd)]. pose proof (plan_write_some clock w ver c before (st_db st) Hrd).
    destruct (plan_write _ _ _ _ _) as [[?|]|?]; [by eexists|done|by eexists].
  - destruct Hok as (c & -> & _). cbn [base.mbind option_bind]. rewrite Hl.
    destruct (_ =? _)%Z; by eexists.
  - destruct Hcase as [|[|[_ ->]]]; [done..|]. destruct (exclusive _ _ _). by eexists.
  - destruct Hcase as [|[|[? _]]]; done.
Qed.

Lemma inv_progress rqs db0 hist v st clock :
  Inv rqs db0 hist v st → quiescent st ∨ ∃ t, is_Some (tstep clock t st).
Proof.
  intros Hi. destruct (decide (st_locks st = ∅)) as [Hl|Hl].
  2: { apply map_choose in Hl as (n & t & Hn). right. exists t.
       destruct (inv_locks _ _ _ _ _ Hi n t Hn) as (th & w & pl & Ht & Hh & _).
       by eapply holder_moves. }
  assert (∀ n, st_locks st !! n = None) as Hfree by (intros n; by rewrite Hl).
  destruct (gate_free st) eqn:Hg.
  2: { apply bool_decide_eq_false, map_not_Forall in Hg as (t & th & Ht & Hin); [|apply _].
       right. exists t. eapply unlocked_moves; [done..|]. left. by destruct (in_gate (th_pc th)). }
  destruct (decide (map_Forall (λ _ th, linearized (th_pc th) ≠ None) (st_threads st)))
    as [Hall|(t & th & Ht & Hn)%map_not_Forall]; [|right; exists t|apply _].
  - left. intros t th Ht. specialize (Hall t th Ht). cbn in Hall.
    apply bool_decide_eq_true in Hg. specialize (Hg t th Ht). cbn in Hg.
    destruct (th_pc th); try done. eauto.
  - eapply unlocked_moves; [done..|]. pose proof Hg as Hout. apply bool_decide_eq_true in Hout.
    specialize (Hout t th Ht). cbn in Hout. destruct (th_pc th); auto.
Qed.

(** ** Termination

    The rank of a point counts the moves left to the thread if nobody else
    writes its cell; a reading that has become stale costs the way back to
    the top of the loop.  A thread that has not applied its write also carries
    what its write can cost the others. *)

Definition stale_reading db (n : string) (ver : Z) : bool :=
  match db_collections db !! n with
  | Some v => negb (version v =? ver)%Z
  | None => true
  end.

Definition rank (others : nat) db (pc : Pc) : nat :=
  match pc with
  | PEnter => others + 8
  | PFast _ => 1
  | PRead _ => others + 7
  | PPlan w ver _ => others + if stale_reading db (lw_collection w) ver then 9 else 6
  | PLock w pl => others + if stale_reading db (lw_collection w) (pl_version pl) then 8 else 5
  | PReserve _ _ => others + 4
  | PAppend _ _ _ => others + 3
  | PApply _ _ => others + 2
  | PPublish _ _ => 1
  | PGate => 1
  | PDone _ => 0
  end.

Definition thread_rank (k : nat) st (t : nat) : nat :=
  from_option (λ th, rank (3 * k) (st_db st) (th_pc th)) 0 (st_threads st !! t).

Definition measure (k : nat) st : nat := sum_list_with (thread_rank k st) (seq 0 k).

(** One term goes down by more than the others can go up. *)
Lemma sum_shift (f g : nat → nat) (l : list nat) t c :
  NoDup l → t ∈ l → (∀ x, x ∈ l → x ≠ t → g x ≤ f x + c) → g t + c * length l < f t →
  sum_list_with g l < sum_list_with f l.
Proof.
  intros Hnd Ht Hle Hlt.
  assert (∀ l', t ∉ l' → (∀ x, x ∈ l' → g x ≤ f x + c) →
          sum_list_with g l' ≤ sum_list_with f l' + c * length l') as Hoth.
  { induction l' as [|x l' IH]; intros Hn Hl; [simpl; lia|]. simpl.
    apply not_elem_of_cons in Hn as [_ Hn]. pose proof (Hl x (list_elem_of_here _ _)).
    assert (sum_list_with g l' ≤ sum_list_with f l' + c * length l').
    { apply IH; [done|]. intros y Hy. apply Hl. by right. }
    lia. }
  apply list_elem_of_split in Ht as (l1 & l2 & ->).
  apply NoDup_app in Hnd as (Hnd1 & Hdis & Hnd2). apply NoDup_cons in Hnd2 as [Hn2 _].
  assert (t ∉ l1) as Hn1 by (intros Hin; apply (Hdis t Hin), list_elem_of_here).
  assert (∀ x, x ∈ l1 ∨ x ∈ l2 → x ∈ l1 ++ t :: l2) as Hsub by (intros x; set_solver).
  assert (sum_list_with g l1 ≤ sum_list_with f l1 + c * length l1).
  { apply Hoth; [done|]. intros x Hx. apply Hle; [auto|congruence]. }
  assert (sum_list_with g l2 ≤ sum_list_with f l2 + c * length l2).
  { apply Hoth; [done|]. intros x Hx. apply Hle; [auto|congruence]. }
  rewrite !sum_list_with_app. rewrite length_app in Hlt. cbn [length sum_list_with] in *. lia.
Qed.

(** A move of [t] that leaves the cells as they are. *)
Lemma measure_same k st t th db' locks' pc' :
  t < k → st_threads st !! t = Some th → db_collections db' = db_collections (st_db st) →
  rank (3 * k) (st_db st) pc' < rank (3 * k) (st_db st) (th_pc th) →
  measure k (goto st t (th_request th) db' locks' pc') < measure k st.
Proof.
  intros Hk Ht Hc Hlt. assert (∀ pc, rank (3 * k) db' pc = rank (3 * k) (st_db st) pc) as Hsame.
  { intros pc. unfold rank, stale_reading. by rewrite Hc. }
  apply (sum_shift _ _ _ t 0); [apply NoDup_seq|apply elem_of_seq; lia| |].
  - intros x _ Hx. unfold thread_rank, goto. cbn [st_threads st_db]. rewrite lookup_insert_ne by done.
    destruct (st_threads st !! x); cbn [from_option]; rewrite ?Hsame; lia.
  - unfold thread_rank, goto. cbn [st_threads st_db]. rewrite lookup_insert_eq, Ht.
    cbn [from_option th_pc]. rewrite Hsame. lia.
Qed.

(** Staleness costs at most the way back to the top of the loop. *)
Lemma rank_stale others db db' pc : rank others db' pc ≤ rank others db pc + 3.
Proof. destruct pc; simpl; repeat destruct (stale_reading _ _ _); lia. Qed.

(** A move of [t] that changes cells pays for the others. *)
Lemma measure_write k st t th db' locks' pc' :
  t < k → st_threads st !! t = Some th →
  rank (3 * k) db' pc' + 3 * k < rank (3 * k) (st_db st) (th_pc th) →
  measure k (goto st t (th_request th) db' locks' pc') < measure k st.
Proof.
  intros Hk Ht Hlt. apply (sum_shift _ _ _ t 3); [apply NoDup_seq|apply elem_of_seq; lia| |].
  - intros x _ Hx. unfold thread_rank, goto. cbn [st_threads st_db]. rewrite lookup_insert_ne by done.
    destruct (st_threads st !! x); cbn [from_option]; [apply rank_stale|lia].
  - unfold thread_rank, goto. cbn [st_threads st_db]. rewrite lookup_insert_eq, Ht.
    cbn [from_option th_pc]. rewrite length_seq. lia.
Qed.

(** A move behind the gate: nobody else has read anything. *)
Lemma measure_gate k st t th db' locks' r :
  t < k → st_threads st !! t = Some th → th_pc th = PGate → gate_free st = true →
  measure k (goto st t (th_request th) db' locks' (PDone r)) < measure k st.
Proof.
  intros Hk Ht Hpc Hg. apply bool_decide_eq_true in Hg.
  apply (sum_shift _ _ _ t 0); [apply NoDup_seq|apply elem_of_seq; lia| |].
  - intros x _ Hx. unfold thread_rank, goto. cbn [st_threads st_db]. rewrite lookup_insert_ne by done.
    destruct (st_threads st !! x) as [th'|] eqn:Hx'; cbn [from_option]; [|lia].
    specialize (Hg x th' Hx'). cbn in Hg. destruct (th_pc th'); try done; simpl; lia.
  - unfold thread_rank, goto. cbn [st_threads st_db]. rewrite lookup_insert_eq, Ht.
    cbn [from_option th_pc]. rewrite Hpc. simpl. lia.
Qed.

Lemma stale_fresh db n v : db_collections db !! n = Some v → stale_reading db n (version v) = false.
Proof. intros Hn. unfold stale_reading. rewrite Hn. by rewrite Z.eqb_refl. Qed.

Lemma enter_rank k clock rq db :
  stores_command_log (db_storage db) = true → rank (3 * k) db (enter clock rq db) < 3 * k + 8.
Proof.
  intros Hst. pose proof (enter_cases clock rq db Hst) as Hcase.
  destruct (enter clock rq db); simpl; try lia; done.
Qed.

Lemma read_rank k db w v : db_collections db !! lw_collection w = Some v →
  rank (3 * k) db match read_cell w v with
                  | Answered r => PDone r
                  | Mutates before => PPlan w (version v) before
                  | Ready pl => PLock w pl
                  end < 3 * k + 7.
Proof.
  intros Hn. destruct (read_cell w v) as [r|before|pl] eqn:Hrd; simpl; [lia|..].
  - rewrite (stale_fresh _ _ _ Hn). lia.
  - apply read_cell_ready in Hrd as [-> _]. rewrite (stale_fresh _ _ _ Hn). lia.
Qed.

Lemma append_cells clock pl seqs db :
  db_collections (append_step clock pl seqs db).1 = db_collections db.
Proof.
  unfold append_step, mbind, mlift. destruct (encode_entries_for_sequences _ _ _); [|done].
  unfold append_entries. by destruct (append_batch _ _).
Qed.

Lemma step_measure rqs db0 hist v st st' clock t :
  Inv rqs db0 hist v st → calm st → tstep clock t st = Some st' →
  measure (length rqs) st' < measure (length rqs) st.
Proof.
  intros Hi [Hcalm _] Hstep. unfold tstep in Hstep.
  destruct (st_threads st !! t) as [th|] eqn:Ht; [|done]. cbn [base.mbind option_bind] in Hstep.
  pose proof (inv_ready _ _ _ _ _ Hi) as (_ & Hst & Hcs).
  pose proof (inv_threads _ _ _ _ _ Hi t th Ht) as (Hrq%lookup_lt_Some & Hok & _).
  specialize (Hcalm t th Ht). cbn in Hcalm.
  destruct (th_pc th) as [|req|w|w ver before|w pl|w pl|w pl seqs|w pl|p answer| |r] eqn:Hpc.
  - injection Hstep as <-. apply measure_same; [done..|]. rewrite Hpc. by apply enter_rank.
  - done.
  - destruct (db_collections (st_db st) !! lw_collection w) as [c|] eqn:Hc; [|done].
    cbn [base.mbind option_bind] in Hstep. destruct (st_locks st !! lw_collection w); [done|].
    injection Hstep as <-. apply measure_same; [done..|]. rewrite Hpc. by apply read_rank.
  - destruct Hok as [_ (c & Hrd)].
    destruct (plan_write clock w ver before (st_db st)) as [[pl|]|e] eqn:Hpl; [|done|];
      injection Hstep as <-; (apply measure_same; [done..|]); rewrite Hpc; simpl.
    + destruct (plan_write_ok _ _ _ _ _ _ _ Hrd Hpl) as [-> _].
      destruct (stale_reading _ _ _); lia.
    + destruct (stale_reading _ _ _); lia.
  - destruct (db_collections (st_db st) !! lw_collection w) as [c|] eqn:Hc; [|done].
    cbn [base.mbind option_bind] in Hstep. destruct (st_locks st !! lw_collection w); [done|].
    destruct (Z.eqb_spec (version c) (pl_version pl)) as [Hv|Hv]; injection Hstep as <-;
      (apply measure_same; [done..|]); rewrite Hpc; simpl; unfold stale_reading; rewrite Hc.
    + destruct (negb _); lia.
    + apply Z.eqb_neq in Hv. rewrite Hv. simpl. lia.
  - unfold reserve_sequences in Hstep. rewrite Hst in Hstep. injection Hstep as <-.
    apply measure_same; [done..|]. rewrite Hpc. simpl. lia.
  - pose proof (append_cells clock pl seqs (st_db st)) as Hac.
    destruct (append_step clock pl seqs (st_db st)) as [db' [[]|e]]; injection Hstep as <-;
      (apply measure_same; [done..|]); rewrite Hpc; simpl; lia.
  - destruct Hok as [_ (c & Hc & Hplan)]. rewrite Hc in Hstep. cbn [base.mbind option_bind] in Hstep.
    destruct (apply_change_ok (pl_change pl) (pl_answer pl) c (Hcs _ _ Hc)
      (plan_target _ _ _ Hplan) Hcalm (plan_removes _ _ _ Hplan)) as (c' & Heq & _).
    rewrite Heq in Hstep. injection Hstep as <-. apply measure_write; [done..|]. rewrite Hpc.
    unfold unlocked. destruct (pl_prepared pl); simpl; lia.
  - injection Hstep as <-. apply measure_same; [done..|]. rewrite Hpc. simpl. lia.
  - destruct (gate_free st) eqn:Hg; [|done]. destruct (exclusive _ _ _) as [db' r].
    injection Hstep as <-. by apply measure_gate.
  - done.
Qed.

Lemma measure_start rqs db0 :
  measure (length rqs) (start db0 rqs) ≤ length rqs * (3 * length rqs + 8).
Proof.
  unfold measure. set (k := length rqs).
  assert (∀ l, sum_list_with (thread_rank k (start db0 rqs)) l ≤ length l * (3 * k + 8)) as Hl.
  2: { pose proof (Hl (seq 0 k)) as H. by rewrite length_seq in H. }
  induction l as [|t l IH]; simpl; [lia|].
  assert (thread_rank k (start db0 rqs) t ≤ 3 * k + 8); [|lia].
  unfold thread_rank. destruct (st_threads (start db0 rqs) !! t) as [th|] eqn:Ht; simpl; [|lia].
  apply start_lookup in Ht as [_ ->]. simpl. lia.
Qed.

(** C7: the optimistic writers always come to an end.  From a ready database,
    with k requests other than FLUSHDB, a run in which no write stores a
    geometry the spatial index refuses and no cell has been written 2^64 - 1
    times makes at most k * (3k + 8) moves, although a thread starts its loop
    again whenever its cell has changed; and as long as a request is unanswered
    some thread can move, so the locks of cells and gate never deadlock. *)
Theorem writers_finish db0 rqs st moves :
  ready db0 → unsaturated db0 → Forall (λ rq, rq ≠ RqFlushDb) rqs →
  nsteps calm_step moves (start db0 rqs) st →
  moves ≤ length rqs * (3 * length rqs + 8) ∧ (quiescent st ∨ ∃ st', server_step st st').
Proof.
  intros Hr Hv Hnf Hrun.
  assert (∀ hist v st1, Inv rqs db0 hist v st1 → calm st1 → nsteps calm_step moves st1 st →
    moves + measure (length rqs) st ≤ measure (length rqs) st1 ∧
    ∃ hist' v', Inv rqs db0 hist' v' st) as Hall.
  { clear Hrun. intros hist v st1 Hi Hc Hrun. revert hist v Hi Hc.
    induction Hrun as [st1|moves st1 st2 st [(clock & t & Hs) Hc2] _ IH]; intros hist v Hi Hc.
    { split; [lia|eauto]. }
    destruct (step_goes_on rqs db0 _ Hnf hist v st1 st2 clock t Hi I Hc Hs Hc2) as (ext & v2 & Hi2).
    pose proof (step_measure _ _ _ _ _ _ _ _ Hi Hc Hs). destruct (IH _ _ Hi2 Hc2). split; [lia|done]. }
  destruct (Hall [] (view db0) (start db0 rqs)) as [Hle (hist & v & Hi)];
    [by apply start_inv|by apply start_calm|done|].
  split; [pose proof (measure_start rqs db0); lia|].
  destruct (inv_progress _ _ _ _ _ (mkClock 0 0) Hi) as [|(t & st' & Hs)]; [by left|right].
  by exists st', (mkClock 0 0), t.
Qed.

End Interleavings.
