(* ===== verification/Solo.v ===== *)
(** * A writer alone

    A request that runs alone through the points of [Concurrency] does what
    the uninterrupted functions of [Engine] do: same database, same answer,
    failures included. *)

From Stdlib Require Import ZArith Lia SpecFloat.
From stdpp Require Import base gmap strings list relations.
From S2P Require Import Prelude Storage F64 Json Platform Geo Strings Index Geofence.
From S2P Require Import Collection CollectionSpec Engine EngineSpec EngineLogic EngineOps.
From S2P Require Import Durability Concurrency ConcurrencySpec Interleavings.

Section Solo.
Context `{LM : Libm} `{GC : GeoCrate} `{RC : RTreeCrate} `{JT : JsonText} `{PT : Patterns}
  `{HO : HashOrder} `{LC : LogCodec} `{MD : Md5} `{B64 : Base64}.
Context {S : Type} `{SB : StorageBackend S}.

Implicit Types db : LatLng S.
Implicit Types st : State (S := S).

(** The uninterrupted operations, answering as the threads do. *)
Definition sequential (clock : Clock) (rq : Request) : M (S := S) bool :=
  match rq with
  | RqSet req => op_set clock req
  | RqDel n i => op_del clock n i
  | RqFset n i fs xx => op_fset clock n i fs xx
  | RqJset n i path value raw => op_jset clock n i path value raw
  | RqJdel n i path => op_jdel clock n i path
  | _ => mbind (execute clock rq) (λ _, mret true)
  end.

(** The state of a server with one request. *)
Definition solo db (locks : gmap string nat) (rq : Request) (pc : Pc) : State (S := S) :=
  mkState db locks {[ 0 := mkThread rq pc ]}.

Lemma goto_solo db locks rq pc db' locks' pc' :
  goto (solo db locks rq pc) 0 rq db' locks' pc' = solo db' locks' rq pc'.
Proof. unfold goto, solo. cbn [st_threads]. by rewrite insert_singleton_eq. Qed.

(** [k] more moves lead from one point to an answer. *)
Definition leads (clock : Clock) (st : State (S := S)) (rq : Request)
    (out : LatLng S * result bool CoreError) : Prop :=
  ∃ k, run_schedule (replicate k (0, clock)) st = Some (solo out.1 ∅ rq (PDone out.2)).

Lemma leads_done clock db rq r : leads clock (solo db ∅ rq (PDone r)) rq (db, r).
Proof. by exists 0. Qed.

Lemma leads_step clock db locks rq pc st' out :
  tstep clock 0 (solo db locks rq pc) = Some st' → leads clock st' rq out →
  leads clock (solo db locks rq pc) rq out.
Proof. intros Hs [k Hk]. exists (Datatypes.S k). cbn [replicate run_schedule]. by rewrite Hs. Qed.

Lemma solo_thread db locks rq pc : st_threads (solo db locks rq pc) !! 0 = Some (mkThread rq pc).
Proof. apply lookup_singleton_eq. Qed.

Lemma solo_db db locks rq pc : st_db (solo db locks rq pc) = db.
Proof. done. Qed.

Lemma solo_locks db locks rq pc : st_locks (solo db locks rq pc) = locks.
Proof. done. Qed.

Ltac take_step := eapply leads_step;
  [unfold tstep; rewrite solo_thread; cbn [base.mbind option_bind th_pc th_request];
   rewrite ?solo_db, ?solo_locks |].

(** ** The locked part *)

Definition log_batch (clock : Clock) (b : Batch) : M (S := S) unit := λ db,
  let '(db1, _) := reserve_sequences (batch_count b) db in
  if stores_command_log (db_storage db)
  then append_step clock (mkPlan 0 b (ChRemove "") None true)
         (reserved (db_next_sequence db) (batch_count b)) db1
  else (db1, Ok tt).

Definition commit (clock : Clock) (w : LocalWrite) (pl : Plan) (v : VersionedCollection)
    : M (S := S) bool :=
  mbind (log_batch clock (pl_batch pl)) (λ _,
    let '(v', outcome) := apply_change (pl_change pl) (pl_answer pl) v in
    mbind (put_collection (lw_collection w) v') (λ _,
      match outcome with
      | Changed answer =>
          match pl_prepared pl with
          | Some p => mbind (apply_prepared p) (λ _, mret answer)
          | None => mret answer
          end
      | Again => mfail (CMessage "")
      | Failed e => mfail e
      end)).

Lemma leads_apply clock w pl v db rq v' outcome :
  db_collections db !! lw_collection w = Some v →
  apply_change (pl_change pl) (pl_answer pl) v = (v', outcome) → outcome ≠ Again →
  leads clock (solo db {[ lw_collection w := 0 ]} rq (PApply w pl)) rq
    (mbind (put_collection (lw_collection w) v') (λ _,
      match outcome with
      | Changed answer =>
          match pl_prepared pl with
          | Some p => mbind (apply_prepared p) (λ _, mret answer)
          | None => mret answer
          end
      | Again => mfail (CMessage "")
      | Failed e => mfail e
      end) db).
Proof.
  intros Hv Hap Hne. take_step.
  { rewrite Hv. cbn [base.mbind option_bind]. rewrite Hap. reflexivity. }
  rewrite goto_solo, delete_singleton_eq. destruct outcome as [answer| |e]; [|done|].
  - unfold unlocked. destruct (pl_prepared pl) as [p|]; [|apply leads_done].
    take_step; [reflexivity|]. rewrite goto_solo. apply leads_done.
  - apply leads_done.
Qed.

Lemma append_step_plan clock pl b seqs db :
  pl_batch pl = b →
  append_step clock pl seqs db = append_step clock (mkPlan 0 b (ChRemove "") None true) seqs db.
Proof. by intros <-. Qed.

Lemma leads_commit clock w pl v db rq :
  db_collections db !! lw_collection w = Some v → version v = pl_version pl →
  (apply_change (pl_change pl) (pl_answer pl) v).2 ≠ Again →
  leads clock (solo db ∅ rq (PLock w pl)) rq (commit clock w pl v db).
Proof.
  intros Hv Hver Hne. take_step.
  { rewrite Hv. cbn [base.mbind option_bind]. rewrite lookup_empty, Hver, Z.eqb_refl. reflexivity. }
  rewrite goto_solo, insert_empty. destruct (apply_change _ _ _) as [v' outcome] eqn:Hap.
  take_step; [reflexivity|]. cbn [reserve_sequences]. rewrite goto_solo.
  unfold commit, log_batch. unfold mbind at 1. rewrite Hap.
  destruct (stores_command_log (db_storage db)).
  2: { cbn [reserve_sequences]. by apply (leads_apply _ _ _ v). }
  cbn [reserve_sequences]. set (db1 := mkDb _ _ _ _ _ _). set (seqs := reserved _ _).
  pose proof (append_cells clock pl seqs db1) as Hcells.
  rewrite <-(append_step_plan clock pl) by done.
  destruct (append_step clock pl seqs db1) as [db2 [[]|e]] eqn:Happ; cbn [fst] in Hcells.
  - take_step; [by rewrite Happ|]. rewrite goto_solo. apply (leads_apply _ _ _ v); [|done..].
    by rewrite Hcells.
  - take_step; [by rewrite Happ|]. rewrite goto_solo, delete_singleton_eq. apply leads_done.
Qed.

(** ** The loop *)

Definition attempt (clock : Clock) (w : LocalWrite) (v : VersionedCollection) : M (S := S) bool :=
  λ db,
  match read_cell w v with
  | Answered r => (db, r)
  | Mutates before =>
      match plan_write clock w (version v) before db with
      | Ok (Some pl) => commit clock w pl v db
      | Ok None => (db, Err (CMessage ""))
      | Err e => (db, Err e)
      end
  | Ready pl => commit clock w pl v db
  end.

(** A planned edit finds its object. *)
Lemma planned_applies w pl v : plan_ok w pl (cell_objects v) →
  (apply_change (pl_change pl) (pl_answer pl) v).2 ≠ Again.
Proof.
  intros [_ Htgt _ _]. unfold cell_objects in Htgt. destruct (pl_change pl); simpl in *.
  - by destruct (upsert _ _) as [? [?|?]].
  - destruct (remove _ _). by case_bool_decide.
  - destruct Htgt as [o Ho]. unfold insert_fields. by rewrite Ho.
  - destruct Htgt as [o Ho]. unfold set_expiry. by rewrite Ho.
  - by destruct (replace_geo _ _ _) as [? [?|?]].
Qed.

Lemma leads_attempt clock w v db rq :
  db_collections db !! lw_collection w = Some v →
  leads clock (solo db ∅ rq (PRead w)) rq (attempt clock w v db).
Proof.
  intros Hv. take_step.
  { rewrite Hv. cbn [base.mbind option_bind]. rewrite lookup_empty. reflexivity. }
  rewrite goto_solo. unfold attempt. destruct (read_cell w v) as [r|before|pl] eqn:Hrd.
  - apply leads_done.
  - destruct (plan_write clock w (version v) before db) as [[pl|]|e] eqn:Hpl.
    + destruct (plan_write_ok _ _ _ _ _ _ _ Hrd Hpl) as [Hver Hok].
      take_step; [by rewrite Hpl|]. rewrite goto_solo.
      apply leads_commit; [done..|by eapply planned_applies].
    + by destruct (plan_write_some clock w (version v) v before db Hrd).
    + take_step; [by rewrite Hpl|]. rewrite goto_solo. apply leads_done.
  - apply read_cell_ready in Hrd as [Hver Hok].
    apply leads_commit; [done..|by eapply planned_applies].
Qed.

(** ** The uninterrupted functions make the same attempt *)

Lemma bind_eq {A B} (m m' : M (S := S) A) (k k' : A → M (S := S) B) db :
  m db = m' db → (∀ a db1, k a db1 = k' a db1) → mbind m k db = mbind m' k' db.
Proof. intros Hm Hk. unfold mbind. rewrite Hm. by destruct (m' db) as [db1 [a|e]]. Qed.

Lemma bind_assoc {A B C} (m : M (S := S) A) (k : A → M (S := S) B) (g : B → M (S := S) C) db :
  mbind (mbind m k) g db = mbind m (λ a, mbind (k a) g) db.
Proof. unfold mbind. by destruct (m db) as [db1 [a|e]]. Qed.

Lemma log_persist {A} clock cmd ws (k : M (S := S) A) db :
  mbind (persist_command_batch clock cmd ws) (λ _, k) db =
  mbind (log_batch clock (CommandBatch cmd ws)) (λ _, k) db.
Proof.
  unfold persist_command_batch, log_batch, append_step, mbind, mlift, mget, mret.
  cbn [reserve_sequences db_storage]. destruct (stores_command_log (db_storage db)); cbn [negb]; [|done].
  cbn [batch_records batch_count pl_batch].
  destruct (encode_entries_for_sequences _ _ _) as [es|e]; [|done].
  unfold append_entries. cbn [db_storage]. by destruct (append_batch (db_storage db) es) as [s' [[]|e]].
Qed.

Lemma log_append {A} clock cmd cmds (k : M (S := S) A) db :
  mbind (append_log_records clock (LCommand <$> cmd :: cmds)) (λ _, k) db =
  mbind (log_batch clock (RecordBatch (cmd :: cmds))) (λ _, k) db.
Proof.
  assert (length (LCommand cmd :: (LCommand <$> cmds)) = length (cmd :: cmds)) as Hlen
    by (cbn [length]; by rewrite length_fmap).
  rewrite fmap_cons. unfold append_log_records, log_batch, append_step, mbind, mlift, mget, mret.
  unfold reserve_sequences. rewrite Hlen. cbn [db_storage batch_count].
  destruct (stores_command_log (db_storage db)); cbn [negb]; [|done].
  cbn [batch_records pl_batch]. rewrite fmap_cons.
  destruct (encode_entries_for_sequences _ _ _) as [es|e]; [|done].
  unfold append_entries. cbn [db_storage]. by destruct (append_batch (db_storage db) es) as [s' [[]|e]].
Qed.

(** Planning in the monad is [plan_write]. *)
Lemma planned_attempt {A} clock e cmd (k : PreparedMutation → M (S := S) A) db :
  mbind (plan_mutation clock e) (λ p, mbind (webhook_records_for_prepared clock p) (λ ws,
    mbind (persist_command_batch clock cmd ws) (λ _, k p))) db =
  let p := prepare_mutation (db_geofences db) e (lookup_live clock (db_collections db)) in
  match webhook_records clock (db_geofences db) (webhook_retry_count (db_config db)) (events p) with
  | Ok ws => mbind (log_batch clock (CommandBatch cmd ws)) (λ _, k p) db
  | Err err => (db, Err err)
  end.
Proof.
  cbn zeta. unfold mbind at 1, plan_mutation. unfold mbind at 1, webhook_records_for_prepared.
  destruct (webhook_records _ _ _ _); [|done]. apply log_persist.
Qed.

Lemma set_attempt clock req v db :
  set_body clock req v db = attempt clock (LwSet req) v db.
Proof.
  unfold set_body, attempt, read_cell. cbn [lw_id].
  destruct (condition_fails _ _); [done|]. unfold plan_write. cbn [intend].
  rewrite planned_attempt. cbn zeta. destruct (webhook_records _ _ _ _) as [ws|]; [|done].
  cbn [rbind]. unfold commit. cbn [pl_batch pl_change pl_answer pl_prepared lw_collection apply_change].
  apply bind_eq; [done|]. intros _ db1. by destruct (upsert _ _) as [c' [[]|e]].
Qed.

Lemma del_attempt clock n i v o db :
  objects (collection v) !! i = Some o →
  del_body clock n i v o db = attempt clock (LwDel n i) v db.
Proof.
  intros Hi. unfold del_body, attempt, read_cell. cbn [lw_id]. rewrite Hi.
  unfold plan_write. cbn [intend]. rewrite planned_attempt. cbn zeta.
  destruct (webhook_records _ _ _ _) as [ws|]; [|done].
  cbn [rbind]. unfold commit. cbn [pl_batch pl_change pl_answer pl_prepared lw_collection apply_change].
  apply bind_eq; [done|]. intros _ db1. destruct (remove _ _) as [c' r]. by case_bool_decide.
Qed.

(** What [op_fset], [op_expire], [op_persist] and the edits do once the
    collection is found. *)
Definition on_cell (n : string) (f : VersionedCollection → M (S := S) bool) : M (S := S) bool :=
  mbind ensure_writable (λ _, mbind (existing_collection_handle n) f).

Lemma on_cell_eq n f g db : (∀ v db1, f v db1 = g v db1) → on_cell n f db = on_cell n g db.
Proof. intros Hfg. apply bind_eq; [done|]. intros _ db1. apply bind_eq; [done|]. auto. Qed.

Lemma fset_attempt clock n i fs xx db :
  op_fset clock n i fs xx db = on_cell n (attempt clock (LwFset n i fs xx)) db.
Proof.
  apply on_cell_eq. intros v db1. unfold attempt, read_cell. cbn [lw_id].
  destruct (objects (collection v) !! i) as [o|] eqn:Hi; [|by destruct xx].
  unfold plan_write. cbn [intend base.mbind option_bind]. rewrite planned_attempt. cbn zeta.
  destruct (webhook_records _ _ _ _) as [ws|]; [|done].
  cbn [rbind]. unfold commit. cbn [pl_batch pl_change pl_answer pl_prepared lw_collection apply_change].
  apply bind_eq; [done|]. intros _ db2. unfold insert_fields. by rewrite Hi.
Qed.

Lemma expiry_attempt clock n i cmd deadline db :
  mbind (expiry_body clock n i cmd deadline) (λ _, mret true) db =
  on_cell n (attempt clock (LwExpiry n i cmd deadline)) db.
Proof.
  unfold expiry_body. rewrite bind_assoc. apply bind_eq; [done|]. intros _ db1.
  rewrite bind_assoc. apply bind_eq; [done|]. intros v db2.
  unfold attempt, read_cell. cbn [lw_id].
  destruct (objects (collection v) !! i) as [o|] eqn:Hi; [|done].
  unfold commit. cbn [pl_batch pl_change pl_answer pl_prepared lw_collection apply_change].
  rewrite <-log_append. unfold append_log_record. rewrite !bind_assoc.
  apply bind_eq; [done|]. intros seqs db3. unfold set_expiry. by rewrite Hi.
Qed.

Lemma edit_attempt clock n i name edit cmd db :
  edit_geojson_local clock n i name edit cmd db =
  on_cell n (attempt clock (LwEdit n i name edit cmd)) db.
Proof.
  apply on_cell_eq. intros v db1. unfold attempt, read_cell. cbn [lw_id].
  destruct (objects (collection v) !! i) as [o|] eqn:Hi; [|done]. unfold read_edit.
  destruct (geo o) as [| | |json|]; try done. destruct (edit json) as [json' [changed|e]]; [|done].
  unfold mbind at 1, mlift. destruct (map_err CGeo (validate_geo _)); [|done]. cbn [rbind].
  unfold mbind at 1. destruct (map_err CGeo (geo_to_geometry _)) as [g|e]; [|done]. cbn [rbind rmap].
  unfold commit. cbn [pl_batch pl_change pl_answer pl_prepared lw_collection apply_change].
  set (ttl := bool_decide _).
  replace (LCommand cmd :: (if ttl then [LCommand (CmdPersist n i)] else []))
    with (LCommand <$> cmd :: (if ttl then [CmdPersist n i] else [])) by (by destruct ttl).
  rewrite log_append. apply bind_eq; [done|]. intros _ db2.
  by destruct (replace_geo _ _ _) as [c1 [b|e]].
Qed.

(** ** Entering *)

Lemma leads_gate clock db rq : leads clock (solo db ∅ rq PGate) rq (exclusive clock rq db).
Proof.
  take_step.
  { assert (gate_free (solo db ∅ rq PGate) = true) as ->.
    { apply bool_decide_eq_true, map_Forall_singleton. done. }
    rewrite (surjective_pairing (exclusive clock rq db)). reflexivity. }
  rewrite goto_solo. by exists 0.
Qed.

(** Writes that want an existing collection and do not give way. *)
Lemma leads_on_cell clock db rq w :
  gives_way w && requires_exclusive_roam_path (db_geofences db) (lw_collection w) = false →
  match w with LwSet _ | LwDel _ _ => False | _ => True end →
  leads clock (solo db ∅ rq (enter_local w db)) rq (on_cell (lw_collection w) (attempt clock w) db).
Proof.
  intros Hg Hw. unfold enter_local, on_cell. unfold mbind at 1, ensure_writable.
  destruct (read_only (db_config db)); [apply leads_done|]. rewrite Hg.
  unfold mbind, existing_collection_handle.
  destruct (db_collections db !! lw_collection w) as [v|] eqn:Hv; cbn [ok_or].
  - replace (match w with LwSet req => if fast_path db req then PFast req else PRead w | _ => PRead w end)
      with (PRead w) by (by destruct w). by apply leads_attempt.
  - destruct w; try done; apply leads_done.
Qed.

Lemma leads_set clock db req :
  leads clock (solo db ∅ (RqSet req) (enter clock (RqSet req) db)) (RqSet req) (op_set clock req db).
Proof.
  unfold op_set, enter. unfold mbind at 1, mlift.
  destruct (map_err CGeo (validate_geo (sr_object req))) as [[]|e]; [|apply leads_done].
  unfold enter_local, try_set_local. cbn [gives_way andb lw_collection].
  unfold mbind at 1. unfold mbind at 1, ensure_writable.
  destruct (read_only (db_config db)) eqn:Hro; [apply leads_done|].
  unfold mbind at 1, mget.
  assert (leads clock (solo db ∅ (RqSet req) PGate) (RqSet req) (set_exclusive clock req db)) as Hex
    by apply leads_gate.
  destruct (requires_exclusive_roam_path _ _); [done|].
  destruct (db_collections db !! sr_collection req) as [v|] eqn:Hv; [|done].
  fold (fast_path db req). destruct (fast_path db req).
  - take_step; [rewrite Hv; cbn [base.mbind option_bind]; rewrite lookup_empty;
      rewrite (surjective_pairing (set_fast req v db)); reflexivity|].
    rewrite goto_solo. exists 0. unfold mbind. by destruct (set_fast req v db) as [db' [b|e]].
  - pose proof (leads_attempt clock (LwSet req) v db (RqSet req) Hv) as Hat.
    rewrite <-set_attempt in Hat. unfold mbind.
    by destruct (set_body clock req v db) as [db' [b|e]].
Qed.

Lemma leads_del clock db n i :
  leads clock (solo db ∅ (RqDel n i) (enter clock (RqDel n i) db)) (RqDel n i) (op_del clock n i db).
Proof.
  unfold enter, op_del. cbn [local_write from_option]. unfold enter_local. cbn [gives_way andb lw_collection].
  unfold mbind at 1, ensure_writable. destruct (read_only (db_config db)) eqn:Hro; [apply leads_done|].
  unfold mbind at 1, mget. destruct (requires_exclusive_roam_path _ _).
  { apply leads_gate. }
  destruct (db_collections db !! n) as [v|] eqn:Hv; [|apply leads_done].
  destruct (objects (collection v) !! i) as [o|] eqn:Hi.
  - rewrite (del_attempt clock n i v o) by done. by apply leads_attempt.
  - replace (mret false db) with (attempt clock (LwDel n i) v db); [by apply leads_attempt|].
    unfold attempt, read_cell. cbn [lw_id]. by rewrite Hi.
Qed.

Lemma start_solo db rq : start db [rq] = solo db ∅ rq PEnter.
Proof. unfold start, solo. cbn [fmap list_fmap map_seq]. done. Qed.

(** C9: a writer alone behaves as the uninterrupted operations that the rest of the development is about: scheduled by itself, every request runs to its answer, with no lock left behind, and the database and the answer are those of the sequential operation, whatever fails on the way. *)
Theorem solo_is_sequential clock rq db :
  ∃ moves, run_schedule (replicate moves (0, clock)) (start db [rq]) =
    Some (mkState (sequential clock rq db).1 ∅
            {[ 0 := mkThread rq (PDone (sequential clock rq db).2) ]}).
Proof.
  rewrite start_solo. apply (leads_step clock db ∅ rq PEnter
    (solo db ∅ rq (enter clock rq db)) (sequential clock rq db)).
  { unfold tstep. rewrite solo_thread. cbn [base.mbind option_bind th_pc th_request].
    by rewrite goto_solo. }
  assert (∀ w, local_write clock rq = Some w → enter clock rq db = enter_local w db →
    match w with LwSet _ | LwDel _ _ => False | _ => True end →
    gives_way w && requires_exclusive_roam_path (db_geofences db) (lw_collection w) = false →
    sequential clock rq db = on_cell (lw_collection w) (attempt clock w) db →
    leads clock (solo db ∅ rq (enter clock rq db)) rq (sequential clock rq db)) as Hcell.
  { intros w _ -> Hw Hg ->. by apply leads_on_cell. }
  destruct rq; try apply leads_gate.
  - apply leads_set.
  - apply leads_del.
  - unfold sequential. destruct (requires_exclusive_roam_path (db_geofences db) n) eqn:Hx.
    + unfold enter. cbn [local_write from_option]. unfold enter_local. cbn [gives_way lw_collection].
      rewrite Hx. cbn [andb]. destruct (read_only (db_config db)) eqn:Hro; [|apply leads_gate].
      replace (op_fset clock n i fs xx db) with (db, @Err bool CoreError ReadOnly); [apply leads_done|].
      unfold op_fset, mbind, ensure_writable. by rewrite Hro.
    + eapply Hcell; try done. apply fset_attempt.
  - eapply Hcell; try done. apply expiry_attempt.
  - eapply Hcell; try done. apply expiry_attempt.
  - eapply Hcell; try done. apply edit_attempt.
  - eapply Hcell; try done. apply edit_attempt.
Qed.

End Solo.
