(* ===== verification/InterleavingsWitness.v ===== *)
(** * Concrete interleavings

    A schedule in which a deletion has to start its loop again, to which the
    theorems of [Interleavings] apply, and two schedules that show what the
    locks do not protect: the order in which sequences reach the log, and the
    order in which fences learn of the writes. *)

From Stdlib Require Import ZArith Lia SpecFloat.
From stdpp Require Import base gmap strings list relations.
From S2P Require Import Prelude Storage StorageMemory F64 Json Platform Geo Strings Index IndexSpec.
From S2P Require Import Geofence GeofenceSpec Collection CollectionSpec Engine EngineSpec EngineLogic.
From S2P Require Import EngineOps Durability Recovery Concurrency ConcurrencySpec Interleavings.

(** ** Checking a schedule *)

Section Check.
Context `{LM : Libm} `{GC : GeoCrate} `{RC : RTreeCrate} `{JT : JsonText} `{PT : Patterns}
  `{HO : HashOrder} `{LC : LogCodec} `{MD : Md5} `{B64 : Base64}.
Context {S : Type} `{SB : StorageBackend S}.

Definition calm_pcb (pc : Pc) : bool :=
  match pc with
  | PLock _ pl | PReserve _ pl | PAppend _ pl _ | PApply _ pl => change_indexable (pl_change pl)
  | PDone (Err (CIndex _)) => false
  | _ => true
  end.

Definition calmb (st : State (S := S)) : bool :=
  forallb (λ kv, calm_pcb (th_pc kv.2)) (map_to_list (st_threads st)) &&
  forallb (λ kv, (version kv.2 <? U64_MAX)%Z) (map_to_list (db_collections (st_db st))).

Lemma calmb_calm st : calmb st = true → calm st.
Proof.
  unfold calmb. rewrite andb_true_iff, !forallb_forall. intros [Hth Hv]. split.
  - intros t th Ht. specialize (Hth (t, th)). cbn in Hth.
    assert (calm_pcb (th_pc th) = true) as Hc.
    { apply Hth. by apply list_elem_of_In, elem_of_map_to_list. }
    cbn. destruct (th_pc th) as [| | | | | | | | | |r]; try done. intros e ->. done.
  - intros n v Hn. specialize (Hv (n, v)). apply Z.ltb_lt, Hv.
    by apply list_elem_of_In, elem_of_map_to_list.
Qed.

Fixpoint calm_schedule (schedule : list (nat * Clock)) (st : State (S := S)) : option (State (S := S)) :=
  match schedule with
  | [] => Some st
  | (t, clock) :: rest =>
      st' ← tstep clock t st; if calmb st' then calm_schedule rest st' else None
  end.

Lemma calm_schedule_app s1 s2 : ∀ st,
  calm_schedule (s1 ++ s2) st = (st1 ← calm_schedule s1 st; calm_schedule s2 st1).
Proof.
  induction s1 as [|[t clock] s1 IH]; intros st; cbn [calm_schedule app]; [done|].
  destruct (tstep clock t st) as [st1|]; cbn [base.mbind option_bind]; [|done].
  by destruct (calmb st1).
Qed.

Lemma calm_schedule_steps schedule : ∀ st st',
  calm_schedule schedule st = Some st' → nsteps calm_step (length schedule) st st'.
Proof.
  induction schedule as [|[t clock] rest IH]; intros st st'; cbn [calm_schedule length].
  { intros [= <-]. constructor. }
  destruct (tstep clock t st) as [st1|] eqn:Hs; [|done]. cbn [base.mbind option_bind].
  destruct (calmb st1) eqn:Hc; [|done]. intros Hr. econstructor; [|by apply IH].
  split; [by exists clock, t|by apply calmb_calm].
Qed.

End Check.

Module InterleavingsWitness.
Import ListTree NoGeoJson PlainText Memory.
#[local] Existing Instance RecoveryWitness.codec.
#[local] Existing Instance RecoveryWitness.base64.
#[local] Existing Instance RecoveryWitness.md5.

(** ** A deletion overtaken by another write

    Thread 0 deletes the truck, thread 1 gives it a minute to live: the
    deletion has read version 1 of the cell when the other write makes it
    version 2. *)

Definition db1 : LatLng MemoryBackend := RecoveryWitness.db1.
Definition requests : list Request := [RqDel "fleet" "truck"; RqExpire "fleet" "truck" 61].
Definition moves (t k : nat) : list (nat * Clock) := replicate k (t, RecoveryWitness.clock_at 0).

Definition overtaken : list (nat * Clock) := moves 0 3 ++ moves 1 6.
Definition completed : list (nat * Clock) := overtaken ++ moves 0 8.

Definition midway : option (State (S := MemoryBackend)) := calm_schedule overtaken (start db1 requests).
Definition finished : option (State (S := MemoryBackend)) := calm_schedule completed (start db1 requests).

Definition answers (st : State (S := MemoryBackend)) : list (option (result bool CoreError)) :=
  (λ t, th ← st_threads st !! t; match th_pc th with PDone r => Some r | _ => None end) <$> seq 0 2.

Example overtaken_answers : answers <$> midway = Some [None; Some (Ok true)].
Proof. vm_compute. reflexivity. Qed.

Example completed_answers : answers <$> finished = Some [Some (Ok true); Some (Ok true)].
Proof. vm_compute. reflexivity. Qed.

Definition mid : State := default (start db1 requests) midway.
Definition final : State := default (start db1 requests) finished.

Lemma reached schedule (st : State (S := MemoryBackend)) d :
  bool_decide (is_Some (calm_schedule schedule st)) = true →
  nsteps calm_step (length schedule) st (default d (calm_schedule schedule st)).
Proof.
  intros [st' Hst']%bool_decide_eq_true. rewrite Hst'. by apply calm_schedule_steps.
Qed.

Lemma mid_reached : rtc calm_step (start db1 requests) mid.
Proof. eapply rtc_nsteps_2, reached. vm_compute. reflexivity. Qed.

Lemma final_reached : nsteps calm_step (length completed) (start db1 requests) final.
Proof. apply reached. vm_compute. reflexivity. Qed.

Lemma final_from_mid : rtc calm_step mid final.
Proof.
  eapply rtc_nsteps_2, (calm_schedule_steps (moves 0 8)).
  assert (is_Some midway) as [st1 H1] by (apply (bool_decide_unpack _); vm_compute; exact I).
  assert (is_Some finished) as [st2 H2] by (apply (bool_decide_unpack _); vm_compute; exact I).
  trans finished; [|unfold final; by rewrite H2]. unfold mid. rewrite H1.
  unfold finished, completed. rewrite calm_schedule_app. fold midway. by rewrite H1.
Qed.

Lemma db1_unsaturated : unsaturated db1.
Proof. apply (bool_decide_unpack _). vm_compute. exact I. Qed.

Lemma no_flush : Forall (λ rq, rq ≠ RqFlushDb) requests.
Proof. by repeat constructor. Qed.

Lemma writers_linearize_witness : ∃ early late v,
    atomic_run (occurs := taken db1 requests final) requests (view db1) (early ++ late) v ∧
    (∀ t r, answered mid t r → ∃ cmds, mkLin t cmds r ∈ early) ∧
    (∀ t r, answered final t r → ∃ cmds, mkLin t cmds r ∈ early ++ late) ∧
    (∃ es, committed (db_storage (st_db final)) = committed (db_storage db1) ++ es ∧
           encode_commands es (hist_commands (early ++ late))).
Proof.
  destruct (writers_linearize db1 requests mid final (dur_ready _ _ RecoveryWitness.db1_durable)
    db1_unsaturated no_flush mid_reached final_from_mid) as (early & late & v & H1 & H2 & _ & H4 & H5 & _).
  exists early, late, v. exact (conj H1 (conj H2 (conj H4 H5))).
Defined.

Lemma mid_healthy : log_healthy (db_storage (st_db mid)).
Proof.
  apply RecoveryWitness.healthy.
  assert (sequence <$> committed (db_storage (st_db mid)) = [1; 2]%Z) as Hs by (vm_compute; reflexivity).
  apply (Forall_fmap sequence (λ k, (0 < k)%Z)). rewrite Hs. by repeat constructor.
Qed.

Lemma crash_keeps_answered_writes_witness : ∃ hist v db',
    atomic_run (occurs := taken db1 requests mid) requests (view db1) hist v ∧
    (∀ t r, answered mid t r → ∃ cmds, mkLin t cmds r ∈ hist) ∧
    build (RecoveryWitness.clock_at 500) (Some (db_storage (st_db mid))) default_config = Ok db' ∧
    view db' = live 500 v.
Proof.
  apply (crash_keeps_answered_writes db1 requests mid 0 (RecoveryWitness.clock_at 500)
    (db_storage (st_db mid)) default_config RecoveryWitness.db1_durable db1_unsaturated no_flush
    mid_reached ltac:(done) eq_refl mid_healthy).
Defined.

Lemma writers_finish_witness :
  length completed ≤ 2 * (3 * 2 + 8) ∧ (quiescent final ∨ ∃ st', server_step final st').
Proof.
  apply (writers_finish db1 requests final (length completed)
    (dur_ready _ _ RecoveryWitness.db1_durable) db1_unsaturated no_flush final_reached).
Defined.

End InterleavingsWitness.

(** ** What the locks do not protect *)

Module Races.
Import ListTree NoGeoJson PlainText Memory InterleavingsWitness.
#[local] Existing Instance RecoveryWitness.base64.
#[local] Existing Instance RecoveryWitness.md5.

(** Any codec does: the log is not replayed here. *)
#[local] Instance opaque_codec : LogCodec := {
  json_to_vec _ := Ok [];
  json_record _ := None;
  bincode_record _ := None;
  json_command _ := None;
  bincode_command _ := Err "opaque"
}.

Definition after_requests (rqs : list Request) : LatLng MemoryBackend :=
  foldl (λ db rq, (execute (RecoveryWitness.clock_at 0) rq db).1) (fresh recording default_config) rqs.

Definition set_in (n : string) (g : GeoType) : Request :=
  RqSet (mkSetRequest n "truck" g [] None Always).

Definition outcome (db : LatLng MemoryBackend) (rqs : list Request) (schedule : list (nat * Clock))
    : option (State (S := MemoryBackend)) := calm_schedule schedule (start db rqs).

(** Two valid writes to two collections of a healthy server with a log.  The
    first reserves sequence 3, the second reserves 4 and appends it: the
    storage takes sequence 3 for a regression, and the first write fails,
    although the cells, the gate and the storage did all they promise. *)
Definition two_collections : LatLng MemoryBackend :=
  after_requests [RqCreate "fleet"; RqCreate "depot"].
Definition two_writes : list Request :=
  [set_in "fleet" (GtString "here"); set_in "depot" (GtString "here")].

Theorem overtaken_sequence_is_refused :
  answers <$> outcome two_collections two_writes (moves 0 8 ++ moves 1 8) =
    Some [Some (Ok true); Some (Ok true)] ∧
  answers <$> outcome two_collections two_writes (moves 0 5 ++ moves 1 8 ++ moves 0 1) =
    Some [Some (Err (CStorage (SequenceRegression 5 3))); Some (Ok true)].
Proof. split; vm_compute; reflexivity. Qed.

(** A fence learns of a write after the cell is unlocked.  A truck is put
    inside the fence and deleted: when the deletion is planned and published
    before the first write is published, the fence ends up holding a truck
    that is gone, and the deletion was not seen as an exit. *)
Definition fenced : LatLng MemoryBackend :=
  after_requests [RqCreate "fleet"; RqSetChan "chan" GeofenceWitness.near_def].
Definition in_and_out : list Request :=
  [set_in "fleet" GeofenceWitness.here; RqDel "fleet" "truck"].

Definition fence_says (st : State (S := MemoryBackend)) : option bool :=
  f ← channels (db_geofences (st_db st)) !! "chan"; st_objects (fence_state f) !! "truck".
Definition stored (st : State (S := MemoryBackend)) : bool :=
  bool_decide (is_Some (db_collections (st_db st) !! "fleet" ≫=
    λ v, objects (collection v) !! "truck")).

Theorem fence_keeps_deleted_object :
  (λ st, (answers st, stored st, fence_says st)) <$> outcome fenced in_and_out (moves 0 8 ++ moves 1 8) =
    Some ([Some (Ok true); Some (Ok true)], false, None) ∧
  (λ st, (answers st, stored st, fence_says st)) <$>
    outcome fenced in_and_out (moves 0 7 ++ moves 1 8 ++ moves 0 1) =
    Some ([Some (Ok true); Some (Ok true)], false, Some true).
Proof. split; vm_compute; reflexivity. Qed.

End Races.
