(* ===== verification/CapnpCodec.v ===== *)
(** * Messages of the RPC interface ([crates/latlng-capnp/src/codec.rs])

    The messages of [latlng.capnp] as their readers give them, the requests
    read from them and the answers written into them.

    Reading a pointer, a text or an enumeration can fail, so such a field is a
    result.  Texts carry a second result, for bytes that are not UTF-8.  A
    number is its value.  What a builder writes, a reader reads. *)

From Stdlib Require Import ZArith Lia SpecFloat.
From stdpp Require Import base gmap strings list sorting.
From S2P Require Import Prelude Storage F64 Json Platform Geo Strings Index Geofence Collection.
From S2P Require Import Engine Queries.

(** [capnp::Error], by its text. *)
Notation CapnpError := string (only parsing).

Definition Field (A : Type) : Type := result A CapnpError.
Definition Text : Type := Field (Field string).
(** An enumeration or a union with a discriminant this schema does not have. *)
Definition Known (A : Type) : Type := result A Z.

Definition wire_text (s : string) : Text := Ok (Ok s).

(** The texts of errors of [capnp], by how they are printed, and [serde_json]. *)
Class CapnpTexts := {
  capnp_error_text : CapnpError → string;
  not_in_schema_text : Z → string;
  json_error_text : string → string
}.

(** ** Messages *)

Record PointMsg := mkPointMsg { pm_lat : f64; pm_lon : f64; pm_z : f64 }.
Record BoundsMsg := mkBoundsMsg {
  bm_min_lat : f64; bm_min_lon : f64; bm_max_lat : f64; bm_max_lon : f64
}.

Inductive GeoObjectMsg : Type :=
  | WPoint (point : Field PointMsg)
  | WBounds (bounds : Field BoundsMsg)
  | WHash (hash : Text)
  | WGeojson (value : Text)
  | WString (value : Text).

Inductive FieldValueMsg : Type :=
  | WNumber (value : f64)
  | WText (value : Text)
  | WJson (value : Text).

Record FieldEntryMsg := mkFieldMsg { fm_name : Text; fm_value : Known FieldValueMsg }.

Inductive AreaMsg : Type :=
  | WCircle (lat lon meters : f64)
  | WAreaBounds (bounds : Field BoundsMsg)
  | WAreaHash (hash : Text)
  | WObject (value : Text)
  | WTile (x y z : Z)
  | WQuadkey (value : Text)
  | WSector (lat lon meters bearing1 bearing2 : f64)
  | WGet (collection id : Text).

Record WhereMsg := mkWhereMsg { wm_field : Text; wm_min : f64; wm_max : f64 }.

(** The enumerations of the schema. *)
Inductive OutputMsg : Type := OutObjects | OutPoints | OutBounds | OutHashes | OutIds | OutCount.
Inductive ConditionMsg : Type := CondAlways | CondNx | CondXx.
Inductive DetectMsg : Type := DetInside | DetOutside | DetEnter | DetExit | DetCross | DetRoam.

Record OptionsMsg := mkOptionsMsg {
  om_cursor : Z;
  om_limit : Z;
  om_nofields : bool;
  om_match : Text;
  om_asc : bool;
  om_where : Field (list WhereMsg);
  om_where_expr : Field (list Text);
  om_clip : bool;
  om_output : Known OutputMsg;
  om_hash_prec : nat;
  om_include_count : bool
}.

Record SetRequestMsg := mkSetMsg {
  sm_collection : Text;
  sm_id : Text;
  sm_object : Field (Known GeoObjectMsg);
  sm_fields : Field (list FieldEntryMsg);
  sm_expire_sec : Z;
  sm_condition : Known ConditionMsg
}.

Record NearbyMsg := mkNearbyMsg {
  nm_collection : Text; nm_lat : f64; nm_lon : f64; nm_meters : f64; nm_options : Field OptionsMsg
}.

(** [WithinRequest] and [IntersectsRequest]. *)
Record AreaRequestMsg := mkAreaMsg {
  am_collection : Text; am_area : Field (Known AreaMsg); am_options : Field OptionsMsg
}.

Inductive FenceSearchMsg : Type :=
  | WNearby (req : Field NearbyMsg)
  | WWithin (req : Field AreaRequestMsg)
  | WIntersects (req : Field AreaRequestMsg).

Record ChanRequestMsg := mkChanMsg {
  cm_name : Text;
  cm_search : Known FenceSearchMsg;
  cm_detect : Field (list (Known DetectMsg));
  cm_commands : Field (list Text)
}.

Record HookRequestMsg := mkHookMsg {
  hm_name : Text;
  hm_endpoint : Text;
  hm_search : Known FenceSearchMsg;
  hm_detect : Field (list (Known DetectMsg));
  hm_commands : Field (list Text)
}.

(** [ErrorCode] of the schema. *)
Inductive ErrorCode : Type :=
  | CodeNone | CodeNotFound | CodeBadRequest | CodeReadOnly | CodeInternal | CodeUnauthorized
  | CodeForbidden | CodeUnavailable.

#[export] Instance ErrorCode_eq_dec : EqDecision ErrorCode.
Proof. solve_decision. Defined.

Record OkResponse := mkOk { ok_ok : bool; ok_error : string; ok_code : ErrorCode }.

Record SearchResultMsg := mkSearchResult {
  srm_id : string;
  srm_object : GeoObjectMsg;
  srm_fields : list FieldEntryMsg;
  srm_dist : f64
}.

Record SearchResponse := mkSearchResponse {
  rsp_ok : bool;
  rsp_results : list SearchResultMsg;
  rsp_cursor : Z;
  rsp_count : Z;
  rsp_error : string;
  rsp_ids : list string;
  rsp_code : ErrorCode
}.

Record GeofenceEventMsg := mkEventMsg {
  em_command : string;
  em_detect : DetectMsg;
  em_collection : string;
  em_id : string;
  em_object : GeoObjectMsg;
  em_fields : list FieldEntryMsg;
  em_time_ns : Z;
  em_hook : string;
  em_group : string;
  em_nearby : string * string * f64
}.

(** [CallError]. *)
Record CallError := mkCallError { ce_code : ErrorCode; ce_message : string }.

(** ** Reading *)

Definition read_text (value : Text) : result string CapnpError :=
  let? reader := value in reader.

Fixpoint collect_results {A B E} (f : A → result B E) (l : list A) : result (list B) E :=
  match l with
  | [] => Ok []
  | x :: l' => let? b := f x in let? bs := collect_results f l' in Ok (b :: bs)
  end.

Definition text_list_from_reader (l : list Text) : result (list string) CapnpError :=
  collect_results read_text l.

Section Codec.
Context `{CX : CapnpTexts} `{JT : JsonText}.

Definition not_in_schema_error (n : Z) : CapnpError := not_in_schema_text n.

Definition which {A} (m : Known A) : result A CapnpError := map_err not_in_schema_error m.

(** [.unwrap_or(default)] on an enumeration. *)
Definition known_or {A} (d : A) (m : Known A) : A := match m with Ok a => a | Err _ => d end.

Definition json_from_text (value : Text) : result Value CapnpError :=
  let? text := read_text value in ok_or (json_from_str text) (json_error_text text).

Definition bounds_from_reader (b : BoundsMsg) : result BoundingBox CapnpError :=
  Ok (box_new (bm_min_lat b) (bm_min_lon b) (bm_max_lat b) (bm_max_lon b)).

Definition geo_from_reader (m : Known GeoObjectMsg) : result GeoType CapnpError :=
  let? w := which m in
  match w with
  | WPoint point =>
      let? p := point in
      Ok (GtPoint (pm_lat p) (pm_lon p) (if negb (SFeqb (pm_z p) fzero) then Some (pm_z p) else None))
  | WBounds bounds => let? b := bounds in let? b := bounds_from_reader b in Ok (GtBounds b)
  | WHash hash => let? h := read_text hash in Ok (GtHash h)
  | WGeojson value => let? v := json_from_text value in Ok (GtGeoJson v)
  | WString value => let? s := read_text value in Ok (GtString s)
  end.

Definition field_entry_from_reader (m : FieldEntryMsg) : result FieldEntry CapnpError :=
  let? name := read_text (fm_name m) in
  let? w := which (fm_value m) in
  let? value := match w with
                | WNumber x => Ok (FNumber x)
                | WText t => let? s := read_text t in Ok (FText s)
                | WJson t => let? s := read_text t in Ok (FJson s)
                end in
  Ok (mkFieldEntry name value).

Definition field_entries_from_list (l : list FieldEntryMsg) : result (list FieldEntry) CapnpError :=
  collect_results field_entry_from_reader l.

Definition area_from_reader (m : Known AreaMsg) : result Area CapnpError :=
  let? w := which m in
  match w with
  | WCircle lat lon meters => Ok (ACircle lat lon meters)
  | WAreaBounds bounds => let? b := bounds in let? b := bounds_from_reader b in Ok (ABounds b)
  | WAreaHash hash => let? h := read_text hash in Ok (AHash h)
  | WObject value => let? v := json_from_text value in Ok (AGeoJson v)
  | WTile x y z => Ok (ATile x y z)
  | WQuadkey value => let? q := read_text value in Ok (AQuadkey q)
  | WSector lat lon meters b1 b2 => Ok (ASector lat lon meters b1 b2)
  | WGet collection i =>
      let? c := read_text collection in let? i := read_text i in Ok (AReference c i)
  end.

Definition output_format_from_capnp (value : OutputMsg) (hash_prec : nat) : OutputFormat :=
  match value with
  | OutObjects => Objects
  | OutPoints => Points
  | OutBounds => Bounds
  | OutHashes => Hashes (if (hash_prec =? 0)%nat then 7 else hash_prec)
  | OutIds => Ids
  | OutCount => Count
  end.

Definition set_condition_from_capnp (value : ConditionMsg) : SetCondition :=
  match value with CondAlways => Always | CondNx => Nx | CondXx => Xx end.

Definition where_from_reader (w : WhereMsg) : result WhereFilter CapnpError :=
  let? field := read_text (wm_field w) in Ok (mkWhere field (Range (wm_min w) (wm_max w))).

Definition where_expr_from_reader (t : Text) : result WhereExprFilter CapnpError :=
  let? e := read_text t in Ok (mkWhereExpr e).

Definition search_options_from_reader (o : OptionsMsg) : result SearchOptions CapnpError :=
  let? wheres := om_where o in
  let? where_filters := collect_results where_from_reader wheres in
  let? exprs := om_where_expr o in
  let? where_expr_filters := collect_results where_expr_from_reader exprs in
  let? pattern := read_text (om_match o) in
  Ok (mkOptions (om_cursor o)
        (if (om_limit o =? 0)%Z then limit default_search_options else om_limit o)
        (om_nofields o) (om_include_count o)
        (if String.eqb pattern "" then None else Some pattern)
        (if om_asc o then Asc else Desc)
        where_filters [] where_expr_filters (om_clip o)
        (output_format_from_capnp (known_or OutObjects (om_output o)) (om_hash_prec o))).

Definition set_request_from_reader (m : SetRequestMsg) : result SetRequest CapnpError :=
  let? collection := read_text (sm_collection m) in
  let? i := read_text (sm_id m) in
  let? object := sm_object m in
  let? object := geo_from_reader object in
  let? fields := sm_fields m in
  let? fields := field_entries_from_list fields in
  Ok (mkSetRequest collection i object fields
        (if negb (sm_expire_sec m =? 0)%Z then Some (sm_expire_sec m) else None)
        (set_condition_from_capnp (known_or CondAlways (sm_condition m)))).

Definition nearby_query_from_reader (m : NearbyMsg) : result (string * NearbyQuery) CapnpError :=
  let? collection := read_text (nm_collection m) in
  let? options := nm_options m in
  let? options := search_options_from_reader options in
  Ok (collection, mkNearby (nm_lat m) (nm_lon m) (nm_meters m) options).

(** [area_query_from_within] and [area_query_from_intersects]. *)
Definition area_query_from_reader (m : AreaRequestMsg)
    : result (string * Area * SearchOptions) CapnpError :=
  let? collection := read_text (am_collection m) in
  let? area := am_area m in
  let? area := area_from_reader area in
  let? options := am_options m in
  let? options := search_options_from_reader options in
  Ok (collection, area, options).

Definition fence_query_from_reader (m : Known FenceSearchMsg)
    : result (string * GeofenceQuery) CapnpError :=
  let? w := which m in
  match w with
  | WNearby req =>
      let? req := req in
      let? cq := nearby_query_from_reader req in
      Ok (cq.1, QNearby (nq_lat cq.2) (nq_lon cq.2) (nq_meters cq.2) (nq_options cq.2))
  | WWithin req =>
      let? req := req in
      let? cao := area_query_from_reader req in Ok (cao.1.1, QWithin cao.1.2 cao.2)
  | WIntersects req =>
      let? req := req in
      let? cao := area_query_from_reader req in Ok (cao.1.1, QIntersects cao.1.2 cao.2)
  end.

Definition detect_from_capnp (value : DetectMsg) : DetectType :=
  match value with
  | DetInside => DInside | DetOutside => DOutside | DetEnter => DEnter
  | DetExit => DExit | DetCross => DCross | DetRoam => DRoam
  end.

Definition detect_list_from_reader (l : list (Known DetectMsg))
    : result (list DetectType) CapnpError :=
  collect_results (λ item, rmap detect_from_capnp (which item)) l.

Definition command_from_text (value : string) : option MutationCommand :=
  let value := to_ascii_lowercase value in
  if String.eqb value "set" then Some MSet
  else if String.eqb value "del" then Some MDel
  else if String.eqb value "drop" then Some MDrop
  else if String.eqb value "fset" then Some MFset
  else None.

Definition command_list_from_reader (l : list Text) : result (list MutationCommand) CapnpError :=
  let? texts := text_list_from_reader l in
  collect_results (λ item, ok_or (command_from_text item) ("unknown command: " +:+ item)) texts.

Definition fence_def_from_chan_request (m : ChanRequestMsg)
    : result (string * GeofenceDef) CapnpError :=
  let? name := read_text (cm_name m) in
  let? cq := fence_query_from_reader (cm_search m) in
  let? detect := cm_detect m in
  let? detect := detect_list_from_reader detect in
  let? commands := cm_commands m in
  let? commands := command_list_from_reader commands in
  Ok (name, mkDef cq.1 cq.2 detect commands).

Definition fence_def_from_hook_request (m : HookRequestMsg)
    : result (string * string * GeofenceDef) CapnpError :=
  let? name := read_text (hm_name m) in
  let? endpoint := read_text (hm_endpoint m) in
  let? cq := fence_query_from_reader (hm_search m) in
  let? detect := hm_detect m in
  let? detect := detect_list_from_reader detect in
  let? commands := hm_commands m in
  let? commands := command_list_from_reader commands in
  Ok (name, endpoint, mkDef cq.1 cq.2 detect commands).

Definition default_glob (pattern : string) : string :=
  if String.eqb pattern "" then "*" else pattern.

(** ** Writing *)

Definition fill_ok_response (ok : bool) (error : string) : OkResponse := mkOk ok error CodeNone.
Definition fill_ok_failure (code : ErrorCode) (error : string) : OkResponse := mkOk false error code.
Definition fill_ok_error (e : CallError) : OkResponse := fill_ok_failure (ce_code e) (ce_message e).

Definition fill_bounds (b : BoundingBox) : BoundsMsg :=
  mkBoundsMsg (min_lat b) (min_lon b) (max_lat b) (max_lon b).

Definition fill_geo_object (g : GeoType) : GeoObjectMsg :=
  match g with
  | GtPoint lat lon z => WPoint (Ok (mkPointMsg lat lon (default fzero z)))
  | GtBounds bounds => WBounds (Ok (fill_bounds bounds))
  | GtHash hash => WHash (wire_text hash)
  | GtGeoJson value => WGeojson (wire_text (json_to_string value))
  | GtString s => WString (wire_text s)
  end.

Definition fill_field_value (name : string) (value : FieldValue) : FieldEntryMsg :=
  mkFieldMsg (wire_text name)
    (Ok match value with
        | FNumber x => WNumber x
        | FText s => WText (wire_text s)
        | FJson s => WJson (wire_text s)
        end).

Definition fill_field_entry (e : FieldEntry) : FieldEntryMsg :=
  fill_field_value (field_name e) (field_value e).

(** [FieldMap::iter]. *)
Definition fields_iter (m : FieldMap) : list (string * FieldValue) :=
  btree_iter m.

Definition field_entries_from_map (m : FieldMap) : list FieldEntry :=
  (λ kv, mkFieldEntry kv.1 kv.2) <$> fields_iter m.

Definition fill_search_item (item : SearchItem) (include_distance : bool) : SearchResultMsg :=
  mkSearchResult (item_id item)
    (fill_geo_object (default (GtString "") (item_object item)))
    (fill_field_entry <$> from_option field_entries_from_map [] (item_fields item))
    (if include_distance then default fzero (item_distance item) else fzero).

Definition fill_search_item_from_object (o : Object) : SearchResultMsg :=
  mkSearchResult (id o) (fill_geo_object (geo o))
    ((λ kv, fill_field_value kv.1 kv.2) <$> fields_iter (fields o)) fzero.

Definition empty_search_item : SearchItem := mkItem "" (Some (GtString "")) (Some ∅) None.

Definition search_response_is_ids_only (r : SearchResults) : bool :=
  forallb (λ item, match item_object item, item_fields item, item_distance item with
                   | None, None, None => true
                   | _, _, _ => false
                   end) (results r).

Definition fill_search_response (r : SearchResults) : SearchResponse :=
  let ids_only := search_response_is_ids_only r in
  mkSearchResponse true
    (if ids_only then [] else (λ item, fill_search_item item true) <$> results r)
    (results_cursor r) (results_count r) ""
    (if ids_only then item_id <$> results r else []) CodeNone.

Definition fill_search_error (e : CallError) : SearchResponse :=
  mkSearchResponse false [] 0 0 (ce_message e) [] (ce_code e).

Definition detect_to_capnp (value : DetectType) : DetectMsg :=
  match value with
  | DInside => DetInside | DOutside => DetOutside | DEnter => DetEnter
  | DExit => DetExit | DCross => DetCross | DRoam => DetRoam
  end.

Definition command_name (c : MutationCommand) : string :=
  match c with MSet => "set" | MDel => "del" | MDrop => "drop" | MFset => "fset" end.

Definition I64_MAX : Z := 2 ^ 63 - 1.

Definition fill_geofence_event (e : GeofenceEvent) : GeofenceEventMsg :=
  mkEventMsg (command_name (ev_command e)) (detect_to_capnp (ev_detect e)) (ev_collection e)
    (ev_id e) (fill_geo_object (ev_object e))
    (fill_field_entry <$> field_entries_from_map (ev_fields e))
    (if (ev_timestamp_ns e <=? I64_MAX)%Z then ev_timestamp_ns e else I64_MAX)
    (default "" (ev_hook e)) (default "" (ev_group e))
    match ev_nearby e with
    | Some nearby => (roam_collection nearby, roam_id nearby, roam_meters nearby)
    | None => ("", "", fzero)
    end.

End Codec.
