(* ===== verification/CapnpCodecSpec.v ===== *)
(** * Objects survive the RPC messages

    What [get] writes into its answer, a client can send back with [set]: the
    object, its geometry and its fields are the ones that were stored. *)

From Stdlib Require Import ZArith Lia SpecFloat.
From stdpp Require Import base gmap strings list sorting.
From S2P Require Import Prelude Storage F64 Json Platform Geo GeoSpec Strings Index IndexSpec Geofence.
From S2P Require Import Collection Engine Queries CapnpCodec.

Lemma collect_results_map {A B C E} (f : B → result C E) (g : A → B) (h : A → C) (l : list A) :
  (∀ a, f (g a) = Ok (h a)) → collect_results f (g <$> l) = Ok (h <$> l).
Proof.
  intros Hfg. induction l as [|a l IH]; [done|]. cbn [fmap list_fmap collect_results].
  by rewrite Hfg, IH.
Qed.

(** A map built from its own entries, in any order. *)
Lemma foldl_insert_lookup {V} (l : list (string * V)) (m : gmap string V) k :
  NoDup l.*1 →
  foldl (λ m kv, <[kv.1 := kv.2]> m) m l !! k =
  match list_to_map (M := gmap string V) l !! k with Some v => Some v | None => m !! k end.
Proof.
  revert m. induction l as [|[k' v'] l IH]; intros m Hnd; [done|].
  cbn [foldl fmap list_fmap fst snd list_to_map] in *. apply NoDup_cons in Hnd as [Hk' Hnd].
  rewrite IH, list_to_map_cons by done. destruct (decide (k' = k)) as [->|Hne].
  - rewrite !lookup_insert_eq. by rewrite (not_elem_of_list_to_map_1 (M := gmap string) l k).
  - by rewrite !lookup_insert_ne.
Qed.

Lemma field_entries_map (m : FieldMap) : field_entries_to_map (field_entries_from_map m) = m.
Proof.
  unfold field_entries_to_map, field_entries_from_map, fields_iter.
  assert (∀ (l : list (string * FieldValue)) (acc : FieldMap),
    foldl (λ m e, <[field_name e := field_value e]> m) acc ((λ kv, mkFieldEntry kv.1 kv.2) <$> l) =
    foldl (λ m kv, <[kv.1 := kv.2]> m) acc l) as Hfold.
  { induction l as [|kv l IH]; intros acc; [done|]. apply IH. }
  rewrite Hfold. assert (NoDup (btree_iter m).*1) as Hnd.
  { rewrite btree_iter_perm. apply NoDup_fst_map_to_list. }
  apply map_eq. intros k. etrans; [by apply (foldl_insert_lookup (V := FieldValue))|].
  change ((∅ : FieldMap) !! k) with (@None FieldValue).
  destruct (m !! k) as [v|] eqn:Hk.
  - by rewrite (elem_of_list_to_map_1 (M := gmap string) _ k v Hnd)
      by (by apply elem_of_btree_iter).
  - rewrite not_elem_of_list_to_map_1; [done|]. rewrite btree_iter_perm.
    intros (kv & -> & Hin)%list_elem_of_fmap. destruct kv as [k' v'].
    apply elem_of_map_to_list in Hin. discriminate (eq_trans (eq_sym Hin) Hk).
Qed.

Section RoundTrip.
Context `{CX : CapnpTexts} `{JT : JsonText}.

(** What the messages can carry: an altitude of zero is no altitude, corners
    are ordered, and a GeoJSON value is its text. *)
Definition representable (g : GeoType) : Prop :=
  match g with
  | GtPoint _ _ (Some z) => SFeqb z fzero = false
  | GtBounds b => box_ordered b
  | GtGeoJson value => json_from_str (json_to_string value) = Some value
  | _ => True
  end.

Lemma geo_roundtrip g : representable g → geo_from_reader (Ok (fill_geo_object g)) = Ok g.
Proof.
  destruct g as [lat lon [z|]|b|h|v|s]; cbn; intros Hg; try done.
  - by rewrite Hg.
  - by rewrite box_new_id.
  - by rewrite Hg.
Qed.

Lemma field_entry_roundtrip e : field_entry_from_reader (fill_field_entry e) = Ok e.
Proof. by destruct e as [n []]. Qed.

(** The [set] that sends back the answer of a [get]. *)
Definition set_again (n : string) (m : SearchResultMsg) : SetRequestMsg :=
  mkSetMsg (wire_text n) (wire_text (srm_id m)) (Ok (Ok (srm_object m))) (Ok (srm_fields m)) 0
    (Ok CondAlways).

(** C31: an object survives the RPC messages.  The answer of [get] for an object,
    sent back with [set], is read as a request for the same id, the same
    geometry and the same fields, without an expiry and without a condition.
    The geometry must be one that the messages can carry: an altitude other
    than zero or none, ordered corners, a GeoJSON value that its text determines. *)
Theorem rpc_object_roundtrip n o :
  representable (geo o) →
  ∃ req, set_request_from_reader (set_again n (fill_search_item_from_object o)) = Ok req ∧
    sr_collection req = n ∧ sr_id req = id o ∧ sr_object req = geo o ∧
    field_entries_to_map (sr_fields req) = fields o ∧
    sr_expire_seconds req = None ∧ sr_condition req = Always.
Proof.
  intros Hgeo. eexists. unfold set_request_from_reader, set_again, fill_search_item_from_object.
  cbn [sm_collection sm_id sm_object sm_fields srm_id srm_object srm_fields rbind read_text wire_text].
  rewrite geo_roundtrip by done. cbn [rbind]. unfold field_entries_from_list.
  rewrite (collect_results_map _ _ (λ kv, mkFieldEntry kv.1 kv.2))
    by (intros [k v]; apply (field_entry_roundtrip (mkFieldEntry k v))).
  split; [done|]. split_and!; try done. apply field_entries_map.
Qed.

Lemma command_roundtrip c : command_from_text (command_name c) = Some c.
Proof. by destruct c. Qed.

Lemma detect_roundtrip d : detect_from_capnp (detect_to_capnp d) = d.
Proof. by destruct d. Qed.

End RoundTrip.

Module CodecWitness.
Import PlainText.

#[local] Instance texts : CapnpTexts := {
  capnp_error_text e := e; not_in_schema_text _ := "not in schema"; json_error_text _ := "json"
}.

Definition lorry : Object :=
  mkObject "lorry" (GtPoint (f64_of_Z 52) (f64_of_Z 13) (Some (f64_of_Z 34)))
    (<["speed" := FNumber (f64_of_Z 80)]> {[ "name" := FText "T1" ]}) None.

Lemma rpc_object_roundtrip_witness :
  ∃ req, set_request_from_reader (set_again "fleet" (fill_search_item_from_object lorry)) = Ok req ∧
    sr_collection req = "fleet" ∧ sr_id req = "lorry" ∧ sr_object req = geo lorry ∧
    field_entries_to_map (sr_fields req) = fields lorry ∧
    sr_expire_seconds req = None ∧ sr_condition req = Always.
Proof. apply (rpc_object_roundtrip "fleet" lorry). vm_compute. reflexivity. Defined.

(** A point at sea level comes back without its altitude. *)
Definition at_sea : GeoType := GtPoint (f64_of_Z 52) (f64_of_Z 13) (Some fzero).

Theorem zero_altitude_lost :
  geo_from_reader (Ok (fill_geo_object at_sea)) = Ok (GtPoint (f64_of_Z 52) (f64_of_Z 13) None).
Proof. vm_compute. reflexivity. Qed.

End CodecWitness.
