(* ===== verification/Capnp.v ===== *)
(** * The RPC interface ([crates/latlng-capnp/src/handlers.rs],
    [rpc_state.rs], [runtime.rs], [error.rs])

    One definition per method of the [LatLng] interface.  A connection is a
    session: it shares the server's state with the HTTP interface and keeps the
    principal of its last successful [auth].  Methods run one at a time.

    A call fails as a whole with a [capnp::Error] (the outer result of the
    monad), or answers with a message that may report an error of its own. *)

From Stdlib Require Import ZArith Lia SpecFloat.
From stdpp Require Import base gmap strings list sorting pretty.
From S2P Require Import Prelude Storage F64 Json Platform Geo Strings Index Geofence Collection.
From S2P Require Import Engine Queries WebhookQueue Outbox Replication Auth Config Metrics Http.
From S2P Require Import CapnpCodec.

(** ** Calls and answers *)

Record GetRequestMsg := mkGetMsg {
  gm_collection : Text;
  gm_id : Text;
  gm_with_fields : bool;
  gm_output : Known OutputMsg;
  gm_hash_prec : nat
}.

(** [ScanRequest] and [SearchRequest]. *)
Record ScanMsg := mkScanMsg { xm_collection : Text; xm_options : Field OptionsMsg }.

Inductive RpcRequest : Type :=
  | RpcSet (req : Field SetRequestMsg)
  | RpcGet (req : Field GetRequestMsg)
  | RpcDel (collection id : Text)
  | RpcPdel (collection pattern : Text)
  | RpcDrop (collection : Text)
  | RpcRename (collection newname : Text)
  | RpcRenamenx (collection newname : Text)
  | RpcFset (collection id : Text) (fields : Field (list FieldEntryMsg)) (xx : bool)
  | RpcFget (collection id field : Text)
  | RpcExpire (collection id : Text) (seconds : Z)
  | RpcPersist (collection id : Text)
  | RpcTtl (collection id : Text)
  | RpcExists (collection id : Text)
  | RpcFexists (collection id field : Text)
  | RpcBounds (collection : Text)
  | RpcCollections (pattern : Text)
  | RpcStats (collections : Field (list Text))
  | RpcJset (collection id path value : Text) (raw : bool)
  | RpcJget (collection id path : Text)
  | RpcJdel (collection id path : Text)
  | RpcNearby (req : Field NearbyMsg)
  | RpcWithin (req : Field AreaRequestMsg)
  | RpcIntersects (req : Field AreaRequestMsg)
  | RpcScan (req : Field ScanMsg)
  | RpcSearch (req : Field ScanMsg)
  | RpcSetchan (req : Field ChanRequestMsg)
  | RpcDelchan (name : Text)
  | RpcPdelchan (pattern : Text)
  | RpcChans (pattern : Text)
  | RpcSubscribe (channels : Field (list Text))
  | RpcPsubscribe (patterns : Field (list Text))
  | RpcSethook (req : Field HookRequestMsg)
  | RpcDelhook (name : Text)
  | RpcPdelhook (pattern : Text)
  | RpcHooks (pattern : Text)
  | RpcPing
  | RpcServer
  | RpcInfo (section : Text)
  | RpcHealthz
  | RpcConfigGet (name : Text)
  | RpcConfigSet (name value : Text)
  | RpcConfigRewrite
  | RpcFlushdb
  | RpcGc
  | RpcReadonly (enabled : Field bool)
  | RpcAuth (token : Text)
  | RpcTimeout (seconds : f64) (command : Text)
  | RpcRole
  | RpcAofshrink
  | RpcReplicationInfo (credential : Text)
  | RpcReplicationChecksum (credential : Text) (from to : Z)
  | RpcReplicationStream (credential : Text) (after_sequence : Z) (batch_size : nat).

(** [ServerInfo] of the schema: the text of the leader is empty when there is none. *)
Record ServerInfoMsg := mkInfoMsg { im_info : ServerInfo; im_following : string }.

Inductive InfoMsg : Type :=
  | InfoServer (info : ServerInfo)
  | InfoSchema
  | InfoNested (info : ServerInfo).

Inductive RpcAnswer : Type :=
  | AOk (resp : OkResponse)
  | AGet (result : SearchResultMsg) (resp : OkResponse)
  | AField (value : option FieldEntryMsg) (ok : bool)
  | ATtl (seconds : Z) (ok : bool)
  | AExists (exists_ : bool)
  | ABoundsResp (ok : bool) (bounds : BoundsMsg)
  | ANames (names : list string)
  | AStats (stats : list CollectionStats)
  | AHooks (hooks : list HookInfo)
  | AValue (value : string) (ok : bool)
  | ASearch (resp : SearchResponse)
  | AGeofenceStream (receiver : GeofenceEventReceiver) (principal : AuthPrincipal)
  | AServer (info : ServerInfoMsg)
  | AInfo (info : InfoMsg)
  | AConfig (value : string)
  | ARole (role : string) (info : ReplicationStatus)
  | AReplicationInfo (info : RemoteReplicationInfo)
  | AChecksum (checksum : list Byte.byte) (ok : bool) (error : string)
  | AReplicationStream (after_sequence : Z) (batch_size : nat).

(** ** Errors *)

Definition unauthorized_error : CapnpError := "unauthorized".
Definition forbidden_error : CapnpError := "forbidden".

Definition call_error_of_core (e : CoreError) : CallError :=
  mkCallError match kind e with
              | NotFound => CodeNotFound
              | BadRequest => CodeBadRequest
              | KReadOnly => CodeReadOnly
              | Internal => CodeInternal
              end (core_error_text e).

(** [fill_server_info] and [fill_replication_info]. *)
Definition fill_server_info (info : ServerInfo) : ServerInfoMsg :=
  mkInfoMsg info (default "" (si_following info)).
Definition fill_replication_info (info : ServerInfo) : RemoteReplicationInfo :=
  mkInfo (si_server_id info) (default "" (si_following info)) (si_leader info)
    (si_last_sequence info).

Section Capnp.
Context `{LM : Libm} `{GC : GeoCrate} `{RC : RTreeCrate} `{JT : JsonText} `{PT : Patterns}
  `{HO : HashOrder} `{LC : LogCodec} `{MD : Md5} `{B64 : Base64} `{EC : EventCodec}
  `{SN : SelectNth} `{JW : JwtCrate} `{CT : ConfigText} `{CX : CapnpTexts}.
Context {S : Type} `{SB : StorageBackend S}.

(** What one call sees of the world. *)
Record Call := mkCall { call_clock : Clock; call_env : AuthEnv; call_faults : DiskFaults }.

(** [LatLngRpc]: the server, which all connections share, and the session's
    principal. *)
Record RpcState := mkRpc {
  rpc_server : HttpState (S := S);
  rpc_principal : option AuthPrincipal
}.

Definition session_auth_enabled (server : HttpState (S := S)) : bool :=
  auth_enabled (au_config (hs_auth server)).

(** [LatLngRpc::new], when a connection is accepted. *)
Definition rpc_new (server : HttpState (S := S)) : RpcState :=
  mkRpc server (if negb (session_auth_enabled server) then Some open_access else None).

Definition set_server (st : RpcState) (server : HttpState (S := S)) : RpcState :=
  mkRpc server (rpc_principal st).

(** ** The monad of calls *)

Definition C (A : Type) : Type := RpcState → RpcState * result A CapnpError.

Definition cret {A} (a : A) : C A := λ st, (st, Ok a).
Definition cfail {A} (e : CapnpError) : C A := λ st, (st, Err e).
Definition cbind {A B} (m : C A) (k : A → C B) : C B := λ st,
  match m st with
  | (st', Ok a) => k a st'
  | (st', Err e) => (st', Err e)
  end.
Definition cget : C RpcState := λ st, (st, Ok st).
Definition clift {A} (r : result A CapnpError) : C A := λ st, (st, r).

Notation "x <- m ;; k" := (cbind m (λ x, k)) (at level 100, m at next level, right associativity).
Notation "m ;;; k" := (cbind m (λ _, k)) (at level 100, right associativity).

(** A step of the server that the HTTP interface takes too. *)
Definition on_server {A} (m : H (S := S) A) : C (result A HttpError) := λ st,
  let '(server, r) := m (rpc_server st) in (set_server st server, Ok r).

(** [?] on a [CallError]. *)
Definition call_try {A} (m : C (result A CallError)) : C A :=
  r <- m ;; clift (map_err ce_message r).

(** ** Permissions ([rpc_state.rs]) *)

Definition session_principal (st : RpcState) : result AuthPrincipal CapnpError :=
  if negb (session_auth_enabled (rpc_server st)) then Ok open_access
  else ok_or (rpc_principal st) unauthorized_error.

Definition ensure_authenticated : C AuthPrincipal := λ st, (st, session_principal st).

Definition rpc_ensure_global_action (action : AuthAction) : C AuthPrincipal :=
  p <- ensure_authenticated ;;
  if allows_global p action then cret p else cfail forbidden_error.

Definition rpc_ensure_collection_action (action : AuthAction) (collection : string) : C AuthPrincipal :=
  p <- ensure_authenticated ;;
  if allows p action collection then cret p else cfail forbidden_error.

Definition ensure_any_collection_permission (action : AuthAction) : C AuthPrincipal :=
  p <- ensure_authenticated ;;
  if is_admin p || any_collection_permission p action then cret p else cfail forbidden_error.

Definition rpc_queries_allowed (st : RpcState) : result unit CapnpError :=
  match hs_replication_status (rpc_server st) with
  | Some status => if queries_allowed status then Ok tt else Err "catching up to leader"
  | None => Ok tt
  end.

Definition rpc_ensure_queries_allowed : C unit := λ st, (st, rpc_queries_allowed st).

Definition ensure_replication_authorized (credential : string) : C unit := λ st,
  match hs_runtime_config (rpc_server st) with
  | None => (st, Err "runtime config is not attached")
  | Some c =>
      if bool_decide (rc_replication_credential c = Some credential) then (st, Ok tt)
      else (st, Err unauthorized_error)
  end.

(** ** Running the engine *)

Definition run_core {A} (op : M (S := S) A) : C (result A CallError) := λ st,
  let '(db, r) := op (hs_db (rpc_server st)) in
  (set_server st (set_db (rpc_server st) db), Ok (map_err call_error_of_core r)).

(** [run_core] with an operation that may panic. *)
Definition run_core_query {A} (op : LatLng S → option (result A CoreError))
    : C (result A CallError) := λ st,
  (st, Ok match op (hs_db (rpc_server st)) with
          | Some r => map_err call_error_of_core r
          | None => Err (mkCallError CodeUnavailable "native executor task panicked")
          end).

(** [run_value]: an operation that cannot fail. *)
Definition run_value {A} (f : LatLng S → LatLng S * A) : C A := λ st,
  let '(db, a) := f (hs_db (rpc_server st)) in
  (set_server st (set_db (rpc_server st) db), Ok a).

Definition run_core_read {A} (m : C (result A CallError)) : C (result A CallError) := λ st,
  match rpc_queries_allowed st with
  | Err e => (st, Ok (Err (mkCallError CodeUnavailable (capnp_error_text e))))
  | Ok _ => m st
  end.

Definition wake_outbox : C unit := _ <- on_server notify_outbox ;; cret tt.
Definition wake_replication : C unit := _ <- on_server notify_replication ;; cret tt.
Definition wake_both : C unit := wake_outbox ;;; wake_replication.

Definition run_core_mutating {A} (op : M (S := S) A) : C (result A CallError) :=
  r <- run_core op ;;
  (if is_ok r then wake_both else cret tt) ;;;
  cret r.

(** ** Answers *)

Definition answer_ok : RpcAnswer := AOk (fill_ok_response true "").

Definition ok_answer (r : result unit CallError) : RpcAnswer :=
  match r with Ok _ => answer_ok | Err e => AOk (fill_ok_error e) end.

(** [Ok(true)], [Ok(false)] with the given answer, or the error. *)
Definition bool_answer (no : OkResponse) (r : result bool CallError) : RpcAnswer :=
  match r with
  | Ok true => answer_ok
  | Ok false => AOk no
  | Err e => AOk (fill_ok_error e)
  end.

Definition not_found (text : string) : OkResponse := fill_ok_failure CodeNotFound text.
Definition unmet (text : string) : OkResponse := fill_ok_response false text.

Definition search_answer (r : result SearchResults CallError) : RpcAnswer :=
  ASearch match r with Ok r => fill_search_response r | Err e => fill_search_error e end.

(** [.unwrap_or_default()] and the like on the result of a call. *)
Definition unwrap_or {A} (d : A) (r : result A CallError) : A :=
  match r with Ok a => a | Err _ => d end.

Definition reduce {A} (r : result A CallError) : result unit CallError := rmap (λ _, tt) r.

(** ** Objects *)

Definition rpc_set (c : Call) (req : Field SetRequestMsg) : C RpcAnswer :=
  req <- clift req ;;
  req <- clift (set_request_from_reader req) ;;
  rpc_ensure_collection_action ObjectsWrite (sr_collection req) ;;;
  stored <- run_core_mutating (op_set (call_clock c) req) ;;
  cret (bool_answer (unmet "condition not met") stored).

Definition rpc_get (c : Call) (req : Field GetRequestMsg) : C RpcAnswer :=
  req <- clift req ;;
  collection <- clift (read_text (gm_collection req)) ;;
  i <- clift (read_text (gm_id req)) ;;
  rpc_ensure_collection_action ObjectsRead collection ;;;
  let format := output_format_from_capnp (known_or OutObjects (gm_output req)) (gm_hash_prec req) in
  object <- run_core_read
              (run_core (op_get (call_clock c) collection i format (gm_with_fields req))) ;;
  let empty := fill_search_item empty_search_item false in
  cret match object with
       | Ok (Some object) => AGet (fill_search_item_from_object object) (fill_ok_response true "")
       | Ok None => AGet empty (not_found "not found")
       | Err e => AGet empty (fill_ok_error e)
       end.

Definition rpc_del (c : Call) (collection i : Text) : C RpcAnswer :=
  collection <- clift (read_text collection) ;;
  rpc_ensure_collection_action ObjectsDelete collection ;;;
  i <- clift (read_text i) ;;
  deleted <- run_core_mutating (op_del (call_clock c) collection i) ;;
  cret (bool_answer (not_found "not found") deleted).

Definition rpc_pdel (c : Call) (collection pattern : Text) : C RpcAnswer :=
  collection <- clift (read_text collection) ;;
  rpc_ensure_collection_action ObjectsDelete collection ;;;
  pattern <- clift (read_text pattern) ;;
  r <- run_core_mutating (op_pdel (call_clock c) collection (default_glob pattern)) ;;
  cret (ok_answer (reduce r)).

Definition rpc_drop (c : Call) (collection : Text) : C RpcAnswer :=
  collection <- clift (read_text collection) ;;
  rpc_ensure_collection_action CollectionsDelete collection ;;;
  dropped <- run_core_mutating (op_drop_collection (call_clock c) collection) ;;
  cret (bool_answer (not_found "not found") dropped).

(** The permissions of [rename] and [renamenx]. *)
Definition rename_names (collection newname : Text) : C (string * string) :=
  collection <- clift (read_text collection) ;;
  newname <- clift (read_text newname) ;;
  rpc_ensure_collection_action CollectionsDelete collection ;;;
  rpc_ensure_collection_action CollectionsCreate newname ;;;
  cret (collection, newname).

Definition rpc_rename (c : Call) (collection newname : Text) : C RpcAnswer :=
  names <- rename_names collection newname ;;
  r <- run_core_mutating (rename_inner (call_clock c) names.1 names.2 false) ;;
  cret (ok_answer (reduce r)).

Definition rpc_renamenx (c : Call) (collection newname : Text) : C RpcAnswer :=
  names <- rename_names collection newname ;;
  r <- run_core_mutating (rename_inner (call_clock c) names.1 names.2 true) ;;
  cret (bool_answer (unmet "destination already exists") r).

Definition rpc_fset (c : Call) (collection i : Text) (fields : Field (list FieldEntryMsg))
    (xx : bool) : C RpcAnswer :=
  collection <- clift (read_text collection) ;;
  rpc_ensure_collection_action ObjectsWrite collection ;;;
  i <- clift (read_text i) ;;
  fields <- clift fields ;;
  fields <- clift (field_entries_from_list fields) ;;
  updated <- run_core_mutating (op_fset (call_clock c) collection i fields xx) ;;
  cret (bool_answer (not_found "not found") updated).

Definition rpc_fget (c : Call) (collection i field : Text) : C RpcAnswer :=
  collection <- clift (read_text collection) ;;
  rpc_ensure_collection_action ObjectsRead collection ;;;
  i <- clift (read_text i) ;;
  field <- clift (read_text field) ;;
  value <- run_core_read (run_core (op_fget (call_clock c) collection i field)) ;;
  cret match value with
       | Ok (Some value) => AField (Some (fill_field_entry (mkFieldEntry field value))) true
       | Ok None | Err _ => AField None false
       end.

Definition rpc_expire (c : Call) (collection i : Text) (seconds : Z) : C RpcAnswer :=
  collection <- clift (read_text collection) ;;
  rpc_ensure_collection_action ObjectsWrite collection ;;;
  i <- clift (read_text i) ;;
  r <- run_core_mutating (op_expire (call_clock c) collection i seconds) ;;
  cret (ok_answer r).

Definition rpc_persist (c : Call) (collection i : Text) : C RpcAnswer :=
  collection <- clift (read_text collection) ;;
  rpc_ensure_collection_action ObjectsWrite collection ;;;
  i <- clift (read_text i) ;;
  r <- run_core_mutating (op_persist (call_clock c) collection i) ;;
  cret (ok_answer r).

Definition rpc_ttl (c : Call) (collection i : Text) : C RpcAnswer :=
  collection <- clift (read_text collection) ;;
  rpc_ensure_collection_action ObjectsRead collection ;;;
  i <- clift (read_text i) ;;
  ttl <- run_core_read (run_core (op_ttl (call_clock c) collection i)) ;;
  cret match ttl with
       | Ok (Some seconds) => ATtl seconds true
       | Ok None | Err _ => ATtl (-1) false
       end.

Definition rpc_exists (c : Call) (collection i : Text) : C RpcAnswer :=
  collection <- clift (read_text collection) ;;
  rpc_ensure_collection_action ObjectsRead collection ;;;
  i <- clift (read_text i) ;;
  r <- run_core_read (run_core (op_exists (call_clock c) collection i)) ;;
  cret (AExists (unwrap_or false r)).

Definition rpc_fexists (c : Call) (collection i field : Text) : C RpcAnswer :=
  collection <- clift (read_text collection) ;;
  rpc_ensure_collection_action ObjectsRead collection ;;;
  i <- clift (read_text i) ;;
  field <- clift (read_text field) ;;
  r <- run_core_read (run_core (op_fexists (call_clock c) collection i field)) ;;
  cret (AExists (unwrap_or false r)).

(** ** Collections *)

Definition rpc_bounds (c : Call) (collection : Text) : C RpcAnswer :=
  collection <- clift (read_text collection) ;;
  rpc_ensure_collection_action CollectionsInspect collection ;;;
  bounds <- run_core_read (run_core (op_bounds collection)) ;;
  cret match bounds with
       | Ok (Some bounds) => ABoundsResp true (fill_bounds bounds)
       | _ => ABoundsResp false (fill_bounds (box_new fzero fzero fzero fzero))
       end.

Definition rpc_collections (c : Call) (pattern : Text) : C RpcAnswer :=
  p <- ensure_any_collection_permission CollectionsList ;;
  pattern <- clift (read_text pattern) ;;
  names <- run_core_read (run_core (op_collections (default_glob pattern))) ;;
  cret (ANames (filter (λ n, can_view_collection p n = true) (unwrap_or [] names))).

Fixpoint ensure_each (action : AuthAction) (l : list string) : C unit :=
  match l with
  | [] => cret tt
  | n :: l' => rpc_ensure_collection_action action n ;;; ensure_each action l'
  end.

(** The closure of [stats]: all collections when none is named. *)
Definition op_stats_of (clock : Clock) (requested : list string) : M (S := S) (list CollectionStats) :=
  match requested with
  | [] => mbind (op_collections "*") (op_stats clock)
  | _ => op_stats clock requested
  end.

Definition rpc_stats (c : Call) (collections : Field (list Text)) : C RpcAnswer :=
  p <- ensure_authenticated ;;
  requested <- clift collections ;;
  requested <- clift (text_list_from_reader requested) ;;
  (match requested with
   | [] => if negb (is_admin p) && negb (any_collection_permission p CollectionsList)
           then cfail forbidden_error else cret tt
   | _ => ensure_each CollectionsInspect requested
   end) ;;;
  stats <- run_core_read (run_core (op_stats_of (call_clock c) requested)) ;;
  cret (AStats (filter (λ s, allows p CollectionsInspect (stats_name s) = true)
                  (unwrap_or [] stats))).

(** ** JSON *)

Definition rpc_jset (c : Call) (collection i path value : Text) (raw : bool) : C RpcAnswer :=
  collection <- clift (read_text collection) ;;
  rpc_ensure_collection_action ObjectsWrite collection ;;;
  i <- clift (read_text i) ;;
  path <- clift (read_text path) ;;
  value <- clift (read_text value) ;;
  r <- run_core_mutating (op_jset (call_clock c) collection i path value raw) ;;
  cret (ok_answer (reduce r)).

Definition rpc_jget (c : Call) (collection i path : Text) : C RpcAnswer :=
  collection <- clift (read_text collection) ;;
  rpc_ensure_collection_action ObjectsRead collection ;;;
  i <- clift (read_text i) ;;
  path <- clift (read_text path) ;;
  value <- run_core_read (run_core (op_jget (call_clock c) collection i path)) ;;
  cret match value with
       | Ok (Some value) => AValue value true
       | _ => AValue "" false
       end.

Definition rpc_jdel (c : Call) (collection i path : Text) : C RpcAnswer :=
  collection <- clift (read_text collection) ;;
  rpc_ensure_collection_action ObjectsWrite collection ;;;
  i <- clift (read_text i) ;;
  path <- clift (read_text path) ;;
  deleted <- run_core_mutating (op_jdel (call_clock c) collection i path) ;;
  cret (bool_answer (not_found "path not found") deleted).

(** ** Searches *)

(** What the five searches have in common. *)
Definition run_search (op : bool → LatLng S → option (result SearchResults CoreError))
    : C RpcAnswer :=
  st <- cget ;;
  r <- run_core_read (run_core_query (op (hs_parallel (rpc_server st)))) ;;
  cret (search_answer r).

Definition rpc_nearby (c : Call) (req : Field NearbyMsg) : C RpcAnswer :=
  req <- clift req ;;
  cq <- clift (nearby_query_from_reader req) ;;
  rpc_ensure_collection_action QueriesRead cq.1 ;;;
  run_search (λ par db, Some (op_nearby par (call_clock c) db cq.1 cq.2)).

Definition rpc_within (c : Call) (req : Field AreaRequestMsg) : C RpcAnswer :=
  req <- clift req ;;
  cao <- clift (area_query_from_reader req) ;;
  rpc_ensure_collection_action QueriesRead cao.1.1 ;;;
  run_search (λ par db, Some (op_within par (call_clock c) db cao.1.1 cao.1.2 cao.2)).

Definition rpc_intersects (c : Call) (req : Field AreaRequestMsg) : C RpcAnswer :=
  req <- clift req ;;
  cao <- clift (area_query_from_reader req) ;;
  rpc_ensure_collection_action QueriesRead cao.1.1 ;;;
  run_search (λ par db, Some (op_intersects par (call_clock c) db cao.1.1 cao.1.2 cao.2)).

Definition rpc_scan (c : Call) (req : Field ScanMsg) : C RpcAnswer :=
  req <- clift req ;;
  collection <- clift (read_text (xm_collection req)) ;;
  rpc_ensure_collection_action QueriesRead collection ;;;
  options <- clift (xm_options req) ;;
  options <- clift (search_options_from_reader options) ;;
  run_search (λ par db, op_scan par (call_clock c) db collection options).

Definition rpc_search (c : Call) (req : Field ScanMsg) : C RpcAnswer :=
  req <- clift req ;;
  collection <- clift (read_text (xm_collection req)) ;;
  rpc_ensure_collection_action QueriesRead collection ;;;
  options <- clift (xm_options req) ;;
  options <- clift (search_options_from_reader options) ;;
  run_search (λ par db, op_search par (call_clock c) db collection options).

(** ** Channels and hooks *)

Definition rpc_setchan (c : Call) (req : Field ChanRequestMsg) : C RpcAnswer :=
  req <- clift req ;;
  nd <- clift (fence_def_from_chan_request req) ;;
  rpc_ensure_collection_action ChannelsManage (def_collection nd.2) ;;;
  r <- run_core_mutating (op_setchan (call_clock c) nd.1 nd.2) ;;
  cret (ok_answer r).

(** The collection of a channel or hook, and the permission on it. *)
Definition channel_home (name : string) (db : LatLng S) : option string :=
  (λ ch, def_collection (channel_fence ch)) <$> channel_def (db_geofences db) name.
Definition hook_home (name : string) (db : LatLng S) : option string :=
  (λ h, def_collection (hook_fence h)) <$> hook_def (db_geofences db) name.

Definition ensure_owner (action : AuthAction) (owner : option string) : C unit :=
  match owner with
  | Some collection => _ <- rpc_ensure_collection_action action collection ;; cret tt
  | None => cret tt
  end.

Definition rpc_delchan (c : Call) (name : Text) : C RpcAnswer :=
  name <- clift (read_text name) ;;
  owner <- run_value (λ db, (db, channel_home name db)) ;;
  ensure_owner ChannelsManage owner ;;;
  deleted <- run_core_mutating (op_delchan (call_clock c) name) ;;
  cret (bool_answer (not_found "not found") deleted).

Definition op_channel_defs (pattern : string) : M (S := S) (list ChannelDef) := λ db,
  let r := db_geofences db in (db, Ok (omap (channel_def r) (channel_names r pattern))).
Definition op_hooks (pattern : string) : M (S := S) (list HookInfo) := λ db,
  (db, Ok (hook_infos (db_geofences db) pattern)).

Definition rpc_pdelchan (c : Call) (pattern : Text) : C RpcAnswer :=
  p <- ensure_authenticated ;;
  pattern <- clift (read_text pattern) ;;
  let pattern := default_glob pattern in
  defs <- call_try (run_core_read (run_core (op_channel_defs pattern))) ;;
  if existsb (λ ch, negb (allows p ChannelsManage (def_collection (channel_fence ch)))) defs
  then cfail forbidden_error
  else
    r <- run_core_mutating (op_pdelchan (call_clock c) pattern) ;;
    cret (ok_answer (reduce r)).

Definition rpc_chans (c : Call) (pattern : Text) : C RpcAnswer :=
  p <- ensure_authenticated ;;
  pattern <- clift (read_text pattern) ;;
  defs <- run_core_read (run_core (op_channel_defs (default_glob pattern))) ;;
  cret (ANames (channel_name <$>
    filter (λ ch, allows p ChannelsManage (def_collection (channel_fence ch)) = true)
      (unwrap_or [] defs))).

Definition rpc_sethook (c : Call) (req : Field HookRequestMsg) : C RpcAnswer :=
  req <- clift req ;;
  ned <- clift (fence_def_from_hook_request req) ;;
  rpc_ensure_collection_action HooksManage (def_collection ned.2) ;;;
  r <- run_core_mutating (op_sethook (call_clock c) ned.1.1 ned.1.2 ned.2) ;;
  cret (ok_answer r).

Definition rpc_delhook (c : Call) (name : Text) : C RpcAnswer :=
  name <- clift (read_text name) ;;
  owner <- run_value (λ db, (db, hook_home name db)) ;;
  ensure_owner HooksManage owner ;;;
  deleted <- run_core_mutating (op_delhook (call_clock c) name) ;;
  cret (bool_answer (not_found "not found") deleted).

Definition rpc_pdelhook (c : Call) (pattern : Text) : C RpcAnswer :=
  p <- ensure_authenticated ;;
  pattern <- clift (read_text pattern) ;;
  let pattern := default_glob pattern in
  hooks <- run_core_read (run_core (op_hooks pattern)) ;;
  if existsb (λ h, negb (allows p HooksManage (info_collection h))) (unwrap_or [] hooks)
  then cfail forbidden_error
  else
    r <- run_core_mutating (op_pdelhook (call_clock c) pattern) ;;
    cret (ok_answer (reduce r)).

Definition rpc_hooks (c : Call) (pattern : Text) : C RpcAnswer :=
  p <- ensure_authenticated ;;
  pattern <- clift (read_text pattern) ;;
  hooks <- run_core_read (run_core (op_hooks (default_glob pattern))) ;;
  cret (AHooks (filter (λ h, allows p HooksManage (info_collection h) = true)
                  (unwrap_or [] hooks))).

(** ** Subscriptions *)

Definition op_named_channels (names : list string) : M (S := S) (list ChannelDef) := λ db,
  (db, Ok (omap (channel_def (db_geofences db)) names)).

Definition add_receiver (sub : GeofenceRegistry → GeofenceRegistry * GeofenceEventReceiver)
    (db : LatLng S) : LatLng S * GeofenceEventReceiver :=
  let '(r, receiver) := sub (db_geofences db) in ((put_geofences r db).1, receiver).

Definition rpc_subscribe (c : Call) (channels : Field (list Text)) : C RpcAnswer :=
  p <- ensure_authenticated ;;
  channels <- clift channels ;;
  channels <- clift (text_list_from_reader channels) ;;
  defs <- call_try (run_core_read (run_core (op_named_channels channels))) ;;
  if existsb (λ ch, negb (allows p SubscriptionsRead (def_collection (channel_fence ch)))) defs
  then cfail forbidden_error
  else
    receiver <- run_value (add_receiver (λ r, subscribe r channels)) ;;
    cret (AGeofenceStream receiver p).

Definition rpc_psubscribe (c : Call) (patterns : Field (list Text)) : C RpcAnswer :=
  p <- ensure_any_collection_permission SubscriptionsRead ;;
  patterns <- clift patterns ;;
  patterns <- clift (text_list_from_reader patterns) ;;
  receiver <- run_value (add_receiver (λ r, psubscribe r patterns)) ;;
  cret (AGeofenceStream receiver p).

(** ** Server *)

Definition rpc_ping (c : Call) : C RpcAnswer := ensure_authenticated ;;; cret answer_ok.

Definition rpc_server_info (c : Call) : C ServerInfo :=
  info <- call_try (run_core (op_server_info (call_clock c))) ;;
  st <- cget ;;
  cret (apply_replication_to_server_info info (hs_replication_status (rpc_server st))).

Definition rpc_server_method (c : Call) : C RpcAnswer :=
  rpc_ensure_global_action AdminAll ;;;
  info <- rpc_server_info c ;;
  cret (AServer (fill_server_info info)).

Definition rpc_info (c : Call) (section : Text) : C RpcAnswer :=
  rpc_ensure_global_action AdminAll ;;;
  section <- clift (read_text section) ;;
  info <- rpc_server_info c ;;
  cret (AInfo (if String.eqb section "" || String.eqb section "server" then InfoServer info
               else if String.eqb section "schema" then InfoSchema
               else InfoNested info)).

Definition rpc_healthz (c : Call) : C RpcAnswer :=
  ensure_authenticated ;;; rpc_ensure_queries_allowed ;;; cret answer_ok.

Definition op_read_only : M (S := S) string := λ db, (db, Ok (bool_text (read_only (db_config db)))).

Definition rpc_config_get (c : Call) (name : Text) : C RpcAnswer :=
  rpc_ensure_global_action AdminAll ;;;
  name <- clift (read_text name) ;;
  value <- (if String.eqb name "readonly" then call_try (run_core op_read_only) else cret "") ;;
  cret (AConfig value).

(** [update_runtime_config], then [sync_effective_read_only]. *)
Definition set_configured_read_only (enabled : bool) : C unit :=
  on_server (update_runtime_config (λ rc, with_read_only rc enabled)) ;;;
  on_server http_sync_effective_read_only ;;;
  cret tt.

Definition rpc_config_set (c : Call) (name value : Text) : C RpcAnswer :=
  rpc_ensure_global_action AdminAll ;;;
  name <- clift (read_text name) ;;
  value <- clift (read_text value) ;;
  if String.eqb name "readonly" then
    set_configured_read_only (truthy value) ;;; cret answer_ok
  else cret (AOk (not_found "unknown config key")).

(** [CapnpError::Rpc] as a text. *)
Definition rpc_error_text (message : string) : string := "capnp rpc error: " +:+ message.

Definition capnp_rewrite_runtime_config (c : Call) : C (result unit string) := λ st,
  match hs_runtime_config (rpc_server st) with
  | None => (st, Ok (Err (rpc_error_text "runtime config is not attached")))
  | Some rc =>
      match rc_config_path rc with
      | None => (st, Ok (Err (rpc_error_text "no config file path is configured")))
      | Some path =>
          let '(files, r) := save_to_path (call_faults c) rc path (hs_files (rpc_server st)) in
          (set_server st (set_files (rpc_server st) files),
           Ok (map_err (λ e, rpc_error_text (config_error_text e)) r))
      end
  end.

Definition rpc_config_rewrite (c : Call) : C RpcAnswer :=
  rpc_ensure_global_action AdminAll ;;;
  r <- capnp_rewrite_runtime_config c ;;
  cret match r with
       | Ok _ => answer_ok
       | Err e => AOk (fill_ok_failure CodeInternal e)
       end.

(** The text of the coordinator's error. *)
Definition coordinator_error (e : HttpError) : CallError :=
  mkCallError CodeInternal match e with HInternal text => text | _ => "" end.

Definition flush_server (clock : Clock) : C (result unit CallError) :=
  st <- cget ;;
  match hs_flushdb_coordinator (rpc_server st) with
  | Some epoch =>
      r <- on_server (flush_with_coordinator clock epoch) ;; cret (map_err coordinator_error r)
  | None => run_core_mutating (op_flushdb clock)
  end.

Definition rpc_flushdb (c : Call) : C RpcAnswer :=
  rpc_ensure_global_action AdminAll ;;;
  r <- flush_server (call_clock c) ;;
  (if is_ok r then wake_both else cret tt) ;;;
  cret (ok_answer r).

Definition rpc_gc (c : Call) : C RpcAnswer :=
  rpc_ensure_global_action AdminAll ;;;
  call_try (run_core (op_gc (call_clock c))) ;;;
  cret answer_ok.

Definition rpc_readonly (c : Call) (enabled : Field bool) : C RpcAnswer :=
  rpc_ensure_global_action AdminAll ;;;
  enabled <- clift enabled ;;
  set_configured_read_only enabled ;;;
  cret answer_ok.

Definition set_session_principal (p : option AuthPrincipal) : C unit := λ st,
  (mkRpc (rpc_server st) p, Ok tt).

Definition session_authenticate (c : Call) (token : string) : C (result AuthPrincipal AuthError) := λ st,
  let '(a, r) := authenticate (hs_auth (rpc_server st)) (call_env c) (Some token) in
  (set_server st (set_auth (rpc_server st) a), Ok r).

Definition rpc_auth (c : Call) (token : Text) : C RpcAnswer :=
  token <- clift (read_text token) ;;
  r <- session_authenticate c token ;;
  match r with
  | Ok p => set_session_principal (Some p) ;;; cret answer_ok
  | Err Unauthorized =>
      set_session_principal None ;;; cret (AOk (fill_ok_failure CodeUnauthorized "unauthorized"))
  | Err e =>
      set_session_principal None ;;; cret (AOk (fill_ok_failure CodeInternal (auth_error_text e)))
  end.

Definition op_clear_timeout (command : string) : M (S := S) unit :=
  mbind mget (λ db, put_config (config_clear_timeout (db_config db) command)).

Definition rpc_timeout (c : Call) (seconds : f64) (command : Text) : C RpcAnswer :=
  rpc_ensure_global_action AdminAll ;;;
  command <- clift (read_text command) ;;
  if String.eqb (trim command) "" then cret (AOk (fill_ok_failure CodeBadRequest "missing command"))
  else
    (if SFleb seconds fzero then
       call_try (run_core (op_clear_timeout command)) ;;;
       on_server (update_runtime_config (λ rc, runtime_clear_timeout rc command)) ;;;
       cret tt
     else
       call_try (run_core (op_set_timeout command seconds)) ;;;
       on_server (update_runtime_config (λ rc, runtime_set_timeout rc command seconds)) ;;;
       cret tt) ;;;
    cret answer_ok.

Definition rpc_role (c : Call) : C RpcAnswer :=
  rpc_ensure_global_action AdminAll ;;;
  st <- cget ;;
  let info := default (status_leader "") (hs_replication_status (rpc_server st)) in
  cret (ARole (match rs_role info with Leader => "leader" | Follower => "follower" end) info).

Definition rpc_aofshrink (c : Call) : C RpcAnswer :=
  rpc_ensure_global_action AdminAll ;;;
  r <- run_core (op_aofshrink (call_clock c)) ;;
  (if is_ok r then wake_replication else cret tt) ;;;
  cret (ok_answer (reduce r)).

(** ** Replication *)

Definition rpc_replication_info (c : Call) (credential : Text) : C RpcAnswer :=
  credential <- clift (read_text credential) ;;
  ensure_replication_authorized credential ;;;
  info <- rpc_server_info c ;;
  cret (AReplicationInfo (fill_replication_info info)).

Definition rpc_replication_checksum (c : Call) (credential : Text) (from to : Z) : C RpcAnswer :=
  credential <- clift (read_text credential) ;;
  ensure_replication_authorized credential ;;;
  r <- run_core (op_checksum_range from to) ;;
  cret match r with
       | Ok checksum => AChecksum checksum true ""
       | Err e => AChecksum [] false (ce_message e)
       end.

(** [ReplicationStreamRpc::new] takes at least one entry per batch. *)
Definition rpc_replication_stream (c : Call) (credential : Text) (after_sequence : Z)
    (batch_size : nat) : C RpcAnswer :=
  credential <- clift (read_text credential) ;;
  ensure_replication_authorized credential ;;;
  st <- cget ;;
  match hs_replication_notify (rpc_server st) with
  | None => cfail "replication notifier is not attached"
  | Some _ => cret (AReplicationStream after_sequence (Nat.max batch_size 1))
  end.

(** ** The interface *)

Definition rpc_handle (c : Call) (request : RpcRequest) : C RpcAnswer :=
  match request with
  | RpcSet req => rpc_set c req
  | RpcGet req => rpc_get c req
  | RpcDel n i => rpc_del c n i
  | RpcPdel n pattern => rpc_pdel c n pattern
  | RpcDrop n => rpc_drop c n
  | RpcRename n n' => rpc_rename c n n'
  | RpcRenamenx n n' => rpc_renamenx c n n'
  | RpcFset n i fields xx => rpc_fset c n i fields xx
  | RpcFget n i field => rpc_fget c n i field
  | RpcExpire n i seconds => rpc_expire c n i seconds
  | RpcPersist n i => rpc_persist c n i
  | RpcTtl n i => rpc_ttl c n i
  | RpcExists n i => rpc_exists c n i
  | RpcFexists n i field => rpc_fexists c n i field
  | RpcBounds n => rpc_bounds c n
  | RpcCollections pattern => rpc_collections c pattern
  | RpcStats ns => rpc_stats c ns
  | RpcJset n i path value raw => rpc_jset c n i path value raw
  | RpcJget n i path => rpc_jget c n i path
  | RpcJdel n i path => rpc_jdel c n i path
  | RpcNearby req => rpc_nearby c req
  | RpcWithin req => rpc_within c req
  | RpcIntersects req => rpc_intersects c req
  | RpcScan req => rpc_scan c req
  | RpcSearch req => rpc_search c req
  | RpcSetchan req => rpc_setchan c req
  | RpcDelchan name => rpc_delchan c name
  | RpcPdelchan pattern => rpc_pdelchan c pattern
  | RpcChans pattern => rpc_chans c pattern
  | RpcSubscribe channels => rpc_subscribe c channels
  | RpcPsubscribe patterns => rpc_psubscribe c patterns
  | RpcSethook req => rpc_sethook c req
  | RpcDelhook name => rpc_delhook c name
  | RpcPdelhook pattern => rpc_pdelhook c pattern
  | RpcHooks pattern => rpc_hooks c pattern
  | RpcPing => rpc_ping c
  | RpcServer => rpc_server_method c
  | RpcInfo section => rpc_info c section
  | RpcHealthz => rpc_healthz c
  | RpcConfigGet name => rpc_config_get c name
  | RpcConfigSet name value => rpc_config_set c name value
  | RpcConfigRewrite => rpc_config_rewrite c
  | RpcFlushdb => rpc_flushdb c
  | RpcGc => rpc_gc c
  | RpcReadonly enabled => rpc_readonly c enabled
  | RpcAuth token => rpc_auth c token
  | RpcTimeout seconds command => rpc_timeout c seconds command
  | RpcRole => rpc_role c
  | RpcAofshrink => rpc_aofshrink c
  | RpcReplicationInfo credential => rpc_replication_info c credential
  | RpcReplicationChecksum credential from to => rpc_replication_checksum c credential from to
  | RpcReplicationStream credential after batch => rpc_replication_stream c credential after batch
  end.

End Capnp.
