(* ===== verification/CapnpSpec.v ===== *)
(** * The RPC interface agrees with the HTTP interface

    A session acts as the principal of its last successful [auth].  A call of
    that session leaves the data that the corresponding HTTP request of that
    principal leaves, and its answer reports what the HTTP answer reports. *)

From Stdlib Require Import ZArith Lia SpecFloat.
From stdpp Require Import base gmap strings list sorting pretty.
From S2P Require Import Prelude Storage F64 Json Platform Geo Strings Index Geofence.
From S2P Require Import Collection CollectionSpec Engine EngineSpec Queries WebhookQueue Outbox.
From S2P Require Import Replication Auth AuthSpec Config Metrics Http HttpFrame HttpSpec.
From S2P Require Import CapnpCodec Capnp.

Lemma rok_Some {A E} (r : result A E) a : rok r = Some a → r = Ok a.
Proof. destruct r; [by intros [= ->] | done]. Qed.

Section Agreement.
Context `{LM : Libm} `{GC : GeoCrate} `{RC : RTreeCrate} `{JT : JsonText} `{PT : Patterns}
  `{HO : HashOrder} `{LC : LogCodec} `{MD : Md5} `{B64 : Base64} `{EC : EventCodec}
  `{SN : SelectNth} `{JW : JwtCrate} `{CT : ConfigText} `{CX : CapnpTexts}.
Context {S : Type} `{SB : StorageBackend S}.

(** ** Corresponding requests *)

Definition format_name (f : OutputMsg) : string :=
  match f with
  | OutObjects => "objects" | OutPoints => "points" | OutBounds => "bounds"
  | OutHashes => "hashes" | OutIds => "ids" | OutCount => "count"
  end.

Definition precision_of (hash_prec : nat) : nat := if (hash_prec =? 0)%nat then 7 else hash_prec.

(** A readable call that has a counterpart, as an HTTP request.  EXISTS,
    FEXISTS, ROLE, the removals by pattern and the replication calls have no
    route; AUTH and the subscriptions belong to a connection; STATS of several
    collections, the sections of INFO other than the server's and the settings
    other than [readonly] have no counterpart on the other side. *)
Definition http_of (request : RpcRequest) : option HttpRequest := rok
  match request with
  | RpcSet req =>
      let? req := req in let? r := set_request_from_reader req in
      Ok (SetObject (sr_collection r) (sr_id r)
            (mkSetBody (sr_object r) (sr_fields r) (sr_expire_seconds r) (Some (sr_condition r))))
  | RpcGet req =>
      let? req := req in let? n := read_text (gm_collection req) in
      let? i := read_text (gm_id req) in
      Ok (GetObject n i (Some (gm_with_fields req))
            (Some (format_name (known_or OutObjects (gm_output req))))
            (Some (precision_of (gm_hash_prec req))))
  | RpcDel n i => let? n := read_text n in let? i := read_text i in Ok (DeleteObject n i)
  | RpcPdel n pattern =>
      let? n := read_text n in let? pattern := read_text pattern in
      Ok (DeleteObjects n (Some (default_glob pattern)))
  | RpcDrop n => let? n := read_text n in Ok (DropCollection n)
  | RpcRename n n' =>
      let? n := read_text n in let? n' := read_text n' in Ok (RenameCollection n n' (Some false))
  | RpcRenamenx n n' =>
      let? n := read_text n in let? n' := read_text n' in Ok (RenameCollection n n' (Some true))
  | RpcFset n i fields xx =>
      let? n := read_text n in let? i := read_text i in let? fields := fields in
      let? fields := field_entries_from_list fields in Ok (SetFields n i fields (Some xx))
  | RpcExpire n i seconds =>
      let? n := read_text n in let? i := read_text i in Ok (Http.Expire n i seconds)
  | RpcPersist n i => let? n := read_text n in let? i := read_text i in Ok (Http.Persist n i)
  | RpcJset n i path value raw =>
      let? n := read_text n in let? i := read_text i in let? path := read_text path in
      let? value := read_text value in Ok (SetJson n i path value (Some raw))
  | RpcJdel n i path =>
      let? n := read_text n in let? i := read_text i in let? path := read_text path in
      Ok (DeleteJson n i path)
  | RpcNearby req =>
      let? req := req in let? cq := nearby_query_from_reader req in Ok (SearchNearby cq.1 cq.2)
  | RpcWithin req =>
      let? req := req in let? cao := area_query_from_reader req in
      Ok (SearchWithin cao.1.1 cao.1.2 cao.2)
  | RpcIntersects req =>
      let? req := req in let? cao := area_query_from_reader req in
      Ok (SearchIntersects cao.1.1 cao.1.2 cao.2)
  | RpcScan req =>
      let? req := req in let? n := read_text (xm_collection req) in
      let? options := xm_options req in let? options := search_options_from_reader options in
      Ok (SearchScan n options)
  | RpcSearch req =>
      let? req := req in let? n := read_text (xm_collection req) in
      let? options := xm_options req in let? options := search_options_from_reader options in
      Ok (SearchText n options)
  | RpcSetchan req =>
      let? req := req in let? nd := fence_def_from_chan_request req in Ok (SetChannel nd.1 nd.2)
  | RpcDelchan name => let? name := read_text name in Ok (DeleteChannel name)
  | RpcSethook req =>
      let? req := req in let? ned := fence_def_from_hook_request req in
      Ok (SetHook ned.1.1 ned.1.2 ned.2)
  | RpcDelhook name => let? name := read_text name in Ok (DeleteHook name)
  | RpcFlushdb => Ok FlushDb
  | RpcReadonly enabled => let? enabled := enabled in Ok (SetReadOnly enabled)
  | RpcFget n i field =>
      let? n := read_text n in let? i := read_text i in let? field := read_text field in
      Ok (GetField n i field)
  | RpcTtl n i => let? n := read_text n in let? i := read_text i in Ok (GetTtl n i)
  | RpcBounds n => let? n := read_text n in Ok (GetBounds n)
  | RpcCollections pattern =>
      let? pattern := read_text pattern in Ok (ListCollections (Some (default_glob pattern)))
  | RpcStats names =>
      let? names := names in let? names := text_list_from_reader names in
      match names with [n] => Ok (GetStats n) | _ => Err "" end
  | RpcJget n i path =>
      let? n := read_text n in let? i := read_text i in let? path := read_text path in
      Ok (GetJson n i path)
  | RpcChans pattern =>
      let? pattern := read_text pattern in Ok (ListChannels (Some (default_glob pattern)))
  | RpcHooks pattern =>
      let? pattern := read_text pattern in Ok (ListHooks (Some (default_glob pattern)))
  | RpcPing => Ok Ping
  | RpcHealthz => Ok Healthz
  | RpcServer => Ok GetServer
  | RpcInfo section =>
      let? section := read_text section in
      if String.eqb section "" || String.eqb section "server" then Ok (GetInfo (Some section))
      else Err ""
  | RpcConfigGet name =>
      let? name := read_text name in
      if String.eqb name "readonly" then Ok (GetConfig name) else Err ""
  | RpcConfigSet name value =>
      let? name := read_text name in let? value := read_text value in
      if String.eqb name "readonly" then Ok (SetConfig name value) else Err ""
  | RpcConfigRewrite => Ok RewriteConfig
  | RpcGc => Ok Gc
  | RpcTimeout seconds command =>
      let? command := read_text command in Ok (SetTimeout seconds command)
  | RpcAofshrink => Ok AofShrink
  | RpcExists _ _ | RpcFexists _ _ _ | RpcPdelchan _ | RpcPdelhook _ | RpcSubscribe _
  | RpcPsubscribe _ | RpcAuth _ | RpcRole | RpcReplicationInfo _ | RpcReplicationChecksum _ _ _
  | RpcReplicationStream _ _ _ => Err ""
  end.

(** Where the two interfaces do the same: AOFSHRINK over HTTP also keeps the
    jobs of an attached webhook queue, which RPC does not; STATS over RPC
    checks the name stored in the collection, which is the one it is
    registered under. *)
Definition comparable (request : RpcRequest) (server : HttpState (S := S)) : Prop :=
  match request with
  | RpcAofshrink => hs_webhook_queue server = None
  | RpcStats _ =>
      ∀ n v, db_collections (hs_db server) !! n = Some v → name (collection v) = n
  | _ => True
  end.

(** ** Corresponding answers *)

Definition behind_error : CallError :=
  mkCallError CodeUnavailable (capnp_error_text "catching up to leader").
Definition panic_error : CallError := mkCallError CodeUnavailable "native executor task panicked".
Definition empty_result : SearchResultMsg := fill_search_item empty_search_item false.

(** What a call answers when the engine has nothing, for the methods whose
    answers have no room for an error. *)
Definition blank_answer (request : RpcRequest) : option RpcAnswer :=
  match request with
  | RpcFget _ _ _ => Some (AField None false)
  | RpcTtl _ _ => Some (ATtl (-1) false)
  | RpcBounds _ => Some (ABoundsResp false (fill_bounds (box_new fzero fzero fzero fzero)))
  | RpcCollections _ | RpcChans _ => Some (ANames [])
  | RpcStats _ => Some (AStats [])
  | RpcJget _ _ _ => Some (AValue "" false)
  | RpcHooks _ => Some (AHooks [])
  | _ => None
  end.

(** How a call answers an error. *)
Definition failure_answer (request : RpcRequest) (e : CallError) : RpcAnswer :=
  match request with
  | RpcNearby _ | RpcWithin _ | RpcIntersects _ | RpcScan _ | RpcSearch _ =>
      ASearch (fill_search_error e)
  | RpcGet _ => AGet empty_result (fill_ok_error e)
  | _ => default (AOk (fill_ok_error e)) (blank_answer request)
  end.

Definition is_query (request : RpcRequest) : bool :=
  match request with
  | RpcNearby _ | RpcWithin _ | RpcIntersects _ | RpcScan _ | RpcSearch _ | RpcGet _ => true
  | _ => bool_decide (is_Some (blank_answer request))
  end.

Definition ok_body (fields : list (string * Value)) : HttpBody :=
  BJson (json_object (("ok", json_bool true) :: fields)).

(** A flag of the HTTP answer, and what the call answers when it is unset. *)
Definition flagged (b : HttpBody) (body : bool → HttpBody) (a : RpcAnswer) (no : OkResponse) : Prop :=
  ∃ flag : bool, b = body flag ∧ a = if flag then answer_ok else AOk no.

(** Two successful answers to one request say the same. *)
Definition reports (request : RpcRequest) (b : HttpBody) (a : RpcAnswer) : Prop :=
  match request with
  | RpcSet _ => flagged b (λ v, ok_body [("stored", json_bool v)]) a (unmet "condition not met")
  | RpcGet _ => ∃ o, b = BObject o ∧ a = AGet (fill_search_item_from_object o) (fill_ok_response true "")
  | RpcDel _ _ => flagged b (λ v, ok_body [("deleted", json_bool v)]) a (not_found "not found")
  | RpcPdel _ _ => (∃ n, b = ok_body [("deleted", json_int n)]) ∧ a = answer_ok
  | RpcDrop _ =>
      flagged b (λ v, BJson (json_object [("dropped", json_bool v)])) a (not_found "not found")
  | RpcRename _ _ => (∃ v, b = ok_body [("renamed", json_bool v)]) ∧ a = answer_ok
  | RpcRenamenx _ _ =>
      flagged b (λ v, ok_body [("renamed", json_bool v)]) a (unmet "destination already exists")
  | RpcFset _ _ _ _ =>
      flagged b (λ v, ok_body [("updated", json_bool v)]) a (not_found "not found")
  | RpcJdel _ _ _ =>
      flagged b (λ v, BJson (json_object [("deleted", json_bool v)])) a (not_found "path not found")
  | RpcDelchan _ | RpcDelhook _ =>
      flagged b (λ v, BJson (json_object [("deleted", json_bool v)])) a (not_found "not found")
  | RpcSetchan _ => (∃ name, b = ok_body [("name", VString name)]) ∧ a = answer_ok
  | RpcReadonly _ => (∃ v, b = ok_body [("read_only", json_bool v)]) ∧ a = answer_ok
  | RpcTimeout _ command =>
      (∃ seconds text, read_text command = Ok text ∧
         b = ok_body [("command", VString text); ("seconds", from_option json_f64 VNull seconds)]) ∧
      a = answer_ok
  | RpcExpire _ _ _ | RpcPersist _ _ | RpcJset _ _ _ _ _ | RpcSethook _ | RpcFlushdb | RpcHealthz
  | RpcGc | RpcConfigSet _ _ | RpcConfigRewrite => b = ok_body [] ∧ a = answer_ok
  | RpcPing => b = ok_body [("pong", json_bool true)] ∧ a = answer_ok
  | RpcNearby _ | RpcWithin _ | RpcIntersects _ | RpcScan _ | RpcSearch _ =>
      ∃ r, b = BResults r ∧ a = ASearch (fill_search_response r)
  | RpcFget _ _ field => ∃ v text, read_text field = Ok text ∧ b = BField v ∧
      a = AField ((λ v, fill_field_entry (mkFieldEntry text v)) <$> v) (bool_decide (is_Some v))
  | RpcTtl _ _ => ∃ v : option Z,
      b = BJson (json_object [("ttl", from_option json_int VNull v)]) ∧
      a = ATtl (default (-1)%Z v) (bool_decide (is_Some v))
  | RpcBounds _ => ∃ v, b = BBounds v ∧
      a = ABoundsResp (bool_decide (is_Some v))
            (fill_bounds (default (box_new fzero fzero fzero fzero) v))
  | RpcCollections _ => ∃ l,
      b = BJson (json_object [("collections", json_strings l)]) ∧ a = ANames l
  | RpcStats _ => ∃ l, b = BStats l ∧ a = AStats l
  | RpcJget _ _ _ => ∃ v : option string,
      b = BJson (json_object [("value", from_option VString VNull v)]) ∧
      a = AValue (default "" v) (bool_decide (is_Some v))
  | RpcChans _ => ∃ l, b = BJson (json_object [("channels", json_strings l)]) ∧ a = ANames l
  | RpcHooks _ => ∃ l, b = BHooks l ∧ a = AHooks l
  | RpcServer => ∃ info, b = BServer info ∧ a = AServer (fill_server_info info)
  | RpcInfo _ => ∃ info, b = BInfo None info None ∧ a = AInfo (InfoServer info)
  | RpcConfigGet _ => ∃ v,
      b = BJson (json_object [("value", VString v)]) ∧ a = AConfig v
  | RpcAofshrink => (∃ result, b = BCompaction result) ∧ a = answer_ok
  | _ => False
  end.

(** The answers of the two interfaces to one request. *)
Inductive agree (request : RpcRequest)
    : result HttpBody HttpError → result RpcAnswer CapnpError → Prop :=
  | agree_done b a : reports request b a → agree request (Ok b) (Ok a)
  | agree_missing text : (∃ req, request = RpcGet req) →
      agree request (Err (HNotFound text)) (Ok (AGet empty_result (not_found "not found")))
  | agree_forbidden : agree request (Err HForbidden) (Err forbidden_error)
  | agree_failed e :
      agree request (Err (core_error_to_http e))
        (Ok (failure_answer request (call_error_of_core e)))
  | agree_flush_failed text : request = RpcFlushdb →
      agree request (Err (HInternal text)) (Ok (AOk (fill_ok_failure CodeInternal text)))
  | agree_rewrite_failed e text : request = RpcConfigRewrite →
      e = HBadRequest text ∨ e = HInternal text →
      agree request (Err e) (Ok (AOk (fill_ok_failure CodeInternal (rpc_error_text text))))
  | agree_no_command text : (∃ seconds command, request = RpcTimeout seconds command) →
      agree request (Err (HBadRequest text)) (Ok (AOk (fill_ok_failure CodeBadRequest text)))
  | agree_panicked : is_query request = true →
      agree request (Err (HInternal "native executor task panicked"))
        (Ok (failure_answer request panic_error))
  | agree_behind : is_query request = true →
      agree request (Err catching_up) (Ok (failure_answer request behind_error))
  | agree_unhealthy : request = RpcHealthz →
      agree request (Err catching_up) (Err "catching up to leader")
  | agree_unlisted : (∃ pattern, request = RpcCollections pattern) →
      agree request (Err catching_up) (Err forbidden_error).

(** Both interfaces leave the same data and answer alike. *)
Definition agrees (request : RpcRequest) (h : HttpState (S := S) * result HttpBody HttpError)
    (r : RpcState (S := S) * result RpcAnswer CapnpError) : Prop :=
  same_data h.1 (rpc_server r.1) ∧ agree request h.2 r.2.

(** ** Steps *)

Section Steps.
Context (p : AuthPrincipal) (rq : Incoming) (st : RpcState (S := S)).
Hypothesis Hsession : session_principal st = Ok p.
Hypothesis Hcached : in_cached rq = Some p.

Lemma authenticated_cached (server : HttpState (S := S)) : authenticated rq server = (server, Ok p).
Proof.
  unfold authenticated, authenticate_headers. rewrite Hcached. by destruct server.
Qed.

Lemma permit_cached a n (server : HttpState (S := S)) :
  permit rq a n server = (server, if allows p a n then Ok p else Err HForbidden).
Proof.
  unfold permit, hbind. rewrite authenticated_cached.
  unfold hlift, ensure_collection_action, hret. by destruct (allows p a n).
Qed.

Lemma permit_admin_cached (server : HttpState (S := S)) :
  permit_admin rq server =
  (server, if allows_global p AdminAll then Ok p else Err HForbidden).
Proof.
  unfold permit_admin, hbind. rewrite authenticated_cached.
  unfold hlift, ensure_admin, ensure_global_action, hret. by destruct (allows_global p AdminAll).
Qed.

Lemma ensure_session a n :
  rpc_ensure_collection_action a n st = (st, if allows p a n then Ok p else Err forbidden_error).
Proof.
  unfold rpc_ensure_collection_action, ensure_authenticated, cbind. rewrite Hsession.
  unfold cret, cfail. by destruct (allows p a n).
Qed.

Lemma ensure_global_session a :
  rpc_ensure_global_action a st = (st, if allows_global p a then Ok p else Err forbidden_error).
Proof.
  unfold rpc_ensure_global_action, ensure_authenticated, cbind. rewrite Hsession.
  unfold cret, cfail. by destruct (allows_global p a).
Qed.

(** What follows a write: it answers and keeps the data. *)
Definition concludes {A} (g : A → H (S := S) HttpBody) (body : A → HttpBody) : Prop :=
  ∀ a server, same_data server (g a server).1 ∧ (g a server).2 = Ok (body a).

Lemma concludes_if {A} (f : A → bool) (body : A → HttpBody) :
  concludes (λ a, hbind (notify_if (f a)) (λ _, hret (body a))) body.
Proof. intros a server. by destruct (f a). Qed.

Lemma concludes_both {A} (body : A → HttpBody) :
  concludes (λ a, hbind notify_both (λ _, hret (body a))) body.
Proof. intros a server. done. Qed.

(** The answers of a call after the engine's result. *)
Definition answers {A} (request : RpcRequest) (body : A → HttpBody)
    (f : result A CallError → RpcAnswer) : Prop :=
  (∀ a, reports request (body a) (f (Ok a))) ∧ (∀ e, f (Err e) = failure_answer request e).

Lemma mutating_run {A} (op : M (S := S) A) :
  ∃ server, run_core_mutating op st =
    (set_server st server, Ok (map_err call_error_of_core (op (hs_db (rpc_server st))).2)) ∧
    hs_db server = (op (hs_db (rpc_server st))).1 ∧ same_settings (rpc_server st) server.
Proof.
  unfold run_core_mutating, run_core, cbind. destruct (op (hs_db (rpc_server st))) as [db [a|e]];
    eexists; (split; [reflexivity|done]).
Qed.

(** The same operation behind the same permission. *)
Lemma agrees_write {A} request (op : M (S := S) A) (g : A → H HttpBody) (body : A → HttpBody)
    (f : result A CallError → RpcAnswer) :
  concludes g body → answers request body f →
  agrees request (hbind (run_db op) g (rpc_server st))
         (cbind (run_core_mutating op) (λ r, cret (f r)) st).
Proof.
  intros Hg [Hf Hfe]. unfold hbind, run_db, cbind.
  destruct (mutating_run op) as (server & -> & Hdb & Hs).
  destruct (op (hs_db (rpc_server st))) as [db [a|e]]; cbn [fst snd map_err] in *.
  - destruct (Hg a (set_db (rpc_server st) db)) as [[Hdb' Hs'] Hb].
    split; [|cbn [snd cret]; rewrite Hb; apply agree_done, Hf].
    unfold same_data, same_settings in *. cbn in *. intuition congruence.
  - split; [by rewrite <-Hdb|]. cbn [snd cret]. rewrite Hfe. apply agree_failed.
Qed.

Lemma agrees_permit {A} request a n (op : M (S := S) A) (g : A → H HttpBody) (body : A → HttpBody)
    (f : result A CallError → RpcAnswer) (k : AuthPrincipal → C RpcAnswer) :
  concludes g body → answers request body f →
  (∀ q, k q st = cbind (run_core_mutating op) (λ r, cret (f r)) st) →
  agrees request (hbind (permit rq a n) (λ _, hbind (run_db op) g) (rpc_server st))
         (cbind (rpc_ensure_collection_action a n) k st).
Proof.
  intros Hg Hf Hk. unfold hbind at 1. unfold cbind at 1. rewrite permit_cached, ensure_session.
  destruct (allows p a n); [rewrite Hk; by eapply agrees_write|]. split; [done|apply agree_forbidden].
Qed.

(** A read once the permissions are checked. *)
Lemma agrees_read {A} request (op : M (S := S) A) (body : A → HttpBody)
    (f : result A CallError → RpcAnswer) :
  is_query request = true → answers request body f →
  agrees request
    (hbind ensure_queries_allowed (λ _, hbind (run_db op) (λ a, hret (body a))) (rpc_server st))
    (cbind (run_core_read (run_core op)) (λ r, cret (f r)) st).
Proof.
  intros Hq [Hf Hfe].
  assert (agrees request (hbind (run_db op) (λ a, hret (body a)) (rpc_server st))
            (cbind (run_core op) (λ r, cret (f r)) st)) as Hrun.
  { unfold hbind, cbind, run_db, run_core. destruct (op _) as [db [a|e]]; (split; [done|]); cbn;
      [apply agree_done, Hf | rewrite Hfe; apply agree_failed]. }
  revert Hrun. unfold run_core_read, rpc_queries_allowed, hbind, cbind.
  unfold ensure_queries_allowed, replication_snapshot.
  destruct (hs_replication_status (rpc_server st)) as [status|]; [|done].
  destruct (queries_allowed status); [done|]. intros _. split; [done|]. cbn. rewrite Hfe.
  by apply agree_behind.
Qed.

Lemma agrees_permit_read {A} request a n (op : M (S := S) A) (body : A → HttpBody)
    (f : result A CallError → RpcAnswer) (k : AuthPrincipal → C RpcAnswer) :
  is_query request = true → answers request body f →
  (∀ q, k q st = cbind (run_core_read (run_core op)) (λ r, cret (f r)) st) →
  agrees request
    (hbind (permit rq a n) (λ _, hbind ensure_queries_allowed
       (λ _, hbind (run_db op) (λ a, hret (body a)))) (rpc_server st))
    (cbind (rpc_ensure_collection_action a n) k st).
Proof.
  intros Hq Hf Hk. unfold hbind at 1. unfold cbind at 1. rewrite permit_cached, ensure_session.
  destruct (allows p a n); [rewrite Hk; by apply agrees_read|]. split; [done|apply agree_forbidden].
Qed.

(** A query behind the same permission. *)
Definition is_search (request : RpcRequest) : bool :=
  match request with
  | RpcNearby _ | RpcWithin _ | RpcIntersects _ | RpcScan _ | RpcSearch _ => true
  | _ => false
  end.

Lemma agrees_search request n (op : bool → LatLng S → option (result SearchResults CoreError))
    (k : AuthPrincipal → C RpcAnswer) :
  is_search request = true → (∀ q, k q st = run_search op st) →
  agrees request (search_with rq n op (rpc_server st))
         (cbind (rpc_ensure_collection_action QueriesRead n) k st).
Proof.
  intros Hreq Hk. unfold search_with. unfold hbind at 1. unfold cbind at 1.
  rewrite permit_cached, ensure_session.
  assert (is_query request = true) as Hq by (by destruct request).
  assert (∀ r, reports request (BResults r) (search_answer (Ok r))) as Hrep
    by (destruct request; try done; by eexists).
  assert (∀ e, search_answer (Err e) = failure_answer request e) as Hfail
    by (by destruct request).
  destruct (allows p QueriesRead n); [|split; [done|apply agree_forbidden]]. rewrite Hk.
  unfold run_search, run_core_read, rpc_queries_allowed, cget, hget, hbind, cbind.
  unfold ensure_queries_allowed, replication_snapshot.
  assert (agrees request
    (match run_query (op (hs_parallel (rpc_server st))) (rpc_server st) with
     | (st', Ok a) => hret (BResults a) st'
     | (st', Err e) => (st', Err e)
     end)
    (match run_core_query (op (hs_parallel (rpc_server st))) st with
     | (st', Ok a) => cret (search_answer a) st'
     | (st', Err e) => (st', Err e)
     end)) as Hrun.
  { unfold run_query, run_core_query.
    destruct (op _ _) as [[r|e]|]; (split; [done|]); cbn [fst snd map_err cret hret];
      [apply agree_done, Hrep | rewrite Hfail; apply agree_failed
      | rewrite Hfail; by apply agree_panicked]. }
  destruct (hs_replication_status (rpc_server st)) as [status|]; [|exact Hrun].
  destruct (queries_allowed status); [exact Hrun|]. split; [done|]. cbn [fst snd cret].
  rewrite Hfail. by apply agree_behind.
Qed.

(** An object. *)
Lemma parse_named format prec :
  parse_output_format (Some (format_name format)) (Some (precision_of prec)) =
  Ok (output_format_from_capnp format prec).
Proof. by destruct format. Qed.

Lemma agrees_get c req n i :
  read_text (gm_collection req) = Ok n → read_text (gm_id req) = Ok i →
  in_clock rq = call_clock c →
  agrees (RpcGet (Ok req)) (handle_get_object rq n i (Some (gm_with_fields req))
            (Some (format_name (known_or OutObjects (gm_output req))))
            (Some (precision_of (gm_hash_prec req))) (rpc_server st))
         (rpc_get c (Ok req) st).
Proof.
  intros Hn Hi Hclock. unfold rpc_get, handle_get_object. unfold hbind at 1, clift.
  unfold cbind at 1 2 3. rewrite Hn, Hi. unfold cbind at 1.
  rewrite permit_cached, ensure_session.
  destruct (allows p ObjectsRead n); [|split; [done|apply agree_forbidden]].
  rewrite parse_named, Hclock. set (op := op_get _ _ _ _ _).
  assert (agrees (RpcGet (Ok req))
    (match run_db op (rpc_server st) with
     | (st', Ok (Some o)) => hret (BObject o) st'
     | (st', Ok None) => hfail (HNotFound ("object not found: " +:+ n +:+ "/" +:+ i)) st'
     | (st', Err e) => (st', Err e)
     end)
    (match run_core op st with
     | (st', Ok a) => cret match a with
                           | Ok (Some object) =>
                               AGet (fill_search_item_from_object object) (fill_ok_response true "")
                           | Ok None => AGet empty_result (not_found "not found")
                           | Err e => AGet empty_result (fill_ok_error e)
                           end st'
     | (st', Err e) => (st', Err e)
     end)) as Hrun.
  { unfold run_db, run_core. destruct (op _) as [db [[o|]|e]]; (split; [done|]); cbn;
      [apply agree_done; by eexists | apply agree_missing; by eexists
      | apply (agree_failed (RpcGet (Ok req)))]. }
  unfold run_core_read, rpc_queries_allowed, hbind, cbind.
  unfold ensure_queries_allowed, replication_snapshot.
  destruct (hs_replication_status (rpc_server st)) as [status|];
    [destruct (queries_allowed status); [|split; [done|by apply (agree_behind (RpcGet (Ok req)))]]|];
    cbn [hlift]; change (run_db _ (rpc_server st)) with (run_db op (rpc_server st));
    revert Hrun; by destruct (run_db op (rpc_server st)) as [server [[o|]|e]].
Qed.

(** Renaming asks for two permissions. *)
Lemma agrees_rename request c n n' nx f tn tn' :
  read_text tn = Ok n → read_text tn' = Ok n' → in_clock rq = call_clock c →
  answers request (λ v, ok_body [("renamed", json_bool v)]) f →
  agrees request (handle_rename rq n n' (Some nx) (rpc_server st))
         (cbind (rename_names tn tn')
            (λ names, cbind (run_core_mutating (rename_inner (call_clock c) names.1 names.2 nx))
                        (λ r, cret (f r))) st).
Proof.
  intros Hn Hn' Hclock Hf. unfold handle_rename, rename_names. unfold hbind at 1.
  rewrite authenticated_cached. unfold hlift at 1, ensure_collection_action at 1.
  unfold cbind at 1, cbind at 1, clift. rewrite Hn. unfold cbind at 1. rewrite Hn'.
  unfold cbind at 1. rewrite ensure_session. unfold hbind at 1.
  destruct (allows p CollectionsDelete n); [|split; [done|apply agree_forbidden]].
  unfold cbind at 1. rewrite ensure_session. unfold hbind at 1, hlift, ensure_collection_action.
  destruct (allows p CollectionsCreate n'); [|split; [done|apply agree_forbidden]].
  cbn [cret fst snd default]. rewrite Hclock. eapply agrees_write; [apply concludes_if|done].
Qed.

(** Deleting asks for the permission on what is there. *)
Lemma agrees_owner {A} request a (owner : option string) (hcheck : H (S := S) unit)
    (op : M (S := S) A) (g : A → H HttpBody) (body : A → HttpBody)
    (f : result A CallError → RpcAnswer) :
  (∀ server, hcheck server =
     (server, if from_option (allows p a) true owner then Ok tt else Err HForbidden)) →
  concludes g body → answers request body f →
  agrees request (hbind hcheck (λ _, hbind (run_db op) g) (rpc_server st))
         (cbind (ensure_owner a owner) (λ _, cbind (run_core_mutating op) (λ r, cret (f r))) st).
Proof.
  intros Hcheck Hg Hf. unfold hbind at 1. rewrite Hcheck. unfold cbind at 1, ensure_owner.
  destruct owner as [n|]; cbn [from_option]; [|by eapply agrees_write].
  unfold cbind at 1. rewrite ensure_session.
  destruct (allows p a n); [by eapply agrees_write|]. split; [done|apply agree_forbidden].
Qed.

Lemma agrees_delchan c n tn : read_text tn = Ok n → in_clock rq = call_clock c →
  agrees (RpcDelchan tn) (handle_delchan rq n (rpc_server st)) (rpc_delchan c tn st).
Proof.
  intros Hn Hclock. unfold handle_delchan, rpc_delchan. unfold hbind at 1.
  rewrite authenticated_cached. unfold hget. unfold hbind at 1. rewrite Hclock.
  unfold cbind at 1, clift. rewrite Hn. unfold cbind at 1, run_value.
  replace (set_server st (set_db (rpc_server st) (hs_db (rpc_server st)))) with st
    by (by destruct st as [[]]).
  eapply agrees_owner; [|apply concludes_if|by split; [intros []; by eexists|]].
  intros server. unfold channel_home.
  destruct (channel_def _ n); cbn; [|done].
  unfold hlift, ensure_collection_action. by destruct (allows _ _ _).
Qed.

Lemma agrees_delhook c n tn : read_text tn = Ok n → in_clock rq = call_clock c →
  agrees (RpcDelhook tn) (handle_delhook rq n (rpc_server st)) (rpc_delhook c tn st).
Proof.
  intros Hn Hclock. unfold handle_delhook, rpc_delhook. unfold hbind at 1.
  rewrite authenticated_cached. unfold hget. unfold hbind at 1. rewrite Hclock.
  unfold cbind at 1, clift. rewrite Hn. unfold cbind at 1, run_value.
  replace (set_server st (set_db (rpc_server st) (hs_db (rpc_server st)))) with st
    by (by destruct st as [[]]).
  eapply agrees_owner; [|apply concludes_if|by split; [intros []; by eexists|]].
  intros server. unfold hook_home.
  destruct (hook_def _ n); cbn; [|done].
  unfold hlift, ensure_collection_action. by destruct (allows _ _ _).
Qed.

(** Administration. *)
Lemma agrees_flushdb c : in_clock rq = call_clock c →
  agrees RpcFlushdb (handle_flushdb rq (rpc_server st)) (rpc_flushdb c st).
Proof.
  intros Hclock. unfold handle_flushdb, rpc_flushdb. unfold hbind at 1. unfold cbind at 1.
  rewrite permit_admin_cached, ensure_global_session.
  destruct (allows_global p AdminAll); [|split; [done|apply agree_forbidden]].
  rewrite Hclock. unfold hget, flush_server, cget, hbind, cbind.
  destruct (hs_flushdb_coordinator (rpc_server st)) as [epoch|].
  - unfold on_server, flush_with_coordinator.
    destruct (coordinator_flushdb _ _) as [o [[]|e]]; (split; [done|]); cbn;
      [by apply agree_done | by apply agree_flush_failed].
  - destruct (mutating_run (op_flushdb (call_clock c))) as (server & Hrun & Hdb & Hs).
    rewrite Hrun. unfold run_db.
    destruct (op_flushdb (call_clock c) (hs_db (rpc_server st))) as [db [[]|e]]; cbn in *;
      (split; [by rewrite <-Hdb|]); [by apply agree_done | apply (agree_failed RpcFlushdb)].
Qed.

Lemma agrees_readonly c enabled :
  agrees (RpcReadonly (Ok enabled)) (handle_readonly rq enabled (rpc_server st))
    (rpc_readonly c (Ok enabled) st).
Proof.
  unfold handle_readonly, rpc_readonly. unfold hbind at 1. unfold cbind at 1.
  rewrite permit_admin_cached, ensure_global_session.
  destruct (allows_global p AdminAll); [|split; [done|apply agree_forbidden]].
  split; [done|]. apply agree_done. by split; [eexists|].
Qed.

Lemma agrees_config_set c name value : read_text name = Ok "readonly" →
  ∀ v, read_text value = Ok v →
  agrees (RpcConfigSet name value) (handle_config_set rq "readonly" v (rpc_server st))
    (rpc_config_set c name value st).
Proof.
  intros Hn v Hv. unfold handle_config_set, rpc_config_set. unfold hbind at 1. unfold cbind at 1.
  rewrite permit_admin_cached, ensure_global_session.
  destruct (allows_global p AdminAll); [|split; [done|apply agree_forbidden]].
  unfold cbind at 1 2, clift. rewrite Hn, Hv. split; [done|]. by apply agree_done.
Qed.

Lemma agrees_config_get c name : read_text name = Ok "readonly" →
  agrees (RpcConfigGet name) (handle_config_get rq "readonly" (rpc_server st))
    (rpc_config_get c name st).
Proof.
  intros Hn. unfold handle_config_get, rpc_config_get. unfold hbind at 1. unfold cbind at 1.
  rewrite permit_admin_cached, ensure_global_session.
  destruct (allows_global p AdminAll); [|split; [done|apply agree_forbidden]].
  unfold cbind at 1, clift. rewrite Hn. split; [done|]. apply agree_done. by eexists.
Qed.

Lemma agrees_config_rewrite c : in_faults rq = call_faults c →
  agrees RpcConfigRewrite (handle_config_rewrite rq (rpc_server st)) (rpc_config_rewrite c st).
Proof.
  intros Hfaults. unfold handle_config_rewrite, rpc_config_rewrite. unfold hbind at 1.
  unfold cbind at 1. rewrite permit_admin_cached, ensure_global_session.
  destruct (allows_global p AdminAll); [|split; [done|apply agree_forbidden]].
  unfold hget, hbind, cbind, capnp_rewrite_runtime_config, rewrite_runtime_config.
  destruct (hs_runtime_config (rpc_server st)) as [rc|];
    [|split; [done|]; apply agree_rewrite_failed; [done|by left]].
  destruct (rc_config_path rc) as [path|];
    [|split; [done|]; apply agree_rewrite_failed; [done|by left]].
  rewrite Hfaults. destruct (save_to_path _ _ _ _) as [files [u|e]]; (split; [done|]); cbn.
  - by apply agree_done.
  - apply agree_rewrite_failed; [done|by right].
Qed.

Lemma agrees_gc c : in_clock rq = call_clock c →
  agrees RpcGc (handle_gc rq (rpc_server st)) (rpc_gc c st).
Proof.
  intros Hclock. unfold handle_gc, rpc_gc. unfold hbind at 1. unfold cbind at 1.
  rewrite permit_admin_cached, ensure_global_session.
  destruct (allows_global p AdminAll); [|split; [done|apply agree_forbidden]].
  rewrite Hclock. split; [done|]. by apply agree_done.
Qed.

Lemma agrees_timeout c seconds command text : read_text command = Ok text →
  agrees (RpcTimeout seconds command) (handle_timeout rq seconds text (rpc_server st))
    (rpc_timeout c seconds command st).
Proof.
  intros Hn. unfold handle_timeout, rpc_timeout. unfold hbind at 1. unfold cbind at 1.
  rewrite permit_admin_cached, ensure_global_session.
  destruct (allows_global p AdminAll); [|split; [done|apply agree_forbidden]].
  unfold cbind at 1, clift. rewrite Hn. unfold hbind at 1.
  destruct (String.eqb (trim text) "");
    [split; [done|]; apply agree_no_command; by do 2 eexists|].
  destruct (SFleb seconds fzero); (split; [done|]); apply agree_done; (split; [|done]); by do 2 eexists.
Qed.

Lemma agrees_aofshrink c : in_clock rq = call_clock c →
  hs_webhook_queue (rpc_server st) = None →
  agrees RpcAofshrink (handle_aofshrink rq (rpc_server st)) (rpc_aofshrink c st).
Proof.
  intros Hclock Hq. unfold handle_aofshrink, rpc_aofshrink. unfold hbind at 1. unfold cbind at 1.
  rewrite permit_admin_cached, ensure_global_session.
  destruct (allows_global p AdminAll); [|split; [done|apply agree_forbidden]].
  unfold hget. unfold hbind at 1. rewrite Hq, Hclock. unfold hbind, cbind, run_db, run_core.
  destruct (op_aofshrink _ _) as [db [result|e]]; (split; [done|]).
  - apply agree_done. by split; [eexists|].
  - apply (agree_failed RpcAofshrink).
Qed.

(** Listings. *)
Lemma authenticated_session {A} (k : AuthPrincipal → C A) : cbind ensure_authenticated k st = k p st.
Proof. unfold cbind, ensure_authenticated. by rewrite Hsession. Qed.

Lemma agrees_collections c pattern text : read_text pattern = Ok text →
  agrees (RpcCollections pattern)
    (handle_collections rq (Some (default_glob text)) (rpc_server st)) (rpc_collections c pattern st).
Proof.
  intros Hn. unfold handle_collections, rpc_collections. unfold hbind at 1.
  rewrite authenticated_cached. unfold ensure_any_collection_permission.
  unfold cbind at 1. rewrite authenticated_session. rewrite orb_comm.
  unfold hbind, cbind, ensure_queries_allowed, replication_snapshot, clift, run_core_read,
    rpc_queries_allowed. rewrite Hn.
  destruct (any_collection_permission p CollectionsList || is_admin p) eqn:Hp.
  - assert (negb (any_collection_permission p CollectionsList) && negb (is_admin p) = false) as ->
      by (rewrite <-negb_orb, Hp; done).
    unfold cret at 1.
    destruct (hs_replication_status (rpc_server st)) as [status|];
      [destruct (queries_allowed status)|]; (split; [done|]);
      try (apply agree_done; by eexists).
    by apply (agree_behind (RpcCollections pattern)).
  - assert (negb (any_collection_permission p CollectionsList) && negb (is_admin p) = true) as ->
      by (rewrite <-negb_orb, Hp; done).
    destruct (hs_replication_status (rpc_server st)) as [status|];
      [destruct (queries_allowed status)|]; (split; [done|]);
      first [apply agree_forbidden | apply agree_unlisted; by eexists].
Qed.

Lemma agrees_chans c pattern text : read_text pattern = Ok text →
  agrees (RpcChans pattern)
    (handle_channels rq (Some (default_glob text)) (rpc_server st)) (rpc_chans c pattern st).
Proof.
  intros Hn. unfold handle_channels, rpc_chans. unfold hbind at 1.
  rewrite authenticated_cached, authenticated_session.
  unfold hbind, cbind, ensure_queries_allowed, replication_snapshot, clift, run_core_read,
    rpc_queries_allowed. rewrite Hn.
  destruct (hs_replication_status (rpc_server st)) as [status|];
    [destruct (queries_allowed status)|]; (split; [done|]);
    first [apply agree_done; by eexists | by apply (agree_behind (RpcChans pattern))].
Qed.

Lemma agrees_hooks c pattern text : read_text pattern = Ok text →
  agrees (RpcHooks pattern)
    (handle_hooks rq (Some (default_glob text)) (rpc_server st)) (rpc_hooks c pattern st).
Proof.
  intros Hn. unfold handle_hooks, rpc_hooks. unfold hbind at 1.
  rewrite authenticated_cached, authenticated_session.
  unfold hbind, cbind, ensure_queries_allowed, replication_snapshot, clift, run_core_read,
    rpc_queries_allowed. rewrite Hn.
  destruct (hs_replication_status (rpc_server st)) as [status|];
    [destruct (queries_allowed status)|]; (split; [done|]);
    first [apply agree_done; by eexists | by apply (agree_behind (RpcHooks pattern))].
Qed.

Lemma agrees_stats c names l n : names = Ok l → text_list_from_reader l = Ok [n] →
  in_clock rq = call_clock c →
  (∀ n v, db_collections (hs_db (rpc_server st)) !! n = Some v → name (collection v) = n) →
  agrees (RpcStats names) (handle_stats rq n (rpc_server st)) (rpc_stats c names st).
Proof.
  intros -> Hl Hclock Hnames. unfold handle_stats, rpc_stats. unfold hbind at 1.
  rewrite permit_cached, authenticated_session, Hclock. unfold cbind at 1 2, clift. rewrite Hl.
  unfold cbind at 1. cbn [ensure_each]. unfold cbind at 1. rewrite ensure_session.
  destruct (allows p CollectionsInspect n) eqn:Hp; [|split; [done|apply agree_forbidden]].
  unfold hbind, cbind, ensure_queries_allowed, replication_snapshot, clift, run_core_read,
    rpc_queries_allowed, cret.
  assert (∀ stats, (op_stats (call_clock c) [n] (hs_db (rpc_server st))).2 = Ok stats →
    filter (λ s, allows p CollectionsInspect (stats_name s) = true) stats = stats) as Hall.
  { intros stats [= <-]. cbn [omap list_omap].
    destruct (db_collections _ !! n) as [v|] eqn:Hv; cbn; [|done].
    by rewrite (Hnames n v Hv), Hp. }
  destruct (hs_replication_status (rpc_server st)) as [status|];
    [destruct (queries_allowed status)|]; (split; [done|]);
    first [ by apply (agree_behind (RpcStats (Ok l)))
          | apply agree_done; eexists; split; [reflexivity|];
            cbn [op_stats_of unwrap_or map_err]; f_equal; by apply Hall ].
Qed.

(** The server's own state. *)
Lemma agrees_ping c : agrees RpcPing (handle_ping rq (rpc_server st)) (rpc_ping c st).
Proof.
  unfold handle_ping, rpc_ping. unfold hbind. rewrite authenticated_cached, authenticated_session.
  split; [done|]. by apply agree_done.
Qed.

Lemma agrees_healthz c : agrees RpcHealthz (handle_healthz rq (rpc_server st)) (rpc_healthz c st).
Proof.
  unfold handle_healthz, rpc_healthz. unfold hbind.
  rewrite authenticated_cached, authenticated_session.
  unfold ensure_queries_allowed, rpc_ensure_queries_allowed, rpc_queries_allowed,
    replication_snapshot, cbind.
  destruct (hs_replication_status (rpc_server st)) as [status|];
    [destruct (queries_allowed status)|]; (split; [done|]);
    first [by apply agree_done | by apply agree_unhealthy].
Qed.

Lemma agrees_server c : in_clock rq = call_clock c →
  agrees RpcServer (handle_server rq (rpc_server st)) (rpc_server_method c st).
Proof.
  intros Hclock. unfold handle_server, rpc_server_method. unfold hbind at 1. unfold cbind at 1.
  rewrite permit_admin_cached, ensure_global_session.
  destruct (allows_global p AdminAll); [|split; [done|apply agree_forbidden]].
  unfold server_info. rewrite Hclock. split; [done|]. apply agree_done. by eexists.
Qed.

Lemma agrees_info c section text : in_clock rq = call_clock c → read_text section = Ok text →
  String.eqb text "" || String.eqb text "server" = true →
  agrees (RpcInfo section) (handle_info rq (Some text) (rpc_server st)) (rpc_info c section st).
Proof.
  intros Hclock Hn Hsec. unfold handle_info, rpc_info. unfold hbind at 1. unfold cbind at 1.
  rewrite permit_admin_cached, ensure_global_session.
  destruct (allows_global p AdminAll); [|split; [done|apply agree_forbidden]].
  unfold cbind at 1, clift. rewrite Hn. unfold server_info. rewrite Hclock.
  unfold hbind, cbind. change (default "server" (Some text)) with text. rewrite Hsec.
  split; [done|]. apply agree_done. by eexists.
Qed.

End Steps.

(** A field that can be read. *)
Lemma readable_step {A B} (r : result A CapnpError) a (k : A → C (S := S) B) st :
  r = Ok a → cbind (clift r) k st = k a st.
Proof. by intros ->. Qed.

Ltac reading := repeat (erewrite readable_step by first [eassumption | reflexivity]).

(** The answers of the methods that share a shape. *)
Ltac answering :=
  split; [let v := fresh "v" in intros v; cbn; unfold flagged, answer_ok;
          first [ solve [repeat first [done | eexists | split]]
                | destruct v; repeat first [done | eexists | split] ]
         | done].

Lemma agrees_handle c rq request h p st :
  http_of request = Some h → comparable request (rpc_server st) →
  session_principal st = Ok p → in_cached rq = Some p →
  in_clock rq = call_clock c → in_faults rq = call_faults c →
  agrees request (handle rq h (rpc_server st)) (rpc_handle c request st).
Proof.
  intros Hh%rok_Some Hcomp Hs Hc Hclock Hfaults.
  destruct request; try discriminate Hh;
    repeat match goal with
    | H : rbind _ _ = Ok _ |- _ => apply rbind_Ok_inv in H as (? & ? & ?)
    | H : (if String.eqb ?x "readonly" then _ else _) = Ok _ |- _ =>
        destruct (String.eqb_spec x "readonly") as [->|]; [|discriminate H]
    | H : (if ?b then Ok (GetInfo _) else _) = Ok _ |- _ =>
        destruct b eqn:?; [|discriminate H]
    | H : match ?l with [] => _ | _ => _ end = Ok (_ : HttpRequest) |- _ =>
        destruct l as [|? [|]]; try discriminate H
    end; simplify_eq; cbn [handle rpc_handle];
    try solve [ eauto using agrees_get, agrees_delchan, agrees_delhook, agrees_flushdb,
                  agrees_readonly, agrees_config_set, agrees_config_get, agrees_config_rewrite,
                  agrees_gc, agrees_timeout, agrees_aofshrink, agrees_collections, agrees_chans,
                  agrees_hooks, agrees_stats, agrees_ping, agrees_healthz, agrees_server,
                  agrees_info
              | eapply agrees_rename; eauto; answering ].
  all: unfold handle_set_object, handle_delete_object, handle_delete_matching_objects,
    handle_drop_collection, handle_fset, handle_expire, handle_persist, handle_jset, handle_jdel,
    handle_nearby, handle_within, handle_intersects, handle_scan, handle_search, handle_setchan,
    handle_sethook, handle_fget, handle_ttl, handle_jget, handle_bounds, rpc_set, rpc_del,
    rpc_pdel, rpc_drop, rpc_fset, rpc_expire, rpc_persist, rpc_jset, rpc_jdel, rpc_nearby,
    rpc_within, rpc_intersects, rpc_scan, rpc_search, rpc_setchan, rpc_sethook, rpc_fget, rpc_ttl,
    rpc_jget, rpc_bounds; rewrite ?Hclock; reading.
  all: first
    [ by (eapply agrees_search; [done..|]; intros q; reading; reflexivity)
    | eapply agrees_permit; [done|done|first [apply concludes_if | apply concludes_both]|
        |intros q; reading; reflexivity]; answering
    | eapply agrees_permit_read; [done|done|done| |intros q; reading; reflexivity] ].
  all: split; [|done]; intros v; exists v;
    first [ by destruct v | eexists; split; [eassumption|]; by destruct v ].
Qed.


End Agreement.
