(* ===== verification/CapnpAuth.v ===== *)
(** * What a session may change

    A call changes only what the principal of its session may change, and a
    session without a principal changes no collection, channel, hook, setting
    or file. *)

From Stdlib Require Import ZArith Lia SpecFloat.
From stdpp Require Import base gmap strings list sorting pretty.
From S2P Require Import Prelude Storage F64 Json Platform Geo Strings Index Geofence.
From S2P Require Import Collection CollectionSpec Engine EngineSpec Queries WebhookQueue Outbox.
From S2P Require Import Replication Auth AuthSpec Config Metrics Http HttpFrame HttpSpec.
From S2P Require Import CapnpCodec Capnp CapnpSpec.

Section Sessions.
Context `{LM : Libm} `{GC : GeoCrate} `{RC : RTreeCrate} `{JT : JsonText} `{PT : Patterns}
  `{HO : HashOrder} `{LC : LogCodec} `{MD : Md5} `{B64 : Base64} `{EC : EventCodec}
  `{SN : SelectNth} `{JW : JwtCrate} `{CT : ConfigText} `{CX : CapnpTexts}.
Context {S : Type} `{SB : StorageBackend S}.

Notation Rpc := (RpcState (S := S)).

(** ** Deleting by pattern *)

(** Deleting the channels of a pattern does nothing else. *)
Definition only_channels (pattern : string) (db db' : LatLng S) : Prop :=
  db_collections db' = db_collections db ∧ db_config db' = db_config db ∧
  (∀ n, hook_def (db_geofences db') n = hook_def (db_geofences db) n) ∧
  (∀ n, channel_def (db_geofences db') n = channel_def (db_geofences db) n ∨
        glob_match pattern n ∧ channel_def (db_geofences db') n = None).
Definition only_hooks (pattern : string) (db db' : LatLng S) : Prop :=
  db_collections db' = db_collections db ∧ db_config db' = db_config db ∧
  (∀ n, channel_def (db_geofences db') n = channel_def (db_geofences db) n) ∧
  (∀ n, hook_def (db_geofences db') n = hook_def (db_geofences db) n ∨
        glob_match pattern n ∧ hook_def (db_geofences db') n = None).

Lemma outside_nothing_eq (db db' : LatLng S) : outside (nothing) db db' →
  db_collections db' = db_collections db ∧ db_config db' = db_config db ∧
  (∀ n, hook_def (db_geofences db') n = hook_def (db_geofences db) n) ∧
  (∀ n, channel_def (db_geofences db') n = channel_def (db_geofences db) n).
Proof.
  intros (Hc & [Hch Hhk] & Hcfg). split_and!; [|done|intros n; apply Hhk; set_solver
    |intros n; apply Hch; set_solver]. apply map_eq. intros n. apply Hc. set_solver.
Qed.

Lemma drop_matching_lookup {A} pattern (m : gmap string A) n :
  drop_matching pattern m !! n = m !! n ∨
  glob_match pattern n ∧ drop_matching pattern m !! n = None.
Proof.
  unfold drop_matching. destruct (decide (glob_match pattern n)) as [Hg|Hg].
  - right. split; [done|]. apply map_lookup_filter_None. right. by intros x _ [].
  - left. destruct (m !! n) as [x|] eqn:Hx.
    + by apply map_lookup_filter_Some.
    + apply map_lookup_filter_None. by left.
Qed.

Lemma pdelchan_only clock pattern (db : LatLng S) : only_channels pattern db (op_pdelchan clock pattern db).1.
Proof.
  pattern (op_pdelchan clock pattern db).1. set (Q := λ db', _).
  assert (∀ db', outside nothing db db' → Q db') as Hstop.
  { intros db' (H1 & H2 & H3 & H4)%outside_nothing_eq. split_and!; eauto. }
  unfold op_pdelchan. apply (frames_then db); [by apply frames_quiet|done| |apply outside_refl].
  intros _. apply (frames_then db); [apply frames_record|done|]. intros _ db1 Hdb.
  apply outside_nothing_eq in Hdb as (H1 & H2 & H3 & H4). unfold mbind, mget.
  destruct (pdel_channel_defs (db_geofences db1) pattern) as [Hc Hh].
  destruct (pdel_channel (db_geofences db1) pattern) as [r k]. cbn in *.
  split_and!; [done|done| |]; intros n; cbn; [rewrite <-H3|rewrite <-H4].
  - unfold hook_def. by rewrite Hh.
  - unfold channel_def. rewrite Hc. destruct (drop_matching_lookup pattern (channels (db_geofences db1)) n)
      as [-> | [? ->]]; eauto.
Qed.

Lemma pdelhook_only clock pattern (db : LatLng S) : only_hooks pattern db (op_pdelhook clock pattern db).1.
Proof.
  pattern (op_pdelhook clock pattern db).1. set (Q := λ db', _).
  assert (∀ db', outside nothing db db' → Q db') as Hstop.
  { intros db' (H1 & H2 & H3 & H4)%outside_nothing_eq. split_and!; eauto. }
  unfold op_pdelhook. apply (frames_then db); [by apply frames_quiet|done| |apply outside_refl].
  intros _. apply (frames_then db); [apply frames_record|done|]. intros _ db1 Hdb.
  apply outside_nothing_eq in Hdb as (H1 & H2 & H3 & H4). unfold mbind, mget.
  destruct (pdel_hook_defs (db_geofences db1) pattern) as [Hh Hc].
  destruct (pdel_hook (db_geofences db1) pattern) as [r k]. cbn in *.
  split_and!; [done|done| |]; intros n; cbn; [rewrite <-H4|rewrite <-H3].
  - unfold channel_def. by rewrite Hc.
  - unfold hook_def. rewrite Hh. destruct (drop_matching_lookup pattern (hooks (db_geofences db1)) n)
      as [-> | [? ->]]; eauto.
Qed.

(** What the listings hold. *)
Lemma channel_listed r pattern n d :
  glob_match pattern n → channel_def r n = Some d →
  d ∈ omap (channel_def r) (channel_names r pattern).
Proof.
  intros Hg Hd. apply list_elem_of_omap. exists n. split; [|done].
  apply list_elem_of_filter. split; [done|]. unfold channel_def in Hd.
  destruct (channels r !! n) as [ch|] eqn:Hn; [|done]. apply list_elem_of_fmap. exists (n, ch).
  split; [done|]. by apply elem_of_btree_iter.
Qed.

Lemma hook_listed r pattern n d :
  glob_match pattern n → hook_def r n = Some d →
  ∃ info, info ∈ hook_infos r pattern ∧ info_collection info = def_collection (hook_fence d).
Proof.
  intros Hg Hd. unfold hook_def in Hd. destruct (hooks r !! n) as [h|] eqn:Hn; [|done].
  simplify_eq/=. exists (mkHookInfo n (endpoint h) (def_collection (hook_def_of h))).
  split; [|done]. apply list_elem_of_fmap. exists (n, h). split; [done|].
  apply list_elem_of_filter. split; [done|]. by apply elem_of_btree_iter.
Qed.

(** ** Calls that keep all data *)

Definition csilent {A} (m : C (S := S) A) : Prop :=
  ∀ st, same_data (rpc_server st) (rpc_server (m st).1).

Lemma csilent_bind {A B} (m : C A) (k : A → C B) :
  csilent m → (∀ a, csilent (k a)) → csilent (cbind m k).
Proof.
  intros Hm Hk st. unfold cbind. specialize (Hm st).
  destruct (m st) as [st1 [a|e]]; [|done]. by eapply same_data_trans, Hk.
Qed.

Lemma csilent_core {A} (op : M (S := S) A) : (∀ db, (op db).1 = db) → csilent (run_core op).
Proof.
  intros Hop st. unfold run_core. specialize (Hop (hs_db (rpc_server st))).
  destruct (op (hs_db (rpc_server st))) as [db r]. simpl in *. by subst.
Qed.

Lemma csilent_core_read {A} (m : C (result A CallError)) : csilent m → csilent (run_core_read m).
Proof. intros Hm st. unfold run_core_read. by destruct (rpc_queries_allowed st). Qed.

Lemma csilent_authenticate c token : csilent (session_authenticate c token).
Proof. intros st. unfold session_authenticate. by destruct (authenticate _ _ _). Qed.

Lemma csilent_replication credential : csilent (ensure_replication_authorized credential).
Proof.
  intros st. unfold ensure_replication_authorized. destruct (hs_runtime_config _); [|done].
  by case_bool_decide.
Qed.

Create HintDb csilent discriminated.
#[local] Hint Resolve csilent_authenticate csilent_replication get_same jget_same bounds_same
  : csilent.

Ltac csilently :=
  repeat first
    [ solve [eauto with csilent nocore]
    | progress intros
    | match goal with
      | |- csilent (cbind _ _) => apply csilent_bind
      | |- csilent (run_core_read _) => apply csilent_core_read
      | |- csilent (run_core _) => apply csilent_core
      | |- csilent (match ?x with _ => _ end) => destruct x
      | |- csilent (if ?x then _ else _) => destruct x
      end
    | solve [reflexivity]
    | solve [intros ?; reflexivity]
    | solve [intros ?; repeat split] ].

Lemma csilent_each action l : csilent (ensure_each (S := S) action l).
Proof.
  induction l; cbn [ensure_each]; unfold rpc_ensure_collection_action; csilently.
Qed.

Lemma stats_of_same clock l (db : LatLng S) : (op_stats_of clock l db).1 = db.
Proof. by destruct l. Qed.

#[local] Hint Resolve csilent_each stats_of_same : csilent.

(** The calls that never change data. *)
Definition rpc_is_read (request : RpcRequest) : bool :=
  match request with
  | RpcGet _ | RpcFget _ _ _ | RpcTtl _ _ | RpcExists _ _ | RpcFexists _ _ _ | RpcBounds _
  | RpcCollections _ | RpcStats _ | RpcJget _ _ _ | RpcNearby _ | RpcWithin _ | RpcIntersects _
  | RpcScan _ | RpcSearch _ | RpcChans _ | RpcHooks _ | RpcPing | RpcServer | RpcInfo _
  | RpcHealthz | RpcConfigGet _ | RpcAuth _ | RpcRole | RpcReplicationInfo _
  | RpcReplicationChecksum _ _ _ | RpcReplicationStream _ _ _ => true
  | _ => false
  end.

Lemma csilent_reads c request : rpc_is_read request = true → csilent (rpc_handle c request).
Proof.
  destruct request; intros Hr; try discriminate Hr; cbn [rpc_handle];
    unfold rpc_get, rpc_fget, rpc_ttl, rpc_exists, rpc_fexists, rpc_bounds, rpc_collections,
      rpc_stats, rpc_jget, rpc_nearby, rpc_within, rpc_intersects, rpc_scan, rpc_search, rpc_chans,
      rpc_hooks, rpc_ping, rpc_server_method, rpc_info, rpc_healthz, rpc_config_get, rpc_auth,
      rpc_role, rpc_replication_info, rpc_replication_checksum, rpc_replication_stream,
      rpc_server_info, call_try, run_search, rpc_ensure_global_action,
      rpc_ensure_collection_action, ensure_any_collection_permission; csilently.
Qed.

(** ** The claim *)

Definition rpc_acts (request : RpcRequest) : list (AuthAction * string) :=
  from_option acts [] (http_of request).

Lemma authorised_trans who granted (st st1 st2 : HttpState (S := S)) :
  authorised who granted st st1 → same_data st1 st2 → authorised who granted st st2.
Proof.
  intros [Hc Hch Hhk Hset] [Hdb (H1 & H2 & H3)]. split; rewrite Hdb; try done.
  intros Hne. apply Hset. intros [(Ha & Hb & Hd) He]. apply Hne. split; [|done].
  split_and!; congruence.
Qed.

Lemma read_cases {A B} (r : result A CapnpError) (k : A → C B) (st : Rpc) :
  cbind (clift r) k st = match r with Ok a => k a st | Err e => (st, Err e) end.
Proof. by destruct r. Qed.

Section Denied.
Context (st : Rpc) (e : CapnpError) (Hs : session_principal st = Err e).

Lemma denied_authenticated {A} (k : AuthPrincipal → C A) :
  cbind ensure_authenticated k st = (st, Err e).
Proof. unfold cbind, ensure_authenticated. by rewrite Hs. Qed.

Lemma denied_collection {A} a n (k : AuthPrincipal → C A) :
  cbind (rpc_ensure_collection_action a n) k st = (st, Err e).
Proof. unfold rpc_ensure_collection_action. unfold cbind at 1. by rewrite denied_authenticated. Qed.

Lemma denied_global {A} a (k : AuthPrincipal → C A) :
  cbind (rpc_ensure_global_action a) k st = (st, Err e).
Proof. unfold rpc_ensure_global_action. unfold cbind at 1. by rewrite denied_authenticated. Qed.

Lemma denied_any {A} a (k : AuthPrincipal → C A) :
  cbind (ensure_any_collection_permission a) k st = (st, Err e).
Proof. unfold ensure_any_collection_permission. unfold cbind at 1. by rewrite denied_authenticated. Qed.

Lemma denied_rename {A} n n' (k : string * string → C A) :
  (cbind (rename_names n n') k st).1 = st.
Proof.
  unfold cbind, rename_names. rewrite !read_cases. destruct (read_text n); [|done].
  rewrite !read_cases. destruct (read_text n'); [|done]. by rewrite denied_collection.
Qed.

End Denied.

Ltac unfold_writes :=
  unfold rpc_set, rpc_del, rpc_pdel, rpc_drop, rpc_fset, rpc_expire, rpc_persist, rpc_jset,
    rpc_jdel, rpc_setchan, rpc_sethook, rpc_pdelchan, rpc_pdelhook, rpc_subscribe, rpc_psubscribe,
    rpc_config_set, rpc_config_rewrite, rpc_flushdb, rpc_gc, rpc_readonly, rpc_timeout,
    rpc_aofshrink, rpc_rename, rpc_renamenx.

(** Without a principal nothing is written, but for deleting what is not there. *)
Lemma denied_writes c request (st : Rpc) e :
  session_principal st = Err e → rpc_is_read request = false →
  match request with RpcDelchan _ | RpcDelhook _ => False | _ => True end →
  (rpc_handle c request st).1 = st.
Proof.
  intros Hs Hr Hd. destruct request; try discriminate Hr; try done; clear Hd;
    cbn [rpc_handle]; unfold_writes;
    first [ by apply (denied_rename _ _ Hs) | by rewrite (denied_global _ _ Hs)
          | by rewrite (denied_authenticated _ _ Hs) | by rewrite (denied_any _ _ Hs)
          | repeat (rewrite read_cases; case_match; [|done]); by rewrite (denied_collection _ _ Hs) ].
Qed.

(** A write and its answer. *)
Lemma mutating_then {A} (op : M (S := S) A) (f : result A CallError → RpcAnswer) (st : Rpc) :
  let st' := (cbind (run_core_mutating op) (λ r, cret (f r)) st).1 in
  hs_db (rpc_server st') = (op (hs_db (rpc_server st))).1 ∧
  same_settings (rpc_server st) (rpc_server st').
Proof.
  unfold cbind. destruct (mutating_run st op) as (server & -> & Hdb & Hs). done.
Qed.

Lemma value_same {A B} (f : LatLng S → A) (k : A → C B) (st : Rpc) :
  cbind (run_value (λ db, (db, f db))) k st = k (f (hs_db (rpc_server st))) st.
Proof. unfold cbind, run_value. by destruct st as [[] ?]. Qed.

(** Deleting a channel or hook that is not there. *)
Lemma denied_delchan c name (st : Rpc) e who granted : session_principal st = Err e →
  authorised who granted (rpc_server st) (rpc_server (rpc_delchan c name st).1).
Proof.
  intros Hs. unfold rpc_delchan. rewrite read_cases. destruct (read_text name) as [n|];
    [|by apply authorised_same]. rewrite value_same. unfold channel_home.
  destruct (channel_def _ n) as [d|] eqn:Hd; cbn [fmap option_fmap option_map ensure_owner].
  { unfold cbind at 1. rewrite (denied_collection st e Hs). by apply authorised_same. }
  match goal with |- context [cbind (cret tt) ?k st] => change (cbind (cret tt) k st) with (k tt st) end.
  edestruct (mutating_then (op_delchan (call_clock c) n)) as [Hdb Hset].
  apply (authorised_framed _ _ _ _ (on_channel n)); [|exact Hset|set_solver| |set_solver].
  - rewrite Hdb. apply frames_delchan; [set_solver|apply outside_refl].
  - intros m; cbn; intros ->%elem_of_singleton. left. rewrite Hdb.
    destruct (delchan_def (hs_db (rpc_server st)) (call_clock c) n) as [->| ->]; by rewrite ?Hd.
Qed.

Lemma denied_delhook c name (st : Rpc) e who granted : session_principal st = Err e →
  authorised who granted (rpc_server st) (rpc_server (rpc_delhook c name st).1).
Proof.
  intros Hs. unfold rpc_delhook. rewrite read_cases. destruct (read_text name) as [n|];
    [|by apply authorised_same]. rewrite value_same. unfold hook_home.
  destruct (hook_def _ n) as [d|] eqn:Hd; cbn [fmap option_fmap option_map ensure_owner].
  { unfold cbind at 1. rewrite (denied_collection st e Hs). by apply authorised_same. }
  match goal with |- context [cbind (cret tt) ?k st] => change (cbind (cret tt) k st) with (k tt st) end.
  edestruct (mutating_then (op_delhook (call_clock c) n)) as [Hdb Hset].
  apply (authorised_framed _ _ _ _ (on_hook n)); [|exact Hset|set_solver|set_solver|].
  - rewrite Hdb. apply frames_delhook; [set_solver|apply outside_refl].
  - intros m; cbn; intros ->%elem_of_singleton. left. rewrite Hdb.
    destruct (delhook_def (hs_db (rpc_server st)) (call_clock c) n) as [->| ->]; by rewrite ?Hd.
Qed.

Section Allowed.
Context (c : Call) (st : Rpc) (p : AuthPrincipal) (Hs : session_principal st = Ok p).
Context (granted : list (AuthAction * string)).

Notation allowed m := (authorised (Some p) granted (rpc_server st) (rpc_server (m st).1)).

Lemma allowed_global {A} (k : AuthPrincipal → C A) :
  allowed (cbind (rpc_ensure_global_action AdminAll) k).
Proof.
  unfold cbind. rewrite (ensure_global_session p st Hs).
  destruct (allows_global p AdminAll) eqn:Ha; [by apply authorised_admin | by apply authorised_same].
Qed.

Lemma session_step {A} (k : AuthPrincipal → C A) : cbind ensure_authenticated k st = k p st.
Proof. unfold cbind, ensure_authenticated. by rewrite Hs. Qed.

Lemma allowed_pdelchan pattern : allowed (rpc_pdelchan c pattern).
Proof.
  unfold rpc_pdelchan. rewrite session_step, read_cases.
  destruct (read_text pattern) as [q|]; [|by apply authorised_same]. set (g := default_glob q).
  set (defs := omap (channel_def (db_geofences (hs_db (rpc_server st))))
                 (channel_names (db_geofences (hs_db (rpc_server st))) g)).
  unfold call_try, run_core_read. unfold cbind at 1 2.
  destruct (rpc_queries_allowed st); [|by apply authorised_same].
  unfold run_core, op_channel_defs, clift. fold defs. cbn [map_err].
  replace (set_server st (set_db (rpc_server st) (hs_db (rpc_server st)))) with st
    by (by destruct st as [[]]).
  destruct (existsb _ defs) eqn:Hall; [by apply authorised_same|].
  edestruct (mutating_then (op_pdelchan (call_clock c) g)) as [Hdb Hset].
  destruct (pdelchan_only (call_clock c) g (hs_db (rpc_server st))) as (H1 & H2 & H3 & H4).
  rewrite <-Hdb in H1, H2, H3, H4. split.
  - intros n []. by rewrite H1.
  - intros n. cbn. intros Hne. destruct (H4 n) as [?|[Hg Hnone]]; [done|]. rewrite Hnone in Hne |- *.
    destruct (channel_def (db_geofences (hs_db (rpc_server st))) n) as [d|] eqn:Hd; [|done].
    exists p. split; [done|right]. eexists. split; [done|].
    destruct (allows p ChannelsManage _) eqn:Ha; [done|]. exfalso.
    apply not_true_iff_false in Hall. apply Hall, existsb_exists. exists d.
    split; [|by rewrite Ha]. apply list_elem_of_In. by apply (channel_listed _ _ n).
  - intros n. cbn. by rewrite H3.
  - intros []. by split.
Qed.

(** A server that answers no queries is read-only. *)
Hypothesis Hbehind : behind (rpc_server st) →
  read_only (db_config (hs_db (rpc_server st))) = true.

Lemma pdelhook_read_only pattern (db : LatLng S) :
  read_only (db_config db) = true → (op_pdelhook (call_clock c) pattern db).1 = db.
Proof. intros Hro. unfold op_pdelhook, mbind, ensure_writable. by rewrite Hro. Qed.

Lemma allowed_pdelhook pattern : allowed (rpc_pdelhook c pattern).
Proof.
  unfold rpc_pdelhook. rewrite session_step, read_cases.
  destruct (read_text pattern) as [q|]; [|by apply authorised_same]. set (g := default_glob q).
  set (infos := hook_infos (db_geofences (hs_db (rpc_server st))) g).
  unfold run_core_read. unfold cbind at 1.
  destruct (rpc_queries_allowed st) as [[]|e] eqn:Hq.
  - unfold run_core, op_hooks. fold infos. cbn [map_err unwrap_or].
    replace (set_server st (set_db (rpc_server st) (hs_db (rpc_server st)))) with st
      by (by destruct st as [[]]).
    destruct (existsb _ infos) eqn:Hall; [by apply authorised_same|].
    edestruct (mutating_then (op_pdelhook (call_clock c) g)) as [Hdb Hset].
    destruct (pdelhook_only (call_clock c) g (hs_db (rpc_server st))) as (H1 & H2 & H3 & H4).
    rewrite <-Hdb in H1, H2, H3, H4. split.
    + intros n []. by rewrite H1.
    + intros n. cbn. by rewrite H3.
    + intros n. cbn. intros Hne. destruct (H4 n) as [?|[Hg Hnone]]; [done|].
      rewrite Hnone in Hne |- *.
      destruct (hook_def (db_geofences (hs_db (rpc_server st))) n) as [d|] eqn:Hd; [|done].
      exists p. split; [done|right]. eexists. split; [done|].
      destruct (hook_listed _ _ _ _ Hg Hd) as (info & Hin & Hinfo).
      destruct (allows p HooksManage _) eqn:Ha; [done|]. exfalso.
      apply not_true_iff_false in Hall. apply Hall, existsb_exists. exists info.
      split; [by apply list_elem_of_In|]. by rewrite Hinfo, Ha.
    + intros []. by split.
  - cbn [unwrap_or existsb].
    edestruct (mutating_then (op_pdelhook (call_clock c) g)) as [Hdb Hset].
    apply authorised_same. split; [|exact Hset]. rewrite Hdb. apply pdelhook_read_only, Hbehind.
    unfold rpc_queries_allowed in Hq. unfold behind.
    destruct (hs_replication_status (rpc_server st)) as [status|]; [|done]. exists status.
    split; [done|]. by destruct (queries_allowed status).
Qed.

(** A subscriber changes no definition. *)
Lemma add_receiver_authorised {A} sub (f : GeofenceEventReceiver → A) who :
  (∀ r, channels (sub r).1 = channels r ∧ hooks (sub r).1 = hooks r) →
  authorised who granted (rpc_server st)
    (rpc_server (cbind (run_value (add_receiver sub)) (λ rc, cret (f rc)) st).1).
Proof.
  intros Hsub. unfold cbind, run_value, add_receiver. specialize (Hsub (db_geofences (hs_db (rpc_server st)))).
  destruct (sub _) as [r rc]. cbn in Hsub. destruct Hsub as [Hc Hh]. split; cbn; try done.
  - intros n []. unfold channel_def. by rewrite Hc.
  - intros n []. unfold hook_def. by rewrite Hh.
  - intros []. done.
Qed.

Lemma allowed_subscribe channels : allowed (rpc_subscribe c channels).
Proof.
  unfold rpc_subscribe. rewrite session_step, read_cases.
  destruct channels as [l|]; [|by apply authorised_same]. rewrite read_cases.
  destruct (text_list_from_reader l) as [names|]; [|by apply authorised_same].
  unfold call_try, run_core_read. unfold cbind at 1 2.
  destruct (rpc_queries_allowed st); [|by apply authorised_same].
  unfold run_core, op_named_channels, clift. cbn [map_err].
  replace (set_server st (set_db (rpc_server st) (hs_db (rpc_server st)))) with st
    by (by destruct st as [[]]).
  destruct (existsb _ _); [by apply authorised_same|]. by apply add_receiver_authorised.
Qed.

Lemma allowed_psubscribe patterns : allowed (rpc_psubscribe c patterns).
Proof.
  unfold rpc_psubscribe, ensure_any_collection_permission. unfold cbind at 1. rewrite session_step.
  destruct (is_admin p || _); [|by apply authorised_same]. unfold cret at 1. rewrite read_cases.
  destruct patterns as [l|]; [|by apply authorised_same]. rewrite read_cases.
  destruct (text_list_from_reader l) as [names|]; [|by apply authorised_same].
  by apply add_receiver_authorised.
Qed.

(** A call that cannot be read, though its collection could. *)
Lemma unreadable_permit {A} a n (k : AuthPrincipal → C A) :
  (∀ q, (k q st).1 = st) → allowed (cbind (rpc_ensure_collection_action a n) k).
Proof.
  intros Hk. unfold cbind. rewrite (ensure_session p st Hs).
  destruct (allows p a n); [|by apply authorised_same]. rewrite Hk. by apply authorised_same.
Qed.

Lemma unreadable_rename {A} n n' (k : string * string → C A) :
  rok (let? n := read_text n in read_text n') = None → allowed (cbind (rename_names n n') k).
Proof.
  intros Hn. unfold cbind at 1, rename_names. rewrite read_cases.
  destruct (read_text n); [|by apply authorised_same]. cbn in Hn. rewrite read_cases.
  destruct (read_text n'); [done|by apply authorised_same].
Qed.

End Allowed.

Definition is_aofshrink (request : RpcRequest) : bool :=
  match request with RpcAofshrink => true | _ => false end.

(** A call with a counterpart changes what the counterpart changes. *)
Lemma counterpart_authorised c request h (st : Rpc) p :
  http_of request = Some h → rpc_is_read request = false → session_principal st = Ok p →
  authorised (Some p) (acts h) (rpc_server st) (rpc_server (rpc_handle c request st).1).
Proof.
  intros Hh Hr Hs. set (rq := mkIncoming (call_clock c) (call_env c) None (Some p) (call_faults c)).
  destruct (is_aofshrink request) eqn:Hshrink.
  { destruct request; try discriminate Hshrink. by apply allowed_global. }
  assert (comparable request (rpc_server st)) as Hcomp by (by destruct request).
  destruct (agrees_handle c rq request h p st Hh Hcomp Hs eq_refl eq_refl eq_refl) as [Hsame _].
  exact (authorised_trans _ _ _ _ _ (lawful_handle rq h (rpc_server st)) Hsame).
Qed.

(** Everything was read, so there is a counterpart. *)
Ltac readable Hh :=
  cbn [rbind] in Hh;
  repeat match goal with
  | H : _ = Ok _ |- _ => rewrite H in Hh; cbn [rbind] in Hh; clear H
  end; discriminate Hh.

Lemma unreadable_authorised c request (st : Rpc) p granted :
  (behind (rpc_server st) → read_only (db_config (hs_db (rpc_server st))) = true) →
  http_of request = None → rpc_is_read request = false → session_principal st = Ok p →
  authorised (Some p) granted (rpc_server st) (rpc_server (rpc_handle c request st).1).
Proof.
  intros Hb Hh Hr Hs. destruct request; try discriminate Hr; try discriminate Hh; cbn [rpc_handle];
    eauto using allowed_pdelchan, allowed_pdelhook, allowed_subscribe, allowed_psubscribe;
    unfold rpc_delchan, rpc_delhook; unfold_writes; try by apply allowed_global.
  all: unfold http_of in Hh.
  all: try (apply unreadable_rename; revert Hh; by destruct (read_text collection), (read_text newname)).
  all: repeat (rewrite read_cases; case_match; [|by apply authorised_same]).
  all: try (exfalso; by readable Hh).
  all: apply unreadable_permit; [done|]; intros q.
  all: repeat (rewrite read_cases; case_match; [|done]); exfalso; by readable Hh.
Qed.


End Sessions.
