(* ===== verification/CapnpWitness.v ===== *)
(** * The RPC interface on concrete servers

    Sessions on the servers of the HTTP examples: the theorems about the
    interface apply to them, and some of their answers are worth knowing
    about. *)

From Stdlib Require Import ZArith Lia SpecFloat.
From stdpp Require Import base gmap strings list sorting pretty.
From S2P Require Import Prelude Storage F64 Json Platform Geo Strings Index IndexSpec Geofence.
From S2P Require Import Collection Engine EngineSpec StorageMemory Recovery Queries WebhookQueue.
From S2P Require Import WebhookQueueSpec Outbox OutboxSpec Replication Auth AuthSpec Config.
From S2P Require Import ConfigSpec Metrics Http HttpFrame HttpSpec HttpView HttpWitness.
From S2P Require Import CapnpCodec Capnp CapnpSpec CapnpAuth.

Module CapnpWitness.
Import ListTree NoGeoJson PlainText Memory SortSelect QueueWitness HttpWitness.
#[local] Existing Instance AuthWitness.crate.
#[local] Existing Instance RecoveryWitness.codec.
#[local] Existing Instance RecoveryWitness.base64.
#[local] Existing Instance RecoveryWitness.md5.
#[local] Existing Instance HttpWitness.config_text.

#[export] Instance capnp_texts : CapnpTexts := {
  capnp_error_text e := "Failed: " +:+ e;
  not_in_schema_text n := "not in schema";
  json_error_text s := "invalid json"
}.

(** ** Sessions *)

Definition call : Call := mkCall clock (AuthWitness.env_at 0) no_faults.
Definition session (p : AuthPrincipal) (server : HttpState (S := MemoryBackend)) : RpcState :=
  mkRpc server (Some p).
Definition guest (server : HttpState (S := MemoryBackend)) : RpcState := rpc_new server.

Definition rpc_answer (request : RpcRequest) (st : RpcState) : result RpcAnswer CapnpError :=
  (rpc_handle call request st).2.
Definition rpc_next (request : RpcRequest) (st : RpcState (S := MemoryBackend)) : HttpState :=
  rpc_server (rpc_handle call request st).1.

Definition rpc_put (n i text : string) : RpcRequest :=
  RpcSet (Ok (mkSetMsg (wire_text n) (wire_text i) (Ok (Ok (WString (wire_text text)))) (Ok []) 0
                (Ok CondAlways))).

(** A session authenticates with the bearer token of the server. *)
Example session_authenticates :
  rpc_answer (RpcAuth (wire_text "service")) (guest server) = Ok answer_ok ∧
  rpc_principal (rpc_handle call (RpcAuth (wire_text "service")) (guest server)).1 =
    Some service_admin ∧
  rpc_answer RpcPing (guest server) = Err "unauthorized".
Proof. split_and!; vm_compute; reflexivity. Qed.

(** ** The theorems apply *)



(** ** Answers worth knowing about *)

(** A client that never authenticated makes the server log a record. *)
Module Logged.
#[local] Instance opaque_log : LogCodec := {
  json_to_vec _ := Ok [Byte.x00];
  json_record _ := None;
  bincode_record _ := None;
  json_command _ := None;
  bincode_command _ := Err "unsupported"
}.

Definition recorder : HttpState (S := MemoryBackend) :=
  mkHttp (fresh recording default_config) AuthWitness.server default_metrics (Some saved) None None
    (Some 0) None (Some 0) ∅ false.
Definition deletion : RpcState * result RpcAnswer CapnpError :=
  rpc_handle call (RpcDelchan (wire_text "none")) (guest recorder).

Theorem anonymous_deletion_is_logged :
  session_principal (guest recorder) = Err unauthorized_error ∧
  deletion.2 = Ok (AOk (not_found "not found")) ∧
  length (entries (db_storage (hs_db recorder))) = 0 ∧
  length (entries (db_storage (hs_db (rpc_server deletion.1)))) = 1.
Proof. split_and!; vm_compute; reflexivity. Qed.

End Logged.

(** A follower that has not caught up refuses a query over HTTP; over RPC it
    answers that nothing is there. *)
Definition lister : AuthPrincipal := tenant [ObjectsRead; CollectionsList] ["fleet"].

Theorem behind_denies_existence :
  answer lister (ListCollections None) follower = Err catching_up ∧
  rpc_answer (RpcCollections (wire_text "")) (session lister follower) = Ok (ANames []) ∧
  rpc_answer (RpcExists (wire_text "fleet") (wire_text "truck")) (session lister follower) =
    Ok (AExists false).
Proof. split_and!; vm_compute; reflexivity. Qed.

(** Between the first step of a FOLLOW and the job that makes the engine
    read-only, a server is behind and writable: PDELHOOK takes the listing it
    is refused for an empty one, checks no permission, and deletes the hooks
    that a caught-up server would not let this principal delete. *)
Definition hooked : HttpState :=
  after admin [SetHook "alarm" "http://example.com/" (fence_on "vault")] follower.
Definition caught_up : HttpState :=
  after admin [SetHook "alarm" "http://example.com/" (fence_on "vault")] server.
Definition drop_hooks : RpcRequest := RpcPdelhook (wire_text "*").
Definition has_hook (st : HttpState (S := MemoryBackend)) : bool :=
  bool_decide (is_Some (hook_def (db_geofences (hs_db st)) "alarm")).

Theorem unlisted_hooks_are_deleted :
  allows reader HooksManage "vault" = false ∧
  rpc_answer drop_hooks (session reader caught_up) = Err forbidden_error ∧
  has_hook hooked = true ∧
  rpc_answer drop_hooks (session reader hooked) = Ok answer_ok ∧
  has_hook (rpc_next drop_hooks (session reader hooked)) = false.
Proof. split_and!; vm_compute; reflexivity. Qed.

(** A tenant that may manage channels, write and subscribe on its own collection
    only sets a roaming fence against another tenant's collection, and is told
    the ids of the objects there. *)
Definition spy : AuthPrincipal :=
  tenant [ChannelsManage; ObjectsWrite; SubscriptionsRead] ["mine"].
Definition spying : GeofenceDef :=
  mkDef "mine" (QRoam "vault" "*" (f64_of_Z 1000) default_search_options false) [DRoam] [MSet].
Definition at_point (n i : string) : HttpRequest :=
  SetObject n i (mkSetBody (GtPoint fzero fzero None) [] None None).

Definition spied : HttpState :=
  after spy [SetChannel "spy" spying; at_point "mine" "probe"]
    (rpc_next (RpcPsubscribe (Ok [wire_text "*"]))
       (session spy (after admin [at_point "vault" "key"] server))).

Definition told (st : HttpState (S := MemoryBackend)) : list (string * string * string) :=
  sub ← subscribers (db_geofences (hs_db st));
  e ← (items (sub_mailbox sub)).*2;
  (λ n, (ev_collection e, roam_collection n, roam_id n)) <$> option_list (ev_nearby e).

Theorem roaming_fence_reveals :
  sees spy "vault" = false ∧ told spied = [("mine", "vault", "key")].
Proof. split; vm_compute; reflexivity. Qed.

(** *** Compaction and the webhook queue *)

Module Shop.
#[local] Existing Instance OutboxWitness.codec.
#[local] Existing Instance OutboxWitness.base64.
#[local] Existing Instance OutboxWitness.md5.

(** A server with one job in its queue and in its log. *)
Definition shop : HttpState (S := MemoryBackend) :=
  mkHttp (ob_db OutboxWitness.started) AuthWitness.server default_metrics (Some saved)
    (Some (ob_queue OutboxWitness.started)) None (Some 0) None (Some 0) ∅ false.

(** The jobs that a restart finds in the log. *)
Definition recovered_jobs (st : HttpState (S := MemoryBackend)) : nat :=
  size (ob_queue (rebuild_webhook_queue_from_log clock (mkOutbox (hs_db st) ∅ 0 0)).1).

(** AOFSHRINK over HTTP keeps the queued jobs in the log; over RPC it drops
    them, and a restart does not find them. *)
Theorem rpc_aofshrink_drops_jobs :
  recovered_jobs shop = 1 ∧
  recovered_jobs (handle (from admin) AofShrink shop).1 = 1 ∧
  (rpc_handle call RpcAofshrink (session admin shop)).2 = Ok answer_ok ∧
  recovered_jobs (rpc_server (rpc_handle call RpcAofshrink (session admin shop)).1) = 0.
Proof. split_and!; vm_compute; reflexivity. Qed.

End Shop.
End CapnpWitness.
