(* ===== verification/Ws.v ===== *)
(** * Subscribers ([crates/latlng-ws/src/lib.rs], and [GeofenceStreamRpc] of
    [crates/latlng-capnp/src/streams.rs])

    A websocket connection: the commands of a client, the bridge that takes
    events off the subscriber's mailbox and the loop that sends them.  The
    bridge runs beside the loop, so the two are steps of one connection, and
    the server changes between any two of them.

    [select!] takes any branch that is ready.  A frame that cannot be sent and
    a task that the executor does not run end the connection. *)

From Stdlib Require Import ZArith Lia.
From stdpp Require Import base gmap strings list.
From S2P Require Import Prelude Storage F64 Json Platform Geo Strings Index Geofence Collection.
From S2P Require Import Engine Auth.

Inductive WsCommand : Type :=
  | WsAuth (token : string)
  | WsSubscribe (channels : list string)
  | WsPsubscribe (patterns : list string)
  | WsPing
  | WsQuit.

(** What [socket.recv] gives: a text that may be a command, the end of the
    stream, or a frame that is ignored. *)
Inductive WsMessage : Type :=
  | MText (command : option WsCommand)
  | MClose
  | MEnd
  | MOther.

Inductive WsFrame : Type :=
  | FAuthorized
  | FPong
  | FSubscribed (channels : list string)
  | FPsubscribed (patterns : list string)
  | FError (code error : string)
  | FEvent (event : GeofenceEvent).

(** The bridge between two events, and in [recv_blocking_with_cancel] with the
    generation it has read. *)
Inductive BridgePhase : Type :=
  | Looking
  | Waiting (generation : Z).

Record ReceiverBridge := mkBridge {
  br_receiver : GeofenceEventReceiver;
  br_phase : BridgePhase
}.

(** The variables of [client_loop]: the principal, the queue of the bridge, the
    bridge, and the frames sent so far. *)
Record WsConnection := mkConn {
  wc_principal : option AuthPrincipal;
  wc_queue : option (list GeofenceEvent);
  wc_bridge : option ReceiverBridge;
  wc_sent : list WsFrame;
  wc_open : bool
}.

Definition with_principal (c : WsConnection) (p : option AuthPrincipal) : WsConnection :=
  mkConn p (wc_queue c) (wc_bridge c) (wc_sent c) (wc_open c).
Definition with_bridge (c : WsConnection) (b : option ReceiverBridge) : WsConnection :=
  mkConn (wc_principal c) (wc_queue c) b (wc_sent c) (wc_open c).
Definition with_events (c : WsConnection) (q : option (list GeofenceEvent)) : WsConnection :=
  mkConn (wc_principal c) q (wc_bridge c) (wc_sent c) (wc_open c).

(** [break], and [bridge.stop()] after the loop: the bridge ends. *)
Definition ws_break (c : WsConnection) : WsConnection :=
  mkConn (wc_principal c) (wc_queue c) None (wc_sent c) false.

(** Sending a frame; the socket takes it or not. *)
Definition ws_send (taken : bool) (f : WsFrame) (c : WsConnection) : WsConnection :=
  if taken then mkConn (wc_principal c) (wc_queue c) (wc_bridge c) (wc_sent c ++ [f]) (wc_open c)
  else ws_break c.

Definition send_error (taken : bool) (code error : string) : WsConnection → WsConnection :=
  ws_send taken (FError code error).

Section Ws.
Context `{JW : JwtCrate} `{PT : Patterns}.

(** The part of the server that connections use. *)
Record WsState := mkWs { ws_geofences : GeofenceRegistry; ws_auth : Authenticator }.

(** What decides a step from outside: whether the socket takes a frame, whether
    the executor runs tasks, and what authentication sees. *)
Record Weather := mkWeather { wx_socket : bool; wx_executor : bool; wx_env : AuthEnv }.

(** [authorize], on the header of the upgrade request. *)
Definition authorize (a : Authenticator) (env : AuthEnv) (header : option string)
    : Authenticator * result (option AuthPrincipal) AuthError :=
  match header ≫= extract_bearer_token with
  | None => (a, Ok (if negb (auth_enabled (au_config a)) then Some open_access else None))
  | Some token =>
      let '(a, r) := authenticate a env (Some token) in (a, rmap Some r)
  end.

(** [ws_handler]: the connection that is opened, when it is. *)
Definition ws_open (principal : option AuthPrincipal) : WsConnection :=
  mkConn principal None None [] true.

(** [spawn_receiver_bridge] after [bridge.stop()] on the old one. *)
Definition replace_bridge (rc : GeofenceEventReceiver) (c : WsConnection) : WsConnection :=
  mkConn (wc_principal c) (Some []) (Some (mkBridge rc Looking)) (wc_sent c) (wc_open c).

Definition ws_authenticate (w : Weather) (token : string) (s : WsState) (c : WsConnection)
    : WsState * WsConnection :=
  let '(a, r) := authenticate (ws_auth s) (wx_env w) (Some token) in
  (mkWs (ws_geofences s) a,
   match r with
   | Ok p => ws_send (wx_socket w) FAuthorized (with_principal c (Some p))
   | Err _ => send_error (wx_socket w) "unauthorized" "unauthorized" (with_principal c None)
   end).

Definition ws_subscribe (w : Weather) (names : list string) (s : WsState) (c : WsConnection)
    : WsState * WsConnection :=
  match wc_principal c with
  | None => (s, send_error (wx_socket w) "unauthorized" "unauthorized" c)
  | Some p =>
      if negb (wx_executor w) then (s, ws_break c)
      else
        let defs := omap (channel_def (ws_geofences s)) names in
        if existsb (λ ch, negb (allows p SubscriptionsRead (def_collection (channel_fence ch)))) defs
        then (s, send_error (wx_socket w) "forbidden" "forbidden" c)
        else
          let '(r, rc) := subscribe (ws_geofences s) names in
          (mkWs r (ws_auth s), ws_send (wx_socket w) (FSubscribed names) (replace_bridge rc c))
  end.

Definition ws_psubscribe (w : Weather) (patterns : list string) (s : WsState) (c : WsConnection)
    : WsState * WsConnection :=
  match wc_principal c with
  | None => (s, send_error (wx_socket w) "unauthorized" "unauthorized" c)
  | Some p =>
      if negb (any_collection_permission p SubscriptionsRead) && negb (is_admin p)
      then (s, send_error (wx_socket w) "forbidden" "forbidden" c)
      else if negb (wx_executor w) then (s, ws_break c)
      else
        let '(r, rc) := psubscribe (ws_geofences s) patterns in
        (mkWs r (ws_auth s), ws_send (wx_socket w) (FPsubscribed patterns) (replace_bridge rc c))
  end.

(** The first branch of [select!]. *)
Definition ws_incoming (w : Weather) (m : WsMessage) (s : WsState) (c : WsConnection)
    : WsState * WsConnection :=
  match m with
  | MText None => (s, send_error (wx_socket w) "bad_request" "invalid websocket command" c)
  | MText (Some (WsAuth token)) => ws_authenticate w token s c
  | MText (Some WsPing) => (s, ws_send (wx_socket w) FPong c)
  | MText (Some WsQuit) | MClose | MEnd => (s, ws_break c)
  | MText (Some (WsSubscribe names)) => ws_subscribe w names s c
  | MText (Some (WsPsubscribe patterns)) => ws_psubscribe w patterns s c
  | MOther => (s, c)
  end.

(** The second branch: the next event of the queue. *)
Definition ws_deliver (w : Weather) (e : GeofenceEvent) (rest : list GeofenceEvent)
    (c : WsConnection) : WsConnection :=
  let c := with_events c (Some rest) in
  match wc_principal c with
  | None => c
  | Some p =>
      if negb (allows p SubscriptionsRead (ev_collection e)) then c
      else ws_send (wx_socket w) (FEvent e) c
  end.

(** The second branch when the bridge has ended and its queue is empty. *)
Definition ws_bridge_gone (c : WsConnection) : WsConnection :=
  mkConn (wc_principal c) None None (wc_sent c) (wc_open c).

(** *** The bridge *)

(** It reads the generation, then waits for an event of its mailbox; an event
    of an earlier generation is skipped. *)
Definition bridge_look (s : WsState) (b : ReceiverBridge) : ReceiverBridge :=
  mkBridge (br_receiver b) (Waiting (generation (ws_geofences s))).

Definition bridge_take (s : WsState) (b : ReceiverBridge) (g : Z)
    : option (ReceiverBridge * option GeofenceEvent) :=
  sub ← subscribers (ws_geofences s) !! receiver_index (br_receiver b);
  match receive_from_state (sub_mailbox sub) (receiver_position (br_receiver b)) with
  | (_, None) => None
  | (position, Some e) =>
      Some (mkBridge (mkReceiver (receiver_index (br_receiver b)) position) Looking,
            if (g <=? ev_generation e)%Z then Some e else None)
  end.

(** ** Steps of a connection *)

Inductive WsLabel : Type :=
  | LPrincipal (p : option AuthPrincipal)
  | LReplaced
  | LTaken (e : GeofenceEvent)
  | LQuiet.

(** What a message does to the principal and the subscription. *)
Definition message_label (c c' : WsConnection) (m : WsMessage) : WsLabel :=
  match m with
  | MText (Some (WsAuth _)) => LPrincipal (wc_principal c')
  | MText (Some (WsSubscribe _ | WsPsubscribe _)) => LReplaced
  | _ => LQuiet
  end.

Inductive ws_step : WsState * WsConnection → WsLabel → WsState * WsConnection → Prop :=
  | step_message w m s c s' c' :
      wc_open c = true → ws_incoming w m s c = (s', c') →
      ws_step (s, c) (message_label c c' m) (s', c')
  | step_deliver w s c e rest :
      wc_open c = true → wc_queue c = Some (e :: rest) →
      ws_step (s, c) LQuiet (s, ws_deliver w e rest c)
  | step_gone s c :
      wc_open c = true → wc_queue c = Some [] → wc_bridge c = None →
      ws_step (s, c) LQuiet (s, ws_bridge_gone c)
  | step_end s c b :
      wc_bridge c = Some b → ws_step (s, c) LQuiet (s, with_bridge c None)
  | step_look s c b :
      wc_bridge c = Some b → br_phase b = Looking →
      ws_step (s, c) LQuiet (s, with_bridge c (Some (bridge_look s b)))
  | step_take s c b g b' e :
      wc_bridge c = Some b → br_phase b = Waiting g → bridge_take s b g = Some (b', Some e) →
      ws_step (s, c) (LTaken e)
        (s, with_events (with_bridge c (Some b')) ((λ q, q ++ [e]) <$> wc_queue c))
  | step_skip s c b g b' :
      wc_bridge c = Some b → br_phase b = Waiting g → bridge_take s b g = Some (b', None) →
      ws_step (s, c) LQuiet (s, with_bridge c (Some b'))
  | step_server s c s' : ws_step (s, c) LQuiet (s', c).

Inductive ws_steps : WsState * WsConnection → list WsLabel → WsState * WsConnection → Prop :=
  | steps_refl x : ws_steps x [] x
  | steps_snoc x y z tr l : ws_steps x tr y → ws_step y l z → ws_steps x (tr ++ [l]) z.

(** *** Streams over RPC *)

(** [GeofenceStreamRpc]: the worker filters by the principal that opened the
    stream; [next] takes the oldest event. *)
Record GeofenceStream := mkStream {
  gs_principal : AuthPrincipal;
  gs_bridge : ReceiverBridge;
  gs_queue : list GeofenceEvent
}.

Definition stream_open (rc : GeofenceEventReceiver) (p : AuthPrincipal) : GeofenceStream :=
  mkStream p (mkBridge rc Looking) [].

(** One turn of the worker: the event that it took, if any. *)
Definition stream_turn (s : WsState) (st : GeofenceStream) : GeofenceStream * option GeofenceEvent :=
  match br_phase (gs_bridge st) with
  | Looking => (mkStream (gs_principal st) (bridge_look s (gs_bridge st)) (gs_queue st), None)
  | Waiting g =>
      match bridge_take s (gs_bridge st) g with
      | None => (st, None)
      | Some (b, None) => (mkStream (gs_principal st) b (gs_queue st), None)
      | Some (b, Some e) =>
          (mkStream (gs_principal st) b
             (if negb (allows (gs_principal st) SubscriptionsRead (ev_collection e))
              then gs_queue st else gs_queue st ++ [e]), Some e)
      end
  end.

Definition stream_pop (st : GeofenceStream) : GeofenceStream * option GeofenceEvent :=
  match gs_queue st with
  | [] => (st, None)
  | e :: rest => (mkStream (gs_principal st) (gs_bridge st) rest, Some e)
  end.

End Ws.
