(* ===== verification/WsSpec.v ===== *)
(** * What subscribers receive

    - An event is sent to a client only while the connection is authenticated
      as a principal that may subscribe to the event's collection.
    - As long as the principal and the subscription stay, the client gets
      exactly the events of its mailbox that it may read, in their order. *)

From Stdlib Require Import ZArith Lia.
From stdpp Require Import base gmap strings list.
From S2P Require Import Prelude Storage F64 Json Platform Geo Strings Index IndexSpec Geofence.
From S2P Require Import Collection Engine EngineSpec Auth AuthSpec Ws.

Section Subscribers.
Context `{JW : JwtCrate} `{PT : Patterns}.

Definition may_read (p : AuthPrincipal) (e : GeofenceEvent) : bool :=
  allows p SubscriptionsRead (ev_collection e).

(** The principal after the labels so far. *)
Definition current (p0 : option AuthPrincipal) (tr : list WsLabel) : option AuthPrincipal :=
  foldl (λ p l, match l with LPrincipal q => q | _ => p end) p0 tr.

Definition taken (tr : list WsLabel) : list GeofenceEvent :=
  omap (λ l, match l with LTaken e => Some e | _ => None end) tr.

Definition events_in (fs : list WsFrame) : list GeofenceEvent :=
  omap (λ f, match f with FEvent e => Some e | _ => None end) fs.

Lemma current_snoc p0 tr l :
  current p0 (tr ++ [l]) = match l with LPrincipal q => q | _ => current p0 tr end.
Proof. unfold current. by rewrite foldl_app. Qed.

Lemma taken_snoc tr l : taken (tr ++ [l]) = taken tr ++ taken [l].
Proof. unfold taken. by rewrite omap_app. Qed.

Lemma events_in_app fs fs' : events_in (fs ++ fs') = events_in fs ++ events_in fs'.
Proof. unfold events_in. by rewrite omap_app. Qed.

(** ** Single steps *)

Lemma send_principal taken f c : wc_principal (ws_send taken f c) = wc_principal c.
Proof. by destruct taken. Qed.

(** No message changes the principal but [auth]. *)
Lemma incoming_principal w m s c s' c' : ws_incoming w m s c = (s', c') →
  wc_principal c' = match m with MText (Some (WsAuth _)) => wc_principal c' | _ => wc_principal c end.
Proof.
  unfold ws_incoming, ws_subscribe, ws_psubscribe, send_error, subscribe, psubscribe, add_subscriber.
  intros Heq. repeat case_match; simplify_eq/=; rewrite ?send_principal; done.
Qed.

Lemma step_principal s c l s' c' : ws_step (s, c) l (s', c') →
  wc_principal c' = match l with LPrincipal q => q | _ => wc_principal c end.
Proof.
  inversion 1; subst; try done.
  - match goal with H : ws_incoming _ _ _ _ = _ |- _ => apply incoming_principal in H end.
    unfold message_label. by destruct m as [[[]|]| | |].
  - unfold ws_deliver. cbn. repeat case_match; rewrite ?send_principal; done.
Qed.

(** The client's [auth] with [token] makes it the principal [p]: the
    authenticator that the server has at that step accepts the token. *)
Definition auth_accepted (s : WsState) (c : WsConnection) (w : Weather) (token : string)
    (p : AuthPrincipal) (s' : WsState) (c' : WsConnection) : Prop :=
  ws_incoming w (MText (Some (WsAuth token))) s c = (s', c') ∧
  authenticate (ws_auth s) (wx_env w) (Some token) = (ws_auth s', Ok p).

(** A principal comes from a token that the client gave. *)
Lemma step_authentic s c p s' c' : ws_step (s, c) (LPrincipal (Some p)) (s', c') →
  ∃ w token, auth_accepted s c w token p s' c'.
Proof.
  inversion 1; subst.
  match goal with H : LPrincipal _ = message_label _ _ _ |- _ => rename H into Hl
                | H : message_label _ _ _ = LPrincipal _ |- _ => rename H into Hl end.
  unfold message_label in Hl. destruct m as [[[token|?|?| |]|]| | |]; try discriminate Hl.
  match goal with H : ws_incoming _ _ _ _ = _ |- _ => rename H into Hin end.
  exists w, token. split; [done|]. cbn in Hin. unfold ws_authenticate in Hin.
  destruct (authenticate (ws_auth s) (wx_env w) (Some token)) as [a [q|err]];
    simplify_eq/=; [|by destruct (wx_socket w)].
  rewrite send_principal in Hl. cbn in Hl. congruence.
Qed.

Definition sends_event (c c' : WsConnection) (e : GeofenceEvent) : Prop :=
  wc_sent c' = wc_sent c ++ [FEvent e].

Lemma sent_or_not taken f c : wc_sent (ws_send taken f c) = wc_sent c ∨
  wc_sent (ws_send taken f c) = wc_sent c ++ [f].
Proof. destruct taken; auto. Qed.

Lemma not_longer {A} (l : list A) x : l ≠ l ++ [x].
Proof. intros H%(f_equal length). rewrite length_app in H. simpl in H. lia. Qed.

Lemma incoming_sends_no_event w m s c s' c' e :
  ws_incoming w m s c = (s', c') → ¬ sends_event c c' e.
Proof.
  unfold sends_event, ws_incoming, ws_authenticate, ws_subscribe, ws_psubscribe, send_error,
    subscribe, psubscribe, add_subscriber.
  intros Heq Hs. repeat case_match; simplify_eq/=; try (by apply (not_longer _ _ Hs)).
  all: match type of Hs with
       | wc_sent (ws_send ?t ?f ?c) = _ => destruct (sent_or_not t f c) as [E|E]
       end; rewrite E in Hs; cbn in Hs.
  all: first [by apply (not_longer _ _ Hs) | apply app_inv_head in Hs; discriminate Hs].
Qed.

Lemma step_sends s c l s' c' e : ws_step (s, c) l (s', c') → sends_event c c' e →
  ∃ p, wc_principal c = Some p ∧ may_read p e = true.
Proof.
  intros Hstep Hs. inversion Hstep; subst; unfold sends_event in Hs; cbn in Hs;
    try (by destruct (not_longer _ _ Hs)).
  - exfalso. eapply incoming_sends_no_event; eauto.
  - unfold ws_deliver, may_read in *. cbn in Hs.
    destruct (wc_principal c) as [p|]; [|by destruct (not_longer _ _ Hs)].
    destruct (allows p SubscriptionsRead (ev_collection e0)) eqn:Ha; cbn in Hs;
      [|by destruct (not_longer _ _ Hs)].
    destruct (wx_socket w); cbn in Hs; [|by destruct (not_longer _ _ Hs)].
    apply app_inv_head in Hs. injection Hs as ->. eauto.
Qed.

(** ** Whole connections *)

Lemma steps_principal s0 c0 tr s c :
  ws_steps (s0, c0) tr (s, c) → wc_principal c = current (wc_principal c0) tr.
Proof.
  intros H. remember (s0, c0) as x eqn:Hx. remember (s, c) as y eqn:Hy. revert s c Hy.
  induction H as [x|x [s1 c1] z tr l Hsteps IH Hstep]; intros s c ->.
  - by simplify_eq.
  - rewrite current_snoc. rewrite (step_principal _ _ _ _ _ Hstep).
    destruct l; [done|exact (IH Hx _ _ eq_refl)..].
Qed.

Definition keeps_principal (l : WsLabel) : bool :=
  match l with LPrincipal _ => false | _ => true end.

(** The upgrade request: a token that is accepted, or none when authentication
    is off. *)
Lemma authorize_principal a env header a' p :
  authorize a env header = (a', Ok (Some p)) →
  (authenticate a env (header ≫= extract_bearer_token)).2 = Ok p.
Proof.
  unfold authorize. destruct (header ≫= extract_bearer_token) as [token|].
  - destruct (authenticate a env (Some token)) as [a1 [q|err]]; cbn; congruence.
  - unfold authenticate. destruct (auth_enabled (au_config a)); cbn; intros; by simplify_eq.
Qed.

(** Where the principal of a connection comes from: the last [auth] of the
    client, or the upgrade request when there was none. *)
Lemma principal_origin s0 p0 tr s c p :
  ws_steps (s0, ws_open p0) tr (s, c) → current p0 tr = Some p →
  (p0 = Some p ∧ forallb keeps_principal tr = true) ∨
  ∃ tr1 s1 c1 w token s2 c2 tr2,
    tr = tr1 ++ LPrincipal (Some p) :: tr2 ∧ forallb keeps_principal tr2 = true ∧
    ws_steps (s0, ws_open p0) tr1 (s1, c1) ∧ auth_accepted s1 c1 w token p s2 c2 ∧
    ws_steps (s2, c2) tr2 (s, c).
Proof.
  intros Hsteps. remember (s0, ws_open p0) as x eqn:Hx. remember (s, c) as y eqn:Hy. revert s c Hy.
  induction Hsteps as [x|x [s1 c1] z tr l Hsteps IH Hstep]; intros s c -> Hc; [by left|].
  rewrite current_snoc in Hc. destruct (keeps_principal l) eqn:Hl.
  - assert (current p0 tr = Some p) as Hc' by (by destruct l).
    destruct (IH Hx s1 c1 eq_refl Hc') as [[Hp Hk]|(tr1 & sa & ca & w & token & sb & cb & tr2 &
      -> & Hk & H1 & Hacc & H2)].
    + left. split; [done|]. by rewrite forallb_app, Hk; simpl; rewrite Hl.
    + right. exists tr1, sa, ca, w, token, sb, cb, (tr2 ++ [l]).
      rewrite <-app_assoc. split_and!; [done| |done|done|by econstructor].
      by rewrite forallb_app, Hk; simpl; rewrite Hl.
  - destruct l as [q| | |]; try discriminate Hl. subst q.
    destruct (step_authentic _ _ _ _ _ Hstep) as (w & token & Hacc).
    right. exists tr, s1, c1, w, token, s, c, []. split_and!; try done. constructor.
Qed.

(** C14: a subscriber sees only what it may read.  Take a websocket connection
    that an upgrade request opened, after any steps of the client, the bridge,
    the delivery and the rest of the server.  If its next step sends an event,
    then the connection is at that moment authenticated as a principal that may
    subscribe to the event's collection.  That principal is the one of the
    client's last [auth] message, whose token the authenticator that the
    server had at that step accepted as this principal, or, when the client
    sent no [auth] message, the one of the upgrade request, whose token (or
    missing token, with authentication switched off) the authenticator
    accepted.  So after a refused [auth] nothing is sent. *)
Theorem subscriber_sees_only_permitted a env header r p0 tr s c l s' c' e :
  let opened := authorize a env header in
  opened.2 = Ok p0 →
  ws_steps (mkWs r opened.1, ws_open p0) tr (s, c) → ws_step (s, c) l (s', c') →
  sends_event c c' e →
  ∃ p, current p0 tr = Some p ∧ may_read p e = true ∧
    ((authenticate a env (header ≫= extract_bearer_token)).2 = Ok p ∧
       forallb keeps_principal tr = true ∨
     ∃ tr1 s1 c1 w token s2 c2 tr2,
       tr = tr1 ++ LPrincipal (Some p) :: tr2 ∧ forallb keeps_principal tr2 = true ∧
       ws_steps (mkWs r opened.1, ws_open p0) tr1 (s1, c1) ∧
       auth_accepted s1 c1 w token p s2 c2 ∧ ws_steps (s2, c2) tr2 (s, c)).
Proof.
  intros opened Hopen Hsteps Hstep Hs.
  destruct (step_sends _ _ _ _ _ _ Hstep Hs) as (p & Hp & Hr).
  pose proof (steps_principal _ _ _ _ _ Hsteps) as Hc. cbn in Hc. rewrite Hp in Hc.
  exists p. split; [done|]. split; [done|].
  destruct (principal_origin _ _ _ _ _ _ Hsteps (eq_sym Hc)) as [[-> Hk]|Hauth]; [left|by right].
  split; [|done]. apply (authorize_principal a env header opened.1). rewrite <-Hopen.
  apply surjective_pairing.
Qed.

(** ** Order *)

(** The events that a principal may read. *)
Definition readable (p : AuthPrincipal) (es : list GeofenceEvent) : list GeofenceEvent :=
  filter (λ e, may_read p e = true) es.

#[local] Arguments readable : simpl never.
#[local] Arguments events_in : simpl never.

Lemma readable_nil p : readable p [] = [].
Proof. done. Qed.

Lemma readable_cons p e es :
  readable p (e :: es) = if may_read p e then e :: readable p es else readable p es.
Proof.
  unfold readable. destruct (may_read p e) eqn:Ha.
  - by rewrite filter_cons_True.
  - rewrite filter_cons_False; [done|]. by rewrite Ha.
Qed.

Lemma readable_app p es es' : readable p (es ++ es') = readable p es ++ readable p es'.
Proof. apply filter_app. Qed.

(** Neither the principal nor the subscription changes. *)
Definition steady_label (l : WsLabel) : bool :=
  match l with LTaken _ | LQuiet => true | LPrincipal _ | LReplaced => false end.

(** Without a queue there is no bridge. *)
Definition bridged (c : WsConnection) : Prop := wc_queue c = None → wc_bridge c = None.

(** The readable events of the queue and those already sent. *)
Definition handled (p : AuthPrincipal) (c : WsConnection) : list GeofenceEvent :=
  events_in (wc_sent c) ++ readable p (default [] (wc_queue c)).

Lemma quiet_send p taken f c : (∀ e, f ≠ FEvent e) → wc_open (ws_send taken f c) = true →
  bridged c →
  bridged (ws_send taken f c) ∧ handled p (ws_send taken f c) = handled p c.
Proof.
  intros Hf Ho Hb. destruct taken; [|done]. split; [done|]. unfold handled. cbn.
  rewrite events_in_app. destruct f; try by rewrite app_nil_r. by destruct (Hf event).
Qed.

Lemma incoming_steady p w m s c s' c' :
  ws_incoming w m s c = (s', c') → steady_label (message_label c c' m) = true →
  wc_open c' = true → bridged c → bridged c' ∧ handled p c' = handled p c.
Proof.
  intros Hin Hl Ho Hb. destruct m as [[[]|]| | |]; try discriminate Hl;
    cbn in Hin; injection Hin as <- <-; try done; by apply quiet_send.
Qed.

Lemma deliver_steady p w e rest c :
  wc_principal c = Some p → wc_queue c = Some (e :: rest) → wc_open (ws_deliver w e rest c) = true →
  bridged (ws_deliver w e rest c) ∧ handled p (ws_deliver w e rest c) = handled p c.
Proof.
  intros Hp Hq Ho. unfold ws_deliver, handled in *. cbn in *. rewrite Hp, Hq in *. cbn.
  rewrite readable_cons. unfold may_read.
  destruct (allows p SubscriptionsRead (ev_collection e)); cbn in *; [|done].
  destruct (wx_socket w); [|done]. split; [done|]. cbn. by rewrite events_in_app, <-app_assoc.
Qed.

Lemma step_steady p s c l s' c' :
  ws_step (s, c) l (s', c') → steady_label l = true → wc_principal c = Some p → bridged c →
  wc_open c' = true →
  wc_open c = true ∧ bridged c' ∧ handled p c' = handled p c ++ readable p (taken [l]).
Proof.
  intros Hstep Hl Hp Hb Ho. inversion Hstep; subst.
  - split; [done|].
    match goal with H : ws_incoming _ _ _ _ = _ |- _ =>
      destruct (incoming_steady p _ _ _ _ _ _ H Hl Ho Hb) as [Hb' ->] end.
    split; [done|]. destruct m as [[[]|]| | |]; by rewrite app_nil_r.
  - split; [done|]. cbn. rewrite app_nil_r. by apply deliver_steady.
  - split_and!; [done..|]. unfold handled. cbn. simplify_option_eq.
    by rewrite readable_nil, !app_nil_r.
  - split_and!; [done..|]. by rewrite app_nil_r.
  - split_and!; [done|by intros Hq; specialize (Hb Hq); simplify_eq|by rewrite app_nil_r].
  - destruct (wc_queue c) as [q|] eqn:Hq; [|by specialize (Hb Hq); simplify_eq].
    split_and!; [done..|]. unfold handled. cbn. rewrite Hq. cbn.
    by rewrite readable_app, app_assoc.
  - split_and!; [done|by intros Hq; specialize (Hb Hq); simplify_eq|by rewrite app_nil_r].
  - split_and!; [done..|]. by rewrite app_nil_r.
Qed.

(** C40: a subscriber gets exactly what it may read, in order.  While a
    connection stays open, keeps its principal and keeps its subscription,
    the events sent so far followed by the readable ones still queued are the
    events sent before followed by the readable ones among those that were
    queued before and those that the bridge has taken off the mailbox since, in
    the order in which it took them.  So nothing is lost, repeated or reordered. *)
Theorem subscription_in_order s0 c0 tr s c p :
  ws_steps (s0, c0) tr (s, c) → forallb steady_label tr = true →
  wc_principal c0 = Some p → bridged c0 → wc_open c = true →
  handled p c = handled p c0 ++ readable p (taken tr).
Proof.
  intros Hsteps Hst Hp Hb Ho.
  enough (bridged c ∧ handled p c = handled p c0 ++ readable p (taken tr)) by naive_solver.
  remember (s0, c0) as x eqn:Hx. remember (s, c) as y eqn:Hy. revert s c Hy Ho.
  induction Hsteps as [x|x [s1 c1] z tr l Hsteps IH Hstep]; intros s c -> Ho; subst.
  - injection Hx as -> ->. split; [done|]. by rewrite app_nil_r.
  - rewrite forallb_app in Hst. apply andb_true_iff in Hst as [Hst Hl]. cbn in Hl.
    rewrite andb_true_r in Hl.
    assert (wc_principal c1 = Some p) as Hp1.
    { rewrite (steps_principal _ _ _ _ _ Hsteps), Hp. clear -Hst.
      induction tr as [|l tr IH] using rev_ind; [done|]. rewrite forallb_app in Hst.
      apply andb_true_iff in Hst as [Hst Hl]. rewrite current_snoc.
      destruct l; try discriminate Hl; by apply IH. }
    assert (wc_open c1 = true) as Ho1 by (inversion Hstep; subst; done).
    destruct (IH eq_refl Hst s1 c1 eq_refl Ho1) as [Hb1 IH1].
    destruct (step_steady p _ _ _ _ _ Hstep Hl Hp1 Hb1 Ho) as (_ & Hb' & Hpr).
    split; [done|]. by rewrite Hpr, IH1, taken_snoc, readable_app, app_assoc.
Qed.

(** ** Streams over RPC *)

(** Turns of the worker and calls of [next], under changes of the server: the
    events that the worker took and the ones that were handed out. *)
Inductive StreamAction : Type :=
  | Turn (s : WsState)
  | Next.

Fixpoint stream_run (acts : list StreamAction) (st : GeofenceStream)
    : GeofenceStream * list GeofenceEvent * list GeofenceEvent :=
  match acts with
  | [] => (st, [], [])
  | a :: acts' =>
      let '(st1, got, given) :=
        match a with
        | Turn s => let '(st1, e) := stream_turn s st in (st1, option_list e, [])
        | Next => let '(st1, e) := stream_pop st in (st1, [], option_list e)
        end in
      let '(st2, got', given') := stream_run acts' st1 in (st2, got ++ got', given ++ given')
  end.

(** A stream hands out exactly the events that its principal may read, in the
    order in which the worker took them. *)
Lemma stream_in_order acts st :
  let '(st', got, given) := stream_run acts st in
  gs_principal st' = gs_principal st ∧
  given ++ gs_queue st' = gs_queue st ++ readable (gs_principal st) got.
Proof.
  revert st. induction acts as [|a acts IH]; intros st; cbn; [by rewrite app_nil_r|].
  destruct a as [s|].
  - unfold stream_turn. destruct (br_phase (gs_bridge st)) as [|g]; [|].
    { specialize (IH (mkStream (gs_principal st) (bridge_look s (gs_bridge st)) (gs_queue st))).
      destruct (stream_run acts _) as [[st2 got'] given']. exact IH. }
    destruct (bridge_take s (gs_bridge st) g) as [[b [e|]]|].
    + set (q := if negb (allows (gs_principal st) SubscriptionsRead (ev_collection e))
                then gs_queue st else gs_queue st ++ [e]).
      specialize (IH (mkStream (gs_principal st) b q)).
      destruct (stream_run acts _) as [[st2 got'] given']. cbn in *. destruct IH as [IH1 IH2].
      split; [done|]. rewrite IH2, readable_cons. subst q. unfold may_read.
      destruct (allows (gs_principal st) SubscriptionsRead (ev_collection e)); cbn;
        by rewrite <-?app_assoc.
    + specialize (IH (mkStream (gs_principal st) b (gs_queue st))).
      destruct (stream_run acts _) as [[st2 got'] given']. exact IH.
    + specialize (IH st). destruct (stream_run acts _) as [[st2 got'] given']. exact IH.
  - unfold stream_pop. destruct (gs_queue st) as [|e rest] eqn:Hq.
    + specialize (IH st). rewrite Hq in IH. destruct (stream_run acts _) as [[st2 got'] given'].
      exact IH.
    + specialize (IH (mkStream (gs_principal st) (gs_bridge st) rest)).
      destruct (stream_run acts _) as [[st2 got'] given']. cbn in *. destruct IH as [IH1 IH2].
      split; [done|]. by rewrite IH2.
Qed.

End Subscribers.

(** ** A connection *)

Module WsWitness.
Import PlainText.
#[local] Existing Instance AuthWitness.crate.

Definition reader : AuthPrincipal :=
  mkPrincipal "tenant" false [mkRule ["fleet"] {[SubscriptionsRead]}].
Definition fence_on (n : string) : GeofenceDef :=
  mkDef n (QNearby fzero fzero fzero default_search_options) [] [].
Definition event_on (n : string) : GeofenceEvent :=
  mkEvent MSet DEnter n "lorry" (GtString "here") ∅ 0 None None None (Some "alerts") None 0.

(** A subscriber of all channels, an event it may not read and one it may. *)
Definition quiet_server : WsState := mkWs (registry_new 8) AuthWitness.server.
Definition weather : Weather := mkWeather true true (AuthWitness.env_at 0).
Definition subscribed : WsState * WsConnection :=
  ws_incoming weather (MText (Some (WsPsubscribe ["*"]))) quiet_server (ws_open (Some reader)).

Definition published (s : WsState) (es : list GeofenceEvent) : WsState :=
  let r := ws_geofences s in
  mkWs (mkRegistry (subscriber_queue_capacity r) (channels r) (channels_by_collection r)
          (channels_by_target_collection r) (hooks r) (hooks_by_collection r)
          (hooks_by_target_collection r) (cross_collection_roaming_collections r)
          (foldl (λ subs e, publish_to e <$> subs) (subscribers r) es) (generation r)
          (eval_errors_total r)) (ws_auth s).

Definition busy : WsState := published subscribed.1 [event_on "vault"; event_on "fleet"].
Definition bridge0 : ReceiverBridge := mkBridge (mkReceiver 0 0) Looking.
Definition bridge_at (position : Z) : ReceiverBridge := mkBridge (mkReceiver 0 position) Looking.
Definition waiting_at (position : Z) : ReceiverBridge :=
  mkBridge (mkReceiver 0 position) (Waiting 0).
Definition conn (q : list GeofenceEvent) (b : ReceiverBridge) (sent : list WsFrame)
    : WsConnection := mkConn (Some reader) (Some q) (Some b) sent true.
Definition hello : list WsFrame := [FPsubscribed ["*"]].

Lemma subscribed_conn : subscribed.2 = conn [] (bridge_at 0) hello.
Proof. reflexivity. Qed.

(** The bridge takes both events, the first is skipped by the filter. *)
Definition run_labels : list WsLabel :=
  [LQuiet; LQuiet; LTaken (event_on "vault"); LQuiet; LTaken (event_on "fleet"); LQuiet].

Lemma takes (n : Z) (q : list GeofenceEvent) (e : GeofenceEvent) :
  bridge_take busy (waiting_at n) 0 = Some (bridge_at (n + 1), Some e) →
  ws_step (busy, conn q (waiting_at n) hello) (LTaken e)
          (busy, conn (q ++ [e]) (bridge_at (n + 1)) hello).
Proof. exact (step_take busy (conn q (waiting_at n) hello) (waiting_at n) 0 _ e eq_refl eq_refl). Qed.

Lemma looks (n : Z) (q : list GeofenceEvent) :
  ws_step (busy, conn q (bridge_at n) hello) LQuiet (busy, conn q (waiting_at n) hello).
Proof. exact (step_look busy (conn q (bridge_at n) hello) (bridge_at n) eq_refl eq_refl). Qed.

Lemma delivers (e : GeofenceEvent) (rest : list GeofenceEvent) sent :
  ws_deliver weather e rest (conn (e :: rest) (bridge_at 2) hello) = conn rest (bridge_at 2) sent →
  ws_step (busy, conn (e :: rest) (bridge_at 2) hello) LQuiet (busy, conn rest (bridge_at 2) sent).
Proof. intros <-. by apply step_deliver. Qed.

Lemma ws_run_ok : ws_steps (subscribed.1, subscribed.2) run_labels
  (busy, conn [event_on "fleet"] (bridge_at 2) hello).
Proof.
  rewrite subscribed_conn.
  pose proof (steps_snoc _ _ _ _ _ (steps_refl (subscribed.1, conn [] (bridge_at 0) hello))
                (step_server _ _ busy)) as H1.
  pose proof (steps_snoc _ _ _ _ _ H1 (looks 0 [])) as H2.
  assert (bridge_take busy (waiting_at 0) 0 = Some (bridge_at (0 + 1), Some (event_on "vault")))
    as T1 by (vm_compute; reflexivity).
  pose proof (steps_snoc _ _ _ _ _ H2 (takes 0 [] _ T1)) as H3.
  pose proof (steps_snoc _ _ _ _ _ H3 (looks 1 [event_on "vault"])) as H4.
  assert (bridge_take busy (waiting_at 1) 0 = Some (bridge_at (1 + 1), Some (event_on "fleet")))
    as T2 by (vm_compute; reflexivity).
  pose proof (steps_snoc _ _ _ _ _ H4 (takes 1 [event_on "vault"] _ T2)) as H5.
  refine (steps_snoc _ _ _ _ _ H5 (delivers (event_on "vault") [event_on "fleet"] hello _)).
  vm_compute. reflexivity.
Qed.

Lemma subscription_in_order_witness :
  handled reader (conn [event_on "fleet"] (bridge_at 2) hello) =
  handled reader subscribed.2 ++ readable reader [event_on "vault"; event_on "fleet"].
Proof.
  apply (subscription_in_order subscribed.1 subscribed.2 run_labels busy _ reader ws_run_ok);
    [reflexivity | reflexivity | intros [=] | reflexivity].
Defined.

(** A connection opened with the service token. *)
Definition upgrade : Authenticator * result (option AuthPrincipal) AuthError :=
  authorize AuthWitness.server (AuthWitness.env_at 0) (Some "Bearer service").
Definition admin_conn (q : list GeofenceEvent) (b : ReceiverBridge) (sent : list WsFrame)
    : WsConnection := mkConn (Some service_admin) (Some q) (Some b) sent true.

Lemma admin_run : ws_steps (mkWs (registry_new 8) upgrade.1, ws_open (Some service_admin))
  [LReplaced; LQuiet; LQuiet; LTaken (event_on "vault")]
  (busy, admin_conn [event_on "vault"] (bridge_at 1) hello).
Proof.
  assert (ws_step (mkWs (registry_new 8) upgrade.1, ws_open (Some service_admin)) LReplaced
            (subscribed.1, admin_conn [] (bridge_at 0) hello)) as H0.
  { apply (step_message weather (MText (Some (WsPsubscribe ["*"])))); reflexivity. }
  pose proof (steps_snoc _ _ _ _ _ (steps_refl _) H0) as H1.
  pose proof (steps_snoc _ _ _ _ _ H1 (step_server _ _ busy)) as H2.
  pose proof (steps_snoc _ _ _ _ _ H2
    (step_look busy (admin_conn [] (bridge_at 0) hello) (bridge_at 0) eq_refl eq_refl)) as H3.
  assert (bridge_take busy (waiting_at 0) 0 = Some (bridge_at 1, Some (event_on "vault")))
    as T1 by (vm_compute; reflexivity).
  exact (steps_snoc _ _ _ _ _ H3 (step_take busy (admin_conn [] (waiting_at 0) hello)
    (waiting_at 0) 0 _ _ eq_refl eq_refl T1)).
Qed.

Lemma subscriber_sees_only_permitted_witness :
  ∃ p, current (Some service_admin) [LReplaced; LQuiet; LQuiet; LTaken (event_on "vault")] = Some p ∧
    may_read p (event_on "vault") = true.
Proof.
  destruct (subscriber_sees_only_permitted AuthWitness.server (AuthWitness.env_at 0)
    (Some "Bearer service") (registry_new 8) (Some service_admin) _ busy _ LQuiet busy
    (admin_conn [] (bridge_at 1) (hello ++ [FEvent (event_on "vault")])) (event_on "vault")
    eq_refl admin_run) as (p & H1 & H2 & _).
  - exact (step_deliver weather busy (admin_conn [event_on "vault"] (bridge_at 1) hello)
             (event_on "vault") [] eq_refl eq_refl).
  - reflexivity.
  - exists p. split; assumption.
Defined.

End WsWitness.
