(* ===== verification/StreamWait.v ===== *)
(** * Waiting for the log ([ReplicationStreamRpc::next] of
    [crates/latlng-capnp/src/streams.rs])

    A stream reads the log on the executor; when there is nothing to send it
    waits for a notification and reads again.  A handler notifies after its
    operation has answered.  [Notify::notify_waiters] wakes the futures that
    exist when it is called and is not remembered, so a future becomes ready
    when it was called after the future was made.

    The steps of one call of [next] and of the writers, in any order. *)

From Stdlib Require Import ZArith Lia.
From stdpp Require Import base gmap strings list.
From S2P Require Import Prelude Storage F64 Json Platform Geo Strings Index IndexSpec Geofence.
From S2P Require Import Collection Engine EngineSpec StorageMemory Recovery Replication.

(** Where the call is: about to read, back from the executor with nothing,
    awaiting a future made after [calls] notifications, or returned. *)
Inductive NextPhase : Type :=
  | NReading
  | NEmpty
  | NAwaiting (calls : nat)
  | NReturned (batch : list StorageEntry * Z * Z).

Section Wait.
Context `{LM : Libm} `{GC : GeoCrate} `{RC : RTreeCrate} `{JT : JsonText} `{PT : Patterns}
  `{HO : HashOrder} `{LC : LogCodec} `{MD : Md5} `{B64 : Base64}.
Context {S : Type} `{SB : StorageBackend S}.

(** The leader, the notifications so far, and the writes whose handlers have
    yet to notify. *)
Record WaitState := mkWait {
  wt_db : LatLng S;
  wt_calls : nat;
  wt_unannounced : nat;
  wt_phase : NextPhase
}.

Definition at_phase (st : WaitState) (p : NextPhase) : WaitState :=
  mkWait (wt_db st) (wt_calls st) (wt_unannounced st) p.

(** The stream's position and its batch size. *)
Context (after_sequence : Z) (batch_size : nat).

(** One read of the loop. *)
Definition next_read (st : WaitState) : option NextPhase :=
  match stream_next (wt_db st) after_sequence batch_size with
  | Err _ => None
  | Ok None => Some NEmpty
  | Ok (Some batch) => Some (NReturned batch)
  end.

Inductive wait_step : WaitState → WaitState → Prop :=
  | wait_write st db :
      wait_step st (mkWait db (wt_calls st) (Datatypes.S (wt_unannounced st)) (wt_phase st))
  | wait_notify st n :
      wt_unannounced st = Datatypes.S n →
      wait_step st (mkWait (wt_db st) (Datatypes.S (wt_calls st)) n (wt_phase st))
  | wait_read st p :
      wt_phase st = NReading → next_read st = Some p → wait_step st (at_phase st p)
  | wait_register st :
      wt_phase st = NEmpty → wait_step st (at_phase st (NAwaiting (wt_calls st)))
  | wait_wake st k :
      wt_phase st = NAwaiting k → k ≠ wt_calls st → wait_step st (at_phase st NReading).

(** The call can do nothing by itself. *)
Definition parked (st : WaitState) : Prop := wt_phase st = NAwaiting (wt_calls st).

(** Futures are made with the number of notifications so far. *)
Definition wait_inv (st : WaitState) : Prop :=
  match wt_phase st with NAwaiting k => k ≤ wt_calls st | _ => True end.

Lemma wait_inv_step st st' : wait_step st st' → wait_inv st → wait_inv st'.
Proof.
  unfold wait_inv. destruct 1; cbn; try done.
  - destruct (wt_phase st); lia.
  - by destruct (next_read st) as [[]|] eqn:Hr; unfold next_read in Hr; repeat case_match; simplify_eq.
Qed.

(** A notified stream delivers.  Wherever a call of [next] waits, one more
    notification lets it go on, and if the log then holds entries after the
    stream's position it returns the next batch of them: a delay lasts at most
    until the next write is announced. *)
Theorem announced_write_is_delivered st0 st n batch :
  rtc wait_step st0 st → wait_inv st0 → (∃ k, wt_phase st = NAwaiting k) →
  wt_unannounced st = Datatypes.S n →
  stream_next (wt_db st) after_sequence batch_size = Ok (Some batch) →
  rtc wait_step st
    (mkWait (wt_db st) (Datatypes.S (wt_calls st)) n (NReturned batch)).
Proof.
  intros Hrun Hinv0 [k Hk] Hn Hbatch.
  assert (wait_inv st) as Hinv.
  { clear -Hrun Hinv0. induction Hrun; eauto using wait_inv_step. }
  unfold wait_inv in Hinv. rewrite Hk in Hinv.
  eapply rtc_l; [by apply wait_notify|].
  eapply rtc_l; [eapply wait_wake; [exact Hk|cbn; lia]|].
  apply rtc_once.
  set (woken := mkWait (wt_db st) (Datatypes.S (wt_calls st)) n NReading).
  refine (wait_read woken (NReturned batch) eq_refl _). unfold next_read. cbn. by rewrite Hbatch.
Qed.

End Wait.

Module WaitWitness.
Import ListTree NoGeoJson PlainText Memory.
#[local] Existing Instance RecoveryWitness.codec.
#[local] Existing Instance RecoveryWitness.base64.
#[local] Existing Instance RecoveryWitness.md5.

Definition clock : Clock := mkClock 1000 1000000000.
Definition empty_db : LatLng MemoryBackend := fresh recording default_config.
Definition written_db : LatLng MemoryBackend :=
  (op_set clock (mkSetRequest "fleet" "truck" (GtString "here") [] None Always) empty_db).1.

Notation waits := (mkWait (S := MemoryBackend)).

Definition batch_of (db : LatLng MemoryBackend) : list StorageEntry * Z * Z :=
  match stream_next db 0 10 with Ok (Some b) => b | _ => ([], 0%Z, 0%Z) end.

Lemma written_has_batch : stream_next written_db 0 10 = Ok (Some (batch_of written_db)).
Proof. vm_compute. reflexivity. Qed.

Lemma announced_write_is_delivered_witness :
  rtc (wait_step 0 10) (waits written_db 0 1 (NAwaiting 0))
    (waits written_db 1 0 (NReturned (batch_of written_db))).
Proof.
  apply (announced_write_is_delivered 0 10 (waits empty_db 0 0 (NAwaiting 0))
           (waits written_db 0 1 (NAwaiting 0)) 0 (batch_of written_db)).
  - apply rtc_once. apply (wait_write 0 10 (waits empty_db 0 0 (NAwaiting 0)) written_db).
  - cbn. lia.
  - by eexists.
  - reflexivity.
  - apply written_has_batch.
Defined.

(** A write that is announced between the read and the making of the future is
    missed: the call waits although the log holds an entry for it, and no write
    is left to be announced. *)
Theorem stream_misses_a_write :
  ∃ st, rtc (wait_step 0 10) (waits empty_db 0 0 NReading) st ∧
    parked st ∧ wt_unannounced st = 0 ∧
    stream_next (wt_db st) 0 10 = Ok (Some (batch_of written_db)).
Proof.
  exists (waits written_db 1 0 (NAwaiting 1)). split_and!; [|reflexivity..|apply written_has_batch].
  eapply rtc_l; [apply (wait_read 0 10 _ NEmpty); reflexivity|].
  eapply rtc_l; [apply (wait_write 0 10 _ written_db)|].
  eapply rtc_l; [eapply wait_notify; reflexivity|].
  apply rtc_once. eapply (wait_register 0 10 (waits written_db 1 0 NEmpty)). reflexivity.
Qed.

(** Such a call stays there until somebody writes. *)
Theorem missed_until_next_write st' :
  wait_step 0 10 (waits written_db 1 0 (NAwaiting 1)) st' →
  ∃ db, st' = waits db 1 1 (NAwaiting 1).
Proof. inversion 1; subst; cbn in *; try discriminate; [by eexists|]. simplify_eq. Qed.

End WaitWitness.
