(* ===== verification/Executor.v ===== *)
(** * The executor ([crates/latlng-native-executor/src/lib.rs])

    Calls wait for a permit of a semaphore, a call with a permit puts its job
    into the queue, and a worker that takes a job gives the permit back before
    it runs the job.  A job that panics answers [Panicked].  When the executor
    is dropped no further call is taken, and the workers empty the queue.

    Tokio's semaphore serves its waiters in order, and the channel is a queue.
    A job runs in one step: how the operations of the engine interleave is the
    subject of [Concurrency]. *)

From Stdlib Require Import ZArith Lia.
From stdpp Require Import base gmap strings list.
From S2P Require Import Prelude.

Section Executor.
Context {D T : Type}.

Inductive NativeExecutorError : Type := ExClosed | ExPanicked.

(** An operation on the database; [None] is a panic. *)
Definition Job : Type := D → D * option T.

(** [ExecutorJob::run]. *)
Definition job_run (job : Job) (db : D) : D * option T := job db.

(** The database, the sender, the free permits, the calls that wait for a
    permit, the queue, the workers, and the answers of the calls. *)
Record Executor := mkExecutor {
  ex_db : D;
  ex_sender : bool;
  ex_permits : nat;
  ex_waiting : list (nat * Job);
  ex_queue : list (nat * Job);
  ex_workers : list (option (nat * Job));
  ex_answers : gmap nat (result T NativeExecutorError)
}.

(** [NativeExecutor::new]. *)
Definition executor_new (db : D) (threads queue_limit : nat) : Executor :=
  mkExecutor db true (Nat.max queue_limit 1) [] [] (replicate (Nat.max threads 1) None) ∅.

(** [execute], up to the permit. *)
Definition ex_call (id : nat) (op : Job) (x : Executor) : Executor :=
  if ex_sender x
  then mkExecutor (ex_db x) true (ex_permits x) (ex_waiting x ++ [(id, op)]) (ex_queue x)
         (ex_workers x) (ex_answers x)
  else mkExecutor (ex_db x) false (ex_permits x) (ex_waiting x) (ex_queue x) (ex_workers x)
         (<[id := Err ExClosed]> (ex_answers x)).

(** The oldest waiter gets a permit and sends its job. *)
Definition ex_acquire (x : Executor) : option Executor :=
  match ex_waiting x, ex_permits x with
  | job :: rest, Datatypes.S permits =>
      Some (mkExecutor (ex_db x) (ex_sender x) permits rest (ex_queue x ++ [job]) (ex_workers x)
              (ex_answers x))
  | _, _ => None
  end.

(** A worker takes the oldest job and drops its permit. *)
Definition ex_take (w : nat) (x : Executor) : option Executor :=
  match ex_queue x, ex_workers x !! w with
  | job :: rest, Some None =>
      Some (mkExecutor (ex_db x) (ex_sender x) (Datatypes.S (ex_permits x)) (ex_waiting x) rest
              (<[w := Some job]> (ex_workers x)) (ex_answers x))
  | _, _ => None
  end.

(** It runs the job, under [catch_unwind], and sends the result. *)
Definition ex_run (w : nat) (x : Executor) : option Executor :=
  match ex_workers x !! w with
  | Some (Some job) =>
      let '(db, r) := job_run job.2 (ex_db x) in
      Some (mkExecutor db (ex_sender x) (ex_permits x) (ex_waiting x) (ex_queue x)
              (<[w := None]> (ex_workers x))
              (<[job.1 := match r with Some t => Ok t | None => Err ExPanicked end]> (ex_answers x)))
  | _ => None
  end.

(** [drop]: the sender is taken. *)
Definition ex_drop (x : Executor) : Executor :=
  mkExecutor (ex_db x) false (ex_permits x) (ex_waiting x) (ex_queue x) (ex_workers x)
    (ex_answers x).

(** ** Steps *)

(** What the executor does by itself. *)
Inductive ex_internal : Executor → Executor → Prop :=
  | internal_acquire x x' : ex_acquire x = Some x' → ex_internal x x'
  | internal_take w x x' : ex_take w x = Some x' → ex_internal x x'
  | internal_run w x x' : ex_run w x = Some x' → ex_internal x x'.

(** Together with the calls, which are numbered. *)
Inductive ex_steps (x0 : Executor) : nat → Executor → Prop :=
  | ex_start : ex_steps x0 0 x0
  | ex_called n x op : ex_steps x0 n x → ex_steps x0 (Datatypes.S n) (ex_call n op x)
  | ex_moved n x x' : ex_steps x0 n x → ex_internal x x' → ex_steps x0 n x'
  | ex_dropped n x : ex_steps x0 n x → ex_steps x0 n (ex_drop x).

(** ** Invariant *)

Definition busy_jobs (x : Executor) : list (nat * Job) := omap Datatypes.id (ex_workers x).

(** The calls that have no answer yet, oldest first. *)
Definition open_calls (x : Executor) : list nat :=
  (busy_jobs x ++ ex_queue x ++ ex_waiting x).*1.
#[local] Arguments open_calls : simpl never.

(** Every call is open or answered, and never both; permits and queued jobs
    make up the limit. *)
Record ex_inv (threads limit n : nat) (x : Executor) : Prop := {
  inv_workers : length (ex_workers x) = threads;
  inv_permits : ex_permits x + length (ex_queue x) = limit;
  inv_once : NoDup (open_calls x);
  inv_covered : ∀ id, id < n ↔ id ∈ open_calls x ∨ is_Some (ex_answers x !! id);
  inv_apart : ∀ id, id ∈ open_calls x → ex_answers x !! id = None
}.

Lemma omap_insert_None {A} (l : list (option A)) w a :
  l !! w = Some (Some a) → a :: omap Datatypes.id (<[w := None]> l) ≡ₚ omap Datatypes.id l.
Proof.
  intros Hw. rewrite insert_take_drop by (by eapply lookup_lt_Some).
  rewrite <-(take_drop_middle l w (Some a) Hw) at 3. rewrite !omap_app. cbn.
  apply Permutation_middle.
Qed.

Lemma omap_insert_Some {A} (l : list (option A)) w a :
  l !! w = Some None → omap Datatypes.id (<[w := Some a]> l) ≡ₚ a :: omap Datatypes.id l.
Proof.
  intros Hw. rewrite insert_take_drop by (by eapply lookup_lt_Some).
  rewrite <-(take_drop_middle l w None Hw) at 3. rewrite !omap_app. cbn.
  symmetry. apply Permutation_middle.
Qed.

(** A step that only moves jobs from one place to another. *)
Lemma inv_moved threads limit n x x' :
  ex_inv threads limit n x → length (ex_workers x') = length (ex_workers x) →
  ex_permits x' + length (ex_queue x') = ex_permits x + length (ex_queue x) →
  busy_jobs x' ++ ex_queue x' ++ ex_waiting x' ≡ₚ busy_jobs x ++ ex_queue x ++ ex_waiting x →
  ex_answers x' = ex_answers x → ex_inv threads limit n x'.
Proof.
  intros [Hw Hp Ho Hc Ha] Hw' Hp' Hperm Hans.
  assert (open_calls x' ≡ₚ open_calls x) as Hopen by (unfold open_calls; by rewrite Hperm).
  split; [by rewrite Hw'|by rewrite Hp'|by rewrite Hopen| |]; intros id; rewrite Hopen, Hans; auto.
Qed.

Lemma inv_internal threads limit n x x' :
  ex_internal x x' → ex_inv threads limit n x → ex_inv threads limit n x'.
Proof.
  intros Hstep Hinv. destruct Hstep as [x x' Hs|w x x' Hs|w x x' Hs].
  - unfold ex_acquire in Hs. destruct (ex_waiting x) as [|job rest] eqn:Hwait; [done|].
    destruct (ex_permits x) as [|k] eqn:Hk; [done|]. injection Hs as <-.
    apply (inv_moved _ _ _ _ _ Hinv); cbn; [done|rewrite length_app, Hk; cbn; lia| |done].
    rewrite Hwait. unfold busy_jobs. cbn. by rewrite <-!app_assoc.
  - unfold ex_take in Hs. destruct (ex_queue x) as [|job rest] eqn:Hq; [done|].
    destruct (ex_workers x !! w) as [[]|] eqn:Hw; try done. injection Hs as <-.
    apply (inv_moved _ _ _ _ _ Hinv); cbn; [by rewrite length_insert|rewrite Hq; cbn; lia| |done].
    unfold busy_jobs. cbn. rewrite Hq, (omap_insert_Some _ _ _ Hw). cbn.
    apply Permutation_middle.
  - unfold ex_run in Hs. destruct (ex_workers x !! w) as [[[id op]|]|] eqn:Hw; try done.
    cbn [fst snd] in Hs. destruct (job_run op (ex_db x)) as [db r]. injection Hs as <-.
    destruct Hinv as [Hlen Hp Ho Hc Ha].
    set (x' := mkExecutor _ _ _ _ _ _ _).
    assert (id :: open_calls x' ≡ₚ open_calls x) as Hopen.
    { unfold open_calls, busy_jobs. cbn. rewrite !fmap_app.
      rewrite <-(omap_insert_None _ _ _ Hw). done. }
    assert (NoDup (id :: open_calls x')) as Hnd by by rewrite Hopen.
    apply NoDup_cons in Hnd as [Hfresh Hnd].
    split; cbn; [by rewrite length_insert|done|done| |].
    + intros id'. rewrite Hc, <-Hopen, elem_of_cons. destruct (decide (id' = id)) as [->|Hne].
      * rewrite lookup_insert_eq. naive_solver.
      * rewrite lookup_insert_ne by done. naive_solver.
    + intros id' Hin. rewrite lookup_insert_ne by (intros ->; done).
      apply Ha. rewrite <-Hopen. by right.
Qed.

Lemma inv_call threads limit n op x :
  ex_inv threads limit n x → ex_inv threads limit (Datatypes.S n) (ex_call n op x).
Proof.
  intros [Hlen Hp Ho Hc Ha].
  assert (n ∉ open_calls x ∧ ex_answers x !! n = None) as [Hno Hna].
  { split; [|apply eq_None_not_Some]; intros Hin; assert (n < n) by (apply Hc; auto); lia. }
  unfold ex_call. destruct (ex_sender x).
  - set (x' := mkExecutor _ _ _ _ _ _ _).
    assert (open_calls x' = open_calls x ++ [n]) as Hopen.
    { unfold open_calls, busy_jobs. cbn. by rewrite !app_assoc, fmap_app. }
    split; [done|done|rewrite Hopen|..].
    + apply NoDup_app. split_and!; [done| |apply NoDup_singleton].
      intros y Hy ->%list_elem_of_singleton. done.
    + intros id. rewrite Hopen, elem_of_app, list_elem_of_singleton. change (ex_answers x') with (ex_answers x).
      specialize (Hc id). split.
      * intros Hlt. destruct (decide (id = n)) as [->|]; [by left; right|].
        destruct Hc as [[] _]; [lia|by left; left|by right].
      * intros [[Hin| ->]|Hin]; [|lia|]; (assert (id < n) by (apply Hc; auto)); lia.
    + intros id. rewrite Hopen, elem_of_app, list_elem_of_singleton. change (ex_answers x') with (ex_answers x).
      intros [Hin| ->]; [by apply Ha|done].
  - set (x' := mkExecutor _ _ _ _ _ _ _).
    split; [done|done|done|..]; intros id; change (open_calls x') with (open_calls x); cbn [ex_answers x'].
    + specialize (Hc id). destruct (decide (id = n)) as [->|Hne].
      * rewrite lookup_insert_eq. split; [intros _; right; by eexists|lia].
      * rewrite lookup_insert_ne by done. rewrite <-Hc. lia.
    + intros Hin. rewrite lookup_insert_ne; [by apply Ha|]. intros <-. by apply Hno.
Qed.

Lemma inv_new db threads limit :
  ex_inv (Nat.max threads 1) (Nat.max limit 1) 0 (executor_new db threads limit).
Proof.
  assert (open_calls (executor_new db threads limit) = []) as Hopen.
  { unfold open_calls, busy_jobs, executor_new. cbn. rewrite !app_nil_r.
    induction (Nat.max threads 1) as [|k IH]; [done|]. exact IH. }
  split; rewrite ?Hopen.
  - cbn. by rewrite length_replicate.
  - cbn. lia.
  - constructor.
  - intros id. cbn [executor_new ex_answers]. rewrite lookup_empty. split; [lia|].
    intros [Hin|Hin]; [by apply not_elem_of_nil in Hin | by apply is_Some_None in Hin].
  - intros id Hin. by apply not_elem_of_nil in Hin.
Qed.

Lemma inv_reachable db threads limit n x :
  ex_steps (executor_new db threads limit) n x →
  ex_inv (Nat.max threads 1) (Nat.max limit 1) n x.
Proof.
  induction 1; eauto using inv_new, inv_call, inv_internal.
  destruct IHex_steps. by split.
Qed.

(** ** Progress *)

(** How much is left to do. *)
Definition ex_measure (x : Executor) : nat :=
  3 * length (ex_waiting x) + 2 * length (ex_queue x) + length (busy_jobs x).

Lemma internal_decreases x x' : ex_internal x x' → ex_measure x' < ex_measure x.
Proof.
  unfold ex_measure. destruct 1 as [x x' Hs|w x x' Hs|w x x' Hs].
  - unfold ex_acquire in Hs. destruct (ex_waiting x) as [|job rest]; [done|].
    destruct (ex_permits x); [done|]. injection Hs as <-. unfold busy_jobs. cbn.
    rewrite length_app. cbn. lia.
  - unfold ex_take in Hs. destruct (ex_queue x) as [|job rest]; [done|].
    destruct (ex_workers x !! w) as [[]|] eqn:Hw; try done. injection Hs as <-.
    unfold busy_jobs. cbn. rewrite (omap_insert_Some _ _ _ Hw). cbn. lia.
  - unfold ex_run in Hs. destruct (ex_workers x !! w) as [[[id op]|]|] eqn:Hw; try done.
    cbn [fst snd] in Hs. destruct (job_run op (ex_db x)) as [db r]. injection Hs as <-. unfold busy_jobs. cbn.
    pose proof (Permutation_length (omap_insert_None _ _ _ Hw)) as Hl. cbn [length] in Hl.
    unfold Job in *. lia.
Qed.

(** A worker is busy or free. *)
Lemma worker_cases (ws : list (option (nat * Job))) :
  ws ≠ [] → (∃ w job, ws !! w = Some (Some job)) ∨ (∃ w, ws !! w = Some None).
Proof. destruct ws as [|[job|] ws]; [done|left; by exists 0, job|right; by exists 0]. Qed.

Lemma busy_runs w x job : ex_workers x !! w = Some (Some job) → ∃ x', ex_internal x x'.
Proof.
  intros Hw. destruct (ex_run w x) as [x'|] eqn:Hr; [exists x'; by apply (internal_run w)|].
  unfold ex_run in Hr. rewrite Hw in Hr. by destruct (job_run job.2 (ex_db x)).
Qed.

Lemma internal_progress threads limit n x :
  ex_inv threads limit n x → 0 < threads → 0 < limit → open_calls x ≠ [] →
  ∃ x', ex_internal x x'.
Proof.
  intros Hinv Ht Hl Hopen. destruct (worker_cases (ex_workers x)) as [(w & [id op] & Hw)|[w Hw]].
  - intros Hnil. pose proof (inv_workers _ _ _ _ Hinv) as Hlen. rewrite Hnil in Hlen. cbn in Hlen. lia.
  - by eapply busy_runs.
  - destruct (ex_queue x) as [|job rest] eqn:Hq.
    + destruct (ex_waiting x) as [|job rest] eqn:Hwait.
      * destruct (busy_jobs x) as [|[id op] js] eqn:Hb;
          [by destruct Hopen; unfold open_calls; rewrite Hb, Hq, Hwait|].
        assert (Some (id, op) ∈ ex_workers x) as Hin.
        { assert ((id, op) ∈ busy_jobs x) as (o & Ho & Heq)%list_elem_of_omap by (rewrite Hb; by left).
          by rewrite <-Heq. }
        apply list_elem_of_lookup in Hin as [w' Hw']. by eapply busy_runs.
      * pose proof (inv_permits _ _ _ _ Hinv) as Hp. rewrite Hq in Hp. cbn in Hp.
        destruct (ex_permits x) as [|k] eqn:Hk; [lia|]. eexists. apply internal_acquire.
        unfold ex_acquire. by rewrite Hwait, Hk.
    + eexists. apply (internal_take w). unfold ex_take. by rewrite Hq, Hw.
Qed.

(** C8: the executor answers every call.  After any calls, any of its own steps
    in any order and possibly being dropped, at most [queue_limit] jobs are
    queued and no call is answered while it is still open.  From there every
    sequence of its own steps is bounded, and as long as a call is open there
    is a next step: so every call is answered, with the result of its
    operation, that it panicked, or that the executor was closed. *)
Theorem executor_answers_every_call db threads limit n x :
  ex_steps (executor_new db threads limit) n x →
  length (ex_queue x) ≤ Nat.max limit 1 ∧
  (∀ k x', nsteps ex_internal k x x' →
     k ≤ ex_measure x ∧
     ((∃ x'', ex_internal x' x'') ∨ ∀ id, id < n → is_Some (ex_answers x' !! id))).
Proof.
  intros Hx. pose proof (inv_reachable _ _ _ _ _ Hx) as Hinv. split.
  { pose proof (inv_permits _ _ _ _ Hinv). lia. }
  intros k x' Hk. assert (ex_inv (Nat.max threads 1) (Nat.max limit 1) n x' ∧
    k + ex_measure x' ≤ ex_measure x) as [Hinv' Hle].
  { clear Hx. induction Hk as [x|k x y z Hxy Hyz IH]; [split; [done|lia]|].
    destruct IH as [Hz Hle]; [by eapply inv_internal|]. split; [done|].
    pose proof (internal_decreases _ _ Hxy). lia. }
  split; [lia|]. destruct (decide (open_calls x' = [])) as [Hnil|Hopen].
  - right. intros id Hid. apply (inv_covered _ _ _ _ Hinv') in Hid as [Hin|?]; [|done].
    rewrite Hnil in Hin. by apply not_elem_of_nil in Hin.
  - left. eapply internal_progress; [exact Hinv'|lia|lia|done].
Qed.

End Executor.

Module ExecutorWitness.

(** A counter with an operation that panics. *)
Definition count : Job (D := nat) (T := nat) := λ d, (Datatypes.S d, Some d).
Definition panics : Job (D := nat) (T := nat) := λ d, (d, None).

Definition calls : Executor := ex_call 1 count (ex_call 0 panics (executor_new 0 1 1)).

Lemma calls_reached : ex_steps (executor_new 0 1 1) 2 calls.
Proof. do 2 apply ex_called. apply ex_start. Qed.

Lemma executor_answers_every_call_witness :
  length (ex_queue calls) ≤ 1 ∧
  (∀ k x', nsteps ex_internal k calls x' →
     k ≤ 6 ∧ ((∃ x'', ex_internal x' x'') ∨ ∀ id, id < 2 → is_Some (ex_answers x' !! id))).
Proof. exact (executor_answers_every_call 0 1 1 2 calls calls_reached). Defined.

End ExecutorWitness.
