(* ===== verification/Endpoints.v ===== *)
(** * Delivery of webhook events ([crates/latlng-endpoints/src/lib.rs])

    [deliver_event] posts an event to the endpoint of its hook.  The HTTP client
    and the JSON encoder are other libraries: [HttpClient] is what the code
    calls of them.  A delivery returns the requests it sent beside its result,
    so that what leaves the process is part of the statements.

    [attempt_webhook] is the task the outbox spawns for a leased job
    ([crates/latlng-server/src/main.rs]); its outcome is what
    [finalize_webhook_attempt] of [Outbox] records. *)

From Stdlib Require Import ZArith Lia.
From stdpp Require Import base gmap strings list.
From S2P Require Import Prelude Storage F64 Json Platform Geo Strings Index Geofence Collection.
From S2P Require Import Engine WebhookQueue Outbox Config.

Inductive EndpointError : Type :=
  | Unsupported (endpoint : string)
  | EndpointHttp (error : string).

Definition endpoint_error_text (e : EndpointError) : string :=
  match e with
  | Unsupported endpoint => "unsupported endpoint: " +:+ endpoint
  | EndpointHttp error => "http delivery failed: " +:+ error
  end.

(** A request as it is handed to the client. *)
Record HttpPost := mkPost {
  post_url : string;
  post_timeout_ms : Z;
  post_json : Value;
  post_headers : list (string * string)
}.

(** [send] answers a status code, or the text of a failure: no connection, a
    timeout, a header that is not one.  [status_display] is the text of a
    status. *)
Class HttpClient := {
  to_value : GeofenceEvent → result Value string;
  send : HttpPost → result Z string;
  status_display : Z → string
}.

(** [StatusCode::is_success]. *)
Definition is_success (status : Z) : bool := (200 <=? status)%Z && (status <=? 299)%Z.

(** The headers that name the event and the job. *)
Definition event_headers (event : GeofenceEvent) : list (string * string) :=
  from_option (λ event_id, [("X-LatLng-Event-Id", event_id)]) [] (ev_event_id event)
  ++ from_option (λ job_id, [("X-LatLng-Job-Id", job_id)]) [] (ev_job_id event).

Section Delivery.
Context `{HC : HttpClient}.

Definition deliver_http_event (endpoint : string) (event : GeofenceEvent) (timeout_ms : Z)
    : list HttpPost * result unit EndpointError :=
  match to_value event with
  | Err error => ([], Err (EndpointHttp error))
  | Ok payload =>
      let request := mkPost endpoint timeout_ms payload (event_headers event) in
      ([request],
       match send request with
       | Ok status =>
           if is_success status then Ok tt
           else Err (EndpointHttp ("status " +:+ status_display status))
       | Err error => Err (EndpointHttp error)
       end)
  end.

Definition deliver_event (endpoint : string) (event : GeofenceEvent) (timeout_ms : Z)
    : list HttpPost * result unit EndpointError :=
  if starts_with "http://" endpoint || starts_with "https://" endpoint then
    deliver_http_event endpoint event timeout_ms
  else ([], Err (Unsupported endpoint)).

(** [webhook_timeout]: zero counts as one millisecond. *)
Definition webhook_timeout (configured_ms : Z) : Z := Z.max configured_ms 1.

(** The outcome that is recorded ([finalize_webhook_attempt] matches on the
    result of the delivery and keeps the text of the error). *)
Definition outcome_of (delivery : result unit EndpointError) : WebhookDeliveryOutcome :=
  match delivery with
  | Ok _ => Delivered
  | Err error => DeliveryFailed (endpoint_error_text error)
  end.

(** The task of one leased job: nothing is sent when the database was flushed
    after the lease. *)
Definition attempt_webhook (job : QueueJob) (epoch current_epoch timeout_ms : Z)
    : list HttpPost * WebhookDeliveryOutcome :=
  if negb (epoch =? current_epoch)%Z then ([], Skipped)
  else
    let '(sent, delivery) := deliver_event (job_endpoint job) (job_event job) (webhook_timeout timeout_ms) in
    (sent, outcome_of delivery).

(** ** What a delivery does *)

(** The request of a job: the one request an attempt may send. *)
Definition job_request (job : QueueJob) (timeout_ms : Z) (payload : Value) : HttpPost :=
  mkPost (job_endpoint job) (webhook_timeout timeout_ms) payload (event_headers (job_event job)).

Definition http_endpoint (endpoint : string) : bool :=
  starts_with "http://" endpoint || starts_with "https://" endpoint.

(** An attempt is [Delivered] exactly when its one request was answered with a
    status of success. *)
Definition accepted (job : QueueJob) (epoch current_epoch timeout_ms : Z) : Prop :=
  epoch = current_epoch ∧ http_endpoint (job_endpoint job) = true ∧
  ∃ payload status, to_value (job_event job) = Ok payload ∧
    send (job_request job timeout_ms payload) = Ok status ∧ (200 ≤ status ≤ 299)%Z.

Lemma is_success_range (status : Z) : is_success status = true ↔ (200 ≤ status ≤ 299)%Z.
Proof. unfold is_success. rewrite andb_true_iff, !Z.leb_le. lia. Qed.

Lemma attempt_delivered (job : QueueJob) (epoch current_epoch timeout_ms : Z) :
  (attempt_webhook job epoch current_epoch timeout_ms).2 = Delivered
  ↔ accepted job epoch current_epoch timeout_ms.
Proof.
  unfold attempt_webhook, accepted, deliver_event, http_endpoint, deliver_http_event, job_request.
  destruct (Z.eqb_spec epoch current_epoch) as [->|Hne]; cbn [negb].
  2: { split; [done | by intros [? _]]. }
  destruct (_ || _); [|split; [done | by intros (_ & ? & _)]].
  destruct (to_value (job_event job)) as [payload|e];
    [|split; [done | intros (_ & _ & p & st & Hp & _); congruence]].
  cbn. destruct (send _) as [status|e] eqn:Hs; cbn.
  2: { split; [done | intros (_ & _ & p & st & Hp & H & _); congruence]. }
  destruct (is_success status) eqn:Hok.
  - split; [|done]. intros _. split_and!; [done..|]. exists payload, status.
    by rewrite <- is_success_range.
  - split; [done|]. intros (_ & _ & p & st & Hp & H & Hr). simplify_eq.
    apply is_success_range in Hr. congruence.
Qed.

(** At most one request leaves, and it is the job's own. *)
Lemma attempt_sends (job : QueueJob) (epoch current_epoch timeout_ms : Z) :
  (attempt_webhook job epoch current_epoch timeout_ms).1 = [] ∨
  ∃ payload, to_value (job_event job) = Ok payload ∧ epoch = current_epoch ∧
    (attempt_webhook job epoch current_epoch timeout_ms).1 = [job_request job timeout_ms payload].
Proof.
  unfold attempt_webhook, deliver_event, deliver_http_event.
  destruct (Z.eqb_spec epoch current_epoch) as [->|Hne]; cbn [negb]; [|by left].
  destruct (_ || _); [|by left].
  destruct (to_value (job_event job)) as [payload|e]; [|by left].
  right. by exists payload.
Qed.

(** The log acknowledges a job exactly when the attempt was accepted; every
    other attempt that ran is scheduled again or goes to the dead letters. *)
Lemma acknowledged_iff_accepted (clock : Clock) (initial_ms max_ms : Z) (job : QueueJob)
    (epoch current_epoch timeout_ms : Z) :
  attempt_record clock initial_ms max_ms job
    (attempt_webhook job epoch current_epoch timeout_ms).2 = Some (LWebhookAck (job_id job))
  ↔ accepted job epoch current_epoch timeout_ms.
Proof.
  rewrite <- attempt_delivered.
  destruct (attempt_webhook job epoch current_epoch timeout_ms).2; cbn; [done..|].
  by destruct (_ <=? _)%Z.
Qed.

Lemma unaccepted_is_kept (clock : Clock) (initial_ms max_ms : Z) (job : QueueJob)
    (epoch timeout_ms : Z) :
  ¬ accepted job epoch epoch timeout_ms →
  ∃ error attempts,
    (attempt_record clock initial_ms max_ms job (attempt_webhook job epoch epoch timeout_ms).2
       = Some (LWebhookDeadLetter (job_id job) attempts error) ∧ (job_max_attempts job ≤ attempts)%Z)
    ∨ ∃ at_ms, attempt_record clock initial_ms max_ms job
        (attempt_webhook job epoch epoch timeout_ms).2
       = Some (LWebhookRetryScheduled (job_id job) attempts at_ms error) ∧
        (attempts < job_max_attempts job)%Z.
Proof.
  rewrite <- attempt_delivered. intros Hno.
  destruct (attempt_webhook job epoch epoch timeout_ms).2 eqn:Ho; [|done|].
  - exfalso. revert Ho. unfold attempt_webhook. rewrite Z.eqb_refl. cbn [negb].
    destruct (deliver_event _ _ _) as [sent [?|?]]; cbn; discriminate.
  - exists error, (Z.min (job_attempts_used job + 1) (2 ^ 32 - 1))%Z. cbn [attempt_record].
    destruct (Z.leb_spec (job_max_attempts job) (Z.min (job_attempts_used job + 1) (2 ^ 32 - 1))).
    + by left.
    + right. eexists. split; [done | lia].
Qed.
End Delivery.

(** ** A client *)
Module EndpointsExamples.
(** One endpoint accepts, one is missing, and the others cannot be reached. *)
#[local] Instance client : HttpClient := {
  to_value e := Ok (VString (ev_id e));
  send request :=
    if String.eqb (post_url request) "https://ops.example/hook" then Ok 204%Z
    else if String.eqb (post_url request) "http://ops.example/gone" then Ok 404%Z
    else Err "connection refused";
  status_display _ := "404 Not Found"
}.

Definition event : GeofenceEvent :=
  mkEvent MSet DEnter "fleet" "truck" (GtString "here") ∅ 1 (Some "evt-1") (Some "job-1")
    (Some "ops") None None 0.

Example delivered : (deliver_event "https://ops.example/hook" event 5000).2 = Ok tt.
Proof. reflexivity. Qed.
Example missing : (deliver_event "http://ops.example/gone" event 5000).2 =
  Err (EndpointHttp "status 404 Not Found").
Proof. reflexivity. Qed.
Example named : post_headers <$> (deliver_event "https://ops.example/hook" event 5000).1 =
  [[("X-LatLng-Event-Id", "evt-1"); ("X-LatLng-Job-Id", "job-1")]].
Proof. reflexivity. Qed.
Example unsupported : deliver_event "ftp://ops.example" event 5000 =
  ([], Err (Unsupported "ftp://ops.example")).
Proof. reflexivity. Qed.
End EndpointsExamples.
