(* ===== verification/OutboxLoop.v ===== *)
(** * The loop of the webhook outbox ([run_webhook_outbox] of
    [crates/latlng-server/src/main.rs])

    [Outbox] has the steps of the task; here is the loop that takes them: it
    reads the log, gives up expired leases, collects finished deliveries, leases
    what is due up to the limit of concurrent deliveries, and waits for a
    notification, for the next job to become due or for a delivery to finish.
    Deliveries run as tasks of their own ([attempt_webhook] of [Endpoints]);
    requests extend the log and notify at any moment, and the settings, which
    the loop reads anew in every turn, change at any moment.

    [Notify::notify_waiters] is not remembered: a future becomes ready when
    the notification comes after the future was made. *)

From Stdlib Require Import ZArith Lia.
From stdpp Require Import base gmap strings list sorting.
From S2P Require Import Prelude Storage StorageMemory F64 Json Platform Geo Strings Index IndexSpec.
From S2P Require Import Geofence Collection Engine WebhookQueue WebhookQueueSpec Outbox OutboxSpec.
From S2P Require Import Replication Auth Config Endpoints.

(** ** Settings ([webhook_concurrency_limit] and the like) *)

Definition webhook_concurrency_limit (c : RuntimeConfig) : Z :=
  Z.max (rc_webhook_concurrency_limit c) 1.
Definition webhook_retry_initial_backoff_ms (c : RuntimeConfig) : Z :=
  Z.max (rc_webhook_retry_initial_backoff_ms c) 1.
Definition webhook_retry_max_backoff_ms (c : RuntimeConfig) : Z :=
  Z.max (rc_webhook_retry_max_backoff_ms c) (Z.max (rc_webhook_retry_initial_backoff_ms c) 1).
Definition webhook_lease_ms (c : RuntimeConfig) : Z := Z.max (rc_webhook_lease_ms c) 1.

(** A spawned delivery: still running, finished with an outcome, or panicked. *)
Inductive TaskState : Type :=
  | TRunning
  | TFinished (delivery : WebhookDeliveryOutcome)
  | TPanicked.

Record Task := mkTask { tk_job : QueueJob; tk_epoch : Z; tk_state : TaskState }.

Definition task_finished (t : Task) : bool := match tk_state t with TRunning => false | _ => true end.

(** Where the loop is.  A number is how many notifications there had been when
    the future was made. *)
Inductive LoopPhase : Type :=
  | PTop
  | PFollowing
  | PFollowWait (calls : nat)
  | PDrain
  | PLease (spawned : bool)
  | PJoin
  | PRegister
  | PInspect (calls : nat)
  | PWait (calls : nat) (next_due_at_ms : option Z)
  | PSleep (until : Z).

Section Loop.
Context `{LM : Libm} `{GC : GeoCrate} `{RC : RTreeCrate} `{JT : JsonText} `{PT : Patterns}
  `{HO : HashOrder} `{LC : LogCodec} `{MD : Md5} `{B64 : Base64} `{EC : EventCodec}
  `{HC : HttpClient}.
Context {S : Type} `{SB : StorageBackend S}.

(** [lp_config] is the shared configuration, [lp_limit] the variable
    [concurrency_limit] of the turn. *)
Record LoopState := mkLoop {
  lp_config : RuntimeConfig;
  lp_outbox : Outbox (S := S);
  lp_in_flight : list Task;
  lp_was_following : bool;
  lp_calls : nat;
  lp_limit : Z;
  lp_phase : LoopPhase
}.

Definition at_pc (st : LoopState) (pc : LoopPhase) : LoopState :=
  mkLoop (lp_config st) (lp_outbox st) (lp_in_flight st) (lp_was_following st) (lp_calls st)
    (lp_limit st) pc.
Definition with_outbox (st : LoopState) (o : Outbox) : LoopState :=
  mkLoop (lp_config st) o (lp_in_flight st) (lp_was_following st) (lp_calls st) (lp_limit st)
    (lp_phase st).
Definition with_tasks (st : LoopState) (tasks : list Task) : LoopState :=
  mkLoop (lp_config st) (lp_outbox st) tasks (lp_was_following st) (lp_calls st) (lp_limit st)
    (lp_phase st).
(** [let concurrency_limit = webhook_concurrency_limit(&runtime_config)]. *)
Definition read_limit (st : LoopState) : LoopState :=
  mkLoop (lp_config st) (lp_outbox st) (lp_in_flight st) (lp_was_following st) (lp_calls st)
    (webhook_concurrency_limit (lp_config st)) (lp_phase st).

(** The position of a task that has ended ([try_join_next], [join_next]). *)
Definition next_finished (tasks : list Task) : option (nat * Task) :=
  list_find (λ t, task_finished t = true) tasks.

Context (worker_id : string).

(** [handle_join_result]: an error of [finalize_webhook_attempt] is only
    written to the log of the process. *)
Definition handle_join_result (config : RuntimeConfig) (clock : Clock) (t : Task)
    (o : Outbox (S := S)) : Outbox (S := S) :=
  match tk_state t with
  | TFinished delivery =>
      (finalize_webhook_attempt clock (webhook_retry_initial_backoff_ms config)
         (webhook_retry_max_backoff_ms config) (tk_job t) (tk_epoch t) delivery o).1
  | _ => o
  end.

Definition join_one (clock : Clock) (i : nat) (t : Task) (st : LoopState) : LoopState :=
  with_tasks (with_outbox st (handle_join_result (lp_config st) clock t (lp_outbox st)))
    (delete i (lp_in_flight st)).

Definition running_count (st : LoopState) : Z := Z.of_nat (length (lp_in_flight st)).

(** After the leasing loop. *)
Definition after_leasing (spawned : bool) (st : LoopState) : LoopState :=
  at_pc st (if spawned then PTop
            else if (lp_limit st <=? running_count st)%Z then PJoin
            else PRegister).

Definition spawn (epoch : Z) (jobs : list QueueJob) : list Task :=
  (λ job, mkTask job epoch TRunning) <$> jobs.

(** One turn of [while in_flight.len() < concurrency_limit]. *)
Definition lease_turn (clock : Clock) (spawned : bool) (st : LoopState) : LoopState :=
  if (running_count st <? lp_limit st)%Z then
    let available := (lp_limit st - running_count st)%Z in
    match outbox_lease clock available (webhook_lease_ms (lp_config st)) worker_id (lp_outbox st) with
    | (o, Err _) | (o, Ok []) => after_leasing spawned (with_outbox st o)
    | (o, Ok jobs) =>
        at_pc (with_tasks (with_outbox st o) (lp_in_flight st ++ spawn (ob_epoch o) jobs))
          (PLease true)
    end
  else after_leasing spawned st.

(** One move of the task; [None] while it waits. *)
Definition loop_move (clock : Clock) (status : ReplicationStatus) (st : LoopState)
    : option LoopState :=
  match lp_phase st with
  | PTop =>
      if is_follower status then
        let o := if lp_was_following st then lp_outbox st else begin_following (lp_outbox st) in
        Some (mkLoop (lp_config st) o (lp_in_flight st) true (lp_calls st) (lp_limit st) PFollowing)
      else
        match apply_log_tail clock (lp_outbox st) with
        | (o, Err _) =>
            Some (mkLoop (lp_config st) o (lp_in_flight st) false (lp_calls st) (lp_limit st)
                    (PSleep (now_millis clock + 250)))
        | (o, Ok _) =>
            Some (mkLoop (lp_config st) (outbox_release clock o) (lp_in_flight st) false (lp_calls st)
                    (lp_limit st) PDrain)
        end
  | PFollowing => Some (at_pc st (PFollowWait (lp_calls st)))
  | PFollowWait k => if (k =? lp_calls st)%nat then None else Some (at_pc st PTop)
  | PDrain =>
      match next_finished (lp_in_flight st) with
      | Some (i, t) => Some (join_one clock i t st)
      | None => Some (at_pc (read_limit st) (PLease false))
      end
  | PLease spawned => Some (lease_turn clock spawned st)
  | PJoin =>
      match next_finished (lp_in_flight st) with
      | Some (i, t) => Some (at_pc (join_one clock i t st) PTop)
      | None => None
      end
  | PRegister => Some (at_pc st (PInspect (lp_calls st)))
  | PInspect k => Some (at_pc st (PWait k (next_due_at_ms (ob_queue (lp_outbox st)))))
  | PWait k due =>
      match next_finished (lp_in_flight st) with
      | Some (i, t) => Some (at_pc (join_one clock i t st) PTop)
      | None =>
          if negb (k =? lp_calls st)%nat
             || match due with Some due => (due <=? now_millis clock)%Z | None => false end
          then Some (at_pc st PTop)
          else None
      end
  | PSleep until => if (until <=? now_millis clock)%Z then Some (at_pc st PTop) else None
  end.

(** ** Everything that happens *)

(** A delivery ends. *)
Definition task_ends (i : nat) (t : Task) (state : TaskState) (st : LoopState) : LoopState :=
  with_tasks st (<[i := mkTask (tk_job t) (tk_epoch t) state]> (lp_in_flight st)).

Inductive loop_step : LoopState → LoopState → Prop :=
  | ls_move clock status st st' : loop_move clock status st = Some st' → loop_step st st'
  | ls_attempt i t st :
      lp_in_flight st !! i = Some t → tk_state t = TRunning →
      loop_step st (task_ends i t
        (TFinished (attempt_webhook (tk_job t) (tk_epoch t) (ob_epoch (lp_outbox st))
                      (rc_webhook_timeout_ms (lp_config st))).2) st)
  | ls_panic i t st :
      lp_in_flight st !! i = Some t → tk_state t = TRunning →
      loop_step st (task_ends i t TPanicked st)
  | ls_requests db st : loop_step st (with_outbox st (with_db (lp_outbox st) db))
  | ls_notify st :
      loop_step st (mkLoop (lp_config st) (lp_outbox st) (lp_in_flight st) (lp_was_following st)
                      (Datatypes.S (lp_calls st)) (lp_limit st) (lp_phase st))
  | ls_config config st :
      loop_step st (mkLoop config (lp_outbox st) (lp_in_flight st) (lp_was_following st)
                      (lp_calls st) (lp_limit st) (lp_phase st))
  | ls_flush clock st :
      loop_step st (with_outbox st (coordinator_flushdb clock (lp_outbox st)).1).

(** The task when it is spawned, after [start_outbox]. *)
Definition loop_start (config : RuntimeConfig) (o : Outbox (S := S)) : LoopState :=
  mkLoop config o [] false 0 0 PTop.

(** A step under settings whose limit stays within [bound]. *)
Definition bounded_step (bound : Z) (st st' : LoopState) : Prop :=
  loop_step st st' ∧ (webhook_concurrency_limit (lp_config st') ≤ bound)%Z.

(** ** The limit, and the wait *)

(** [due] is no later than any pending job. *)
Definition covers (q : WebhookQueue) (due : option Z) : Prop :=
  ∀ id row, q !! id = Some row → is_state JPending row = true →
    ∃ d, due = Some d ∧ (d ≤ row_next_attempt_at_ms row)%Z.

Definition has_room (st : LoopState) : Prop :=
  (running_count st < lp_limit st)%Z.

Definition phase_ok (st : LoopState) : Prop :=
  match lp_phase st with
  | PLease _ => (1 ≤ lp_limit st)%Z
  | PJoin => (1 ≤ lp_limit st)%Z ∧ (lp_limit st ≤ running_count st)%Z
  | PRegister | PInspect _ => has_room st
  | PWait _ due => has_room st ∧ covers (ob_queue (lp_outbox st)) due
  | _ => True
  end.

Record loop_inv (bound : Z) (st : LoopState) : Prop := {
  inv_config : (webhook_concurrency_limit (lp_config st) ≤ bound)%Z;
  inv_read : (lp_limit st ≤ bound)%Z;
  inv_limit : (running_count st ≤ bound)%Z;
  inv_phase : phase_ok st
}.

Lemma min_covers (rows : list JobRow) row :
  row ∈ rows →
  ∃ d, foldr (λ row acc, Some (from_option (Z.min (row_next_attempt_at_ms row))
                                 (row_next_attempt_at_ms row) acc)) None rows = Some d ∧
       (d ≤ row_next_attempt_at_ms row)%Z.
Proof.
  induction rows as [|r rows IH]; [by intros ?%elem_of_nil|].
  cbn [foldr]. intros [->|Hin]%elem_of_cons.
  - eexists. split; [done|]. destruct (foldr _ None rows); cbn; lia.
  - destruct (IH Hin) as (d & -> & Hd). eexists. split; [done|]. cbn. lia.
Qed.

Lemma next_due_covers (q : WebhookQueue) : covers q (next_due_at_ms q).
Proof.
  intros id row Hq Hp. unfold next_due_at_ms. apply min_covers. apply list_elem_of_filter.
  split; [by rewrite Hp|]. apply list_elem_of_fmap. exists (id, row).
  split; [done|]. by apply elem_of_map_to_list.
Qed.

Lemma covers_empty due : covers ∅ due.
Proof. intros id row. by rewrite lookup_empty. Qed.

Lemma lease_due_length limit lease_ms w now_ms q q' jobs :
  (0 ≤ limit < 2 ^ 63)%Z → lease_due limit lease_ms w now_ms q = (q', Ok jobs) →
  (Z.of_nat (length jobs) ≤ limit)%Z.
Proof.
  intros Hl. unfold lease_due. destruct (limit =? 0)%Z; [by intros [= _ <-]; cbn; lia|].
  destruct (bind_u64 now_ms); cbn [rbind]; [|done].
  destruct (rows_to_jobs _) as [js|] eqn:Hr; [|done].
  assert (Z.of_nat (length js) ≤ limit)%Z.
  { apply rows_to_jobs_ids in Hr. apply (f_equal length) in Hr. rewrite !length_fmap in Hr.
    rewrite Hr. unfold due_rows, sql_limit.
    rewrite (proj2 (Z.ltb_lt _ _)) by lia. rewrite length_take. lia. }
  destruct js as [|j js]; [by intros [= _ <-]|].
  destruct (bind_u64 _); [|done]. by intros [= _ <-].
Qed.

Lemma join_one_room clock i t st :
  lp_in_flight st !! i = Some t → (running_count (join_one clock i t st) < running_count st)%Z.
Proof.
  intros Hi. unfold running_count. cbn [join_one with_tasks lp_in_flight].
  rewrite length_delete by eauto. apply lookup_lt_Some in Hi. lia.
Qed.

Lemma next_finished_lookup tasks i t : next_finished tasks = Some (i, t) → tasks !! i = Some t.
Proof. unfold next_finished. by intros (? & _ & _)%list_find_Some. Qed.

Lemma leasing_inv bound clock spawned st :
  (bound < 2 ^ 63)%Z → loop_inv bound st → (1 ≤ lp_limit st)%Z →
  loop_inv bound (lease_turn clock spawned st).
Proof.
  intros Hmax [Hcfg Hread Hlim _] Hone.
  assert (∀ o, loop_inv bound (after_leasing spawned (with_outbox st o))) as Hafter.
  { intros o. split; [done..|]. unfold phase_ok. cbn. destruct spawned; [done|].
    destruct (_ <=? _)%Z eqn:Hc; [by apply Z.leb_le in Hc|by apply Z.leb_gt in Hc]. }
  unfold lease_turn. destruct (Z.ltb_spec (running_count st) (lp_limit st)) as [Hlt|].
  2: { specialize (Hafter (lp_outbox st)). by destruct st. }
  unfold outbox_lease. destruct (lease_due _ _ _ _ _) as [q [[|j js]|e]] eqn:Hl; [done| |done].
  apply lease_due_length in Hl; [|unfold running_count in *; lia].
  split; [done..| |done]. unfold running_count in *.
  cbn [at_pc with_tasks with_outbox lp_in_flight]. unfold spawn. rewrite length_app, length_fmap. lia.
Qed.

Lemma move_inv bound clock status st st' :
  (bound < 2 ^ 63)%Z → loop_inv bound st →
  loop_move clock status st = Some st' → loop_inv bound st'.
Proof.
  intros Hmax Hinv. pose proof Hinv as [Hcfg Hread Hlim Hph]. unfold loop_move.
  assert (∀ i t, next_finished (lp_in_flight st) = Some (i, t) → ∀ pc,
    match pc with PTop | PDrain => True | _ => False end →
    loop_inv bound (at_pc (join_one clock i t st) pc)) as Hjoin.
  { intros i t Hf pc Hpc. apply next_finished_lookup, (join_one_room clock) in Hf.
    split; [done|done| |by destruct pc].
    change (running_count (join_one clock i t st) ≤ bound)%Z. lia. }
  assert (1 ≤ webhook_concurrency_limit (lp_config st))%Z as Hone
    by (unfold webhook_concurrency_limit; lia).
  unfold phase_ok in Hph. destruct (lp_phase st) eqn:Hp; cbn in Hph.
  - destruct (is_follower status); [by intros [= <-]|].
    destruct (apply_log_tail _ _) as [o [|]]; by intros [= <-].
  - by intros [= <-].
  - destruct (_ =? _)%nat; by intros [= <-].
  - destruct (next_finished _) as [[i t]|] eqn:Hf; [|by intros [= <-]].
    intros [= <-]. specialize (Hjoin _ _ eq_refl PDrain I). revert Hjoin.
    unfold at_pc, join_one. cbn. by rewrite <-Hp.
  - intros [= <-]. by apply leasing_inv.
  - destruct (next_finished _) as [[i t]|] eqn:Hf; [|done]. intros [= <-]. by apply Hjoin.
  - by intros [= <-].
  - intros [= <-]. split; [done..|]. split; [done|]. apply next_due_covers.
  - destruct (next_finished _) as [[i t]|] eqn:Hf; [intros [= <-]; by apply Hjoin|].
    destruct (_ || _); by intros [= <-].
  - destruct (_ <=? _)%Z; by intros [= <-].
Qed.

Lemma task_ends_inv bound i t state st : loop_inv bound st → loop_inv bound (task_ends i t state st).
Proof.
  intros [Hcfg Hread Hlim Hph].
  assert (running_count (task_ends i t state st) = running_count st) as Hr
    by (unfold running_count; cbn; by rewrite length_insert).
  split; [done|done|by rewrite Hr|]. unfold phase_ok, has_room in *. rewrite Hr. exact Hph.
Qed.

Lemma step_inv bound st st' :
  (bound < 2 ^ 63)%Z → bounded_step bound st st' → loop_inv bound st → loop_inv bound st'.
Proof.
  intros Hmax [Hstep Hbound] Hinv. pose proof Hinv as [Hcfg Hread Hlim Hph].
  destruct Hstep as [clock status st st' Hm|i t st Hi Hr|i t st Hi Hr|db st|st|config st|clock st];
    try done.
  - by eapply move_inv.
  - by apply task_ends_inv.
  - by apply task_ends_inv.
  - split; [done..|]. unfold phase_ok in *. unfold coordinator_flushdb.
    destruct (op_flushdb _ _) as [db [[]|e]]; [|done]. cbn.
    destruct (lp_phase st); try done. destruct Hph as [Hr _]. split; [done|]. apply covers_empty.
Qed.

(** A call of [lease_due] takes everything that is due, or as much as it may. *)
Lemma lease_due_takes limit lease_ms w now_ms q q' jobs id row :
  (0 < limit < 2 ^ 63)%Z → lease_due limit lease_ms w now_ms q = (q', Ok jobs) →
  q !! id = Some row → is_due now_ms row = true →
  id ∈ job_id <$> jobs ∨ Z.of_nat (length jobs) = limit.
Proof.
  intros Hl Hlease Hq Hd.
  assert (∃ js, rows_to_jobs (due_rows now_ms limit q) = Ok js ∧ js = jobs) as (js & Hr & ->).
  { revert Hlease. unfold lease_due. rewrite (proj2 (Z.eqb_neq limit 0)) by lia.
    destruct (bind_u64 now_ms); cbn [rbind]; [|done].
    destruct (rows_to_jobs _) as [[|j js]|] eqn:Hr; [by intros [= _ <-]; eexists| |done].
    destruct (bind_u64 _); [|done]. intros [= _ <-]. by eexists. }
  apply rows_to_jobs_ids in Hr. rewrite Hr.
  rewrite <-(length_fmap job_id jobs), Hr, length_fmap. unfold due_rows, sql_limit.
  rewrite (proj2 (Z.ltb_lt limit (2 ^ 63))) by lia.
  set (rows := merge_sort due_le _).
  destruct (decide (length rows ≤ Z.to_nat limit)%nat) as [Hle|Hgt].
  - left. rewrite take_ge by done. apply list_elem_of_fmap. exists (id, row). split; [done|].
    unfold rows. rewrite merge_sort_Permutation. apply list_elem_of_filter.
    split; [cbn [snd]; by rewrite Hd|]. by apply elem_of_hash_iter.
  - right. rewrite length_take. lia.
Qed.

Lemma lease_turn_takes clock spawned st o jobs id row :
  (lp_limit st < 2 ^ 63)%Z →
  outbox_lease clock (lp_limit st - running_count st)
    (webhook_lease_ms (lp_config st)) worker_id (lp_outbox st) = (o, Ok jobs) →
  ob_queue (lp_outbox st) !! id = Some row → is_due (now_millis clock) row = true →
  (∃ t, t ∈ lp_in_flight (lease_turn clock spawned st) ∧ job_id (tk_job t) = id) ∨
  (lp_limit st ≤ running_count (lease_turn clock spawned st))%Z.
Proof.
  intros Hmax Hl Hq Hd. unfold lease_turn.
  destruct (Z.ltb_spec (running_count st) (lp_limit st)) as [Hlt|];
    [|right; cbn; unfold running_count in *; cbn; lia].
  rewrite Hl. revert Hl. unfold outbox_lease. destruct (lease_due _ _ _ _ _) as [q r] eqn:Hd'.
  intros [= <- ->]. eapply lease_due_takes in Hd' as [Hin|Hn]; [..|done|done].
  - left. destruct jobs as [|j js]; [by apply elem_of_nil in Hin|].
    apply list_elem_of_fmap in Hin as (job & -> & Hj).
    exists (mkTask job (ob_epoch (lp_outbox st)) TRunning). split; [|done].
    cbn [at_pc with_tasks lp_in_flight]. apply elem_of_app. right.
    unfold spawn. apply list_elem_of_fmap. by exists job.
  - right. destruct jobs as [|j js]; [unfold running_count in *; cbn in *; lia|].
    unfold running_count in *. cbn [at_pc with_tasks lp_in_flight]. unfold spawn.
    rewrite length_app, length_fmap. lia.
  - unfold running_count in *. lia.
Qed.

(** A move starts deliveries only up to the limit that the turn has read. *)
Lemma move_within clock status st st' :
  (lp_limit st < 2 ^ 63)%Z → loop_move clock status st = Some st' →
  (running_count st' ≤ Z.max (running_count st) (lp_limit st))%Z.
Proof.
  intros Hmax. unfold loop_move.
  assert (∀ i t pc, next_finished (lp_in_flight st) = Some (i, t) →
    (running_count (at_pc (join_one clock i t st) pc) ≤ running_count st)%Z) as Hjoin.
  { intros i t pc Hf. apply next_finished_lookup, (join_one_room clock) in Hf.
    change (running_count (join_one clock i t st) ≤ running_count st)%Z. lia. }
  destruct (lp_phase st) as [| | | |spawned| | | | |].
  5: { intros [= <-]. unfold lease_turn.
       destruct (Z.ltb_spec (running_count st) (lp_limit st)) as [Hlt|]; [|unfold running_count; cbn; lia].
       unfold outbox_lease. destruct (lease_due _ _ _ _ _) as [q [[|j js]|e]] eqn:Hl;
         [unfold running_count; cbn; lia| |unfold running_count; cbn; lia].
       apply lease_due_length in Hl; [|unfold running_count in *; lia]. unfold running_count in *.
       cbn [at_pc with_tasks with_outbox lp_in_flight]. unfold spawn.
       rewrite length_app, length_fmap. lia. }
  all: repeat case_match; intros; simplify_eq; unfold running_count in *; cbn; try lia.
  all: specialize (Hjoin _ _ PTop eq_refl); cbn in Hjoin; lia.
Qed.

(** C26: the outbox keeps within the limit it reads and attends to what is due.
    However the loop, the deliveries, the requests, the notifications, the
    flushes and changes of the settings interleave: as long as the limit of
    concurrent deliveries has been set to at most [bound], no more than [bound]
    are under way, and a turn starts deliveries only up to the limit it has
    read itself (a limit that is lowered takes effect as deliveries end).
    While the loop waits for something to do, fewer deliveries are under way
    than that limit, and from the moment a pending job is due the loop goes
    on, notified or not.  While it waits for a delivery to end, the limit is
    reached, so there is one under way, and the loop goes on when one has
    ended.  When a turn leases and the queue answers, every job that is due is
    under way afterwards, unless the limit is reached. *)
Theorem outbox_attends_to_due_jobs bound config o st :
  (bound < 2 ^ 63)%Z → (webhook_concurrency_limit config ≤ bound)%Z →
  rtc (bounded_step bound) (loop_start config o) st →
  (running_count st ≤ bound)%Z ∧
  (∀ clock status st', loop_move clock status st = Some st' →
     (running_count st' ≤ Z.max (running_count st) (lp_limit st))%Z) ∧
  (lp_phase st = PJoin →
     (lp_limit st ≤ running_count st)%Z ∧ lp_in_flight st ≠ [] ∧
     ∀ t clock status, t ∈ lp_in_flight st → task_finished t = true →
       ∃ st', loop_move clock status st = Some st' ∧ lp_phase st' = PTop) ∧
  ∀ id row clock, ob_queue (lp_outbox st) !! id = Some row → is_due (now_millis clock) row = true →
    (∀ k due status, lp_phase st = PWait k due →
       (running_count st < lp_limit st)%Z ∧
       ∃ st', loop_move clock status st = Some st' ∧ lp_phase st' = PTop) ∧
    (∀ spawned status o' jobs, lp_phase st = PLease spawned →
       outbox_lease clock (lp_limit st - running_count st)
         (webhook_lease_ms (lp_config st)) worker_id (lp_outbox st) = (o', Ok jobs) →
       ∃ st', loop_move clock status st = Some st' ∧
         ((∃ t, t ∈ lp_in_flight st' ∧ job_id (tk_job t) = id) ∨
          (lp_limit st ≤ running_count st')%Z)).
Proof.
  intros Hmax Hstart Hsteps. assert (loop_inv bound st) as Hinv.
  { assert (loop_inv bound (loop_start config o)) as H0.
    { assert (1 ≤ webhook_concurrency_limit config)%Z by (unfold webhook_concurrency_limit; lia).
      split; [done|cbn; lia|unfold running_count; cbn; lia|done]. }
    clear -Hmax Hsteps H0. induction Hsteps; eauto using step_inv. }
  pose proof Hinv as [_ Hread Hlim Hph]. unfold phase_ok in Hph. split_and!; [done| | |].
  - intros clock status st' Hm. eapply move_within; [lia|done].
  - intros Hp. rewrite Hp in Hph. destruct Hph as [Hone Hfull]. split_and!; [done| |].
    + intros Hnil. unfold running_count in Hfull. rewrite Hnil in Hfull. cbn in Hfull. lia.
    + intros t clock status Ht Hf. unfold loop_move. rewrite Hp.
      destruct (next_finished (lp_in_flight st)) as [[i t']|] eqn:Hn; [by eexists|].
      apply list_find_None in Hn. rewrite Forall_forall in Hn. by destruct (Hn t Ht).
  - intros id row clock Hq Hd. split.
    + intros k due status Hp. rewrite Hp in Hph. destruct Hph as [Hroom Hcov]. split; [done|].
      apply andb_true_iff in Hd as [Hr Hle%Z.leb_le].
      destruct (Hcov id row Hq Hr) as (d & -> & Hd).
      unfold loop_move. rewrite Hp. destruct (next_finished _) as [[i t]|]; [by eexists|].
      rewrite (proj2 (Z.leb_le d _)) by lia. rewrite orb_true_r. by eexists.
    + intros spawned status o' jobs Hp Hl. unfold loop_move. rewrite Hp.
      eexists. split; [done|]. eapply lease_turn_takes; [lia|done..].
Qed.
End Loop.

Module LoopWitness.
Import ListTree NoGeoJson PlainText Memory QueueWitness OutboxWitness.
#[local] Existing Instance OutboxWitness.md5.
#[local] Existing Instance OutboxWitness.base64.
#[local] Existing Instance OutboxWitness.codec.

(** No endpoint can be reached. *)
#[local] Instance unreachable : HttpClient := {
  to_value e := Ok VNull;
  send _ := Err "connection refused";
  status_display _ := ""
}.

Definition config : RuntimeConfig := default_runtime_config "node-1" (Some 8%Z).
Definition leading : ReplicationStatus := status_leader "node-1".

Notation loop := (LoopState (S := MemoryBackend)).
Notation steps := (rtc (loop_step (S := MemoryBackend) "worker")).

(** The loop on its own at one moment, for some moves. *)
Fixpoint moves (n : nat) (clock : Clock) (st : loop) : loop :=
  match n with
  | 0 => st
  | S n' => match loop_move "worker" clock leading st with
            | Some st' => moves n' clock st'
            | None => st
            end
  end.

Lemma moves_steps n clock st : steps st (moves n clock st).
Proof.
  revert st. induction n as [|n IH]; intros st; cbn [moves]; [done|].
  destruct (loop_move _ _ _ _) as [st'|] eqn:Hm; [|done].
  eapply rtc_l; [by eapply ls_move|apply IH].
Qed.

(** The loop reads a job that is due at 10 ms, and waits for it. *)
Definition waiting : loop := moves 10 (at_ms 0) (loop_start config started).

Lemma waiting_phase : lp_phase waiting = PWait 0 (Some 10%Z).
Proof. vm_compute. reflexivity. Qed.

(** The settings do not change while the loop is alone. *)
Lemma move_config clock status (st st' : loop) :
  loop_move "worker" clock status st = Some st' → lp_config st' = lp_config st.
Proof.
  unfold loop_move, lease_turn, after_leasing. intros Hm.
  repeat case_match; simplify_eq; try done; by destruct st.
Qed.

Lemma moves_bounded n clock st : lp_config st = config →
  rtc (bounded_step (S := MemoryBackend) "worker" (webhook_concurrency_limit config)) st
    (moves n clock st).
Proof.
  revert st. induction n as [|n IH]; intros st Hc; cbn [moves]; [done|].
  destruct (loop_move _ _ _ _) as [st'|] eqn:Hm; [|done].
  pose proof (move_config _ _ _ _ Hm) as Hc'. rewrite Hc in Hc'.
  eapply rtc_l; [|by apply IH]. split; [by eapply ls_move|]. by rewrite Hc'.
Qed.

Lemma outbox_attends_to_due_jobs_witness :
  (running_count waiting ≤ webhook_concurrency_limit config)%Z ∧
  ∃ st', loop_move "worker" (at_ms 10) leading waiting = Some st' ∧ lp_phase st' = PTop.
Proof.
  destruct (outbox_attends_to_due_jobs "worker" (webhook_concurrency_limit config) config started
    waiting) as (Hlim & _ & _ & Hdue).
  - vm_compute. reflexivity.
  - vm_compute. discriminate.
  - apply moves_bounded. reflexivity.
  - split; [exact Hlim|].
    assert (∃ row, ob_queue (lp_outbox waiting) !! "job" = Some row ∧ is_due 10 row = true)
      as (row & Hq & Hd) by (eexists; split; vm_compute; reflexivity).
    destruct (Hdue "job" row (at_ms 10) Hq Hd) as [Hw _].
    apply (Hw 0 (Some 10%Z) leading waiting_phase).
Defined.

(** *** What goes wrong *)

(** A loop that waits for no time and has no delivery under way goes on only
    when it is notified. *)
Lemma waits_for_good st :
  lp_phase st = PWait (lp_calls st) None → next_finished (lp_in_flight st) = None →
  ∀ clock status, loop_move "worker" clock status st = None.
Proof.
  intros Hp Hf clock status. unfold loop_move. by rewrite Hp, Hf, Nat.eqb_refl.
Qed.

Definition unwritten : Outbox (S := MemoryBackend) :=
  mkOutbox (mkDb ∅ (registry_new 4) (mkMemory [] false true) default_config 0 0) ∅ 0 0.

(** The loop has read the log; then a request logs a job and notifies; then the
    loop begins to wait. *)
Definition passed : loop := moves 1 (at_ms 0) (loop_start config unwritten).
Definition announced : loop :=
  mkLoop config (with_db unwritten OutboxWitness.db) [] false 1 (lp_limit passed) (lp_phase passed).
Definition missed : loop := moves 10 (at_ms 0) announced.

(** A job that is logged and announced between the reading of the log and the
    making of the future is missed: nothing but another notification makes the
    loop read it. *)
Theorem outbox_misses_a_write :
  steps (loop_start config unwritten) missed ∧
  (∀ clock status, loop_move "worker" clock status missed = None) ∧
  ob_queue (lp_outbox missed) = ∅ ∧
  is_Some (ob_queue (apply_log_tail (at_ms 1) (lp_outbox missed)).1 !! "job").
Proof.
  split_and!; [|apply waits_for_good; vm_compute; reflexivity|vm_compute; reflexivity|vm_compute; eauto].
  etrans; [apply (moves_steps 1 (at_ms 0))|].
  eapply rtc_l; [apply (ls_requests "worker" OutboxWitness.db)|].
  eapply rtc_l; [apply ls_notify|]. apply (moves_steps 10 (at_ms 0) announced).
Qed.

(** The delivery of the job is under way, and its task panics. *)
Definition under_way : loop := moves 20 (at_ms 10) (loop_start config started).
Definition broken : loop :=
  match lp_in_flight under_way with
  | t :: _ => task_ends 0 t TPanicked under_way
  | [] => under_way
  end.
Definition forgotten : loop := moves 20 (at_ms 20) broken.

Lemma broken_step : steps under_way broken.
Proof.
  assert (tk_state <$> lp_in_flight under_way = [TRunning]) as Hs by (vm_compute; reflexivity).
  unfold broken. destruct (lp_in_flight under_way) as [|t ts] eqn:Hf; [done|].
  apply rtc_once, ls_panic; [by rewrite Hf|]. by injection Hs.
Qed.

(** The job stays leased, and the loop waits for pending jobs only: also when
    the lease has long run out it does not take the job up again before
    somebody notifies it, although a turn of the loop would. *)
Theorem expired_lease_is_not_awaited :
  steps (loop_start config started) forgotten ∧
  (∀ clock status, loop_move "worker" clock status forgotten = None) ∧
  lp_in_flight forgotten = [] ∧
  option_map row_state (ob_queue (lp_outbox forgotten) !! "job") = Some JLeased ∧
  option_map row_state (ob_queue (outbox_release (at_ms 60000) (lp_outbox forgotten)) !! "job")
    = Some JPending.
Proof.
  split_and!; [|apply waits_for_good; vm_compute; reflexivity|vm_compute; reflexivity..].
  etrans; [apply (moves_steps 20 (at_ms 10))|].
  etrans; [|apply (moves_steps 20 (at_ms 20))].
  apply broken_step.
Qed.
End LoopWitness.
