(* ===== verification/ServerStorage.v ===== *)
(** * The storage of the server ([crates/latlng-server/src/storage.rs])

    [ServerStorage] is one of two backends and hands every call on.  It keeps
    the contract of storage, so that everything proved of an engine over an
    arbitrary backend holds of the server's.

    [Journaled] adds what an operator sees: the I/O errors that were reported.
    As long as there are none, the file on disk holds exactly the committed log:
    nothing waits in a buffer and no garbage lies behind the last frame.  With
    the recovery theorem of the engine this gives the end-to-end statement: a
    process that is killed at any moment between two operations finds its state
    in the file. *)

From Stdlib Require Import ZArith Lia.
From stdpp Require Import base gmap strings list.
From S2P Require Import Prelude Storage StorageMemory StorageAof StorageAofSpec.
From S2P Require Import F64 Json Platform Geo Strings Index IndexSpec Geofence Collection.
From S2P Require Import Engine EngineSpec EngineLogic EngineOps Durability Recovery Config.

Module ServerFile.
Import Memory Aof.

(** ** The enumeration *)

Inductive ServerStorage : Type :=
  | InMemory (backend : MemoryBackend)
  | OnFile (backend : AofBackend).

Section Backend.
Context `{FC : FrameCodec} `{MD : Md5}.

(** [ServerStorage::open], on the file at the path of the configuration. *)
Definition server_open (env : IoEnv) (mode : StorageMode) (d : Disk)
    : result ServerStorage StorageError :=
  match mode with
  | StorageMemory => Ok (InMemory new)
  | StorageAof _ =>
      let? writer := open_aof d in
      let '(rt, st) := writer in
      Ok (OnFile (mkAof false env (mkWriter rt d st)))
  end.

Definition on_file {A} (r : AofBackend * A) : ServerStorage * A := (OnFile r.1, r.2).
Definition in_memory {A} (r : MemoryBackend * A) : ServerStorage * A := (InMemory r.1, r.2).

Definition server_append (s : ServerStorage) (e : StorageEntry)
    : ServerStorage * result unit StorageError :=
  match s with
  | InMemory b => in_memory (append b e)
  | OnFile b => on_file (append b e)
  end.

Definition server_append_batch (s : ServerStorage) (es : list StorageEntry)
    : ServerStorage * result unit StorageError :=
  match s with
  | InMemory b => in_memory (append_batch b es)
  | OnFile b => on_file (append_batch b es)
  end.

Definition server_replay {St} (s : ServerStorage) (after_seq : Z) (cb : callback St) (st : St)
    : St * result Z StorageError :=
  match s with
  | InMemory b => replay b after_seq cb st
  | OnFile b => replay b after_seq cb st
  end.

Definition server_snapshot (s : ServerStorage) (es : list StorageEntry)
    : ServerStorage * result unit StorageError :=
  match s with
  | InMemory b => in_memory (snapshot b es)
  | OnFile b => on_file (snapshot b es)
  end.

Definition server_close (s : ServerStorage) : ServerStorage * result unit StorageError :=
  match s with
  | InMemory b => in_memory (close b)
  | OnFile b => on_file (close b)
  end.

#[export] Instance server_backend : StorageBackend ServerStorage := {
  stores_command_log s :=
    match s with InMemory b => stores_command_log b | OnFile b => stores_command_log b end;
  append := server_append;
  append_batch := server_append_batch;
  replay St := @server_replay St;
  snapshot := server_snapshot;
  last_sequence s := match s with InMemory b => last_sequence b | OnFile b => last_sequence b end;
  checksum s from to :=
    match s with InMemory b => checksum b from to | OnFile b => checksum b from to end;
  close := server_close
}.

Definition server_committed (s : ServerStorage) : list StorageEntry :=
  match s with InMemory b => committed b | OnFile b => committed b end.
Definition server_inv (s : ServerStorage) : Prop :=
  match s with InMemory b => storage_inv b | OnFile b => storage_inv b end.

(** The results of the two backends, one constructor further out. *)
Ltac split_backend s :=
  destruct s as [b|b]; cbn [server_inv server_committed append_batch snapshot server_backend
    server_append_batch server_snapshot stores_command_log replay last_sequence server_replay];
  unfold in_memory, on_file.

#[export] Instance server_laws : StorageLaws ServerStorage.
Proof.
  refine {| committed := server_committed; storage_inv := server_inv |}.
  - intros s. split_backend s; apply inv_increasing.
  - intros s es s'. split_backend s; intros Hi [= <- Hr];
      exact (append_batch_Ok _ _ _ Hi (pair_with_snd _ _ Hr)).
  - intros s es s' e. split_backend s; intros Hi [= <- Hr];
      exact (append_batch_Err _ _ _ _ Hi (pair_with_snd _ _ Hr)).
  - intros s. split_backend s; intros Hi; by apply append_batch_empty.
  - intros s es s'. split_backend s; intros Hi [= <- Hr];
      exact (snapshot_Ok _ _ _ Hi (pair_with_snd _ _ Hr)).
  - intros s es s' e. split_backend s; intros Hi [= <- Hr];
      exact (snapshot_Err _ _ _ _ Hi (pair_with_snd _ _ Hr)).
  - intros St s after cb st. split_backend s; apply replay_committed.
  - intros s. split_backend s; apply last_sequence_committed.
Defined.

(** ** The file and the log *)

(** The file holds the committed log: nothing is buffered, the handle is the
    live file, and its bytes are complete frames that yield the log.  A closed
    log has a closed handle. *)
Definition file_holds (rt : WriterRuntime) (d : Disk) (es : list StorageEntry) : Prop :=
  buf rt = [] ∧ attached rt = true ∧ durable_len rt = length (content d) ∧
  ∃ fs, content d = frames_bytes fs ∧ apply_frames [] fs = Ok es.

Definition sound (s : ServerStorage) : Prop :=
  match s with
  | InMemory _ => True
  | OnFile b =>
      let w := aof_writer b in
      file_holds (w_runtime w) (w_disk w) (entries (w_committed w)) ∧
      (closed (w_committed w) = true → handle_closed b = true)
  end.

(** *** Writing that succeeds *)

Lemma flush_buf_ok rt d rt' d' :
  attached rt = true → flush_buf rt d = (rt', d', Ok tt) →
  buf rt' = [] ∧ attached rt' = true ∧ content d' = content d ++ buf rt.
Proof.
  intros Ha. unfold flush_buf, disk_write. rewrite Ha.
  destruct (Nat.eqb_spec (Nat.min (length (buf rt)) (free d)) (length (buf rt))) as [Hn|]; [|done].
  intros [= <- <-]. cbn. rewrite Hn, drop_all, firstn_all. done.
Qed.

Lemma write_all_ok rt d data rt' d' :
  attached rt = true → write_all rt d data = (rt', d', Ok tt) →
  attached rt' = true ∧ content d' ++ buf rt' = content d ++ buf rt ++ data.
Proof.
  intros Ha. unfold write_all. destruct (_ <? _)%nat; [by intros [= <- <-]; cbn|].
  destruct (Nat.ltb_spec (buf_capacity - length (buf rt)) (length data)).
  - destruct (flush_buf rt d) as [[rt1 d1] [[]|e]] eqn:Hf; [|done].
    apply flush_buf_ok in Hf as (Hb & Ha1 & Hc); [|done].
    destruct (_ <=? _)%nat; [|intros [= <- <-]; cbn; rewrite Hb, Hc, <-app_assoc; done].
    unfold disk_write. rewrite Ha1.
    destruct (Nat.eqb_spec (Nat.min (length data) (free d1)) (length data)) as [Hn|]; [|done].
    intros [= <- <-]. cbn. rewrite Hn, firstn_all, Hb, Hc, app_nil_r, <-app_assoc. done.
  - destruct (Nat.leb_spec buf_capacity (length data)).
    + assert (buf rt = []) as Hb.
      { apply length_zero_iff_nil. pose proof buf_capacity_pos. lia. }
      unfold disk_write. rewrite Ha.
      destruct (Nat.eqb_spec (Nat.min (length data) (free d)) (length data)) as [Hn|]; [|done].
      intros [= <- <-]. cbn. rewrite Hn, firstn_all, Hb, app_nil_r. done.
    + by intros [= <- <-].
Qed.

Lemma write_and_sync_ok env rt d frame rt' d' :
  attached rt = true → buf rt = [] → write_and_sync_frame env rt d frame = (rt', d', Ok tt) →
  buf rt' = [] ∧ attached rt' = true ∧ content d' = content d ++ frame_bytes frame.
Proof.
  intros Ha Hb. unfold write_and_sync_frame, write_frame.
  destruct (write_all rt d _) as [[rt1 d1] [[]|e]] eqn:H1; [|done].
  apply write_all_ok in H1 as [Ha1 Hc1]; [|done].
  destruct (write_all rt1 d1 _) as [[rt2 d2] [[]|e]] eqn:H2; [|done].
  apply write_all_ok in H2 as [Ha2 Hc2]; [|done].
  destruct (flush_buf rt2 d2) as [[rt3 d3] [[]|e]] eqn:H3; [|done].
  apply flush_buf_ok in H3 as (Hb3 & Ha3 & Hc3); [|done].
  destruct (sync_ok env); [|done]. intros [= <- <-]. split_and!; [done..|].
  rewrite Hc3, Hc2, app_assoc, Hc1, Hb. unfold frame_bytes. cbn. by rewrite app_assoc.
Qed.

(** *** Errors that leave the file alone *)

Definition is_io (e : StorageError) : bool := match e with Io _ => true | _ => false end.

Lemma flush_buf_err rt d rt' d' e : flush_buf rt d = (rt', d', Err e) → is_io e = true.
Proof.
  unfold flush_buf. destruct (disk_write _ _ _) as [[d1 n] [|]]; intros [=]; by subst.
Qed.

Lemma write_all_err rt d data rt' d' e : write_all rt d data = (rt', d', Err e) → is_io e = true.
Proof.
  unfold write_all. destruct (_ <? _)%nat; [done|].
  destruct (if (_ <? _)%nat then _ else _) as [[rt1 d1] [[]|e1]] eqn:H1.
  - destruct (_ <=? _)%nat; [|done].
    destruct (disk_write _ _ _) as [[d2 n] [|]]; intros [=]; by subst.
  - intros [= _ _ <-]. destruct (_ <? _)%nat; [by eapply flush_buf_err | done].
Qed.

Lemma write_and_sync_err env rt d frame rt' d' e :
  write_and_sync_frame env rt d frame = (rt', d', Err e) → is_io e = true.
Proof.
  unfold write_and_sync_frame, write_frame.
  destruct (write_all rt d _) as [[rt1 d1] [[]|e1]] eqn:H1;
    [|intros [= _ _ <-]; by eapply write_all_err].
  destruct (write_all rt1 d1 _) as [[rt2 d2] [[]|e1]] eqn:H2;
    [|intros [= _ _ <-]; by eapply write_all_err].
  destruct (flush_buf rt2 d2) as [[rt3 d3] [[]|e1]] eqn:H3;
    [|intros [= _ _ <-]; by eapply flush_buf_err].
  destruct (sync_ok env); intros [=]; by subst.
Qed.

(** *** Every call keeps the file in step *)

Lemma submit_sound b request b' r :
  sound (OnFile b) → storage_inv b → request_wf request →
  submit_append b request = (b', r) → (∀ e, r = Err e → is_io e = false) → sound (OnFile b').
Proof.
  intros [Hf Hcl] Hinc Hwf. unfold submit_append, commit_append_group.
  destruct (handle_closed b) eqn:Hh; [by intros [= <- <-]; cbn; rewrite Hh|].
  destruct (closed _) eqn:Hc; [specialize (Hcl eq_refl); congruence|].
  destruct (validate_requests _ _) as [[]|e] eqn:Hv; [|by intros [= <- <-]; cbn; rewrite Hc].
  destruct (write_and_sync_frame _ _ _ _) as [[rt d] [[]|e]] eqn:Hw.
  - intros [= <- <-] _. destruct Hf as (Hb & Ha & Hlen & fs & Hfs & Happ).
    apply write_and_sync_ok in Hw as (Hb' & Ha' & Hc'); [|done..].
    assert (Hg := apply_group_frame _ [request] ltac:(done) Hinc (proj2 (Forall_singleton _ _) Hwf) Hv).
    cbn. split; [|done]. split_and!; [done..| |].
    + rewrite Hc', length_app, Hlen, frame_bytes_length. done.
    + exists (fs ++ [req_frame request]). split; [by rewrite Hc', Hfs, frames_bytes_snoc|].
      unfold apply_frames in *. rewrite try_fold_app, Happ. cbn [rbind try_fold].
      cbn [group_frame] in Hg. rewrite Hg. done.
  - apply write_and_sync_err in Hw.
    destruct (reopen_writer_runtime _ _); intros [= _ <-] He; by rewrite (He _ eq_refl) in Hw.
Qed.

Lemma append_batch_sound s es s' r :
  sound s → server_inv s → append_batch s es = (s', r) →
  (∀ e, r = Err e → is_io e = false) → sound s'.
Proof.
  split_backend s; [by intros _ _ [= <- <-]|]. intros Hs Hi [= <- Hr] He.
  unfold append_batch, aof_backend, aof_append_batch in *. destruct es as [|x es]; [done|].
  destruct (assert_strictly_increasing _) as [[]|]; [|done].
  destruct (submit_append _ _) as [b' r'] eqn:Hsub. eapply submit_sound; [done..| |done|].
  - by right.
  - intros e ->. apply He. by rewrite <-Hr.
Qed.

Lemma rewrite_cases env d es d' r :
  rewrite env d es = (d', r) →
  (r = Ok tt ∧ content d' = frames_bytes (FEntry <$> es)) ∨ ∃ e, r = Err e ∧ is_io e = true.
Proof.
  unfold rewrite. rewrite concat_entry_frames.
  destruct (_ <=? _)%nat; [destruct (sync_ok env)|]; intros [= <- <-]; eauto.
Qed.

Lemma snapshot_sound s es s' r :
  sound s → server_inv s → snapshot s es = (s', r) →
  (∀ e, r = Err e → is_io e = false) → sound s'.
Proof.
  split_backend s; [by intros _ _ [= <- <-]|]. intros Hs Hi [= <- Hr] He.
  unfold snapshot, aof_backend, aof_snapshot, execute_snapshot in *.
  destruct (assert_strictly_increasing es) as [[]|] eqn:Ha; [|done].
  apply assert_strictly_increasing_spec in Ha.
  destruct (handle_closed b) eqn:Hh; [done|].
  destruct (rewrite _ _ _) as [d' r'] eqn:Hw.
  apply rewrite_cases in Hw as [[-> Hc]|(e & -> & Hio)].
  2: { exfalso. cbn in Hr. specialize (He e (eq_sym Hr)). congruence. }
  unfold reopen_writer_runtime in *. destruct (reopen_ok _).
  2: { exfalso. cbn in Hr. by specialize (He eio (eq_sym Hr)). }
  destruct (closed _) eqn:Hcl; [destruct Hs as [_ Hs]; specialize (Hs Hcl); congruence|].
  cbn. split; [|done]. split_and!; [done..|].
  exists (FEntry <$> es). split; [done|]. by apply (apply_entry_frames []).
Qed.

(** ** The storage with the I/O errors it has reported *)

Record Journaled := mkJournaled { j_storage : ServerStorage; j_failures : list StorageError }.

Definition note (r : result unit StorageError) (failures : list StorageError)
    : list StorageError :=
  match r with
  | Err e => if is_io e then failures ++ [e] else failures
  | Ok _ => failures
  end.

(** A call, noting its error. *)
Definition journal (j : Journaled) (call : ServerStorage * result unit StorageError)
    : Journaled * result unit StorageError :=
  (mkJournaled call.1 (note call.2 (j_failures j)), call.2).

#[export] Instance journaled_backend : StorageBackend Journaled := {
  stores_command_log j := stores_command_log (j_storage j);
  append j e := journal j (append (j_storage j) e);
  append_batch j es := journal j (append_batch (j_storage j) es);
  replay St j := replay (j_storage j);
  snapshot j es := journal j (snapshot (j_storage j) es);
  last_sequence j := last_sequence (j_storage j);
  checksum j := checksum (j_storage j);
  close j := journal j (close (j_storage j))
}.

Definition journaled_inv (j : Journaled) : Prop :=
  storage_inv (j_storage j) ∧ (j_failures j = [] → sound (j_storage j)).

Lemma note_nil r failures :
  note r failures = [] → failures = [] ∧ ∀ e, r = Err e → is_io e = false.
Proof.
  destruct r as [|e]; cbn; [done|]. destruct (is_io e) eqn:Hio.
  - by intros [_ ?]%app_eq_nil.
  - intros ->. split; [done|]. by intros ? [= <-].
Qed.

Lemma journal_kept j call :
  journaled_inv j → storage_inv call.1 →
  (sound (j_storage j) → (∀ e, call.2 = Err e → is_io e = false) → sound call.1) →
  journaled_inv (journal j call).1.
Proof.
  intros [_ Hs] Hi Hkept. split; [done|]. intros [Hf He]%note_nil. by apply Hkept; [apply Hs|].
Qed.

#[export] Instance journaled_laws : StorageLaws Journaled.
Proof.
  refine {| committed j := committed (j_storage j); storage_inv := journaled_inv |}.
  - intros j [Hi _]. exact (inv_increasing (j_storage j) Hi).
  - intros j es j' Hj [= <- Hr]. pose proof (proj1 Hj) as Hi. cbn [j_storage].
    destruct (append_batch_Ok (j_storage j) es _ Hi (pair_with_snd _ _ Hr)) as (? & ? & ?).
    split; [|done]. apply journal_kept; [done..|]. intros Hsd He.
    eapply append_batch_sound; [done..|apply surjective_pairing|done].
  - intros j es j' e Hj [= <- Hr]. pose proof (proj1 Hj) as Hi. cbn [j_storage].
    destruct (append_batch_Err (j_storage j) es _ _ Hi (pair_with_snd _ _ Hr)) as (? & ? & ?).
    split; [|done]. apply journal_kept; [done..|]. intros Hsd He.
    eapply append_batch_sound; [done..|apply surjective_pairing|done].
  - intros j [Hi _]. exact (append_batch_empty (j_storage j) Hi).
  - intros j es j' Hj [= <- Hr]. pose proof (proj1 Hj) as Hi. cbn [j_storage].
    destruct (snapshot_Ok (j_storage j) es _ Hi (pair_with_snd _ _ Hr)) as (? & ? & ?).
    split; [|done]. apply journal_kept; [done..|]. intros Hsd He.
    eapply snapshot_sound; [done..|apply surjective_pairing|done].
  - intros j es j' e Hj [= <- Hr]. pose proof (proj1 Hj) as Hi. cbn [j_storage].
    destruct (snapshot_Err (j_storage j) es _ _ Hi (pair_with_snd _ _ Hr)) as (? & ? & ?).
    split; [|done]. apply journal_kept; [done..|]. intros Hsd He.
    eapply snapshot_sound; [done..|apply surjective_pairing|done].
  - intros St j after cb st. exact (replay_committed (j_storage j) after cb st).
  - intros j. exact (last_sequence_committed (j_storage j)).
Defined.

(** ** Reading the file back *)

(** What frames add to a log, and that they are well formed when it is. *)
Definition adds (f : AofFrame) : Prop := ∀ es es', apply_frame_to_entries es f = Ok es' →
  ∃ added, es' = es ++ added ∧ added ≠ [] ∧
    (Forall entry_ok added → (Z.of_nat (length added) ≤ U64_MAX)%Z → frame_ok f).

Lemma frames_add fs es es' :
  Forall adds fs → apply_frames es fs = Ok es' →
  ∃ added, es' = es ++ added ∧ length fs ≤ length added ∧
    (Forall entry_ok added → (Z.of_nat (length added) ≤ U64_MAX)%Z → Forall frame_ok fs).
Proof.
  unfold apply_frames. intros Hfs. revert es.
  induction Hfs as [|f fs Hf _ IH]; intros es Ha; cbn [try_fold] in Ha.
  { simplify_eq. exists []. by rewrite app_nil_r. }
  apply rbind_Ok_inv in Ha as (es1 & H1 & H2).
  apply Hf in H1 as (a1 & -> & Hne & Hok1). apply IH in H2 as (a2 & -> & Hlen & Hok2).
  exists (a1 ++ a2). rewrite app_assoc, length_app. split; [done|].
  destruct a1 as [|x a1]; [done|]. cbn [length] in *. split; [lia|].
  intros [H1 H2]%Forall_app Hl. constructor; [apply Hok1 | apply Hok2]; done || lia.
Qed.

Lemma frame_adds f : adds f.
Proof.
  induction f as [e|es0|fs IH] using Bincode.AofFrame_ind'; intros es es'.
  - cbn [apply_frame_to_entries]. intros (_ & _ & [= <-])%rbind_Ok_inv.
    exists [e]. split_and!; [done..|]. intros H _. exact (Forall_inv H).
  - cbn [apply_frame_to_entries]. destruct es0 as [|e es0]; [done|].
    intros (_ & _ & [= <-])%rbind_Ok_inv. by exists (e :: es0).
  - destruct fs as [|f fs]; [done|]. intros Ha.
    rewrite apply_group in Ha. apply frames_add in Ha as (a & -> & Hlen & Hok); [|done].
    exists a. split; [done|]. split; [by intros ->; cbn in Hlen; lia|].
    intros Hall Hl. apply Bincode.frame_ok_group. split; [by apply Hok | lia].
Qed.

Lemma frame_within f fs :
  f ∈ fs → (Z.of_nat (length (serialize f)) ≤ Z.of_nat (length (frames_bytes fs)))%Z.
Proof.
  intros [l1 [l2 ->]]%list_elem_of_split. unfold frames_bytes.
  rewrite bind_app, bind_cons, !length_app. unfold frame_bytes at 2. rewrite length_app. lia.
Qed.

Lemma file_holds_load rt d es :
  file_holds rt d es → Forall entry_ok es → (Z.of_nat (length es) ≤ U64_MAX)%Z →
  (Z.of_nat (length (content d)) ≤ U64_MAX)%Z → load_entries (content d) = Ok es.
Proof.
  intros (_ & _ & _ & fs & Hc & Happ) Hok Hlen Hsize. rewrite Hc.
  apply load_entries_frames; [|done].
  destruct (frames_add fs [] es) as (a & Heq & _ & Hfok); [|done|].
  { apply Forall_forall. intros. apply frame_adds. }
  cbn in Heq. subst a. specialize (Hfok Hok Hlen).
  rewrite Forall_forall in *. intros f Hf. split; [by apply Hfok|].
  rewrite Hc in Hsize. pose proof (frame_within f fs Hf). lia.
Qed.

(** A server started on an empty file. *)
Lemma opened_empty env path d s :
  content d = [] → server_open env (StorageAof path) d = Ok s →
  storage_inv (mkJournaled s []) ∧ committed s = [] ∧ stores_command_log s = true.
Proof.
  intros Hd. unfold server_open, open_aof. rewrite Hd. cbn. intros [= <-].
  split_and!; [|done..]. split; [constructor|]. intros _. cbn. split; [|done].
  split_and!; [done..|by rewrite Hd|]. by exists [].
Qed.

(** A server started on the file of a sound storage. *)
Lemma reopened b env path :
  sound (OnFile b) → storage_inv b → Forall entry_ok (committed b) →
  (Z.of_nat (length (committed b)) ≤ U64_MAX)%Z →
  (Z.of_nat (length (content (w_disk (aof_writer b)))) ≤ U64_MAX)%Z →
  ∃ s, server_open env (StorageAof path) (w_disk (aof_writer b)) = Ok s ∧
    committed s = committed b ∧ storage_inv (mkJournaled s []) ∧ stores_command_log s = true.
Proof.
  intros [Hf _] Hi Hok Hlen Hsize. unfold server_open, open_aof.
  rewrite (file_holds_load _ _ _ Hf Hok Hlen Hsize). cbn [rbind].
  eexists. split; [done|]. split; [done|]. split; [|done]. split; [exact Hi|].
  intros _. cbn. split; [|done]. destruct Hf as (_ & _ & _ & fs & ? & ?).
  split_and!; [done..|]. by exists fs.
Qed.
End Backend.

(** ** A killed server *)

Section Killed.
Context `{LM : Libm} `{GC : GeoCrate} `{RC : RTreeCrate} `{JT : JsonText} `{PT : Patterns}
  `{HO : HashOrder} `{LC : LogCodec} `{MD : Md5} `{B64 : Base64} `{FC : FrameCodec}.

(** C2: a killed server loses nothing, from the bytes of its file.  Start a
    server on an empty append-only file and let it go through a run as in C1:
    requests, sweeps, compactions and restarts under clocks that do not go
    back, in which no SET, JSET or JDEL answers with an error of the spatial
    index, AOFSHRINK runs only when no stored object has expired, and the log
    stays decodable.  When no operation of the storage has reported an error
    and the entries and the file are within the limits of the format (lengths
    within 64 bits), opening the bytes that the dead process left in its file
    succeeds, and the engine built from them, no earlier than the last step,
    has exactly the objects that have not expired, every channel and every
    hook.  The new storage is again one to go on with. *)
Theorem killed_server_recovers (env0 env : IoEnv) (path : string) (d0 : Disk)
    (s0 : ServerStorage) (config0 config : Engine.Config) (t0 t : Z) (db : LatLng Journaled)
    (b : AofBackend) (clock : Clock)
    (Hempty : content d0 = []) (Hopen : server_open env0 (StorageAof path) d0 = Ok s0)
    (Hrun : run t0 (fresh (mkJournaled s0 []) config0) t db)
    (Hfailures : j_failures (db_storage db) = []) (Hfile : j_storage (db_storage db) = OnFile b)
    (Hentries : Forall entry_ok (committed b))
    (Hlen : (Z.of_nat (length (committed b)) ≤ U64_MAX)%Z)
    (Hsize : (Z.of_nat (length (content (w_disk (aof_writer b)))) ≤ U64_MAX)%Z)
    (Hclock : (t ≤ now_millis clock)%Z) :
  ∃ s db', server_open env (StorageAof path) (w_disk (aof_writer b)) = Ok s ∧
    build clock (Some (mkJournaled s [])) config = Ok db' ∧
    view db' = live (now_millis clock) (view db) ∧
    storage_inv (mkJournaled s []).
Proof.
  assert (storage_inv (mkJournaled s0 []) ∧ committed s0 = [] ∧ stores_command_log s0 = true)
    as (Hinv0 & Hc0 & Hst0) by by apply (opened_empty env0 path d0).
  assert (durable t db) as Hdur.
  { eapply run_durable; [exact Hrun|]. by apply fresh_durable. }
  assert (storage_inv (db_storage db)) as [Hi Hs] by apply Hdur.
  rewrite Hfile in Hi, Hs.
  destruct (reopened b env path) as (s & Hs' & Hc & Hinv & _); [by apply Hs|done..|].
  destruct (build_recovers clock t db (mkJournaled s []) config Hdur Hclock)
    as (db' & Hb & Hv & _).
  { cbn [committed journaled_laws j_storage]. by rewrite Hc, Hfile. }
  by exists s, db'.
Qed.
End Killed.
End ServerFile.

Module ServerFileWitness.
Import ListTree NoGeoJson PlainText Memory Aof ServerFile.
#[local] Existing Instance RecoveryWitness.codec.
#[local] Existing Instance RecoveryWitness.base64.
#[local] Existing Instance RecoveryWitness.md5.
#[local] Existing Instance Bincode.bincode_codec.

Definition disk : Disk := mkDisk [] [] 1000.
Definition opened : AofBackend :=
  mkAof false env_ok (mkWriter (mkRuntime [] true 0) disk (mkCommitted [] false)).
Definition started : LatLng Journaled := fresh (mkJournaled (OnFile opened) []) default_config.
Definition parked_truck : LatLng Journaled :=
  (execute (RecoveryWitness.clock_at 0) RecoveryWitness.set_here started).1.

(** The backend after the request. *)
Definition left_behind : AofBackend :=
  match j_storage (db_storage parked_truck) with OnFile b => b | InMemory _ => opened end.

Lemma left_log : committed left_behind = [mkEntry 1 0 [Byte.x03]].
Proof. vm_compute. reflexivity. Qed.

Lemma parked_log : committed (db_storage parked_truck) = [mkEntry 1 0 [Byte.x03]].
Proof. vm_compute. reflexivity. Qed.

Lemma parked_run : run 0 started 0 parked_truck.
Proof.
  apply (run_step 0 started (RecoveryWitness.clock_at 0) parked_truck); [done| | |constructor].
  - apply (step_request (RecoveryWitness.clock_at 0) RecoveryWitness.set_here).
    assert ((execute (RecoveryWitness.clock_at 0) RecoveryWitness.set_here started).2 = Ok tt)
      as -> by (vm_compute; reflexivity).
    by intros e.
  - unfold log_healthy. rewrite parked_log. constructor; [|constructor].
    split; [apply RecoveryWitness.codec_faithful | done].
Qed.

Lemma killed_server_recovers_witness :
  ∃ s db', server_open env_ok (StorageAof "data.aof") (w_disk (aof_writer left_behind)) = Ok s ∧
    build (RecoveryWitness.clock_at 500) (Some (mkJournaled s [])) default_config = Ok db' ∧
    view db' = live 500 (view parked_truck) ∧ storage_inv (mkJournaled s []).
Proof.
  apply (killed_server_recovers env_ok env_ok "data.aof" disk (OnFile opened) default_config
           default_config 0 0 parked_truck left_behind (RecoveryWitness.clock_at 500)).
  - reflexivity.
  - reflexivity.
  - exact parked_run.
  - vm_compute. reflexivity.
  - vm_compute. reflexivity.
  - rewrite left_log. constructor; [|constructor]. by vm_compute.
  - rewrite left_log. by rewrite U64_MAX_eq.
  - assert (length (content (w_disk (aof_writer left_behind))) ≤ 100) by (vm_compute; lia).
    rewrite U64_MAX_eq. lia.
  - done.
Defined.
End ServerFileWitness.
