(* ===== verification/Server.v ===== *)
(** * The server process ([crates/latlng-server/src/main.rs], [cli.rs])

    How the configuration of a server comes about: the defaults or a file,
    then the environment, then the flags.  [Cli] is what [clap] makes of the
    command line.  Every variable and every flag sets one field, so a layer is
    written as the record it results in; the two log settings may be refused,
    in the order of the code.

    [sweep_turn] is one turn of the task that deletes expired objects. *)

From Stdlib Require Import ZArith Lia.
From stdpp Require Import base gmap strings list.
From S2P Require Import Prelude Storage F64 Json Platform Geo Strings Index Geofence Collection.
From S2P Require Import Engine WebhookQueue Outbox Replication Auth Config Http.

Inductive StartupError : Type :=
  | StartConfig (e : ConfigError)
  | StartText (message : string).

(** ** The command line *)

Record Cli := mkCli {
  cli_config : option string;
  cli_bearer_token : option string;
  cli_disable_bearer_token : bool;
  cli_jwt_secret : option string;
  cli_jwt_public_key_pem : option string;
  cli_jwt_issuer : option string;
  cli_jwt_audience : option string;
  cli_jwt_algorithm : option string;
  cli_jwks_url : option string;
  cli_jwks_provider_id : option string;
  cli_jwks_refresh_interval_seconds : option Z;
  cli_jwks_cache_ttl_seconds : option Z;
  cli_jwks_http_timeout_ms : option Z;
  cli_jwt_leeway : option Z;
  cli_production_mode : option bool;
  cli_listen : option string;
  cli_capnp_enabled : option bool;
  cli_no_capnp : bool;
  cli_capnp_listen : option string;
  cli_server_id : option string;
  cli_aof : option string;
  cli_memory : bool;
  cli_read_only : option bool;
  cli_subscriber_queue_capacity : option Z;
  cli_webhook_queue_path : option string;
  cli_webhook_timeout_ms : option Z;
  cli_webhook_concurrency_limit : option Z;
  cli_webhook_retry_count : option Z;
  cli_webhook_retry_initial_backoff_ms : option Z;
  cli_webhook_retry_max_backoff_ms : option Z;
  cli_webhook_lease_ms : option Z;
  cli_expiry_sweep_interval_ms : option Z;
  cli_native_executor_threads : option Z;
  cli_native_executor_queue_limit : option Z;
  cli_aof_writer_queue_limit : option Z;
  cli_aof_group_commit_delay_ms : option Z;
  cli_aof_group_commit_max_requests : option Z;
  cli_follow_host : option string;
  cli_follow_port : option Z;
  cli_replication_credential : option string;
  cli_replication_batch_size : option Z;
  cli_replication_reconnect_backoff_ms : option Z;
  cli_http_cors_enabled : option bool;
  cli_http_cors_allowed_origins : option string;
  cli_http_cors_allowed_methods : option string;
  cli_http_cors_allowed_headers : option string;
  cli_http_cors_max_age_seconds : option Z;
  cli_http_max_body_bytes : option Z;
  cli_http_request_timeout_ms : option Z;
  cli_http_rate_limit_enabled : option bool;
  cli_http_rate_limit_requests_per_second : option Z;
  cli_http_rate_limit_burst : option Z;
  cli_http_principal_rate_limit_enabled : option bool;
  cli_http_principal_rate_limit_requests_per_second : option Z;
  cli_http_principal_rate_limit_burst : option Z;
  cli_logging_enabled : option bool;
  cli_no_logging : bool;
  cli_log_format : option string;
  cli_log_level : option string;
  cli_log_destination : option string;
  cli_log_file : option string;
  cli_require_auth : bool
}.

(** ** Reading values *)

(** The ["1" | "true" | "yes" | "on"] of [parse_bool] and [parse_flag_bool]. *)
Definition says_yes (value : string) : bool :=
  existsb (String.eqb (to_ascii_lowercase (trim value))) ["1"; "true"; "yes"; "on"].
Definition says_no (value : string) : bool :=
  existsb (String.eqb (to_ascii_lowercase (trim value))) ["0"; "false"; "no"; "off"].

Definition parse_bool (value : string) : bool := says_yes value.

(** The value parser of the boolean flags. *)
Definition parse_flag_bool (value : string) : result bool string :=
  if says_yes value then Ok true
  else if says_no value then Ok false
  else Err ("expected true or false, got `" +:+ to_ascii_lowercase (trim value) +:+ "`").

Definition parse_csv (value : string) : list string :=
  filter (λ part, part ≠ "") (trim <$> split_str "," value).

Definition parse_log_format (value : string) : option LogFormat :=
  let value := to_ascii_lowercase (trim value) in
  if String.eqb value "compact" || String.eqb value "text" then Some Compact
  else if String.eqb value "json" then Some LogJson
  else None.

Definition parse_log_destination (value : string) : option LogDestination :=
  let value := to_ascii_lowercase (trim value) in
  if String.eqb value "stderr" then Some Stderr
  else if String.eqb value "stdout" then Some Stdout
  else if String.eqb value "file" then Some LogFile
  else if String.eqb value "none" || String.eqb value "off" || String.eqb value "disabled"
  then Some LogNone
  else None.

(** [usize] has 64 bits. *)
Definition parse_usize_or (value : string) (fallback : Z) : Z :=
  default fallback (parse_positive U64_MAX (trim value)).
Definition parse_u64_or (value : string) (fallback : Z) : Z :=
  default fallback (parse_positive U64_MAX (trim value)).
Definition parse_u32_or (value : string) (fallback : Z) : Z :=
  default fallback (parse_unsigned U32_MAX (trim value)).

Definition U16_MAX : Z := 2 ^ 16 - 1.

(** ** The environment *)

(** [if let Some(value) = env(..) { target = parse(value) }]. *)
Definition from_env {A} (parse : string → A) (value : option string) (current : A) : A :=
  match value with Some value => parse value | None => current end.
Definition number_from_env (parse_or : string → Z → Z) (value : option string) (current : Z) : Z :=
  match value with Some value => parse_or value current | None => current end.

Lemma number_positive value parse_or current :
  (∀ v f, f ≠ 0%Z → parse_or v f ≠ 0%Z) → current ≠ 0%Z →
  number_from_env parse_or value current ≠ 0%Z.
Proof. destruct value; cbn; auto. Qed.

Lemma parse_positive_or max v f : f ≠ 0%Z → default f (parse_positive max v) ≠ 0%Z.
Proof.
  intros Hf. unfold parse_positive. destruct (parse_unsigned max v) as [n|]; cbn; [|done].
  destruct (Z.ltb_spec 0 n); cbn; [lia|done].
Qed.

(** A setting whose text may be refused. *)
Definition checked {A} (what : string) (parse : string → option A) (value : option string)
    (current : A) : result A StartupError :=
  match value with
  | None => Ok current
  | Some value => ok_or (parse value) (StartText ("unsupported log " +:+ what +:+ ": " +:+ value))
  end.

Definition env_auth (env : string → option string) (c : AuthConfig) : AuthConfig := {|
  ac_bearer_token := from_env Some (env "LATLNG_BEARER_TOKEN") (ac_bearer_token c);
  ac_disable_bearer_token :=
    from_env parse_bool (env "LATLNG_DISABLE_BEARER_TOKEN") (ac_disable_bearer_token c);
  ac_jwt_secret := from_env Some (env "LATLNG_JWT_SECRET") (ac_jwt_secret c);
  ac_jwt_public_key_pem :=
    from_env Some (env "LATLNG_JWT_PUBLIC_KEY_PEM") (ac_jwt_public_key_pem c);
  ac_jwt_issuer := from_env Some (env "LATLNG_JWT_ISSUER") (ac_jwt_issuer c);
  ac_jwt_audience := from_env Some (env "LATLNG_JWT_AUDIENCE") (ac_jwt_audience c);
  ac_jwt_algorithm := from_env Some (env "LATLNG_JWT_ALGORITHM") (ac_jwt_algorithm c);
  ac_jwks_url := from_env Some (env "LATLNG_JWKS_URL") (ac_jwks_url c);
  ac_jwks_provider_id := from_env Some (env "LATLNG_JWKS_PROVIDER_ID") (ac_jwks_provider_id c);
  ac_jwks_refresh_interval_seconds :=
    number_from_env parse_u64_or (env "LATLNG_JWKS_REFRESH_INTERVAL_SECONDS")
      (ac_jwks_refresh_interval_seconds c);
  ac_jwks_cache_ttl_seconds :=
    number_from_env parse_u64_or (env "LATLNG_JWKS_CACHE_TTL_SECONDS")
      (ac_jwks_cache_ttl_seconds c);
  ac_jwks_http_timeout_ms :=
    number_from_env parse_u64_or (env "LATLNG_JWKS_HTTP_TIMEOUT_MS") (ac_jwks_http_timeout_ms c);
  ac_jwt_leeway_seconds :=
    from_env (λ value, default 0%Z (parse_unsigned U64_MAX value))
      (env "LATLNG_JWT_LEEWAY_SECONDS") (ac_jwt_leeway_seconds c)
|}.

Definition env_overrides (env : string → option string) (c : RuntimeConfig)
    : result RuntimeConfig StartupError :=
  let? format := checked "format" parse_log_format (env "LATLNG_LOG_FORMAT") (rc_log_format c) in
  let? destination :=
    checked "destination" parse_log_destination (env "LATLNG_LOG_DESTINATION")
      (rc_log_destination c) in
  Ok {|
  rc_production_mode := from_env parse_bool (env "LATLNG_PRODUCTION_MODE") (rc_production_mode c);
  rc_listen_addr := from_env Datatypes.id (env "LATLNG_LISTEN") (rc_listen_addr c);
  rc_capnp_enabled := from_env parse_bool (env "LATLNG_CAPNP_ENABLED") (rc_capnp_enabled c);
  rc_capnp_listen_addr :=
    from_env Datatypes.id (env "LATLNG_CAPNP_LISTEN") (rc_capnp_listen_addr c);
  rc_server_id := from_env Datatypes.id (env "LATLNG_SERVER_ID") (rc_server_id c);
  rc_storage := from_env StorageAof (env "LATLNG_AOF_PATH") (rc_storage c);
  rc_read_only := from_env parse_bool (env "LATLNG_READ_ONLY") (rc_read_only c);
  rc_command_timeouts := rc_command_timeouts c;
  rc_subscriber_queue_capacity :=
    number_from_env parse_usize_or (env "LATLNG_SUBSCRIBER_QUEUE_CAPACITY")
      (rc_subscriber_queue_capacity c);
  rc_webhook_queue_path :=
    from_env Some (env "LATLNG_WEBHOOK_QUEUE_PATH") (rc_webhook_queue_path c);
  rc_webhook_timeout_ms :=
    number_from_env parse_u64_or (env "LATLNG_WEBHOOK_TIMEOUT_MS") (rc_webhook_timeout_ms c);
  rc_webhook_concurrency_limit :=
    number_from_env parse_usize_or (env "LATLNG_WEBHOOK_CONCURRENCY_LIMIT")
      (rc_webhook_concurrency_limit c);
  rc_webhook_retry_count :=
    number_from_env parse_u32_or (env "LATLNG_WEBHOOK_RETRY_COUNT") (rc_webhook_retry_count c);
  rc_webhook_retry_initial_backoff_ms :=
    number_from_env parse_u64_or (env "LATLNG_WEBHOOK_RETRY_INITIAL_BACKOFF_MS")
      (rc_webhook_retry_initial_backoff_ms c);
  rc_webhook_retry_max_backoff_ms :=
    number_from_env parse_u64_or (env "LATLNG_WEBHOOK_RETRY_MAX_BACKOFF_MS")
      (rc_webhook_retry_max_backoff_ms c);
  rc_webhook_lease_ms :=
    number_from_env parse_u64_or (env "LATLNG_WEBHOOK_LEASE_MS") (rc_webhook_lease_ms c);
  rc_expiry_sweep_interval_ms :=
    number_from_env parse_u64_or (env "LATLNG_EXPIRY_SWEEP_INTERVAL_MS")
      (rc_expiry_sweep_interval_ms c);
  rc_native_executor_threads :=
    number_from_env parse_usize_or (env "LATLNG_NATIVE_EXECUTOR_THREADS")
      (rc_native_executor_threads c);
  rc_native_executor_queue_limit :=
    number_from_env parse_usize_or (env "LATLNG_NATIVE_EXECUTOR_QUEUE_LIMIT")
      (rc_native_executor_queue_limit c);
  rc_aof_writer_queue_limit :=
    number_from_env parse_usize_or (env "LATLNG_AOF_WRITER_QUEUE_LIMIT")
      (rc_aof_writer_queue_limit c);
  rc_aof_group_commit_delay_ms :=
    number_from_env parse_u64_or (env "LATLNG_AOF_GROUP_COMMIT_DELAY_MS")
      (rc_aof_group_commit_delay_ms c);
  rc_aof_group_commit_max_requests :=
    number_from_env parse_usize_or (env "LATLNG_AOF_GROUP_COMMIT_MAX_REQUESTS")
      (rc_aof_group_commit_max_requests c);
  rc_follow_host := from_env Some (env "LATLNG_FOLLOW_HOST") (rc_follow_host c);
  rc_follow_port := from_env (parse_positive U16_MAX) (env "LATLNG_FOLLOW_PORT") (rc_follow_port c);
  rc_replication_credential :=
    from_env Some (env "LATLNG_REPLICATION_CREDENTIAL") (rc_replication_credential c);
  rc_replication_batch_size :=
    number_from_env parse_usize_or (env "LATLNG_REPLICATION_BATCH_SIZE")
      (rc_replication_batch_size c);
  rc_replication_reconnect_backoff_ms :=
    number_from_env parse_u64_or (env "LATLNG_REPLICATION_RECONNECT_BACKOFF_MS")
      (rc_replication_reconnect_backoff_ms c);
  rc_http_cors_enabled :=
    from_env parse_bool (env "LATLNG_HTTP_CORS_ENABLED") (rc_http_cors_enabled c);
  rc_http_cors_allowed_origins :=
    from_env parse_csv (env "LATLNG_HTTP_CORS_ALLOWED_ORIGINS") (rc_http_cors_allowed_origins c);
  rc_http_cors_allowed_methods :=
    from_env parse_csv (env "LATLNG_HTTP_CORS_ALLOWED_METHODS") (rc_http_cors_allowed_methods c);
  rc_http_cors_allowed_headers :=
    from_env parse_csv (env "LATLNG_HTTP_CORS_ALLOWED_HEADERS") (rc_http_cors_allowed_headers c);
  rc_http_cors_max_age_seconds :=
    from_env (λ value, parse_unsigned U64_MAX (trim value))
      (env "LATLNG_HTTP_CORS_MAX_AGE_SECONDS") (rc_http_cors_max_age_seconds c);
  rc_http_max_body_bytes :=
    number_from_env parse_usize_or (env "LATLNG_HTTP_MAX_BODY_BYTES") (rc_http_max_body_bytes c);
  rc_http_request_timeout_ms :=
    number_from_env parse_u64_or (env "LATLNG_HTTP_REQUEST_TIMEOUT_MS")
      (rc_http_request_timeout_ms c);
  rc_http_rate_limit_enabled :=
    from_env parse_bool (env "LATLNG_HTTP_RATE_LIMIT_ENABLED") (rc_http_rate_limit_enabled c);
  rc_http_rate_limit_requests_per_second :=
    number_from_env parse_u64_or (env "LATLNG_HTTP_RATE_LIMIT_REQUESTS_PER_SECOND")
      (rc_http_rate_limit_requests_per_second c);
  rc_http_rate_limit_burst :=
    number_from_env parse_u64_or (env "LATLNG_HTTP_RATE_LIMIT_BURST") (rc_http_rate_limit_burst c);
  rc_http_principal_rate_limit_enabled :=
    from_env parse_bool (env "LATLNG_HTTP_PRINCIPAL_RATE_LIMIT_ENABLED")
      (rc_http_principal_rate_limit_enabled c);
  rc_http_principal_rate_limit_requests_per_second :=
    number_from_env parse_u64_or (env "LATLNG_HTTP_PRINCIPAL_RATE_LIMIT_REQUESTS_PER_SECOND")
      (rc_http_principal_rate_limit_requests_per_second c);
  rc_http_principal_rate_limit_burst :=
    number_from_env parse_u64_or (env "LATLNG_HTTP_PRINCIPAL_RATE_LIMIT_BURST")
      (rc_http_principal_rate_limit_burst c);
  rc_logging_enabled := from_env parse_bool (env "LATLNG_LOGGING_ENABLED") (rc_logging_enabled c);
  rc_log_format := format;
  rc_log_level := from_env Datatypes.id (env "LATLNG_LOG_LEVEL") (rc_log_level c);
  rc_log_destination := destination;
  rc_log_file_path := from_env Some (env "LATLNG_LOG_FILE_PATH") (rc_log_file_path c);
  rc_require_auth := from_env parse_bool (env "LATLNG_REQUIRE_AUTH") (rc_require_auth c);
  rc_auth := env_auth env (rc_auth c);
  rc_config_path := rc_config_path c
|}.

(** ** The flags *)

Definition set_to {A} (value : option A) (target : A) : A := default target value.
Definition set_some {A} (value target : option A) : option A :=
  match value with Some v => Some v | None => target end.

Definition cli_auth (cli : Cli) (c : AuthConfig) : AuthConfig := {|
  ac_bearer_token := set_some (cli_bearer_token cli) (ac_bearer_token c);
  ac_disable_bearer_token :=
    (if cli_disable_bearer_token cli then true else ac_disable_bearer_token c);
  ac_jwt_secret := set_some (cli_jwt_secret cli) (ac_jwt_secret c);
  ac_jwt_public_key_pem := set_some (cli_jwt_public_key_pem cli) (ac_jwt_public_key_pem c);
  ac_jwt_issuer := set_some (cli_jwt_issuer cli) (ac_jwt_issuer c);
  ac_jwt_audience := set_some (cli_jwt_audience cli) (ac_jwt_audience c);
  ac_jwt_algorithm := set_some (cli_jwt_algorithm cli) (ac_jwt_algorithm c);
  ac_jwks_url := set_some (cli_jwks_url cli) (ac_jwks_url c);
  ac_jwks_provider_id := set_some (cli_jwks_provider_id cli) (ac_jwks_provider_id c);
  ac_jwks_refresh_interval_seconds :=
    set_to (cli_jwks_refresh_interval_seconds cli) (ac_jwks_refresh_interval_seconds c);
  ac_jwks_cache_ttl_seconds :=
    set_to (cli_jwks_cache_ttl_seconds cli) (ac_jwks_cache_ttl_seconds c);
  ac_jwks_http_timeout_ms := set_to (cli_jwks_http_timeout_ms cli) (ac_jwks_http_timeout_ms c);
  ac_jwt_leeway_seconds := set_to (cli_jwt_leeway cli) (ac_jwt_leeway_seconds c)
|}.

Definition apply_cli_overrides (c : RuntimeConfig) (cli : Cli) : result RuntimeConfig StartupError :=
  let? format := checked "format" parse_log_format (cli_log_format cli) (rc_log_format c) in
  let? destination :=
    checked "destination" parse_log_destination (cli_log_destination cli)
      (rc_log_destination c) in
  Ok {|
  rc_production_mode := set_to (cli_production_mode cli) (rc_production_mode c);
  rc_listen_addr := set_to (cli_listen cli) (rc_listen_addr c);
  rc_capnp_enabled :=
    (if cli_no_capnp cli then false else set_to (cli_capnp_enabled cli) (rc_capnp_enabled c));
  rc_capnp_listen_addr := set_to (cli_capnp_listen cli) (rc_capnp_listen_addr c);
  rc_server_id := set_to (cli_server_id cli) (rc_server_id c);
  rc_storage :=
    (if cli_memory cli then StorageMemory else set_to (StorageAof <$> cli_aof cli) (rc_storage c));
  rc_read_only := set_to (cli_read_only cli) (rc_read_only c);
  rc_command_timeouts := rc_command_timeouts c;
  rc_subscriber_queue_capacity :=
    set_to (cli_subscriber_queue_capacity cli) (rc_subscriber_queue_capacity c);
  rc_webhook_queue_path := set_some (cli_webhook_queue_path cli) (rc_webhook_queue_path c);
  rc_webhook_timeout_ms := set_to (cli_webhook_timeout_ms cli) (rc_webhook_timeout_ms c);
  rc_webhook_concurrency_limit :=
    set_to (cli_webhook_concurrency_limit cli) (rc_webhook_concurrency_limit c);
  rc_webhook_retry_count := set_to (cli_webhook_retry_count cli) (rc_webhook_retry_count c);
  rc_webhook_retry_initial_backoff_ms :=
    set_to (cli_webhook_retry_initial_backoff_ms cli) (rc_webhook_retry_initial_backoff_ms c);
  rc_webhook_retry_max_backoff_ms :=
    set_to (cli_webhook_retry_max_backoff_ms cli) (rc_webhook_retry_max_backoff_ms c);
  rc_webhook_lease_ms := set_to (cli_webhook_lease_ms cli) (rc_webhook_lease_ms c);
  rc_expiry_sweep_interval_ms :=
    set_to (cli_expiry_sweep_interval_ms cli) (rc_expiry_sweep_interval_ms c);
  rc_native_executor_threads :=
    set_to (cli_native_executor_threads cli) (rc_native_executor_threads c);
  rc_native_executor_queue_limit :=
    set_to (cli_native_executor_queue_limit cli) (rc_native_executor_queue_limit c);
  rc_aof_writer_queue_limit :=
    set_to (cli_aof_writer_queue_limit cli) (rc_aof_writer_queue_limit c);
  rc_aof_group_commit_delay_ms :=
    set_to (cli_aof_group_commit_delay_ms cli) (rc_aof_group_commit_delay_ms c);
  rc_aof_group_commit_max_requests :=
    set_to (cli_aof_group_commit_max_requests cli) (rc_aof_group_commit_max_requests c);
  rc_follow_host := set_some (cli_follow_host cli) (rc_follow_host c);
  rc_follow_port :=
    set_to ((λ port, if (0 <? port)%Z then Some port else None) <$> cli_follow_port cli)
      (rc_follow_port c);
  rc_replication_credential :=
    set_some (cli_replication_credential cli) (rc_replication_credential c);
  rc_replication_batch_size :=
    set_to (cli_replication_batch_size cli) (rc_replication_batch_size c);
  rc_replication_reconnect_backoff_ms :=
    set_to (cli_replication_reconnect_backoff_ms cli) (rc_replication_reconnect_backoff_ms c);
  rc_http_cors_enabled := set_to (cli_http_cors_enabled cli) (rc_http_cors_enabled c);
  rc_http_cors_allowed_origins :=
    set_to (parse_csv <$> cli_http_cors_allowed_origins cli) (rc_http_cors_allowed_origins c);
  rc_http_cors_allowed_methods :=
    set_to (parse_csv <$> cli_http_cors_allowed_methods cli) (rc_http_cors_allowed_methods c);
  rc_http_cors_allowed_headers :=
    set_to (parse_csv <$> cli_http_cors_allowed_headers cli) (rc_http_cors_allowed_headers c);
  rc_http_cors_max_age_seconds :=
    set_some (cli_http_cors_max_age_seconds cli) (rc_http_cors_max_age_seconds c);
  rc_http_max_body_bytes := set_to (cli_http_max_body_bytes cli) (rc_http_max_body_bytes c);
  rc_http_request_timeout_ms :=
    set_to (cli_http_request_timeout_ms cli) (rc_http_request_timeout_ms c);
  rc_http_rate_limit_enabled :=
    set_to (cli_http_rate_limit_enabled cli) (rc_http_rate_limit_enabled c);
  rc_http_rate_limit_requests_per_second :=
    set_to (cli_http_rate_limit_requests_per_second cli) (rc_http_rate_limit_requests_per_second c);
  rc_http_rate_limit_burst := set_to (cli_http_rate_limit_burst cli) (rc_http_rate_limit_burst c);
  rc_http_principal_rate_limit_enabled :=
    set_to (cli_http_principal_rate_limit_enabled cli) (rc_http_principal_rate_limit_enabled c);
  rc_http_principal_rate_limit_requests_per_second :=
    set_to (cli_http_principal_rate_limit_requests_per_second cli)
      (rc_http_principal_rate_limit_requests_per_second c);
  rc_http_principal_rate_limit_burst :=
    set_to (cli_http_principal_rate_limit_burst cli) (rc_http_principal_rate_limit_burst c);
  rc_logging_enabled :=
    (if cli_no_logging cli then false else set_to (cli_logging_enabled cli) (rc_logging_enabled c));
  rc_log_format := format;
  rc_log_level := set_to (cli_log_level cli) (rc_log_level c);
  rc_log_destination := destination;
  rc_log_file_path := set_some (cli_log_file cli) (rc_log_file_path c);
  rc_require_auth := (if cli_require_auth cli then true else rc_require_auth c);
  rc_auth := cli_auth cli (rc_auth c);
  rc_config_path := rc_config_path c
|}.

(** ** All layers *)

Section ReadConfig.
Context `{CT : ConfigText}.

(** [server_id] and [parallelism] are what the defaults are made of. *)
Definition read_config (files : gmap string string) (server_id : string) (parallelism : option Z)
    (cli : Cli) (env : string → option string) : result RuntimeConfig StartupError :=
  let config_path := set_some (cli_config cli) (env "LATLNG_CONFIG") in
  let? config := match config_path with
                 | Some path => map_err StartConfig (load_from_path files path)
                 | None => Ok (default_runtime_config server_id parallelism)
                 end in
  let? config := env_overrides env (assign_path config config_path) in
  apply_cli_overrides config cli.

(** What [main] does with it before anything is opened. *)
Definition startup_config (files : gmap string string) (server_id : string)
    (parallelism : option Z) (cli : Cli) (env : string → option string)
    : result RuntimeConfig StartupError :=
  let? config := read_config files server_id parallelism cli env in
  let? _ := map_err StartConfig (validate_for_startup config) in
  Ok config.
End ReadConfig.

(** The configuration of the engine. *)
Definition core_config (c : RuntimeConfig) : Engine.Config :=
  foldl (λ k kv, config_set_timeout k kv.1 kv.2)
    (mkConfig (rc_read_only c) (command_timeouts default_config)
       (Z.to_nat (rc_subscriber_queue_capacity c)) (rc_webhook_retry_count c))
    (btree_iter (rc_command_timeouts c)).

(** ** The sweep of expired objects *)

Section Sweep.
Context `{LM : Libm} `{GC : GeoCrate} `{RC : RTreeCrate} `{JT : JsonText} `{PT : Patterns}
  `{HO : HashOrder} `{LC : LogCodec} `{MD : Md5} `{B64 : Base64}.
Context {S : Type} `{SB : StorageBackend S}.

Definition EXPIRY_SWEEP_BATCH : nat := Z.to_nat 10000.

Definition none_due (now_ms : Z) (next : option Z) : bool :=
  match next with Some next => (now_ms <? next)%Z | None => true end.

(** One tick of [run_expiry_sweep]. *)
Definition sweep_turn (clock : Clock) (status : ReplicationStatus) : M (S := S) nat :=
  if is_follower status then mret 0
  else
    mbind op_next_expiry_ms (λ next,
      if none_due (now_millis clock) next then mret 0
      else op_expire_due clock (now_millis clock) EXPIRY_SWEEP_BATCH).

(** Whether the tick notifies the outbox and the streams. *)
Definition sweep_notifies (r : result nat CoreError) : bool :=
  match r with Ok 0 => false | Ok _ => true | Err _ => false end.

(** *** The check in front of the sweep *)

Lemma no_due_ids now_ms (c : Collection) max :
  none_due now_ms (fst <$> head (expirations_iter c)) = true → due_expirations c now_ms max = [].
Proof.
  unfold due_expirations. destruct (expirations_iter c) as [|[d i] l]; cbn [head fmap option_fmap option_map take_while].
  { by rewrite take_nil. }
  cbn. intros Hd%Z.ltb_lt. rewrite (proj2 (Z.leb_gt d now_ms)) by lia. by rewrite take_nil.
Qed.

Lemma min_none_due now_ms (l : list Z) :
  none_due now_ms
    (foldr (λ d acc, Some (match acc with Some a => Z.min d a | None => d end)) None l) = true →
  Forall (λ d, (now_ms < d)%Z) l.
Proof.
  induction l as [|d l IH]; cbn [foldr]; [constructor|].
  destruct (foldr _ None l) as [a|]; cbn; intros H%Z.ltb_lt; constructor.
  - lia.
  - apply IH. cbn. apply Z.ltb_lt. lia.
  - lia.
  - by apply IH.
Qed.

Lemma expire_nothing clock now_ms max (db : LatLng S) handles :
  Forall (λ nv, due_expirations (collection nv.2) now_ms max = [] ∧
                db_collections db !! nv.1 = Some nv.2) handles →
  expire_collections clock now_ms max handles 0 db = (db, Ok 0).
Proof.
  induction 1 as [|[n v] handles [Hd Hl] _ IH]; [done|]. cbn [expire_collections].
  destruct (max <=? 0)%nat; [done|]. cbn [fst snd] in *.
  unfold collection_handle, mbind, mget. cbn. rewrite Hl. cbn. rewrite Nat.sub_0_r, Hd. exact IH.
Qed.

(** The check is only a shortcut: on a leader a tick does what the sweep
    without it would do. *)
Lemma sweep_check_is_shortcut clock status (db : LatLng S) :
  is_follower status = false → (0 ≤ db_expired_objects_total db ≤ U64_MAX)%Z →
  sweep_turn clock status db =
    op_expire_due clock (now_millis clock) EXPIRY_SWEEP_BATCH db.
Proof.
  intros Hl Ht. unfold sweep_turn. rewrite Hl. unfold mbind at 1, op_next_expiry_ms.
  destruct (none_due _ _) eqn:Hn; [|done]. apply min_none_due in Hn.
  unfold op_expire_due, mbind at 1, mget. destruct (read_only _); [done|].
  unfold mbind. rewrite expire_nothing.
  - cbn. unfold add_expired_total. unfold wrapping_add. rewrite Z.add_0_r, Z.mod_small by (rewrite U64_MAX_eq in Ht; lia). by destruct db.
  - apply Forall_forall. intros [n v] Hin. cbn [fst snd].
    assert (db_collections db !! n = Some v) as Hv by by apply elem_of_hash_iter.
    split; [|done]. apply no_due_ids.
    destruct (head _) as [[d i]|] eqn:Hh; [|done]. cbn. apply Z.ltb_lt.
    eapply Forall_forall in Hn; [exact Hn|]. apply list_elem_of_omap.
    exists (n, v). split; [by apply elem_of_map_to_list | cbn [snd]; by rewrite Hh].
Qed.

(** A follower leaves its objects to the leader. *)
Lemma follower_never_sweeps clock status (db : LatLng S) :
  is_follower status = true → sweep_turn clock status db = (db, Ok 0).
Proof. intros Hf. unfold sweep_turn. by rewrite Hf. Qed.
End Sweep.

(** ** What the layers guarantee *)

Lemma Forall2_transport {A} (P : A → Prop) (l k : list A) :
  Forall2 (λ x y, P x → P y) l k → Forall P l → Forall P k.
Proof. induction 1; [done|]. rewrite !Forall_cons. naive_solver. Qed.

(** Numbers from the environment: zero and what is not a number are passed
    over, so a bound that was positive stays so. *)
Lemma env_keeps_positive env c c' :
  env_overrides env c = Ok c' → Forall (λ s, s.2 ≠ 0%Z) (positive_settings c) →
  Forall (λ s, s.2 ≠ 0%Z) (positive_settings c').
Proof.
  unfold env_overrides. intros (f & _ & H)%rbind_Ok_inv Hp.
  apply rbind_Ok_inv in H as (d & _ & [= <-]).
  revert Hp. apply Forall2_transport. unfold positive_settings.
  repeat first [apply Forall2_nil_2 | apply Forall2_cons_2;
    [intros Hs; apply number_positive; [intros; by apply parse_positive_or | exact Hs]|]].
Qed.

(** Every setting has a flag. *)
Definition all_given (cli : Cli) : Prop :=
  is_Some (cli_bearer_token cli) ∧
  is_Some (cli_jwt_secret cli) ∧
  is_Some (cli_jwt_public_key_pem cli) ∧
  is_Some (cli_jwt_issuer cli) ∧
  is_Some (cli_jwt_audience cli) ∧
  is_Some (cli_jwt_algorithm cli) ∧
  is_Some (cli_jwks_url cli) ∧
  is_Some (cli_jwks_provider_id cli) ∧
  is_Some (cli_jwks_refresh_interval_seconds cli) ∧
  is_Some (cli_jwks_cache_ttl_seconds cli) ∧
  is_Some (cli_jwks_http_timeout_ms cli) ∧
  is_Some (cli_jwt_leeway cli) ∧
  is_Some (cli_production_mode cli) ∧
  is_Some (cli_listen cli) ∧
  is_Some (cli_capnp_enabled cli) ∧
  is_Some (cli_capnp_listen cli) ∧
  is_Some (cli_server_id cli) ∧
  is_Some (cli_aof cli) ∧
  is_Some (cli_read_only cli) ∧
  is_Some (cli_subscriber_queue_capacity cli) ∧
  is_Some (cli_webhook_queue_path cli) ∧
  is_Some (cli_webhook_timeout_ms cli) ∧
  is_Some (cli_webhook_concurrency_limit cli) ∧
  is_Some (cli_webhook_retry_count cli) ∧
  is_Some (cli_webhook_retry_initial_backoff_ms cli) ∧
  is_Some (cli_webhook_retry_max_backoff_ms cli) ∧
  is_Some (cli_webhook_lease_ms cli) ∧
  is_Some (cli_expiry_sweep_interval_ms cli) ∧
  is_Some (cli_native_executor_threads cli) ∧
  is_Some (cli_native_executor_queue_limit cli) ∧
  is_Some (cli_aof_writer_queue_limit cli) ∧
  is_Some (cli_aof_group_commit_delay_ms cli) ∧
  is_Some (cli_aof_group_commit_max_requests cli) ∧
  is_Some (cli_follow_host cli) ∧
  is_Some (cli_follow_port cli) ∧
  is_Some (cli_replication_credential cli) ∧
  is_Some (cli_replication_batch_size cli) ∧
  is_Some (cli_replication_reconnect_backoff_ms cli) ∧
  is_Some (cli_http_cors_enabled cli) ∧
  is_Some (cli_http_cors_allowed_origins cli) ∧
  is_Some (cli_http_cors_allowed_methods cli) ∧
  is_Some (cli_http_cors_allowed_headers cli) ∧
  is_Some (cli_http_cors_max_age_seconds cli) ∧
  is_Some (cli_http_max_body_bytes cli) ∧
  is_Some (cli_http_request_timeout_ms cli) ∧
  is_Some (cli_http_rate_limit_enabled cli) ∧
  is_Some (cli_http_rate_limit_requests_per_second cli) ∧
  is_Some (cli_http_rate_limit_burst cli) ∧
  is_Some (cli_http_principal_rate_limit_enabled cli) ∧
  is_Some (cli_http_principal_rate_limit_requests_per_second cli) ∧
  is_Some (cli_http_principal_rate_limit_burst cli) ∧
  is_Some (cli_logging_enabled cli) ∧
  is_Some (cli_log_format cli) ∧
  is_Some (cli_log_level cli) ∧
  is_Some (cli_log_destination cli) ∧
  is_Some (cli_log_file cli) ∧
  cli_require_auth cli = true ∧ cli_disable_bearer_token cli = true.

(** Flags come last: when all are given, neither the file nor the environment
    has a say, but for the timeouts of commands, which only a file can hold. *)
Lemma flags_decide c1 c2 cli r1 r2 :
  all_given cli → apply_cli_overrides c1 cli = Ok r1 → apply_cli_overrides c2 cli = Ok r2 →
  r1 = with_config_path (with_command_timeouts r2 (rc_command_timeouts c1)) (rc_config_path c1).
Proof.
  unfold all_given, apply_cli_overrides, cli_auth. destruct cli; cbn. intros Hg.
  repeat match type of Hg with
         | is_Some _ ∧ _ => destruct Hg as [[? ->] Hg]
         end.
  destruct Hg as [-> ->]. cbn.
  intros (f1 & Hf1 & (d1 & Hd1 & [= <-])%rbind_Ok_inv)%rbind_Ok_inv.
  intros (f2 & Hf2 & (d2 & Hd2 & [= <-])%rbind_Ok_inv)%rbind_Ok_inv.
  unfold with_config_path, with_command_timeouts. cbn. congruence.
Qed.

(** Without variables the environment changes nothing. *)
Lemma empty_environment c : env_overrides (λ _, None) c = Ok c.
Proof. destruct c as []; destruct rc_auth; reflexivity. Qed.

Module ServerExamples.
(** An environment with one variable. *)
Definition only (name value : string) : string → option string := λ n,
  if String.eqb n name then Some value else None.

(** [docs/persistence.md] names [LATLNG_EXPIRY_SWEEP_INTERVAL_MS] and says that
    zero disables the sweep.  A zero in the environment is passed over. *)
Theorem zero_sweep_is_ignored c c' :
  env_overrides (only "LATLNG_EXPIRY_SWEEP_INTERVAL_MS" "0") c = Ok c' →
  rc_expiry_sweep_interval_ms c' = rc_expiry_sweep_interval_ms c.
Proof.
  intros (f & _ & (d & _ & [= <-])%rbind_Ok_inv)%rbind_Ok_inv. reflexivity.
Qed.

(** A misspelt boolean in the environment counts as [false]: it takes back the
    requirement of authentication that the file makes, where the flag of the
    same name would be refused. *)
Theorem misspelt_switch_disables c c' :
  rc_require_auth c = true →
  env_overrides (only "LATLNG_REQUIRE_AUTH" "ture") c = Ok c' →
  rc_require_auth c' = false ∧ is_ok (parse_flag_bool "ture") = false.
Proof.
  intros _ (f & _ & (d & _ & [= <-])%rbind_Ok_inv)%rbind_Ok_inv. done.
Qed.
End ServerExamples.
